(* ===== verification/_CoqProject ===== *)
-Q . S2P
Prelude.v
State.v
Strings.v
Lexical.v
Base64.v
Xp.v
Sort.v
Lru.v
Database.v
Hash.v
CanonPath.v
Serialise.v
FileSystem.v
Archive.v
Git.v
Keys.v
StorePath.v
ContentAddress.v
PathInfo.v
NarInfo.v
Aterm.v
Derivation.v
DerivedPath.v
DrvHash.v
Protocol.v
Names.v
References.v
Graph.v
LocalStore.v
Gc.v
GcComplete.v
Expr.v
Value.v
Eval.v
Primops.v
EvalInv.v
EvalOk.v
EvalOps.v
EvalData.v
PrimopsSets.v
PrimopsOk.v
BindOk.v
EvalSafe.v
EvalFuel.v
EvalLaws.v
Scope.v
Instantiate.v
InstantiateOk.v
InstantiateSet.v
