(* ===== verification/Prelude.v ===== *)
(** * Verification library for the Bsd package manager

    Bsd builds packages from derivations and keeps the results in a store of
    immutable paths named by cryptographic hashes. Derivations are produced by
    a lazy functional language. This library models the parts of its C++ code
    the guarantees of the store rest on, and the evaluator of the language, and
    proves their correctness. Names of definitions are those of the code; paths
    below are relative to [src/src].

    ** The program and its parts

    - [libutil]: strings, encodings, hashes, canonical paths, byte streams, an
      abstract file system, the archive format that is hashed and copied.
    - [libstore]: store paths, content addresses, derivations, the protocols
      between client, daemon and remote stores, and the stores themselves
      (local with SQLite, remote, binary caches), building, garbage collection.
    - [libexpr], [libfetchers], [libflake], [libcmd], [libmain] and the command
      line: the language evaluator, source fetching and the user interface.

    An object is dumped as an archive ([Archive]) through sinks and sources
    ([Serialise]) from a file system ([FileSystem]); its hash ([Hash], [Base64])
    and its references become a content address ([ContentAddress]), which gives
    a store path ([StorePath]). Derivations ([Derivation]) name such paths;
    their output paths follow from hashes over their text ([DrvHash]); they
    travel between processes in wire formats ([Protocol]). What a store knows of
    a path ([PathInfo]) is signed ([Keys]), published in binary caches
    ([NarInfo]) and kept in the database of the local store ([Database],
    [LocalStore]) behind a cache ([Lru]). References are found by scanning
    ([References]); the graph they form ([Graph]) orders registrations and
    drives the garbage collector ([Gc], [GcComplete]).

    An expression is parsed into a tree whose variables are resolved to slots of
    environments ([Expr]) and evaluated ([Eval], [Primops]) to values in a heap
    ([Value]). Strings carry the store paths they mention as contexts; paths
    are copied to the store when a string is made of them.

    ** The files

    - [Prelude]: strings as lists of bytes, exceptions and the [result] monad,
      bytes, ordered maps and sets and their iteration, tactics and hints.
    - [State]: the monad of stateful code with exceptions, and its rules.
    - [Strings]: [libutil/strings.cc], [strings-inline.hh], [split.hh] and
      the string functions of [util.cc]: splitting, joining, rewriting,
      shell quoting, decimal numbers.
    - [Lexical]: [string2Int] of [util.cc] over Boost's [lexical_cast].
    - [Base64]: [base64Encode], [base64Decode] of [util.cc], at the bit level.
    - [Xp]: experimental features and settings, [experimental-features.cc].
    - [Sort]: [sort.hh]: the merge sorts, with comparators that may throw, have
      effects or be inconsistent.
    - [Lru]: [lru-cache.hh]; [Database]: [schema.sql] and the prepared
      statements of [local-store.cc].
    - [Hash]: [hash.cc]: formats, parsing, comparison, compression.
    - [CanonPath]: [canon-path.cc], [file-path-impl.hh].
    - [Serialise]: [serialise.cc], [serialise.hh]: the interfaces [Source] and
      [Sink] with the laws [SourceOk] and [SinkOk]; buffered, framed, sized and
      chained streams, the coroutine behind [sinkToSource]; values on the wire.
    - [FileSystem]: [source-accessor.cc], [memory-source-accessor.cc],
      [fs-sink.cc]: the accessor and sink interfaces, the in-memory tree.
    - [Archive]: [archive.cc]: dumping, parsing, the case hack, copying.
    - [Git]: [git.cc]: Git blobs and trees as an alternative to archives.
    - [Keys]: [signature/local-keys.cc], [signer.cc], [libstore/keys.cc].
    - [StorePath]: [libstore/path.cc] and the path functions it uses.
    - [ContentAddress]: [content-address.cc], [file-content-address.cc], the
      computation of store paths in [store-api.cc].
    - [PathInfo]: [path-info.cc]; [NarInfo]: [nar-info.cc].
    - [Aterm], [Derivation], [DrvHash]: [derivations.cc]: the lexical layer of
      the text format; the format, the kinds of derivations; hashing modulo
      fixed outputs with its table, filling in outputs, the check at
      registration.
    - [DerivedPath]: [outputs-spec.cc], [derived-path.cc],
      [derived-path-map.cc], [path-with-outputs.cc].
    - [Protocol]: [common-protocol.cc], [length-prefixed-protocol-helper.hh]
      and derivations on the wire; the interface [Serialise] with the law
      [SerialiseOk].
    - [Names]: [names.cc]; [References]: [references.cc],
      [path-references.cc].
    - [Graph]: [topo-sort.hh] and [closure.hh], the latter as a step relation
      over the interleavings of its callbacks.
    - [LocalStore]: registration, invalidation and queries of [local-store.cc],
      the cached queries of [store-api.cc].
    - [Gc], [GcComplete]: [collectGarbage] of [gc.cc] with [computeFSClosure] and
      [topoSortPaths] of [misc.cc]: its safety and its completeness.
    - [Expr]: [libexpr/bsdexpr.hh], [bsdexpr.cc], [symbol-table.hh]: syntax trees
      and the resolution of variables; [Value]: [value.hh], [attr-set.hh],
      [value/context.cc], [checked-arithmetic.hh]: values, environments,
      attribute sets, string contexts.
    - [Eval]: [eval.cc], [eval-inline.hh]: forcing, every kind of expression,
      calls, coercion to strings, equality; [Primops]: [primops.cc],
      [primops/context.cc]: about seventy primitive operations, the base
      environment and whole runs.
    - [EvalInv]: the invariant of the heap and rules for it; [EvalOk], [EvalOps],
      [EvalData], [PrimopsSets], [PrimopsOk]: each function of the evaluator
      keeps it; [BindOk]: resolution makes well-bound trees of parsed ones;
      [EvalSafe]: the safety of whole runs.
    - [EvalFuel]: the role of the bound on evaluation steps; [EvalLaws]: updates
      of sets and string contexts; [Scope]: lookup by name as the reference of
      lookup by slot.
    - [Instantiate]: [derivationStrict] of [primops.cc], [value-to-json.cc],
      [downstream-placeholder.cc], [writeDerivation]: attributes of a set become a
      derivation in the store; it joins [Primops] to [Derivation] and [DrvHash].
      [InstantiateOk]: what it makes passes the check of [DrvHash], and its inputs;
      [InstantiateSet]: the set it returns.

    ** How the code is modelled

    Strings and buffers are lists of bytes; [std::map] and [std::set] are finite
    maps and sets iterated in key order; machine integers are integers with the
    wrap-around written out where it matters. Exceptions are values of [exn] in
    [result]; assertions throw [AssertionFailure], and a step whose behaviour
    C++ does not define throws [UndefinedBehaviour], or [InactiveMember] where it
    is the read of an inactive member of a union, so that theorems show its
    absence or presence. Messages of exceptions are shortened. State is passed
    explicitly or threaded by a monad that keeps changes made before an
    exception: the table of derivation hashes (with the heap as a pair, [IM] in
    [Instantiate]), the local store with its
    transactions ([LM] in [LocalStore]), the variables of the collector ([GM] in
    [Gc]), the heap and the symbols of the evaluator ([EM] in [Value]).
    Interfaces of the code are type
    classes with laws; clients are verified against the laws and every
    implementation discharges them.

    Digest functions ([hashString]), the functions of libsodium, Boost's
    conversion of numbers, reading and adding derivations to a store, the experimental
    features, clocks, the roots of the garbage collector and the entries of the
    store directory are arguments. The hypothesis on digests is that they
    have the size of their algorithm. Nothing assumes that they never collide,
    which no digest of fixed size can satisfy: theorems on identity by hash assume
    that the digest is different on the strings that are hashed for the two objects
    in question, and spell these strings out ([separates] in [Prelude]). Of
    libsodium, theorems assume at most that it verifies what it signed.

    The functions of the evaluator take the record of those they call; the
    evaluator is the record unrolled a number of times. Doubles are the binary
    floating-point numbers of the Standard Library; copying sources to the store,
    resolving and ensuring store paths and printing of doubles are in the
    configuration [Config], about which [CfgOk] assumes that they fail with
    proper errors and give well-formed store paths.

    ** Fuel

    Loops that are not structural have a fuel argument, and running out of it
    throws [NonTermination]. Archives are parsed with fuel from the length of
    the input ([parseDump_total] shows it suffices); symbolic links with the
    limit of the code; nested derivation inputs with the length of the rest of
    the text, which bounds the depth of what was printed; hashes of derivations
    with the depth of the graph, any more giving the same answer; lists in the
    text format with the length of the rest; [rewriteStrings], which may not
    end in general, with the length of the string under the condition shown;
    the search of the garbage collector with one more than the number of valid
    paths ([gc_collects_garbage] shows it suffices); the closure run by it with
    the measure that [closure_terminates] shows to decrease. Programs of the
    language need not end; [run_fuel] states that a bound on the evaluation steps
    that is not reached does not influence the run of the model.

    ** What the theorems show

    - Encodings: base 16, 32 and 64 and SRI hashes, shell quoting, splitting
      and joining, canonical and relative paths, content addresses, store paths,
      archives, derivations as text and on the wire: what is written is read
      back.
    - Identity: as far as digests tell the hashed strings apart, store paths
      stand for name, contents and references, Git hashes for trees, placeholders
      for outputs; the hash of a derivation does not depend on how its fixed
      outputs are produced, nor on the table; output paths filled in from masked
      hashes pass the later check.
    - Safety: parsing an archive terminates on any input and writes only files
      of one tree with proper names; copying forwards exactly the archive; resolving
      symbolic links terminates; truncated input is an end of file.
    - The local store: registration is all or nothing and keeps the references
      of valid paths valid; invalidation refuses exactly the paths in use; the
      cache answers as a list ordered by last use; the collector keeps
      everything reachable from its roots and, run without a limit, collects
      the rest.
    - Graphs: sorting and closures end with the right answer or name a cycle,
      under every interleaving of the callbacks.
    - Trust: the signatures counted are those that trusted keys verify for the
      fingerprint, which stands for path, hash, size and references;
      content-addressed information needs none.
    - References: the scanner finds every reference however the archive is cut
      into chunks; rewriting with one pattern is that of the whole string.
    - Transparency of streams: framing, buffering and coroutines deliver what
      was written, in any chunks.
    - The language: without [break] and [appendContext], which can crash,
      evaluation fails no assertion, and its only undefined behaviour is in the
      error for an argument a function refuses; resolved variables are those the scopes
      define; updates and string contexts obey their laws; sorting permutes
      whatever the comparator does, and is stable.
    - From the language to the store: a derivation made by evaluation passes the
      check made when it is registered, everything its strings refer to is an
      input of it, and the set given back to the program has exactly its paths.
    - Deviations of the code from its documentation or its purpose, as theorems
      about concrete or general inputs.

    ** What is not modelled

    Fetchers, flakes, the command line, the stores across sockets, HTTP or S3,
    the build sandbox, logging, and whatever only wraps system calls; of the
    language the parser, which is generated, positions and traces of errors,
    printing, the debugger, external values, automatic calls, the evaluation
    cache, and the primitive operations that read files, fetch, match regular
    expressions or convert to and from JSON, XML and TOML (of JSON, the values
    made from attributes are modelled and their printing is a parameter); other
    JSON formats, since the JSON library is not part of the
    sources; [Derivation::tryResolve], which queries a store; of the local store
    adding files, verification and repair, realisations and opening the
    database; of the collector finding roots, the server for new temporary
    roots and the deletion of unused links.

    Some behaviour at the edge of what is modelled is left out. Allocations do not
    fail ([readString] of a huge length throws [std::bad_alloc] or
    [std::length_error] in the code). The destructor of [FramedSource] swallows
    exceptions; the model throws them, the position of the stream being
    unknown then. [maybeLstat] of an accessor does not throw. [computeClosure]
    starts from an empty set of results; the code can add to a set. The collector
    reads the database where the code asks the cache of path information first,
    so its theorems hold for a cache that agrees with the database.

    ** What could follow

    The worker and serve protocols on top of [Protocol], random access to
    archives, temporary roots, store references and URLs, profiles; the
    operations of the language that read files or parse JSON. *)

From Stdlib Require Export Ascii ZArith Lia ZifyNat.
From stdpp Require Export sorting.
From stdpp Require Export base gmap strings numbers list_basics list_relations list_monad list.

(** * Strings

    [std::string], [std::string_view] and raw byte buffers are all lists of
    8-bit characters. A literal such as "sha256" denotes such a list
    directly, so that it computes and simplifies like any other list. *)

Abbreviation str := (list ascii).

Declare Scope str_scope.
Delimit Scope str_scope with str.

Definition str_repr := list ascii.
Inductive str_lit := StrNil | StrCons (c : ascii) (s : str_lit).

Fixpoint str_lit_parse (l : list Byte.byte) : str_lit :=
  match l with
  | [] => StrNil
  | b :: l => StrCons (ascii_of_byte b) (str_lit_parse l)
  end.

Fixpoint str_lit_print (s : str_lit) : list Byte.byte :=
  match s with
  | StrNil => []
  | StrCons c s => byte_of_ascii c :: str_lit_print s
  end.

#[warnings="-via-type-remapping,-via-type-mismatch"]
String Notation str_repr str_lit_parse str_lit_print
  (via str_lit mapping [[nil] => StrNil, [cons] => StrCons]) : str_scope.

Open Scope str_scope.
Open Scope Z_scope.
Open Scope str_scope.

(** The quote character, which no literal can contain. *)
Definition dquote : ascii := "034"%char.
Definition newline : ascii := "010"%char.
Definition NUL : ascii := "000"%char.

(** * Exceptions

    A C++ function that may throw returns [result]; each constructor of
    [exn] is an exception class of the code, carrying the fixed part of its
    message; [StdException] is one of the standard library's, outside the
    hierarchy of [Error]. A failing [assert] (which aborts) is [AssertionFailure], so no
    handler can be mistaken for catching it; likewise [UndefinedBehaviour],
    a violated precondition of a library function, and [InactiveMember], the
    undefined behaviour of reading a member of a union that is not the active one.
    [NonTermination] is a loop that did not finish within its fuel. *)

Inductive exn :=
  | Error (msg : str)
  | UsageError (msg : str)
  | FormatError (msg : str)
  | BadHash (msg : str)
  | BadStorePath (msg : str)
  | BadStorePathName (msg : str)
  | SerialisationError (msg : str)
  | EndOfFile (msg : str)
  | BadURL (msg : str)
  | Unsupported (msg : str)
  | InvalidPath (msg : str)
  | MissingExperimentalFeature (feature : str)
  | StdException (what : str)
  | EvalError (msg : str)
  | TypeError (msg : str)
  | UndefinedVarError (name : str)
  | AssertionError (msg : str)
  | ThrownError (msg : str)
  | EvalAbort (msg : str)
  | InfiniteRecursionError
  | StackOverflow
  | AssertionFailure
  | UndefinedBehaviour
  | InactiveMember
  | NonTermination.

Inductive result (A : Type) :=
  | Ok (a : A)
  | Throw (e : exn).
Arguments Ok {A} _.
Arguments Throw {A} _.

#[export] Instance exn_eq_dec : EqDecision exn.
Proof. solve_decision. Defined.
#[export] Instance result_eq_dec {A} `{EqDecision A} : EqDecision (result A).
Proof. solve_decision. Defined.

#[export] Instance result_ret : MRet result := λ A a, Ok a.
#[export] Instance result_bind : MBind result := λ A B f r,
  match r with Ok a => f a | Throw e => Throw e end.
#[export] Instance result_fmap : FMap result := λ A B f r,
  match r with Ok a => Ok (f a) | Throw e => Throw e end.

Definition is_ok {A} (r : result A) : bool :=
  match r with Ok _ => true | Throw _ => false end.

(** Left-to-right traversal that stops at the first exception. *)
Fixpoint mapR {A B} (f : A → result B) (l : list A) : result (list B) :=
  match l with
  | [] => Ok []
  | x :: l => y ← f x; ys ← mapR f l; Ok (y :: ys)
  end.

Fixpoint foldR {A S} (f : S → A → result S) (s : S) (l : list A) : result S :=
  match l with
  | [] => Ok s
  | x :: l => s' ← f s x; foldR f s' l
  end.

Definition assertR (b : bool) : result unit :=
  if b then Ok tt else Throw AssertionFailure.

(** ** Proof automation for [result] *)

Create HintDb bsd.

(** Split every bind on a [result] in the hypotheses and drop the throwing
    branches that contradict an [Ok] outcome. *)
Ltac result_inv1 :=
  match goal with
  | H : Throw _ = Ok _ |- _ => discriminate H
  | H : Ok _ = Throw _ |- _ => discriminate H
  | H : Ok _ = Ok _ |- _ => injection H as H; try subst
  | H : mbind _ ?r = Ok _ |- _ =>
      let E := fresh "E" in destruct r eqn:E; cbn [mbind result_bind] in H
  | H : fmap _ ?r = Ok _ |- _ =>
      let E := fresh "E" in destruct r eqn:E; cbn [fmap result_fmap] in H
  | H : (if ?b then _ else _) = Ok _ |- _ =>
      let E := fresh "E" in destruct b eqn:E
  end.
Ltac result_inv := repeat (result_inv1; simplify_eq/=).

Lemma mapR_app {A B} (f : A → result B) l k ys zs :
  mapR f l = Ok ys → mapR f k = Ok zs → mapR f (l ++ k) = Ok (ys ++ zs).
Proof.
  revert ys. induction l as [|x l IH]; intros ys Hl Hk; simpl in *.
  - by simplify_eq.
  - destruct (f x); simpl in *; [|done].
    destruct (mapR f l); simpl in *; [|done]. simplify_eq/=.
    by rewrite (IH _ eq_refl Hk).
Qed.

Lemma mapR_Ok_Forall2 {A B} (f : A → result B) l ys :
  mapR f l = Ok ys ↔ Forall2 (λ x y, f x = Ok y) l ys.
Proof.
  split.
  - revert ys. induction l as [|x l IH]; intros ys H; simpl in *; simplify_eq/=.
    + constructor.
    + result_inv. constructor; auto.
  - induction 1 as [|x y l ys Hxy Hl IH]; simpl; [done|].
    by rewrite Hxy; simpl; rewrite IH.
Qed.

Lemma mapR_map_id {A B} (f : A → result B) (g : B → A) l :
  Forall (λ y, f (g y) = Ok y) l → mapR f (map g l) = Ok l.
Proof. induction 1 as [|y l Hy _ IH]; simpl; [done|]. by rewrite Hy; simpl; rewrite IH. Qed.

(** * Characters as machine bytes *)

Definition byte_val (c : ascii) : Z := Z.of_N (N_of_ascii c).
(** Conversion to [unsigned char]: truncation to the low 8 bits. *)
Definition byte_of (z : Z) : ascii := ascii_of_N (Z.to_N (z mod 256)).

Definition u8 (z : Z) : Z := z mod 2 ^ 8.
Definition u32 (z : Z) : Z := z mod 2 ^ 32.
Definition u64 (z : Z) : Z := z mod 2 ^ 64.
(** [int]: the two's complement representative of [z] modulo [2^32]. *)
Definition i32 (z : Z) : Z := (z + 2 ^ 31) mod 2 ^ 32 - 2 ^ 31.
(** [int64_t], likewise. *)
Definition i64 (z : Z) : Z := (z + 2 ^ 63) mod 2 ^ 64 - 2 ^ 63.

Lemma byte_val_bound c : 0 ≤ byte_val c < 256.
Proof. unfold byte_val. pose proof (N_ascii_bounded c). lia. Qed.

Lemma byte_of_val c : byte_of (byte_val c) = c.
Proof.
  unfold byte_of. rewrite Z.mod_small by apply byte_val_bound.
  unfold byte_val. rewrite N2Z.id. apply ascii_N_embedding.
Qed.

Lemma byte_val_of z : byte_val (byte_of z) = z mod 256.
Proof.
  unfold byte_of, byte_val. rewrite N_ascii_embedding; [|pose proof (Z.mod_pos_bound z 256); lia].
  apply Z2N.id. pose proof (Z.mod_pos_bound z 256); lia.
Qed.

Lemma byte_val_inj c d : byte_val c = byte_val d → c = d.
Proof. intros H. by rewrite <- (byte_of_val c), <- (byte_of_val d), H. Qed.

(** A decidable statement about one character holds of every character when
    it evaluates to [true] on all 256 of them. *)
Definition all_ascii : list ascii := map (λ n, ascii_of_nat n) (seq 0 256).

Lemma all_ascii_complete c : c ∈ all_ascii.
Proof.
  unfold all_ascii. apply list_elem_of_fmap. exists (nat_of_ascii c). split.
  - symmetry. apply ascii_nat_embedding.
  - apply elem_of_seq. pose proof (nat_ascii_bounded c). lia.
Qed.

Lemma ascii_forall (P : ascii → bool) :
  forallb P all_ascii = true → ∀ c, P c = true.
Proof.
  intros H c. rewrite forallb_forall in H. apply H, list_elem_of_In, all_ascii_complete.
Qed.

(** [check_ascii]: decide a boolean statement over all characters. *)
Ltac check_ascii c := revert c; apply ascii_forall; vm_compute; reflexivity.

(** * Order of [std::string]

    [operator<] and [compare] on strings compare unsigned bytes
    lexicographically; [std::map] and [std::set] iterate in that order. *)

Definition ascii_compare (c d : ascii) : comparison := byte_val c ?= byte_val d.

Fixpoint str_compare (s t : str) : comparison :=
  match s, t with
  | [], [] => Eq
  | [], _ => Lt
  | _, [] => Gt
  | c :: s, d :: t =>
      match ascii_compare c d with Eq => str_compare s t | o => o end
  end.

Definition str_ltb (s t : str) : bool :=
  match str_compare s t with Lt => true | _ => false end.
Definition str_leb (s t : str) : bool :=
  match str_compare s t with Gt => false | _ => true end.
Definition str_eqb (s t : str) : bool := bool_decide (s = t).

Lemma ascii_compare_eq c d : ascii_compare c d = Eq ↔ c = d.
Proof.
  unfold ascii_compare. rewrite Z.compare_eq_iff. split; [apply byte_val_inj|by intros ->].
Qed.

Lemma str_compare_refl s : str_compare s s = Eq.
Proof. induction s as [|c s IH]; simpl; [done|]. by rewrite (proj2 (ascii_compare_eq c c)). Qed.

Lemma str_compare_eq s t : str_compare s t = Eq ↔ s = t.
Proof.
  split; [|intros ->; apply str_compare_refl].
  revert t. induction s as [|c s IH]; intros [|d t]; simpl; try done.
  destruct (ascii_compare c d) eqn:E; try done.
  apply ascii_compare_eq in E as ->. intros H. f_equal. by apply IH.
Qed.

Lemma str_compare_antisym s t : str_compare t s = CompOpp (str_compare s t).
Proof.
  revert t. induction s as [|c s IH]; intros [|d t]; simpl; try done.
  unfold ascii_compare. rewrite (Z.compare_antisym (byte_val c)).
  destruct (byte_val c ?= byte_val d); simpl; auto.
Qed.

Lemma str_compare_lt_trans s t u :
  str_compare s t = Lt → str_compare t u = Lt → str_compare s u = Lt.
Proof.
  revert t u. induction s as [|c s IH]; intros [|d t] [|e u]; simpl; try done.
  unfold ascii_compare.
  destruct (byte_val c ?= byte_val d) eqn:E1; try done;
  destruct (byte_val d ?= byte_val e) eqn:E2; try done; intros H1 H2;
  rewrite ?Z.compare_eq_iff, ?Z.compare_lt_iff in *.
  - rewrite E1, E2, Z.compare_refl. eauto.
  - rewrite E1. by rewrite (proj2 (Z.compare_lt_iff _ _) E2).
  - rewrite <- E2. by rewrite (proj2 (Z.compare_lt_iff _ _) E1).
  - rewrite (proj2 (Z.compare_lt_iff _ _)); [done|lia].
Qed.

(** The non-strict order used by the ordered containers. *)
Definition str_le (s t : str) : Prop := str_compare s t ≠ Gt.

#[export] Instance str_le_dec : RelDecision str_le := λ s t,
  match str_compare s t as o return Decision (o ≠ Gt) with
  | Gt => right (λ H, H eq_refl)
  | Eq => left (λ H : Eq = Gt, match H with end)
  | Lt => left (λ H : Lt = Gt, match H with end)
  end.

#[export] Instance str_le_total : Total str_le.
Proof.
  intros s t. unfold str_le. rewrite (str_compare_antisym s t).
  destruct (str_compare s t); auto.
Qed.

#[export] Instance str_le_antisymm : AntiSymm (=) str_le.
Proof.
  intros s t. unfold str_le. rewrite (str_compare_antisym s t).
  destruct (str_compare s t) eqn:E; simpl; try done.
  intros _ _. by apply str_compare_eq.
Qed.

#[export] Instance str_le_trans : Transitive str_le.
Proof.
  intros s t u. unfold str_le. intros H1 H2 H3.
  rewrite str_compare_antisym in H3.
  destruct (str_compare u s) eqn:Eus; try done.
  destruct (str_compare s t) eqn:Est; try done.
  - apply str_compare_eq in Est as ->. rewrite str_compare_antisym, Eus in H2. done.
  - pose proof (str_compare_lt_trans _ _ _ Eus Est) as Hut.
    rewrite str_compare_antisym, Hut in H2. done.
Qed.

#[export] Instance str_le_preorder : PreOrder str_le.
Proof. split; [|apply _]. intros s. unfold str_le. by rewrite str_compare_refl. Qed.

(** * Ordered containers

    [std::map] and [std::set] are extensional finite maps and sets that are
    iterated in increasing key order. [KeyOrder] is the total order a key
    type provides; [map_sorted] and [set_sorted] are the iterations. *)

Class KeyOrder (K : Type) := {
  key_le : relation K;
  key_le_dec :: RelDecision key_le;
  key_le_total :: Total key_le;
  key_le_trans :: Transitive key_le;
  key_le_antisymm :: AntiSymm (=) key_le;
}.

#[export] Instance str_key_order : KeyOrder str := {| key_le := str_le |}.

(** Types that wrap a string (store paths, canonical paths) compare as it. *)
Definition inj_key_order {K} (f : K → str) `{!Inj (=) (=) f} : KeyOrder K.
Proof.
  refine {| key_le := λ x y, str_le (f x) (f y) |}.
  - intros x y. apply str_le_dec.
  - intros x y. apply str_le_total.
  - intros x y z. apply str_le_trans.
  - intros x y Hxy Hyx. apply (inj f). by apply (anti_symm str_le).
Defined.

Section containers.
Context {K : Type} `{Countable K} `{!KeyOrder K}.

Definition entry_le {A} (x y : K * A) : Prop := key_le x.1 y.1.

#[global] Instance entry_le_dec {A} : RelDecision (@entry_le A) := λ x y,
  key_le_dec x.1 y.1.

Definition map_sorted {A} (m : gmap K A) : list (K * A) :=
  merge_sort entry_le (map_to_list m).
Definition set_sorted (s : gset K) : list K :=
  merge_sort key_le (elements s).

#[global] Instance entry_le_total {A} : Total (@entry_le A).
Proof. intros [x a] [y b]. apply (key_le_total x y). Qed.
#[global] Instance entry_le_trans {A} : Transitive (@entry_le A).
Proof. intros [x a] [y b] [z c]. apply key_le_trans. Qed.

Lemma map_sorted_perm {A} (m : gmap K A) : map_sorted m ≡ₚ map_to_list m.
Proof. apply merge_sort_Permutation. Qed.

Lemma set_sorted_perm (s : gset K) : set_sorted s ≡ₚ elements s.
Proof. apply merge_sort_Permutation. Qed.

Lemma set_sorted_NoDup s : NoDup (set_sorted s).
Proof. rewrite set_sorted_perm. apply NoDup_elements. Qed.

Lemma map_sorted_NoDup {A} (m : gmap K A) : NoDup (map_sorted m).*1.
Proof. rewrite map_sorted_perm. apply NoDup_fst_map_to_list. Qed.

(** Filling a map from its own iteration restores it. *)
Lemma list_to_map_sorted {A} (m : gmap K A) :
  list_to_map (map_sorted m) = m.
Proof.
  rewrite <- (list_to_map_to_list m) at 2.
  apply list_to_map_proper; [apply map_sorted_NoDup|apply map_sorted_perm].
Qed.

Lemma list_to_set_sorted (s : gset K) : list_to_set (set_sorted s) = s.
Proof. apply set_eq. intros x. rewrite elem_of_list_to_set, set_sorted_perm. set_solver. Qed.

Lemma elem_of_set_sorted x s : x ∈ set_sorted s ↔ x ∈ s.
Proof. rewrite set_sorted_perm. apply elem_of_elements. Qed.

Lemma elem_of_map_sorted {A} k (a : A) m : (k, a) ∈ map_sorted m ↔ m !! k = Some a.
Proof. rewrite map_sorted_perm. apply elem_of_map_to_list. Qed.

Lemma set_sorted_Sorted s : StronglySorted key_le (set_sorted s).
Proof. apply StronglySorted_merge_sort; apply _. Qed.

Lemma map_sorted_Sorted {A} (m : gmap K A) : StronglySorted entry_le (map_sorted m).
Proof. apply StronglySorted_merge_sort; apply _. Qed.

Lemma length_set_sorted s : length (set_sorted s) = size s.
Proof. by rewrite set_sorted_perm. Qed.

(** Insertion with [emplace] or [operator\[\]] of pairwise distinct keys,
    left to right, also restores the map. *)
Definition insert_all {A} (m : gmap K A) (l : list (K * A)) : gmap K A :=
  foldl (λ m kv, <[kv.1 := kv.2]> m) m l.

Lemma insert_all_lookup_None {A} (l : list (K * A)) m k :
  k ∉ l.*1 → insert_all m l !! k = m !! k.
Proof.
  revert m. induction l as [|[k' a] l IH]; intros m Hk; simpl; [done|].
  rewrite IH by set_solver. apply lookup_insert_ne. set_solver.
Qed.

Lemma insert_all_list_to_map {A} (l : list (K * A)) m :
  NoDup l.*1 → insert_all m l = list_to_map l ∪ m.
Proof.
  revert m. induction l as [|[k a] l IH]; intros m Hnd; simpl.
  - by rewrite (left_id_L ∅ (∪)).
  - apply NoDup_cons in Hnd as [Hk Hnd]. rewrite IH by done.
    rewrite <- insert_union_l, insert_union_r; [done|].
    by apply not_elem_of_list_to_map_1.
Qed.

Lemma insert_all_sorted {A} (m : gmap K A) : insert_all ∅ (map_sorted m) = m.
Proof.
  rewrite insert_all_list_to_map by apply map_sorted_NoDup.
  rewrite (right_id_L ∅ (∪)). apply list_to_map_sorted.
Qed.

(** The order of iteration depends on the keys only. *)
Lemma map_sorted_keys {A} (m : gmap K A) : (map_sorted m).*1 = set_sorted (dom m).
Proof.
  apply (StronglySorted_unique key_le); [|apply set_sorted_Sorted|].
  - pose proof (map_sorted_Sorted m) as Hs. induction Hs as [|x l _ IH Hx]; cbn; constructor; [done|].
    by apply Forall_fmap.
  - apply NoDup_Permutation; [apply map_sorted_NoDup|apply set_sorted_NoDup|]. intros k.
    rewrite elem_of_set_sorted, elem_of_dom, list_elem_of_fmap. split.
    + intros ([k' a] & -> & Hin). apply elem_of_map_sorted in Hin. by exists a.
    + intros [a Ha]. exists (k, a). split; [done|]. by apply elem_of_map_sorted.
Qed.

Lemma map_sorted_same_keys {A B} (m1 : gmap K A) (m2 : gmap K B) :
  dom m1 = dom m2 →
  Forall2 (λ x y, x.1 = y.1 ∧ m1 !! x.1 = Some x.2 ∧ m2 !! y.1 = Some y.2) (map_sorted m1) (map_sorted m2).
Proof.
  intros Hd. assert ((map_sorted m1).*1 = (map_sorted m2).*1) as Hk by (by rewrite !map_sorted_keys, Hd).
  assert (∀ x, x ∈ map_sorted m1 → m1 !! x.1 = Some x.2) as H1 by (intros []; apply elem_of_map_sorted).
  assert (∀ x, x ∈ map_sorted m2 → m2 !! x.1 = Some x.2) as H2 by (intros []; apply elem_of_map_sorted).
  revert Hk H1 H2. generalize (map_sorted m1) as l1, (map_sorted m2) as l2. clear Hd.
  induction l1 as [|x l1 IH]; intros [|y l2]; cbn; intros Hk H1 H2; try done.
  injection Hk as Hxy Hk. apply Forall2_cons. split; [split_and!; [done|apply H1; by left|apply H2; by left]|].
  apply IH; [done|intros z Hz; apply H1; by right|intros z Hz; apply H2; by right].
Qed.
End containers.

#[export] Hint Rewrite @list_to_map_sorted @list_to_set_sorted @insert_all_sorted : bsd.
#[export] Hint Resolve map_sorted_NoDup set_sorted_NoDup byte_val_bound : bsd.

(** A strict order between neighbours, as checked while reading sorted data. *)
Lemma StronglySorted_lt_NoDup (l : list str) :
  NoDup l → StronglySorted str_le l → StronglySorted (λ s t, str_compare s t = Lt) l.
Proof.
  induction l as [|s l IH]; intros Hnd Hs; [constructor|].
  apply NoDup_cons in Hnd as [Hnin Hnd]. inversion Hs as [|? ? Hs' Hall]; subst.
  constructor; [by apply IH|]. rewrite Forall_forall in Hall |- *. intros t Ht.
  specialize (Hall t Ht). unfold str_le in Hall.
  destruct (str_compare s t) eqn:E; try done.
  apply str_compare_eq in E as ->. done.
Qed.

(** ** Digests

    No function with digests of bounded size is injective. What theorems on
    identity by hash assume is that it has different values on the strings the
    code hashes for the two objects compared, as far as these strings differ. *)

Definition separates {B} (f : str → B) (l1 l2 : list str) : Prop := Forall (λ s1, Forall (λ s2, f s1 = f s2 → s1 = s2) l2) l1.
#[export] Instance separates_dec {B} `{EqDecision B} (f : str → B) l1 l2 : Decision (separates f l1 l2).
Proof. unfold separates. apply _. Defined.
Lemma separates_inj {B} (f : str → B) l1 l2 s1 s2 : separates f l1 l2 → s1 ∈ l1 → s2 ∈ l2 → f s1 = f s2 → s1 = s2.
Proof. unfold separates. rewrite Forall_forall. intros H H1 H2. specialize (H s1 H1). rewrite Forall_forall in H. by apply H. Qed.
Lemma separates_mono {B} (f : str → B) l1 l2 k1 k2 : separates f l1 l2 → k1 ⊆ l1 → k2 ⊆ l2 → separates f k1 k2.
Proof.
  intros H H1 H2. apply Forall_forall. intros s1 Hs1. apply Forall_forall. intros s2 Hs2. apply (separates_inj f l1 l2); auto.
Qed.
