(* ===== verification/State.v ===== *)
(** Computations with state and exceptions, and the rules to verify them.

    What a computation did to the state before it threw an exception is kept,
    as in the code. [wp E m Q s] states that [m], started in [s], returns with
    [Q], or throws an exception that [E] allows. *)

From S2P Require Import Prelude.

Definition StE (S A : Type) : Type := S → result A * S.
#[export] Instance StE_ret {S} : MRet (StE S) := λ A a s, (Ok a, s).
#[export] Instance StE_bind {S} : MBind (StE S) := λ A B f m s,
  match m s with (Ok a, s) => f a s | (Throw e, s) => (Throw e, s) end.
#[export] Instance StE_fmap {S} : FMap (StE S) := λ A B f m, a ← m; mret (f a).

Section ops.
Context {S : Type}.

Definition throw {A} (e : exn) : StE S A := λ s, (Throw e, s).
Definition get {A} (f : S → A) : StE S A := λ s, (Ok (f s), s).
Definition modify (f : S → S) : StE S unit := λ s, (Ok tt, f s).
Definition lift {A} (r : result A) : StE S A := λ s, (r, s).
(** [try m] with a handler for the exceptions it catches. *)
Definition catch {A} (m : StE S A) (h : exn → option (StE S A)) : StE S A := λ s,
  match m s with
  | (Ok a, s) => (Ok a, s)
  | (Throw e, s) => match h e with Some k => k s | None => (Throw e, s) end
  end.
Fixpoint foldS {A B} (f : B → A → StE S B) (b : B) (l : list A) : StE S B :=
  match l with [] => mret b | x :: l => b ← f b x; foldS f b l end.
Definition mapS {A B} (f : A → StE S B) : list A → StE S (list B) :=
  fix go l := match l with [] => mret [] | x :: l => y ← f x; ys ← go l; mret (y :: ys) end.

(** * Weakest preconditions *)

Definition wp {A} (E : exn → S → Prop) (m : StE S A) (Q : A → S → Prop) (s : S) : Prop :=
  match m s with (Ok a, s) => Q a s | (Throw e, s) => E e s end.

Section rules.
Context (E : exn → S → Prop).

Lemma st_ret {A} (a : A) (Q : A → S → Prop) s : Q a s → wp E (mret a) Q s.
Proof. done. Qed.
Lemma st_bind {A B} (m : StE S A) (f : A → StE S B) Q s : wp E m (λ a, wp E (f a) Q) s → wp E (m ≫= f) Q s.
Proof. unfold wp, mbind, StE_bind. by destruct (m s) as [[a|e] s']. Qed.
Lemma st_mono {A} (m : StE S A) (P Q : A → S → Prop) s : wp E m P s → (∀ a s', P a s' → Q a s') → wp E m Q s.
Proof. unfold wp. destruct (m s) as [[a|e] s']; auto. Qed.
Lemma st_throw {A} e (Q : A → S → Prop) s : E e s → wp E (throw e) Q s.
Proof. done. Qed.
Lemma st_get {A} (f : S → A) Q s : Q (f s) s → wp E (get f) Q s.
Proof. done. Qed.
Lemma st_modify f Q s : Q tt (f s) → wp E (modify f) Q s.
Proof. done. Qed.
Lemma st_lift {A} (r : result A) Q s : match r with Ok a => Q a s | Throw e => E e s end → wp E (lift r) Q s.
Proof. by destruct r. Qed.

(** Loops, with an invariant on what was done and what is left. *)
Lemma st_foldS {A B} (f : B → A → StE S B) (I : list A → B → S → Prop) l b s :
  I l b s → (∀ x k b s, (∃ l1, l = l1 ++ x :: k) → I (x :: k) b s → wp E (f b x) (λ b' s', I k b' s') s) →
  wp E (foldS f b l) (λ b' s', I [] b' s') s.
Proof.
  revert b s. assert (∀ k l1, l = l1 ++ k → ∀ b s, I k b s →
    (∀ x k b s, (∃ l1, l = l1 ++ x :: k) → I (x :: k) b s → wp E (f b x) (λ b' s', I k b' s') s) →
    wp E (foldS f b k) (λ b' s', I [] b' s') s) as H; [|intros b s H1 H2; by apply (H l [])].
  induction k as [|x k IH]; intros l1 El b s HI Hf; cbn [foldS]; [by apply st_ret|].
  apply st_bind. eapply st_mono; [apply Hf; [eauto|done]|]. intros b' s' HI'. apply (IH (l1 ++ [x])); [|done|done].
  by rewrite <- app_assoc.
Qed.
End rules.

Lemma st_weaken {A} (E E' : exn → S → Prop) (m : StE S A) Q s : wp E m Q s → (∀ e s', E e s' → E' e s') → wp E' m Q s.
Proof. unfold wp. destruct (m s) as [[a|e] s']; auto. Qed.
End ops.

Ltac wp_step := first [apply st_bind | apply st_ret | apply st_get | apply st_modify].
