(* ===== verification/Strings.v ===== *)
(** String utilities: [libutil/strings-inline.hh], [libutil/strings.cc],
    [libutil/util.cc] and [libutil/split.hh].

    The C++ loops walk a string by position ([find_first_of], [substr]); they
    are modelled as such, with fuel bounded by the length of the string, and
    proved equal to structural reference functions on lists. *)

From S2P Require Import Prelude.

(** * The [std::string] operations the code uses *)

Fixpoint find_idx (p : ascii → bool) (s : str) : option nat :=
  match s with
  | [] => None
  | c :: s => if p c then Some 0%nat else S <$> find_idx p s
  end.

Definition char_in (set : str) (c : ascii) : bool := bool_decide (c ∈ set).

(** [s.find_first_of(set, pos)] and [s.find_first_not_of(set, pos)]; [None]
    is [npos]. *)
Definition find_first_of (s set : str) (pos : nat) : option nat :=
  Nat.add pos <$> find_idx (char_in set) (drop pos s).
Definition find_first_not_of (s set : str) (pos : nat) : option nat :=
  Nat.add pos <$> find_idx (λ c, negb (char_in set c)) (drop pos s).
(** [s.find_last_not_of(set)]. *)
Definition find_last_not_of (s set : str) : option nat :=
  (λ i, (length s - 1 - i)%nat) <$> find_idx (λ c, negb (char_in set c)) (reverse s).

Definition substr (s : str) (pos n : nat) : str := take n (drop pos s).

Fixpoint is_prefix (p s : str) : bool :=
  match p, s with
  | [], _ => true
  | c :: p, d :: s => bool_decide (c = d) && is_prefix p s
  | _ :: _, [] => false
  end.

(** [s.find(needle)], first occurrence. *)
Fixpoint find_str (needle s : str) : option nat :=
  if is_prefix needle s then Some 0%nat
  else match s with [] => None | _ :: s => S <$> find_str needle s end.
(** [s.find(needle, pos)]. *)
Definition find_from (s needle : str) (pos : nat) : option nat :=
  if (length s <? pos)%nat then None
  else Nat.add pos <$> find_str needle (drop pos s).

(** * Splitting and joining *)

(** [basicTokenizeString]: [pos] is the start of the next token. *)
Fixpoint tokenize_loop (fuel : nat) (s seps : str) (pos : option nat) (result : list str)
    : list str :=
  match fuel, pos with
  | S fuel, Some pos =>
      let end_ := default (length s) (find_first_of s seps (pos + 1)) in
      tokenize_loop fuel s seps (find_first_not_of s seps end_)
        (result ++ [substr s pos (end_ - pos)])
  | _, _ => result
  end.
Definition tokenizeString (s seps : str) : list str :=
  tokenize_loop (S (length s)) s seps (find_first_not_of s seps 0) [].

(** [basicSplitString]: loops while [pos <= s.size()]. *)
Fixpoint split_loop (fuel : nat) (s seps : str) (pos : nat) (result : list str) : list str :=
  match fuel with
  | S fuel =>
      if (pos <=? length s)%nat then
        let end_ := default (length s) (find_first_of s seps pos) in
        split_loop fuel s seps (end_ + 1) (result ++ [substr s pos (end_ - pos)])
      else result
  | O => result
  end.
Definition splitString (s seps : str) : list str := split_loop (S (length s)) s seps 0 [].

(** [basicConcatStringsSep]: [tail] is false before the first element. *)
Definition concatStringsSep (sep : str) (ss : list str) : str :=
  (foldl (λ (st : bool * str) i,
     let '(tail, s) := st in (true, (if tail then s ++ sep else s) ++ i))
     (false, []) ss).2.

Definition dropEmptyInitThenConcatStringsSep (sep : str) (ss : list str) : str :=
  foldl (λ s i, (if (length s =? 0)%nat then s else s ++ sep) ++ i) [] ss.

Definition hasPrefix (s prefix : str) : bool :=
  bool_decide (take (length prefix) s = prefix).

Definition hasSuffix (s suffix : str) : bool :=
  (length suffix <=? length s)%nat
  && bool_decide (drop (length s - length suffix) s = suffix).

Definition chomp (s : str) : str :=
  match find_last_not_of s [" "; "010"; "013"; "009"]%char with
  | None => []
  | Some i => take (i + 1) s
  end.

Definition trim (s whitespace : str) : str :=
  match find_first_not_of s whitespace 0 with
  | None => []
  | Some i =>
      match find_last_not_of s whitespace with
      | None => drop i s
      | Some j => substr s i (j - i + 1)
      end
  end.

(** [splitPrefixTo(string &, char)]: the prefix, and the updated argument. *)
Definition splitPrefixTo (string : str) (separator : ascii) : option str * str :=
  match find_idx (λ c, bool_decide (c = separator)) string with
  | Some i => (Some (take i string), drop (i + 1) string)
  | None => (None, string)
  end.

Definition splitPrefix (string prefix : str) : bool * str :=
  if hasPrefix string prefix then (true, drop (length prefix) string) else (false, string).

(** [std::tolower] in the C locale. *)
Definition tolower (c : ascii) : ascii :=
  if (65 <=? byte_val c) && (byte_val c <=? 90) then byte_of (byte_val c + 32) else c.
Definition toLower (s : str) : str := map tolower s.

Definition getLine (s : str) : str * str :=
  match find_idx (λ c, bool_decide (c = newline)) s with
  | None => (s, [])
  | Some n =>
      let line := take n s in
      let line := if bool_decide (last line = Some "013"%char) then take (length line - 1) line
                  else line in
      (line, drop (n + 1) s)
  end.

(** * Replacing *)

(** [res.replace(pos, n, to)]. *)
Definition str_replace (s : str) (pos n : nat) (to : str) : str :=
  take pos s ++ to ++ drop (pos + n) s.

Fixpoint replace_loop (fuel : nat) (res from to : str) (pos : nat) : str :=
  match fuel with
  | O => res
  | S fuel =>
      match find_from res from pos with
      | None => res
      | Some pos =>
          replace_loop fuel (str_replace res pos (length from) to) from to (pos + length to)
      end
  end.
Definition replaceStrings (res from to : str) : str :=
  match from with [] => res | _ => replace_loop (S (length res)) res from to 0 end.

(** [rewriteStrings]: the inner loop searches again from the position of the
    replacement itself, so it can diverge; [None] is running out of fuel. *)
Fixpoint rewrite_loop (fuel : nat) (s from to : str) (j : nat) : option str :=
  match fuel with
  | O => None
  | S fuel =>
      match find_from s from j with
      | None => Some s
      | Some j => rewrite_loop fuel (str_replace s j (length from) to) from to j
      end
  end.
Definition rewriteStrings (fuel : nat) (s : str) (rewrites : gmap str str) : option str :=
  foldl (λ (os : option str) (i : str * str), s ← os;
     if bool_decide (i.1 = i.2) then Some s else rewrite_loop fuel s i.1 i.2 0)
    (Some s) (map_sorted rewrites).

(** * Shell quoting *)

Definition squote : ascii := "'"%char.
Definition backslash : ascii := "\"%char.

Definition escapeShellArgAlways (s : str) : str :=
  [squote]
  ++ concat (map (λ i, if bool_decide (i = squote)
                       then [squote; backslash; squote; squote] else [i]) s)
  ++ [squote].

Arguments escapeShellArgAlways : simpl never.

(** The mutable locals of [shellSplitString]. *)
Record shell_state := ShellState {
  sh_result : list str;
  sh_current : str;
  sh_started : bool;
  sh_escaping : bool;
}.

Definition pushCurrent (st : shell_state) : shell_state :=
  if sh_started st then ShellState (sh_result st ++ [sh_current st]) [] false (sh_escaping st)
  else st.
Definition pushChar (c : ascii) (st : shell_state) : shell_state :=
  ShellState (sh_result st) (sh_current st ++ [c]) true (sh_escaping st).
Definition set_escaping (b : bool) (st : shell_state) : shell_state :=
  ShellState (sh_result st) (sh_current st) (sh_started st) b.
Definition set_started (st : shell_state) : shell_state :=
  ShellState (sh_result st) (sh_current st) true (sh_escaping st).

(** Each quote loop returns the state and the rest of the input. Reaching the
    end of the input, even on the last closing step, is an error. *)
Fixpoint inDoubleQuotes (s : str) (st : shell_state) : result (shell_state * str) :=
  match s with
  | [] => Throw (Error "unterminated double quote")
  | c :: s =>
      if sh_escaping st then
        let st :=
          if char_in ["$"; "`"; dquote; backslash]%char c then pushChar c st
          else pushChar c (pushChar backslash st) in
        inDoubleQuotes s (set_escaping false st)
      else if bool_decide (c = backslash) then inDoubleQuotes s (set_escaping true st)
      else if bool_decide (c = dquote) then Ok (st, s)
      else inDoubleQuotes s (pushChar c st)
  end.

Fixpoint inSingleQuotes (s : str) (st : shell_state) : result (shell_state * str) :=
  match s with
  | [] => Throw (Error "unterminated single quote")
  | c :: s =>
      if bool_decide (c = squote) then Ok (st, s)
      else inSingleQuotes s (pushChar c st)
  end.

Fixpoint shell_loop (fuel : nat) (s : str) (st : shell_state) : result shell_state :=
  match fuel, s with
  | _, [] => Ok st
  | O, _ => Ok st
  | S fuel, c :: s =>
      if sh_escaping st then shell_loop fuel s (set_escaping false (pushChar c st))
      else if bool_decide (c = backslash) then shell_loop fuel s (set_escaping true st)
      else if bool_decide (c = " "%char) || bool_decide (c = "009"%char) then
        shell_loop fuel s (pushCurrent st)
      else if bool_decide (c = dquote) then
        p ← inDoubleQuotes s (set_started st); shell_loop fuel p.2 p.1
      else if bool_decide (c = squote) then
        p ← inSingleQuotes s (set_started st); shell_loop fuel p.2 p.1
      else shell_loop fuel s (pushChar c st)
  end.

Definition shellSplitString (s : str) : result (list str) :=
  st ← shell_loop (length s) s (ShellState [] [] false false);
  Ok (sh_result (pushCurrent st)).

(** * Splitting: reference function and laws *)

(** Split at every character satisfying [p]; always at least one piece. *)
Fixpoint split_on (p : ascii → bool) (s : str) : list str :=
  match s with
  | [] => [[]]
  | c :: s =>
      if p c then [] :: split_on p s
      else match split_on p s with
           | h :: t => (c :: h) :: t
           | [] => [[c]]
           end
  end.

Definition nonempty (s : str) : bool := match s with [] => false | _ => true end.

Lemma split_on_nonnil p s : split_on p s ≠ [].
Proof. destruct s; simpl; [done|]. destruct (p _); [done|]. by destruct (split_on p s). Qed.

Lemma split_on_find p s :
  split_on p s =
    match find_idx p s with
    | None => [s]
    | Some i => take i s :: split_on p (drop (S i) s)
    end.
Proof.
  induction s as [|c s IH]; simpl; [done|].
  destruct (p c) eqn:E; simpl; [by rewrite drop_0|].
  rewrite IH. by destruct (find_idx p s).
Qed.

Lemma find_idx_Some p s i :
  find_idx p s = Some i →
  (i < length s)%nat ∧ forallb (λ c, negb (p c)) (take i s) = true
  ∧ (∃ c, s !! i = Some c ∧ p c = true).
Proof.
  revert i. induction s as [|c s IH]; intros i H; simpl in *; [done|].
  destruct (p c) eqn:E; simplify_eq/=.
  - split; [lia|]. eauto.
  - destruct (find_idx p s) as [j|]; simplify_eq/=.
    destruct (IH _ eq_refl) as (? & ? & ?). rewrite E. split; [lia|]. eauto.
Qed.

Lemma find_idx_None p s : find_idx p s = None ↔ forallb (λ c, negb (p c)) s = true.
Proof.
  induction s as [|c s IH]; simpl; [done|]. destruct (p c); simpl; [done|].
  by destruct (find_idx p s); simpl; rewrite <- IH.
Qed.

Lemma find_idx_app_stop p s c t :
  forallb (λ c, negb (p c)) s = true → p c = true →
  find_idx p (s ++ c :: t) = Some (length s).
Proof.
  induction s as [|d s IH]; simpl; intros Hs Hc; [by rewrite Hc|].
  apply andb_prop in Hs as [Hd Hs]. destruct (p d); [done|]. by rewrite IH.
Qed.

Lemma splitString_loop_spec fuel s seps pos acc :
  (length s < fuel + pos)%nat → (pos <= S (length s))%nat →
  split_loop fuel s seps pos acc =
    if (pos <=? length s)%nat then acc ++ split_on (char_in seps) (drop pos s) else acc.
Proof.
  revert pos acc. induction fuel as [|fuel IH]; intros pos acc Hf Hp; simpl.
  - destruct (Nat.leb_spec pos (length s)); [lia|done].
  - destruct (Nat.leb_spec pos (length s)) as [Hle|]; [|done].
    unfold find_first_of. rewrite split_on_find.
    destruct (find_idx _ (drop pos s)) as [i|] eqn:E; simpl.
    + apply find_idx_Some in E as (Hi & _). rewrite length_drop in Hi.
      rewrite IH by lia. destruct (Nat.leb_spec (pos + i + 1) (length s)); [|lia].
      unfold substr. rewrite <- app_assoc. simpl. do 2 f_equal.
      * f_equal. lia.
      * rewrite drop_drop. do 2 f_equal. lia.
    + rewrite IH by lia. destruct (Nat.leb_spec (length s + 1) (length s)); [lia|].
      unfold substr. rewrite take_ge; [done|]. rewrite length_drop. lia.
Qed.

(** The position loop of [splitString] computes the structural split. *)
Lemma splitString_split_on s seps : splitString s seps = split_on (char_in seps) s.
Proof. unfold splitString. rewrite splitString_loop_spec by lia. by rewrite drop_0. Qed.

Lemma split_on_filter_step p s i :
  find_idx (λ c, negb (p c)) s = Some i →
  List.filter nonempty (split_on p s) =
  List.filter nonempty (split_on p (drop i s)).
Proof.
  revert i. induction s as [|c s IH]; intros i; simpl; [done|].
  destruct (p c) eqn:E; simpl; intros H; simplify_eq/=; [|by rewrite E].
  destruct (find_idx _ s) eqn:Es; simplify_eq/=. by apply IH.
Qed.

Lemma split_on_filter_none p s :
  find_idx (λ c, negb (p c)) s = None → List.filter nonempty (split_on p s) = [].
Proof.
  induction s as [|c s IH]; simpl; [done|]. destruct (p c); simpl; [|done].
  by destruct (find_idx _ s).
Qed.

Lemma split_on_token p c s :
  p c = false →
  split_on p (c :: s) =
    match find_idx p s with
    | None => [c :: s]
    | Some i => (c :: take i s) :: split_on p (drop (S i) s)
    end.
Proof.
  intros H. rewrite split_on_find. simpl. rewrite H. by destruct (find_idx p s).
Qed.

Lemma tokenize_loop_spec fuel s seps pos acc :
  (length s < fuel + pos)%nat → (pos <= length s)%nat →
  tokenize_loop fuel s seps (find_first_not_of s seps pos) acc =
    acc ++ List.filter nonempty (split_on (char_in seps) (drop pos s)).
Proof.
  revert pos acc. induction fuel as [|fuel IH]; intros pos acc Hf Hp; [lia|].
  unfold find_first_not_of at 1.
  destruct (find_idx _ (drop pos s)) as [i|] eqn:Ei; simpl;
    [|rewrite (split_on_filter_none _ _ Ei), app_nil_r; done].
  rewrite (split_on_filter_step _ _ _ Ei), drop_drop.
  apply find_idx_Some in Ei as (Hi & _ & c & Hc & Hsep).
  rewrite length_drop in Hi. rewrite lookup_drop in Hc.
  rewrite (drop_S _ _ _ Hc). apply negb_true_iff in Hsep.
  rewrite split_on_token by done. unfold find_first_of.
  replace (pos + i + 1)%nat with (S (pos + i)) by lia.
  destruct (find_idx _ (drop (S (pos + i)) s)) as [j|] eqn:Ej; simpl.
  - apply find_idx_Some in Ej as (Hj & _ & d & Hd & Hsepd).
    rewrite length_drop in Hj. rewrite lookup_drop in Hd.
    rewrite IH by lia. rewrite <- app_assoc. f_equal. simpl.
    unfold substr. rewrite (drop_S _ _ _ Hc).
    replace (S (pos + i + j) - (pos + i))%nat with (S j) by lia. simpl. f_equal.
    rewrite drop_drop. replace (S (pos + i + j)) with (S (pos + i) + j)%nat by lia.
    rewrite (drop_S _ _ _ Hd). rewrite (split_on_find _ (d :: _)). simpl.
    rewrite Hsepd. simpl. rewrite drop_0. do 3 f_equal. lia.
  - rewrite IH by lia. rewrite drop_all. simpl. unfold substr.
    rewrite (drop_S _ _ _ Hc), app_nil_r. do 2 f_equal.
    rewrite take_ge; [done|]. simpl. rewrite length_drop. lia.
Qed.

(** [tokenizeString] is [splitString] without its empty pieces. *)
Lemma tokenizeString_split s seps :
  tokenizeString s seps = List.filter nonempty (splitString s seps).
Proof.
  unfold tokenizeString. rewrite tokenize_loop_spec by lia.
  by rewrite drop_0, splitString_split_on.
Qed.

(** ** Joining *)

Fixpoint join (sep : str) (ss : list str) : str :=
  match ss with
  | [] => []
  | [s] => s
  | s :: ss => s ++ sep ++ join sep ss
  end.

Lemma join_cons sep s ss : ss ≠ [] → join sep (s :: ss) = s ++ sep ++ join sep ss.
Proof. by destruct ss. Qed.

Lemma join_snoc sep ss s : ss ≠ [] → join sep (ss ++ [s]) = join sep ss ++ sep ++ s.
Proof.
  induction ss as [|t ss IH]; intros H; [done|]. destruct ss as [|t' ss]; [done|].
  change ((t :: t' :: ss) ++ [s]) with (t :: ((t' :: ss) ++ [s])).
  rewrite !(join_cons _ t) by done. rewrite IH by done. by rewrite <- !app_assoc.
Qed.

Lemma concatStringsSep_join sep ss : concatStringsSep sep ss = join sep ss.
Proof.
  unfold concatStringsSep.
  assert (∀ ss acc, (foldl (λ (st : bool * str) i,
     let '(tail, s) := st in (true, (if tail then s ++ sep else s) ++ i)) (true, acc) ss).2
     = acc ++ concat (map (app sep) ss)) as Hgen.
  { clear ss. induction ss as [|s ss IH]; intros acc; simpl; [by rewrite app_nil_r|].
    rewrite IH. by rewrite <- !app_assoc. }
  destruct ss as [|s ss]; simpl; [done|]. rewrite Hgen.
  revert s. induction ss as [|t ss IH]; intros s; simpl; [by rewrite app_nil_r|].
  rewrite <- IH. by rewrite <- !app_assoc.
Qed.

Lemma split_on_join_back sep p s :
  (∀ c, p c = true ↔ c = sep) → join [sep] (split_on p s) = s.
Proof.
  intros Hp. induction s as [|c s IH]; [done|]. simpl.
  destruct (p c) eqn:E.
  - apply Hp in E as ->. rewrite join_cons by apply split_on_nonnil. by rewrite IH.
  - pose proof (split_on_nonnil p s).
    destruct (split_on p s) as [|h [|h' t]]; simpl in *; [done|by rewrite IH|by rewrite IH].
Qed.

Lemma drop_app_cons_length {A} (s : list A) c t : drop (S (length s)) (s ++ c :: t) = t.
Proof. induction s as [|d s IH]; simpl; [by rewrite drop_0|]. done. Qed.

Lemma split_on_app_sep p s c t :
  forallb (λ c, negb (p c)) s = true → p c = true →
  split_on p (s ++ c :: t) = s :: split_on p t.
Proof.
  intros Hs Hc. rewrite split_on_find, find_idx_app_stop by done.
  by rewrite take_app_length, drop_app_cons_length.
Qed.

Lemma split_on_join p sep ss :
  p sep = true → ss ≠ [] → Forall (λ s, forallb (λ c, negb (p c)) s = true) ss →
  split_on p (join [sep] ss) = ss.
Proof.
  intros Hsep Hne Hss. induction Hss as [|s ss Hs Hss IH]; [done|].
  destruct (decide (ss = [])) as [->|].
  - simpl. by rewrite split_on_find, (proj2 (find_idx_None _ _)).
  - rewrite join_cons by done. change (s ++ [sep] ++ join [sep] ss) with (s ++ sep :: join [sep] ss).
    by rewrite split_on_app_sep, IH.
Qed.

(** * Shell quoting: laws *)

Lemma inSingleQuotes_length s st p :
  inSingleQuotes s st = Ok p → (length p.2 < length s)%nat.
Proof.
  revert st. induction s as [|c s IH]; intros st H; simpl in *; [done|].
  case_bool_decide; simplify_eq/=; [lia|]. apply IH in H. lia.
Qed.

Lemma inDoubleQuotes_length s st p :
  inDoubleQuotes s st = Ok p → (length p.2 < length s)%nat.
Proof.
  revert st. induction s as [|c s IH]; intros st H; simpl in *; [done|].
  destruct (sh_escaping st); [apply IH in H; lia|].
  case_bool_decide; [apply IH in H; lia|].
  case_bool_decide; simplify_eq/=; [lia|]. apply IH in H. lia.
Qed.

(** Fuel equal to the length of the input is always enough. *)
Lemma shell_loop_fuel f1 f2 s st :
  (length s <= f1)%nat → (length s <= f2)%nat → shell_loop f1 s st = shell_loop f2 s st.
Proof.
  revert f2 s st. induction f1 as [|f1 IH]; intros [|f2] [|c s] st H1 H2; simpl in *;
    try done; try lia.
  destruct (sh_escaping st); [apply IH; lia|].
  case_bool_decide; [apply IH; lia|].
  destruct (_ || _); [apply IH; lia|].
  case_bool_decide.
  { destruct (inDoubleQuotes s _) as [p|] eqn:E; simpl; [|done].
    apply inDoubleQuotes_length in E. apply IH; lia. }
  case_bool_decide; [|apply IH; lia].
  destruct (inSingleQuotes s _) as [p|] eqn:E; simpl; [|done].
  apply inSingleQuotes_length in E. apply IH; lia.
Qed.

Definition shell_run (s : str) (st : shell_state) : result shell_state :=
  shell_loop (length s) s st.

Lemma shell_run_squote s st :
  sh_escaping st = false →
  shell_run (squote :: s) st =
    (p ← inSingleQuotes s (set_started st); shell_run p.2 p.1).
Proof.
  intros He. unfold shell_run. simpl. rewrite He. simpl.
  destruct (inSingleQuotes s _) as [p|] eqn:E; simpl; [|done].
  apply inSingleQuotes_length in E. apply shell_loop_fuel; lia.
Qed.

Lemma shell_run_backslash c s st :
  sh_escaping st = false → shell_run (backslash :: c :: s) st = shell_run s (pushChar c st).
Proof. intros He. unfold shell_run. destruct st. simpl in *. by rewrite He. Qed.

Lemma shell_run_space s st :
  sh_escaping st = false → shell_run (" "%char :: s) st = shell_run s (pushCurrent st).
Proof. intros He. unfold shell_run. simpl. by rewrite He. Qed.

Definition push_all (s : str) (st : shell_state) : shell_state :=
  ShellState (sh_result st) (sh_current st ++ s) true (sh_escaping st).

Definition quote_body (s : str) : str :=
  concat (map (λ i, if bool_decide (i = squote)
                    then [squote; backslash; squote; squote] else [i]) s).

Lemma quoted_body_run s rest st :
  sh_escaping st = false → sh_started st = true →
  (p ← inSingleQuotes (quote_body s ++ squote :: rest) st; shell_run p.2 p.1)
  = shell_run rest (push_all s st).
Proof.
  revert st. induction s as [|c s IH]; intros st He Hs.
  - simpl. unfold push_all. rewrite app_nil_r. by destruct st; simpl in *; subst.
  - unfold quote_body. simpl. fold (quote_body s). case_bool_decide as Hc; simpl.
    + rewrite shell_run_backslash, shell_run_squote by done.
      rewrite IH by done. subst c. unfold push_all. simpl. by rewrite <- app_assoc.
    + rewrite bool_decide_false by done. rewrite IH by done.
      unfold push_all. simpl. by rewrite <- app_assoc.
Qed.

Lemma shell_run_quoted s rest st :
  sh_escaping st = false →
  shell_run (escapeShellArgAlways s ++ rest) st = shell_run rest (push_all s st).
Proof.
  intros He. unfold escapeShellArgAlways. fold (quote_body s).
  rewrite <- !app_assoc. simpl. rewrite shell_run_squote by done.
  by rewrite quoted_body_run.
Qed.

Lemma shell_run_args ss st :
  sh_escaping st = false → sh_started st = false → sh_current st = [] →
  (st' ← shell_run (join " " (map escapeShellArgAlways ss)) st;
     Ok (sh_result (pushCurrent st')))
  = Ok (sh_result st ++ ss).
Proof.
  revert st. induction ss as [|s ss IH]; intros [r cur sta esc] He Hs Hc; simpl in He, Hs, Hc; subst.
  { simpl. by rewrite app_nil_r. }
  rewrite map_cons. destruct ss as [|s' ss].
  - simpl join. rewrite <- (app_nil_r (escapeShellArgAlways s)), shell_run_quoted by done. done.
  - rewrite join_cons by done. rewrite shell_run_quoted by done.
    change (" " ++ ?x) with (" "%char :: x). rewrite shell_run_space by done.
    rewrite IH by done. unfold pushCurrent, push_all. simpl. by rewrite <- app_assoc.
Qed.

(** * Termination of [rewriteStrings] *)

Lemma is_prefix_spec p s : is_prefix p s = true ↔ take (length p) s = p.
Proof.
  revert s. induction p as [|c p IH]; intros [|d s]; simpl; try done.
  rewrite andb_true_iff, bool_decide_eq_true, IH. split; [intros [-> ?]; congruence|].
  intros H. by simplify_eq.
Qed.

Lemma find_str_Some needle s i :
  find_str needle s = Some i →
  (i + length needle <= length s)%nat ∧ take (length needle) (drop i s) = needle
  ∧ ∀ j, (j < i)%nat → is_prefix needle (drop j s) = false.
Proof.
  revert i. induction s as [|c s IH]; intros i; simpl.
  - destruct needle; simpl; [|done]. intros ?. simplify_eq/=. split; [lia|]. split; [done|]. lia.
  - destruct (is_prefix needle (c :: s)) eqn:E.
    + intros ?; simplify_eq/=. apply is_prefix_spec in E. split_and!; [|done|lia].
      apply (f_equal length) in E. rewrite length_take in E. simpl in *. lia.
    + destruct (find_str needle s) as [j|] eqn:Ej; simpl; [|done]. intros ?; simplify_eq/=.
      destruct (IH j) as (? & ? & Hlt); [done|]. split_and!; [lia|done|].
      intros [|k] Hk; [done|]. apply Hlt. lia.
Qed.

Lemma find_from_Some s needle pos i :
  find_from s needle pos = Some i →
  (pos <= i)%nat ∧ (i + length needle <= length s)%nat
  ∧ take (length needle) (drop i s) = needle.
Proof.
  unfold find_from. destruct (Nat.ltb_spec (length s) pos); [done|].
  destruct (find_str needle (drop pos s)) as [j|] eqn:E; simpl; [|done]. intros ?; simplify_eq.
  apply find_str_Some in E as (Hl & Ht & _). rewrite length_drop in Hl. rewrite drop_drop in Ht.
  split_and!; [lia|lia|done].
Qed.

Lemma length_str_replace s pos n to :
  (pos + n <= length s)%nat →
  length (str_replace s pos n to) = (length s - n + length to)%nat.
Proof. intros. unfold str_replace. rewrite !length_app, length_take, length_drop. lia. Qed.

(** A replacement of the same length makes the next match strictly later. *)
Lemma rewrite_loop_terminates fuel s from to j :
  length from = length to → from ≠ to → (0 < fuel)%nat →
  (∀ k, find_from s from j = Some k → (length s < fuel + k)%nat) →
  ∃ s', rewrite_loop fuel s from to j = Some s' ∧ length s' = length s.
Proof.
  intros Hlen Hne. revert s j.
  induction fuel as [|fuel IH]; intros s j Hf Hj; simpl; [lia|].
  destruct (find_from s from j) as [k|] eqn:E; [|eauto].
  specialize (Hj k eq_refl). apply find_from_Some in E as (_ & Hk & _).
  assert (length from ≠ 0%nat) as Hnz.
  { intros H0. apply Hne. destruct from, to; simpl in *; congruence. }
  pose proof (length_str_replace s k (length from) to Hk) as Hls.
  destruct (IH (str_replace s k (length from) to) k) as (s' & Hr & Hs'); [lia| |].
  - intros k' Hk'. apply find_from_Some in Hk' as (Hle & _ & Hm).
    assert (k' ≠ k); [|lia]. intros ->. apply Hne. rewrite <- Hm.
    unfold str_replace. rewrite drop_app_length' by (rewrite length_take; lia).
    rewrite Hlen. by rewrite take_app_length.
  - exists s'. split; [done|lia].
Qed.

Lemma rewrite_loop_full s from to :
  length from = length to → from ≠ to →
  ∃ s', rewrite_loop (S (length s)) s from to 0 = Some s' ∧ length s' = length s.
Proof. intros. apply rewrite_loop_terminates; [done|done|lia|intros; lia]. Qed.

(** * Prefixes *)

Lemma find_idx_char c s :
  find_idx (λ d, bool_decide (d = c)) s = None ↔ c ∉ s.
Proof.
  rewrite find_idx_None, forallb_forall. split.
  - intros H Hin. apply list_elem_of_In in Hin. specialize (H c Hin).
    by rewrite bool_decide_true in H.
  - intros H d Hd. apply list_elem_of_In in Hd. rewrite bool_decide_false; [done|]. by intros ->.
Qed.

Lemma splitPrefixTo_app p sep s : sep ∉ p → splitPrefixTo (p ++ sep :: s) sep = (Some p, s).
Proof.
  intros Hp. unfold splitPrefixTo. rewrite find_idx_app_stop.
  - rewrite take_app_length. replace (length p + 1)%nat with (S (length p)) by lia.
    by rewrite drop_app_cons_length.
  - apply find_idx_None. by apply find_idx_char.
  - by apply bool_decide_eq_true.
Qed.

Lemma splitPrefixTo_none sep s : sep ∉ s → splitPrefixTo s sep = (None, s).
Proof. intros Hs. unfold splitPrefixTo. by rewrite (proj2 (find_idx_char _ _)). Qed.

Lemma hasPrefix_app p s : hasPrefix (p ++ s) p = true.
Proof. unfold hasPrefix. rewrite take_app_length. by apply bool_decide_eq_true. Qed.

Lemma splitPrefix_app p s : splitPrefix (p ++ s) p = (true, s).
Proof. unfold splitPrefix. by rewrite hasPrefix_app, drop_app_length. Qed.

#[export] Hint Rewrite @splitPrefixTo_app @splitPrefix_app @hasPrefix_app : bsd.

(** * Decimal numbers

    [std::to_string] on integers, and the value of a string of digits. *)

Definition is_digit (c : ascii) : bool := (48 <=? byte_val c) && (byte_val c <=? 57).
Definition digit_char (d : Z) : ascii := byte_of (48 + d).

Fixpoint dec_loop (fuel : nat) (n : Z) (acc : str) : str :=
  match fuel with
  | O => acc
  | S fuel =>
      if n <? 10 then digit_char n :: acc
      else dec_loop fuel (n / 10) (digit_char (n mod 10) :: acc)
  end.
(** Fuel: a number has no more decimal than binary digits. *)
Definition dec_string (n : Z) : str := dec_loop (S (Z.to_nat (Z.log2 n))) n [].
Definition std_to_string (n : Z) : str :=
  if n <? 0 then "-"%char :: dec_string (- n) else dec_string n.

Definition dec_value (s : str) : Z := foldl (λ v c, 10 * v + (byte_val c - 48)) 0 s.

Lemma digit_char_val d : 0 ≤ d < 10 → byte_val (digit_char d) = 48 + d.
Proof. intros. unfold digit_char. rewrite byte_val_of. apply Z.mod_small. lia. Qed.

Lemma is_digit_char d : 0 ≤ d < 10 → is_digit (digit_char d) = true.
Proof. intros. unfold is_digit. rewrite digit_char_val by lia. apply andb_true_iff. lia. Qed.

Lemma dec_value_snoc s c : dec_value (s ++ [c]) = 10 * dec_value s + (byte_val c - 48).
Proof. unfold dec_value. by rewrite foldl_app. Qed.

Lemma dec_loop_acc fuel n acc : dec_loop fuel n acc = dec_loop fuel n [] ++ acc.
Proof.
  revert n acc. induction fuel as [|fuel IH]; intros n acc; cbn; [done|].
  destruct (n <? 10); [done|]. rewrite IH, (IH _ [_]). by rewrite <- app_assoc.
Qed.

Lemma dec_loop_spec fuel n :
  0 ≤ n < 2 ^ Z.of_nat fuel → (0 < fuel)%nat →
  dec_value (dec_loop fuel n []) = n ∧ forallb is_digit (dec_loop fuel n []) = true ∧
  dec_loop fuel n [] ≠ [].
Proof.
  revert n. induction fuel as [|fuel IH]; intros n Hn Hf; [lia|]. cbn [dec_loop].
  destruct (Z.ltb_spec n 10) as [H10|H10].
  - unfold dec_value. cbn [foldl forallb]. rewrite digit_char_val, is_digit_char by lia.
    split_and!; [lia|done|done].
  - rewrite dec_loop_acc. assert (Hd : 0 ≤ n / 10 < 2 ^ Z.of_nat fuel).
    { split; [apply Z.div_pos; lia|]. apply Z.div_lt_upper_bound; [lia|].
      rewrite Nat2Z.inj_succ, Z.pow_succ_r in Hn by lia. lia. }
    destruct fuel as [|fuel]; [cbn in Hn; lia|].
    destruct (IH (n / 10) Hd) as (IH1 & IH2 & IH3); [lia|].
    pose proof (Z.mod_pos_bound n 10). pose proof (Z_div_mod_eq_full n 10).
    rewrite dec_value_snoc, IH1, digit_char_val, forallb_app, IH2 by lia. cbn [forallb andb].
    rewrite is_digit_char by lia. split_and!; [lia|done|]. by destruct (dec_loop _ (n / 10) []).
Qed.

Lemma dec_string_spec n :
  0 ≤ n → dec_value (dec_string n) = n ∧ forallb is_digit (dec_string n) = true ∧ dec_string n ≠ [].
Proof.
  intros Hn. apply dec_loop_spec; [|lia]. split; [done|].
  destruct (decide (n = 0)) as [->|]; [done|].
  rewrite Nat2Z.inj_succ, Z2Nat.id by apply Z.log2_nonneg. apply Z.log2_spec. lia.
Qed.

Lemma std_to_string_inj n m : 0 ≤ n → 0 ≤ m → std_to_string n = std_to_string m → n = m.
Proof.
  intros Hn Hm. unfold std_to_string. rewrite !(proj2 (Z.ltb_ge _ 0)) by done. intros E.
  by rewrite <- (proj1 (dec_string_spec n Hn)), <- (proj1 (dec_string_spec m Hm)), E.
Qed.

Lemma std_to_string_digits n : 0 ≤ n → forallb is_digit (std_to_string n) = true.
Proof. intros Hn. unfold std_to_string. rewrite (proj2 (Z.ltb_ge _ 0)) by done. by apply dec_string_spec. Qed.

(** Joining and tokenising again. *)
Lemma tokenize_join (sep : ascii) ss :
  Forall (λ s, s ≠ [] ∧ sep ∉ s) ss → tokenizeString (join [sep] ss) [sep] = ss.
Proof.
  intros Hss. rewrite tokenizeString_split. destruct (decide (ss = [])) as [->|Hne]; [done|].
  rewrite splitString_split_on, split_on_join; [|by apply bool_decide_eq_true, list_elem_of_singleton|done|].
  - clear Hne. induction Hss as [|s ss [Hs _] _ IH]; [done|]. cbn [List.filter]. destruct s; [done|]. cbn [nonempty]. by f_equal.
  - eapply Forall_impl; [exact Hss|]. intros s [_ Hs]. apply forallb_forall. intros c Hc. apply negb_true_iff, bool_decide_eq_false.
    intros ->%list_elem_of_singleton. by apply Hs, list_elem_of_In.
Qed.

Lemma not_elem_of_join c sep ss : c ∉ sep → Forall (λ s, c ∉ s) ss → c ∉ join sep ss.
Proof.
  intros Hc Hs. induction Hs as [|s ss Hs Hss IH]; [apply not_elem_of_nil|].
  destruct ss as [|s' ss]; [done|]. rewrite join_cons, !not_elem_of_app by done. done.
Qed.

(** Fields that end at a character they do not contain are decoded uniquely. *)
Definition stops (c : ascii) (t : str) : Prop := t = [] ∨ ∃ t', t = c :: t'.

Lemma stops_inj c (a1 a2 t1 t2 : str) :
  c ∉ a1 → c ∉ a2 → stops c t1 → stops c t2 → a1 ++ t1 = a2 ++ t2 → a1 = a2 ∧ t1 = t2.
Proof.
  revert a2. induction a1 as [|x a1 IH]; intros [|y a2] H1 H2 S1 S2; cbn [app].
  - done.
  - intros ->. destruct S1 as [?|(t' & E)]; [done|]. injection E as -> _. by destruct H2; left.
  - intros <-. destruct S2 as [?|(t' & E)]; [done|]. injection E as -> _. by destruct H1; left.
  - intros [= -> E]. apply not_elem_of_cons in H1 as [_ H1], H2 as [_ H2].
    destruct (IH a2 H1 H2 S1 S2 E) as [-> ->]. done.
Qed.

Lemma field_inj c (a1 a2 t1 t2 : str) : c ∉ a1 → c ∉ a2 → a1 ++ [c] ++ t1 = a2 ++ [c] ++ t2 → a1 = a2 ∧ t1 = t2.
Proof.
  intros H1 H2 E. destruct (stops_inj c a1 a2 (c :: t1) (c :: t2)) as [-> [= ->]]; [done|done|right; eauto|right; eauto|done|done].
Qed.

Lemma forallb_not_elem (f : ascii → bool) c s : forallb f s = true → f c = false → c ∉ s.
Proof. intros Hs Hf Hin. rewrite forallb_forall in Hs. apply list_elem_of_In, Hs in Hin. congruence. Qed.

Lemma dec_value_nonneg s : forallb is_digit s = true → 0 ≤ dec_value s.
Proof.
  unfold dec_value. assert (∀ v, 0 ≤ v → forallb is_digit s = true → 0 ≤ foldl (λ v c, 10 * v + (byte_val c - 48)) v s) as H; [|by apply H].
  induction s as [|c s IH]; intros v Hv Hs; cbn in *; [done|]. apply andb_true_iff in Hs as [Hc Hs].
  apply IH; [|done]. unfold is_digit in Hc. apply andb_true_iff in Hc as [Hc _]. lia.
Qed.

(** * Properties *)

(** Splitting at a separator and joining with it are inverse: joining
    the pieces of any string restores it, and joining any non-empty list of
    separator-free strings and splitting again restores the list. *)
Theorem split_concat_roundtrip (sep : ascii) :
  (∀ s, concatStringsSep [sep] (splitString s [sep]) = s) ∧
  ∀ ss, ss ≠ [] → Forall (λ s, sep ∉ s) ss →
    splitString (concatStringsSep [sep] ss) [sep] = ss.
Proof.
  assert (∀ c, char_in [sep] c = true ↔ c = sep) as Hp
    by (intros c; unfold char_in; rewrite bool_decide_eq_true; apply list_elem_of_singleton).
  split.
  - intros s. rewrite concatStringsSep_join, splitString_split_on.
    by apply split_on_join_back.
  - intros ss Hne Hss. rewrite concatStringsSep_join, splitString_split_on.
    apply split_on_join; [by apply Hp|done|]. eapply Forall_impl; [exact Hss|].
    intros s Hs. apply find_idx_None. simpl. rewrite find_idx_None, forallb_forall.
    intros c Hc. apply negb_true_iff. destruct (char_in [sep] c) eqn:E; [|done].
    apply Hp in E as ->. by apply list_elem_of_In in Hc.
Qed.

(** Quoting protects any argument list from the shell splitter: the
    arguments, each quoted with [escapeShellArgAlways] and joined by spaces,
    are split back into exactly the same list, whatever bytes they contain. *)
Theorem shell_quote_roundtrip (ss : list str) :
  shellSplitString (concatStringsSep " " (map escapeShellArgAlways ss)) = Ok ss.
Proof.
  unfold shellSplitString. rewrite concatStringsSep_join.
  fold (shell_run (join " " (map escapeShellArgAlways ss)) (ShellState [] [] false false)).
  by rewrite shell_run_args.
Qed.

(** [rewriteStrings] terminates and keeps the length of the string when
    every rewrite replaces a string by another of the same length, as hash
    and output-path rewrites do, although the loop does not step over the
    replacement: fuel one more than the length of the string is enough. *)
Theorem rewriteStrings_terminates (s : str) (rewrites : gmap str str) :
  (∀ from to, rewrites !! from = Some to → length from = length to) →
  ∃ s', rewriteStrings (S (length s)) s rewrites = Some s' ∧ length s' = length s.
Proof.
  intros Hrw. unfold rewriteStrings.
  assert (∀ l t, Forall (λ i : str * str, length i.1 = length i.2) l → length t = length s →
    ∃ s', foldl (λ (os : option str) (i : str * str), s0 ← os;
      if bool_decide (i.1 = i.2) then Some s0 else rewrite_loop (S (length s)) s0 i.1 i.2 0)
      (Some t) l = Some s' ∧ length s' = length s) as Hgen.
  { induction l as [|i l IH]; intros t Hl Ht; [by exists t|].
    apply Forall_cons in Hl as [Hi Hl]. cbn [foldl mbind option_bind].
    case_bool_decide as Hne; [by apply IH|]. rewrite <- Ht.
    destruct (rewrite_loop_full t i.1 i.2 Hi Hne) as (t' & -> & Ht').
    rewrite Ht. apply IH; [done|lia]. }
  apply Hgen; [|done]. apply Forall_forall. intros [from to] Hin.
  apply elem_of_map_sorted in Hin. by apply Hrw in Hin.
Qed.

Lemma rewriteStrings_terminates_witness :
  ∃ s', rewriteStrings 6 "aabab" {["ab"%str := "bb"%str]} = Some s' ∧ length s' = 5%nat.
Proof.
  apply (rewriteStrings_terminates "aabab" {["ab"%str := "bb"%str]}).
  intros from to H. apply lookup_singleton_Some in H as [<- <-]. reflexivity.
Defined.

Lemma split_concat_roundtrip_witness :
  splitString (concatStringsSep "," ["a"; ""; "b c"]) "," = ["a"; ""; "b c"]%str.
Proof.
  apply (proj2 (split_concat_roundtrip ","%char)); [discriminate|].
  apply (bool_decide_unpack _). vm_compute. exact I.
Defined.
