(* ===== verification/Lexical.v ===== *)
(** Numbers in text: [string2Int] (libutil/util.cc), which wraps Boost's
    [lexical_cast]. The cast is a parameter; [LexicalCast] states the part of
    its documented behaviour the code relies on. *)

From S2P Require Import Prelude Strings.

(** * The integer types of the instantiations
    The instantiations at character types are left out: there the cast reads a
    single character and not a number. *)

Inductive IntType := UShort | UInt | ULong | Short | Int | Long.

Definition is_signed (N : IntType) : bool :=
  match N with Short | Int | Long => true | _ => false end.
Definition width (N : IntType) : Z :=
  match N with UShort | Short => 16 | UInt | Int => 32 | ULong | Long => 64 end.
Definition int_min (N : IntType) : Z := if is_signed N then - 2 ^ (width N - 1) else 0.
Definition int_max (N : IntType) : Z := if is_signed N then 2 ^ (width N - 1) - 1 else 2 ^ width N - 1.
Definition representable (N : IntType) (n : Z) : bool := (int_min N <=? n) && (n <=? int_max N).

(** * The cast *)

Definition numeral (s : str) : bool := nonempty s && forallb is_digit s.

(** The value of a numeral with an optional sign. *)
Definition int_value (s : str) : option Z :=
  match s with
  | c :: s' =>
      if bool_decide (c = "-"%char) then (if numeral s' then Some (- dec_value s') else None)
      else if bool_decide (c = "+"%char) then (if numeral s' then Some (dec_value s') else None)
      else if numeral s then Some (dec_value s) else None
  | [] => None
  end.

(** [boost::lexical_cast] to an integer type converts the whole of its input
    and throws [bad_lexical_cast] (here [None]) when it is not a numeral or the
    value does not fit. Nothing is assumed of a minus sign before an unsigned
    number. *)
Class LexicalCast (lexical_cast : IntType → str → option Z) : Prop := {
  lexical_cast_spec N s : hasPrefix s "-" && negb (is_signed N) = false →
    lexical_cast N s = v ← int_value s; if representable N v then Some v else None
}.

Section lexical.
Context (lexical_cast : IntType → str → option Z).

Definition string2Int (N : IntType) (s : str) : option Z :=
  if bool_decide (substr s 0 1 = "-"%str) && negb (is_signed N) then None
  else lexical_cast N s.

Context `{!LexicalCast lexical_cast}.

Lemma string2Int_spec N s :
  string2Int N s =
    if hasPrefix s "-" && negb (is_signed N) then None
    else v ← int_value s; if representable N v then Some v else None.
Proof.
  unfold string2Int, hasPrefix, substr. rewrite drop_0. change (length "-"%str) with 1%nat.
  destruct (bool_decide _ && _) eqn:E; [done|]. by apply lexical_cast_spec.
Qed.

Lemma representable_iff N n : representable N n = true ↔ int_min N ≤ n ≤ int_max N.
Proof. unfold representable. rewrite andb_true_iff. lia. Qed.

Lemma string2Int_representable N s n : string2Int N s = Some n → representable N n = true.
Proof.
  rewrite string2Int_spec. destruct (_ && _); [done|].
  destruct (int_value s) as [v|]; cbn [mbind option_bind]; [|done].
  destruct (representable N v) eqn:E; congruence.
Qed.

Lemma digit_not_sign c s : is_digit c = true → int_value (c :: s) = if numeral (c :: s) then Some (dec_value (c :: s)) else None.
Proof.
  intros Hd. unfold int_value. rewrite !bool_decide_eq_false_2; [done|..]; by intros ->.
Qed.

Lemma string2Int_numeral N s :
  numeral s = true → string2Int N s = if dec_value s <=? int_max N then Some (dec_value s) else None.
Proof.
  intros Hn. rewrite string2Int_spec. destruct s as [|c s]; [done|].
  assert (is_digit c = true) as Hc by (unfold numeral in Hn; cbn in Hn; by apply andb_true_iff in Hn as [? _]).
  assert (hasPrefix (c :: s) "-" = false) as ->.
  { unfold hasPrefix. cbn. apply bool_decide_eq_false. by intros [= ->]. }
  cbn [andb]. rewrite (digit_not_sign _ _ Hc), Hn. cbn [mbind option_bind]. unfold representable.
  assert ((int_min N <=? dec_value (c :: s)) = true) as ->; [|done].
  apply Z.leb_le. trans 0; [by destruct N|]. apply dec_value_nonneg.
  unfold numeral in Hn. by apply andb_true_iff in Hn as [_ ?].
Qed.

Lemma string2Int_not_digits N s : forallb (λ c, negb (is_digit c)) s = true → string2Int N s = None.
Proof.
  intros Hs. rewrite string2Int_spec. destruct (_ && _); [done|].
  assert (∀ t, forallb (λ c, negb (is_digit c)) t = true → numeral t = false) as Hnum.
  { intros [|c t]; [done|]. unfold numeral. cbn. by destruct (is_digit c). }
  destruct s as [|c s]; [done|]. unfold int_value. rewrite (Hnum _ Hs).
  rewrite (Hnum s) by (cbn in Hs; by apply andb_true_iff in Hs as [_ ?]).
  by repeat case_bool_decide.
Qed.

Lemma string2Int_to_string N n :
  string2Int N (std_to_string n) = if representable N n then Some n else None.
Proof.
  unfold std_to_string. destruct (Z.ltb_spec n 0) as [Hn|Hn].
  - destruct (dec_string_spec (- n)) as (Hv & Hd & Hne); [lia|].
    rewrite string2Int_spec. change (hasPrefix ("-"%char :: dec_string (- n)) "-") with (bool_decide (["-"%char] = "-"%str)).
    rewrite bool_decide_eq_true_2 by done. destruct (is_signed N) eqn:Es; cbn [negb andb].
    + cbn [int_value]. rewrite bool_decide_eq_true_2 by done. unfold numeral. rewrite Hd, Hv.
      destruct (dec_string (- n)); [done|]. cbn [nonempty andb mbind option_bind]. by rewrite Z.opp_involutive.
    + unfold representable, int_min. rewrite Es. by rewrite (proj2 (Z.leb_gt 0 n)).
  - destruct (dec_string_spec n Hn) as (Hv & Hd & Hne).
    rewrite string2Int_numeral, Hv; [|unfold numeral; rewrite Hd; by destruct (dec_string n)].
    unfold representable. assert ((int_min N <=? n) = true) as ->; [|done].
    apply Z.leb_le. trans 0; [by destruct N|done].
Qed.
End lexical.

(** * A cast as the class describes it *)

Definition plain_cast (N : IntType) (s : str) : option Z :=
  v ← int_value s; if representable N v then Some v else None.
#[export] Instance plain_cast_ok : LexicalCast plain_cast.
Proof. by split. Qed.

(** * Properties *)

(** Numbers survive their text exactly within the bounds of the type: the
    decimal form of any integer, of either sign, is read back when the target
    type can represent it and refused otherwise, and whatever text is accepted
    the number read fits the type. *)
Theorem string2Int_bounds lexical_cast `{!LexicalCast lexical_cast} N :
  (∀ n, string2Int lexical_cast N (std_to_string n) = if representable N n then Some n else None) ∧
  (∀ s n, string2Int lexical_cast N s = Some n → int_min N ≤ n ≤ int_max N).
Proof.
  split; [intros n; by apply string2Int_to_string|]. by intros s n H%string2Int_representable%representable_iff.
Qed.

Lemma string2Int_bounds_witness :
  string2Int plain_cast Int "2147483647" = Some 2147483647 ∧ string2Int plain_cast Int "2147483648" = None ∧
  string2Int plain_cast UInt (std_to_string 7) = Some 7.
Proof.
  split; [reflexivity|]. split; [reflexivity|]. exact (proj1 (string2Int_bounds plain_cast UInt) 7).
Defined.
