(* ===== verification/Base64.v ===== *)
(** Base-64 coding: [base64Encode] and [base64Decode] of [libutil/util.cc].

    The encoder keeps a signed 32-bit accumulator that is never masked, and
    the decoder an unsigned 32-bit one; both overflow on inputs longer than a
    few bytes, so the accumulators are kept at their machine width. *)

From S2P Require Import Prelude Strings.

Definition base64Chars : str :=
  "ABCDEFGHIJKLMNOPQRSTUVWXYZabcdefghijklmnopqrstuvwxyz0123456789+/".

Definition base64_char (i : Z) : ascii := nth (Z.to_nat i) base64Chars NUL.

(** * Encoder *)

Record enc_state := EncState { enc_data : Z; enc_nbits : Z; enc_res : str }.

(** [while (nbits >= 6)]: one iteration removes six bits. *)
Fixpoint enc_drain (fuel : nat) (st : enc_state) : enc_state :=
  match fuel with
  | O => st
  | S fuel =>
      if 6 <=? enc_nbits st then
        let nbits := enc_nbits st - 6 in
        enc_drain fuel (EncState (enc_data st) nbits
          (enc_res st ++ [base64_char (Z.land (Z.shiftr (enc_data st) nbits) 63)]))
      else st
  end.

Definition enc_byte (st : enc_state) (c : ascii) : enc_state :=
  let nbits := enc_nbits st + 8 in
  enc_drain (Z.to_nat nbits)
    (EncState (i32 (Z.lor (Z.shiftl (enc_data st) 8) (byte_val c))) nbits (enc_res st)).

(** [while (res.size() % 4) res.push_back('=')]. *)
Fixpoint enc_pad (fuel : nat) (res : str) : str :=
  match fuel with
  | O => res
  | S fuel => if (length res mod 4 =? 0)%nat then res else enc_pad fuel (res ++ ["="%char])
  end.

Definition base64Encode (s : str) : str :=
  let st := foldl enc_byte (EncState 0 0 []) s in
  let res :=
    if enc_nbits st =? 0 then enc_res st
    else enc_res st
         ++ [base64_char (Z.land (i32 (Z.shiftl (enc_data st) (6 - enc_nbits st))) 63)] in
  enc_pad 3 res.

(** * Decoder *)

Definition base64DecodeChars : list Z :=
  Eval vm_compute in
    foldl (λ t i, <[nat_of_ascii (base64_char i) := i]> t) (replicate 256 (-1)) (seqZ 0 64).

Record dec_state := DecState { dec_d : Z; dec_bits : Z; dec_res : str }.

Definition dec_char (st : dec_state) (digit : Z) : dec_state :=
  let bits := dec_bits st + 6 in
  let d := u32 (Z.lor (u32 (Z.shiftl (dec_d st) 6)) digit) in
  if 8 <=? bits
  then DecState d (bits - 8) (dec_res st ++ [byte_of (Z.land (Z.shiftr d (bits - 8)) 255)])
  else DecState d bits (dec_res st).

Fixpoint dec_loop (s : str) (st : dec_state) : result str :=
  match s with
  | [] => Ok (dec_res st)
  | c :: s =>
      if bool_decide (c = "="%char) then Ok (dec_res st)
      else if bool_decide (c = newline) then dec_loop s st
      else
        let digit := nth (nat_of_ascii c) base64DecodeChars (-1) in
        if digit =? -1 then Throw (FormatError "invalid character in Base64 string")
        else dec_loop s (dec_char st digit)
  end.

Definition base64Decode (s : str) : result str := dec_loop s (DecState 0 0 []).

(** * Bit-level lemmas *)

Lemma lor_shiftl_byte a n b : 0 ≤ n → 0 ≤ b < 2 ^ n → Z.lor (Z.shiftl a n) b = a * 2 ^ n + b.
Proof.
  intros Hn Hb. rewrite <- Z.shiftl_mul_pow2 by done. rewrite <- Z.add_lor_land.
  assert (Z.land (Z.shiftl a n) b = 0) as ->; [|lia].
  apply Z.bits_inj'. intros i Hi. rewrite Z.land_spec, Z.bits_0.
  destruct (decide (i < n)).
  - by rewrite Z.shiftl_spec_low.
  - rewrite andb_comm. destruct (decide (b = 0)) as [->|]; [by rewrite Z.bits_0|].
    rewrite Z.bits_above_log2; [done|lia|]. apply Z.log2_lt_pow2; [lia|].
    apply Z.lt_le_trans with (2 ^ n); [lia|]. apply Z.pow_le_mono_r; lia.
Qed.

Lemma land_63 z : Z.land z 63 = z mod 64.
Proof. change 63 with (Z.ones 6). by rewrite Z.land_ones. Qed.
Lemma land_255 z : Z.land z 255 = z mod 256.
Proof. change 255 with (Z.ones 8). by rewrite Z.land_ones. Qed.

Lemma nbits_shift z n : 0 ≤ n → Z.shiftr z n = z / 2 ^ n.
Proof. apply Z.shiftr_div_pow2. Qed.

(** The decode table inverts the alphabet. *)
Lemma decode_table_inverse i :
  0 ≤ i < 64 →
  nth (nat_of_ascii (base64_char i)) base64DecodeChars (-1) = i
  ∧ base64_char i ≠ "="%char ∧ base64_char i ≠ newline.
Proof.
  intros Hi.
  assert (forallb (λ i, (nth (nat_of_ascii (base64_char i)) base64DecodeChars (-1) =? i)
    && negb (bool_decide (base64_char i = "="%char))
    && negb (bool_decide (base64_char i = newline))) (seqZ 0 64) = true) as H
    by (vm_compute; reflexivity).
  rewrite forallb_forall in H. specialize (H i).
  rewrite <- list_elem_of_In, elem_of_seqZ in H. specialize (H ltac:(lia)).
  rewrite !andb_true_iff, !negb_true_iff, Z.eqb_eq, !bool_decide_eq_false in H. tauto.
Qed.

(** * Encoder steps, by the number of pending bits *)

Ltac bit_arith := unfold i32, u32 in *; Z.to_euclidean_division_equations; lia.

Lemma enc_byte_0 d res c :
  ∃ d', enc_byte (EncState d 0 res) c =
    EncState d' 2 (res ++ [base64_char (byte_val c / 4)]) ∧ d' mod 4 = byte_val c mod 4.
Proof.
  pose proof (byte_val_bound c). unfold enc_byte.
  rewrite lor_shiftl_byte by (simpl; lia).
  exists (i32 (d * 256 + byte_val c)). simpl. rewrite land_63, nbits_shift by lia.
  split; [|bit_arith]. do 4 f_equal. bit_arith.
Qed.

Lemma enc_byte_2 d res c :
  ∃ d', enc_byte (EncState d 2 res) c =
    EncState d' 4 (res ++ [base64_char (d mod 4 * 16 + byte_val c / 16)])
    ∧ d' mod 16 = byte_val c mod 16.
Proof.
  pose proof (byte_val_bound c). unfold enc_byte.
  rewrite lor_shiftl_byte by (simpl; lia).
  exists (i32 (d * 256 + byte_val c)). simpl. rewrite land_63, nbits_shift by lia.
  split; [|bit_arith]. do 4 f_equal. bit_arith.
Qed.

Lemma enc_byte_4 d res c :
  ∃ d', enc_byte (EncState d 4 res) c =
    EncState d' 0 (res ++ [base64_char (d mod 16 * 4 + byte_val c / 64);
                           base64_char (byte_val c mod 64)]).
Proof.
  pose proof (byte_val_bound c). unfold enc_byte.
  rewrite lor_shiftl_byte by (simpl; lia).
  exists (i32 (d * 256 + byte_val c)). simpl. rewrite !land_63, !nbits_shift by lia.
  rewrite <- app_assoc. simpl. do 2 f_equal. f_equal; [|f_equal]; f_equal; bit_arith.
Qed.

(** * Decoder steps, by the number of pending bits *)

Lemma dec_loop_char i s st :
  0 ≤ i < 64 → dec_loop (base64_char i :: s) st = dec_loop s (dec_char st i).
Proof.
  intros Hi. destruct (decode_table_inverse i Hi) as (Ht & Heq & Hnl).
  cbn [dec_loop]. rewrite !bool_decide_false by done. cbv zeta. rewrite Ht.
  destruct (Z.eqb_spec i (-1)); [lia|done].
Qed.

Lemma dec_char_d st i :
  0 ≤ i < 64 → u32 (Z.lor (u32 (Z.shiftl (dec_d st) 6)) i) = u32 (dec_d st * 64 + i).
Proof.
  intros Hi. rewrite Z.shiftl_mul_pow2 by lia.
  assert (u32 (dec_d st * 2 ^ 6) = Z.shiftl (u32 (dec_d st * 2 ^ 6) / 64) 6) as ->.
  { rewrite Z.shiftl_mul_pow2 by lia. bit_arith. }
  rewrite lor_shiftl_byte by (simpl; lia). simpl. bit_arith.
Qed.

Lemma dec_char_0 d res i :
  0 ≤ i < 64 → ∃ d', dec_char (DecState d 0 res) i = DecState d' 6 res ∧ d' mod 64 = i.
Proof.
  intros Hi. unfold dec_char. rewrite dec_char_d by done. simpl.
  eexists. split; [done|]. bit_arith.
Qed.

Lemma dec_char_6 d res i :
  0 ≤ i < 64 → ∃ d', dec_char (DecState d 6 res) i
    = DecState d' 4 (res ++ [byte_of (d mod 64 * 4 + i / 16)]) ∧ d' mod 16 = i mod 16.
Proof.
  intros Hi. unfold dec_char. rewrite dec_char_d by done. simpl.
  rewrite land_255, nbits_shift by lia. eexists. split; [|instantiate (1 := u32 (d * 64 + i)); bit_arith].
  do 4 f_equal. simpl. bit_arith.
Qed.

Lemma dec_char_4 d res i :
  0 ≤ i < 64 → ∃ d', dec_char (DecState d 4 res) i
    = DecState d' 2 (res ++ [byte_of (d mod 16 * 16 + i / 4)]) ∧ d' mod 4 = i mod 4.
Proof.
  intros Hi. unfold dec_char. rewrite dec_char_d by done. simpl.
  rewrite land_255, nbits_shift by lia. eexists. split; [|instantiate (1 := u32 (d * 64 + i)); bit_arith].
  do 4 f_equal. simpl. bit_arith.
Qed.

Lemma dec_char_2 d res i :
  0 ≤ i < 64 → ∃ d', dec_char (DecState d 2 res) i
    = DecState d' 0 (res ++ [byte_of (d mod 4 * 64 + i)]) ∧ d' mod 64 = i.
Proof.
  intros Hi. unfold dec_char. rewrite dec_char_d by done. simpl.
  rewrite land_255, nbits_shift by lia. eexists. split; [|instantiate (1 := u32 (d * 64 + i)); bit_arith].
  do 4 f_equal. simpl. bit_arith.
Qed.

Lemma byte_of_eq z c : z = byte_val c → byte_of z = c.
Proof. intros ->. apply byte_of_val. Qed.

(** The character [base64Encode] appends for the bits left over. *)
Definition enc_finish (st : enc_state) : str :=
  if enc_nbits st =? 0 then enc_res st
  else enc_res st
       ++ [base64_char (Z.land (i32 (Z.shiftl (enc_data st) (6 - enc_nbits st))) 63)].

Definition base64_valid (c : ascii) : bool := char_in base64Chars c || bool_decide (c = "="%char).

Lemma base64_char_valid i : 0 ≤ i < 64 → base64_valid (base64_char i) = true.
Proof.
  intros Hi. unfold base64_valid, char_in, base64_char. apply orb_true_intro. left.
  apply bool_decide_eq_true. apply list_elem_of_In, nth_In. simpl. lia.
Qed.

(** What the encoder emits from a byte boundary, the decoder reads back. *)
Definition codes (s out : str) : Prop :=
  Forall (λ c, base64_valid c = true) out ∧
  ∀ tail dd rr, (tail = [] ∨ ∃ t, tail = "="%char :: t) →
    dec_loop (out ++ tail) (DecState dd 0 rr) = Ok (rr ++ s).

Ltac codes_valid :=
  repeat (apply Forall_cons; split; [apply base64_char_valid; bit_arith|]).

Lemma dec_stop tail st :
  (tail = [] ∨ ∃ t, tail = "="%char :: t) → dec_loop tail st = Ok (dec_res st).
Proof. by intros [->|[t ->]]. Qed.

(** Consume one alphabet character at the head of the decoder's input. *)
Ltac dec_step L :=
  cbn [app]; rewrite dec_loop_char by bit_arith;
  match goal with
  | |- context [dec_char (DecState ?d ?b ?r) ?i] =>
      let d' := fresh "d'" in let E := fresh "E" in
      destruct (L d r i) as (d' & E & ?); [bit_arith|]; rewrite E; clear E
  end.

Lemma codes_nil : codes [] [].
Proof.
  split; [done|]. intros tail dd rr Ht. simpl. rewrite dec_stop by done. by rewrite app_nil_r.
Qed.

Lemma codes_3 a b c s out :
  codes s out →
  codes (a :: b :: c :: s)
    (base64_char (byte_val a / 4)
     :: base64_char (byte_val a mod 4 * 16 + byte_val b / 16)
     :: base64_char (byte_val b mod 16 * 4 + byte_val c / 64)
     :: base64_char (byte_val c mod 64) :: out).
Proof.
  pose proof (byte_val_bound a); pose proof (byte_val_bound b); pose proof (byte_val_bound c).
  intros [Hv Hs]. split; [by codes_valid|]. intros tail dd rr Htail.
  dec_step dec_char_0. dec_step dec_char_6. dec_step dec_char_4. dec_step dec_char_2.
  rewrite Hs by done. rewrite <- !app_assoc. simpl. do 2 f_equal.
  f_equal; [apply byte_of_eq; bit_arith|]. f_equal; [apply byte_of_eq; bit_arith|].
  f_equal. apply byte_of_eq; bit_arith.
Qed.

Lemma codes_1 a i :
  i = byte_val a mod 4 * 16 → codes [a] [base64_char (byte_val a / 4); base64_char i].
Proof.
  pose proof (byte_val_bound a). intros ->. split; [by codes_valid|].
  intros tail dd rr Htail.
  dec_step dec_char_0. dec_step dec_char_6.
  rewrite dec_stop by done. simpl. do 3 f_equal. apply byte_of_eq; bit_arith.
Qed.

Lemma codes_2 a b i :
  i = byte_val b mod 16 * 4 →
  codes [a; b] [base64_char (byte_val a / 4);
                base64_char (byte_val a mod 4 * 16 + byte_val b / 16); base64_char i].
Proof.
  pose proof (byte_val_bound a); pose proof (byte_val_bound b).
  intros ->. split; [by codes_valid|]. intros tail dd rr Htail.
  dec_step dec_char_0. dec_step dec_char_6. dec_step dec_char_4.
  rewrite dec_stop by done. simpl. rewrite <- app_assoc. simpl. do 2 f_equal.
  f_equal; [apply byte_of_eq; bit_arith|]. f_equal. apply byte_of_eq; bit_arith.
Qed.

Lemma enc_codes n s d res :
  (length s <= n)%nat →
  ∃ out, enc_finish (foldl enc_byte (EncState d 0 res) s) = res ++ out ∧ codes s out
         ∧ Z.of_nat (length out) = (4 * Z.of_nat (length s) + 2) / 3.
Proof.
  revert s d res. induction n as [|n IH]; intros [|a [|b [|c s]]] d res Hn; simpl in Hn;
    try lia; try (exists []; rewrite app_nil_r; split_and!; [done| |done]; apply codes_nil).
  - destruct (enc_byte_0 d res a) as (d1 & E1 & H1). simpl. rewrite E1.
    eexists [_; _]. unfold enc_finish. simpl. rewrite <- app_assoc. simpl.
    split_and!; [done| |done]. apply codes_1. rewrite land_63, Z.shiftl_mul_pow2 by lia.
    bit_arith.
  - destruct (enc_byte_0 d res a) as (d1 & E1 & H1).
    destruct (enc_byte_2 d1 (res ++ [base64_char (byte_val a / 4)]) b) as (d2 & E2 & H2).
    simpl. rewrite E1, E2, H1. eexists [_; _; _]. unfold enc_finish. simpl.
    rewrite <- !app_assoc. simpl. split_and!; [done| |done]. apply codes_2.
    rewrite land_63, Z.shiftl_mul_pow2 by lia. bit_arith.
  - destruct (enc_byte_0 d res a) as (d1 & E1 & H1).
    destruct (enc_byte_2 d1 (res ++ [base64_char (byte_val a / 4)]) b) as (d2 & E2 & H2).
    cbn [foldl]. rewrite E1, E2, H1.
    match goal with |- context [EncState d2 4 ?r] =>
      destruct (enc_byte_4 d2 r c) as (d3 & E3) end.
    rewrite E3, H2.
    match goal with |- context [EncState d3 0 ?r] =>
      destruct (IH s d3 r) as (out & Eo & Hc & Hl); [lia|] end.
    eexists (_ :: _ :: _ :: _ :: out). rewrite Eo, <- !app_assoc. simpl app.
    split_and!; [done|by apply codes_3|]. simpl length.
    rewrite !Nat2Z.inj_succ, Hl. Z.to_euclidean_division_equations; lia.
Qed.

Lemma enc_pad_spec res : ∃ n, enc_pad 3 res = res ++ replicate n "="%char
  ∧ (length (enc_pad 3 res) mod 4 = 0)%nat ∧ (n < 4)%nat.
Proof.
  assert (∀ r, length (r ++ ["="%char]) = S (length r)) as Hl
    by (intros; rewrite length_app; simpl; lia).
  cbn [enc_pad]. rewrite !Hl.
  repeat match goal with
  | |- context [(?a =? ?b)%nat] => destruct (Nat.eqb_spec a b) as [?E|?E]
  end.
  - exists 0%nat. rewrite app_nil_r. split_and!; [done|done|lia].
  - exists 1%nat. rewrite Hl. split_and!; [done|done|lia].
  - exists 2%nat. rewrite !Hl, <- app_assoc. split_and!; [done|done|lia].
  - exists 3%nat. rewrite !Hl, <- !app_assoc. split_and!; [done| |lia].
    clear -E E0 E1. revert E E0 E1. generalize (length res). intros n. zify.
    Z.to_euclidean_division_equations. lia.
Qed.

(** * Summary *)

Lemma base64_spec s :
  base64Decode (base64Encode s) = Ok s
  ∧ Z.of_nat (length (base64Encode s)) = 4 * ((Z.of_nat (length s) + 2) / 3)
  ∧ Forall (λ c, base64_valid c = true) (base64Encode s).
Proof.
  destruct (enc_codes (length s) s 0 []) as (out & Eo & [Hv Hc] & Hl); [lia|].
  assert (base64Encode s = enc_pad 3 out) as ->.
  { unfold base64Encode. fold (enc_finish (foldl enc_byte (EncState 0 0 []) s)).
    by rewrite Eo. }
  destruct (enc_pad_spec out) as (n & En & Hm & Hn). rewrite En in *.
  unfold base64Decode. rewrite Hc by (destruct n; [by left|right; by eexists]).
  split_and!; [done| |].
  - rewrite length_app, length_replicate in *. zify. Z.to_euclidean_division_equations. lia.
  - apply Forall_app. split; [done|]. by apply Forall_replicate.
Qed.

(** * Properties *)

(** Base-64 decoding inverts encoding for every byte string, although
    both accumulators overflow their 32 bits; the encoding has the padded
    length and uses only the alphabet and the padding character. *)
Theorem base64_roundtrip s :
  base64Decode (base64Encode s) = Ok s
  ∧ Z.of_nat (length (base64Encode s)) = 4 * ((Z.of_nat (length s) + 2) / 3)
  ∧ ∀ c, c ∈ base64Encode s → c ∈ base64Chars ∨ c = "="%char.
Proof.
  destruct (base64_spec s) as (H1 & H2 & H3). split_and!; [done|done|].
  intros c Hc. rewrite Forall_forall in H3. specialize (H3 c Hc).
  unfold base64_valid, char_in in H3. rewrite orb_true_iff, !bool_decide_eq_true in H3. done.
Qed.
