(* ===== verification/Xp.v ===== *)
(** Experimental features: [libutil/experimental-features.{hh,cc}] and the
    gate [ExperimentalFeatureSettings::require] of [libutil/configuration.cc]. *)

From S2P Require Import Prelude.

Inductive ExperimentalFeature :=
  | CaDerivations
  | ImpureDerivations
  | Flakes
  | FetchTree
  | BsdCommand
  | GitHashing
  | RecursiveBsd
  | NoUrlLiterals
  | FetchClosure
  | AutoAllocateUids
  | Cgroups
  | DaemonTrustOverride
  | DynamicDerivations
  | ParseTomlTimestamps
  | ReadOnlyLocalStore
  | LocalOverlayStore
  | ConfigurableImpureEnv
  | MountedSSHStore
  | VerifiedFetches
  | PipeOperators
  | BLAKE3Hashes.

#[export] Instance ExperimentalFeature_eq_dec : EqDecision ExperimentalFeature.
Proof. solve_decision. Defined.

(** The [tag] and [name] columns of the details table, in its order. *)
Definition xpFeatureDetails : list (ExperimentalFeature * str) := [
  (CaDerivations, "ca-derivations"%str);
  (ImpureDerivations, "impure-derivations"%str);
  (Flakes, "flakes"%str);
  (FetchTree, "fetch-tree"%str);
  (BsdCommand, "bsd-command"%str);
  (GitHashing, "git-hashing"%str);
  (RecursiveBsd, "recursive-bsd"%str);
  (NoUrlLiterals, "no-url-literals"%str);
  (FetchClosure, "fetch-closure"%str);
  (AutoAllocateUids, "auto-allocate-uids"%str);
  (Cgroups, "cgroups"%str);
  (DaemonTrustOverride, "daemon-trust-override"%str);
  (DynamicDerivations, "dynamic-derivations"%str);
  (ParseTomlTimestamps, "parse-toml-timestamps"%str);
  (ReadOnlyLocalStore, "read-only-local-store"%str);
  (LocalOverlayStore, "local-overlay-store"%str);
  (ConfigurableImpureEnv, "configurable-impure-env"%str);
  (MountedSSHStore, "mounted-ssh-store"%str);
  (VerifiedFetches, "verified-fetches"%str);
  (PipeOperators, "pipe-operators"%str);
  (BLAKE3Hashes, "blake3-hashes"%str)
].

(** The numeric value of the enum constant. *)
Definition xp_index (f : ExperimentalFeature) : nat :=
  match f with
  | CaDerivations => 0 | ImpureDerivations => 1 | Flakes => 2 | FetchTree => 3
  | BsdCommand => 4 | GitHashing => 5 | RecursiveBsd => 6 | NoUrlLiterals => 7
  | FetchClosure => 8 | AutoAllocateUids => 9 | Cgroups => 10 | DaemonTrustOverride => 11
  | DynamicDerivations => 12 | ParseTomlTimestamps => 13 | ReadOnlyLocalStore => 14
  | LocalOverlayStore => 15 | ConfigurableImpureEnv => 16 | MountedSSHStore => 17
  | VerifiedFetches => 18 | PipeOperators => 19 | BLAKE3Hashes => 20
  end%nat.

Definition reverseXpMap : gmap str ExperimentalFeature :=
  foldl (λ m d, <[d.2 := d.1]> m) ∅ xpFeatureDetails.

Definition parseExperimentalFeature (name : str) : option ExperimentalFeature :=
  reverseXpMap !! name.
Arguments parseExperimentalFeature : simpl never.

(** Indexes the table with the enum value; the assert guards the access. *)
Definition showExperimentalFeature (tag : ExperimentalFeature) : result str :=
  match xpFeatureDetails !! xp_index tag with
  | Some d => Ok d.2
  | None => Throw AssertionFailure
  end.

(** Unknown names are skipped. The C++ result is a set; the model keeps the
    features in the order of the names and drops repetitions. *)
Definition add_feature (res : list ExperimentalFeature) (raw : str) : list ExperimentalFeature :=
  match parseExperimentalFeature raw with
  | Some f => if bool_decide (f ∈ res) then res else res ++ [f]
  | None => res
  end.
Definition parseFeatures (rawFeatures : gset str) : list ExperimentalFeature :=
  foldl add_feature [] (set_sorted rawFeatures).

(** * The settings object: the enabled features *)

Definition XpSettings := list ExperimentalFeature.

Definition isEnabled (xp : XpSettings) (feature : ExperimentalFeature) : bool :=
  bool_decide (feature ∈ xp).

Definition require_feature (xp : XpSettings) (feature : ExperimentalFeature) : result unit :=
  if isEnabled xp feature then Ok tt
  else name ← showExperimentalFeature feature; Throw (MissingExperimentalFeature name).

Definition isEnabled_opt (xp : XpSettings) (feature : option ExperimentalFeature) : bool :=
  match feature with None => true | Some f => isEnabled xp f end.

Definition require_opt (xp : XpSettings) (feature : option ExperimentalFeature) : result unit :=
  match feature with Some f => require_feature xp f | None => Ok tt end.

(** * Laws *)

Lemma require_feature_ok xp f : require_feature xp f = Ok tt ↔ isEnabled xp f = true.
Proof.
  unfold require_feature. destruct (isEnabled xp f); [done|].
  destruct (showExperimentalFeature f); simpl; split; discriminate.
Qed.

Lemma parse_show_name f name :
  showExperimentalFeature f = Ok name → parseExperimentalFeature name = Some f.
Proof.
  intros H. assert (name = default [] (snd <$> xpFeatureDetails !! xp_index f)) as ->.
  { unfold showExperimentalFeature in H. by destruct (_ !! _); simplify_eq/=. }
  clear H. destruct f; vm_compute; reflexivity.
Qed.

Lemma reverseXpMap_list : reverseXpMap = list_to_map (map (λ d, (d.2, d.1)) xpFeatureDetails).
Proof.
  rewrite <- (right_id_L ∅ (∪) (list_to_map _)), <- insert_all_list_to_map; [done|].
  apply (bool_decide_unpack _). vm_compute. done.
Qed.

Lemma show_parse_name f name :
  parseExperimentalFeature name = Some f → showExperimentalFeature f = Ok name.
Proof.
  unfold parseExperimentalFeature. rewrite reverseXpMap_list.
  intros H%elem_of_list_to_map_2. apply list_elem_of_fmap in H as ([g n] & Heq & Hin).
  simplify_eq/=. revert Hin. rewrite list_elem_of_In. simpl.
  intuition (simplify_eq; reflexivity).
Qed.

Lemma elem_of_add_feature f acc r :
  f ∈ add_feature acc r ↔ f ∈ acc ∨ parseExperimentalFeature r = Some f.
Proof.
  unfold add_feature. destruct (parseExperimentalFeature r) as [g|]; [|naive_solver].
  case_bool_decide; [naive_solver|].
  rewrite elem_of_app, list_elem_of_singleton. naive_solver.
Qed.

Lemma parseFeatures_acc_elem l acc f :
  f ∈ foldl add_feature acc l ↔
  f ∈ acc ∨ ∃ raw, raw ∈ l ∧ parseExperimentalFeature raw = Some f.
Proof.
  revert acc. induction l as [|r l IH]; intros acc; cbn [foldl].
  - setoid_rewrite elem_of_nil. naive_solver.
  - rewrite IH, elem_of_add_feature. split.
    + intros [[?|?]|(raw & ? & ?)]; [by left|right..].
      * exists r. split; [left|done].
      * exists raw. split; [by right|done].
    + intros [?|(raw & [->|?]%elem_of_cons & ?)]; eauto.
Qed.

(** A feature is enabled exactly when its name is listed; unknown names have
    no effect. *)
Lemma parseFeatures_spec names f name :
  showExperimentalFeature f = Ok name →
  isEnabled (parseFeatures names) f = true ↔ name ∈ names.
Proof.
  intros Hname. unfold isEnabled, parseFeatures.
  rewrite bool_decide_eq_true, parseFeatures_acc_elem. split.
  - intros [?%elem_of_nil|(raw & Hraw & Hp)]; [done|].
    apply elem_of_set_sorted in Hraw.
    assert (raw = name) as <-; [|done].
    apply show_parse_name in Hp. congruence.
  - intros Hin. right. exists name. split; [by apply elem_of_set_sorted|].
    by apply parse_show_name.
Qed.
