(* ===== verification/Sort.v ===== *)
(** Sorting that survives bad comparators: [libutil/include/bsd/util/sort.hh].

    [peeksort] is a merge sort that looks for runs around the middle of the
    range it sorts. The comparator may throw and have effects, as it does when
    it is a function of the language. Iterators are indices: moving one outside
    of the array and reading outside of it is [UndefinedBehaviour]. *)

From S2P Require Import Prelude State.

Section sort.
Context {S A : Type}.
Abbreviation Cmp := (A → A → StE S bool).

(** * The algorithms *)

Definition at_ (l : list A) (i : nat) : StE S A := lift (match l !! i with Some x => Ok x | None => Throw UndefinedBehaviour end).
Definition next (l : list A) (i : nat) : StE S nat := lift (if (i <? length l)%nat then Ok (i + 1)%nat else Throw UndefinedBehaviour).
Definition prev (i : nat) : StE S nat := lift (match i with O => Throw UndefinedBehaviour | Datatypes.S i => Ok i end).
Definition swap (l : list A) (i : nat) (x : A) (j : nat) (y : A) : list A := <[i := y]> (<[j := x]> l).
(** Overwrites the range that starts at [b]. *)
Definition write (l : list A) (b : nat) (x : list A) : list A := take b l ++ x ++ drop (b + length x) l.
Definition range (l : list A) (b e : nat) : list A := take (e - b) (drop b l).

Definition not_fn (comp : Cmp) : Cmp := λ x y, c ← comp x y; mret (negb c).

(** The loop of [mergeSortedRunsInPlace] and the two moves after it, over the
    halves of the working buffer. *)
Fixpoint merge_loop (comp : Cmp) (left : list A) : list A → StE S (list A) :=
  fix go (right : list A) : StE S (list A) :=
    match left, right with
    | x :: left', y :: right' =>
        c ← comp y x;
        if c : bool then out ← go right'; mret (y :: out)
        else out ← merge_loop comp left' right; mret (x :: out)
    | [], _ => mret right
    | _, [] => mret left
    end.

Definition mergeSortedRunsInPlace (comp : Cmp) (buffer : nat) (l : list A) (b m e : nat) : StE S (list A) :=
  if (e - b <=? buffer)%nat then
    out ← merge_loop comp (range l b m) (range l m e);
    mret (write l b out)
  else throw UndefinedBehaviour.

(** The inner loop: [k] is [insertionPoint - begin]. *)
Fixpoint insertion_inner (comp : Cmp) (b : nat) (k : nat) (l : list A) : StE S (list A) :=
  match k with
  | O => mret l
  | Datatypes.S k' =>
      x ← at_ l (b + k); y ← at_ l (b + k');
      c ← comp x y;
      if c : bool then insertion_inner comp b k' (swap l (b + k) x (b + k') y) else mret l
  end.
(** The outer loop, [n] rounds from [current]. *)
Fixpoint insertion_outer (comp : Cmp) (b n current : nat) (l : list A) : StE S (list A) :=
  match n with
  | O => mret l
  | Datatypes.S n =>
      l ← insertion_inner comp b (current - b) l;
      current ← next l current;
      insertion_outer comp b n current l
  end.
Definition insertionsort (comp : Cmp) (l : list A) (b e : nat) : StE S (list A) :=
  if (b =? e)%nat then mret l
  else current ← next l b; insertion_outer comp b (e - current) current l.

Fixpoint decreasing_up (comp : Cmp) (l : list A) (n b e : nat) : StE S nat :=
  match n with
  | O => throw NonTermination
  | Datatypes.S n =>
      b' ← next l b;
      if (b' =? e)%nat then mret b'
      else
        x ← at_ l b'; y ← at_ l b;
        c ← comp x y;
        if c : bool then decreasing_up comp l n b' e else mret b'
  end.
Definition strictlyDecreasingPrefix (comp : Cmp) (l : list A) (b e : nat) : StE S nat :=
  if (b =? e)%nat then mret b else decreasing_up comp l (e - b) b e.

Fixpoint decreasing_down (comp : Cmp) (l : list A) (n b e : nat) : StE S nat :=
  match n with
  | O => throw NonTermination
  | Datatypes.S n =>
      e1 ← prev e;
      if (b <? e1)%nat then
        e2 ← prev e1;
        x ← at_ l e1; y ← at_ l e2;
        c ← comp x y;
        if c : bool then decreasing_down comp l n b e1 else mret e1
      else mret e1
  end.
Definition strictlyDecreasingSuffix (comp : Cmp) (l : list A) (b e : nat) : StE S nat :=
  if (b =? e)%nat then mret e else decreasing_down comp l (e - b) b e.

Definition weaklyIncreasingPrefix (comp : Cmp) := strictlyDecreasingPrefix (not_fn comp).
Definition weaklyIncreasingSuffix (comp : Cmp) := strictlyDecreasingSuffix (not_fn comp).

(** The run around the middle: its ends, and the array with the run turned
    around if it was decreasing. *)
Definition middle_run (comp : Cmp) (l : list A) (leftRunEnd middle rightRunBegin : nat) : StE S (list A * nat * nat) :=
  m1 ← prev middle;
  x ← at_ l middle; y ← at_ l m1;
  c ← comp x y;
  if c : bool then
    i ← strictlyDecreasingSuffix comp l leftRunEnd middle;
    j ← strictlyDecreasingPrefix comp l m1 rightRunBegin;
    mret (write l i (reverse (range l i j)), i, j)
  else
    i ← weaklyIncreasingSuffix comp l leftRunEnd middle;
    j ← weaklyIncreasingPrefix comp l m1 rightRunBegin;
    mret (l, i, j).

Definition insertionsortThreshold : nat := 16.

Fixpoint peeksortImpl (comp : Cmp) (buffer fuel : nat) (l : list A) (b e leftRunEnd rightRunBegin : nat) : StE S (list A) :=
  match fuel with
  | O => throw NonTermination
  | Datatypes.S fuel =>
      if (leftRunEnd =? e)%nat || (rightRunBegin =? b)%nat then mret l
      else if (e - b <=? insertionsortThreshold)%nat then insertionsort comp l b e
      else
        let middle := (b + (e - b) / 2)%nat in
        if (middle <=? leftRunEnd)%nat then
          n ← next l leftRunEnd;
          l ← peeksortImpl comp buffer fuel l leftRunEnd e n rightRunBegin;
          mergeSortedRunsInPlace comp buffer l b leftRunEnd e
        else if (rightRunBegin <=? middle)%nat then
          p ← prev rightRunBegin;
          l ← peeksortImpl comp buffer fuel l b rightRunBegin leftRunEnd p;
          mergeSortedRunsInPlace comp buffer l b rightRunBegin e
        else
          '(l, i, j) ← middle_run comp l leftRunEnd middle rightRunBegin;
          if (i =? b)%nat && (j =? e)%nat then mret l
          else if (middle - i <? j - middle)%nat then
            p ← prev i;
            l ← peeksortImpl comp buffer fuel l b i leftRunEnd p;
            l ← peeksortImpl comp buffer fuel l i e j rightRunBegin;
            mergeSortedRunsInPlace comp buffer l b i e
          else
            l ← peeksortImpl comp buffer fuel l b j leftRunEnd i;
            n ← next l j;
            l ← peeksortImpl comp buffer fuel l j e n rightRunBegin;
            mergeSortedRunsInPlace comp buffer l b j e
  end.

Definition peeksort (comp : Cmp) (l : list A) : StE S (list A) :=
  match l with
  | [] | [_] => mret l
  | [x; y] => c ← comp y x; mret (if c : bool then [y; x] else l)
  | _ => peeksortImpl comp (length l) (Datatypes.S (length l)) l 0 (length l) 0 (length l)
  end.
End sort.

(** * What a comparator must be *)

Section order.
Context {A : Type} (lt : A → A → bool).

Definition equivalent (x y : A) : bool := negb (lt x y) && negb (lt y x).
Record strict_weak_order : Prop := {
  swo_irrefl x : lt x x = false;
  swo_trans x y z : lt x y = true → lt y z = true → lt x z = true;
  swo_equiv x y z : equivalent x y = true → equivalent y z = true → equivalent x z = true;
}.
Definition le (x y : A) : Prop := lt y x = false.
(** The elements that are equivalent to [x], in order. *)
Abbreviation class x := (filter (λ y, equivalent x y = true)).

Context (W : strict_weak_order).

Lemma lt_le x y : lt x y = true → le x y.
Proof using W. intros H. unfold le. destruct (lt y x) eqn:E; [|done]. by rewrite <- (swo_irrefl W x), (swo_trans W x y x). Qed.

Lemma le_trans x y z : le x y → le y z → le x z.
Proof using W.
  unfold le. intros H1 H2. destruct (lt z x) eqn:E; [|done].
  assert (lt x y = false) as H3 by (destruct (lt x y) eqn:Exy; [|done]; by rewrite (swo_trans W z x y) in H2).
  assert (lt y z = false) as H4 by (destruct (lt y z) eqn:Eyz; [|done]; by rewrite (swo_trans W y z x) in H1).
  assert (equivalent x z = true) as He by (apply (swo_equiv W x y z); unfold equivalent; by rewrite ?H1, ?H2, ?H3, ?H4).
  unfold equivalent in He. rewrite E in He. by rewrite andb_false_r in He.
Qed.

Lemma lt_le_trans x y z : lt x y = true → le y z → lt x z = true.
Proof using W.
  intros H1 H2. destruct (lt x z) eqn:E; [done|]. assert (le z x) as H3 by done. pose proof (le_trans _ _ _ H2 H3) as H4. unfold le in H4. congruence.
Qed.

Lemma lt_not_equivalent x y z : lt x y = true → equivalent z x = true → equivalent z y = true → False.
Proof using W.
  intros H Hx Hy. assert (equivalent x z = true) as Hx' by (unfold equivalent in *; by rewrite andb_comm).
  pose proof (swo_equiv W x z y Hx' Hy) as He. unfold equivalent in He. by rewrite H in He.
Qed.

Lemma class_none z l : (∀ y, y ∈ l → equivalent z y = true → False) → class z l = [].
Proof using.
  intros H. induction l as [|y l IH]; [done|]. rewrite filter_cons_False by (intros Hy; apply (H y); [by left|done]).
  apply IH. intros x Hx. apply H. by right.
Qed.

(** An element that is smaller than those before it can move past them. *)
Lemma class_move z y l : Forall (λ x, lt y x = true) l → class z (l ++ [y]) = class z (y :: l).
Proof using W.
  intros Hl. rewrite filter_app, (filter_cons _ y l), filter_cons, filter_nil. case_decide as Hz; [|by rewrite app_nil_r].
  rewrite (class_none z l); [done|]. intros x Hx Hzx. eapply lt_not_equivalent; [|exact Hz|exact Hzx].
  by eapply (proj1 (Forall_forall _ _) Hl).
Qed.

Lemma sorted_head x y l : StronglySorted le (x :: l) → lt y x = true → Forall (λ x, lt y x = true) (x :: l).
Proof using W.
  intros [_ Hl]%StronglySorted_inv Hy. constructor; [done|]. eapply Forall_impl; [exact Hl|]. intros z Hz. by eapply lt_le_trans.
Qed.

(** A strictly decreasing run has one element of a class at most. *)
Lemma class_reverse z l : StronglySorted (λ x y, lt y x = true) l → class z (reverse l) = class z l.
Proof using W.
  induction 1 as [|x l _ IH Hl]; [done|]. rewrite reverse_cons, filter_app, IH. rewrite filter_cons, filter_nil, filter_cons.
  case_decide as Hz; [|by rewrite app_nil_r]. rewrite (class_none z l); [done|].
  intros y Hy Hzy. rewrite Forall_forall in Hl. by eapply (lt_not_equivalent y x z); [apply Hl| |].
Qed.

Lemma decreasing_reverse l : StronglySorted (λ x y, lt y x = true) l → StronglySorted le (reverse l).
Proof using W.
  induction 1 as [|x l _ IH Hl]; [constructor|]. rewrite reverse_cons. apply StronglySorted_app_2; [|done|repeat constructor].
  intros y z Hy Hz. apply list_elem_of_singleton in Hz as ->. rewrite elem_of_reverse in Hy. rewrite Forall_forall in Hl.
  by apply lt_le, Hl.
Qed.
End order.

(** * Ranges *)

Section ranges.
Context {A : Type}.
Lemma range_mid (p x q : list A) : range (p ++ x ++ q) (length p) (length p + length x) = x.
Proof. unfold range. rewrite drop_app_length. replace (length p + length x - length p)%nat with (length x) by lia. apply take_app_length. Qed.
Lemma write_mid (p x y q : list A) : length x = length y → write (p ++ x ++ q) (length p) y = p ++ y ++ q.
Proof.
  intros E. unfold write. rewrite take_app_length. f_equal. f_equal. rewrite <- E.
  rewrite app_assoc. rewrite <- length_app. apply drop_app_length.
Qed.
Lemma swap_mid (p r : list A) x y : swap (p ++ y :: x :: r) (length p + 1) x (length p) y = p ++ x :: y :: r.
Proof.
  unfold swap. rewrite insert_app_r_alt, Nat.sub_diag by lia. cbn. rewrite insert_app_r_alt by lia.
  by replace (length p + 1 - length p)%nat with 1%nat by lia.
Qed.
Lemma lookup_mid (p r : list A) x i : i = length p → (p ++ x :: r) !! i = Some x.
Proof. intros ->. by rewrite lookup_app_r, Nat.sub_diag. Qed.
End ranges.

(** * Verification *)

Section verify.
Context {S A : Type} (comp : A → A → StE S bool) (lt : A → A → bool).
Abbreviation class x := (filter (λ y, equivalent lt x y = true)).

(** The exceptions and the answers the comparator gives. *)
Definition thrown (e : exn) (_ : S) : Prop := ∃ x y s s', comp x y s = (Throw e, s').
Definition says (x y : A) (c : bool) : Prop := ∃ s s', comp x y s = (Ok c, s').
(** The comparator decides [lt]; where it does not, the order that results is
    not specified. *)
Definition proper : Prop := (∀ x y c, says x y c → c = lt x y) ∧ strict_weak_order lt.
Definition in_order (l : list A) : Prop := proper → StronglySorted (le lt) l.
Definition rearranges (l l' : list A) : Prop := l ≡ₚ l' ∧ (proper → ∀ z, class z l = class z l').

Lemma rearranges_refl l : rearranges l l.
Proof. by split. Qed.
Lemma rearranges_trans l k m : rearranges l k → rearranges k m → rearranges l m.
Proof. intros [P1 C1] [P2 C2]. split; [by etrans|]. intros H z. by rewrite C1, C2. Qed.
Lemma rearranges_app l l' k k' : rearranges l l' → rearranges k k' → rearranges (l ++ k) (l' ++ k').
Proof. intros [P1 C1] [P2 C2]. split; [by rewrite P1, P2|]. intros H z. rewrite !filter_app. by rewrite C1, C2. Qed.
Lemma rearranges_length l l' : rearranges l l' → length l = length l'.
Proof. intros [P _]. by rewrite P. Qed.

Lemma wp_comp x y s : wp thrown (comp x y) (λ c _, says x y c) s.
Proof. unfold wp. destruct (comp x y s) as [[c|e] s'] eqn:E; [by exists s, s'|]. by exists x, y, s, s'. Qed.

(** Comparators that are the given one up to negation. *)
Definition reads (comp' : A → A → StE S bool) (P : A → A → bool → Prop) : Prop := ∀ x y s, wp thrown (comp' x y) (λ c _, P x y c) s.
Lemma reads_comp : reads comp says.
Proof. intros x y s. apply wp_comp. Qed.
Lemma reads_not_fn : reads (not_fn comp) (λ x y c, says x y (negb c)).
Proof. intros x y s. unfold not_fn. apply st_bind. eapply st_mono; [apply wp_comp|]. intros c s' Hc. apply st_ret. by rewrite negb_involutive. Qed.

Lemma wp_at (l : list A) i x (Q : A → S → Prop) s : l !! i = Some x → Q x s → wp thrown (at_ l i) Q s.
Proof. intros E HQ. apply st_lift. by rewrite E. Qed.
Lemma wp_next (l : list A) i (Q : nat → S → Prop) s : (i < length l)%nat → Q (i + 1)%nat s → wp thrown (next l i) Q s.
Proof. intros Hi HQ. apply st_lift. by rewrite (proj2 (Nat.ltb_lt _ _) Hi). Qed.
Lemma wp_prev i (Q : nat → S → Prop) s : (0 < i)%nat → Q (i - 1)%nat s → wp thrown (prev i) Q s.
Proof. intros Hi HQ. apply st_lift. destruct i; [lia|]. cbn in HQ. by rewrite Nat.sub_0_r in HQ. Qed.

(** ** Merging *)

Lemma merge_loop_wp left right s :
  wp thrown (merge_loop comp left right) (λ out _,
    left ++ right ≡ₚ out ∧
    (proper → StronglySorted (le lt) left → StronglySorted (le lt) right →
     StronglySorted (le lt) out ∧ ∀ z, class z (left ++ right) = class z out)) s.
Proof.
  revert right s. induction left as [|x left IHl]; [|induction right as [|y right IHr]]; intros; cbn [merge_loop].
  - destruct right; apply st_ret; auto.
  - apply st_ret. rewrite app_nil_r. auto.
  - apply st_bind. eapply st_mono; [apply wp_comp|]. intros [] s1 Hc; apply st_bind.
    + eapply st_mono; [apply IHr|]. intros out s2 [P C]. apply st_ret. split; [by rewrite <- P, Permutation_middle|].
      intros H Hl Hr. pose proof H as [H1 W]. apply H1 in Hc. apply StronglySorted_inv in Hr as [Hr Hy]. destruct (C H Hl Hr) as [Ho Hz].
      assert (Forall (λ u, lt y u = true) (x :: left)) as Hf by (by apply sorted_head).
      split.
      * constructor; [done|]. rewrite <- P. apply Forall_app. split; [|done]. eapply Forall_impl; [exact Hf|]. intros u Hu. by apply lt_le.
      * intros z. change (y :: out) with ([y] ++ out). rewrite (filter_app _ [y] out), <- Hz, <- filter_app.
        change (y :: right) with ([y] ++ right). rewrite !app_assoc, filter_app, (class_move lt W) by done. by rewrite <- filter_app.
    + eapply st_mono; [apply IHl|]. intros out s2 [P C]. apply st_ret. split; [by cbn; rewrite P|].
      intros H Hl Hr. pose proof H as [H1 W]. apply H1 in Hc. apply StronglySorted_inv in Hl as [Hl Hx]. destruct (C H Hl Hr) as [Ho Hz]. split.
      * constructor; [done|]. rewrite <- P. apply Forall_app. split; [done|]. assert (le lt x y) as Hxy by done. constructor; [done|].
        apply StronglySorted_inv in Hr as [_ Hr]. eapply Forall_impl; [exact Hr|]. intros u Hu. by eapply le_trans.
      * intros z. cbn [app]. by rewrite !filter_cons, Hz.
Qed.

Lemma merge_wp buffer p x y q s :
  (length x + length y <= buffer)%nat →
  wp thrown (mergeSortedRunsInPlace comp buffer (p ++ (x ++ y) ++ q) (length p) (length p + length x) (length p + length x + length y)) (λ l _,
    ∃ o, l = p ++ o ++ q ∧ x ++ y ≡ₚ o ∧ (proper → in_order x → in_order y → in_order o ∧ rearranges (x ++ y) o)) s.
Proof.
  intros Hb. unfold mergeSortedRunsInPlace. rewrite (proj2 (Nat.leb_le _ _)) by lia.
  rewrite <- app_assoc, range_mid. rewrite (app_assoc p x), <- length_app, range_mid.
  apply st_bind. eapply st_mono; [apply merge_loop_wp|]. intros o s' [P C]. apply st_ret. exists o.
  rewrite <- app_assoc, (app_assoc x), write_mid by (by apply Permutation_length). split; [done|]. split; [done|].
  intros H Hx Hy. destruct (C H (Hx H) (Hy H)) as [Ho Hz]. split; [by intros _|split; [done|by intros _]].
Qed.

(** ** Insertion *)

Lemma insertion_inner_wp b p x z r s :
  b = length p →
  wp thrown (insertion_inner comp b (length x) (p ++ x ++ z :: r)) (λ l _,
    ∃ o, l = p ++ o ++ r ∧ length o = Datatypes.S (length x) ∧ x ++ [z] ≡ₚ o ∧ (proper → in_order x → in_order o ∧ rearranges (x ++ [z]) o)) s.
Proof.
  intros ->. revert z r s. induction x as [|y x IH] using rev_ind; intros z r s.
  { cbn [insertion_inner length app]. apply st_ret. exists [z]. split; [done|]. split; [done|]. split; [done|]. intros H _. split; [intros _; repeat constructor|apply rearranges_refl]. }
  rewrite length_app. cbn [length]. rewrite Nat.add_1_r. cbn [insertion_inner].
  assert (p ++ (x ++ [y]) ++ z :: r = (p ++ x) ++ y :: z :: r) as El by (by rewrite <- !app_assoc).
  apply st_bind. eapply wp_at; [rewrite El, (app_assoc _ [y] (z :: r) : _ ++ y :: z :: r = _); apply lookup_mid; rewrite !length_app; cbn; lia|].
  apply st_bind. eapply wp_at; [rewrite El; apply lookup_mid; rewrite length_app; lia|].
  apply st_bind. eapply st_mono; [apply wp_comp|]. intros [] s1 Hc.
  - assert (swap (p ++ (x ++ [y]) ++ z :: r) (length p + Datatypes.S (length x)) z (length p + length x) y = p ++ x ++ z :: y :: r) as ->.
    { rewrite El. replace (length p + Datatypes.S (length x))%nat with (length (p ++ x) + 1)%nat by (rewrite length_app; lia).
      rewrite <- length_app, swap_mid. by rewrite <- app_assoc. }
    eapply st_mono; [apply (IH z (y :: r))|]. intros l s2 (o & -> & Lo & P & C). exists (o ++ [y]).
    assert ((x ++ [y]) ++ [z] ≡ₚ o ++ [y]) as Pm by (rewrite <- P, <- !app_assoc; apply Permutation_app_head; cbn; apply Permutation_swap).
    split; [by rewrite <- app_assoc|]. split; [rewrite length_app; cbn; lia|]. split; [done|]. intros H Hx. pose proof H as [H1 W]. apply H1 in Hc.
    pose proof (Hx H) as Hs. apply StronglySorted_app in Hs as (Hxy & Hs & _). destruct (C H (λ _, Hs)) as [Ho Hr]. split.
    + intros _. apply StronglySorted_app_2; [|by apply Ho|repeat constructor]. intros u v Hu Hv. apply list_elem_of_singleton in Hv as ->.
      rewrite <- P in Hu. apply elem_of_app in Hu as [Hu|Hu]; [apply Hxy; [done|by left]|]. apply list_elem_of_singleton in Hu as ->. by apply lt_le.
    + split; [done|]. intros _ w. destruct Hr as [_ Hr]. rewrite (filter_app _ o), <- (Hr H w), <- filter_app, <- !app_assoc, !(filter_app _ x). f_equal.
      apply (class_move lt W). by repeat constructor.
  - apply st_ret. cbn beta. exists ((x ++ [y]) ++ [z]). rewrite <- !app_assoc. split; [done|]. split; [rewrite !length_app; cbn; lia|]. split; [done|].
    intros H Hx. split; [|apply rearranges_refl]. intros _. pose proof H as [H1 W]. apply H1 in Hc. rewrite app_assoc. apply StronglySorted_app_2; [|by apply Hx|repeat constructor].
    intros u v Hu Hv. apply list_elem_of_singleton in Hv as ->. assert (le lt y z) as Hyz by done. apply elem_of_app in Hu as [Hu|Hu].
    + pose proof (Hx H) as Hs. apply StronglySorted_app in Hs as (Hxy & _ & _). eapply le_trans; [done| |exact Hyz]. apply Hxy; [done|by left].
    + by apply list_elem_of_singleton in Hu as ->.
Qed.

(** A step that keeps the elements, and their order when the parts that are
    assumed sorted are. *)
Definition improves (x o : list A) : Prop := x ≡ₚ o ∧ (proper → in_order o ∧ rearranges x o).

Lemma improves_length x o : improves x o → length x = length o.
Proof. intros [P _]. by apply Permutation_length. Qed.
Lemma improves_rearranges x y o : rearranges x y → improves y o → improves x o.
Proof.
  intros Hr [P C]. split; [etrans; [apply Hr|done]|]. intros H. destruct (C H) as [Ho Hz]. split; [done|by eapply rearranges_trans].
Qed.
Lemma improves_refl x : in_order x → improves x x.
Proof. intros Hx. split; [done|]. intros _. split; [done|apply rearranges_refl]. Qed.
Lemma improves_order x o : improves x o → in_order o.
Proof. intros [_ C] H. by apply C. Qed.
Lemma improves_to x o : improves x o → rearranges x o.
Proof. intros [P C]. split; [done|]. intros H. by apply C. Qed.

Lemma insertion_outer_wp p x w q s :
  in_order x →
  wp thrown (insertion_outer comp (length p) (length w) (length p + length x) (p ++ x ++ w ++ q)) (λ l _,
    ∃ o, l = p ++ o ++ q ∧ improves (x ++ w) o) s.
Proof.
  revert x s. induction w as [|z w IH]; intros x s Hx; cbn [insertion_outer length].
  { apply st_ret. exists x. split; [done|]. rewrite app_nil_r. by apply improves_refl. }
  replace (length p + length x - length p)%nat with (length x) by lia. apply st_bind.
  eapply st_mono; [by apply (insertion_inner_wp (length p) p x z (w ++ q))|]. intros l s1 (o & -> & Lo & P & C).
  apply st_bind. apply wp_next; [rewrite !length_app; cbn; lia|]. replace (length p + length x + 1)%nat with (length p + length o)%nat by lia.
  assert (improves (x ++ [z]) o) as Hi by (split; [done|]; intros H; by apply C).
  eapply st_mono; [apply IH; by eapply improves_order|]. intros l s2 (o' & -> & Hi'). exists o'. split; [done|].
  eapply improves_rearranges; [|exact Hi']. change (z :: w) with ([z] ++ w). rewrite app_assoc. apply rearranges_app; [by apply improves_to|apply rearranges_refl].
Qed.

Lemma insertionsort_wp p x q s :
  wp thrown (insertionsort comp (p ++ x ++ q) (length p) (length p + length x)) (λ l _, ∃ o, l = p ++ o ++ q ∧ improves x o) s.
Proof.
  unfold insertionsort. destruct (Nat.eqb_spec (length p) (length p + length x)) as [E|E].
  { apply st_ret. destruct x; [|cbn in E; lia]. exists []. split; [done|]. apply improves_refl. intros _. constructor. }
  destruct x as [|z x]; [cbn in E; lia|]. apply st_bind. apply wp_next; [rewrite !length_app; cbn; lia|]. cbn [length].
  replace (length p + Datatypes.S (length x) - (length p + 1))%nat with (length x) by lia.
  apply (insertion_outer_wp p [z] x q s). intros _. repeat constructor.
Qed.

(** ** Runs *)

Definition run (P : A → A → Prop) (l : list A) (i j : nat) : Prop :=
  ∀ k x y, (i <= k)%nat → (k + 1 < j)%nat → l !! k = Some x → l !! (k + 1)%nat = Some y → P x y.

Lemma decreasing_up_wp comp' P l n b e s :
  reads comp' P → (b < e)%nat → (e <= length l)%nat → (e - b <= n)%nat →
  wp thrown (decreasing_up comp' l n b e) (λ j _, (b < j <= e)%nat ∧ run (λ x y, P y x true) l b j) s.
Proof.
  intros HP. revert b s. induction n as [|n IH]; intros b s Hb He Hn; [lia|]. cbn [decreasing_up]. apply st_bind, wp_next; [lia|].
  destruct (Nat.eqb_spec (b + 1) e) as [E|E]; [apply st_ret; split; [lia|]; intros k x y H1 H2; lia|].
  destruct (lookup_lt_is_Some_2 l (b + 1)) as [x Ex]; [lia|]. destruct (lookup_lt_is_Some_2 l b) as [y Ey]; [lia|].
  apply st_bind. eapply wp_at; [exact Ex|]. apply st_bind. eapply wp_at; [exact Ey|]. apply st_bind. eapply st_mono; [apply HP|]. intros [] s1 Hc.
  - eapply st_mono; [apply IH; lia|]. intros j s2 [Hj Hr]. split; [lia|]. intros k u v H1 H2 Hu Hv. destruct (decide (k = b)) as [->|]; [|by apply (Hr k); [lia|..]].
    congruence.
  - apply st_ret. split; [lia|]. intros k u v H1 H2. lia.
Qed.

Lemma decreasing_down_wp comp' P l n b e s :
  reads comp' P → (b < e)%nat → (e <= length l)%nat → (e - b <= n)%nat →
  wp thrown (decreasing_down comp' l n b e) (λ i _, (b <= i < e)%nat ∧ run (λ x y, P y x true) l i e) s.
Proof.
  intros HP. revert e s. induction n as [|n IH]; intros e s Hb He Hn; [lia|]. cbn [decreasing_down]. apply st_bind, wp_prev; [lia|].
  destruct (Nat.ltb_spec b (e - 1)) as [E|E]; [|apply st_ret; split; [lia|]; intros k x y H1 H2; lia].
  apply st_bind, wp_prev; [lia|].
  destruct (lookup_lt_is_Some_2 l (e - 1)) as [x Ex]; [lia|]. destruct (lookup_lt_is_Some_2 l (e - 1 - 1)) as [y Ey]; [lia|].
  apply st_bind. eapply wp_at; [exact Ex|]. apply st_bind. eapply wp_at; [exact Ey|]. apply st_bind. eapply st_mono; [apply HP|]. intros [] s1 Hc.
  - eapply st_mono; [apply IH; lia|]. intros i s2 [Hi Hr]. split; [lia|]. intros k u v H1 H2 Hu Hv.
    destruct (decide (k = e - 1 - 1)%nat) as [->|]; [|by apply (Hr k); [lia|lia|..]]. replace (e - 1 - 1 + 1)%nat with (e - 1)%nat in Hv by lia. congruence.
  - apply st_ret. split; [lia|]. intros k u v H1 H2. lia.
Qed.

Lemma run_sorted (P : A → A → Prop) p x q :
  (∀ u v w, P u v → P v w → P u w) → run P (p ++ x ++ q) (length p) (length p + length x) → StronglySorted P x.
Proof.
  intros HP. revert p. induction x as [|u x IH]; intros p Hr; [constructor|].
  assert (StronglySorted P x) as Hs.
  { apply (IH (p ++ [u])). intros k v w H1 H2 Hv Hw. rewrite <- app_assoc in Hv, Hw. rewrite length_app in H1, H2. cbn in H1, H2.
    apply (Hr k v w); [lia|cbn [length]; lia|done|done]. }
  constructor; [done|]. destruct x as [|v x]; [constructor|]. assert (P u v) as Huv.
  { apply (Hr (length p) u v); [lia|cbn [length]; lia|by apply lookup_mid|]. change (p ++ (u :: v :: x) ++ q) with (p ++ [u] ++ v :: (x ++ q)).
    rewrite app_assoc. apply lookup_mid. rewrite length_app. cbn. lia. }
  constructor; [done|]. apply StronglySorted_inv in Hs as [_ Hs]. eapply Forall_impl; [exact Hs|]. intros w Hw. by eapply HP.
Qed.

(** The run in the middle [y] of [x ++ y ++ z]; [m] is the length of what is
    before the middle. *)
Lemma middle_run_wp p x q L M R s :
  (length p <= L)%nat → (L < M)%nat → (M < R)%nat → (R <= length p + length x)%nat →
  wp thrown (middle_run comp (p ++ x ++ q) L M R) (λ r _,
    ∃ x1 y x2 y', x = x1 ++ y ++ x2 ∧ rearranges y y' ∧ in_order y' ∧
      r = (p ++ (x1 ++ y' ++ x2) ++ q, (length p + length x1)%nat, (length p + length x1 + length y)%nat) ∧
      (L <= length p + length x1 < M)%nat ∧ (M <= length p + length x1 + length y <= R)%nat) s.
Proof.
  intros HL HM HR He. set (l := p ++ x ++ q).
  assert (length l = length p + length x + length q)%nat as Ll by (unfold l; rewrite !length_app; lia).
  unfold middle_run. apply st_bind, wp_prev; [lia|].
  destruct (lookup_lt_is_Some_2 l M) as [u Eu]; [lia|]. destruct (lookup_lt_is_Some_2 l (M - 1)) as [v Ev]; [lia|].
  apply st_bind. eapply wp_at; [exact Eu|]. apply st_bind. eapply wp_at; [exact Ev|]. apply st_bind. eapply st_mono; [apply wp_comp|].
  assert (∀ i j, (L <= i < M)%nat → (M <= j <= R)%nat → ∃ x1 y x2, x = x1 ++ y ++ x2 ∧ i = (length p + length x1)%nat ∧ j = (length p + length x1 + length y)%nat) as Hcut.
  { intros i j Hi Hj. exists (take (i - length p) x), (take (j - i) (drop (i - length p) x)), (drop (j - i) (drop (i - length p) x)).
    rewrite take_drop, take_drop. rewrite !length_take, length_drop. split; [done|]. lia. }
  assert (∀ comp' P s, reads comp' P → ∀ Q : nat → nat → S → Prop,
    (∀ i j s', (L <= i < M)%nat → (M <= j <= R)%nat → run (λ a b, P b a true) l i j → Q i j s') →
    wp thrown (strictlyDecreasingSuffix comp' l L M) (λ i s1, wp thrown (strictlyDecreasingPrefix comp' l (M - 1) R) (λ j s2, Q i j s2) s1) s) as Hfind.
  { intros comp' P s0 HP Q HQ. unfold strictlyDecreasingSuffix. rewrite (proj2 (Nat.eqb_neq L M)) by lia.
    eapply st_mono; [apply (decreasing_down_wp comp' P); [done|lia|lia|lia]|]. intros i s1 [Hi Hri].
    unfold strictlyDecreasingPrefix. rewrite (proj2 (Nat.eqb_neq (M - 1) R)) by lia.
    eapply st_mono; [apply (decreasing_up_wp comp' P); [done|lia|lia|lia]|]. intros j s2 [Hj Hrj]. apply HQ; [lia|lia|].
    intros k a b H1 H2 Ha Hb. destruct (decide (k + 1 < M)%nat); [by apply (Hri k)|by apply (Hrj k); [lia|..]]. }
  intros [] s1 _.
  - apply st_bind. eapply st_mono; [apply (Hfind comp says s1 reads_comp (λ i j _, run (λ a b, says b a true) l i j ∧ (L <= i < M)%nat ∧ (M <= j <= R)%nat)); auto|].
    intros i s2 Hw. apply st_bind. eapply st_mono; [exact Hw|]. intros j s3 (Hr & Hi & Hj). apply st_ret.
    destruct (Hcut i j Hi Hj) as (x1 & y & x2 & -> & -> & ->). exists x1, y, x2, (reverse y).
    assert (l = (p ++ x1) ++ y ++ x2 ++ q) as El by (unfold l; by rewrite <- !app_assoc).
    assert (proper → StronglySorted (λ a b, lt b a = true) y) as Hd.
    { intros [H1 W]. apply (run_sorted _ (p ++ x1) y (x2 ++ q)); [intros a b c Hab Hbc; by eapply (swo_trans lt W)|].
      rewrite <- El, length_app. intros k a b Hk1 Hk2 Ha Hb. symmetry. apply H1. by eapply Hr. }
    split; [done|]. split; [split; [symmetry; apply reverse_Permutation|intros H z; symmetry; apply class_reverse; [apply H|by apply Hd]]|].
    split; [intros H; apply decreasing_reverse; [apply H|by apply Hd]|]. split; [|done].
    rewrite El, <- length_app, range_mid, write_mid by (by rewrite length_reverse). by rewrite <- !app_assoc.
  - apply st_bind. eapply st_mono; [apply (Hfind (not_fn comp) _ s1 reads_not_fn (λ i j _, run (λ a b, says b a false) l i j ∧ (L <= i < M)%nat ∧ (M <= j <= R)%nat)); auto|].
    intros i s2 Hw. apply st_bind. eapply st_mono; [exact Hw|]. intros j s3 (Hr & Hi & Hj). apply st_ret.
    destruct (Hcut i j Hi Hj) as (x1 & y & x2 & -> & -> & ->). exists x1, y, x2, y.
    split; [done|]. split; [apply rearranges_refl|]. split; [|done].
    intros [H1 W]. apply (run_sorted _ (p ++ x1) y (x2 ++ q)); [intros a b c; by apply le_trans|].
    rewrite length_app. intros k a b Hk1 Hk2 Ha Hb. symmetry. apply H1. eapply Hr; [exact Hk1|exact Hk2| |]; unfold l; by rewrite <- !app_assoc in *.
Qed.

(** ** The recursion *)

Lemma merge_step buffer p x1 x2 o1 o2 q m e s :
  improves x1 o1 → improves x2 o2 → m = (length p + length x1)%nat → e = (m + length x2)%nat → (length x1 + length x2 <= buffer)%nat →
  wp thrown (mergeSortedRunsInPlace comp buffer (p ++ (o1 ++ o2) ++ q) (length p) m e) (λ l _, ∃ o, l = p ++ o ++ q ∧ improves (x1 ++ x2) o) s.
Proof.
  intros I1 I2 -> -> Hb. rewrite (improves_length _ _ I1), (improves_length _ _ I2) in *.
  eapply st_mono; [by apply merge_wp|]. intros l s' (o & -> & P & C). exists o. split; [done|].
  apply (improves_rearranges _ (o1 ++ o2)); [apply rearranges_app; by apply improves_to|]. split; [done|].
  intros H. apply C; [done|by eapply improves_order|by eapply improves_order].
Qed.

(** The induction hypothesis of the recursion. *)
Definition sorts (buffer fuel : nat) : Prop := ∀ p x q L R s,
  (length x < fuel)%nat → (length x <= buffer)%nat →
  (length p <= L <= length p + length x)%nat → (length p <= R <= length p + length x)%nat →
  L = (length p + length x)%nat ∨ R = length p ∨ (L <= R)%nat →
  in_order (take (L - length p) x) → in_order (drop (R - length p) x) →
  wp thrown (peeksortImpl comp buffer fuel (p ++ x ++ q) (length p) (length p + length x) L R) (λ l _, ∃ o, l = p ++ o ++ q ∧ improves x o) s.

(** Sorting one part of [x1 ++ x2 ] in place. *)
Lemma sorts_left buffer fuel p x1 x2 q b e L R s :
  sorts buffer fuel → b = length p → e = (length p + length x1)%nat → (length x1 < fuel)%nat → (length x1 <= buffer)%nat →
  (b <= L <= e)%nat → (b <= R <= e)%nat → L = e ∨ R = b ∨ (L <= R)%nat →
  in_order (take (L - b) x1) → in_order (drop (R - b) x1) →
  wp thrown (peeksortImpl comp buffer fuel (p ++ (x1 ++ x2) ++ q) b e L R) (λ l _, ∃ o, l = p ++ (o ++ x2) ++ q ∧ improves x1 o) s.
Proof.
  intros Hs -> -> ? ? ? ? ? ? ?. rewrite <- app_assoc. eapply st_mono; [by apply Hs|]. intros l s' (o & -> & Ho). exists o. by rewrite <- app_assoc.
Qed.
Lemma sorts_right buffer fuel p x1 x2 q b e L R s :
  sorts buffer fuel → b = (length p + length x1)%nat → e = (length p + length x1 + length x2)%nat → (length x2 < fuel)%nat → (length x2 <= buffer)%nat →
  (b <= L <= e)%nat → (b <= R <= e)%nat → L = e ∨ R = b ∨ (L <= R)%nat →
  in_order (take (L - b) x2) → in_order (drop (R - b) x2) →
  wp thrown (peeksortImpl comp buffer fuel (p ++ (x1 ++ x2) ++ q) b e L R) (λ l _, ∃ o, l = p ++ (x1 ++ o) ++ q ∧ improves x2 o) s.
Proof.
  intros Hs -> -> ? ? ? ? ? H1 H2. rewrite <- app_assoc, app_assoc. rewrite <- length_app in *. eapply st_mono; [by apply Hs|].
  intros l s' (o & -> & Ho). exists o. by rewrite <- !app_assoc.
Qed.

Lemma in_order_one x : (length x <= 1)%nat → in_order x.
Proof. intros Hx _. destruct x as [|y [|z x]]; [constructor|repeat constructor|cbn in Hx; lia]. Qed.
Lemma in_order_take n x : in_order x → in_order (take n x).
Proof. intros Hx H. specialize (Hx H). rewrite <- (take_drop n x) in Hx. by apply StronglySorted_app in Hx as (_ & Hx & _). Qed.
Lemma in_order_drop n x : in_order x → in_order (drop n x).
Proof. intros Hx H. specialize (Hx H). rewrite <- (take_drop n x) in Hx. by apply StronglySorted_app in Hx as (_ & _ & Hx). Qed.
Lemma improves_done x y : rearranges x y → in_order y → improves x y.
Proof. intros [P C] Ho. by split; [|split; [|split]]. Qed.

(** The case of a run found in the middle: [x1 ++ y ++ x2], the run [y]. *)
Lemma middle_case buffer fuel p x1 y x2 q M L R s :
  sorts buffer fuel → (length x1 + length y + length x2 <= fuel)%nat → (length x1 + length y + length x2 <= buffer)%nat →
  M = (length p + (length x1 + length y + length x2) / 2)%nat → (16 < length x1 + length y + length x2)%nat →
  (length p <= L)%nat → (L <= length p + length x1 < M)%nat → (M <= length p + length x1 + length y <= R)%nat →
  (R <= length p + length x1 + length y + length x2)%nat → in_order y →
  in_order (take (L - length p) x1) → in_order (drop (R - (length p + length x1 + length y)) x2) →
  let i := (length p + length x1)%nat in let j := (i + length y)%nat in let e := (j + length x2)%nat in
  wp thrown (if (i =? length p)%nat && (j =? e)%nat then mret (p ++ (x1 ++ y ++ x2) ++ q)
    else if (M - i <? j - M)%nat then
      pi ← prev i;
      l ← peeksortImpl comp buffer fuel (p ++ (x1 ++ y ++ x2) ++ q) (length p) i L pi;
      l ← peeksortImpl comp buffer fuel l i e j R;
      mergeSortedRunsInPlace comp buffer l (length p) i e
    else
      l ← peeksortImpl comp buffer fuel (p ++ (x1 ++ y ++ x2) ++ q) (length p) j L i;
      n ← next l j;
      l ← peeksortImpl comp buffer fuel l j e n R;
      mergeSortedRunsInPlace comp buffer l (length p) j e)
    (λ l _, ∃ o, l = p ++ o ++ q ∧ improves (x1 ++ y ++ x2) o) s.
Proof.
  intros Hs Hf Hb HM Hbig HL Hi Hj HR Hy Ht Hd i j e.
  assert (2 * (M - length p) <= length x1 + length y + length x2 <= 2 * (M - length p) + 1)%nat as HM2.
  { rewrite HM. pose proof (Nat.div_mod_eq (length x1 + length y + length x2) 2). pose proof (Nat.mod_upper_bound (length x1 + length y + length x2) 2). lia. }
  destruct ((i =? length p)%nat && (j =? e)%nat) eqn:E.
  { apply st_ret. apply andb_true_iff in E as [E1%Nat.eqb_eq E2%Nat.eqb_eq]. destruct x1; [|cbn in *; lia]. destruct x2; [|cbn in *; lia].
    exists y. cbn. rewrite app_nil_r. split; [done|]. by apply improves_refl. }
  apply andb_false_iff in E. rewrite !Nat.eqb_neq in E. destruct (Nat.ltb_spec (M - i) (j - M)) as [Hc|Hc].
  - apply st_bind, wp_prev; [lia|]. apply st_bind.
    eapply st_mono; [apply (sorts_left buffer fuel p x1 (y ++ x2) q); [done|done|done|lia|lia|lia|lia|lia|done|]|].
    { apply in_order_one. rewrite length_drop. lia. }
    intros l s1 (o1 & -> & I1). pose proof (improves_length _ _ I1) as L1. apply st_bind.
    eapply st_mono; [apply (sorts_right buffer fuel p o1 (y ++ x2) q); [done|lia|rewrite length_app; lia|rewrite length_app; lia|rewrite length_app; lia|lia|lia|lia| |]|].
    { replace (j - i)%nat with (length y) by lia. by rewrite take_app_length. }
    { rewrite drop_app_ge by lia. replace (R - i - length y)%nat with (R - (length p + length x1 + length y))%nat by lia. done. }
    intros l s2 (o2 & -> & I2). apply (merge_step buffer p x1 (y ++ x2)); [done|done|done|rewrite length_app; lia|rewrite length_app; lia].
  - apply st_bind. rewrite (app_assoc x1 y x2).
    eapply st_mono; [apply (sorts_left buffer fuel p (x1 ++ y) x2 q); [done|done|rewrite length_app; lia|rewrite length_app; lia|rewrite length_app; lia|lia|lia|lia| |]|].
    { rewrite take_app_le by lia. done. }
    { rewrite drop_app_ge by lia. replace (i - length p - length x1)%nat with 0%nat by lia. done. }
    intros l s1 (o1 & -> & I1). pose proof (improves_length _ _ I1) as L1. rewrite length_app in L1. apply st_bind, wp_next; [rewrite !length_app; lia|]. apply st_bind.
    eapply st_mono; [apply (sorts_right buffer fuel p o1 x2 q); [done|lia|lia|lia|lia|lia|lia|lia| |]|].
    { apply in_order_one. rewrite length_take. lia. }
    { replace (R - j)%nat with (R - (length p + length x1 + length y))%nat by lia. done. }
    intros l s2 (o2 & -> & I2). apply (merge_step buffer p (x1 ++ y) x2); [done|done|rewrite length_app; lia|lia|rewrite length_app; lia].
Qed.

Lemma peeksortImpl_sorts buffer fuel : sorts buffer fuel.
Proof.
  induction fuel as [|fuel IH]; intros p x q L R s Hf Hb HL HR HLR Hl Hr; [lia|]. cbn [peeksortImpl].
  destruct (Nat.eqb_spec L (length p + length x)) as [->|EL].
  { apply st_ret. exists x. split; [done|]. apply improves_refl. rewrite take_ge in Hl by lia. done. }
  destruct (Nat.eqb_spec R (length p)) as [->|ER].
  { apply st_ret. exists x. split; [done|]. apply improves_refl. by rewrite Nat.sub_diag in Hr. }
  cbn [orb]. replace (length p + length x - length p)%nat with (length x) by lia.
  destruct (Nat.leb_spec (length x) insertionsortThreshold) as [Hs|Hs]; [apply insertionsort_wp|]. unfold insertionsortThreshold in Hs.
  set (M := (length p + length x / 2)%nat). assert (2 * (M - length p) <= length x <= 2 * (M - length p) + 1)%nat as HM.
  { pose proof (Nat.div_mod_eq (length x) 2). pose proof (Nat.mod_upper_bound (length x) 2). lia. }
  destruct (Nat.leb_spec M L) as [HML|HML].
  { apply st_bind, wp_next; [rewrite !length_app; lia|]. apply st_bind.
    rewrite <- (take_drop (L - length p) x) in Hl, Hr |- *. set (x1 := take (L - length p) x) in *. set (x2 := drop (L - length p) x) in *.
    assert (length x1 = L - length p)%nat as E1 by (unfold x1; rewrite length_take; lia). assert (length x2 = length p + length x - L)%nat as E2 by (unfold x2; rewrite length_drop; lia).
    eapply st_mono; [apply (sorts_right buffer fuel p x1 x2 q); [done|lia|rewrite length_app; lia|lia|lia|rewrite length_app; lia|rewrite length_app; lia|lia| |]|].
    { apply in_order_one. rewrite length_take. lia. }
    { rewrite drop_app_ge in Hr by lia. replace (R - length p - length x1)%nat with (R - L)%nat in Hr by lia. done. }
    intros l s1 (o2 & -> & I2). apply (merge_step buffer p x1 x2); [|done|lia|rewrite length_app; lia|lia].
    apply improves_refl. rewrite take_app_le, take_ge in Hl by lia. done. }
  destruct (Nat.leb_spec R M) as [HMR|HMR].
  { apply st_bind, wp_prev; [lia|]. apply st_bind.
    rewrite <- (take_drop (R - length p) x) in Hl, Hr |- *. set (x1 := take (R - length p) x) in *. set (x2 := drop (R - length p) x) in *.
    assert (length x1 = R - length p)%nat as E1 by (unfold x1; rewrite length_take; lia). assert (length x2 = length p + length x - R)%nat as E2 by (unfold x2; rewrite length_drop; lia).
    eapply st_mono; [apply (sorts_left buffer fuel p x1 x2 q); [done|done|lia|lia|lia|lia|lia|lia| |]|].
    { rewrite take_app_le in Hl by lia. done. }
    { apply in_order_one. rewrite length_drop. lia. }
    intros l s1 (o1 & -> & I1). apply (merge_step buffer p x1 x2); [done| |lia|rewrite length_app; lia|lia].
    apply improves_refl. rewrite drop_app_ge in Hr by lia. by replace (R - length p - length x1)%nat with 0%nat in Hr by lia. }
  apply st_bind. eapply st_mono; [apply (middle_run_wp p x q L M R); lia|]. cbn beta.
  intros r s1 (x1 & y & x2 & y' & Ex & Hy & Hys & -> & Hi & Hj). pose proof (rearranges_length _ _ Hy) as Ly.
  assert (length x = length x1 + length y + length x2)%nat as Lx by (rewrite Ex, !length_app; lia).
  rewrite Lx, Ly. rewrite !Nat.add_assoc.
  eapply st_mono; [apply (middle_case buffer fuel p x1 y' x2 q M L R s1 IH); [lia|lia|unfold M; f_equal; f_equal; lia|lia|lia|lia|lia|lia|done| |]|].
  { rewrite Ex, take_app_le in Hl by lia. done. }
  { rewrite Ex, app_assoc, drop_app_ge in Hr by (rewrite length_app; lia). rewrite length_app in Hr.
    by replace (R - (length p + length x1 + length y'))%nat with (R - length p - (length x1 + length y))%nat by lia. }
  intros l s2 (o & -> & Io). exists o. split; [done|]. rewrite Ex. eapply improves_rearranges; [|exact Io].
  apply rearranges_app; [apply rearranges_refl|]. apply rearranges_app; [done|apply rearranges_refl].
Qed.

Lemma peeksort_wp l s : wp thrown (peeksort comp l) (λ o _, improves l o) s.
Proof.
  unfold peeksort. destruct l as [|x [|y [|z l]]]; [apply st_ret, improves_refl, in_order_one; cbn; lia..| |].
  - apply st_bind. eapply st_mono; [apply wp_comp|]. intros [] s1 Hc; apply st_ret.
    + split; [apply Permutation_swap|]. intros H. pose proof H as [H1 W]. apply H1 in Hc. split; [intros _; repeat constructor; by apply lt_le|].
      split; [apply Permutation_swap|]. intros _ u. apply (class_move lt W u y [x]). by repeat constructor.
    + apply improves_refl. intros [H1 W]. apply H1 in Hc. repeat constructor. done.
  - set (w := x :: y :: z :: l). pose proof (peeksortImpl_sorts (length w) (Datatypes.S (length w)) [] w [] 0%nat (length w) s) as Hs. cbn [app length Nat.add] in Hs.
    rewrite app_nil_r in Hs. eapply st_mono; [apply Hs; [lia|lia|lia|lia|lia|apply in_order_one; cbn; lia|]|].
    { apply in_order_one. rewrite Nat.sub_0_r, drop_all. cbn. lia. }
    intros o s1 (o' & -> & Ho). by rewrite app_nil_r.
Qed.
End verify.

(** * Restricting a comparator

    A comparator on part of the states and elements acts on them as the given
    one does on all; [peeksort] then does so, too. *)

Section restrict.
Context {S A S' A' : Type} (f : A' → A) (π : S' → S) (comp : A → A → StE S bool) (comp' : A' → A' → StE S' bool).

Definition img {X X'} (g : X' → X) (m : StE S X) (m' : StE S' X') : Prop := ∀ s, m (π s) = (g <$> (m' s).1, π (m' s).2).

Lemma img_ret {X X'} (g : X' → X) a : img g (mret (g a)) (mret a).
Proof. done. Qed.
Lemma img_eq {X X'} (g : X' → X) a b : b = g a → img g (mret b) (mret a).
Proof. by intros ->. Qed.
Lemma img_bind {X X' Y Y'} (g : X' → X) (h : Y' → Y) m m' k k' :
  img g m m' → (∀ a, img h (k (g a)) (k' a)) → img h (m ≫= k) (m' ≫= k').
Proof. intros Hm Hk s. unfold mbind, StE_bind. rewrite (Hm s). destruct (m' s) as [[a|e] s1]; cbn; [apply Hk|done]. Qed.
Lemma img_throw {X X'} (g : X' → X) e : img g (throw e) (throw e).
Proof. done. Qed.
Lemma img_at l i : img f (at_ (f <$> l) i) (at_ l i).
Proof. intros s. unfold at_, lift. rewrite list_lookup_fmap. by destruct (l !! i). Qed.
Lemma img_next l i : img id (next (f <$> l) i) (next l i).
Proof. intros s. unfold next, lift. rewrite length_fmap. by destruct (_ <? _)%nat. Qed.
Lemma img_prev i : img id (prev (S := S) i) (prev i).
Proof. intros s. by destruct i. Qed.

Context (Hc : ∀ x y, img id (comp (f x) (f y)) (comp' x y)).

Ltac img := repeat first
  [ apply (img_ret id) | apply img_ret | apply img_throw | eapply img_bind; [apply Hc|]; intros []; cbn [id]
  | eapply img_bind; [apply img_at|]; intros | eapply img_bind; [apply img_next|]; intros; cbn [id]
  | eapply img_bind; [apply img_prev|]; intros; cbn [id] ].

Lemma img_not_fn x y : img id (not_fn comp (f x) (f y)) (not_fn comp' x y).
Proof. unfold not_fn. eapply img_bind; [apply Hc|]. intros c. apply (img_ret id). Qed.
Lemma img_merge_loop left : ∀ right, img (fmap f) (merge_loop comp (f <$> left) (f <$> right)) (merge_loop comp' left right).
Proof.
  induction left as [|x left IHl]; intros right; [destruct right; intros s; reflexivity|].
  induction right as [|y right IHr]; [intros s; reflexivity|]. cbn [fmap list_fmap merge_loop].
  eapply img_bind; [apply Hc|]. intros []; cbn [id].
  - eapply img_bind; [apply IHr|]. intros out. by apply img_eq.
  - eapply img_bind; [apply (IHl (y :: right))|]. intros out. by apply img_eq.
Qed.
Lemma fmap_range (l : list A') b e : range (f <$> l) b e = f <$> range l b e.
Proof. unfold range. by rewrite <- fmap_drop, <- fmap_take. Qed.
Lemma fmap_write (l x : list A') b : write (f <$> l) b (f <$> x) = f <$> write l b x.
Proof. unfold write. by rewrite !fmap_app, fmap_take, fmap_drop, length_fmap. Qed.
Lemma img_merge buffer l b m e :
  img (fmap f) (mergeSortedRunsInPlace comp buffer (f <$> l) b m e) (mergeSortedRunsInPlace comp' buffer l b m e).
Proof.
  unfold mergeSortedRunsInPlace. destruct (_ <=? _)%nat; [|apply img_throw]. rewrite !fmap_range.
  eapply img_bind; [apply img_merge_loop|]. intros out. rewrite fmap_write. apply img_ret.
Qed.
Lemma img_insertion_inner b k : ∀ l, img (fmap f) (insertion_inner comp b k (f <$> l)) (insertion_inner comp' b k l).
Proof.
  induction k as [|k IH]; intros l; cbn [insertion_inner]; img.
  unfold swap. rewrite <- !list_fmap_insert. apply IH.
Qed.
Lemma img_insertion_outer b n : ∀ c l, img (fmap f) (insertion_outer comp b n c (f <$> l)) (insertion_outer comp' b n c l).
Proof.
  induction n as [|n IH]; intros c l; cbn [insertion_outer]; img. eapply img_bind; [apply img_insertion_inner|]. intros l'.
  img. apply IH.
Qed.
Lemma img_insertionsort l b e : img (fmap f) (insertionsort comp (f <$> l) b e) (insertionsort comp' l b e).
Proof. unfold insertionsort. destruct (_ =? _)%nat; img. apply img_insertion_outer. Qed.

(** The searches for runs, for the comparator and its negation. *)
Section runs.
Context (c : A → A → StE S bool) (c' : A' → A' → StE S' bool) (Hcc : ∀ x y, img id (c (f x) (f y)) (c' x y)).
Lemma img_prefix l b e : img id (strictlyDecreasingPrefix c (f <$> l) b e) (strictlyDecreasingPrefix c' l b e).
Proof.
  unfold strictlyDecreasingPrefix. destruct (_ =? _)%nat; [apply (img_ret id)|]. generalize (e - b)%nat as n. intros n. revert b.
  induction n as [|n IH]; intros b; cbn [decreasing_up]; img. destruct (_ =? _)%nat; img.
  eapply img_bind; [apply Hcc|]. intros []; img. apply IH.
Qed.
Lemma img_suffix l b e : img id (strictlyDecreasingSuffix c (f <$> l) b e) (strictlyDecreasingSuffix c' l b e).
Proof.
  unfold strictlyDecreasingSuffix. destruct (_ =? _)%nat; [apply (img_ret id)|]. generalize (e - b)%nat as n. intros n. revert e.
  induction n as [|n IH]; intros e; cbn [decreasing_down]; img. destruct (_ <? _)%nat; img.
  eapply img_bind; [apply Hcc|]. intros []; img. apply IH.
Qed.
End runs.

Definition img_run (r : list A' * nat * nat) : list A * nat * nat := (f <$> r.1.1, r.1.2, r.2).
Lemma img_middle_run l L M R : img img_run (middle_run comp (f <$> l) L M R) (middle_run comp' l L M R).
Proof.
  unfold middle_run, weaklyIncreasingPrefix, weaklyIncreasingSuffix. img.
  - eapply img_bind; [by apply img_suffix|]. intros i. eapply img_bind; [by apply img_prefix|]. intros j. cbn [id].
    rewrite fmap_range, <- fmap_reverse, fmap_write. by apply img_eq.
  - eapply img_bind; [apply img_suffix, img_not_fn|]. intros i. eapply img_bind; [apply img_prefix, img_not_fn|]. intros j. cbn [id].
    by apply img_eq.
Qed.
Lemma img_peeksortImpl buffer fuel : ∀ l b e L R,
  img (fmap f) (peeksortImpl comp buffer fuel (f <$> l) b e L R) (peeksortImpl comp' buffer fuel l b e L R).
Proof.
  induction fuel as [|fuel IH]; intros l b e L R; cbn [peeksortImpl]; [apply img_throw|].
  destruct (_ || _); [apply img_ret|]. destruct (_ <=? _)%nat; [apply img_insertionsort|]. cbv zeta.
  destruct (_ <=? L)%nat; [img; eapply img_bind; [apply IH|]; intros; apply img_merge|].
  destruct (R <=? _)%nat; [img; eapply img_bind; [apply IH|]; intros; apply img_merge|].
  eapply img_bind; [apply img_middle_run|]. intros [[l1 i] j]. cbn [img_run fst snd].
  destruct (_ && _); [apply img_ret|]. destruct (_ <? _)%nat; img.
  - eapply img_bind; [apply IH|]. intros l2. eapply img_bind; [apply IH|]. intros l3. apply img_merge.
  - eapply img_bind; [apply IH|]. intros l2. img. eapply img_bind; [apply IH|]. intros l3. apply img_merge.
Qed.
Lemma peeksort_restrict l : img (fmap f) (peeksort comp (f <$> l)) (peeksort comp' l).
Proof.
  destruct l as [|x [|y [|z l]]]; [by apply img_eq|by apply img_eq| |].
  - cbn [peeksort fmap list_fmap]. eapply img_bind; [apply Hc|]. intros [].
    + by apply img_eq.
    + by apply img_eq.
  - cbn [peeksort fmap list_fmap length]. rewrite length_fmap. apply (img_peeksortImpl _ _ (x :: y :: z :: l)).
Qed.
End restrict.

(** [C36] Sorting is safe for any comparator and correct for a proper one.
    Whatever the comparator answers, from call to call even, and whatever
    effects it has, [peeksort] ends, stays within the range and its buffer, and
    returns a permutation of the input, or throws an exception the comparator
    threw. If the comparator decides a strict weak order, the result is sorted
    and elements that are equivalent keep their order. *)
Theorem peeksort_spec {S A : Type} (comp : A → A → StE S bool) (l : list A) (s : S) :
  match (peeksort comp l s).1 with
  | Ok l' =>
      l ≡ₚ l' ∧
      ∀ lt : A → A → bool, strict_weak_order lt → (∀ x y s, ∃ s', comp x y s = (Ok (lt x y), s')) →
        StronglySorted (λ x y, lt y x = false) l' ∧
        ∀ z, filter (λ y, equivalent lt z y = true) l' = filter (λ y, equivalent lt z y = true) l
  | Throw e => ∃ x y s0 s1, comp x y s0 = (Throw e, s1)
  end.
Proof.
  assert (∀ lt, wp (thrown comp) (peeksort comp l) (λ o _, improves comp lt l o) s) as H by (intros lt; apply peeksort_wp).
  unfold wp in H. destruct (peeksort comp l s) as [[l'|e] s']; cbn [fst]; [|exact (H (λ _ _, true))].
  split; [exact (proj1 (H (λ _ _, true)))|]. intros lt W Hc. destruct (H lt) as [_ C].
  assert (proper comp lt) as Hp.
  { split; [|done]. intros x y c (s0 & s1 & E). destruct (Hc x y s0) as (s2 & E2). rewrite E in E2. by injection E2. }
  destruct (C Hp) as [Ho [_ Hz]]. split; [exact (Ho Hp)|]. intros z. symmetry. exact (Hz Hp z).
Qed.

(** A comparator that answers by a table of calls, and one that is an order. *)
Definition sample_input : list (Z * Z) := zip [3; 1; 2; 3; 1; 9; 8; 7; 6; 5; 4; 3; 2; 1; 0; 5; 5; 1; 2; 20; 19] (map Z.of_nat (seq 0 21)).
Definition sample_sorted : list (Z * Z) :=
  [(0, 14); (1, 1); (1, 4); (1, 13); (1, 17); (2, 2); (2, 12); (2, 18); (3, 0); (3, 3); (3, 11); (4, 10); (5, 9); (5, 15); (5, 16); (6, 8); (7, 7); (8, 6); (9, 5); (19, 20); (20, 19)].
Example peeksort_sample : (peeksort (S := unit) (λ x y, mret (x.1 <? y.1)) sample_input tt).1 = Ok sample_sorted.
Proof. vm_compute. reflexivity. Qed.
