(* ===== verification/Lru.v ===== *)
(** The least-recently-used cache of [lru-cache.hh], which holds the path
    information a store has looked up.

    The code keeps a map from keys to values and positions in a linked list of
    map iterators. A position is a stable pointer to a list node; here a node
    has an address, the address is what the map stores, and using the address
    of a node that is not in the list is [UndefinedBehaviour]. The abstract
    specification is a list of the entries, the oldest first. *)

From S2P Require Import Prelude.

(** * The cache *)

(** [lru_next] is the address of the next node allocated. *)
Record LRUCache (K V : Type) `{Countable K} := MkLRU {
  lru_capacity : nat;
  lru_data : gmap K (nat * V);
  lru_list : list (nat * K);
  lru_next : nat;
}.
Arguments MkLRU {K V _ _} _ _ _ _.
Arguments lru_capacity {K V _ _} _.
Arguments lru_data {K V _ _} _.
Arguments lru_list {K V _ _} _.
Arguments lru_next {K V _ _} _.

Section cache.
Context {K V : Type} `{Countable K}.
Implicit Types (c : LRUCache K V) (key : K) (value : V).

Definition LRUCache_new (capacity : nat) : LRUCache K V := MkLRU capacity ∅ [] 0.

(** [std::list::erase]. *)
Fixpoint node_erase (it : nat) (l : list (nat * K)) : result (list (nat * K)) :=
  match l with
  | [] => Throw UndefinedBehaviour
  | n :: l => if (n.1 =? it)%nat then Ok l else l ← node_erase it l; Ok (n :: l)
  end.

(** [splice] of one node to the end of its own list. *)
Definition promote (it : nat) c : result (LRUCache K V) :=
  match list_find (λ n : nat * K, n.1 = it) (lru_list c) with
  | None => Throw UndefinedBehaviour
  | Some (_, n) =>
      l ← node_erase it (lru_list c);
      Ok (MkLRU (lru_capacity c) (lru_data c) (l ++ [n]) (lru_next c))
  end.

Definition lru_erase key c : result (bool * LRUCache K V) :=
  match lru_data c !! key with
  | None => Ok (false, c)
  | Some (it, _) =>
      l ← node_erase it (lru_list c);
      Ok (true, MkLRU (lru_capacity c) (delete key (lru_data c)) l (lru_next c))
  end.

Definition lru_upsert key value c : result (LRUCache K V) :=
  if (lru_capacity c =? 0)%nat then Ok c
  else
    '(_, c) ← lru_erase key c;
    c ← (if (lru_capacity c <=? size (lru_data c))%nat then
           match lru_list c with
           | [] => Throw UndefinedBehaviour
           | oldest :: l => Ok (MkLRU (lru_capacity c) (delete oldest.2 (lru_data c)) l (lru_next c))
           end
         else Ok c);
    _ ← assertR (bool_decide (lru_data c !! key = None));
    let j := lru_next c in
    Ok (MkLRU (lru_capacity c) (<[key := (j, value)]> (lru_data c)) (lru_list c ++ [(j, key)]) (S j)).

Definition lru_get key c : result (option V * LRUCache K V) :=
  match lru_data c !! key with
  | None => Ok (None, c)
  | Some (it, value) => c ← promote it c; Ok (Some value, c)
  end.

(** The pointer is the entry of the key. *)
Definition getOrNullptr key c : result (option K * LRUCache K V) :=
  match lru_data c !! key with
  | None => Ok (None, c)
  | Some (it, _) => c ← promote it c; Ok (Some key, c)
  end.

Definition lru_size c : nat := size (lru_data c).
Definition lru_clear c : LRUCache K V := MkLRU (lru_capacity c) ∅ [] (lru_next c).

(** * Specification *)

(** The entries, the oldest first. *)
Definition entry_of c (n : nat * K) : option (K * V) := (λ d : nat * V, (n.2, d.2)) <$> lru_data c !! n.2.
Definition entries c : list (K * V) := omap (entry_of c) (lru_list c).

Definition without key (l : list (K * V)) : list (K * V) := filter (λ e, e.1 ≠ key) l.
Definition find_entry key (l : list (K * V)) : option V := snd <$> (snd <$> list_find (λ e, e.1 = key) l).
Definition spec_upsert (capacity : nat) key value (l : list (K * V)) : list (K * V) :=
  if (capacity =? 0)%nat then l
  else let l := without key l in
       (if (capacity <=? length l)%nat then tail l else l) ++ [(key, value)].
Definition spec_touch key (l : list (K * V)) : list (K * V) :=
  match find_entry key l with None => l | Some v => without key l ++ [(key, v)] end.

Record lru_wf c : Prop := {
  lw_ids : NoDup (lru_list c).*1;
  lw_keys : NoDup (lru_list c).*2;
  lw_next n : n ∈ lru_list c → (n.1 < lru_next c)%nat;
  lw_data key it value : lru_data c !! key = Some (it, value) → (it, key) ∈ lru_list c;
  lw_list it key : (it, key) ∈ lru_list c → ∃ value, lru_data c !! key = Some (it, value);
  lw_size : (length (lru_list c) <= lru_capacity c)%nat;
}.

(** * The implementation follows the specification *)

Definition ents (d : gmap K (nat * V)) (l : list (nat * K)) : list (K * V) :=
  omap (λ n : nat * K, (λ x : nat * V, (n.2, x.2)) <$> d !! n.2) l.

Lemma ents_app d l1 l2 : ents d (l1 ++ l2) = ents d l1 ++ ents d l2.
Proof. apply omap_app. Qed.

Lemma ents_ext d d' l : (∀ n, n ∈ l → d !! n.2 = d' !! n.2) → ents d l = ents d' l.
Proof.
  intros Hl. unfold ents. induction l as [|n l IH]; [done|]. cbn. rewrite (Hl n) by (by left).
  rewrite IH; [done|]. intros m Hm. apply Hl. by right.
Qed.

Lemma ents_delete d key l : key ∉ l.*2 → ents (delete key d) l = ents d l.
Proof.
  intros Hk. apply ents_ext. intros n Hn. apply lookup_delete_ne. intros ->. apply Hk, list_elem_of_fmap. by exists n.
Qed.

Lemma ents_insert d key x l : key ∉ l.*2 → ents (<[key := x]> d) l = ents d l.
Proof.
  intros Hk. apply ents_ext. intros n Hn. apply lookup_insert_ne. intros ->. apply Hk, list_elem_of_fmap. by exists n.
Qed.

Lemma ents_keys d l : (∀ n, n ∈ l → is_Some (d !! n.2)) → (ents d l).*1 = l.*2.
Proof.
  intros Hl. unfold ents. induction l as [|n l IH]; [done|]. cbn. destruct (Hl n) as [x Hx]; [by left|]. rewrite Hx. cbn.
  f_equal. apply IH. intros m Hm. apply Hl. by right.
Qed.

Lemma without_app key l1 l2 : without key (l1 ++ l2) = without key l1 ++ without key l2.
Proof. apply filter_app. Qed.

Lemma without_id key l : key ∉ l.*1 → without key l = l.
Proof.
  intros Hk. unfold without. induction l as [|e l IH]; [done|]. cbn in Hk. apply not_elem_of_cons in Hk as [He Hk].
  rewrite filter_cons_True by done. by rewrite IH.
Qed.

Lemma without_cons_eq key v l : without key ((key, v) :: l) = without key l.
Proof. unfold without. rewrite filter_cons_False; [done|]. cbn. intros Hn. by apply Hn. Qed.

Lemma find_entry_app key v l1 l2 : key ∉ l1.*1 → find_entry key (l1 ++ (key, v) :: l2) = Some v.
Proof.
  intros Hk. unfold find_entry. induction l1 as [|e l IH]; cbn in *.
  - by rewrite decide_True.
  - apply not_elem_of_cons in Hk as [He Hk]. rewrite decide_False by done. specialize (IH Hk).
    destruct (list_find _ (l ++ _)) as [[]|]; cbn in *; done.
Qed.

Lemma find_entry_None key l : key ∉ l.*1 → find_entry key l = None.
Proof.
  intros Hk. unfold find_entry. induction l as [|e l IH]; [done|]. cbn in *. apply not_elem_of_cons in Hk as [He Hk].
  rewrite decide_False by done. specialize (IH Hk). destruct (list_find _ l) as [[]|]; done.
Qed.

Lemma node_erase_split it key l1 l2 : it ∉ l1.*1 → node_erase it (l1 ++ (it, key) :: l2) = Ok (l1 ++ l2).
Proof.
  induction l1 as [|n l1 IH]; cbn; intros Hn; [by rewrite Nat.eqb_refl|].
  apply not_elem_of_cons in Hn as [Hne Hn]. rewrite (proj2 (Nat.eqb_neq _ _)) by done. by rewrite IH.
Qed.

Lemma list_find_split it key (l1 l2 : list (nat * K)) :
  it ∉ l1.*1 → list_find (λ n : nat * K, n.1 = it) (l1 ++ (it, key) :: l2) = Some (length l1, (it, key)).
Proof.
  induction l1 as [|n l1 IH]; cbn; intros Hn; [by rewrite decide_True|].
  apply not_elem_of_cons in Hn as [Hne Hn]. rewrite decide_False by done. by rewrite IH.
Qed.

Lemma lru_length c : lru_wf c → length (lru_list c) = size (lru_data c).
Proof.
  intros W. rewrite <- size_dom. assert (dom (lru_data c) = list_to_set (lru_list c).*2) as ->.
  { apply set_eq. intros key. rewrite elem_of_dom, elem_of_list_to_set, list_elem_of_fmap. split.
    - intros [[it v] Hd]. exists (it, key). split; [done|]. by eapply lw_data.
    - intros ([it k] & -> & Hin). destruct (lw_list c W it k Hin) as [v Hv]. by exists (it, v). }
  rewrite size_list_to_set by apply W. by rewrite length_fmap.
Qed.

Lemma entries_keys c : lru_wf c → (entries c).*1 = (lru_list c).*2.
Proof.
  intros W. apply (ents_keys (lru_data c)). intros [it k] Hin. destruct (lw_list c W it k Hin) as [v Hv]. by exists (it, v).
Qed.

(** A key that is present splits the list. *)
Lemma present_split c key it v :
  lru_wf c → lru_data c !! key = Some (it, v) →
  ∃ l1 l2, lru_list c = l1 ++ (it, key) :: l2 ∧ (it ∉ (l1 ++ l2).*1) ∧ (key ∉ (l1 ++ l2).*2) ∧
    entries c = ents (lru_data c) l1 ++ (key, v) :: ents (lru_data c) l2.
Proof.
  intros W Hd. pose proof (lw_data c W _ _ _ Hd) as Hin. apply list_elem_of_split in Hin as (l1 & l2 & E).
  exists l1, l2. split; [done|]. pose proof (lw_ids c W) as Hi. pose proof (lw_keys c W) as Hk.
  rewrite E, fmap_app in Hi. rewrite E, fmap_app in Hk. cbn in Hi, Hk.
  rewrite <- Permutation_middle in Hi. rewrite <- Permutation_middle in Hk.
  apply NoDup_cons in Hi as [Hi _], Hk as [Hk _]. rewrite !fmap_app. split; [done|]. split; [done|].
  change (entries c) with (ents (lru_data c) (lru_list c)). rewrite E, ents_app. f_equal.
  unfold ents. cbn. by rewrite Hd.
Qed.

Lemma absent_key c key : lru_wf c → lru_data c !! key = None → key ∉ (entries c).*1.
Proof.
  intros W Hd. rewrite entries_keys by done. intros ([it k] & -> & Hin)%list_elem_of_fmap.
  destruct (lw_list c W it k Hin) as [v Hv]. cbn in Hd. congruence.
Qed.

Lemma present_keys c key l1 l2 :
  lru_wf c → (∀ n, n ∈ l1 ++ l2 → n ∈ lru_list c) → key ∉ (l1 ++ l2).*2 →
  (key ∉ (ents (lru_data c) l1).*1) ∧ (key ∉ (ents (lru_data c) l2).*1).
Proof.
  intros W Hsub Hk. rewrite fmap_app, not_elem_of_app in Hk.
  rewrite !ents_keys; [done| |]; intros [it k] Hn; destruct (lw_list c W it k) as [v Hv];
    try (by exists (it, v)); apply Hsub, elem_of_app; auto.
Qed.

Lemma middle_In {A} (x y : A) l1 l2 : x ∈ l1 ++ l2 → x ∈ l1 ++ y :: l2.
Proof. rewrite !elem_of_app, elem_of_cons. tauto. Qed.

(** Taking a node out of the list and its entry out of the map. *)
Lemma remove_ok c key it v l1 l2 :
  lru_wf c → lru_data c !! key = Some (it, v) → lru_list c = l1 ++ (it, key) :: l2 → (it ∉ (l1 ++ l2).*1) → (key ∉ (l1 ++ l2).*2) →
  let c' := MkLRU (lru_capacity c) (delete key (lru_data c)) (l1 ++ l2) (lru_next c) in
  lru_wf c' ∧ entries c' = ents (lru_data c) l1 ++ ents (lru_data c) l2.
Proof.
  intros W Hd E Hi Hk c'. assert (∀ n, n ∈ l1 ++ l2 → n ∈ lru_list c) as Hsub by (intros n; rewrite E; apply middle_In).
  split.
  - pose proof (lw_ids c W) as I. pose proof (lw_keys c W) as Q. rewrite E, fmap_app in I. rewrite E, fmap_app in Q. cbn in I, Q.
    rewrite <- Permutation_middle in I. rewrite <- Permutation_middle in Q.
    split; unfold c'; cbn [lru_list lru_data lru_next lru_capacity].
    + rewrite fmap_app. by apply NoDup_cons in I as [_ I].
    + rewrite fmap_app. by apply NoDup_cons in Q as [_ Q].
    + intros n Hn. by apply (lw_next c W), Hsub.
    + intros k i x Hl. apply lookup_delete_Some in Hl as [Hne Hl]. pose proof (lw_data c W _ _ _ Hl) as Hin. rewrite E in Hin.
      apply elem_of_app in Hin as [Hin|Hin]; [apply elem_of_app; by left|].
      apply elem_of_cons in Hin as [[= -> ->]|Hin]; [done|]. apply elem_of_app. by right.
    + intros i k Hin. destruct (lw_list c W i k (Hsub _ Hin)) as [x Hx]. exists x. rewrite lookup_delete_ne; [done|].
      intros <-. apply Hk, list_elem_of_fmap. by exists (i, key).
    + pose proof (lw_size c W) as Hs. rewrite E in Hs. rewrite length_app in Hs |- *. cbn in Hs. lia.
  - change (entries c') with (ents (delete key (lru_data c)) (l1 ++ l2)). by rewrite ents_delete, ents_app by done.
Qed.

(** A new node at the end. *)
Lemma push_ok c key v :
  lru_wf c → lru_data c !! key = None → (length (lru_list c) < lru_capacity c)%nat →
  let c' := MkLRU (lru_capacity c) (<[key := (lru_next c, v)]> (lru_data c)) (lru_list c ++ [(lru_next c, key)]) (S (lru_next c)) in
  lru_wf c' ∧ entries c' = entries c ++ [(key, v)].
Proof.
  intros W Hd Hl c'. pose proof (absent_key c key W Hd) as Hk. rewrite entries_keys in Hk by done.
  assert (lru_next c ∉ (lru_list c).*1) as Hn.
  { intros (n & E & Hin)%list_elem_of_fmap. pose proof (lw_next c W n Hin). lia. }
  split.
  - split; unfold c'; cbn [lru_list lru_data lru_next lru_capacity].
    + rewrite fmap_app. apply NoDup_app. split; [apply W|]. split; [|apply NoDup_singleton].
      by intros i Hi ->%list_elem_of_singleton.
    + rewrite fmap_app. apply NoDup_app. split; [apply W|]. split; [|apply NoDup_singleton].
      by intros i Hi ->%list_elem_of_singleton.
    + intros n Hin. apply elem_of_app in Hin as [Hin|Hin]; [|apply list_elem_of_singleton in Hin as ->; cbn; lia]. pose proof (lw_next c W n Hin). lia.
    + intros k i x Hx. apply lookup_insert_Some in Hx as [[<- E]|[Hne Hx]]; apply elem_of_app; [right; injection E as <- <-; by left|].
      left. by eapply lw_data.
    + intros i k Hin. apply elem_of_app in Hin as [Hin|Hin]; [|apply list_elem_of_singleton in Hin as [= -> ->]].
      * destruct (lw_list c W i k Hin) as [x Hx]. exists x. rewrite lookup_insert_ne; [done|].
        intros <-. congruence.
      * exists v. apply lookup_insert_eq.
    + rewrite length_app. cbn. lia.
  - change (entries c') with (ents (<[key := (lru_next c, v)]> (lru_data c)) (lru_list c ++ [(lru_next c, key)])).
    rewrite ents_app, ents_insert by done. f_equal. unfold ents. cbn. by rewrite lookup_insert_eq.
Qed.

Lemma erase_ok c key :
  lru_wf c → ∃ c', lru_erase key c = Ok (bool_decide (is_Some (lru_data c !! key)), c') ∧
    lru_wf c' ∧ lru_capacity c' = lru_capacity c ∧ entries c' = without key (entries c) ∧ lru_data c' !! key = None.
Proof.
  intros W. unfold lru_erase. destruct (lru_data c !! key) as [[it v]|] eqn:Hd.
  - destruct (present_split c key it v W Hd) as (l1 & l2 & E & Hi & Hk & En). rewrite E.
    rewrite node_erase_split by (rewrite fmap_app, not_elem_of_app in Hi; by apply Hi). cbn [mbind result_bind].
    eexists. split; [reflexivity|]. destruct (remove_ok c key it v l1 l2 W Hd E Hi Hk) as [W' En'].
    destruct (present_keys c key l1 l2 W) as [K1 K2]; [intros n; rewrite E; apply middle_In|done|].
    split; [done|]. split; [done|]. split; [|apply lookup_delete_eq].
    rewrite En', En, without_app, without_cons_eq, !without_id by done. done.
  - exists c. split; [done|]. split; [done|]. split; [done|]. split; [|done].
    by rewrite without_id by (by apply absent_key).
Qed.

Lemma upsert_ok c key v :
  lru_wf c → ∃ c', lru_upsert key v c = Ok c' ∧ lru_wf c' ∧ lru_capacity c' = lru_capacity c ∧
    entries c' = spec_upsert (lru_capacity c) key v (entries c).
Proof.
  intros W. unfold lru_upsert, spec_upsert. destruct (lru_capacity c =? 0)%nat eqn:Ec; [by exists c|].
  apply Nat.eqb_neq in Ec. destruct (erase_ok c key W) as (c1 & -> & W1 & C1 & E1 & D1). cbn [mbind result_bind].
  rewrite <- E1, <- lru_length, <- C1 by done.
  assert (length (entries c1) = length (lru_list c1)) as El.
  { rewrite <- (length_fmap fst), entries_keys, length_fmap by done. done. }
  rewrite El. destruct (lru_capacity c1 <=? length (lru_list c1))%nat eqn:Es.
  - apply Nat.leb_le in Es. destruct (lru_list c1) as [|[it0 k0] l] eqn:Ell; [cbn in Es; lia|].
    destruct (lw_list c1 W1 it0 k0) as [v0 Hv0]; [rewrite Ell; by left|].
    destruct (present_split c1 k0 it0 v0 W1 Hv0) as ([|n l1] & l2 & E & Hi & Hk & En).
    2:{ rewrite Ell in E. cbn in E. injection E as <- E. cbn in Hi. apply not_elem_of_cons in Hi as [Hi _]. done. }
    rewrite Ell in E. cbn in E. injection E as <-. cbn [mbind result_bind].
    destruct (remove_ok c1 k0 it0 v0 [] l W1 Hv0 Ell Hi Hk) as [W2 E2]. cbn [app ents omap] in W2, E2. cbn in En.
    match type of W2 with lru_wf ?x => set (c2 := x) in * end.
    assert (lru_data c2 !! key = None) as D2 by (by apply lookup_delete_None; right). cbn [snd]. fold c2.
    unfold assertR. rewrite bool_decide_eq_true_2 by done. cbn [mbind result_bind].
    destruct (push_ok c2 key v W2 D2) as [W3 E3].
    { pose proof (lw_size c1 W1) as Hs. rewrite Ell in Hs. cbn in Hs |- *. lia. }
    eexists. split; [reflexivity|]. split; [exact W3|]. split; [done|].
    etransitivity; [exact E3|]. rewrite E2, En. done.
  - apply Nat.leb_gt in Es. cbn [mbind result_bind]. unfold assertR. rewrite bool_decide_eq_true_2 by done. cbn [mbind result_bind].
    destruct (push_ok c1 key v W1 D1 Es) as [W3 E3]. eexists. split; [reflexivity|]. done.
Qed.

Lemma promote_ok c key it v :
  lru_wf c → lru_data c !! key = Some (it, v) →
  ∃ c', promote it c = Ok c' ∧ lru_wf c' ∧ lru_capacity c' = lru_capacity c ∧ entries c' = spec_touch key (entries c) ∧
    find_entry key (entries c) = Some v.
Proof.
  intros W Hd. destruct (present_split c key it v W Hd) as (l1 & l2 & E & Hi & Hk & En).
  destruct (present_keys c key l1 l2 W) as [K1 K2]; [intros n; rewrite E; apply middle_In|done|].
  pose proof Hi as Hi'. rewrite fmap_app, not_elem_of_app in Hi'.
  assert (find_entry key (entries c) = Some v) as Hf by (rewrite En; by apply find_entry_app).
  unfold promote. rewrite E, list_find_split, node_erase_split by apply Hi'. cbn [mbind result_bind].
  eexists. split; [reflexivity|]. assert ((l1 ++ l2) ++ [(it, key)] ≡ₚ lru_list c) as Hp.
  { rewrite E, <- (Permutation_cons_append (l1 ++ l2)). apply Permutation_middle. }
  split; [|split; [done|split; [|done]]].
  - split; cbn [lru_list lru_data lru_next lru_capacity].
    + rewrite Hp. apply W.
    + rewrite Hp. apply W.
    + intros n Hn. rewrite Hp in Hn. by apply (lw_next c W).
    + intros k i x Hx. rewrite Hp. by eapply lw_data.
    + intros i k Hin. rewrite Hp in Hin. by apply (lw_list c W).
    + rewrite Hp. apply W.
  - unfold spec_touch. rewrite Hf, En, without_app, without_cons_eq, !without_id by done.
    change (entries _) with (ents (lru_data c) ((l1 ++ l2) ++ [(it, key)])). rewrite !ents_app. f_equal. unfold ents. cbn. by rewrite Hd.
Qed.

Lemma get_ok c key :
  lru_wf c → ∃ c', lru_get key c = Ok (find_entry key (entries c), c') ∧ lru_wf c' ∧ lru_capacity c' = lru_capacity c ∧
    entries c' = spec_touch key (entries c).
Proof.
  intros W. unfold lru_get. destruct (lru_data c !! key) as [[it v]|] eqn:Hd.
  - destruct (promote_ok c key it v W Hd) as (c' & -> & W' & C' & E' & Hf). cbn [mbind result_bind]. rewrite Hf. by exists c'.
  - unfold spec_touch. rewrite find_entry_None by (by apply absent_key). by exists c.
Qed.
End cache.

(** * Theorems *)

(** The operations as a client calls them. *)
Inductive lru_op (K V : Type) := Upsert (key : K) (value : V) | Erase (key : K) | Get (key : K) | Clear.
Arguments Upsert {K V}. Arguments Erase {K V}. Arguments Get {K V}. Arguments Clear {K V}.

Section run.
Context {K V : Type} `{Countable K}.

(** The answers of [get], in order. *)
Definition lru_step (op : lru_op K V) (c : LRUCache K V) : result (list (option V) * LRUCache K V) :=
  match op with
  | Upsert key value => c ← lru_upsert key value c; Ok ([], c)
  | Erase key => '(_, c) ← lru_erase key c; Ok ([], c)
  | Get key => '(v, c) ← lru_get key c; Ok ([v], c)
  | Clear => Ok ([], lru_clear c)
  end.
Fixpoint lru_run (ops : list (lru_op K V)) (c : LRUCache K V) : result (list (option V) * LRUCache K V) :=
  match ops with
  | [] => Ok ([], c)
  | op :: ops => '(a, c) ← lru_step op c; '(b, c) ← lru_run ops c; Ok (a ++ b, c)
  end.

Definition spec_step (capacity : nat) (op : lru_op K V) (l : list (K * V)) : list (option V) * list (K * V) :=
  match op with
  | Upsert key value => ([], spec_upsert capacity key value l)
  | Erase key => ([], without key l)
  | Get key => ([find_entry key l], spec_touch key l)
  | Clear => ([], [])
  end.
Fixpoint spec_run (capacity : nat) (ops : list (lru_op K V)) (l : list (K * V)) : list (option V) * list (K * V) :=
  match ops with
  | [] => ([], l)
  | op :: ops => let '(a, l) := spec_step capacity op l in let '(b, l) := spec_run capacity ops l in (a ++ b, l)
  end.

Lemma lru_step_ok op (c : LRUCache K V) :
  lru_wf c → ∃ c', lru_step op c = Ok ((spec_step (lru_capacity c) op (entries c)).1, c') ∧ lru_wf c' ∧
    lru_capacity c' = lru_capacity c ∧ entries c' = (spec_step (lru_capacity c) op (entries c)).2.
Proof.
  intros W. destruct op as [key value|key|key|]; cbn [lru_step spec_step fst snd].
  - destruct (upsert_ok c key value W) as (c' & -> & ?). by exists c'.
  - destruct (erase_ok c key W) as (c' & -> & ? & ? & ? & _). by exists c'.
  - destruct (get_ok c key W) as (c' & -> & ?). by exists c'.
  - exists (lru_clear c). split; [done|]. split; [|done].
    split; cbn; try constructor; try (intros; by apply elem_of_nil in H0); try lia; intros; set_solver.
Qed.
End run.

(** [C39] The cache behaves as a list of at most [capacity] entries ordered by
    their last use. Whatever sequence of operations is applied to a new cache:
    no list position the map holds is ever dangling and the assertion of
    [upsert] holds; the answers of [get] are those of the specification, in
    which [upsert] puts an entry last and drops the first one when the cache
    is full, and [get] moves the entry it finds to the end; and at most
    [capacity] entries are kept. *)
Theorem lru_refines {K V : Type} `{Countable K} (capacity : nat) (ops : list (lru_op K V)) :
  ∃ c, lru_run ops (LRUCache_new capacity) = Ok ((spec_run capacity ops []).1, c) ∧
    entries c = (spec_run capacity ops []).2 ∧ lru_size c = length (entries c) ∧ (lru_size c <= capacity)%nat.
Proof.
  assert (∀ ops (c : LRUCache K V), lru_wf c → ∃ c', lru_run ops c = Ok ((spec_run (lru_capacity c) ops (entries c)).1, c') ∧
    lru_wf c' ∧ lru_capacity c' = lru_capacity c ∧ entries c' = (spec_run (lru_capacity c) ops (entries c)).2) as Hrun.
  { clear ops. induction ops as [|op ops IH]; intros c W; [by exists c|]. cbn [lru_run spec_run].
    destruct (lru_step_ok op c W) as (c1 & -> & W1 & C1 & E1). cbn [mbind result_bind].
    destruct (IH c1 W1) as (c2 & -> & W2 & C2 & E2). rewrite E1, C1 in E2 |- *.
    destruct (spec_step (lru_capacity c) op (entries c)) as [a l]. cbn [fst snd] in *.
    destruct (spec_run (lru_capacity c) ops l) as [b l']. exists c2. rewrite C2, C1. done. }
  destruct (Hrun ops (LRUCache_new capacity)) as (c & E & W & C & En).
  { split; cbn; try constructor; try lia; intros; set_solver. }
  exists c. split; [exact E|]. split; [exact En|]. unfold lru_size. rewrite <- lru_length by done. split.
  - by rewrite <- (length_fmap fst (entries c)), entries_keys, length_fmap.
  - rewrite (lw_size c W). by rewrite C.
Qed.
