(* ===== verification/Database.v ===== *)
(** The database of a local store: the tables of [schema.sql] and the prepared
    statements of [libstore/local-store.cc] that read and write them.

    Each statement is a function on the tables with the constraints the schema
    declares: the unique paths, the foreign keys with their [on delete]
    actions, the trigger that removes self-references and the identifiers that
    are never used again. A violated constraint is the exception SQLite raises.
    Locking, busy retries and the limits of the engine are not modelled. *)

From S2P Require Import Prelude.

(** * Tables *)

(** A row of [ValidPaths]; columns that may be null are options. *)
Record PathRow := MkRow {
  r_path : str;
  r_hash : str;
  r_registrationTime : Z;
  r_deriver : option str;
  r_narSize : option Z;
  r_ultimate : option Z;
  r_sigs : option str;
  r_ca : option str;
}.

(** Rows by their primary keys; [sequence] is the largest identifier given out. *)
Record Db := MkDb {
  ValidPaths : gmap Z PathRow;
  Refs : gset (Z * Z);
  DerivationOutputs : gmap (Z * str) str;
  sequence : Z;
}.

Definition Db_empty : Db := MkDb ∅ ∅ ∅ 0.

Definition constraint_failed : exn := Error "constraint failed".

(** [... from ValidPaths where path = ?]. *)
Definition select_path (p : str) (db : Db) : option (Z * PathRow) :=
  head (filter (λ x : Z * PathRow, r_path x.2 = p) (map_to_list (ValidPaths db))).

Definition has_id (i : Z) (db : Db) : bool := bool_decide (is_Some (ValidPaths db !! i)).

(** * Statements *)

(** The statement and [getLastInsertedRowId]. *)
Definition RegisterValidPath (row : PathRow) (db : Db) : result (Z * Db) :=
  match select_path (r_path row) db with
  | Some _ => Throw constraint_failed
  | None =>
      let i := sequence db + 1 in
      Ok (i, MkDb (<[i := row]> (ValidPaths db)) (Refs db) (DerivationOutputs db) i)
  end.

Definition update_row (narSize : option Z) (hash : str) (ultimate : option Z) (sigs ca : option str) (r : PathRow) : PathRow :=
  MkRow (r_path r) hash (r_registrationTime r) (r_deriver r) narSize ultimate sigs ca.
Definition UpdatePathInfo (narSize : option Z) (hash : str) (ultimate : option Z) (sigs ca : option str) (p : str) (db : Db) : Db :=
  MkDb ((λ r, if bool_decide (r_path r = p) then update_row narSize hash ultimate sigs ca r else r) <$> ValidPaths db)
    (Refs db) (DerivationOutputs db) (sequence db).

Definition AddReference (referrer reference : Z) (db : Db) : result Db :=
  if has_id referrer db && has_id reference db then
    Ok (MkDb (ValidPaths db) ({[(referrer, reference)]} ∪ Refs db) (DerivationOutputs db) (sequence db))
  else Throw constraint_failed.

Definition path_of (db : Db) (i : Z) : option str := r_path <$> ValidPaths db !! i.

Definition QueryReferences (referrer : Z) (db : Db) : list str :=
  omap (λ e : Z * Z, if bool_decide (e.1 = referrer) then path_of db e.2 else None) (elements (Refs db)).

Definition QueryReferrers (p : str) (db : Db) : list str :=
  match select_path p db with
  | None => []
  | Some (i, _) => omap (λ e : Z * Z, if bool_decide (e.2 = i) then path_of db e.1 else None) (elements (Refs db))
  end.

(** The trigger [DeleteSelfRefs] runs before the deletion; what is left of the
    references to the row restricts it, the references and outputs of the row
    go with it. *)
Definition InvalidatePath (p : str) (db : Db) : result Db :=
  match select_path p db with
  | None => Ok db
  | Some (i, _) =>
      let refs := Refs db ∖ {[(i, i)]} in
      if bool_decide (set_Exists (λ e : Z * Z, e.2 = i) refs) then Throw constraint_failed
      else Ok (MkDb (delete i (ValidPaths db)) (filter (λ e : Z * Z, e.1 ≠ i) refs)
                 (filter (λ x : (Z * str) * str, x.1.1 ≠ i) (DerivationOutputs db)) (sequence db))
  end.

Definition AddDerivationOutput (drv : Z) (output p : str) (db : Db) : result Db :=
  if has_id drv db then Ok (MkDb (ValidPaths db) (Refs db) (<[(drv, output) := p]> (DerivationOutputs db)) (sequence db))
  else Throw constraint_failed.

Definition QueryValidDerivers (p : str) (db : Db) : list str :=
  omap (λ x : (Z * str) * str, if bool_decide (x.2 = p) then path_of db x.1.1 else None) (map_to_list (DerivationOutputs db)).

Definition QueryDerivationOutputs (drv : Z) (db : Db) : list (str * str) :=
  omap (λ x : (Z * str) * str, if bool_decide (x.1.1 = drv) then Some (x.1.2, x.2) else None) (map_to_list (DerivationOutputs db)).

Definition QueryValidPaths (db : Db) : list str := map (λ x : Z * PathRow, r_path x.2) (map_to_list (ValidPaths db)).

(** * What the schema guarantees *)

Record db_wf (db : Db) : Prop := {
  dw_sequence : 0 ≤ sequence db;
  dw_ids i : is_Some (ValidPaths db !! i) → 0 < i ≤ sequence db;
  dw_unique i j r s : ValidPaths db !! i = Some r → ValidPaths db !! j = Some s → r_path r = r_path s → i = j;
  dw_refs e : e ∈ Refs db → is_Some (ValidPaths db !! e.1) ∧ is_Some (ValidPaths db !! e.2);
  dw_outs x : is_Some (DerivationOutputs db !! x) → is_Some (ValidPaths db !! x.1);
}.

Lemma Db_empty_wf : db_wf Db_empty.
Proof.
  split; cbn.
  - done.
  - by intros i [? ?].
  - done.
  - intros e He. by apply elem_of_empty in He.
  - by intros x [? ?].
Qed.

Lemma select_path_None db p : select_path p db = None ↔ ∀ i r, ValidPaths db !! i = Some r → r_path r ≠ p.
Proof.
  unfold select_path. rewrite head_None. split.
  - intros E i r Hi Hp. assert ((i, r) ∈ filter (λ x : Z * PathRow, r_path x.2 = p) (map_to_list (ValidPaths db))) as Hin.
    { apply list_elem_of_filter. split; [done|]. by apply elem_of_map_to_list. }
    rewrite E in Hin. by apply elem_of_nil in Hin.
  - intros Hn. destruct (filter _ _) as [|[i r] l] eqn:E; [done|].
    assert ((i, r) ∈ filter (λ x : Z * PathRow, r_path x.2 = p) (map_to_list (ValidPaths db))) as Hin by (rewrite E; by left).
    apply list_elem_of_filter in Hin as [Hp Hin]. apply elem_of_map_to_list in Hin. by destruct (Hn _ _ Hin).
Qed.

Lemma select_path_Some db p i r : db_wf db → select_path p db = Some (i, r) ↔ ValidPaths db !! i = Some r ∧ r_path r = p.
Proof.
  intros W. split.
  - unfold select_path. intros [l E]%head_Some.
    assert ((i, r) ∈ filter (λ x : Z * PathRow, r_path x.2 = p) (map_to_list (ValidPaths db))) as Hin by (rewrite E; by left).
    apply list_elem_of_filter in Hin as [Hp Hin]. by apply elem_of_map_to_list in Hin.
  - intros [Hi Hp]. destruct (select_path p db) as [[j s]|] eqn:E; [|by destruct (proj1 (select_path_None db p) E i r Hi)].
    unfold select_path in E. apply head_Some in E as [l E].
    assert ((j, s) ∈ filter (λ x : Z * PathRow, r_path x.2 = p) (map_to_list (ValidPaths db))) as Hin by (rewrite E; by left).
    apply list_elem_of_filter in Hin as [Hp' Hin]. apply elem_of_map_to_list in Hin. cbn in Hp'.
    assert (i = j) as <- by (eapply dw_unique; eauto; congruence). congruence.
Qed.

Lemma RegisterValidPath_ok db row :
  db_wf db → select_path (r_path row) db = None →
  ∃ i db', RegisterValidPath row db = Ok (i, db') ∧ db_wf db' ∧ ValidPaths db !! i = None ∧
    ValidPaths db' = <[i := row]> (ValidPaths db) ∧ Refs db' = Refs db ∧ DerivationOutputs db' = DerivationOutputs db.
Proof.
  intros W Hs. unfold RegisterValidPath. rewrite Hs. set (i := sequence db + 1).
  pose proof (dw_sequence db W). assert (ValidPaths db !! i = None) as Hi.
  { apply eq_None_not_Some. intros Hj. pose proof (dw_ids db W i Hj). lia. }
  rewrite select_path_None in Hs.
  eexists _, _. split; [reflexivity|]. split; [|done]. split; cbn [ValidPaths Refs DerivationOutputs sequence].
  - lia.
  - intros j Hj. apply lookup_insert_is_Some in Hj as [<-|[_ Hj]]; [lia|]. pose proof (dw_ids db W j Hj). lia.
  - intros j k r s Hj Hk Hp. apply lookup_insert_Some in Hj as [[<- <-]|[_ Hj]], Hk as [[<- <-]|[_ Hk]]; [done|..].
    + by destruct (Hs k s Hk).
    + by destruct (Hs j r Hj).
    + by eapply dw_unique.
  - intros e He. destruct (dw_refs db W e He). split; by apply lookup_insert_is_Some'; right.
  - intros x Hx. apply lookup_insert_is_Some'. right. by apply (dw_outs db W).
Qed.

Lemma path_of_fmap db f i :
  (∀ r, r_path (f r) = r_path r) → r_path <$> (f <$> ValidPaths db) !! i = path_of db i.
Proof. intros Hf. rewrite lookup_fmap. unfold path_of. destruct (ValidPaths db !! i); cbn; [by rewrite Hf|done]. Qed.

Lemma UpdatePathInfo_ok db n h u sg c p :
  db_wf db → let db' := UpdatePathInfo n h u sg c p db in
  db_wf db' ∧ Refs db' = Refs db ∧ DerivationOutputs db' = DerivationOutputs db ∧
  (∀ i, path_of db' i = path_of db i) ∧
  (∀ i r, ValidPaths db !! i = Some r → ValidPaths db' !! i = Some (if bool_decide (r_path r = p) then update_row n h u sg c r else r)).
Proof.
  intros W db'. assert (∀ i, path_of db' i = path_of db i) as Hp.
  { intros i. apply path_of_fmap. intros r. by case_bool_decide. }
  assert (∀ i, is_Some (ValidPaths db' !! i) ↔ is_Some (ValidPaths db !! i)) as Hd.
  { intros i. unfold db'. cbn. by rewrite lookup_fmap, fmap_is_Some. }
  split; [split|split; [done|split; [done|split; [done|]]]].
  - apply W.
  - intros i Hi%Hd. by apply (dw_ids db W).
  - intros i j r s Hi Hj E. assert (path_of db' i = Some (r_path r)) as P1 by (unfold path_of; by rewrite Hi).
    assert (path_of db' j = Some (r_path s)) as P2 by (unfold path_of; by rewrite Hj). rewrite Hp in P1, P2. unfold path_of in P1, P2.
    destruct (ValidPaths db !! i) as [r'|] eqn:E1; [|done]. destruct (ValidPaths db !! j) as [s'|] eqn:E2; [|done].
    injection P1 as P1. injection P2 as P2. eapply (dw_unique db W); eauto. congruence.
  - intros e He. destruct (dw_refs db W e He). by rewrite !Hd.
  - intros x Hx. apply Hd. by apply (dw_outs db W).
  - intros i r Hi. unfold db'. cbn. by rewrite lookup_fmap, Hi.
Qed.

Lemma has_id_true i db : has_id i db = true ↔ is_Some (ValidPaths db !! i).
Proof. unfold has_id. by rewrite bool_decide_eq_true. Qed.

Lemma AddReference_ok db i j :
  db_wf db → is_Some (ValidPaths db !! i) → is_Some (ValidPaths db !! j) →
  ∃ db', AddReference i j db = Ok db' ∧ db_wf db' ∧ ValidPaths db' = ValidPaths db ∧
    Refs db' = {[(i, j)]} ∪ Refs db ∧ DerivationOutputs db' = DerivationOutputs db.
Proof.
  intros W Hi Hj. unfold AddReference. rewrite !(proj2 (has_id_true _ _)) by done. cbn [andb].
  eexists. split; [reflexivity|]. split; [|done]. split; cbn [ValidPaths Refs DerivationOutputs sequence]; try apply W.
  intros e He. apply elem_of_union in He as [->%elem_of_singleton|He]; [done|]. by apply (dw_refs db W).
Qed.

Lemma AddDerivationOutput_ok db i o p :
  db_wf db → is_Some (ValidPaths db !! i) →
  ∃ db', AddDerivationOutput i o p db = Ok db' ∧ db_wf db' ∧ ValidPaths db' = ValidPaths db ∧
    Refs db' = Refs db ∧ DerivationOutputs db' = <[(i, o) := p]> (DerivationOutputs db).
Proof.
  intros W Hi. unfold AddDerivationOutput. rewrite (proj2 (has_id_true _ _)) by done.
  eexists. split; [reflexivity|]. split; [|done]. split; cbn [ValidPaths Refs DerivationOutputs sequence]; try apply W.
  intros x Hx. apply lookup_insert_is_Some in Hx as [<-|[_ Hx]]; [done|]. by apply (dw_outs db W).
Qed.

(** A row goes when nothing else refers to it, with its references and outputs. *)
Lemma InvalidatePath_ok db p i r :
  db_wf db → select_path p db = Some (i, r) → (∀ j, (j, i) ∈ Refs db → j = i) →
  ∃ db', InvalidatePath p db = Ok db' ∧ db_wf db' ∧ ValidPaths db' = delete i (ValidPaths db) ∧
    (∀ e, e ∈ Refs db' ↔ e ∈ Refs db ∧ e.1 ≠ i) ∧
    (∀ x q, DerivationOutputs db' !! x = Some q ↔ DerivationOutputs db !! x = Some q ∧ x.1 ≠ i).
Proof.
  intros W Hs Hr. unfold InvalidatePath. rewrite Hs. rewrite bool_decide_eq_false_2.
  2:{ intros ([j k] & He & Ek). cbn in Ek. subst k. apply elem_of_difference in He as [He Hn].
      apply Hn, elem_of_singleton. by rewrite (Hr j He). }
  assert (∀ e, e ∈ filter (λ e : Z * Z, e.1 ≠ i) (Refs db ∖ {[(i, i)]}) ↔ e ∈ Refs db ∧ e.1 ≠ i) as HR.
  { intros [a b]. rewrite elem_of_filter, elem_of_difference, elem_of_singleton. naive_solver. }
  assert (∀ x q, filter (λ x : (Z * str) * str, x.1.1 ≠ i) (DerivationOutputs db) !! x = Some q ↔
    DerivationOutputs db !! x = Some q ∧ x.1 ≠ i) as HD by (intros x q; by rewrite map_lookup_filter_Some).
  eexists. split; [reflexivity|]. split; [|done]. split; cbn [ValidPaths Refs DerivationOutputs sequence].
  - apply W.
  - intros j [x Hj]. apply lookup_delete_Some in Hj as [_ Hj]. apply (dw_ids db W). by exists x.
  - intros j k s t Hj Hk. apply lookup_delete_Some in Hj as [_ Hj], Hk as [_ Hk]. by eapply dw_unique.
  - intros [a b] He. apply HR in He as [He Hne]. cbn in *. destruct (dw_refs db W _ He) as [Ha Hb]. cbn in *.
    rewrite !lookup_delete_ne; [done| |done]. intros ->. by apply Hne, Hr.
  - intros x [q Hq]. apply HD in Hq as [Hq Hne]. rewrite lookup_delete_ne by done. apply (dw_outs db W). by exists q.
Qed.

Lemma InvalidatePath_fails db p i r j :
  select_path p db = Some (i, r) → (j, i) ∈ Refs db → j ≠ i → InvalidatePath p db = Throw constraint_failed.
Proof.
  intros Hs Hj Hne. unfold InvalidatePath. rewrite Hs, bool_decide_eq_true_2; [done|].
  exists (j, i). split; [|done]. apply elem_of_difference. split; [done|]. rewrite elem_of_singleton. congruence.
Qed.

Lemma elem_of_QueryReferences db i q :
  q ∈ QueryReferences i db ↔ ∃ j, (i, j) ∈ Refs db ∧ path_of db j = Some q.
Proof.
  unfold QueryReferences. rewrite list_elem_of_omap. split.
  - intros ([a b] & Hin & E). apply elem_of_elements in Hin. case_bool_decide as Ha; [|done]. cbn in *. subst a. eauto.
  - intros (j & Hin & E). exists (i, j). split; [by apply elem_of_elements|]. by rewrite bool_decide_eq_true_2.
Qed.

Lemma elem_of_QueryReferrers db p i r q :
  select_path p db = Some (i, r) →
  q ∈ QueryReferrers p db ↔ ∃ j, (j, i) ∈ Refs db ∧ path_of db j = Some q.
Proof.
  intros Hs. unfold QueryReferrers. rewrite Hs, list_elem_of_omap. split.
  - intros ([a b] & Hin & E). apply elem_of_elements in Hin. case_bool_decide as Ha; [|done]. cbn in *. subst b. eauto.
  - intros (j & Hin & E). exists (j, i). split; [by apply elem_of_elements|]. by rewrite bool_decide_eq_true_2.
Qed.
