(* ===== verification/Hash.v ===== *)
(** Hashes and their textual formats: [libutil/hash.{hh,cc}].

    A [Hash] is a 64-byte buffer of which the first [hashSize] bytes are
    meaningful. The digest functions (OpenSSL, BLAKE3) are outside the
    repository and are parameters where they are used. *)

From S2P Require Import Prelude Strings Base64 Xp.

Inductive HashAlgorithm := MD5 | SHA1 | SHA256 | SHA512 | BLAKE3.
Inductive HashFormat := Base64 | Bsd32 | Base16 | SRI.

#[export] Instance HashAlgorithm_eq_dec : EqDecision HashAlgorithm.
Proof. solve_decision. Defined.
#[export] Instance HashFormat_eq_dec : EqDecision HashFormat.
Proof. solve_decision. Defined.

Definition maxHashSize : nat := 64.

(** [hash] holds [maxHashSize] unsigned bytes. *)
Record Hash := MkHash { hashSize : nat; hash : list Z; algo : HashAlgorithm }.

#[export] Instance Hash_eq_dec : EqDecision Hash.
Proof. solve_decision. Defined.

Definition regularHashSize (type : HashAlgorithm) : nat :=
  match type with BLAKE3 => 32 | MD5 => 16 | SHA1 => 20 | SHA256 => 32 | SHA512 => 64 end.

(** The constructor [Hash(algo, xpSettings)]: a zero-filled hash. *)
Definition Hash_zero (xp : XpSettings) (a : HashAlgorithm) : result Hash :=
  _ ← (if bool_decide (a = BLAKE3) then require_feature xp BLAKE3Hashes else Ok tt);
  _ ← assertR (regularHashSize a <=? maxHashSize)%nat;
  Ok (MkHash (regularHashSize a) (replicate maxHashSize 0) a).

Definition hbyte (h : list Z) (i : nat) : Z := nth i h 0.

(** [operator ==] *)
Definition Hash_eqb (h1 h2 : Hash) : bool :=
  (hashSize h1 =? hashSize h2)%nat
  && forallb (λ i, hbyte (hash h1) i =? hbyte (hash h2) i) (seq 0 (hashSize h1)).

(** The enum's numeric value, used by its [<=>]. *)
Definition algo_index (a : HashAlgorithm) : Z :=
  match a with MD5 => 42 | SHA1 => 43 | SHA256 => 44 | SHA512 => 45 | BLAKE3 => 46 end.

Fixpoint bytes_compare (h1 h2 : list Z) (idxs : list nat) : comparison :=
  match idxs with
  | [] => Eq
  | i :: idxs => match hbyte h1 i ?= hbyte h2 i with Eq => bytes_compare h1 h2 idxs | o => o end
  end.

(** [operator <=>] *)
Definition Hash_compare (h1 h2 : Hash) : comparison :=
  match Nat.compare (hashSize h1) (hashSize h2) with
  | Eq => match bytes_compare (hash h1) (hash h2) (seq 0 (hashSize h1)) with
          | Eq => algo_index (algo h1) ?= algo_index (algo h2)
          | o => o
          end
  | o => o
  end.

(** * Lengths of the formats *)

Definition base16Len (n : nat) : nat := n * 2.
Definition base32Len (n : nat) : nat := (n * 8 - 1) / 5 + 1.
(** [((4 * n / 3) + 3) & ~3]: rounded down to a multiple of four. *)
Definition base64Len (n : nat) : nat := ((4 * n / 3 + 3) / 4) * 4.

(** * Printing *)

Definition base16Chars : str := "0123456789abcdef".
Definition bsd32Chars : str := "0123456789abcdfghijklmnpqrsvwxyz".

Definition chars_at (chars : str) (i : Z) : ascii := nth (Z.to_nat i) chars NUL.

Definition printHash16 (h : Hash) : str :=
  concat (map (λ i,
    [chars_at base16Chars (Z.shiftr (hbyte (hash h) i) 4);
     chars_at base16Chars (Z.land (hbyte (hash h) i) 15)])
    (seq 0 (hashSize h))).

(** The [n]-th base-32 digit, least significant first. *)
Definition digit32 (size : nat) (h : list Z) (n : nat) : Z :=
  let b := (n * 5)%nat in
  let i := (b / 8)%nat in
  let j := Z.of_nat (b mod 8) in
  let c := u8 (Z.lor (Z.shiftr (hbyte h i) j)
                     (if (size - 1 <=? i)%nat then 0
                      else Z.shiftl (hbyte h (i + 1)) (8 - j))) in
  Z.land c 31.

(** The loop runs from the most significant digit down. *)
Definition printHash32 (h : Hash) : result str :=
  _ ← assertR (negb (hashSize h =? 0)%nat);
  let len := base32Len (hashSize h) in
  _ ← assertR (negb (len =? 0)%nat);
  Ok (map (λ n, chars_at bsd32Chars (digit32 (hashSize h) (hash h) n)) (reverse (seq 0 len))).

Definition printHashAlgo (ha : HashAlgorithm) : str :=
  match ha with
  | BLAKE3 => "blake3" | MD5 => "md5" | SHA1 => "sha1"
  | SHA256 => "sha256" | SHA512 => "sha512"
  end.

Definition hash_bytes (h : Hash) : str := map byte_of (take (hashSize h) (hash h)).

Definition to_string (h : Hash) (hashFormat : HashFormat) (includeAlgo : bool) : result str :=
  let s :=
    if bool_decide (hashFormat = SRI) || includeAlgo
    then printHashAlgo (algo h) ++ [if bool_decide (hashFormat = SRI) then "-"%char else ":"%char]
    else [] in
  match hashFormat with
  | Base16 => Ok (s ++ printHash16 h)
  | Bsd32 => d ← printHash32 h; Ok (s ++ d)
  | Base64 | SRI => Ok (s ++ base64Encode (hash_bytes h))
  end.

(** [HashAlgorithm] is a non-zero [char], so the assert always holds. *)
Definition printHash16or32 (h : Hash) : result str :=
  _ ← assertR (negb (algo_index (algo h) =? 0));
  to_string h (if bool_decide (algo h = MD5) then Base16 else Bsd32) false.

(** * Parsing *)

Definition parseHashAlgoOpt (s : str) : option HashAlgorithm :=
  if str_eqb s "blake3" then Some BLAKE3
  else if str_eqb s "md5" then Some MD5
  else if str_eqb s "sha1" then Some SHA1
  else if str_eqb s "sha256" then Some SHA256
  else if str_eqb s "sha512" then Some SHA512
  else None.

Definition parseHashAlgo (s : str) : result HashAlgorithm :=
  match parseHashAlgoOpt s with
  | Some h => Ok h
  | None => Throw (UsageError "unknown hash algorithm")
  end.

Definition parseHexDigit (c : ascii) : result Z :=
  let v := byte_val c in
  if (48 <=? v) && (v <=? 57) then Ok (v - 48)
  else if (65 <=? v) && (v <=? 70) then Ok (v - 65 + 10)
  else if (97 <=? v) && (v <=? 102) then Ok (v - 97 + 10)
  else Throw (BadHash "invalid base-16 hash").

Definition char_at (s : str) (i : nat) : ascii := nth i s NUL.

Definition parse16_step (rest : str) (h : list Z) (i : nat) : result (list Z) :=
  hi ← parseHexDigit (char_at rest (i * 2));
  lo ← parseHexDigit (char_at rest (i * 2 + 1));
  Ok (<[i := u8 (Z.lor (Z.shiftl hi 4) lo)]> h).

Definition parse32_step (size : nat) (rest : str) (h : list Z) (n : nat) : result (list Z) :=
  let c := char_at rest (length rest - n - 1) in
  match find_idx (λ d, bool_decide (d = c)) bsd32Chars with
  | None => Throw (BadHash "invalid base-32 hash")
  | Some digit =>
      let digit := Z.of_nat digit in
      let b := (n * 5)%nat in
      let i := (b / 8)%nat in
      let j := Z.of_nat (b mod 8) in
      let h := <[i := u8 (Z.lor (hbyte h i) (Z.shiftl digit j))]> h in
      let carry := Z.shiftr digit (8 - j) in
      if (i <? size - 1)%nat then Ok (<[(i + 1)%nat := u8 (Z.lor (hbyte h (i + 1)) carry)]> h)
      else if carry =? 0 then Ok h
      else Throw (BadHash "invalid base-32 hash")
  end.

(** [memcpy(hash, d.data(), hashSize)]. *)
Definition copy_bytes (h : list Z) (d : str) : list Z :=
  map byte_val d ++ drop (length d) h.

(** The constructor [Hash(rest, algo, isSRI)]. An error of [base64Decode] is
    caught and leaves the decoded string empty. *)
Definition Hash_parse (xp : XpSettings) (rest : str) (a : HashAlgorithm) (isSRI : bool)
    : result Hash :=
  z ← Hash_zero xp a;
  let size := hashSize z in
  if negb isSRI && (length rest =? base16Len size)%nat then
    h ← foldR (parse16_step rest) (hash z) (seq 0 size);
    Ok (MkHash size h a)
  else if negb isSRI && (length rest =? base32Len size)%nat then
    h ← foldR (parse32_step size rest) (hash z) (seq 0 (length rest));
    Ok (MkHash size h a)
  else if isSRI || (length rest =? base64Len size)%nat then
    let d := match base64Decode rest with Ok d => d | Throw _ => [] end in
    if negb (length d =? size)%nat then Throw (BadHash "invalid SRI or base-64 hash")
    else _ ← assertR (negb (size =? 0)%nat); Ok (MkHash size (copy_bytes (hash z) d) a)
  else Throw (BadHash "hash has wrong length for hash algorithm").

Definition parseSRI (xp : XpSettings) (original : str) : result Hash :=
  match splitPrefixTo original "-"%char with
  | (None, _) => Throw (BadHash "hash is not SRI")
  | (Some hashRaw, rest) => parsedType ← parseHashAlgo hashRaw; Hash_parse xp rest parsedType true
  end.

(** The optional type, whether it was an SRI prefix, and the updated string. *)
Definition getParsedTypeAndSRI (rest : str) : result (option HashAlgorithm * bool * str) :=
  let '(hashRaw, rest, isSRI) :=
    match splitPrefixTo rest ":"%char with
    | (Some r, rest) => (Some r, rest, false)
    | (None, rest) =>
        match splitPrefixTo rest "-"%char with
        | (Some r, rest) => (Some r, rest, true)
        | (None, rest) => (None, rest, false)
        end
    end in
  match hashRaw with
  | Some r => t ← parseHashAlgo r; Ok (Some t, isSRI, rest)
  | None => Ok (None, isSRI, rest)
  end.

Definition parseAnyPrefixed (xp : XpSettings) (original : str) : result Hash :=
  '(optParsedType, isSRI, rest) ← getParsedTypeAndSRI original;
  match optParsedType with
  | None => Throw (BadHash "hash does not include a type")
  | Some t => Hash_parse xp rest t isSRI
  end.

Definition parseAny (xp : XpSettings) (original : str) (optAlgo : option HashAlgorithm)
    : result Hash :=
  '(optParsedType, isSRI, rest) ← getParsedTypeAndSRI original;
  match optParsedType, optAlgo with
  | None, None => Throw (BadHash "hash does not include a type")
  | Some t, Some a =>
      if bool_decide (t = a) then Hash_parse xp rest t isSRI
      else Throw (BadHash "hash should have another type")
  | Some t, None => Hash_parse xp rest t isSRI
  | None, Some a => Hash_parse xp rest a isSRI
  end.

Definition parseNonSRIUnprefixed (xp : XpSettings) (s : str) (a : HashAlgorithm) : result Hash :=
  Hash_parse xp s a false.

Definition newHashAllowEmpty (xp : XpSettings) (hashStr : str) (ha : option HashAlgorithm)
    : result Hash :=
  match hashStr, ha with
  | [], None => Throw (BadHash "empty hash requires explicit hash algorithm")
  | [], Some a => Hash_zero xp a
  | _, _ => parseAny xp hashStr ha
  end.

Definition parseHashFormatOpt (name : str) : option HashFormat :=
  if str_eqb name "base16" then Some Base16
  else if str_eqb name "bsd32" then Some Bsd32
  else if str_eqb name "base32" then Some Bsd32
  else if str_eqb name "base64" then Some Base64
  else if str_eqb name "sri" then Some SRI
  else None.

Definition parseHashFormat (name : str) : result HashFormat :=
  match parseHashFormatOpt name with
  | Some f => Ok f
  | None => Throw (UsageError "unknown hash format")
  end.

Definition printHashFormat (f : HashFormat) : str :=
  match f with Base64 => "base64" | Bsd32 => "bsd32" | Base16 => "base16" | SRI => "sri" end.

(** * Compression *)

Definition compress_step (newSize : nat) (src : list Z) (h : list Z) (i : nat) : list Z :=
  <[(i mod newSize)%nat := Z.lxor (hbyte h (i mod newSize)) (hbyte src i)]> h.

Definition compressHash (xp : XpSettings) (h : Hash) (newSize : nat) : result Hash :=
  z ← Hash_zero xp (algo h);
  Ok (MkHash newSize (foldl (compress_step newSize (hash h)) (hash z) (seq 0 (hashSize h)))
       (algo h)).

(** * Well-formed hashes *)

Definition bytes_ok (h : list Z) : Prop :=
  length h = maxHashSize ∧ Forall (λ b, 0 ≤ b < 256) h.

(** A hash as the program creates it: the buffer is 64 bytes, zero past
    [hashSize]. *)
Definition hash_wf (h : Hash) : Prop :=
  bytes_ok (hash h) ∧ (0 < hashSize h <= maxHashSize)%nat
  ∧ ∀ i, (hashSize h <= i)%nat → hbyte (hash h) i = 0.

(** A full digest, not a compressed one. *)
Definition hash_regular (h : Hash) : Prop :=
  hash_wf h ∧ hashSize h = regularHashSize (algo h).

Definition algo_enabled (xp : XpSettings) (a : HashAlgorithm) : Prop :=
  a = BLAKE3 → isEnabled xp BLAKE3Hashes = true.

Example hash_print_parse :
  let h := MkHash 16 (map Z.of_nat (seq 200 16) ++ replicate 48 0) MD5 in
  (s ← to_string h Bsd32 true; parseAny [] s None) = Ok h
  ∧ (s ← to_string h SRI true; parseAny [] s None) = Ok h
  ∧ (s ← to_string h Base16 false; parseAny [] s (Some MD5)) = Ok h.
Proof. vm_compute. done. Qed.

(** * The buffer as a bit string *)

Definition hbit (h : list Z) (k : nat) : bool :=
  Z.testbit (hbyte h (k / 8)) (Z.of_nat (k mod 8)).

Lemma hbyte_bound h i : bytes_ok h → 0 ≤ hbyte h i < 256.
Proof.
  intros [_ Hb]. unfold hbyte. destruct (decide (i < length h)%nat).
  - rewrite Forall_forall in Hb. apply Hb. apply list_elem_of_In, nth_In. lia.
  - rewrite nth_overflow by lia. lia.
Qed.

Lemma hbyte_zero n i : hbyte (replicate n 0) i = 0.
Proof.
  unfold hbyte. rewrite nth_lookup. destruct (replicate n 0 !! i) eqn:E; [|done].
  by apply lookup_replicate in E as [-> _].
Qed.

Lemma byte_testbit_high z k : 0 ≤ z < 256 → 8 ≤ k → Z.testbit z k = false.
Proof.
  intros Hz Hk. destruct (decide (z = 0)) as [->|]; [apply Z.bits_0|].
  apply Z.bits_above_log2; [lia|]. apply Z.lt_le_trans with 8; [|lia].
  apply Z.log2_lt_pow2; lia.
Qed.

Lemma small_testbit z n k : 0 ≤ z < 2 ^ n → 0 ≤ n ≤ k → Z.testbit z k = false.
Proof.
  intros Hz Hk. destruct (decide (z = 0)) as [->|]; [apply Z.bits_0|].
  apply Z.bits_above_log2; [lia|]. apply Z.lt_le_trans with n; [|lia].
  apply Z.log2_lt_pow2; lia.
Qed.

Lemma u8_testbit z k : 0 ≤ k < 8 → Z.testbit (u8 z) k = Z.testbit z k.
Proof. intros Hk. unfold u8. by rewrite Z.mod_pow2_bits_low by lia. Qed.

Lemma u8_bound z : 0 ≤ u8 z < 256.
Proof. unfold u8. apply Z.mod_pos_bound. lia. Qed.

Lemma hbyte_insert h i z k :
  (i < length h)%nat → hbyte (<[i := z]> h) k = if decide (k = i) then z else hbyte h k.
Proof.
  intros Hi. unfold hbyte. rewrite !nth_lookup. case_decide as Hk.
  - subst. by rewrite list_lookup_insert_eq.
  - by rewrite list_lookup_insert_ne.
Qed.

Lemma hbyte_eq_ext h1 h2 :
  length h1 = length h2 → (∀ i, (i < length h1)%nat → hbyte h1 i = hbyte h2 i) → h1 = h2.
Proof.
  intros Hl He. apply list_eq. intros i. destruct (decide (i < length h1)%nat) as [Hi|Hi].
  - destruct (lookup_lt_is_Some_2 h1 i Hi) as [x Hx].
    destruct (lookup_lt_is_Some_2 h2 i) as [y Hy]; [lia|].
    specialize (He i Hi). unfold hbyte in He. rewrite !nth_lookup, Hx, Hy in He.
    simpl in He. congruence.
  - rewrite !lookup_ge_None_2 by lia. done.
Qed.

(** Two buffers with the same bits are equal. *)
Lemma hbit_ext h1 h2 :
  bytes_ok h1 → bytes_ok h2 → (∀ k, (k < 8 * maxHashSize)%nat → hbit h1 k = hbit h2 k) → h1 = h2.
Proof.
  intros H1 H2 Hb. apply hbyte_eq_ext; [destruct H1, H2; congruence|].
  intros i Hi. apply Z.bits_inj'. intros m Hm.
  destruct (decide (m < 8)) as [Hm8|].
  - specialize (Hb (8 * i + Z.to_nat m)%nat). unfold hbit in Hb.
    replace ((8 * i + Z.to_nat m) / 8)%nat with i in Hb by lia.
    replace ((8 * i + Z.to_nat m) mod 8)%nat with (Z.to_nat m) in Hb by lia.
    rewrite Z2Nat.id in Hb by lia. apply Hb. destruct H1 as [H1 _]. lia.
  - rewrite !byte_testbit_high by first [lia | by apply hbyte_bound]. done.
Qed.

Lemma bytes_ok_insert h i z : bytes_ok h → 0 ≤ z < 256 → bytes_ok (<[i := z]> h).
Proof.
  intros [Hl Hf] Hz. split; [by rewrite length_insert|]. by apply Forall_insert.
Qed.

Lemma bytes_ok_zero : bytes_ok (replicate maxHashSize 0).
Proof. split; [done|]. apply Forall_replicate. lia. Qed.

(** ** Base 32 *)

Lemma digit32_testbit size h n m :
  bytes_ok h → (∀ i, (size <= i)%nat → hbyte h i = 0) → (m < 5)%nat →
  Z.testbit (digit32 size h n) (Z.of_nat m) = hbit h (5 * n + m).
Proof.
  intros Hok Hz Hm. unfold digit32, hbit. cbv zeta.
  rewrite Z.land_spec.
  change 31 with (Z.ones 5). rewrite Z.ones_spec_low, andb_true_r by lia.
  rewrite u8_testbit by lia. rewrite Z.lor_spec, Z.shiftr_spec by lia.
  set (i := (n * 5 / 8)%nat). set (j := (n * 5 mod 8)%nat).
  destruct (decide (j + m < 8)%nat) as [Hlt|Hge].
  - replace ((5 * n + m) / 8)%nat with i by (subst i j; zify; Z.to_euclidean_division_equations; lia).
    replace ((5 * n + m) mod 8)%nat with (j + m)%nat
      by (subst i j; zify; Z.to_euclidean_division_equations; lia).
    assert (Z.testbit (if (size - 1 <=? i)%nat then 0
       else Z.shiftl (hbyte h (i + 1)) (8 - Z.of_nat j)) (Z.of_nat m) = false) as ->.
    { destruct (_ <=? _)%nat; [apply Z.bits_0|]. by rewrite Z.shiftl_spec_low by lia. }
    rewrite orb_false_r. f_equal. lia.
  - replace ((5 * n + m) / 8)%nat with (i + 1)%nat
      by (subst i j; zify; Z.to_euclidean_division_equations; lia).
    replace ((5 * n + m) mod 8)%nat with (j + m - 8)%nat
      by (subst i j; zify; Z.to_euclidean_division_equations; lia).
    rewrite byte_testbit_high by first [lia | by apply hbyte_bound]. simpl.
    destruct (Nat.leb_spec (size - 1) i).
    + rewrite (Hz (i + 1)%nat) by lia. by rewrite !Z.bits_0.
    + rewrite Z.shiftl_spec by lia. f_equal. lia.
Qed.

Lemma digit32_bound size h n : 0 ≤ digit32 size h n < 32.
Proof.
  unfold digit32. change 31 with (Z.ones 5). rewrite Z.land_ones by lia.
  apply Z.mod_pos_bound. lia.
Qed.

Lemma hbit_insert h i z k :
  (i < length h)%nat →
  hbit (<[i := z]> h) k = if decide (k / 8 = i)%nat then Z.testbit z (Z.of_nat (k mod 8)) else hbit h k.
Proof. intros Hi. unfold hbit. rewrite hbyte_insert by done. by case_decide. Qed.

Lemma bsd32_find d :
  0 ≤ d < 32 →
  find_idx (λ x, bool_decide (x = chars_at bsd32Chars d)) bsd32Chars = Some (Z.to_nat d).
Proof.
  intros Hd.
  assert (forallb (λ d, bool_decide
    (find_idx (λ x, bool_decide (x = chars_at bsd32Chars d)) bsd32Chars = Some (Z.to_nat d)))
    (seqZ 0 32) = true) as H by (vm_compute; reflexivity).
  rewrite forallb_forall in H. specialize (H d).
  rewrite <- list_elem_of_In, elem_of_seqZ, bool_decide_eq_true in H. apply H. lia.
Qed.

Ltac div_arith := zify; Z.to_euclidean_division_equations; lia.

Lemma digit_carry_zero size n d (j := (n * 5 mod 8)%nat) :
  0 ≤ d < 32 → (size - 1 <= n * 5 / 8)%nat →
  (∀ m, (m < 5)%nat → (8 * size <= 5 * n + m)%nat → Z.testbit d (Z.of_nat m) = false) →
  Z.shiftr d (8 - Z.of_nat j) = 0.
Proof.
  intros Hd Hi Hc. assert (j < 8)%nat as Hj by (apply Nat.mod_upper_bound; lia).
  apply Z.bits_inj'. intros m Hm. rewrite Z.bits_0, Z.shiftr_spec by lia.
  destruct (decide (m + (8 - Z.of_nat j) < 5)).
  - rewrite <- (Z2Nat.id (m + (8 - Z.of_nat j))) by lia. apply Hc; [lia|].
    subst j. div_arith.
  - apply (small_testbit d 5); simpl; lia.
Qed.

(** One step ORs the five bits of its digit into the buffer. *)
Lemma parse32_step_spec size rest h n d :
  bytes_ok h → (0 < size <= maxHashSize)%nat → (5 * n < 8 * size)%nat →
  char_at rest (length rest - n - 1) = chars_at bsd32Chars d → 0 ≤ d < 32 →
  (∀ m, (m < 5)%nat → (8 * size <= 5 * n + m)%nat → Z.testbit d (Z.of_nat m) = false) →
  ∃ h', parse32_step size rest h n = Ok h' ∧ bytes_ok h' ∧
    ∀ k, hbit h' k = hbit h k || ((5 * n <=? k)%nat && Z.testbit d (Z.of_nat (k - 5 * n))).
Proof.
  intros Hok Hs Hn Hchar Hd Hc. unfold parse32_step. cbv zeta. rewrite Hchar, bsd32_find by done.
  rewrite Z2Nat.id by lia.
  pose proof (digit_carry_zero size n d Hd) as Hcarry.
  set (i := (n * 5 / 8)%nat) in *. set (j := (n * 5 mod 8)%nat) in *.
  assert (n * 5 = 8 * i + j ∧ j < 8)%nat as [Hb Hj] by (subst i j; div_arith).
  assert (i < length h)%nat as Hil by (destruct Hok as [-> _]; lia).
  set (h1 := <[i := _]> h).
  assert (bytes_ok h1) as Hok1 by (apply bytes_ok_insert; [done|apply u8_bound]).
  assert (∀ k, (k / 8)%nat = i → hbit h1 k = hbit h k ||
    ((5 * n <=? k)%nat && Z.testbit d (Z.of_nat (k - 5 * n)))) as Hlow.
  { intros k Hk. unfold h1. rewrite hbit_insert by done. rewrite decide_True by done.
    rewrite u8_testbit by div_arith. rewrite Z.lor_spec. unfold hbit. rewrite Hk. f_equal.
    destruct (Nat.leb_spec (5 * n) k).
    - rewrite Z.shiftl_spec by lia. cbn [andb]. f_equal. div_arith.
    - rewrite Z.shiftl_spec_low by div_arith. done. }
  assert (∀ k, (k / 8)%nat ≠ i → (k / 8)%nat ≠ (i + 1)%nat →
    ((5 * n <=? k)%nat && Z.testbit d (Z.of_nat (k - 5 * n))) = false) as Hout.
  { intros k Hk1 Hk2. destruct (Nat.leb_spec (5 * n) k); [|done].
    apply (small_testbit d 5); [simpl; lia|]. div_arith. }
  destruct (Nat.ltb_spec i (size - 1)) as [Hlt|Hge].
  - eexists. split; [done|]. split; [apply bytes_ok_insert; [done|apply u8_bound]|].
    intros k. rewrite hbit_insert by (destruct Hok1 as [-> _]; lia).
    case_decide as Hk.
    + rewrite u8_testbit by div_arith. rewrite Z.lor_spec. unfold h1.
      rewrite hbyte_insert, decide_False by lia. unfold hbit. rewrite Hk. f_equal.
      destruct (Nat.leb_spec (5 * n) k); [|div_arith].
      rewrite Z.shiftr_spec by lia. cbn [andb]. f_equal. div_arith.
    + destruct (decide (k / 8 = i)%nat) as [Hki|Hki]; [by apply Hlow|].
      rewrite Hout by done. unfold h1. rewrite hbit_insert by done.
      by rewrite decide_False, orb_false_r.
  - rewrite Hcarry by (done || lia). rewrite Z.eqb_refl. exists h1. split; [done|]. split; [done|].
    intros k. destruct (decide (k / 8 = i)%nat) as [Hki|Hki]; [by apply Hlow|].
    unfold h1. rewrite hbit_insert by done. rewrite decide_False by done.
    destruct (decide (k / 8 = i + 1)%nat) as [Hk1|]; [|by rewrite Hout, orb_false_r].
    destruct (Nat.leb_spec (5 * n) k); [|exfalso; div_arith]. cbn [andb].
    assert (Z.testbit d (Z.of_nat (k - 5 * n)) = false) as ->; [|by rewrite orb_false_r].
    destruct (decide (k - 5 * n < 5)%nat) as [H5|].
    + apply Hc; [lia|]. div_arith.
    + apply (small_testbit d 5); simpl; lia.
Qed.

Lemma parse32_fold size rest (ds : nat → Z) len n0 h :
  (0 < size <= maxHashSize)%nat → (5 * (n0 + len) < 8 * size + 5)%nat →
  (∀ n, (n < n0 + len)%nat → char_at rest (length rest - n - 1) = chars_at bsd32Chars (ds n)) →
  (∀ n, 0 ≤ ds n < 32) →
  (∀ n m, (m < 5)%nat → (8 * size <= 5 * n + m)%nat → Z.testbit (ds n) (Z.of_nat m) = false) →
  bytes_ok h →
  (∀ k, hbit h k = (k <? 5 * n0)%nat && Z.testbit (ds (k / 5)%nat) (Z.of_nat (k mod 5))) →
  ∃ h', foldR (parse32_step size rest) h (seq n0 len) = Ok h' ∧ bytes_ok h' ∧
    ∀ k, hbit h' k =
      (k <? 5 * (n0 + len))%nat && Z.testbit (ds (k / 5)%nat) (Z.of_nat (k mod 5)).
Proof.
  intros Hs Hlen Hchar Hd Hc. revert n0 h Hlen Hchar.
  induction len as [|len IH]; intros n0 h Hlen Hchar Hok Hinv; simpl.
  { exists h. rewrite Nat.add_0_r. done. }
  destruct (parse32_step_spec size rest h n0 (ds n0)) as (h1 & E & Hok1 & Hb1);
    [done|done|lia|apply Hchar; lia|done|by apply Hc|].
  rewrite E. simpl. destruct (IH (S n0) h1) as (h' & E' & Hok' & Hb'); [lia| |done| |].
  - intros n Hn. apply Hchar. lia.
  - intros k. rewrite Hb1, Hinv. clear -Hd.
    destruct (Nat.ltb_spec k (5 * n0)) as [Hlt|Hge]; cbn [andb orb].
    + destruct (Nat.leb_spec (5 * n0) k); [lia|]. rewrite orb_false_r.
      by destruct (Nat.ltb_spec k (5 * S n0)); [|lia].
    + destruct (Nat.leb_spec (5 * n0) k); [|lia]. cbn [andb orb].
      destruct (Nat.ltb_spec k (5 * S n0)) as [H1|H1]; cbn [andb].
      * replace (k / 5)%nat with n0 by div_arith. do 2 f_equal. div_arith.
      * specialize (Hd n0). apply (small_testbit (ds n0) 5); [simpl; lia|lia].
  - exists h'. split; [done|]. split; [done|]. intros k. rewrite Hb'.
    do 2 f_equal. lia.
Qed.

(** * Each textual format is read back *)

Lemma Hash_zero_ok xp a :
  algo_enabled xp a →
  Hash_zero xp a = Ok (MkHash (regularHashSize a) (replicate maxHashSize 0) a).
Proof.
  intros Ha. unfold Hash_zero. case_bool_decide as E.
  - subst. rewrite (proj2 (require_feature_ok xp BLAKE3Hashes)) by (by apply Ha). done.
  - by destruct a.
Qed.

Lemma nth_concat_pairs {A} (f g : nat → A) d k n i :
  (i < n)%nat →
  nth (i * 2) (concat (map (λ i, [f i; g i]) (seq k n))) d = f (k + i)%nat
  ∧ nth (i * 2 + 1) (concat (map (λ i, [f i; g i]) (seq k n))) d = g (k + i)%nat.
Proof.
  revert k i. induction n as [|n IH]; intros k [|i] Hi; simpl; try lia.
  - by rewrite Nat.add_0_r.
  - destruct (IH (S k) i) as [H1 H2]; [lia|].
    replace (k + S i)%nat with (S k + i)%nat by lia. done.
Qed.

Lemma length_concat_pairs {A} (f g : nat → A) k n :
  length (concat (map (λ i, [f i; g i]) (seq k n))) = (n * 2)%nat.
Proof. revert k. induction n as [|n IH]; intros k; simpl; [done|]. rewrite IH. lia. Qed.

Lemma hex_digit_roundtrip b :
  0 ≤ b < 256 →
  parseHexDigit (chars_at base16Chars (Z.shiftr b 4)) = Ok (Z.shiftr b 4)
  ∧ parseHexDigit (chars_at base16Chars (Z.land b 15)) = Ok (Z.land b 15)
  ∧ u8 (Z.lor (Z.shiftl (Z.shiftr b 4) 4) (Z.land b 15)) = b.
Proof.
  intros Hb.
  set (okd := λ d, match parseHexDigit (chars_at base16Chars d) with Ok x => x =? d | _ => false end).
  assert (forallb (λ b, okd (Z.shiftr b 4) && okd (Z.land b 15)
     && (u8 (Z.lor (Z.shiftl (Z.shiftr b 4) 4) (Z.land b 15)) =? b)) (seqZ 0 256) = true) as H
    by (vm_compute; reflexivity).
  rewrite forallb_forall in H. specialize (H b).
  rewrite <- list_elem_of_In, elem_of_seqZ in H. specialize (H ltac:(lia)).
  rewrite !andb_true_iff, Z.eqb_eq in H. unfold okd in H. clear okd.
  destruct (parseHexDigit (chars_at base16Chars (Z.shiftr b 4))) eqn:E1; [|naive_solver].
  destruct (parseHexDigit (chars_at base16Chars (Z.land b 15))) eqn:E2; [|naive_solver].
  rewrite !Z.eqb_eq in H. destruct H as [[-> ->] ?]. done.
Qed.

Lemma parse16_step_print h h0 n :
  hash_wf h → (n < hashSize h)%nat →
  parse16_step (printHash16 h) h0 n = Ok (<[n := hbyte (hash h) n]> h0).
Proof.
  intros (Hok & _ & _) Hn. unfold parse16_step, printHash16, char_at.
  destruct (nth_concat_pairs
    (λ i, chars_at base16Chars (Z.shiftr (hbyte (hash h) i) 4))
    (λ i, chars_at base16Chars (Z.land (hbyte (hash h) i) 15)) NUL 0 (hashSize h) n)
    as [-> ->]; [done|].
  destruct (hex_digit_roundtrip (hbyte (hash h) n)) as (E1 & E2 & E3); [by apply hbyte_bound|].
  simpl. rewrite E1. simpl. rewrite E2. simpl. by rewrite E3.
Qed.

Lemma parse16_print16 h :
  hash_wf h →
  foldR (parse16_step (printHash16 h)) (replicate maxHashSize 0) (seq 0 (hashSize h)) = Ok (hash h).
Proof.
  intros (Hok & Hs & Hz).
  assert (∀ len n0 h0, (n0 + len = hashSize h)%nat → length h0 = maxHashSize →
    (∀ i, hbyte h0 i = if (i <? n0)%nat then hbyte (hash h) i else 0) →
    foldR (parse16_step (printHash16 h)) h0 (seq n0 len) = Ok (hash h)) as Hgen.
  { induction len as [|len IH]; intros n0 h0 Hn Hl Hinv; simpl.
    - f_equal. apply hbyte_eq_ext; [destruct Hok; congruence|]. intros i _. rewrite Hinv.
      destruct (Nat.ltb_spec i n0); [done|]. symmetry. apply Hz. lia.
    - rewrite parse16_step_print by (done || lia). simpl.
      apply IH; [lia|by rewrite length_insert|]. intros i.
      rewrite hbyte_insert by lia. rewrite Hinv.
      case_decide; destruct (Nat.ltb_spec i n0), (Nat.ltb_spec i (S n0)); try lia; congruence. }
  apply Hgen; [lia|done|]. intros i. apply hbyte_zero.
Qed.

Definition digits32 (h : Hash) : str :=
  map (λ n, chars_at bsd32Chars (digit32 (hashSize h) (hash h) n))
    (reverse (seq 0 (base32Len (hashSize h)))).

Lemma length_digits32 h : length (digits32 h) = base32Len (hashSize h).
Proof. unfold digits32. by rewrite length_map, length_reverse, length_seq. Qed.

Lemma char_at_digits32 h n :
  (n < base32Len (hashSize h))%nat →
  char_at (digits32 h) (length (digits32 h) - n - 1)
  = chars_at bsd32Chars (digit32 (hashSize h) (hash h) n).
Proof.
  intros Hn. unfold char_at. rewrite nth_lookup, length_digits32. unfold digits32.
  rewrite list_lookup_fmap, reverse_lookup by (rewrite length_seq; lia).
  rewrite length_seq. rewrite lookup_seq_lt by lia. simpl. do 3 f_equal. lia.
Qed.

Lemma parse32_print32 h :
  hash_wf h →
  foldR (parse32_step (hashSize h) (digits32 h)) (replicate maxHashSize 0)
    (seq 0 (length (digits32 h))) = Ok (hash h).
Proof.
  intros (Hok & Hs & Hz). rewrite length_digits32.
  destruct (parse32_fold (hashSize h) (digits32 h) (digit32 (hashSize h) (hash h))
    (base32Len (hashSize h)) 0 (replicate maxHashSize 0)) as (h' & E & Hok' & Hb).
  - done.
  - unfold base32Len. div_arith.
  - intros n Hn. by apply char_at_digits32.
  - intros n. apply digit32_bound.
  - intros n m Hm Hge. rewrite digit32_testbit by done. unfold hbit.
    rewrite (Hz ((5 * n + m) / 8)%nat) by div_arith. apply Z.bits_0.
  - apply bytes_ok_zero.
  - intros k. unfold hbit. by rewrite hbyte_zero, Z.bits_0.
  - rewrite E. f_equal. apply hbit_ext; [done|done|]. intros k _. rewrite Hb.
    rewrite digit32_testbit by (done || apply Nat.mod_upper_bound; lia).
    rewrite <- Nat.div_mod_eq. destruct (Nat.ltb_spec k (5 * (0 + base32Len (hashSize h)))) as [|Hk];
      [done|]. symmetry. unfold hbit. rewrite Hz; [apply Z.bits_0|]. unfold base32Len in Hk.
    destruct Hs. div_arith.
Qed.

Lemma parse64_print64 h :
  hash_wf h →
  length (hash_bytes h) = hashSize h
  ∧ copy_bytes (replicate maxHashSize 0) (hash_bytes h) = hash h.
Proof.
  intros ([Hl Hf] & Hs & Hz).
  assert (length (hash_bytes h) = hashSize h) as Hlen
    by (unfold hash_bytes; rewrite length_map, length_take; lia).
  split; [done|]. unfold copy_bytes. rewrite Hlen. unfold hash_bytes. rewrite map_map.
  rewrite <- (take_drop (hashSize h) (hash h)) at 2. f_equal.
  - rewrite <- map_id. apply map_ext_in. intros b Hb. rewrite byte_val_of.
    apply Z.mod_small. rewrite Forall_forall in Hf. apply Hf. apply list_elem_of_In in Hb.
    apply elem_of_take in Hb as (? & ? & ?). by eapply list_elem_of_lookup_2.
  - apply hbyte_eq_ext; [rewrite !length_drop, length_replicate; lia|].
    intros i Hi. unfold hbyte. rewrite !nth_lookup, !lookup_drop.
    specialize (Hz (hashSize h + i)%nat ltac:(lia)). unfold hbyte in Hz.
    rewrite nth_lookup in Hz. rewrite Hz.
    destruct (replicate _ 0 !! _) eqn:El; [|done]. by apply lookup_replicate in El as [-> _].
Qed.

(** The encoded part of [to_string], after the optional prefix. *)
Definition format_body (h : Hash) (f : HashFormat) : str :=
  match f with
  | Base16 => printHash16 h
  | Bsd32 => digits32 h
  | Base64 | SRI => base64Encode (hash_bytes h)
  end.

Lemma printHash32_digits h : (0 < hashSize h)%nat → printHash32 h = Ok (digits32 h).
Proof.
  intros Hs. unfold printHash32, assertR.
  destruct (Nat.eqb_spec (hashSize h) 0); [lia|]. cbn [negb mbind result_bind].
  destruct (Nat.eqb_spec (base32Len (hashSize h)) 0) as [E|]; [unfold base32Len in E; lia|]. done.
Qed.

Lemma to_string_body h f incl :
  hash_wf h →
  to_string h f incl = Ok
    ((if bool_decide (f = SRI) || incl
      then printHashAlgo (algo h) ++ [if bool_decide (f = SRI) then "-"%char else ":"%char]
      else []) ++ format_body h f).
Proof.
  intros (_ & Hs & _). unfold to_string. destruct f; try done.
  rewrite printHash32_digits by lia. done.
Qed.

Lemma length_base64_hash h :
  hash_regular h → length (base64Encode (hash_bytes h)) = base64Len (hashSize h).
Proof.
  intros [Hwf Hreg]. destruct (parse64_print64 h Hwf) as [Hlen _].
  destruct (base64_spec (hash_bytes h)) as (_ & Hl & _). rewrite Hlen in Hl.
  unfold base64Len. rewrite Hreg in *. destruct (algo h); simpl in *; lia.
Qed.

(** Reading back the body with the right algorithm gives the hash. *)
Lemma Hash_parse_body xp h f :
  hash_regular h → algo_enabled xp (algo h) →
  Hash_parse xp (format_body h f) (algo h) (bool_decide (f = SRI)) = Ok h.
Proof.
  intros Hr Hx. pose proof (length_base64_hash h Hr) as H64. destruct Hr as [Hwf Hreg].
  unfold Hash_parse. rewrite Hash_zero_ok by done. cbn [mbind result_bind hashSize hash].
  rewrite <- Hreg.
  assert (base32Len (hashSize h) ≠ base16Len (hashSize h)
    ∧ base64Len (hashSize h) ≠ base16Len (hashSize h)
    ∧ base64Len (hashSize h) ≠ base32Len (hashSize h)) as (H1 & H2 & H3)
    by (rewrite Hreg; destruct (algo h); vm_compute; done).
  assert (∀ b : bool, (if negb (length (hash_bytes h) =? hashSize h)%nat
     then Throw (BadHash "invalid SRI or base-64 hash")
     else _ ← assertR (negb (hashSize h =? 0)%nat);
       Ok (MkHash (hashSize h) (copy_bytes (replicate maxHashSize 0) (hash_bytes h)) (algo h)))
     = Ok h) as Hb64.
  { intros _. destruct (parse64_print64 h Hwf) as [-> ->]. rewrite Nat.eqb_refl. simpl.
    destruct Hwf as (_ & Hs & _). destruct (Nat.eqb_spec (hashSize h) 0); [lia|]. by destruct h. }
  destruct f; cbn [format_body bool_decide]; simpl bool_decide.
  - rewrite !H64. destruct (Nat.eqb_spec (base64Len (hashSize h)) (base16Len (hashSize h))); [lia|].
    destruct (Nat.eqb_spec (base64Len (hashSize h)) (base32Len (hashSize h))); [lia|].
    rewrite Nat.eqb_refl. cbn [negb andb orb].
    destruct (base64_spec (hash_bytes h)) as (-> & _ & _). by apply (Hb64 true).
  - rewrite !length_digits32.
    destruct (Nat.eqb_spec (base32Len (hashSize h)) (base16Len (hashSize h))); [lia|].
    rewrite Nat.eqb_refl. cbn [negb andb orb]. rewrite <- (length_digits32 h).
    rewrite parse32_print32 by done. by destruct h.
  - unfold base16Len. unfold printHash16 at 1. rewrite length_concat_pairs, Nat.eqb_refl.
    cbn [negb andb orb]. rewrite parse16_print16 by done. by destruct h.
  - cbn [negb andb orb]. destruct (base64_spec (hash_bytes h)) as (-> & _ & _).
    by apply (Hb64 true).
Qed.

Lemma printHashAlgo_plain a : (":"%char ∉ printHashAlgo a) ∧ ("-"%char ∉ printHashAlgo a).
Proof. destruct a; split; apply (bool_decide_unpack _); vm_compute; done. Qed.

Lemma base64_no_colon s : ":"%char ∉ base64Encode s.
Proof.
  destruct (base64_spec s) as (_ & _ & Hv). rewrite Forall_forall in Hv.
  intros Hin. by apply Hv in Hin.
Qed.

Lemma parse_print_algo a : parseHashAlgo (printHashAlgo a) = Ok a.
Proof. by destruct a. Qed.

Lemma getParsed_prefixed h f :
  hash_wf h →
  ∃ s, to_string h f true = Ok s ∧
    getParsedTypeAndSRI s = Ok (Some (algo h), bool_decide (f = SRI), format_body h f).
Proof.
  intros Hwf. rewrite to_string_body by done. eexists. split; [done|].
  destruct (printHashAlgo_plain (algo h)) as [Hc Hd]. rewrite orb_true_r, <- app_assoc. simpl.
  unfold getParsedTypeAndSRI. destruct (decide (f = SRI)) as [->|Hf].
  - rewrite !bool_decide_true by done. rewrite (splitPrefixTo_none ":"%char).
    + rewrite splitPrefixTo_app by done. by rewrite parse_print_algo.
    + rewrite not_elem_of_app, not_elem_of_cons. split_and!; [done|done|apply base64_no_colon].
  - rewrite !bool_decide_false by done. rewrite splitPrefixTo_app by done.
    by rewrite parse_print_algo.
Qed.

(** * Compression by cyclic XOR *)

Lemma lxor_byte a b : 0 ≤ a < 256 → 0 ≤ b < 256 → 0 ≤ Z.lxor a b < 256.
Proof.
  intros Ha Hb. split; [apply Z.lxor_nonneg; lia|].
  destruct (decide (Z.lxor a b < 256)) as [|Hge]; [done|]. exfalso.
  assert (Z.lxor a b = Z.lxor a b mod 2 ^ 8) as E.
  { apply Z.bits_inj'. intros k Hk. destruct (decide (k < 8)).
    - by rewrite Z.mod_pow2_bits_low by lia.
    - rewrite Z.mod_pow2_bits_high, Z.lxor_spec by lia.
      by rewrite !byte_testbit_high by lia. }
  pose proof (Z.mod_pos_bound (Z.lxor a b) (2 ^ 8)). lia.
Qed.

Definition xor_class (n k : nat) (src : list Z) (idxs : list nat) : Z :=
  foldl (λ acc i, if (i mod n =? k)%nat then Z.lxor acc (hbyte src i) else acc) 0 idxs.

Lemma compress_fold n src l h0 :
  (0 < n <= maxHashSize)%nat → bytes_ok src → bytes_ok h0 →
  bytes_ok (foldl (compress_step n src) h0 l) ∧
  ∀ k, hbyte (foldl (compress_step n src) h0 l) k =
    foldl (λ acc i, if (i mod n =? k)%nat then Z.lxor acc (hbyte src i) else acc) (hbyte h0 k) l.
Proof.
  intros Hn Hsrc. revert h0. induction l as [|i l IH]; intros h0 H0; [done|].
  assert (i mod n < n)%nat as Hi by (apply Nat.mod_upper_bound; lia).
  cbn [foldl]. destruct (IH (compress_step n src h0 i)) as [Hok Hk].
  { apply bytes_ok_insert; [done|]. apply lxor_byte; by apply hbyte_bound. }
  split; [done|]. intros k. rewrite Hk. f_equal. unfold compress_step.
  rewrite hbyte_insert by (destruct H0 as [-> _]; lia).
  destruct (Nat.eqb_spec (i mod n) k) as [->|]; [by rewrite decide_True|].
  by rewrite decide_False.
Qed.

Lemma compressHash_ok xp h n :
  hash_wf h → (0 < n <= maxHashSize)%nat → algo_enabled xp (algo h) →
  ∃ h', compressHash xp h n = Ok h' ∧ hash_wf h' ∧ hashSize h' = n ∧ algo h' = algo h ∧
    ∀ k, hbyte (hash h') k = xor_class n k (hash h) (seq 0 (hashSize h)).
Proof.
  intros (Hok & Hs & Hz) Hn Hx. unfold compressHash. rewrite Hash_zero_ok by done. simpl.
  eexists. split; [done|].
  destruct (compress_fold n (hash h) (seq 0 (hashSize h)) (replicate maxHashSize 0))
    as [Hok' Hk]; [done|done|apply bytes_ok_zero|].
  split_and!; [|done|done|intros k; rewrite Hk, hbyte_zero; done].
  split; [done|]. split; [done|]. simpl. intros i Hi. rewrite Hk, hbyte_zero.
  assert (∀ l, foldl (λ acc j, if (j mod n =? i)%nat then Z.lxor acc (hbyte (hash h) j) else acc) 0 l
    = 0) as Hnone; [|apply Hnone].
  induction l as [|j l IH]; [done|]. simpl foldl.
  destruct (Nat.eqb_spec (j mod n) i) as [E|]; [|done].
  assert (j mod n < n)%nat by (apply Nat.mod_upper_bound; lia). lia.
Qed.

(** * Equality and order *)

Lemma bytes_compare_eq h1 h2 l :
  bytes_compare h1 h2 l = Eq ↔ forallb (λ i, hbyte h1 i =? hbyte h2 i) l = true.
Proof.
  induction l as [|i l IH]; simpl; [done|]. rewrite andb_true_iff, <- IH, Z.eqb_eq.
  destruct (Z.compare_spec (hbyte h1 i) (hbyte h2 i)); naive_solver lia.
Qed.

(** * Properties *)

(** [C30] Every textual format of a full digest is read back: the prefixed
    forms by [parseAny] (with or without the expected algorithm) and
    [parseAnyPrefixed], the unprefixed non-SRI forms by
    [parseNonSRIUnprefixed], and the SRI form by [parseSRI]. *)
Theorem hash_format_roundtrip xp h f :
  hash_regular h → algo_enabled xp (algo h) →
  (∃ s, to_string h f true = Ok s ∧ parseAny xp s None = Ok h
        ∧ parseAny xp s (Some (algo h)) = Ok h ∧ parseAnyPrefixed xp s = Ok h
        ∧ (f = SRI → parseSRI xp s = Ok h))
  ∧ (f ≠ SRI → ∃ s, to_string h f false = Ok s ∧ parseNonSRIUnprefixed xp s (algo h) = Ok h).
Proof.
  intros Hr Hx. pose proof (Hash_parse_body xp h f Hr Hx) as Hp. destruct Hr as [Hwf Hreg].
  split.
  - destruct (getParsed_prefixed h f Hwf) as (s & Hs & Hg). exists s.
    unfold parseAny, parseAnyPrefixed. rewrite Hg. simpl.
    rewrite (bool_decide_true (algo h = algo h)) by done. split_and!; [done..|].
    intros ->. rewrite to_string_body in Hs by done. simpl in Hs. injection Hs as <-.
    unfold parseSRI. rewrite <- app_assoc. simpl.
    rewrite splitPrefixTo_app by apply printHashAlgo_plain. rewrite parse_print_algo. done.
  - intros Hf. rewrite to_string_body by done. rewrite bool_decide_false by done.
    eexists. split; [done|]. rewrite bool_decide_false in Hp by done. done.
Qed.

Definition sample_md5 : Hash :=
  MkHash 16 (map Z.of_nat (seq 200 16) ++ replicate 48 0) MD5.

Lemma sample_md5_regular : hash_regular sample_md5.
Proof.
  split; [|done]. split; [split; [done|]|split; [simpl; unfold maxHashSize; lia|]].
  - apply (bool_decide_unpack _). vm_compute. done.
  - intros i Hi. simpl in Hi. do 16 (destruct i as [|i]; [lia|]).
    do 48 (destruct i as [|i]; [done|]). by destruct i.
Qed.

Lemma hash_format_roundtrip_witness :
  ∃ s, to_string sample_md5 Bsd32 false = Ok s ∧ parseNonSRIUnprefixed [] s MD5 = Ok sample_md5.
Proof.
  apply (hash_format_roundtrip [] sample_md5 Bsd32); [apply sample_md5_regular|discriminate|discriminate].
Defined.

(** The ordering and the equality of hashes disagree: [<=>] returns
    "equivalent" exactly when [==] holds and the algorithms are also the
    same, and there are hashes (SHA-256 and BLAKE3 digests with equal bytes)
    that [==] identifies and [<=>] orders strictly. *)
Theorem hash_equality_vs_order :
  (∀ h1 h2, Hash_compare h1 h2 = Eq ↔ Hash_eqb h1 h2 = true ∧ algo h1 = algo h2)
  ∧ ∃ h1 h2, hash_regular h1 ∧ hash_regular h2 ∧ Hash_eqb h1 h2 = true ∧ Hash_compare h1 h2 = Lt.
Proof.
  split.
  - intros h1 h2. unfold Hash_compare, Hash_eqb. rewrite andb_true_iff.
    destruct (Nat.compare_spec (hashSize h1) (hashSize h2)) as [->|Hlt|Hlt];
      rewrite ?Nat.eqb_refl, ?(proj2 (Nat.eqb_neq _ _)) by lia; try naive_solver.
    rewrite <- bytes_compare_eq. destruct (bytes_compare _ _ _); try naive_solver.
    rewrite Z.compare_eq_iff. destruct (algo h1), (algo h2); simpl; naive_solver.
  - exists (MkHash 32 (replicate 64 0) SHA256), (MkHash 32 (replicate 64 0) BLAKE3).
    assert (∀ a, regularHashSize a = 32%nat → hash_regular (MkHash 32 (replicate 64 0) a)) as Hreg.
    { intros a Ha. split; [|done]. split; [apply bytes_ok_zero|]. split; [simpl; unfold maxHashSize; lia|].
      intros i _. apply hbyte_zero. }
    split_and!; [by apply Hreg|by apply Hreg|done|done].
Qed.

(** A hash function with different digests for the strings of the examples. *)
Definition poly (s : str) : Z := foldl (λ acc c, (acc * 257 + byte_val c + 1) mod 2 ^ 64) 0 s.
Definition poly_hash (a : HashAlgorithm) (s : str) : Hash :=
  MkHash (regularHashSize a) (map (λ i, (poly s / 256 ^ Z.of_nat i) mod 256) (seq 0 8) ++ replicate 56 0) a.
Lemma poly_hash_ok a s : hash_regular (poly_hash a s) ∧ algo (poly_hash a s) = a.
Proof.
  split; [|done]. split; [|done]. split; [split|split].
  - reflexivity.
  - apply Forall_app. split; [|apply Forall_replicate; lia]. apply Forall_map, Forall_forall. intros i _. apply Z.mod_pos_bound. lia.
  - destruct a; cbn; unfold maxHashSize; lia.
  - intros i Hi. cbn [hash poly_hash hashSize] in *. unfold hbyte. rewrite app_nth2; [apply hbyte_zero|].
    rewrite length_map, length_seq. destruct a; cbn in Hi; lia.
Qed.
