(* ===== verification/CanonPath.v ===== *)
(** Canonical paths: [libutil/canon-path.{hh,cc}] and the pure canonicaliser
    [canonPathInner] of [libutil/file-path-impl.hh].

    A [CanonPath] wraps a string; the class comment states its invariant
    (leading slash, no empty, [.] or [..] component). The reference view is
    the list of components: [cp_wf] says a path is the rendering of valid
    components, and every operation is characterised on that list. *)

From S2P Require Import Prelude Strings.

Definition slash : ascii := "/"%char.
Definition is_slash (c : ascii) : bool := bool_decide (c = slash).

(** * Canonicalisation *)

Fixpoint skip_slashes (s : str) : str :=
  match s with c :: s' => if is_slash c then skip_slashes s' else s | [] => [] end.

(** [findPathSep(path)]. *)
Definition findPathSep (s : str) : option nat := find_idx is_slash s.
(** [path.rfind('/')]. *)
Definition rfindPathSep (s : str) : option nat :=
  (λ i, (length s - 1 - i)%nat) <$> find_idx is_slash (reverse s).

(** [canonPathInner<UbsdPathTrait>] with a hook that does nothing. *)
Fixpoint canon_loop (fuel : nat) (remaining result : str) : str :=
  match fuel with
  | O => result
  | S fuel =>
      let remaining := skip_slashes remaining in
      match remaining with
      | [] => result
      | _ =>
          let nextComp :=
            match findPathSep remaining with None => remaining | Some n => take n remaining end in
          if str_eqb nextComp "." then canon_loop fuel (drop 1 remaining) result
          else if str_eqb nextComp ".." then
            canon_loop fuel (drop 2 remaining)
              (match result with
               | [] => result
               | _ => match rfindPathSep result with Some i => take i result | None => result end
               end)
          else
            match findPathSep remaining with
            | None => canon_loop fuel [] (result ++ [slash] ++ remaining)
            | Some n => canon_loop fuel (drop n remaining) (result ++ [slash] ++ take n remaining)
            end
      end
  end.

Definition canonPathInner (remaining : str) : result str :=
  _ ← assertR (negb (str_eqb remaining []));
  Ok (match canon_loop (S (length remaining)) remaining [] with
      | [] => [slash]
      | result => result
      end).

(** * The class *)

Record CanonPath := MkCanonPath { abs : str }.

#[export] Instance CanonPath_eq_dec : EqDecision CanonPath.
Proof. solve_decision. Defined.

Definition absPathPure (path : str) : result str := canonPathInner path.

(** [CanonPath(raw)] *)
Definition CanonPath_raw (raw : str) : result CanonPath :=
  MkCanonPath <$> absPathPure ("/" ++ raw).
(** [CanonPath(raw, root)] *)
Definition CanonPath_raw_root (raw : str) (root : CanonPath) : result CanonPath :=
  MkCanonPath <$> absPathPure
    (match raw with
     | c :: _ => if is_slash c then raw else abs root ++ "/" ++ raw
     | [] => abs root ++ "/" ++ raw
     end).

Definition cp_root : CanonPath := MkCanonPath "/".

Definition isRoot (p : CanonPath) : bool := (length (abs p) <=? 1)%nat.
Definition rel (p : CanonPath) : str := drop 1 (abs p).
Definition absOrEmpty (p : CanonPath) : str := if isRoot p then [] else abs p.

(** [std::max(1, path.rfind('/'))]; [npos] is larger than any length. *)
Definition parent_len (p : CanonPath) : nat :=
  match rfindPathSep (abs p) with Some i => Nat.max 1 i | None => length (abs p) end.

Definition parent (p : CanonPath) : option CanonPath :=
  if isRoot p then None else Some (MkCanonPath (take (parent_len p) (abs p))).

Definition pop (p : CanonPath) : result CanonPath :=
  _ ← assertR (negb (isRoot p)); Ok (MkCanonPath (take (parent_len p) (abs p))).

Definition dirOf (p : CanonPath) : option str :=
  if isRoot p then None
  else Some (match rfindPathSep (abs p) with Some i => take i (abs p) | None => abs p end).

Definition baseName (p : CanonPath) : option str :=
  if isRoot p then None
  else Some (match rfindPathSep (abs p) with Some i => drop (i + 1) (abs p) | None => abs p end).

Definition isWithin (p parent : CanonPath) : bool :=
  negb ((length (abs p) <? length (abs parent))%nat
        || negb (str_eqb (take (length (abs parent)) (abs p)) (abs parent))
        || ((1 <? length (abs parent))%nat && (length (abs parent) <? length (abs p))%nat
            && negb (is_slash (nth (length (abs parent)) (abs p) NUL)))).

Definition removePrefix (p prefix : CanonPath) : result CanonPath :=
  _ ← assertR (isWithin p prefix);
  Ok (if isRoot prefix then p
      else if (length (abs p) =? length (abs prefix))%nat then cp_root
      else MkCanonPath (drop (length (abs prefix)) (abs p))).

Definition extend (p x : CanonPath) : CanonPath :=
  if isRoot x then p
  else if isRoot p then MkCanonPath (abs p ++ rel x)
  else MkCanonPath (abs p ++ abs x).

Definition push (p : CanonPath) (c : str) : result CanonPath :=
  _ ← assertR (negb (existsb is_slash c));
  _ ← assertR (negb (str_eqb c ".") && negb (str_eqb c ".."));
  Ok (MkCanonPath (if isRoot p then abs p ++ c else abs p ++ "/" ++ c)).

(** [CanonPath(elems)] *)
Definition CanonPath_elems (elems : list str) : result CanonPath := foldR push cp_root elems.

(** ** Iteration over the components

    An [Iterator] is the rest of the string; it is at the end when that rest
    is empty. *)

Definition it_deref (remaining : str) : str :=
  match findPathSep remaining with None => remaining | Some i => take i remaining end.
Definition it_next (remaining : str) : str :=
  match findPathSep remaining with None => [] | Some i => drop (i + 1) remaining end.

Fixpoint it_comps (fuel : nat) (remaining : str) : list str :=
  match fuel, remaining with
  | S fuel, _ :: _ => it_deref remaining :: it_comps fuel (it_next remaining)
  | _, _ => []
  end.
(** [for (std::string_view name : path)]. *)
Definition components (p : CanonPath) : list str := it_comps (length (rel p)) (rel p).

(** The [for] loop of [makeRelative]. *)
Fixpoint skip_common (fuel : nat) (p1 p2 : str) : str * str :=
  match fuel, p1, p2 with
  | S fuel, _ :: _, _ :: _ =>
      if str_eqb (it_deref p1) (it_deref p2) then skip_common fuel (it_next p1) (it_next p2)
      else (p1, p2)
  | _, _, _ => (p1, p2)
  end.
(** Its [while] loop, one [..] per component left in [p1]. *)
Fixpoint go_up (fuel : nat) (p1 res : str) : str :=
  match fuel, p1 with
  | S fuel, _ :: _ =>
      go_up fuel (it_next p1) ((match res with [] => [] | _ => res ++ "/" end) ++ "..")
  | _, _ => res
  end.

Definition makeRelative (p path : CanonPath) : str :=
  let '(p1, p2) := skip_common (length (rel p)) (rel p) (rel path) in
  match p1, p2 with
  | [], [] => "."
  | [], _ => p2
  | _, _ =>
      let res := go_up (length p1) p1 [] in
      match p2 with
      | [] => res
      | _ => (match res with [] => res | _ => res ++ "/" end) ++ p2
      end
  end.

(** ** Order and access checks

    [operator<=>] compares [char]s after mapping the separator to 0. Plain
    [char] is signed on x86-64 and unsigned on AArch64, so the comparison is
    parametrised by the signedness. *)

Definition char_val (signed : bool) (c : ascii) : Z :=
  if signed && (128 <=? byte_val c) then byte_val c - 256 else byte_val c.

Definition sort_val (signed : bool) (c : ascii) : Z :=
  if is_slash c then 0 else char_val signed c.

Fixpoint path_compare (signed : bool) (s t : str) : comparison :=
  match s, t with
  | [], [] => Eq
  | [], _ => Lt
  | _, [] => Gt
  | c :: s, d :: t =>
      match sort_val signed c ?= sort_val signed d with
      | Eq => path_compare signed s t
      | o => o
      end
  end.
Definition cp_ltb (signed : bool) (p q : CanonPath) : bool :=
  match path_compare signed (abs p) (abs q) with Lt => true | _ => false end.

(** [allowed.lower_bound(x)] in a [std::set], kept as its sorted elements. *)
Fixpoint lower_bound (signed : bool) (allowed : list CanonPath) (x : CanonPath) : option CanonPath :=
  match allowed with
  | [] => None
  | e :: allowed => if cp_ltb signed e x then lower_bound signed allowed x else Some e
  end.
(** [allowed.count(x)]: an element that is neither less nor greater. *)
Definition set_count (signed : bool) (allowed : list CanonPath) (x : CanonPath) : bool :=
  existsb (λ e, negb (cp_ltb signed e x) && negb (cp_ltb signed x e)) allowed.

Fixpoint parent_allowed (fuel : nat) (signed : bool) (allowed : list CanonPath) (p : CanonPath)
    : bool :=
  match fuel with
  | O => false
  | S fuel =>
      if isRoot p then false
      else match pop p with
           | Ok p => if set_count signed allowed p then true else parent_allowed fuel signed allowed p
           | Throw _ => false
           end
  end.

Definition isAllowed (signed : bool) (p : CanonPath) (allowed : list CanonPath) : bool :=
  match lower_bound signed allowed p with
  | Some lb => if isWithin lb p then true else parent_allowed (length (abs p)) signed allowed p
  | None => parent_allowed (length (abs p)) signed allowed p
  end.

Example canon_1 : CanonPath_raw "foo//./bar/../baz/" = Ok (MkCanonPath "/foo/baz").
Proof. reflexivity. Qed.
Example relative_1 :
  makeRelative (MkCanonPath "/foo/bar") (MkCanonPath "/foo/xyz/a") = "../xyz/a".
Proof. reflexivity. Qed.

(** * Reference view: lists of components *)

Definition plain_comp (c : str) : Prop := c ≠ [] ∧ forallb (λ x, negb (is_slash x)) c = true.
Definition valid_comp (c : str) : Prop := plain_comp c ∧ c ≠ "." ∧ c ≠ "..".

#[export] Instance plain_comp_dec c : Decision (plain_comp c).
Proof. unfold plain_comp. apply _. Defined.
#[export] Instance valid_comp_dec c : Decision (valid_comp c).
Proof. unfold valid_comp. apply _. Defined.

(** Every component with its leading slash. *)
Definition body (cs : list str) : str := concat (map (cons slash) cs).
Definition render (cs : list str) : CanonPath :=
  MkCanonPath (match cs with [] => [slash] | _ => body cs end).

(** The class invariant. *)
Definition cp_wf (p : CanonPath) : Prop := ∃ cs, Forall valid_comp cs ∧ p = render cs.

(** Meaning of a raw component on the stack of components read so far. *)
Definition norm_step (st : list str) (c : str) : list str :=
  if str_eqb c [] || str_eqb c "." then st
  else if str_eqb c ".." then removelast st
  else st ++ [c].
Definition normalize (raw : str) : list str := foldl norm_step [] (split_on is_slash raw).

Lemma str_eqb_true s t : str_eqb s t = true ↔ s = t.
Proof. apply bool_decide_eq_true. Qed.
Lemma str_eqb_false s t : str_eqb s t = false ↔ s ≠ t.
Proof. apply bool_decide_eq_false. Qed.
Lemma str_eqb_refl s : str_eqb s s = true.
Proof. by apply str_eqb_true. Qed.

Lemma body_app cs ds : body (cs ++ ds) = body cs ++ body ds.
Proof. unfold body. by rewrite map_app, concat_app. Qed.
Lemma body_snoc cs c : body (cs ++ [c]) = body cs ++ slash :: c.
Proof. rewrite body_app. unfold body at 2. simpl. by rewrite app_nil_r. Qed.
Lemma body_nil cs : body cs = [] ↔ cs = [].
Proof. destruct cs; naive_solver. Qed.

Lemma abs_render cs : abs (render cs) = match cs with [] => [slash] | _ => body cs end.
Proof. done. Qed.

Lemma plain_no_slash c : plain_comp c → find_idx is_slash c = None.
Proof. intros [_ H]. by apply find_idx_None. Qed.

Lemma findPathSep_app c s :
  plain_comp c → findPathSep (c ++ slash :: s) = Some (length c).
Proof. intros [_ H]. by apply find_idx_app_stop. Qed.

Lemma forallb_reverse {A} (f : A → bool) l : forallb f (reverse l) = forallb f l.
Proof.
  apply eq_true_iff_eq. rewrite !forallb_forall. setoid_rewrite <- list_elem_of_In.
  by setoid_rewrite elem_of_reverse.
Qed.

Lemma rfindPathSep_app s c :
  plain_comp c → rfindPathSep (s ++ slash :: c) = Some (length s).
Proof.
  intros [_ H]. unfold rfindPathSep. rewrite reverse_app, reverse_cons, <- app_assoc. simpl.
  rewrite find_idx_app_stop; [|by rewrite forallb_reverse|done].
  simpl. f_equal. rewrite length_app, length_reverse. simpl. lia.
Qed.

Lemma skip_slashes_norm s st :
  foldl norm_step st (split_on is_slash s) = foldl norm_step st (split_on is_slash (skip_slashes s)).
Proof.
  induction s as [|c s IH]; [done|]. cbn [skip_slashes].
  destruct (is_slash c) eqn:E; [|done]. cbn [split_on]. rewrite E. apply IH.
Qed.

Lemma skip_slashes_length s : (length (skip_slashes s) <= length s)%nat.
Proof. induction s as [|c s IH]; simpl; [done|]. destruct (is_slash c); simpl; lia. Qed.

Lemma skip_slashes_head s c t : skip_slashes s = c :: t → is_slash c = false.
Proof.
  induction s as [|d s IH]; simpl; [done|]. destruct (is_slash d) eqn:E; [done|]. naive_solver.
Qed.

(** The first component of a string that does not start with a slash. *)
Lemma first_comp s c t :
  s = c :: t → is_slash c = false →
  ∃ comp rest, it_deref s = comp ∧ plain_comp comp ∧ s = comp ++ rest
    ∧ (rest = [] ∧ findPathSep s = None ∨
       ∃ r, rest = slash :: r ∧ findPathSep s = Some (length comp))
    ∧ ∀ st, foldl norm_step st (split_on is_slash s)
            = foldl norm_step (norm_step st comp) (split_on is_slash rest).
Proof.
  intros -> Hc. unfold it_deref. destruct (findPathSep (c :: t)) as [i|] eqn:E.
  - unfold findPathSep in *. pose proof E as E'.
    apply find_idx_Some in E as (Hi & Hf & d & Hd & Hs).
    exists (take i (c :: t)), (drop i (c :: t)).
    apply bool_decide_eq_true in Hs as ->.
    assert (i ≠ 0%nat) by (intros ->; by simplify_eq/=).
    rewrite (drop_S _ _ _ Hd). split_and!; [done| |..].
    + split; [|done]. destruct i; [done|]. simpl. done.
    + by rewrite <- (drop_S _ _ _ Hd), take_drop.
    + right. eexists. split; [done|]. rewrite length_take_le by lia. done.
    + intros st. rewrite split_on_find, E'. simpl foldl. done.
  - exists (c :: t), []. rewrite app_nil_r. split_and!; [done| |done|by left|].
    + split; [done|]. by apply find_idx_None.
    + intros st. unfold findPathSep in E. rewrite split_on_find, E. done.
Qed.

Lemma norm_step_plain st c : Forall plain_comp st → plain_comp c → Forall plain_comp (norm_step st c).
Proof.
  intros Hst Hc. unfold norm_step. destruct (_ || _); [done|]. destruct (str_eqb c ".."); [|].
  - destruct st as [|x st'] using rev_ind; [done|]. rewrite removelast_last.
    by apply Forall_app in Hst as [? _].
  - apply Forall_app. auto.
Qed.

Lemma erase_last st :
  Forall plain_comp st →
  match body st with
  | [] => body st
  | _ => match rfindPathSep (body st) with Some i => take i (body st) | None => body st end
  end = body (removelast st).
Proof.
  intros Hst. destruct st as [|c st _] using rev_ind; [done|].
  rewrite removelast_last, body_snoc. apply Forall_app in Hst as [_ [Hc _]%Forall_cons].
  rewrite rfindPathSep_app by done.
  rewrite take_app_length. by destruct (body st).
Qed.

(** The position loop computes the normalised component stack. *)
Lemma canon_loop_spec fuel s st :
  (length s < fuel)%nat → Forall plain_comp st →
  canon_loop fuel s (body st) = body (foldl norm_step st (split_on is_slash s)).
Proof.
  revert s st. induction fuel as [|fuel IH]; intros s st Hf Hst; [lia|].
  rewrite skip_slashes_norm. cbn [canon_loop]. pose proof (skip_slashes_length s) as Hlen.
  destruct (skip_slashes s) as [|c t] eqn:E; [done|]. pose proof (skip_slashes_head _ _ _ E) as Hc.
  destruct (first_comp (c :: t) c t eq_refl Hc) as (comp & rest & Hd & Hcomp & Hs & Hrest & Hnorm).
  unfold it_deref in Hd. rewrite Hd. rewrite Hnorm.
  assert (length (c :: t) = length comp + length rest)%nat as Hl by (by rewrite Hs, length_app).
  assert (0 < length comp)%nat by (destruct Hcomp; destruct comp; simpl; [done|lia]).
  assert (drop (length comp) (c :: t) = rest) as Hdrop by (by rewrite Hs, drop_app_length).
  assert (∀ st', Forall plain_comp st' →
    canon_loop fuel rest (body st') = body (foldl norm_step st' (split_on is_slash rest))) as IH'.
  { intros st' Hst'. apply IH; [|done]. simpl in *. lia. }
  unfold norm_step at 2. destruct (str_eqb comp ".") eqn:E1.
  { apply str_eqb_true in E1 as ->. rewrite orb_true_r. simpl in Hdrop. rewrite drop_0 in Hdrop. subst.
    simpl. rewrite drop_0. by apply IH'. }
  assert (str_eqb comp [] = false) as -> by (by apply str_eqb_false; destruct Hcomp).
  cbn [orb]. destruct (str_eqb comp "..") eqn:E2.
  { apply str_eqb_true in E2 as ->. cbn [length] in Hdrop. rewrite Hdrop, erase_last by done.
    apply IH'. destruct st as [|x st _] using rev_ind; [done|]. rewrite removelast_last.
    by apply Forall_app in Hst as [? _]. }
  assert (Forall plain_comp (st ++ [comp])) as Hst' by (apply Forall_app; auto).
  specialize (IH' _ Hst'). rewrite body_snoc in IH'.
  destruct Hrest as [[-> Hfp]|(r & -> & Hfp)]; rewrite Hfp.
  - rewrite app_nil_r in Hs. by rewrite Hs.
  - rewrite Hdrop. rewrite Hs, take_app_length. done.
Qed.

Lemma norm_fold_valid l st :
  Forall (λ c, forallb (λ x, negb (is_slash x)) c = true) l → Forall valid_comp st →
  Forall valid_comp (foldl norm_step st l).
Proof.
  revert st. induction l as [|c l IH]; intros st Hl Hst; [done|].
  apply Forall_cons in Hl as [Hc Hl]. apply IH; [done|]. unfold norm_step.
  destruct (str_eqb c [] || str_eqb c ".") eqn:E; [done|].
  apply orb_false_iff in E as [E1%str_eqb_false E2%str_eqb_false].
  destruct (str_eqb c "..") eqn:E3.
  - destruct st as [|x st _] using rev_ind; [done|]. rewrite removelast_last.
    by apply Forall_app in Hst as [? _].
  - apply str_eqb_false in E3. apply Forall_app. split; [done|]. constructor; [|done]. done.
Qed.

Lemma split_on_pieces p s : Forall (λ c, forallb (λ x, negb (p x)) c = true) (split_on p s).
Proof.
  induction s as [|c s IH]; simpl; [by repeat constructor|].
  destruct (p c) eqn:E; [by constructor|].
  destruct (split_on p s) as [|h t]; [constructor; [simpl; by rewrite E|done]|].
  apply Forall_cons in IH as [Hh Ht]. constructor; [|done]. simpl. by rewrite E.
Qed.

Lemma normalize_valid raw : Forall valid_comp (normalize raw).
Proof. apply norm_fold_valid; [apply split_on_pieces|constructor]. Qed.

Lemma canonPathInner_spec raw :
  raw ≠ [] → canonPathInner raw = Ok (abs (render (normalize raw))).
Proof.
  intros Hne. unfold canonPathInner. rewrite (proj2 (str_eqb_false raw []) Hne). cbn [negb assertR mbind result_bind].
  pose proof (canon_loop_spec (S (length raw)) raw [] ltac:(lia) ltac:(constructor)) as H.
  change (body []) with (@nil ascii) in H. rewrite H. fold (normalize raw).
  rewrite abs_render. destruct (normalize raw); done.
Qed.

Lemma normalize_slash raw : normalize (slash :: raw) = normalize raw.
Proof. done. Qed.

Lemma CanonPath_raw_spec raw : CanonPath_raw raw = Ok (render (normalize raw)).
Proof.
  unfold CanonPath_raw, absPathPure. rewrite canonPathInner_spec by done. simpl. done.
Qed.

(** * The operations on rendered paths *)

Lemma valid_plain cs : Forall valid_comp cs → Forall plain_comp cs.
Proof. intros H. eapply Forall_impl; [exact H|]. by intros c [? _]. Qed.
#[export] Hint Resolve valid_plain normalize_valid : bsd.

Lemma plain_length c : plain_comp c → (0 < length c)%nat.
Proof. intros [Hc _]. destruct c; simpl; [done|lia]. Qed.

Lemma length_body_cons c cs : length (body (c :: cs)) = S (length c + length (body cs)).
Proof. unfold body. simpl. by rewrite length_app. Qed.

Lemma isRoot_render cs : Forall plain_comp cs → isRoot (render cs) = bool_decide (cs = []).
Proof.
  intros H. unfold isRoot. destruct cs as [|c cs]; [done|]. rewrite abs_render, length_body_cons.
  apply Forall_cons in H as [Hc _]. apply plain_length in Hc.
  rewrite bool_decide_false by done. apply Nat.leb_gt. lia.
Qed.

Lemma rel_render cs : rel (render cs) = join "/" cs.
Proof.
  unfold rel. rewrite abs_render. destruct cs as [|c cs]; [done|]. unfold body. simpl.
  rewrite drop_0. revert c. induction cs as [|d cs IH]; intros c; simpl; [by rewrite app_nil_r|].
  f_equal. f_equal. apply IH.
Qed.

Lemma body_join c cs : body (c :: cs) = slash :: join "/" (c :: cs).
Proof. pose proof (rel_render (c :: cs)) as H. unfold rel in H. simpl in H. rewrite drop_0 in H.
  unfold body. simpl map. simpl concat. by rewrite H. Qed.

Lemma plain_head c : plain_comp c → ∃ x t, c = x :: t ∧ is_slash x = false.
Proof.
  intros [Hne Hf]. destruct c as [|x t]; [done|]. exists x, t. split; [done|].
  simpl in Hf. apply andb_prop in Hf as [Hx _]. by apply negb_true_iff.
Qed.

Lemma it_step c cs :
  plain_comp c →
  it_deref (join "/" (c :: cs)) = c ∧ it_next (join "/" (c :: cs)) = join "/" cs
  ∧ ∃ x t, join "/" (c :: cs) = x :: t.
Proof.
  intros Hc. destruct (plain_head c Hc) as (x & t & -> & _).
  unfold it_deref, it_next. destruct cs as [|d cs].
  - simpl join. unfold findPathSep. rewrite plain_no_slash by done. split_and!; [done|done|]. eauto.
  - rewrite join_cons by done.
    change ((x :: t) ++ "/" ++ join "/" (d :: cs)) with ((x :: t) ++ slash :: join "/" (d :: cs)).
    rewrite findPathSep_app by done. rewrite take_app_length.
    replace (length (x :: t) + 1)%nat with (S (length (x :: t))) by lia.
    rewrite drop_app_cons_length. split_and!; [done|done|]. eexists _, _. reflexivity.
Qed.

Lemma length_join_cons c cs : plain_comp c → (length (join "/" cs) < length (join "/" (c :: cs)))%nat.
Proof.
  intros Hc%plain_length. destruct cs as [|d cs]; [simpl; lia|].
  rewrite (join_cons _ c) by done. rewrite !length_app. simpl length. lia.
Qed.

Lemma it_comps_join fuel cs :
  Forall plain_comp cs → (length (join "/" cs) <= fuel)%nat → it_comps fuel (join "/" cs) = cs.
Proof.
  revert fuel. induction cs as [|c cs IH]; intros fuel Hcs Hf; [by destruct fuel|].
  apply Forall_cons in Hcs as [Hc Hcs]. pose proof (length_join_cons c cs Hc).
  destruct (it_step c cs Hc) as (Hd & Hn & x & t & E).
  destruct fuel as [|fuel]; [lia|]. rewrite E in *. simpl. rewrite Hd, Hn. f_equal.
  apply IH; [done|lia].
Qed.

Lemma components_render cs : Forall plain_comp cs → components (render cs) = cs.
Proof. intros H. unfold components. rewrite rel_render. by apply it_comps_join. Qed.

Lemma render_inj cs ds :
  Forall plain_comp cs → Forall plain_comp ds → render cs = render ds → cs = ds.
Proof. intros Hc Hd E. by rewrite <- (components_render cs), E, components_render. Qed.

Lemma push_render cs c :
  Forall plain_comp cs → valid_comp c → push (render cs) c = Ok (render (cs ++ [c])).
Proof.
  intros Hcs [[Hne Hf] [H1 H2]]. unfold push.
  assert (existsb is_slash c = false) as ->.
  { apply not_true_iff_false. intros (x & Hx & Hs)%existsb_exists.
    rewrite forallb_forall in Hf. apply Hf in Hx. by rewrite Hs in Hx. }
  rewrite (proj2 (str_eqb_false _ _) H1), (proj2 (str_eqb_false _ _) H2).
  cbn [negb assertR andb mbind result_bind]. rewrite isRoot_render by done.
  f_equal. unfold render. f_equal. case_bool_decide as E.
  - subst. unfold body. simpl. by rewrite app_nil_r.
  - destruct cs as [|d cs]; [done|]. cbn [app abs]. rewrite app_comm_cons, body_snoc. done.
Qed.

Lemma CanonPath_elems_render cs :
  Forall valid_comp cs → CanonPath_elems cs = Ok (render cs).
Proof.
  intros Hcs. unfold CanonPath_elems. change cp_root with (render []).
  assert (∀ l acc, Forall valid_comp acc → Forall valid_comp l →
    foldR push (render acc) l = Ok (render (acc ++ l))) as H; [|by rewrite H].
  induction l as [|c l IH]; intros acc Hacc Hl; [by rewrite app_nil_r|].
  apply Forall_cons in Hl as [Hc Hl]. cbn [foldR].
  rewrite push_render by auto with bsd. cbn [mbind result_bind].
  rewrite IH; [by rewrite <- app_assoc| |done]. apply Forall_app. auto.
Qed.

Lemma extend_render cs ds :
  Forall plain_comp cs → Forall plain_comp ds → extend (render cs) (render ds) = render (cs ++ ds).
Proof.
  intros Hc Hd. unfold extend. rewrite !isRoot_render by done.
  case_bool_decide as E1; [subst; by rewrite app_nil_r|].
  case_bool_decide as E2.
  - subst. rewrite rel_render. destruct ds as [|d ds]; [done|]. cbn [app].
    unfold render. f_equal. rewrite body_join. done.
  - destruct cs as [|c cs]; [done|]. destruct ds as [|d ds]; [done|].
    unfold render. f_equal. cbn [app abs]. by rewrite app_comm_cons, body_app.
Qed.

Lemma parent_len_render cs c :
  Forall plain_comp cs → plain_comp c →
  take (parent_len (render (cs ++ [c]))) (abs (render (cs ++ [c]))) = abs (render cs).
Proof.
  intros Hcs Hc. assert (abs (render (cs ++ [c])) = body cs ++ slash :: c) as E.
  { rewrite abs_render, <- body_snoc. by destruct cs. }
  unfold parent_len. rewrite E, rfindPathSep_app by done. rewrite abs_render.
  destruct cs as [|d cs]; [done|]. rewrite Nat.max_r.
  - by rewrite take_app_length.
  - rewrite length_body_cons. lia.
Qed.

Lemma pop_render cs c :
  Forall plain_comp cs → plain_comp c → pop (render (cs ++ [c])) = Ok (render cs).
Proof.
  intros Hcs Hc. unfold pop. rewrite isRoot_render by (apply Forall_app; auto).
  rewrite bool_decide_false by (by destruct cs). cbn [negb assertR mbind result_bind].
  by rewrite parent_len_render.
Qed.

Lemma normalize_render cs : Forall valid_comp cs → normalize (abs (render cs)) = cs.
Proof.
  intros Hcs. assert (∀ l st, Forall valid_comp l → foldl norm_step st l = st ++ l) as Hfold.
  { induction l as [|c l IH]; intros st Hl; [by rewrite app_nil_r|].
    apply Forall_cons in Hl as [[[Hne _] [H1 H2]] Hl]. cbn [foldl]. unfold norm_step.
    rewrite !(proj2 (str_eqb_false _ _)) by done. simpl. rewrite IH by done.
    by rewrite <- app_assoc. }
  unfold normalize. rewrite abs_render. destruct cs as [|c cs]; [done|].
  rewrite body_join.
  change (split_on is_slash (slash :: ?x)) with ([] :: split_on is_slash x). cbn [foldl].
  change (norm_step [] []) with (@nil str). rewrite split_on_join; [by rewrite Hfold|done|done|].
  eapply Forall_impl; [exact Hcs|]. by intros x [[_ ?] _].
Qed.

(** ** Containment *)

Lemma split_on_app p s sep r :
  p sep = true → split_on p (s ++ sep :: r) = split_on p s ++ split_on p r.
Proof.
  intros Hs. induction s as [|c s IH]; simpl; [by rewrite Hs|].
  rewrite IH. destruct (p c); [done|].
  pose proof (split_on_nonnil p s). by destruct (split_on p s).
Qed.

Lemma split_on_body cs : Forall plain_comp cs → split_on is_slash (body cs) = [] :: cs.
Proof.
  intros Hcs. destruct cs as [|c cs]; [done|]. rewrite body_join.
  change (split_on is_slash (slash :: ?x)) with ([] :: split_on is_slash x).
  rewrite split_on_join; [done|done|done|]. eapply Forall_impl; [exact Hcs|]. by intros x [_ ?].
Qed.

Lemma body_prefix a b rest :
  Forall plain_comp a → Forall plain_comp b → body a = body b ++ rest →
  (rest = [] ∨ ∃ r, rest = slash :: r) → b `prefix_of` a.
Proof.
  intros Ha Hb E [->|[r ->]].
  - exists []. rewrite app_nil_r in *. apply (f_equal (split_on is_slash)) in E.
    rewrite !split_on_body in E by done. congruence.
  - exists (split_on is_slash r). apply (f_equal (split_on is_slash)) in E.
    rewrite split_on_app, !split_on_body in E by done. simpl in E. congruence.
Qed.

Lemma body_head cs : body cs = [] ∨ ∃ r, body cs = slash :: r.
Proof. destruct cs; [by left|right]. by eexists. Qed.

Lemma abs_cons cs : ∃ r, abs (render cs) = slash :: r.
Proof. destruct cs; by eexists. Qed.

Lemma isWithin_render a b :
  Forall plain_comp a → Forall plain_comp b →
  isWithin (render a) (render b) = true ↔ b `prefix_of` a.
Proof.
  intros Ha Hb. unfold isWithin. rewrite negb_true_iff, !orb_false_iff, negb_false_iff, str_eqb_true.
  rewrite Nat.ltb_ge. destruct b as [|b1 b'].
  { destruct (abs_cons a) as [r ->]. split; [intros _; apply prefix_nil|].
    intros _. split; [split; [simpl; lia|]|done]. simpl. by rewrite firstn_O. }
  set (b := b1 :: b') in *. assert (abs (render b) = body b) as -> by done.
  assert (1 < length (body b))%nat as Hl.
  { subst b. rewrite length_body_cons. apply Forall_cons in Hb as [?%plain_length _]. lia. }
  destruct (decide (a = [])) as [->|Hne].
  { split; [intros [[Hlen _] _]; change (length (abs (render []))) with 1%nat in Hlen; lia|]. by intros ?%prefix_nil_inv. }
  assert (abs (render a) = body a) as -> by (by destruct a).
  rewrite (proj2 (Nat.ltb_lt _ _) Hl), andb_true_l. split.
  - intros [[Hlen Ht] Hn]. pose proof (take_drop (length (body b)) (body a)) as E. rewrite Ht in E.
    generalize dependent (drop (length (body b)) (body a)). intros rest E.
    apply (body_prefix a b rest); [done|done|done|].
    destruct rest as [|c r]; [by left|right]. exists r. rewrite <- E in Hn.
    f_equal. apply andb_false_iff in Hn as [Hn|Hn].
    + rewrite length_app in Hn. simpl in Hn. apply Nat.ltb_ge in Hn. lia.
    + apply negb_false_iff in Hn. rewrite app_nth2 in Hn by lia.
      rewrite Nat.sub_diag in Hn. by apply bool_decide_eq_true in Hn.
  - intros [c ->]. rewrite body_app, length_app, take_app_length. split; [split; [lia|done]|].
    destruct (body_head c) as [->|[r ->]].
    + rewrite app_nil_r. apply andb_false_iff. left. apply Nat.ltb_ge. simpl. lia.
    + apply andb_false_iff. right. rewrite app_nth2, Nat.sub_diag by lia. done.
Qed.

Lemma removePrefix_render b c :
  Forall plain_comp b → Forall plain_comp c →
  removePrefix (render (b ++ c)) (render b) = Ok (render c).
Proof.
  intros Hb Hc. unfold removePrefix.
  assert (isWithin (render (b ++ c)) (render b) = true) as ->.
  { apply isWithin_render; [apply Forall_app; auto|done|by exists c]. }
  cbn [assertR mbind result_bind]. rewrite isRoot_render by done.
  case_bool_decide as E; [by subst|].
  assert (abs (render (b ++ c)) = body b ++ body c) as ->
    by (rewrite <- body_app; by destruct b).
  assert (abs (render b) = body b) as -> by (by destruct b).
  rewrite drop_app_length, length_app. destruct c as [|c1 c'].
  - by rewrite Nat.add_0_r, Nat.eqb_refl.
  - destruct (Nat.eqb_spec (length (body b) + length (body (c1 :: c'))) (length (body b))) as [E'|];
      [|done]. rewrite length_body_cons in E'. lia.
Qed.

(** ** Relative paths *)

Lemma skip_common_join fuel a b :
  Forall plain_comp a → Forall plain_comp b → (length (join "/" a) <= fuel)%nat →
  ∃ c a' b', a = c ++ a' ∧ b = c ++ b' ∧
    skip_common fuel (join "/" a) (join "/" b) = (join "/" a', join "/" b').
Proof.
  revert fuel b. induction a as [|x a IH]; intros fuel b Ha Hb Hf.
  { exists [], [], b. split_and!; [done|done|]. by destruct fuel. }
  destruct b as [|y b].
  { exists [], (x :: a), []. split_and!; [done|done|]. destruct fuel; [done|]. cbn [skip_common].
    by destruct (join "/" (x :: a)). }
  apply Forall_cons in Ha as [Hx Ha]. apply Forall_cons in Hb as [Hy Hb].
  pose proof (length_join_cons x a Hx).
  destruct (it_step x a Hx) as (Hd1 & Hn1 & x1 & t1 & E1).
  destruct (it_step y b Hy) as (Hd2 & Hn2 & x2 & t2 & E2).
  destruct fuel as [|fuel]; [lia|]. rewrite E1, E2 in *. cbn [skip_common].
  rewrite Hd1, Hd2. destruct (str_eqb x y) eqn:Exy.
  - apply str_eqb_true in Exy as ->. rewrite Hn1, Hn2.
    destruct (IH fuel b) as (c & a' & b' & -> & -> & Hsk); [done|done|lia|].
    exists (y :: c), a', b'. done.
  - exists [], (x :: a), (y :: b). by rewrite E1, E2.
Qed.

Lemma go_up_join fuel a n :
  Forall plain_comp a → (length (join "/" a) <= fuel)%nat →
  go_up fuel (join "/" a) (join "/" (replicate n "..")) = join "/" (replicate (n + length a) "..").
Proof.
  revert fuel n. induction a as [|x a IH]; intros fuel n Ha Hf.
  { rewrite Nat.add_0_r. by destruct fuel. }
  apply Forall_cons in Ha as [Hx Ha]. pose proof (length_join_cons x a Hx).
  destruct (it_step x a Hx) as (_ & Hn & x1 & t1 & E). destruct fuel as [|fuel]; [lia|].
  rewrite E in *. cbn [go_up]. rewrite Hn.
  assert ((match join "/" (replicate n ".."%str) with [] => [] | _ => join "/" (replicate n ".."%str) ++ "/" end)
    ++ ".." = join "/" (replicate (S n) ".."%str)) as ->.
  { clear. rewrite replicate_S_end. destruct n as [|n]; [done|].
    rewrite join_snoc by done. destruct n; [done|]. cbn [replicate].
    rewrite (join_cons _ ".." (".." :: _)) by done.
    generalize (join "/" (".."%str :: replicate n ".."%str)). intros x. simpl.
    by rewrite <- app_assoc. }
  rewrite IH by (done || lia). f_equal. f_equal. simpl. lia.
Qed.

Lemma makeRelative_join a b :
  Forall plain_comp a → Forall plain_comp b →
  ∃ c a' b', a = c ++ a' ∧ b = c ++ b' ∧
    makeRelative (render a) (render b) =
      match a', b' with [], [] => "." | _, _ => join "/" (replicate (length a') ".."%str ++ b') end.
Proof.
  intros Ha Hb. unfold makeRelative. rewrite !rel_render.
  destruct (skip_common_join (length (join "/" a)) a b) as (c & a' & b' & -> & -> & ->);
    [done|done|done|].
  exists c, a', b'. split_and!; [done|done|].
  apply Forall_app in Ha as [_ Ha]. apply Forall_app in Hb as [_ Hb].
  assert (∀ d ds, plain_comp d → ∃ x t, join "/" (d :: ds) = x :: t) as Hne
    by (intros d ds Hd; by destruct (it_step d ds Hd) as (_ & _ & ?)).
  destruct a' as [|a1 a'].
  { destruct b' as [|b1 b']; [done|]. apply Forall_cons in Hb as [Hb1 _].
    change (join "/" []) with (@nil ascii). cbn [length replicate app].
    destruct (Hne b1 b' Hb1) as (x & t & ->). done. }
  pose proof (go_up_join (length (join "/" (a1 :: a'))) (a1 :: a') 0 Ha ltac:(done)) as Hup.
  change (join "/" (replicate 0 ".."%str)) with (@nil ascii) in Hup. rewrite Hup. cbn [Nat.add].
  apply Forall_cons in Ha as [Ha1 _]. destruct (Hne a1 a' Ha1) as (x & t & ->).
  destruct b' as [|b1 b']; [by rewrite (app_nil_r (replicate _ _))|]. apply Forall_cons in Hb as [Hb1 _].
  destruct (Hne b1 b' Hb1) as (y & u & E). rewrite E, <- E. clear E Hup Hne.
  generalize (length (a1 :: a')) (eq_refl : length (a1 :: a') = S (length a')). intros n Hn. subst n.
  generalize (length a'). intros n. clear. induction n as [|n IH]; [done|].
  change (replicate (S (S n)) ".."%str) with (".."%str :: replicate (S n) ".."%str).
  change ((".."%str :: ?l) ++ ?m) with (".."%str :: (l ++ m)).
  rewrite (join_cons _ ".." (replicate (S n) _ ++ _)) by done. rewrite <- IH.
  rewrite (join_cons _ ".." (replicate (S n) _)) by done.
  cbn [replicate]. destruct n; [done|]. cbn [replicate].
  rewrite (join_cons _ ".." (".." :: _)) by done.
  generalize (join "/" (".."%str :: replicate n ".."%str)). intros z. simpl. by rewrite <- !app_assoc.
Qed.

Lemma norm_up c a n : n = length a → foldl norm_step (c ++ a) (replicate n "..") = c.
Proof.
  intros ->. induction a as [|x a IH] using rev_ind; [by rewrite app_nil_r|].
  rewrite length_app, Nat.add_comm. cbn [length Nat.add replicate foldl].
  change (norm_step (c ++ a ++ [x]) "..") with (removelast (c ++ a ++ [x])).
  by rewrite app_assoc, removelast_last.
Qed.

Lemma norm_push st cs : Forall valid_comp cs → foldl norm_step st cs = st ++ cs.
Proof.
  revert st. induction cs as [|c cs IH]; intros st Hcs; [by rewrite app_nil_r|].
  apply Forall_cons in Hcs as [[[Hne _] [H1 H2]] Hcs]. cbn [foldl]. unfold norm_step at 2.
  rewrite !(proj2 (str_eqb_false _ _)) by done. cbn [orb]. rewrite IH by done. by rewrite <- app_assoc.
Qed.

Lemma CanonPath_raw_root_render raw cs :
  Forall valid_comp cs → (∀ c s, raw = c :: s → is_slash c = false) →
  CanonPath_raw_root raw (render cs) = Ok (render (foldl norm_step cs (split_on is_slash raw))).
Proof.
  intros Hcs Hraw. unfold CanonPath_raw_root, absPathPure.
  assert (∀ b : bool, canonPathInner (abs (render cs) ++ "/" ++ raw) =
    Ok (abs (render (foldl norm_step cs (split_on is_slash raw))))) as H.
  { intros _. rewrite canonPathInner_spec by (destruct (abs_cons cs) as [r ->]; done).
    do 3 f_equal. unfold normalize.
    change (abs (render cs) ++ "/" ++ raw) with (abs (render cs) ++ slash :: raw).
    rewrite split_on_app, foldl_app by done. f_equal. by apply normalize_render. }
  destruct raw as [|c s]; [by rewrite (H true)|]. rewrite (Hraw c s eq_refl). by rewrite (H true).
Qed.

(** ** Access checks *)

(** Characters on which the order behaves as its comment says. *)
Definition ok_char (signed : bool) (c : ascii) : Prop :=
  byte_val c ≠ 0 ∧ (signed = true → byte_val c < 128).
Definition ok_path (signed : bool) (p : CanonPath) : Prop := Forall (ok_char signed) (abs p).

Lemma sort_val_ok signed c :
  ok_char signed c → 0 ≤ sort_val signed c ∧ (sort_val signed c = 0 ↔ c = slash).
Proof.
  intros [Hz Hs]. pose proof (byte_val_bound c). unfold sort_val, is_slash, char_val.
  case_bool_decide; [done|].
  destruct (signed && (128 <=? byte_val c)) eqn:E.
  - apply andb_prop in E as [-> E%Z.leb_le]. specialize (Hs eq_refl). lia.
  - split; [lia|]. split; [lia|done].
Qed.

Lemma sort_val_inj signed c d :
  ok_char signed c → ok_char signed d → sort_val signed c = sort_val signed d → c = d.
Proof.
  intros Hc Hd E. destruct (sort_val_ok _ _ Hc) as [Hc0 Hc1], (sort_val_ok _ _ Hd) as [Hd0 Hd1].
  destruct (decide (c = slash)) as [->|Hcs].
  { symmetry. apply Hd1. rewrite <- E. by apply Hc1. }
  assert (d ≠ slash) as Hds by (intros ->; apply Hcs, Hc1; rewrite E; by apply Hd1).
  unfold sort_val, is_slash in E. rewrite !bool_decide_false in E by done.
  apply byte_val_inj. pose proof (byte_val_bound c); pose proof (byte_val_bound d).
  unfold char_val in E. destruct signed; simpl in E; [|done].
  destruct Hc as [_ Hc], Hd as [_ Hd]. specialize (Hc eq_refl); specialize (Hd eq_refl).
  destruct (128 <=? byte_val c) eqn:?, (128 <=? byte_val d) eqn:?; lia.
Qed.

Section path_order.
Context (signed : bool).
Let okl (s : str) := Forall (ok_char signed) s.

Lemma path_compare_eq s t : okl s → okl t → path_compare signed s t = Eq → s = t.
Proof.
  unfold okl. revert t. induction s as [|c s IH]; intros [|d t] Hs Ht; simpl; try done.
  apply Forall_cons in Hs as [Hc Hs]; apply Forall_cons in Ht as [Hd Ht].
  destruct (Z.compare_spec (sort_val signed c) (sort_val signed d)) as [E| |]; try done.
  intros. f_equal; [by eapply sort_val_inj|by apply IH].
Qed.

Lemma path_compare_refl s : path_compare signed s s = Eq.
Proof. induction s as [|c s IH]; simpl; [done|]. by rewrite Z.compare_refl. Qed.

Lemma path_compare_antisym s t : path_compare signed t s = CompOpp (path_compare signed s t).
Proof.
  revert t. induction s as [|c s IH]; intros [|d t]; simpl; try done.
  rewrite (Z.compare_antisym (sort_val signed c)).
  destruct (sort_val signed c ?= sort_val signed d); simpl; auto.
Qed.

(** Between a directory and one of its descendants there are only
    descendants of that directory. *)
Lemma path_between p e r :
  okl p → okl e → okl r →
  path_compare signed e p ≠ Lt → path_compare signed e (p ++ slash :: r) ≠ Gt →
  e = p ∨ ∃ r', e = p ++ slash :: r'.
Proof.
  unfold okl. revert e. induction p as [|c p IH]; intros e Hp He Hr; simpl.
  - destruct e as [|d e]; [by left|]. simpl. intros _ H. right. exists e.
    apply Forall_cons in He as [Hd _]. destruct (sort_val_ok _ _ Hd) as [Hd0 Hd1].
    f_equal. apply Hd1. change (sort_val signed slash) with 0 in H.
    destruct (Z.compare_spec (sort_val signed d) 0); [done|lia|done].
  - destruct e as [|d e]; simpl; [done|]. intros H1 H2.
    apply Forall_cons in He as [Hd He]; apply Forall_cons in Hp as [Hc Hp].
    destruct (Z.compare_spec (sort_val signed d) (sort_val signed c)) as [E| |]; try done.
    apply sort_val_inj in E as ->; [|done|done].
    destruct (IH e Hp He Hr H1 H2) as [->|[r' ->]]; [by left|right]. by exists r'.
Qed.
End path_order.

Definition cp_sorted (signed : bool) (allowed : list CanonPath) : Prop :=
  StronglySorted (λ p q, cp_ltb signed p q = true) allowed.

Lemma cp_ltb_irrefl signed p : cp_ltb signed p p = false.
Proof. unfold cp_ltb. by rewrite path_compare_refl. Qed.

Lemma lower_bound_Some signed allowed x e :
  cp_sorted signed allowed → lower_bound signed allowed x = Some e →
  e ∈ allowed ∧ cp_ltb signed e x = false ∧
  ∀ q, q ∈ allowed → cp_ltb signed q x = false → e = q ∨ cp_ltb signed e q = true.
Proof.
  induction 1 as [|y l Hs IH Hy]; simpl; [done|]. destruct (cp_ltb signed y x) eqn:E.
  - intros H. destruct (IH H) as (Hin & Hx & Hmin). split_and!; [by right|done|].
    intros q [->|Hq]%elem_of_cons Hqx; [congruence|auto].
  - intros ?; simplify_eq. split_and!; [by left|done|].
    intros q [->|Hq]%elem_of_cons Hqx; [by left|right]. rewrite Forall_forall in Hy. auto.
Qed.

Lemma lower_bound_None signed allowed x :
  lower_bound signed allowed x = None → ∀ q, q ∈ allowed → cp_ltb signed q x = true.
Proof.
  induction allowed as [|y l IH]; simpl; [by intros _ q ?%elem_of_nil|].
  destruct (cp_ltb signed y x) eqn:E; [|done]. intros H q [->|Hq]%elem_of_cons; auto.
Qed.

Lemma set_count_spec signed allowed x :
  Forall (ok_path signed) allowed → ok_path signed x →
  set_count signed allowed x = true ↔ x ∈ allowed.
Proof.
  intros Hok Hx. unfold set_count. rewrite existsb_exists. split.
  - intros (e & He & H). apply list_elem_of_In in He. rewrite Forall_forall in Hok.
    apply andb_prop in H as [H1%negb_true_iff H2%negb_true_iff]. unfold cp_ltb in H1, H2.
    rewrite path_compare_antisym in H2.
    destruct (path_compare signed (abs e) (abs x)) eqn:E; try done.
    apply path_compare_eq in E; [|by apply Hok|done]. destruct e, x; simpl in *; by subst.
  - intros Hin. exists x. split; [by apply list_elem_of_In|]. by rewrite cp_ltb_irrefl.
Qed.

(** Absolute paths made of components with acceptable characters. *)
Definition ok_comps (signed : bool) (cs : list str) : Prop :=
  Forall valid_comp cs ∧ Forall (Forall (ok_char signed)) cs.

Lemma ok_render signed cs : ok_comps signed cs → ok_path signed (render cs).
Proof.
  intros [_ H]. unfold ok_path. assert (ok_char signed slash) by (split; [done|]; by intros _).
  rewrite abs_render. destruct cs as [|c cs]; [by constructor|]. unfold body.
  apply Forall_concat. apply Forall_fmap. eapply Forall_impl; [exact H|].
  intros x Hx. simpl. by constructor.
Qed.

Lemma parent_allowed_spec signed fuel allowed cs :
  Forall (ok_path signed) allowed → ok_comps signed cs → (length cs <= fuel)%nat →
  parent_allowed fuel signed allowed (render cs) = true ↔
  ∃ ds, ds `prefix_of` cs ∧ ds ≠ cs ∧ render ds ∈ allowed.
Proof.
  intros Hal. revert cs. induction fuel as [|fuel IH]; intros cs Hcs Hf.
  { destruct cs; [|simpl in *; lia]. simpl. split; [done|].
    intros (ds & Hp & Hne & _). by apply prefix_nil_inv in Hp. }
  cbn [parent_allowed]. destruct Hcs as [Hv Hc]. rewrite isRoot_render by auto with bsd.
  destruct cs as [|c cs _] using rev_ind.
  { rewrite bool_decide_true by done. split; [done|].
    intros (ds & Hp & Hne & _). by apply prefix_nil_inv in Hp. }
  rewrite bool_decide_false by (by destruct cs).
  apply Forall_app in Hv as [Hv [[Hvc _] _]%Forall_cons]. apply Forall_app in Hc as [Hc _].
  rewrite pop_render by auto with bsd.
  assert (ok_comps signed cs) as Hcs by done. rewrite length_app in Hf. simpl in Hf.
  destruct (set_count signed allowed (render cs)) eqn:E.
  - apply set_count_spec in E; [|done|by apply ok_render]. split; [|done]. intros _.
    exists cs. split_and!; [by exists [c]| |done]. intros H%(f_equal length).
    rewrite length_app in H. simpl in H. lia.
  - rewrite IH by (done || lia). split.
    + intros (ds & Hp & Hne & Hin). exists ds. split_and!; [by apply prefix_app_r| |done].
      intros ->. apply prefix_length in Hp. rewrite length_app in Hp. simpl in Hp. lia.
    + intros (ds & Hp & Hne & Hin). exists ds. split; [|split; [|done]].
      * destruct Hp as [k Hk]. destruct k as [|x k _] using rev_ind; [by rewrite app_nil_r in Hk|].
        rewrite app_assoc in Hk. apply app_inj_tail in Hk as [-> _]. by exists k.
      * intros ->. apply not_true_iff_false in E. apply E. apply set_count_spec; [done|by apply ok_render|done].
Qed.

Lemma path_compare_app signed s x :
  path_compare signed (s ++ x) s = match x with [] => Eq | _ => Gt end.
Proof. induction s as [|c s IH]; simpl; [by destruct x|]. by rewrite Z.compare_refl. Qed.

(** A descendant is never before its ancestor, and it extends the string. *)
Lemma descendant_after signed cs k :
  Forall plain_comp cs → cs ++ k ≠ cs →
  cp_ltb signed (render (cs ++ k)) (render cs) = false
  ∧ (cs ≠ [] → ∃ r, abs (render (cs ++ k)) = abs (render cs) ++ slash :: r).
Proof.
  intros Hcs Hne.
  assert (∃ x, abs (render (cs ++ k)) = abs (render cs) ++ x
    ∧ (cs ≠ [] → ∃ r, x = slash :: r)) as (x & E & Hx).
  { destruct cs as [|c cs].
    - destruct k as [|d k]; [done|]. exists (join "/" (d :: k)). split; [|done].
      simpl app. rewrite abs_render, body_join. done.
    - exists (body k). split; [|intros _].
      + rewrite !abs_render. change ((c :: cs) ++ k) with (c :: (cs ++ k)).
        cbn iota. by rewrite app_comm_cons, body_app.
      + destruct (body_head k) as [Hb|?]; [|done]. apply body_nil in Hb as ->.
        by rewrite app_nil_r in Hne. }
  rewrite E. split.
  - unfold cp_ltb. rewrite E, path_compare_app. by destruct x.
  - intros Hcs'. destruct (Hx Hcs') as [r ->]. by exists r.
Qed.

Lemma between_within signed cs k es :
  ok_comps signed cs → ok_comps signed (cs ++ k) → ok_comps signed es → cs ++ k ≠ cs →
  cp_ltb signed (render es) (render cs) = false →
  (render es = render (cs ++ k) ∨ cp_ltb signed (render es) (render (cs ++ k)) = true) →
  isWithin (render es) (render cs) = true.
Proof.
  intros Hcs Hck Hes Hne Hge Hle.
  assert (Forall plain_comp cs) as Hp by (destruct Hcs; auto with bsd).
  assert (Forall plain_comp es) as Hpe by (destruct Hes; auto with bsd).
  apply isWithin_render; [done|done|].
  destruct (decide (cs = [])) as [->|Hcs0]; [apply prefix_nil|].
  destruct (descendant_after signed cs k Hp Hne) as [_ Hext]. destruct (Hext Hcs0) as [r Er].
  pose proof (ok_render signed (cs ++ k) Hck) as Hokq. unfold ok_path in Hokq. rewrite Er in Hokq.
  apply Forall_app in Hokq as [_ [_ Hokr]%Forall_cons].
  destruct (path_between signed (abs (render cs)) (abs (render es)) r) as [E|[r' E]].
  - by apply ok_render.
  - by apply ok_render.
  - done.
  - unfold cp_ltb in Hge. by destruct (path_compare _ _ _).
  - rewrite <- Er. destruct Hle as [<-|Hle]; [by rewrite path_compare_refl|].
    unfold cp_ltb in Hle. by destruct (path_compare _ _ _).
  - exists []. rewrite app_nil_r. apply render_inj; [done|done|].
    destruct (render es), (render cs). simpl in E. by subst.
  - assert (es ≠ []) by (intros ->; destruct (abs_cons cs) as [? Ha]; rewrite Ha in E;
      destruct cs; [done|]; simpl in E; simplify_eq; by destruct x).
    apply (body_prefix es cs (slash :: r')); [done|done| |by eauto].
    rewrite !abs_render in E. destruct es, cs; done.
Qed.

(** * Properties *)

(** Canonicalisation establishes the class invariant and is
    idempotent: every raw string gives the rendering of valid components
    (its components with empty and [.] entries dropped and [..] entries
    cancelling their predecessor), iterating over it yields those
    components, and canonicalising the result changes nothing. *)
Theorem canonicalise_spec raw :
  ∃ p, CanonPath_raw raw = Ok p ∧ cp_wf p ∧ components p = normalize raw
       ∧ CanonPath_raw (abs p) = Ok p.
Proof.
  exists (render (normalize raw)). rewrite CanonPath_raw_spec.
  pose proof (normalize_valid raw) as Hv. split_and!; [done|by eexists| |].
  - apply components_render. auto with bsd.
  - by rewrite CanonPath_raw_spec, normalize_render.
Qed.

(** The documented contract of [makeRelative]: resolving the relative
    path it returns against the starting directory gives the target. *)
Theorem makeRelative_roundtrip p path :
  cp_wf p → cp_wf path → CanonPath_raw_root (makeRelative p path) p = Ok path.
Proof.
  intros (a & Ha & ->) (b & Hb & ->).
  destruct (makeRelative_join a b) as (c & a' & b' & -> & -> & ->); [auto with bsd..|].
  apply Forall_app in Ha as Hca; destruct Hca as [Hc Ha']. apply Forall_app in Hb as [_ Hb'].
  destruct (decide (a' = [] ∧ b' = [])) as [[-> ->]|Hne].
  { rewrite CanonPath_raw_root_render; [done|done|naive_solver]. }
  set (cs := replicate (length a') ".."%str ++ b').
  assert (match a', b' with [], [] => "." | _, _ => join "/" cs end = join "/" cs) as ->
    by (destruct a', b'; naive_solver).
  assert (Forall plain_comp cs) as Hp.
  { apply Forall_app. split; [by apply Forall_replicate|auto with bsd]. }
  assert (cs ≠ []) as Hcs by (subst cs; destruct a', b'; naive_solver).
  rewrite CanonPath_raw_root_render; [|done|].
  - rewrite split_on_join; [|done|done|eapply Forall_impl; [exact Hp|by intros x [_ ?]]].
    subst cs. rewrite foldl_app, norm_up by done. by rewrite norm_push.
  - intros x s E. destruct cs as [|d ds]; [done|]. apply Forall_cons in Hp as [Hd _].
    destruct (plain_head d Hd) as (y & t & -> & Hy). destruct ds; simpl in E; by simplify_eq.
Qed.

Lemma makeRelative_roundtrip_witness :
  CanonPath_raw_root (makeRelative (render ["a"; "b"]) (render ["a"; "c"; "d"])) (render ["a"; "b"])
  = Ok (render ["a"; "c"; "d"]%str).
Proof.
  apply makeRelative_roundtrip;
    [exists ["a"; "b"]%str | exists ["a"; "c"; "d"]%str];
    (split; [apply (bool_decide_unpack _); vm_compute; exact I | reflexivity]).
Defined.

(** The algebra of canonical paths on component lists: pushing a valid
    component appends it and [pop] removes it, [extend] concatenates,
    [isWithin] is exactly the prefix relation, and [removePrefix] undoes
    [extend]. *)
Theorem canon_path_algebra cs ds c :
  Forall valid_comp cs → Forall valid_comp ds → valid_comp c →
  push (render cs) c = Ok (render (cs ++ [c]))
  ∧ pop (render (cs ++ [c])) = Ok (render cs)
  ∧ extend (render cs) (render ds) = render (cs ++ ds)
  ∧ (isWithin (render ds) (render cs) = true ↔ cs `prefix_of` ds)
  ∧ removePrefix (extend (render cs) (render ds)) (render cs) = Ok (render ds).
Proof.
  intros Hc%valid_plain Hd%valid_plain Hv. split_and!.
  - by apply push_render.
  - apply pop_render; [done|]. by destruct Hv.
  - by apply extend_render.
  - by apply isWithin_render.
  - rewrite extend_render by done. by apply removePrefix_render.
Qed.

Lemma canon_path_algebra_witness :
  removePrefix (extend (render ["a"%str]) (render ["b"%str])) (render ["a"%str])
  = Ok (render ["b"%str]).
Proof.
  apply (canon_path_algebra ["a"%str] ["b"%str] "c"%str);
    apply (bool_decide_unpack _); vm_compute; exact I.
Defined.

(** [isAllowed] decides the documented access rule (the path is within
    an allowed path, or an allowed path is within it) for a correctly sorted
    set of paths whose characters are not NUL and, where [char] is signed,
    are ASCII. *)
Theorem isAllowed_spec signed cs (allowed : list (list str)) :
  ok_comps signed cs → Forall (ok_comps signed) allowed →
  cp_sorted signed (map render allowed) →
  isAllowed signed (render cs) (map render allowed) = true ↔
  ∃ q, q ∈ map render allowed ∧
    (isWithin (render cs) q = true ∨ isWithin q (render cs) = true).
Proof.
  intros Hcs Hal Hsorted.
  assert (Forall (ok_path signed) (map render allowed)) as Hok.
  { apply Forall_fmap. eapply Forall_impl; [exact Hal|]. intros x. apply ok_render. }
  assert (∀ q, q ∈ map render allowed → ∃ ds, q = render ds ∧ ok_comps signed ds) as Hq.
  { intros q (ds & -> & Hds)%list_elem_of_fmap. rewrite Forall_forall in Hal. eauto. }
  assert (Forall plain_comp cs) as Hp by (destruct Hcs; auto with bsd).
  pose proof (parent_allowed_spec signed (length (abs (render cs))) _ cs Hok Hcs) as Hpar.
  assert (length cs <= length (abs (render cs)))%nat as Hlen.
  { clear -Hp. rewrite abs_render. destruct cs as [|c cs]; [simpl; lia|].
    generalize (c :: cs). intros l. induction l as [|x l IH]; [simpl; lia|].
    rewrite length_body_cons. simpl. lia. }
  specialize (Hpar Hlen). unfold isAllowed. split.
  - destruct (lower_bound _ _ _) as [e|] eqn:E.
    + apply lower_bound_Some in E as (He & _ & _); [|done].
      destruct (isWithin e (render cs)) eqn:Ew; [intros _; eauto|].
      intros (ds & Hpre & _ & Hin)%Hpar. exists (render ds). split; [done|left].
      destruct (Hq _ Hin) as (ds' & Eds & [Hds' _]). rewrite Eds. apply isWithin_render; [done|auto with bsd|].
      replace ds' with ds; [done|]. apply render_inj; [|auto with bsd|done].
      destruct Hpre as [k ->]. by apply Forall_app in Hp as [? _].
    + intros (ds & Hpre & _ & Hin)%Hpar. exists (render ds). split; [done|left].
      apply isWithin_render; [done| |done]. destruct Hpre as [k ->]. by apply Forall_app in Hp as [? _].
  - intros (q & Hin & Hw). destruct (Hq q Hin) as (ds & -> & [Hds Hdc]).
    assert (Forall plain_comp ds) as Hpd by auto with bsd.
    rewrite !isWithin_render in Hw by done.
    destruct (decide (ds = cs)) as [->|Hne]; [|destruct Hw as [Hw|Hw]].
    + destruct (lower_bound _ _ _) as [e|] eqn:E.
      * apply lower_bound_Some in E as (He & Hex & Hmin); [|done].
        destruct (Hmin _ Hin (cp_ltb_irrefl _ _)) as [->|]; [|congruence].
        by rewrite (proj2 (isWithin_render cs cs Hp Hp)).
      * apply (lower_bound_None _ _ _ E) in Hin. by rewrite cp_ltb_irrefl in Hin.
    + rewrite (proj2 Hpar) by eauto. destruct (lower_bound _ _ _); [|done]. by destruct (isWithin _ _).
    + destruct Hw as [k ->].
      destruct (descendant_after signed cs k) as [Hge _]; [done|done|].
      destruct (lower_bound _ _ _) as [e|] eqn:E.
      * apply lower_bound_Some in E as (He & Hex & Hmin); [|done].
        destruct (Hq e He) as (es & -> & Hes).
        rewrite (between_within signed cs k es) by (done || by apply Hmin). done.
      * apply (lower_bound_None _ _ _ E) in Hin. congruence.
Qed.

Lemma isAllowed_spec_witness :
  isAllowed true (render ["foo"%str]) (map render [["bar"%str]; ["foo"; "x"]%str]) = true ↔
  ∃ q, q ∈ map render [["bar"%str]; ["foo"; "x"]%str] ∧
    (isWithin (render ["foo"%str]) q = true ∨ isWithin q (render ["foo"%str]) = true).
Proof.
  apply (isAllowed_spec true ["foo"%str] [["bar"%str]; ["foo"; "x"]%str]).
  - split; [apply (bool_decide_unpack _); vm_compute; exact I|].
    repeat constructor; vm_compute; try discriminate; reflexivity.
  - repeat (constructor; [split; [apply (bool_decide_unpack _); vm_compute; exact I|];
      repeat constructor; vm_compute; try discriminate; reflexivity|]). constructor.
  - repeat constructor.
Defined.

(** With a signed [char], the separator is not sorted before bytes
    above 127, and [isAllowed] then refuses a directory that contains an
    allowed path: with the (correctly sorted) allowed set
    [/foo<0xC3>, /foo/bar], access to [/foo] is denied. *)
Theorem isAllowed_signed_char_counterexample :
  ∃ p q allowed, cp_wf p ∧ Forall cp_wf allowed ∧ cp_sorted true allowed ∧ q ∈ allowed
    ∧ isWithin q p = true ∧ isAllowed true p allowed = false
    ∧ isAllowed false p (reverse allowed) = true.
Proof.
  set (u := ("foo" ++ [ascii_of_nat 195])%str).
  exists (render ["foo"%str]), (render ["foo"; "bar"]%str), [render [u]; render ["foo"; "bar"]%str].
  assert (∀ cs, bool_decide (Forall valid_comp cs) = true → cp_wf (render cs)) as Hwf
    by (intros cs H; exists cs; split; [by apply bool_decide_eq_true in H|done]).
  split_and!; try (by vm_compute).
  - by apply Hwf.
  - repeat constructor; by apply Hwf.
  - repeat constructor.
  - set_solver.
Qed.

(** [push] does not enforce the class invariant: its asserts accept the
    empty component, which appends a trailing slash to a non-root path. *)
Theorem push_empty_breaks_invariant :
  ∃ p p', cp_wf p ∧ push p [] = Ok p' ∧ ¬ cp_wf p'.
Proof.
  exists (render ["a"%str]), (MkCanonPath "/a/"). split_and!; [|done|].
  - exists ["a"%str]. split; [apply (bool_decide_unpack _); vm_compute; exact I|done].
  - intros (cs & Hcs & E). pose proof (normalize_render cs Hcs) as Hn. rewrite <- E in Hn.
    change (normalize _) with ["a"%str] in Hn. subst cs. discriminate E.
Qed.
