(* ===== verification/Serialise.v ===== *)
(** The wire format: [libutil/serialise.{hh,cc}].

    [Source] is the interface of the abstract class of the same name (a
    [read] that may return fewer bytes than asked); [SourceOk] is what a
    source promises its clients, stated by the byte stream it denotes. All
    readers are generic in the source and proved against that promise;
    in-memory strings, framed sources and buffered sources discharge it. *)

From S2P Require Import Prelude Strings.

Lemma take_min_length {A} n (l : list A) : take n l = take (Nat.min n (length l)) l.
Proof. revert n. induction l as [|x l IH]; intros [|n]; cbn; [done..|]. by rewrite IH. Qed.

(** * Sources *)

Class Source (S : Type) := { src_read : nat → S → result (str * S) }.

Class SourceOk (S : Type) `{Source S} := {
  denotes : S → str → Prop;
  read_some s d n :
    denotes s d → d ≠ [] → (0 < n)%nat →
    ∃ k s', (0 < k <= n)%nat ∧ (k <= length d)%nat ∧
      src_read n s = Ok (take k d, s') ∧ denotes s' (drop k d);
  read_eof s n :
    denotes s [] → (0 < n)%nat →
    (∃ m, src_read n s = Throw (EndOfFile m)) ∨
    ∃ s' m, src_read n s = Ok ([], s') ∧ src_read n s' = Throw (EndOfFile m);
}.

(** [Source::operator () (char *, size_t)]: read until [len] bytes arrived.
    A well-behaved source needs at most [len + 1] calls. *)
Fixpoint src_call_loop {S} `{Source S} (fuel len : nat) (acc : str) (s : S)
    : result (str * S) :=
  match len with
  | O => Ok (acc, s)
  | _ =>
      match fuel with
      | O => Throw NonTermination
      | Datatypes.S fuel =>
          '(b, s) ← src_read len s;
          src_call_loop fuel (len - length b) (acc ++ b) s
      end
  end.
Definition src_call {S} `{Source S} (len : nat) (s : S) : result (str * S) :=
  src_call_loop (Datatypes.S len) len [] s.

(** * Writers *)

(** [operator << (Sink &, uint64_t)]: eight bytes, least significant first. *)
Definition writeNum (n : Z) : str :=
  map (λ i, byte_of (Z.land (Z.shiftr n (8 * Z.of_nat i)) 255)) (seq 0 8).

Definition writePadding (len : nat) : str :=
  if (len mod 8 =? 0)%nat then [] else replicate (8 - len mod 8) NUL.

Definition writeString (data : str) : str :=
  writeNum (Z.of_nat (length data)) ++ data ++ writePadding (length data).

Definition writeStrings (ss : list str) : str :=
  writeNum (Z.of_nat (length ss)) ++ concat (map writeString ss).

(** * Readers *)

Definition size_max : Z := 2 ^ 64 - 1.
Definition uint_max : Z := 2 ^ 32 - 1.

(** [readLittleEndian<uint64_t>]. *)
Definition readLittleEndian (p : str) : Z :=
  foldl (λ x (ib : nat * ascii), Z.lor x (u64 (Z.shiftl (byte_val ib.2) (8 * Z.of_nat ib.1))))
    0 (zip (seq 0 8) p).

Section readers.
Context {S : Type} `{Source S}.

(** [readNum<T>]; [max] is [std::numeric_limits<T>::max()]. *)
Definition readNum (max : Z) (s : S) : result (Z * S) :=
  '(buf, s) ← src_call 8 s;
  let n := readLittleEndian buf in
  if max <? n then Throw (SerialisationError "serialised integer is too large for type")
  else Ok (n, s).

Definition readInt (s : S) : result (Z * S) := readNum uint_max s.
Definition readLongLong (s : S) : result (Z * S) := readNum size_max s.

Definition readPadding (len : nat) (s : S) : result (unit * S) :=
  if (len mod 8 =? 0)%nat then Ok (tt, s)
  else
    '(zero, s) ← src_call (8 - len mod 8) s;
    if forallb (λ c, bool_decide (c = NUL)) zero then Ok (tt, s)
    else Throw (SerialisationError "non-zero padding").

(** [std::string readString(Source &, size_t max)]; allocating the result does
    not fail. *)
Definition readString (max : Z) (s : S) : result (str * S) :=
  '(len, s) ← readNum size_max s;
  if max <? len then Throw (SerialisationError "string is too long")
  else
    '(res, s) ← src_call (Z.to_nat len) s;
    '(_, s) ← readPadding (Z.to_nat len) s;
    Ok (res, s).

Fixpoint readStrings_loop (count : nat) (s : S) : result (list str * S) :=
  match count with
  | O => Ok ([], s)
  | Datatypes.S count =>
      '(x, s) ← readString size_max s;
      '(ss, s) ← readStrings_loop count s;
      Ok (x :: ss, s)
  end.
(** [readStrings<Strings>]. *)
Definition readStrings (s : S) : result (list str * S) :=
  '(count, s) ← readNum size_max s; readStrings_loop (Z.to_nat count) s.
End readers.

(** * In-memory source *)

(** [StringSource]: a view and the position of the next byte. *)
Record StringSource := { ss_s : str; ss_pos : nat }.
Definition StringSource_new (s : str) : StringSource := {| ss_s := s; ss_pos := 0 |}.

(** [StringSource::read]; [string_view::copy] throws past the end. *)
Definition StringSource_read (len : nat) (s : StringSource) : result (str * StringSource) :=
  if (ss_pos s =? length (ss_s s))%nat then Throw (EndOfFile "end of string reached")
  else if (length (ss_s s) <? ss_pos s)%nat then Throw (Error "basic_string_view::copy")
  else
    let b := take len (drop (ss_pos s) (ss_s s)) in
    Ok (b, {| ss_s := ss_s s; ss_pos := ss_pos s + length b |}).
#[export] Instance StringSource_source : Source StringSource := {| src_read := StringSource_read |}.

#[export] Program Instance StringSource_ok : SourceOk StringSource := {|
  denotes := λ s d, (ss_pos s <= length (ss_s s))%nat ∧ d = drop (ss_pos s) (ss_s s)
|}.
Next Obligation.
  intros [s p] d n [Hp ->] Hne Hn. cbn [ss_s ss_pos] in *.
  assert (p < length s)%nat.
  { destruct (decide (p < length s)%nat); [done|]. destruct Hne. apply drop_ge. lia. }
  set (k := Nat.min n (length s - p)).
  assert (Hk : length (take n (drop p s)) = k) by (rewrite length_take, length_drop; lia).
  exists k, {| ss_s := s; ss_pos := p + k |}. cbn [src_read StringSource_source ss_s ss_pos].
  rewrite length_drop. split_and!; [lia..| |lia|by rewrite drop_drop].
  unfold StringSource_read. cbn [ss_s ss_pos].
  rewrite (proj2 (Nat.eqb_neq _ _)), (proj2 (Nat.ltb_ge _ _)) by lia.
  cbn zeta. rewrite Hk. do 2 f_equal.
  unfold k. rewrite <- length_drop. apply take_min_length.
Qed.
Next Obligation.
  intros [s p] n [Hp Hd] Hn. left. exists "end of string reached"%str.
  cbn [src_read StringSource_source ss_s ss_pos] in *. unfold StringSource_read. cbn [ss_s ss_pos].
  apply (f_equal length) in Hd. rewrite length_drop in Hd. cbn [length] in Hd.
  by rewrite (proj2 (Nat.eqb_eq _ _)) by lia.
Qed.

(** * Reading against the interface *)

(** [r] reads the value [a] from the bytes [w], whatever follows them. *)
Definition parses {S A} `{SourceOk S} (r : S → result (A * S)) (w : str) (a : A) : Prop :=
  ∀ s d, denotes s (w ++ d) → ∃ s', r s = Ok (a, s') ∧ denotes s' d.

Section parses.
Context {S : Type} `{SourceOk S}.

Lemma src_call_loop_ok fuel len acc s w d :
  denotes s (w ++ d) → length w = len → (len < fuel)%nat →
  ∃ s', src_call_loop fuel len acc s = Ok (acc ++ w, s') ∧ denotes s' d.
Proof.
  revert len acc s w. induction fuel as [|fuel IH]; intros len acc s w Hs Hl Hf; [lia|].
  destruct len as [|len].
  { destruct w; [|done]. exists s. rewrite app_nil_r. done. }
  cbn [src_call_loop].
  destruct (read_some s (w ++ d) (Datatypes.S len)) as (k & s' & Hk & Hkd & E & Hs');
    [done|by destruct w|lia|].
  rewrite E. cbn [mbind result_bind].
  rewrite take_app_le in * by lia. rewrite drop_app_le in Hs' by lia.
  destruct (IH (Datatypes.S len - length (take k w))%nat (acc ++ take k w) s' (drop k w))
    as (s2 & E2 & Hs2); [done|rewrite length_drop, length_take; lia|rewrite length_take; lia|].
  exists s2. split; [|done]. rewrite E2, <- app_assoc, take_drop. done.
Qed.

Lemma src_call_parses w : parses (src_call (length w)) w w.
Proof.
  intros s d Hs. unfold src_call.
  destruct (src_call_loop_ok (Datatypes.S (length w)) (length w) [] s w d) as (s' & E & ?);
    [done|done|lia|]. by exists s'.
Qed.

Lemma src_call_parses' n w : n = length w → parses (src_call n) w w.
Proof. intros ->. apply src_call_parses. Qed.

Lemma parses_ret {A} (a : A) : parses (λ s, Ok (a, s)) [] a.
Proof. intros s d Hs. by exists s. Qed.

Lemma parses_bind {A B} (r : S → result (A * S)) (k : A → S → result (B * S)) w1 w2 a b :
  parses r w1 a → parses (k a) w2 b → parses (λ s, '(x, s) ← r s; k x s) (w1 ++ w2) b.
Proof.
  intros H1 H2 s d Hs. rewrite <- app_assoc in Hs.
  destruct (H1 s _ Hs) as (s1 & E1 & Hs1). destruct (H2 s1 _ Hs1) as (s2 & E2 & Hs2).
  exists s2. rewrite E1. cbn [mbind result_bind]. done.
Qed.

Lemma parses_ext {A} (r r' : S → result (A * S)) w a :
  (∀ s, r' s = r s) → parses r w a → parses r' w a.
Proof. intros He Hr s d Hs. rewrite He. by apply Hr. Qed.
End parses.

(** Truncated input ends in [EndOfFile], never in a short result. *)
Section truncated.
Context {S : Type} `{SourceOk S}.
Lemma src_call_loop_eof fuel len acc s d :
  denotes s d → (length d < len)%nat → (length d + 2 <= fuel)%nat →
  ∃ m, src_call_loop fuel len acc s = Throw (EndOfFile m).
Proof.
  revert len acc s d. induction fuel as [|fuel IH]; intros len acc s d Hs Hl Hf; [lia|].
  destruct len as [|len]; [lia|]. cbn [src_call_loop].
  destruct (decide (d = [])) as [->|Hne].
  - destruct (read_eof s (Datatypes.S len) Hs) as [[m E]|(s' & m & E & E')]; [lia|..].
    + exists m. by rewrite E.
    + rewrite E. cbn [mbind result_bind length]. destruct fuel; [cbn in Hf; lia|].
      exists m. cbn [src_call_loop]. rewrite Nat.sub_0_r, E'. done.
  - destruct (read_some s d (Datatypes.S len) Hs Hne) as (k & s' & Hk & Hkd & E & Hs'); [lia|].
    rewrite E. cbn [mbind result_bind]. rewrite length_take, Nat.min_l by lia.
    eapply IH; [exact Hs'|rewrite length_drop; lia..].
Qed.

Lemma src_call_eof len s d :
  denotes s d → (length d < len)%nat → ∃ m, src_call len s = Throw (EndOfFile m).
Proof. intros. eapply src_call_loop_eof; [done..|lia]. Qed.
End truncated.

(** * Numbers, padding, strings *)

Lemma length_writeNum n : length (writeNum n) = 8%nat.
Proof. done. Qed.

(** One byte extends a little-endian prefix. *)
Lemma lor_byte n i :
  0 ≤ i ≤ 7 →
  Z.lor (n mod 2 ^ (8 * i))
    (u64 (Z.shiftl (byte_val (byte_of (Z.land (Z.shiftr n (8 * i)) 255))) (8 * i)))
  = n mod 2 ^ (8 * (i + 1)).
Proof.
  intros Hi. rewrite byte_val_of. unfold u64. change 256 with (2 ^ 8). change 255 with (Z.ones 8).
  rewrite Z.land_ones, Z.mod_mod by lia. apply Z.bits_inj'. intros k Hk.
  rewrite Z.lor_spec, !Z.testbit_mod_pow2, Z.shiftl_spec by lia.
  destruct (Z.ltb_spec k (8 * i)).
  - rewrite (Z.testbit_neg_r _ (k - 8 * i)) by lia.
    rewrite (proj2 (Z.ltb_lt k (8 * (i + 1)))) by lia. rewrite andb_false_r. apply orb_false_r.
  - rewrite Z.testbit_mod_pow2, Z.shiftr_spec by lia. rewrite Z.sub_add. cbn [andb orb].
    destruct (Z.ltb_spec k (8 * (i + 1))).
    + rewrite (proj2 (Z.ltb_lt k 64)), (proj2 (Z.ltb_lt (k - 8 * i) 8)) by lia. done.
    + rewrite (proj2 (Z.ltb_ge (k - 8 * i) 8)) by lia. apply andb_false_r.
Qed.

Lemma readLittleEndian_writeNum n : 0 ≤ n < 2 ^ 64 → readLittleEndian (writeNum n) = n.
Proof.
  intros Hn. unfold readLittleEndian, writeNum.
  cbn [seq map zip zip_with foldl fst snd].
  rewrite <- (Z.mod_1_r n) at 1. change 1 with (2 ^ (8 * Z.of_nat 0)) at 1.
  rewrite !(lor_byte n) by lia. apply Z.mod_small. done.
Qed.

(** What fits in a [size_t]. *)
Definition str_fits (s : str) : Prop := Z.of_nat (length s) < 2 ^ 64.
#[export] Instance str_fits_dec s : Decision (str_fits s).
Proof. unfold str_fits. apply _. Defined.

Section values.
Context {S : Type} `{SourceOk S}.

Lemma readNum_parses max n :
  0 ≤ n ≤ max → max < 2 ^ 64 → parses (readNum max) (writeNum n) n.
Proof.
  intros Hn Hm. rewrite <- (app_nil_r (writeNum n)). eapply (parses_bind (src_call 8)).
  { by apply src_call_parses'. }
  cbn beta. rewrite readLittleEndian_writeNum by lia.
  rewrite (proj2 (Z.ltb_ge max n)) by lia. apply parses_ret.
Qed.

(** A number too large for the type asked for is an error, not truncated. *)
Lemma readNum_too_large max n s d :
  max < n < 2 ^ 64 → 0 ≤ n → denotes s (writeNum n ++ d) →
  readNum max s = Throw (SerialisationError "serialised integer is too large for type").
Proof.
  intros Hn Hn0 Hs. unfold readNum.
  destruct (src_call_parses' 8 (writeNum n) eq_refl s d Hs) as (s' & -> & _).
  cbn [mbind result_bind]. rewrite readLittleEndian_writeNum by lia.
  by rewrite (proj2 (Z.ltb_lt max n)) by lia.
Qed.

Lemma readInt_parses n : 0 ≤ n < 2 ^ 32 → parses readInt (writeNum n) n.
Proof. intros. apply readNum_parses; unfold uint_max; lia. Qed.

Lemma readPadding_parses len : parses (readPadding len) (writePadding len) tt.
Proof.
  unfold readPadding, writePadding. destruct (len mod 8 =? 0)%nat; [apply parses_ret|].
  rewrite <- (app_nil_r (replicate _ _)). eapply (parses_bind (src_call (8 - len mod 8))).
  { apply src_call_parses'. by rewrite length_replicate. }
  cbn beta. replace (forallb _ _) with true; [apply parses_ret|].
  symmetry. apply forallb_forall. intros c Hc. apply list_elem_of_In, elem_of_replicate in Hc.
  apply bool_decide_eq_true. tauto.
Qed.

Lemma readString_parses max x :
  Z.of_nat (length x) ≤ max → max < 2 ^ 64 → parses (readString max) (writeString x) x.
Proof.
  intros Hx Hm. unfold writeString.
  eapply (parses_bind (readNum size_max)); [apply readNum_parses; unfold size_max; lia|].
  cbn beta. rewrite (proj2 (Z.ltb_ge _ _)) by lia. rewrite Nat2Z.id.
  eapply (parses_bind (src_call (length x))); [apply src_call_parses|]. cbn beta.
  rewrite <- (app_nil_r (writePadding _)).
  eapply (parses_bind (readPadding (length x))); [apply readPadding_parses|apply parses_ret].
Qed.

Lemma readString_parses' x : str_fits x → parses (readString size_max) (writeString x) x.
Proof. intros Hx. apply readString_parses; unfold str_fits, size_max in *; lia. Qed.

(** A list of values, each read by the same reader. *)
Lemma readStrings_loop_parses ss :
  Forall str_fits ss → parses (readStrings_loop (length ss)) (concat (map writeString ss)) ss.
Proof.
  induction 1 as [|x ss Hx _ IH]; [apply parses_ret|]. cbn [map concat length].
  eapply (parses_bind (readString size_max)); [by apply readString_parses'|]. cbn beta.
  rewrite <- (app_nil_r (concat _)).
  eapply (parses_bind (readStrings_loop _)); [exact IH|apply parses_ret].
Qed.

Lemma readStrings_parses ss :
  Forall str_fits ss → Z.of_nat (length ss) < 2 ^ 64 → parses readStrings (writeStrings ss) ss.
Proof.
  intros Hss Hl. eapply (parses_bind (readNum size_max)).
  { apply readNum_parses; unfold size_max; lia. }
  cbn beta. rewrite Nat2Z.id. by apply readStrings_loop_parses.
Qed.
End values.

(** * Errors on the wire *)

(** [ErrorInfo] as far as it is serialised: positions are dropped. *)
Record ErrorInfo := { ei_level : Z; ei_msg : str; ei_traces : list str }.

(** [operator << (Sink &, const Error &)]. *)
Definition writeError (info : ErrorInfo) : str :=
  writeString "Error" ++ writeNum (ei_level info) ++ writeString "Error" ++
  writeString (ei_msg info) ++ writeNum 0 ++ writeNum (Z.of_nat (length (ei_traces info))) ++
  concat (map (λ t, writeNum 0 ++ writeString t) (ei_traces info)).

Section readError.
Context {S : Type} `{Source S}.
Fixpoint readTraces (n : nat) (s : S) : result (list str * S) :=
  match n with
  | O => Ok ([], s)
  | Datatypes.S n =>
      '(havePos, s) ← readNum size_max s;
      _ ← assertR (havePos =? 0);
      '(t, s) ← readString size_max s;
      '(ts, s) ← readTraces n s;
      Ok (t :: ts, s)
  end.
Definition readError (s : S) : result (ErrorInfo * S) :=
  '(type, s) ← readString size_max s;
  _ ← assertR (str_eqb type "Error");
  '(level, s) ← readInt s;
  '(_, s) ← readString size_max s;
  '(msg, s) ← readString size_max s;
  '(havePos, s) ← readNum size_max s;
  _ ← assertR (havePos =? 0);
  '(nrTraces, s) ← readNum size_max s;
  '(traces, s) ← readTraces (Z.to_nat nrTraces) s;
  Ok ({| ei_level := level; ei_msg := msg; ei_traces := traces |}, s).
End readError.

Section readError_proofs.
Context {S : Type} `{SourceOk S}.

Lemma parses_assert {A} (b : bool) (r : S → result (A * S)) w a :
  b = true → parses r w a → parses (λ s, _ ← assertR b; r s) w a.
Proof. intros -> Hr. exact Hr. Qed.

(** The last reader of a chain that only repackages its value. *)
Lemma parses_bind_ret {A B} (r : S → result (A * S)) (k : A → S → result (B * S)) w a b :
  parses r w a → (∀ s, k a s = Ok (b, s)) → parses (λ s, '(x, s) ← r s; k x s) w b.
Proof.
  intros Hr Hk. rewrite <- (app_nil_r w). eapply parses_bind; [exact Hr|].
  intros s d Hs. rewrite Hk. by exists s.
Qed.

Lemma readTraces_parses ts :
  Forall str_fits ts →
  parses (readTraces (length ts)) (concat (map (λ t, writeNum 0 ++ writeString t) ts)) ts.
Proof.
  induction 1 as [|t ts Ht _ IH]; [apply parses_ret|]. cbn [map concat length].
  rewrite <- app_assoc. eapply (parses_bind (readNum size_max)); [by apply readNum_parses|].
  cbn beta. apply parses_assert; [done|].
  eapply (parses_bind (readString size_max)); [by apply readString_parses'|]. cbn beta.
  by eapply (parses_bind_ret (readTraces _)).
Qed.

Lemma readError_parses info :
  0 ≤ ei_level info < 2 ^ 32 → str_fits (ei_msg info) → Forall str_fits (ei_traces info) →
  Z.of_nat (length (ei_traces info)) < 2 ^ 64 →
  parses readError (writeError info) info.
Proof.
  intros Hl Hm Ht Hn. unfold writeError.
  eapply (parses_bind (readString size_max)); [by apply readString_parses'|]. cbn beta.
  apply parses_assert; [done|].
  eapply (parses_bind readInt); [by apply readInt_parses|]. cbn beta.
  eapply (parses_bind (readString size_max)); [by apply readString_parses'|]. cbn beta.
  eapply (parses_bind (readString size_max)); [by apply readString_parses'|]. cbn beta.
  eapply (parses_bind (readNum size_max)); [by apply readNum_parses|]. cbn beta.
  apply parses_assert; [done|].
  eapply (parses_bind (readNum size_max)); [apply readNum_parses; unfold size_max; lia|]. cbn beta.
  rewrite Nat2Z.id. eapply (parses_bind_ret (readTraces _)); [by apply readTraces_parses|].
  intros s. by destruct info.
Qed.
End readError_proofs.

(** * Sinks *)

Class Sink (K : Type) := { snk_write : str → K → result K }.

(** A sink that keeps everything written to it, in order. *)
Class SinkOk (K : Type) `{Sink K} := {
  written : K → str;
  write_ok d k : ∃ k', snk_write d k = Ok k' ∧ written k' = written k ++ d;
}.

(** [StringSink]. *)
Definition StringSink := str.
Definition StringSink_write (data : str) (s : StringSink) : StringSink := s ++ data.
#[export] Instance StringSink_sink : Sink StringSink :=
  {| snk_write := λ d s, Ok (StringSink_write d s) |}.
#[export] Program Instance StringSink_ok : SinkOk StringSink := {| written := λ s, s |}.
Next Obligation. intros d k. by exists (k ++ d). Qed.

(** [TeeSink] and [LengthSink]. *)
Definition TeeSink_write {K1 K2} `{Sink K1, Sink K2} (data : str) (k : K1 * K2) : result (K1 * K2) :=
  k1 ← snk_write data k.1; k2 ← snk_write data k.2; Ok (k1, k2).
#[export] Instance TeeSink_sink {K1 K2} `{Sink K1, Sink K2} : Sink (K1 * K2) :=
  {| snk_write := TeeSink_write |}.
#[export] Program Instance TeeSink_ok {K1 K2} `{SinkOk K1, SinkOk K2} : SinkOk (K1 * K2) :=
  {| written := λ k, written k.1 |}.
Next Obligation.
  intros K1 K2 ???? d [k1 k2]. cbn [snk_write TeeSink_sink TeeSink_write fst snd]. unfold TeeSink_write.
  destruct (write_ok d k1) as (k1' & E1 & W1). destruct (write_ok d k2) as (k2' & E2 & W2).
  cbn [fst snd]. rewrite E1, E2. by exists (k1', k2').
Qed.

Definition LengthSink_write (data : str) (length0 : Z) : Z := u64 (length0 + Z.of_nat (length data)).

(** [BufferedSink]: [bs_buf] is [buffer[0 .. bufPos)]; the unbuffered writer
    is the sink underneath. *)
Section BufferedSink.
Context {K : Type} (writeUnbuffered : str → K → result K).

Record BufferedSink := { bs_bufSize : nat; bs_buf : str; bs_to : K }.

Definition BufferedSink_flush (b : BufferedSink) : result BufferedSink :=
  if (length (bs_buf b) =? 0)%nat then Ok b
  else
    k ← writeUnbuffered (bs_buf b) (bs_to b);
    Ok {| bs_bufSize := bs_bufSize b; bs_buf := []; bs_to := k |}.

Fixpoint BufferedSink_loop (fuel : nat) (data : str) (b : BufferedSink) : result BufferedSink :=
  match data with
  | [] => Ok b
  | _ =>
      match fuel with
      | O => Throw NonTermination
      | Datatypes.S fuel =>
          let bufPos := length (bs_buf b) in
          if (bs_bufSize b <=? bufPos + length data)%nat then
            b ← BufferedSink_flush b;
            k ← writeUnbuffered data (bs_to b);
            Ok {| bs_bufSize := bs_bufSize b; bs_buf := bs_buf b; bs_to := k |}
          else
            let n := if (bs_bufSize b <? bufPos + length data)%nat
                     then (bs_bufSize b - bufPos)%nat else length data in
            let b := {| bs_bufSize := bs_bufSize b; bs_buf := bs_buf b ++ take n data; bs_to := bs_to b |} in
            b ← (if (length (bs_buf b) =? bs_bufSize b)%nat then BufferedSink_flush b else Ok b);
            BufferedSink_loop fuel (drop n data) b
      end
  end.
Definition BufferedSink_write (data : str) (b : BufferedSink) : result BufferedSink :=
  BufferedSink_loop (length data) data b.
End BufferedSink.
Arguments BufferedSink : clear implicits.

Section BufferedSink_proofs.
Context {K : Type} (wu : str → K → result K).

(** The loop runs at most once: either the data bypasses the buffer, or it
    fits in it. *)
Lemma BufferedSink_write_eq data b :
  BufferedSink_write wu data b =
  match data with
  | [] => Ok b
  | _ =>
      if (bs_bufSize b <=? length (bs_buf b) + length data)%nat then
        b ← BufferedSink_flush wu b;
        k ← wu data (bs_to b);
        Ok {| bs_bufSize := bs_bufSize b; bs_buf := bs_buf b; bs_to := k |}
      else
        Ok {| bs_bufSize := bs_bufSize b; bs_buf := bs_buf b ++ data; bs_to := bs_to b |}
  end.
Proof.
  unfold BufferedSink_write. destruct data as [|c data]; [done|].
  remember (c :: data) as dt eqn:Edt. replace (length dt) with (Datatypes.S (length data)) by (by subst).
  cbn [BufferedSink_loop]. rewrite Edt at 1. cbv zeta.
  replace (Datatypes.S (length data)) with (length dt) by (by subst).
  destruct (Nat.leb_spec (bs_bufSize b) (length (bs_buf b) + length dt)); [done|].
  rewrite (proj2 (Nat.ltb_ge _ _)) by lia. cbn [bs_buf bs_bufSize].
  rewrite take_ge, drop_ge by lia.
  rewrite (proj2 (Nat.eqb_neq _ _)) by (rewrite length_app; lia). cbn [mbind result_bind].
  by destruct (length data).
Qed.
End BufferedSink_proofs.

(** A buffered sink is transparent: once flushed, the sink below has
    received exactly the bytes written, in order, and the buffer never
    holds [bufSize] bytes. *)
Section BufferedSink_transparent.
Context {K : Type} `{SinkOk K}.

Definition buffered_wf (b : BufferedSink K) : Prop := (length (bs_buf b) < bs_bufSize b)%nat.
Definition buffered_content (b : BufferedSink K) : str := written (bs_to b) ++ bs_buf b.

Lemma BufferedSink_flush_ok b :
  buffered_wf b →
  ∃ b', BufferedSink_flush snk_write b = Ok b' ∧ written (bs_to b') = buffered_content b ∧
    bs_buf b' = [] ∧ bs_bufSize b' = bs_bufSize b.
Proof.
  intros Hwf. unfold BufferedSink_flush, buffered_content. destruct (Nat.eqb_spec (length (bs_buf b)) 0) as [E|E].
  - apply length_zero_iff_nil in E. exists b. by rewrite E, app_nil_r.
  - destruct (write_ok (bs_buf b) (bs_to b)) as (k & -> & Hk). cbn [mbind result_bind]. eauto.
Qed.

Lemma BufferedSink_write_ok data b :
  buffered_wf b →
  ∃ b', BufferedSink_write snk_write data b = Ok b' ∧ buffered_wf b' ∧
    buffered_content b' = buffered_content b ++ data ∧ bs_bufSize b' = bs_bufSize b.
Proof.
  intros Hwf. rewrite BufferedSink_write_eq. destruct data as [|c data].
  { exists b. by rewrite app_nil_r. }
  case_match eqn:Hb; apply Nat.leb_le in Hb || apply Nat.leb_gt in Hb.
  - destruct (BufferedSink_flush_ok b Hwf) as (b1 & -> & Hw & Hb1 & Hs). cbn [mbind result_bind].
    destruct (write_ok (c :: data) (bs_to b1)) as (k & -> & Hk). cbn [mbind result_bind].
    eexists. split; [done|]. unfold buffered_wf, buffered_content in *. cbn [bs_buf bs_bufSize bs_to].
    rewrite Hb1, app_nil_r, Hk, Hw. cbn [length]. split_and!; [lia|done|done].
  - eexists. split; [done|]. unfold buffered_wf, buffered_content. cbn [bs_buf bs_bufSize bs_to].
    rewrite app_assoc, length_app. split_and!; [lia|done|done].
Qed.

#[export] Instance BufferedSink_sink : Sink (BufferedSink K) :=
  {| snk_write := BufferedSink_write snk_write |}.
End BufferedSink_transparent.

(** * Framing *)

(** [FramedSink]: a buffered sink whose unbuffered writer emits one frame into
    the buffered sink [to]. [checkError] may observe that sink and throws to
    end the stream. *)
Section FramedSink.
Context {K : Type} `{Sink K} (checkError : BufferedSink K → result unit).
Definition FramedSink := BufferedSink (BufferedSink K).

Definition FramedSink_writeUnbuffered (data : str) (to : BufferedSink K) : result (BufferedSink K) :=
  _ ← checkError to;
  to ← BufferedSink_write snk_write (writeNum (Z.of_nat (length data))) to;
  BufferedSink_write snk_write data to.

Definition FramedSink_write : str → FramedSink → result FramedSink :=
  BufferedSink_write FramedSink_writeUnbuffered.
Definition FramedSink_flush : FramedSink → result FramedSink :=
  BufferedSink_flush FramedSink_writeUnbuffered.

(** [~FramedSink]: terminate the stream; the frame buffer is not flushed. *)
Definition FramedSink_destroy (s : FramedSink) : result (BufferedSink K) :=
  to ← BufferedSink_write snk_write (writeNum 0) (bs_to s);
  BufferedSink_flush snk_write to.

(** The use of a framed sink: write, flush, destroy. *)
Definition FramedSink_session (chunks : list str) (s : FramedSink) : result (BufferedSink K) :=
  s ← foldR (λ s c, FramedSink_write c s) s chunks;
  s ← FramedSink_flush s;
  FramedSink_destroy s.
End FramedSink.
Arguments FramedSink : clear implicits.

(** The frames on the wire, and what makes them readable. *)
Definition frame_enc (f : str) : str := writeNum (Z.of_nat (length f)) ++ f.
Definition frames_enc (fs : list str) : str := concat (map frame_enc fs).
Definition frame_ok (f : str) : Prop := (0 < length f)%nat ∧ Z.of_nat (length f) < 2 ^ 32.

Lemma frames_enc_app fs gs : frames_enc (fs ++ gs) = frames_enc fs ++ frames_enc gs.
Proof. unfold frames_enc. by rewrite map_app, concat_app. Qed.

Section FramedSink_proofs.
Context {K : Type} `{SinkOk K}.
Abbreviation noError := (λ _ : BufferedSink K, Ok tt).

(** The sink [s] has sent the frames [fs] after the bytes [c0]; [d] are the
    bytes given to it so far. *)
Definition framed_inv (c0 : str) (fs : list str) (d : str) (s : FramedSink K) : Prop :=
  buffered_wf (bs_to s) ∧ (length (bs_buf s) < bs_bufSize s)%nat ∧
  Z.of_nat (bs_bufSize s) < 2 ^ 32 ∧ Forall frame_ok fs ∧
  buffered_content (bs_to s) = c0 ++ frames_enc fs ∧ d = concat fs ++ bs_buf s.

Lemma FramedSink_frame f to :
  buffered_wf to →
  ∃ to', FramedSink_writeUnbuffered noError f to = Ok to' ∧ buffered_wf to' ∧
    buffered_content to' = buffered_content to ++ frame_enc f.
Proof.
  intros Hwf. unfold FramedSink_writeUnbuffered. cbn [mbind result_bind].
  destruct (BufferedSink_write_ok (writeNum (Z.of_nat (length f))) to Hwf) as (t1 & -> & W1 & C1 & _).
  cbn [mbind result_bind].
  destruct (BufferedSink_write_ok f t1 W1) as (t2 & -> & W2 & C2 & _).
  exists t2. unfold frame_enc. by rewrite app_assoc, <- C1, <- C2.
Qed.

Lemma FramedSink_flush_ok c0 fs d s :
  framed_inv c0 fs d s →
  ∃ s' fs', FramedSink_flush noError s = Ok s' ∧ framed_inv c0 fs' d s' ∧ bs_buf s' = [] ∧
    bs_bufSize s' = bs_bufSize s.
Proof.
  intros (Hwf & Hb & Hs & Hfs & Hc & Hd). unfold FramedSink_flush, BufferedSink_flush.
  destruct (Nat.eqb_spec (length (bs_buf s)) 0) as [E|E].
  { apply length_zero_iff_nil in E. exists s, fs. split_and!; [done| |done|done].
    unfold framed_inv. rewrite E in *. split_and!; auto. }
  destruct (FramedSink_frame (bs_buf s) (bs_to s) Hwf) as (to' & -> & W & C). cbn [mbind result_bind].
  eexists _, (fs ++ [bs_buf s]). split_and!; [done| |done|done].
  unfold framed_inv. cbn [bs_to bs_buf bs_bufSize].
  rewrite frames_enc_app, concat_app, C, Hc, <- app_assoc. cbn [length map concat].
  unfold frames_enc at 3. cbn [map concat]. rewrite !app_nil_r.
  split_and!; [done|lia|done| |done|done].
  apply Forall_app. split; [done|]. apply Forall_singleton. split; lia.
Qed.

Lemma FramedSink_write_ok c0 fs d s c :
  framed_inv c0 fs d s → Z.of_nat (length c) < 2 ^ 32 →
  ∃ s' fs', FramedSink_write noError c s = Ok s' ∧ framed_inv c0 fs' (d ++ c) s'.
Proof.
  intros Hinv Hlen. unfold FramedSink_write. rewrite BufferedSink_write_eq.
  destruct c as [|x c]; [exists s, fs; by rewrite app_nil_r|]. remember (x :: c) as c0' eqn:Ec.
  case_match eqn:Hb; apply Nat.leb_le in Hb || apply Nat.leb_gt in Hb.
  - destruct (FramedSink_flush_ok _ _ _ _ Hinv) as (s1 & fs1 & E1 & Hinv1 & Hbuf & Hsz).
    unfold FramedSink_flush in E1. rewrite E1. cbn [mbind result_bind].
    destruct Hinv1 as (W1 & B1 & S1 & F1 & C1 & D1).
    destruct (FramedSink_frame c0' (bs_to s1) W1) as (to' & -> & W & C). cbn [mbind result_bind].
    eexists _, (fs1 ++ [c0']). split; [done|]. unfold framed_inv. cbn [bs_to bs_buf bs_bufSize].
    rewrite frames_enc_app, concat_app, C, C1, D1, Hbuf, <- !app_assoc.
    unfold frames_enc at 3. cbn [map concat]. rewrite !app_nil_r. rewrite Hbuf in B1.
    split_and!; [done|done|done| |done|done].
    apply Forall_app. split; [done|]. apply Forall_singleton. split; [|lia]. subst c0'; cbn; lia.
  - destruct Hinv as (Hwf & Hb' & Hs & Hfs & Hc & ->). exists {| bs_bufSize := bs_bufSize s; bs_buf := bs_buf s ++ c0'; bs_to := bs_to s |}, fs.
    split; [done|]. unfold framed_inv. cbn [bs_to bs_buf bs_bufSize].
    rewrite length_app, <- app_assoc. split_and!; auto; lia.
Qed.

Lemma FramedSink_writes_ok chunks c0 fs d s :
  framed_inv c0 fs d s → Forall (λ c, Z.of_nat (length c) < 2 ^ 32) chunks →
  ∃ s' fs', foldR (λ s c, FramedSink_write noError c s) s chunks = Ok s' ∧
    framed_inv c0 fs' (d ++ concat chunks) s'.
Proof.
  intros Hinv Hch. revert d s fs Hinv. induction Hch as [|c chunks Hc _ IH]; intros d s fs Hinv.
  { exists s, fs. by rewrite app_nil_r. }
  destruct (FramedSink_write_ok _ _ _ _ c Hinv Hc) as (s1 & fs1 & E & Hinv1).
  cbn [foldR]. rewrite E. cbn [mbind result_bind concat].
  destruct (IH _ _ _ Hinv1) as (s2 & fs2 & E2 & Hinv2). exists s2, fs2. split; [done|].
  by rewrite app_assoc.
Qed.

(** A whole session puts non-empty frames with the right content on the wire,
    then the terminator, and leaves nothing in the buffer of [to]. *)
Lemma FramedSink_session_ok chunks s :
  framed_inv (buffered_content (bs_to s)) [] [] s →
  Forall (λ c, Z.of_nat (length c) < 2 ^ 32) chunks →
  ∃ to fs, FramedSink_session noError chunks s = Ok to ∧ Forall frame_ok fs ∧
    concat fs = concat chunks ∧ bs_buf to = [] ∧
    written (bs_to to) = buffered_content (bs_to s) ++ frames_enc fs ++ writeNum 0.
Proof.
  intros Hinv Hch. unfold FramedSink_session.
  destruct (FramedSink_writes_ok chunks _ _ _ _ Hinv Hch) as (s1 & fs1 & -> & Hinv1).
  cbn [mbind result_bind].
  destruct (FramedSink_flush_ok _ _ _ _ Hinv1) as (s2 & fs2 & -> & Hinv2 & Hb & _).
  cbn [mbind result_bind]. destruct Hinv2 as (W & _ & _ & F & C & D). unfold FramedSink_destroy.
  destruct (BufferedSink_write_ok (writeNum 0) (bs_to s2) W) as (t1 & -> & W1 & C1 & _).
  cbn [mbind result_bind].
  destruct (BufferedSink_flush_ok t1 W1) as (t2 & -> & C2 & B2 & _).
  exists t2, fs2. rewrite C2, C1, C, <- app_assoc. rewrite Hb, app_nil_r in D. auto.
Qed.
End FramedSink_proofs.

(** [FramedSource]: [fr_pos] indexes the current frame [fr_pending]. *)
Section FramedSource.
Context {S : Type} `{Source S}.
Record FramedSource := { fr_from : S; fr_eof : bool; fr_pending : str; fr_pos : nat }.
Definition FramedSource_new (from : S) : FramedSource :=
  {| fr_from := from; fr_eof := false; fr_pending := []; fr_pos := 0 |}.

Definition FramedSource_copy (len : nat) (f : FramedSource) : result (str * FramedSource) :=
  let n := Nat.min len (length (fr_pending f) - fr_pos f) in
  Ok (take n (drop (fr_pos f) (fr_pending f)),
      {| fr_from := fr_from f; fr_eof := fr_eof f; fr_pending := fr_pending f; fr_pos := fr_pos f + n |}).

Definition FramedSource_read (len : nat) (f : FramedSource) : result (str * FramedSource) :=
  if fr_eof f then Throw (EndOfFile "reached end of FramedSource")
  else if (length (fr_pending f) <=? fr_pos f)%nat then
    '(l, from) ← readInt (fr_from f);
    if l =? 0 then
      Ok ([], {| fr_from := from; fr_eof := true; fr_pending := fr_pending f; fr_pos := fr_pos f |})
    else
      '(pending, from) ← src_call (Z.to_nat l) from;
      FramedSource_copy len {| fr_from := from; fr_eof := false; fr_pending := pending; fr_pos := 0 |}
  else FramedSource_copy len f.

(** [~FramedSource]: skip to the terminator. *)
Fixpoint FramedSource_skip (fuel : nat) (from : S) : result S :=
  match fuel with
  | O => Throw NonTermination
  | Datatypes.S fuel =>
      '(n, from) ← readInt from;
      if n =? 0 then Ok from
      else '(_, from) ← src_call (Z.to_nat n) from; FramedSource_skip fuel from
  end.
(** The destructor reads up to the terminator. It swallows exceptions, after which
    the position of [from] is not known: [Throw] stands for that. *)
Definition FramedSource_destroy (fuel : nat) (f : FramedSource) : result S :=
  if fr_eof f then Ok (fr_from f) else FramedSource_skip fuel (fr_from f).
End FramedSource.
Arguments FramedSource : clear implicits.

#[export] Instance FramedSource_source {S} `{Source S} : Source (FramedSource S) :=
  {| src_read := FramedSource_read |}.

Section FramedSource_proofs.
Context {S : Type} `{SourceOk S}.

(** The frames [fs] are still to be read, the logical stream is [d] and the
    underlying stream continues with [rest] after the terminator. *)
Definition framed_src (f : FramedSource S) (fs : list str) (d rest : str) : Prop :=
  if fr_eof f then denotes (fr_from f) rest ∧ fs = [] ∧ d = []
  else Forall frame_ok fs ∧ denotes (fr_from f) (frames_enc fs ++ writeNum 0 ++ rest) ∧
    d = drop (fr_pos f) (fr_pending f) ++ concat fs.

Lemma FramedSource_copy_ok f fs d rest n :
  fr_eof f = false → (fr_pos f < length (fr_pending f))%nat → (0 < n)%nat →
  framed_src f fs d rest →
  ∃ k f', (0 < k <= n)%nat ∧ (k <= length d)%nat ∧
    FramedSource_copy n f = Ok (take k d, f') ∧ framed_src f' fs (drop k d) rest.
Proof.
  intros He Hp Hn Hf. unfold framed_src in Hf. rewrite He in Hf. destruct Hf as (Hfs & Hs & ->).
  set (k := Nat.min n (length (fr_pending f) - fr_pos f)).
  assert (k <= length (drop (fr_pos f) (fr_pending f)))%nat by (rewrite length_drop; lia).
  exists k. eexists. rewrite length_app. split_and!; [lia..| |].
  - unfold FramedSource_copy. fold k. rewrite take_app_le by lia. done.
  - unfold framed_src. cbn [fr_eof fr_from fr_pending fr_pos]. rewrite He.
    rewrite drop_app_le, drop_drop by lia. auto.
Qed.

Lemma FramedSource_read_ok f fs d rest n :
  framed_src f fs d rest → d ≠ [] → (0 < n)%nat →
  ∃ k f' fs', (0 < k <= n)%nat ∧ (k <= length d)%nat ∧ (length fs' <= length fs)%nat ∧
    FramedSource_read n f = Ok (take k d, f') ∧ framed_src f' fs' (drop k d) rest.
Proof.
  intros Hf Hd Hn. unfold FramedSource_read. destruct (fr_eof f) eqn:He.
  { unfold framed_src in Hf. rewrite He in Hf. tauto. }
  destruct (Nat.leb_spec (length (fr_pending f)) (fr_pos f)) as [Hp|Hp].
  2: { destruct (FramedSource_copy_ok f fs d rest n) as (k & f' & ? & ? & ?); [done..|]. by exists k, f', fs. }
  unfold framed_src in Hf. rewrite He in Hf. destruct Hf as (Hfs & Hs & ->).
  rewrite drop_ge in * by lia. cbn [app] in *.
  destruct fs as [|fr fs]; [done|]. inversion Hfs as [|?? [Hf1 Hf2] Hfs']; subst.
  unfold frames_enc in Hs. cbn [map concat] in Hs. unfold frame_enc at 1 in Hs. rewrite <- !app_assoc in Hs.
  destruct (readInt_parses (Z.of_nat (length fr)) ltac:(lia) _ _ Hs) as (s1 & E1 & Hs1).
  rewrite E1. cbn [mbind result_bind]. rewrite (proj2 (Z.eqb_neq _ _)) by lia. rewrite Nat2Z.id.
  destruct (src_call_parses fr _ _ Hs1) as (s2 & E2 & Hs2). rewrite E2. cbn [mbind result_bind].
  destruct (FramedSource_copy_ok {| fr_from := s2; fr_eof := false; fr_pending := fr; fr_pos := 0 |}
    fs (fr ++ concat fs) rest n) as (k & f' & ? & ? & ?); [done|cbn; lia|done|by cbn|].
  exists k, f', fs. cbn [length]. auto with lia.
Qed.

Lemma FramedSource_read_eof f fs rest n :
  framed_src f fs [] rest → (0 < n)%nat →
  (FramedSource_read n f = Throw (EndOfFile "reached end of FramedSource") ∧ fr_eof f = true) ∨
  ∃ f', FramedSource_read n f = Ok ([], f') ∧ framed_src f' [] [] rest ∧ fr_eof f' = true.
Proof.
  intros Hf Hn. unfold FramedSource_read. destruct (fr_eof f) eqn:He; [by left|right].
  unfold framed_src in Hf. rewrite He in Hf. destruct Hf as (Hfs & Hs & Hd).
  symmetry in Hd. apply app_eq_nil in Hd as [Hd1 Hd2].
  apply (f_equal length) in Hd1. rewrite length_drop in Hd1. cbn [length] in Hd1.
  rewrite (proj2 (Nat.leb_le _ _)) by lia.
  destruct fs as [|fr fs].
  2: { inversion Hfs as [|?? [Hf1 _] _]; subst. cbn in Hd2. apply app_eq_nil in Hd2 as [-> _]. cbn in Hf1. lia. }
  destruct (readInt_parses 0 ltac:(lia) _ _ Hs) as (s1 & -> & Hs1).
  cbn [mbind result_bind Z.eqb]. by eexists.
Qed.

(** What a framed source promises, given the rest of the underlying stream
    and a bound on the number of frames left. *)
Program Definition FramedSource_ok (N : nat) (rest : str) : SourceOk (FramedSource S) := {|
  denotes := λ f d, ∃ fs, (length fs <= N)%nat ∧ framed_src f fs d rest
|}.
Next Obligation.
  intros N rest f d n (fs & HN & Hf) Hd Hn.
  destruct (FramedSource_read_ok f fs d rest n Hf Hd Hn) as (k & f' & fs' & ? & ? & ? & ? & ?).
  exists k, f'. split_and!; try done; try lia. exists fs'. split; [lia|done].
Qed.
Next Obligation.
  intros N rest f n (fs & _ & Hf) Hn.
  destruct (FramedSource_read_eof f fs rest n Hf Hn) as [[E _]|(f' & E & _ & He)]; [left; eauto|right].
  exists f', "reached end of FramedSource"%str. split; [done|].
  cbn [src_read FramedSource_source]. unfold FramedSource_read. by rewrite He.
Qed.

(** Destroying a framed source, however much of it was read, leaves the
    underlying stream right after the terminator. *)
Lemma FramedSource_skip_ok fs rest from :
  Forall frame_ok fs → denotes from (frames_enc fs ++ writeNum 0 ++ rest) →
  ∀ fuel, (length fs < fuel)%nat →
  ∃ from', FramedSource_skip fuel from = Ok from' ∧ denotes from' rest.
Proof.
  intros Hfs. revert from. induction Hfs as [|fr fs [Hf1 Hf2] _ IH]; intros from Hs [|fuel] Hfuel; try lia.
  - destruct (readInt_parses 0 ltac:(lia) _ _ Hs) as (s1 & E1 & Hs1).
    exists s1. cbn [FramedSource_skip]. rewrite E1. done.
  - unfold frames_enc in Hs. cbn [map concat] in Hs. unfold frame_enc at 1 in Hs. rewrite <- !app_assoc in Hs.
    destruct (readInt_parses (Z.of_nat (length fr)) ltac:(lia) _ _ Hs) as (s1 & E1 & Hs1).
    destruct (src_call_parses fr _ _ Hs1) as (s2 & E2 & Hs2).
    destruct (IH s2 Hs2 fuel ltac:(cbn in Hfuel; lia)) as (s3 & E3 & Hs3).
    exists s3. cbn [FramedSource_skip]. rewrite E1. cbn [mbind result_bind].
    rewrite (proj2 (Z.eqb_neq _ _)), Nat2Z.id by lia. rewrite E2. done.
Qed.

Lemma FramedSource_destroy_ok f fs d rest fuel :
  framed_src f fs d rest → (length fs < fuel)%nat →
  ∃ from, FramedSource_destroy fuel f = Ok from ∧ denotes from rest.
Proof.
  unfold framed_src, FramedSource_destroy. destruct (fr_eof f).
  - intros (Hs & _) _. by exists (fr_from f).
  - intros (Hfs & Hs & _) Hfuel. by eapply FramedSource_skip_ok.
Qed.
End FramedSource_proofs.

Lemma frames_enc_count fs : (length fs <= length (frames_enc fs))%nat.
Proof.
  induction fs as [|f fs IH]; [cbn; lia|].
  unfold frames_enc in *. cbn [map concat length]. rewrite length_app. unfold frame_enc at 1.
  rewrite length_app, length_writeNum. lia.
Qed.

(** [C12] Framed transport. Any sequence of writes to a [FramedSink] (each
    below 4 GiB, as the frame length is read back as a 32-bit integer),
    flushed and destroyed, succeeds. A [FramedSource] over any source that
    carries the bytes so sent, followed by [rest], then delivers exactly the
    data written: reading the first [n] bytes gives the first [n] bytes, one
    read past the end is an end-of-file, and destroying the source after any
    such [n] leaves the underlying stream exactly at [rest], even when the
    logical stream was only partly consumed. *)
Theorem framed_transport {K S} `{SinkOk K, SourceOk S} (chunks : list str) (snk : FramedSink K) :
  buffered_wf (bs_to snk) → bs_buf snk = [] → (0 < bs_bufSize snk)%nat →
  Z.of_nat (bs_bufSize snk) < 2 ^ 32 → Forall (λ c, Z.of_nat (length c) < 2 ^ 32) chunks →
  ∃ to wire,
    FramedSink_session (λ _, Ok tt) chunks snk = Ok to ∧ bs_buf to = [] ∧
    written (bs_to to) = buffered_content (bs_to snk) ++ wire ∧
    ∀ (src : S) rest, denotes src (wire ++ rest) →
      (∀ n, (n <= length (concat chunks))%nat →
        ∃ f from, src_call n (FramedSource_new src) = Ok (take n (concat chunks), f) ∧
          FramedSource_destroy (length wire) f = Ok from ∧ denotes from rest) ∧
      (∀ n, (length (concat chunks) < n)%nat →
        ∃ m, src_call n (FramedSource_new src) = Throw (EndOfFile m)).
Proof.
  intros Hto Hbuf Hpos Hsz Hch.
  destruct (FramedSink_session_ok chunks snk) as (to & fs & E & Hfs & Hcat & Hb & Hw); [|done|].
  { unfold framed_inv. rewrite Hbuf. cbn [length concat frames_enc map app]. unfold frames_enc.
    cbn [map concat]. rewrite app_nil_r. auto 10. }
  exists to, (frames_enc fs ++ writeNum 0). split_and!; [done..|].
  intros src rest Hsrc. rewrite <- app_assoc in Hsrc.
  assert (Hd : @denotes _ _ (FramedSource_ok (length fs) rest) (FramedSource_new src) (concat chunks)).
  { exists fs. split; [lia|]. unfold framed_src. cbn. by rewrite Hcat. }
  split; intros n Hn.
  - rewrite <- (take_drop n (concat chunks)) in Hd.
    destruct (@src_call_parses' _ _ (FramedSource_ok (length fs) rest) n (take n (concat chunks)))
      with (2 := Hd) as (f & Ef & fs' & Hl & Hf); [rewrite length_take; lia|].
    destruct (FramedSource_destroy_ok f fs' _ rest (length (frames_enc fs ++ writeNum 0)) Hf)
      as (from & Efrom & Hfrom).
    { rewrite length_app, length_writeNum. pose proof (frames_enc_count fs). lia. }
    by exists f, from.
  - by eapply (@src_call_eof _ _ (FramedSource_ok (length fs) rest)).
Qed.

Lemma framed_transport_witness :
  ∃ to wire,
    FramedSink_session (λ _, Ok tt) ["abcdefgh"; ""; "i"; "jk"]%str
      {| bs_bufSize := 4; bs_buf := []; bs_to := {| bs_bufSize := 16; bs_buf := []; bs_to := "X"%str : StringSink |} |}
      = Ok to ∧ bs_buf to = [] ∧ written (bs_to to) = "X"%str ++ wire ∧
    ∀ (src : StringSource) rest, denotes src (wire ++ rest) →
      (∀ n, (n <= 11)%nat →
        ∃ f from, src_call n (FramedSource_new src) = Ok (take n "abcdefghijk"%str, f) ∧
          FramedSource_destroy (length wire) f = Ok from ∧ denotes from rest) ∧
      (∀ n, (11 < n)%nat → ∃ m, src_call n (FramedSource_new src) = Throw (EndOfFile m)).
Proof.
  refine (framed_transport (K := StringSink) (S := StringSource) ["abcdefgh"; ""; "i"; "jk"]%str
    {| bs_bufSize := 4; bs_buf := []; bs_to := {| bs_bufSize := 16; bs_buf := []; bs_to := "X"%str |} |} _ _ _ _ _).
  - unfold buffered_wf. cbn. lia.
  - done.
  - cbn. lia.
  - cbn. lia.
  - apply (bool_decide_unpack _). vm_compute. exact I.
Defined.

(** * Source adapters *)

(** [BufferedSource]: [bq_buf] is [buffer[0 .. bufPosIn)], the unbuffered
    reader is the source below. *)
Section BufferedSource.
Context {S : Type} `{Source S}.
Record BufferedSource := { bq_bufSize : nat; bq_buf : str; bq_posOut : nat; bq_from : S }.

Definition BufferedSource_copy (len : nat) (b : BufferedSource) : str * BufferedSource :=
  let avail := (length (bq_buf b) - bq_posOut b)%nat in
  let n := if (avail <? len)%nat then avail else len in
  let out := take n (drop (bq_posOut b) (bq_buf b)) in
  let posOut := (bq_posOut b + n)%nat in
  if (length (bq_buf b) =? posOut)%nat
  then (out, {| bq_bufSize := bq_bufSize b; bq_buf := []; bq_posOut := 0; bq_from := bq_from b |})
  else (out, {| bq_bufSize := bq_bufSize b; bq_buf := bq_buf b; bq_posOut := posOut; bq_from := bq_from b |}).

Definition BufferedSource_read (len : nat) (b : BufferedSource) : result (str * BufferedSource) :=
  if (length (bq_buf b) =? 0)%nat then
    '(buf, from) ← src_read (bq_bufSize b) (bq_from b);
    Ok (BufferedSource_copy len {| bq_bufSize := bq_bufSize b; bq_buf := buf; bq_posOut := bq_posOut b; bq_from := from |})
  else Ok (BufferedSource_copy len b).

Definition BufferedSource_hasData (b : BufferedSource) : bool := (bq_posOut b <? length (bq_buf b))%nat.
End BufferedSource.
Arguments BufferedSource : clear implicits.
#[export] Instance BufferedSource_source {S} `{Source S} : Source (BufferedSource S) :=
  {| src_read := BufferedSource_read |}.

Section BufferedSource_proofs.
Context {S : Type} `{SourceOk S}.
Definition bufsrc_wf (b : BufferedSource S) : Prop :=
  (0 < bq_bufSize b)%nat ∧ ((bq_posOut b < length (bq_buf b))%nat ∨ bq_buf b = [] ∧ bq_posOut b = 0%nat).
Definition bufsrc (b : BufferedSource S) (d : str) : Prop :=
  bufsrc_wf b ∧ ∃ d', denotes (bq_from b) d' ∧ d = drop (bq_posOut b) (bq_buf b) ++ d'.

Lemma BufferedSource_copy_ok len b d :
  bufsrc b d → (bq_posOut b < length (bq_buf b))%nat → (0 < len)%nat →
  ∃ k b', (0 < k <= len)%nat ∧ (k <= length d)%nat ∧
    BufferedSource_copy len b = (take k d, b') ∧ bufsrc b' (drop k d).
Proof.
  intros [[Hsz Hwf] (d' & Hs & ->)] Hp Hl. unfold BufferedSource_copy. cbv zeta.
  set (n := if (length (bq_buf b) - bq_posOut b <? len)%nat then (length (bq_buf b) - bq_posOut b)%nat else len).
  assert (Hn : (0 < n <= len)%nat ∧ (n <= length (bq_buf b) - bq_posOut b)%nat).
  { unfold n. destruct (Nat.ltb_spec (length (bq_buf b) - bq_posOut b) len); lia. }
  assert (Hn' : (n <= length (drop (bq_posOut b) (bq_buf b)))%nat) by (rewrite length_drop; lia).
  exists n. rewrite length_app, take_app_le, drop_app_le, drop_drop by lia.
  destruct (Nat.eqb_spec (length (bq_buf b)) (bq_posOut b + n)) as [E|E];
    eexists; (split_and!; [lia..|done|]); unfold bufsrc, bufsrc_wf; cbn.
  - split; [auto|]. exists d'. by rewrite drop_ge by lia.
  - split; [split; [done|left; lia]|]. by exists d'.
Qed.

#[export] Program Instance BufferedSource_ok : SourceOk (BufferedSource S) := {| denotes := bufsrc |}.
Next Obligation.
  intros b d n Hb Hd Hn. cbn [src_read BufferedSource_source]. unfold BufferedSource_read.
  pose proof Hb as [[Hsz Hwf] (d' & Hs & Ed)].
  destruct (Nat.eqb_spec (length (bq_buf b)) 0) as [E|E].
  - destruct Hwf as [?|[E1 E2]]; [lia|]. rewrite E1, E2 in Ed. cbn in Ed. subst d'.
    destruct (read_some (bq_from b) d (bq_bufSize b) Hs Hd Hsz) as (k & s' & Hk & Hkd & Er & Hs').
    rewrite Er. cbn [mbind result_bind].
    destruct (BufferedSource_copy_ok n
      {| bq_bufSize := bq_bufSize b; bq_buf := take k d; bq_posOut := bq_posOut b; bq_from := s' |} d)
      as (k' & b' & ? & ? & Ec & ?); [|cbn; rewrite length_take; lia|done|].
    + split; [split; [done|left; cbn; rewrite length_take; lia]|].
      exists (drop k d). cbn. rewrite E2, drop_0, take_drop. done.
    + exists k', b'. rewrite Ec. auto.
  - destruct Hwf as [Hp|[E1 _]]; [|rewrite E1 in E; done].
    destruct (BufferedSource_copy_ok n b d Hb Hp Hn) as (k & b' & ? & ? & -> & ?). eauto 10.
Qed.
Next Obligation.
  intros b n [[Hsz Hwf] (d' & Hs & Ed)] Hn. cbn [src_read BufferedSource_source]. unfold BufferedSource_read.
  symmetry in Ed. apply app_eq_nil in Ed as [Ed ->].
  apply (f_equal length) in Ed. rewrite length_drop in Ed. cbn [length] in Ed.
  destruct Hwf as [?|[E1 E2]]; [lia|]. rewrite E1, E2. cbn [length Nat.eqb].
  destruct (read_eof (bq_from b) (bq_bufSize b) Hs Hsz) as [[m ->]|(s' & m & -> & E')].
  - left. by exists m.
  - right. eexists _, m. cbn [mbind result_bind]. split.
    + unfold BufferedSource_copy. cbn [bq_buf bq_posOut length]. cbv zeta.
      rewrite Nat.sub_0_r. destruct (Nat.ltb_spec 0 n); [|lia]. done.
    + cbn [bq_bufSize bq_from bq_buf length Nat.eqb]. by rewrite E'.
Qed.
End BufferedSource_proofs.

(** [ChainSource]: the second source once the first has ended. *)
Section ChainSource.
Context {S1 S2 : Type} `{Source S1, Source S2}.
Record ChainSource := { ch_source1 : S1; ch_source2 : S2; ch_useSecond : bool }.
Definition ChainSource_read (len : nat) (c : ChainSource) : result (str * ChainSource) :=
  let second c :=
    '(b, s2) ← src_read len (ch_source2 c);
    Ok (b, {| ch_source1 := ch_source1 c; ch_source2 := s2; ch_useSecond := true |}) in
  if ch_useSecond c then second c
  else match src_read len (ch_source1 c) with
       | Ok (b, s1) => Ok (b, {| ch_source1 := s1; ch_source2 := ch_source2 c; ch_useSecond := false |})
       | Throw (EndOfFile _) => second c
       | Throw e => Throw e
       end.
End ChainSource.
Arguments ChainSource : clear implicits.

(** The 8 KiB scratch buffer of [drainInto] and [drainAll]. *)
Definition drain_buf : nat := Z.to_nat 8192.

(** [SizedSource]: at most [remain] further bytes. *)
Section SizedSource.
Context {S : Type} `{Source S}.
Record SizedSource := { sz_orig : S; sz_remain : nat }.
Definition SizedSource_read (len : nat) (s : SizedSource) : result (str * SizedSource) :=
  if (sz_remain s <=? 0)%nat then Throw (EndOfFile "sized: unexpected end-of-file")
  else
    '(b, o) ← src_read (Nat.min len (sz_remain s)) (sz_orig s);
    Ok (b, {| sz_orig := o; sz_remain := sz_remain s - length b |}).
Fixpoint SizedSource_drainAll (fuel : nat) (sum : nat) (s : SizedSource) : result (nat * SizedSource) :=
  if (sz_remain s =? 0)%nat then Ok (sum, s)
  else match fuel with
       | O => Throw NonTermination
       | Datatypes.S fuel =>
           '(b, s) ← SizedSource_read drain_buf s;
           SizedSource_drainAll fuel (sum + length b) s
       end.
End SizedSource.
Arguments SizedSource : clear implicits.
#[export] Instance SizedSource_source {S} `{Source S} : Source (SizedSource S) :=
  {| src_read := SizedSource_read |}.

Section SizedSource_proofs.
Context {S : Type} `{SourceOk S}.

(** The window of a sized source over a stream that is long enough, and what
    follows the window. *)
Definition sized (s : SizedSource S) (d rest : str) : Prop :=
  denotes (sz_orig s) (d ++ rest) ∧ sz_remain s = length d.

Lemma SizedSource_read_ok s d rest n :
  sized s d rest → d ≠ [] → (0 < n)%nat →
  ∃ k s', (0 < k <= n)%nat ∧ (k <= length d)%nat ∧
    SizedSource_read n s = Ok (take k d, s') ∧ sized s' (drop k d) rest.
Proof.
  intros [Hs Hr] Hd Hn. assert (0 < length d)%nat by (destruct d; cbn; [done|lia]).
  unfold SizedSource_read. rewrite (proj2 (Nat.leb_gt _ _)) by lia.
  destruct (read_some _ _ (Nat.min n (sz_remain s)) Hs) as (k & s' & Hk & Hkd & -> & Hs');
    [by destruct d|lia|].
  rewrite take_app_le by lia. rewrite drop_app_le in Hs' by lia. cbn [mbind result_bind].
  eexists k, _. split_and!; [lia..|done|]. split; [done|]. cbn.
  rewrite length_take, length_drop. lia.
Qed.

Program Definition SizedSource_ok (rest : str) : SourceOk (SizedSource S) :=
  {| denotes := λ s d, sized s d rest |}.
Next Obligation. intros. by apply SizedSource_read_ok. Qed.
Next Obligation.
  intros rest s n [_ Hr] Hn. left. cbn [src_read SizedSource_source]. unfold SizedSource_read.
  rewrite Hr. by eexists.
Qed.

Lemma SizedSource_drainAll_ok fuel sum s d rest :
  sized s d rest → (length d <= fuel)%nat →
  ∃ s', SizedSource_drainAll fuel sum s = Ok ((sum + length d)%nat, s') ∧ sized s' [] rest.
Proof.
  revert sum s d. induction fuel as [|fuel IH]; intros sum s d Hs Hf.
  - destruct d; [|cbn in Hf; lia]. exists s. cbn. destruct Hs as [? Hr]. rewrite Hr. cbn.
    rewrite Nat.add_0_r. split; [done|]. by split.
  - cbn [SizedSource_drainAll]. pose proof (proj2 Hs) as Hr. rewrite Hr.
    destruct (Nat.eqb_spec (length d) 0) as [E|E].
    + apply length_zero_iff_nil in E as ->. exists s. rewrite Nat.add_0_r. done.
    + destruct (SizedSource_read_ok s d rest drain_buf Hs) as (k & s1 & ? & ? & -> & Hs1);
        [by intros ->|unfold drain_buf; lia|].
      cbn [mbind result_bind]. destruct (IH (sum + length (take k d))%nat s1 _ Hs1) as (s2 & -> & Hs2).
      { rewrite length_drop. lia. }
      exists s2. split; [|done]. rewrite length_take, length_drop. do 2 f_equal. lia.
Qed.
End SizedSource_proofs.

(** [Source::drainInto] a string sink, that is [Source::drain]: read until
    the end of the stream. *)
Fixpoint drain_loop {S} `{Source S} (fuel : nat) (acc : str) (s : S) : result str :=
  match fuel with
  | O => Throw NonTermination
  | Datatypes.S fuel =>
      match src_read drain_buf s with
      | Ok (b, s) => drain_loop fuel (StringSink_write b acc) s
      | Throw (EndOfFile _) => Ok acc
      | Throw e => Throw e
      end
  end.
Definition drain {S} `{Source S} (fuel : nat) (s : S) : result str := drain_loop fuel [] s.

Lemma drain_loop_ok {S} `{SourceOk S} fuel acc (s : S) d :
  denotes s d → (length d + 2 <= fuel)%nat → drain_loop fuel acc s = Ok (acc ++ d).
Proof.
  assert (0 < drain_buf)%nat by (unfold drain_buf; lia).
  revert acc s d. induction fuel as [|fuel IH]; intros acc s d Hs Hf; [lia|]. cbn [drain_loop].
  destruct (decide (d = [])) as [->|Hd].
  - rewrite app_nil_r. destruct (read_eof s drain_buf Hs) as [[m ->]|(s' & m & -> & E)]; [done..|].
    destruct fuel; [cbn in Hf; lia|]. cbn [drain_loop]. rewrite E. by unfold StringSink_write; rewrite app_nil_r.
  - destruct (read_some s d drain_buf Hs Hd) as (k & s' & ? & ? & -> & Hs'); [done|].
    rewrite (IH _ s' (drop k d)) by (rewrite ?length_drop; first [done | lia]).
    unfold StringSink_write. by rewrite <- app_assoc, take_drop.
Qed.

(** [TeeSource] saves what is read to a sink; [LengthSource] counts it. *)
Definition TeeSource_read {S K} `{Source S, Sink K} (len : nat) (t : S * K) : result (str * (S * K)) :=
  '(b, s) ← src_read len t.1; k ← snk_write b t.2; Ok (b, (s, k)).
Definition LengthSource_read {S} `{Source S} (len : nat) (t : S * Z) : result (str * (S * Z)) :=
  '(b, s) ← src_read len t.1; Ok (b, (s, u64 (t.2 + Z.of_nat (length b)))).

(** [sinkToSource]: the producer [fun], run as a coroutine, is given by the
    chunks it writes; [sk_coro] are the non-empty chunks it has yet to yield,
    the first of them being the one it is suspended at. *)
Record SinkToSource := { sk_fun : list str; sk_coro : option (list str); sk_cur : str }.
Definition coro_start (chunks : list str) : list str := filter (λ d, d ≠ []) chunks.
Definition SinkToSource_read (len : nat) (s : SinkToSource) : result (str * SinkToSource) :=
  let hasCoro := match sk_coro s with Some _ => true | None => false end in
  let coro := match sk_coro s with Some c => c | None => coro_start (sk_fun s) end in
  '(coro, cur) ← (match sk_cur s with
    | [] =>
        let coro := if hasCoro then tail coro else coro in
        match coro with
        | d :: _ => Ok (coro, d)
        | [] => Throw (EndOfFile "coroutine has finished")
        end
    | cur => Ok (coro, cur)
    end);
  Ok (take len cur, {| sk_fun := sk_fun s; sk_coro := Some coro; sk_cur := drop len cur |}).
#[export] Instance SinkToSource_source : Source SinkToSource := {| src_read := SinkToSource_read |}.
Definition SinkToSource_new (chunks : list str) : SinkToSource :=
  {| sk_fun := chunks; sk_coro := None; sk_cur := [] |}.

(** What is still to come. *)
Definition s2s_stream (s : SinkToSource) : str :=
  match sk_coro s with
  | Some c => sk_cur s ++ concat (tail c)
  | None => sk_cur s ++ concat (sk_fun s)
  end.
Definition s2s_wf (s : SinkToSource) : Prop :=
  match sk_coro s with
  | Some c => Forall (λ d, d ≠ []) c
  | None => sk_cur s = []
  end.

Lemma coro_start_ok chunks :
  Forall (λ d, d ≠ []) (coro_start chunks) ∧ concat (coro_start chunks) = concat chunks.
Proof.
  induction chunks as [|c chunks [IH1 IH2]]; [done|]. unfold coro_start in *.
  rewrite filter_cons. destruct (decide (c ≠ [])) as [Hc|Hc].
  - cbn [concat]. rewrite IH2. auto.
  - apply dec_stable in Hc as ->. done.
Qed.

(** The chunks the next read chooses from: the current one, then the rest. *)
Lemma SinkToSource_next s len :
  s2s_wf s →
  ∃ coro, Forall (λ d, d ≠ []) coro ∧
    match sk_cur s with
    | [] => s2s_stream s = concat coro ∧
        SinkToSource_read len s =
          match coro with
          | [] => Throw (EndOfFile "coroutine has finished")
          | d :: _ => Ok (take len d, {| sk_fun := sk_fun s; sk_coro := Some coro; sk_cur := drop len d |})
          end
    | cur => s2s_stream s = cur ++ concat (tail coro) ∧
        SinkToSource_read len s =
          Ok (take len cur, {| sk_fun := sk_fun s; sk_coro := Some coro; sk_cur := drop len cur |})
    end.
Proof.
  destruct s as [fun_ [c|] cur]; unfold s2s_wf, s2s_stream, SinkToSource_read; cbn [sk_fun sk_coro sk_cur app]; cbv zeta; intros Hwf.
  - destruct cur as [|x cur].
    + exists (tail c). split; [by destruct Hwf|]. split; [done|]. by destruct (tail c).
    + by exists c.
  - subst cur. destruct (coro_start_ok fun_) as [H1 H2]. exists (coro_start fun_).
    split; [done|]. rewrite H2. split; [done|]. by destruct (coro_start fun_).
Qed.

#[export] Program Instance SinkToSource_ok : SourceOk SinkToSource :=
  {| denotes := λ s d, s2s_wf s ∧ s2s_stream s = d |}.
Next Obligation.
  intros s d n [Hwf <-] Hd Hn. destruct (SinkToSource_next s n Hwf) as (coro & Hc & Hnext).
  cbn [src_read SinkToSource_source].
  assert (∃ cur, cur ≠ [] ∧ s2s_stream s = cur ++ concat (tail coro) ∧
    SinkToSource_read n s = Ok (take n cur, {| sk_fun := sk_fun s; sk_coro := Some coro; sk_cur := drop n cur |}))
    as (cur & Hcur & -> & ->).
  { destruct (sk_cur s) as [|x cur]; destruct Hnext as [E1 E2].
    - destruct coro as [|d coro]; [by rewrite E1 in Hd|]. exists d.
      split; [by inversion Hc|]. done.
    - exists (x :: cur). done. }
  assert (0 < length cur)%nat by (destruct cur; [done|cbn; lia]).
  eexists (Nat.min n (length cur)), _. rewrite length_app. split_and!; [lia..| | |].
  - rewrite take_app_le, <- take_min_length by lia. done.
  - exact Hc.
  - unfold s2s_stream. cbn. rewrite drop_app_le by lia. f_equal.
    destruct (decide (n <= length cur)%nat); [by rewrite Nat.min_l by lia|].
    rewrite Nat.min_r by lia. by rewrite !drop_ge by lia.
Qed.
Next Obligation.
  intros s n [Hwf Hd] Hn. left. exists "coroutine has finished"%str.
  destruct (SinkToSource_next s n Hwf) as (coro & Hc & Hnext). cbn [src_read SinkToSource_source].
  destruct (sk_cur s) as [|x cur]; destruct Hnext as [E1 ->]; rewrite Hd in E1; [|done].
  destruct coro as [|d coro]; [done|]. inversion Hc; subst. by destruct d.
Qed.

(** * Truncation *)

(** [r] fails with an end-of-file on every proper prefix of [w]. *)
Definition truncates {S A} `{SourceOk S} (r : S → result (A * S)) (w : str) : Prop :=
  ∀ s p q, w = p ++ q → q ≠ [] → denotes s p → ∃ m, r s = Throw (EndOfFile m).

Section truncates.
Context {S : Type} `{SourceOk S}.

Lemma truncates_nil {A} (r : S → result (A * S)) : truncates r [].
Proof. intros s p q E Hq _. symmetry in E. by apply app_eq_nil in E as [_ ->]. Qed.

Lemma truncates_call n w : n = length w → truncates (src_call n) w.
Proof.
  intros -> s p q -> Hq Hs. eapply src_call_eof; [exact Hs|]. rewrite length_app.
  destruct q; [done|cbn; lia].
Qed.

Lemma truncates_bind {A B} (r : S → result (A * S)) (k : A → S → result (B * S)) w1 w2 a :
  parses r w1 a → truncates r w1 → truncates (k a) w2 →
  truncates (λ s, '(x, s) ← r s; k x s) (w1 ++ w2).
Proof.
  intros Hp Ht1 Ht2 s p q E Hq Hs. destruct (decide (length p < length w1)%nat) as [Hl|Hl].
  - destruct (Ht1 s p (drop (length p) w1)) as (m & ->); [|..|done|by exists m].
    + apply (f_equal (take (length p))) in E. rewrite take_app_le, take_app_length in E by lia.
      by rewrite <- E at 1; rewrite take_drop.
    + intros E0. apply (f_equal length) in E0. rewrite length_drop in E0. cbn in E0. lia.
  - assert (p = w1 ++ drop (length w1) p) as Ep.
    { apply (f_equal (take (length w1))) in E. rewrite take_app_length, take_app_le in E by lia.
      by rewrite E at 1; rewrite take_drop. }
    rewrite Ep in Hs, E. rewrite <- app_assoc in E. apply app_inv_head in E.
    destruct (Hp s _ Hs) as (s' & -> & Hs'). cbn [mbind result_bind].
    by eapply Ht2.
Qed.

(** As above for a reader that ends after [r]. *)
Lemma truncates_last {A B} (r : S → result (A * S)) (k : A → S → result (B * S)) w a :
  parses r w a → truncates r w → truncates (λ s, '(x, s) ← r s; k x s) w.
Proof.
  intros Hp Ht. rewrite <- (app_nil_r w). eapply truncates_bind; [done..|apply truncates_nil].
Qed.

Lemma truncates_assert {A} (b : bool) (r : S → result (A * S)) w :
  b = true → truncates r w → truncates (λ s, _ ← assertR b; r s) w.
Proof. intros -> Hr. exact Hr. Qed.

Lemma readNum_truncates max n : 0 ≤ n < 2 ^ 64 → truncates (readNum max) (writeNum n).
Proof.
  intros Hn. eapply (truncates_last (src_call 8)); [by apply src_call_parses'|by apply truncates_call].
Qed.

Lemma readPadding_truncates len : truncates (readPadding len) (writePadding len).
Proof.
  unfold readPadding, writePadding. destruct (len mod 8 =? 0)%nat; [apply truncates_nil|].
  eapply (truncates_last (src_call _)); [apply src_call_parses'|apply truncates_call];
    by rewrite length_replicate.
Qed.

Lemma readString_truncates x : str_fits x → truncates (readString size_max) (writeString x).
Proof.
  intros Hx. unfold str_fits in Hx. unfold writeString.
  eapply (truncates_bind (readNum size_max));
    [apply readNum_parses; unfold size_max; lia|apply readNum_truncates; lia|].
  cbn beta. rewrite (proj2 (Z.ltb_ge _ _)) by (unfold size_max; lia). rewrite Nat2Z.id.
  eapply (truncates_bind (src_call (length x))); [apply src_call_parses|by apply truncates_call|].
  eapply (truncates_last (readPadding _)); [apply readPadding_parses|apply readPadding_truncates].
Qed.

Lemma readStrings_truncates ss :
  Forall str_fits ss → Z.of_nat (length ss) < 2 ^ 64 → truncates readStrings (writeStrings ss).
Proof.
  intros Hss Hl. eapply (truncates_bind (readNum size_max));
    [apply readNum_parses; unfold size_max; lia|apply readNum_truncates; lia|].
  cbn beta. rewrite Nat2Z.id. clear Hl.
  induction Hss as [|x ss Hx Hss IH]; [apply truncates_nil|]. cbn [map concat length].
  eapply (truncates_bind (readString size_max)); [by apply readString_parses'|by apply readString_truncates|].
  eapply (truncates_last (readStrings_loop _)); [by apply readStrings_loop_parses|exact IH].
Qed.
End truncates.

(** The wire format of values. From any source that keeps the
    [Source] contract: a number within the type asked for, a string, a list
    of strings and an [Error] are read back as written, whatever follows
    them, and the source is left right behind them; every proper prefix of a
    serialised list of strings is an end-of-file, never a shorter value; a
    number above the bound of the type is rejected, never truncated. *)
Theorem wire_values {S} `{SourceOk S} (max n : Z) (ss : list str) (info : ErrorInfo) :
  0 ≤ n < 2 ^ 64 → 0 ≤ max < 2 ^ 64 → Forall str_fits ss → Z.of_nat (length ss) < 2 ^ 64 →
  0 ≤ ei_level info < 2 ^ 32 → str_fits (ei_msg info) → Forall str_fits (ei_traces info) →
  Z.of_nat (length (ei_traces info)) < 2 ^ 64 →
  (n ≤ max → parses (readNum max) (writeNum n) n) ∧
  (max < n → ∀ s d, denotes s (writeNum n ++ d) →
    readNum max s = Throw (SerialisationError "serialised integer is too large for type")) ∧
  parses readStrings (writeStrings ss) ss ∧
  truncates readStrings (writeStrings ss) ∧
  parses readError (writeError info) info.
Proof.
  intros. split_and!.
  - intros. apply readNum_parses; lia.
  - intros. eapply readNum_too_large; [| |done]; lia.
  - by apply readStrings_parses.
  - by apply readStrings_truncates.
  - by apply readError_parses.
Qed.

Lemma wire_values_witness :
  parses (S := StringSource) readStrings (writeStrings ["store"; ""; "narHash"]%str) ["store"; ""; "narHash"]%str ∧
  ∃ s, readError (StringSource_new (writeError {| ei_level := 1; ei_msg := "oops"; ei_traces := ["a"; "b"]%str |}))
       = Ok ({| ei_level := 1; ei_msg := "oops"; ei_traces := ["a"; "b"]%str |}, s).
Proof.
  destruct (wire_values (S := StringSource) uint_max 5 ["store"; ""; "narHash"]%str
    {| ei_level := 1; ei_msg := "oops"; ei_traces := ["a"; "b"]%str |})
    as (_ & _ & H1 & _ & H2); [done|done| | | | | | |].
  1-6: apply (bool_decide_unpack _); vm_compute; exact I.
  split; [exact H1|].
  destruct (H2 (StringSource_new (writeError {| ei_level := 1; ei_msg := "oops"; ei_traces := ["a"; "b"]%str |})) [])
    as (s & E & _); [split; [cbn; lia|by rewrite app_nil_r]|].
  by exists s.
Defined.

(** Adapters do not change the stream. A producer run as a coroutine
    behind [sinkToSource], read through a [BufferedSource] of any non-zero
    buffer size, drains to exactly the concatenation of the chunks the
    producer wrote; and a [SizedSource] window over it yields the first
    [remain] bytes, then an end-of-file, and leaves the rest of the stream in
    place. *)
Theorem adapters_transparent (chunks : list str) (bufSize : nat) :
  (0 < bufSize)%nat →
  let src := {| bq_bufSize := bufSize; bq_buf := []; bq_posOut := 0; bq_from := SinkToSource_new chunks |} in
  (∀ fuel, (length (concat chunks) + 2 <= fuel)%nat → drain fuel src = Ok (concat chunks)) ∧
  (∀ n, (n <= length (concat chunks))%nat →
    ∃ s, SizedSource_drainAll n 0 {| sz_orig := src; sz_remain := n |} = Ok (n, s) ∧
      (∃ m, SizedSource_read 1 s = Throw (EndOfFile m)) ∧
      denotes (sz_orig s) (drop n (concat chunks))).
Proof.
  intros Hb src. assert (Hsrc : denotes src (concat chunks)).
  { split; [split; [done|by right]|]. exists (concat chunks). split; [|done]. by split. }
  split.
  - intros fuel Hf. unfold drain. by rewrite (drain_loop_ok _ _ _ (concat chunks)).
  - intros n Hn.
    destruct (SizedSource_drainAll_ok n 0 {| sz_orig := src; sz_remain := n |}
      (take n (concat chunks)) (drop n (concat chunks))) as (s & E & Hs & Hr).
    + split; [by rewrite take_drop|]. cbn. rewrite length_take. lia.
    + rewrite length_take. lia.
    + rewrite length_take, Nat.min_l, Nat.add_0_l in E by lia. exists s. split_and!; [done| |exact Hs].
      unfold SizedSource_read. rewrite Hr. by eexists.
Qed.

Lemma adapters_transparent_witness :
  drain 20 {| bq_bufSize := 3; bq_buf := []; bq_posOut := 0; bq_from := SinkToSource_new ["ab"; ""; "cdefg"; "h"]%str |}
  = Ok "abcdefgh"%str.
Proof. apply (adapters_transparent ["ab"; ""; "cdefg"; "h"]%str 3); [lia|cbn; lia]. Defined.
