(* ===== verification/FileSystem.v ===== *)
(** File system objects: [libutil/source-accessor.cc], [fs-sink.cc] and
    [memory-source-accessor.cc].

    [SourceAccessor] is the read interface and [FileSystemObjectSink] the
    write interface of file system trees; [MemorySourceAccessor] implements
    both. [resolveSymlinks] and [copyRecursive] are written against the
    interfaces. *)

From S2P Require Import Prelude Strings CanonPath Serialise.

(** * Ordered string maps

    [std::map<std::string, V>] nested inside the tree type: a list sorted by
    key. *)

Fixpoint smap_find {V} (k : str) (m : list (str * V)) : option V :=
  match m with
  | [] => None
  | (k', v) :: m => if str_eqb k' k then Some v else smap_find k m
  end.

(** [insert_or_assign]. *)
Fixpoint smap_insert {V} (k : str) (v : V) (m : list (str * V)) : list (str * V) :=
  match m with
  | [] => [(k, v)]
  | (k', v') :: m =>
      match str_compare k k' with
      | Lt => (k, v) :: (k', v') :: m
      | Eq => (k, v) :: m
      | Gt => (k', v') :: smap_insert k v m
      end
  end.

Definition str_lt (s t : str) : Prop := str_compare s t = Lt.
Definition smap_wf {V} (m : list (str * V)) : Prop := StronglySorted str_lt m.*1.

#[export] Instance str_lt_dec : RelDecision str_lt.
Proof. intros s t. unfold str_lt. apply _. Defined.
#[export] Instance smap_wf_dec {V} (m : list (str * V)) : Decision (smap_wf m).
Proof. unfold smap_wf. apply _. Defined.

(** * Interfaces *)

Inductive FileType := tRegular | tSymlink | tDirectory | tChar | tBlock | tSocket | tFifo | tUnknown.
#[export] Instance FileType_eq_dec : EqDecision FileType.
Proof. solve_decision. Defined.

Record Stat := { st_type : FileType; st_fileSize : option Z; st_isExecutable : bool }.

Definition isNotNARSerialisable (st : Stat) : bool :=
  negb (bool_decide (st_type st = tRegular)) && negb (bool_decide (st_type st = tSymlink)) &&
  negb (bool_decide (st_type st = tDirectory)).

Definition typeString (st : Stat) : str :=
  match st_type st with
  | tRegular => "regular" | tSymlink => "symlink" | tDirectory => "directory"
  | tChar => "character device" | tBlock => "block device" | tSocket => "socket"
  | tFifo => "fifo" | tUnknown => "unknown"
  end.

(** Accessors, as far as used; [maybeLstat] reports no other errors than that
    there is no such file. *)
Class SourceAccessor (A : Type) := {
  sa_maybeLstat : CanonPath → A → option Stat;
  sa_readDirectory : CanonPath → A → result (list (str * option FileType));
  sa_readFile : CanonPath → A → result str;
  sa_readLink : CanonPath → A → result str;
}.

Definition lstat {A} `{SourceAccessor A} (path : CanonPath) (a : A) : result Stat :=
  match sa_maybeLstat path a with
  | Some st => Ok st
  | None => Throw (Error "path does not exist")
  end.

(** [FileSystemObjectSink]; the callback of [createRegularFile] acts on the
    file just created through the [crf_] operations, addressed by its path. *)
Class FileSystemObjectSink (K : Type) := {
  createDirectory : CanonPath → K → result K;
  createSymlink : CanonPath → str → K → result K;
  createRegularFile : CanonPath → K → result K;
  crf_isExecutable : CanonPath → K → result K;
  crf_preallocateContents : CanonPath → Z → K → result K;
  crf_write : CanonPath → str → K → result K;
}.

(** [NullFileSystemObjectSink]. *)
#[export] Instance NullFileSystemObjectSink : FileSystemObjectSink unit := {|
  createDirectory := λ _ k, Ok k;
  createSymlink := λ _ _ k, Ok k;
  createRegularFile := λ _ k, Ok k;
  crf_isExecutable := λ _ k, Ok k;
  crf_preallocateContents := λ _ _ k, Ok k;
  crf_write := λ _ _ k, Ok k;
|}.

(** * [SourceAccessor::resolveSymlinks] *)

Inductive SymlinkResolution := Ancestors | Full.

Definition isAbsolute (path : str) : bool :=
  match path with c :: _ => is_slash c | [] => false end.

Section resolveSymlinks.
Context {A : Type} `{SourceAccessor A}.

(** The [todo] loop; [linksAllowed] only decreases when a link is followed,
    so the loop is total. *)
Fixpoint resolve_loop (linksAllowed : nat) (full : bool) (acc : A) : CanonPath → list str → result CanonPath :=
  fix walk (res : CanonPath) (todo : list str) {struct todo} : result CanonPath :=
    match todo with
    | [] => Ok res
    | c :: todo =>
        if str_eqb c "" || str_eqb c "." then walk res todo
        else if str_eqb c ".." then
          if isRoot res then walk res todo else res ← pop res; walk res todo
        else
          res ← push res c;
          if full || negb (bool_decide (todo = [])) then
            match sa_maybeLstat res acc with
            | Some st =>
                if bool_decide (st_type st = tSymlink) then
                  match linksAllowed with
                  | O => Throw (Error "infinite symlink recursion in path")
                  | S linksAllowed =>
                      target ← sa_readLink res acc;
                      res ← (if isAbsolute target then Ok cp_root else pop res);
                      resolve_loop linksAllowed full acc res (tokenizeString target "/" ++ todo)
                  end
                else walk res todo
            | None => walk res todo
            end
          else walk res todo
    end.

(** [linksAllowed] is 1024 links. *)
Definition resolveSymlinks (path : CanonPath) (mode : SymlinkResolution) (acc : A) : result CanonPath :=
  resolve_loop (Z.to_nat 1024) (match mode with Full => true | Ancestors => false end) acc
    cp_root (components path).
End resolveSymlinks.

(** * [copyRecursive] *)

(** As in the source, the directory loop ends with a [break] after its
    first iteration. [fuel] bounds the depth. *)
Fixpoint copyRecursive {A K} `{SourceAccessor A, FileSystemObjectSink K} (fuel : nat)
    (accessor : A) (from : CanonPath) (sink : K) (to : CanonPath) : result K :=
  match fuel with
  | O => Throw NonTermination
  | S fuel =>
      stat ← lstat from accessor;
      match st_type stat with
      | tSymlink => target ← sa_readLink from accessor; createSymlink to target sink
      | tRegular =>
          sink ← createRegularFile to sink;
          sink ← (if st_isExecutable stat then crf_isExecutable to sink else Ok sink);
          s ← sa_readFile from accessor;
          sink ← crf_preallocateContents to (Z.of_nat (length s)) sink;
          crf_write to s sink
      | tDirectory =>
          sink ← createDirectory to sink;
          entries ← sa_readDirectory from accessor;
          match entries with
          | [] => Ok sink
          | (name, _) :: _ =>
              from' ← push from name;
              to' ← push to name;
              copyRecursive fuel accessor from' sink to'
          end
      | _ => Throw (Error "file has an unsupported type")
      end
  end.

(** * The in-memory tree *)

Inductive File :=
  | Regular (executable : bool) (contents : str)
  | Directory (contents : list (str * File))
  | Symlink (target : str).

(** [MemorySourceAccessor] is its [root]. *)
Definition MemorySourceAccessor := File.
Definition MemorySourceAccessor_new : MemorySourceAccessor := Directory [].

(** [open(path, std::nullopt)]. *)
Fixpoint open_find (names : list str) (cur : File) : option File :=
  match names with
  | [] => Some cur
  | name :: names =>
      match cur with
      | Directory contents =>
          match smap_find name contents with
          | Some f => open_find names f
          | None => None
          end
      | _ => None
      end
  end.

(** [open(path, create)]: the tree afterwards; the pointer returned is the
    node at [path] in it. Missing components become empty directories, the
    last one becomes [create], but only if something was missing. *)
Fixpoint open_create (names : list str) (create : File) (newF : bool) (cur : File) : option File :=
  match names with
  | [] => Some (if newF then create else cur)
  | name :: names =>
      match cur with
      | Directory contents =>
          match smap_find name contents with
          | None =>
              f ← open_create names create true (Directory []);
              Some (Directory (smap_insert name f contents))
          | Some f =>
              f ← open_create names create newF f;
              Some (Directory (smap_insert name f contents))
          end
      | _ => None
      end
  end.

(** Assignment through the pointer [open] returned. *)
Fixpoint update_at (names : list str) (g : File → File) (cur : File) : File :=
  match names with
  | [] => g cur
  | name :: names =>
      match cur with
      | Directory contents =>
          match smap_find name contents with
          | Some f => Directory (smap_insert name (update_at names g f) contents)
          | None => cur
          end
      | _ => cur
      end
  end.

Definition File_lstat (f : File) : Stat :=
  match f with
  | Regular x c => {| st_type := tRegular; st_fileSize := Some (Z.of_nat (length c)); st_isExecutable := x |}
  | Directory _ => {| st_type := tDirectory; st_fileSize := None; st_isExecutable := false |}
  | Symlink _ => {| st_type := tSymlink; st_fileSize := None; st_isExecutable := false |}
  end.

Definition Memory_readFile (path : CanonPath) (m : MemorySourceAccessor) : result str :=
  match open_find (components path) m with
  | None => Throw (Error "file does not exist")
  | Some (Regular _ contents) => Ok contents
  | Some _ => Throw (Error "file is not a regular file")
  end.

Definition Memory_pathExists (path : CanonPath) (m : MemorySourceAccessor) : bool :=
  match open_find (components path) m with Some _ => true | None => false end.

Definition Memory_maybeLstat (path : CanonPath) (m : MemorySourceAccessor) : option Stat :=
  File_lstat <$> open_find (components path) m.

Definition Memory_readDirectory (path : CanonPath) (m : MemorySourceAccessor)
    : result (list (str * option FileType)) :=
  match open_find (components path) m with
  | None => Throw (Error "file does not exist")
  | Some (Directory contents) =>
      Ok (foldl (λ res (nf : str * File), smap_insert nf.1 (Some (st_type (File_lstat nf.2))) res) [] contents)
  | Some _ => Throw (Error "file is not a directory")
  end.

Definition Memory_readLink (path : CanonPath) (m : MemorySourceAccessor) : result str :=
  match open_find (components path) m with
  | None => Throw (Error "file does not exist")
  | Some (Symlink target) => Ok target
  | Some _ => Throw (Error "file is not a symbolic link")
  end.

#[export] Instance MemorySourceAccessor_accessor : SourceAccessor MemorySourceAccessor := {|
  sa_maybeLstat := Memory_maybeLstat;
  sa_readDirectory := Memory_readDirectory;
  sa_readFile := Memory_readFile;
  sa_readLink := Memory_readLink;
|}.

Definition parent_not_dir : exn :=
  Error "file cannot be made because some parent file is not a directory".

(** [dst.open(path, create)] followed by the check of the node's kind. *)
Definition open_kind (path : CanonPath) (create : File) (kind : FileType) (what : str)
    (m : MemorySourceAccessor) : result MemorySourceAccessor :=
  match open_create (components path) create false m with
  | None => Throw parent_not_dir
  | Some m =>
      match open_find (components path) m with
      | Some f => if bool_decide (st_type (File_lstat f) = kind) then Ok m else Throw (Error what)
      | None => Throw AssertionFailure
      end
  end.

Definition addFile (path : CanonPath) (contents : str) (m : MemorySourceAccessor)
    : result MemorySourceAccessor :=
  m ← open_kind path (Regular false []) tRegular "file is not a regular file" m;
  Ok (update_at (components path)
        (λ f, match f with Regular x _ => Regular x contents | f => f end) m).

Definition MemorySink_createDirectory (path : CanonPath) (m : MemorySourceAccessor) :=
  open_kind path (Directory []) tDirectory "file is not a directory" m.

Definition MemorySink_createRegularFile (path : CanonPath) (m : MemorySourceAccessor) :=
  open_kind path (Regular false []) tRegular "file is not a regular file" m.

Definition CreateMemoryRegularFile_isExecutable (path : CanonPath) (m : MemorySourceAccessor) : result File :=
  Ok (update_at (components path) (λ f, match f with Regular _ c => Regular true c | f => f end) m).

(** [contents.reserve] has no effect on the value. *)
Definition CreateMemoryRegularFile_preallocateContents (path : CanonPath) (len : Z) (m : MemorySourceAccessor)
    : result File := Ok m.

Definition CreateMemoryRegularFile_write (path : CanonPath) (data : str) (m : MemorySourceAccessor) : result File :=
  Ok (update_at (components path) (λ f, match f with Regular x c => Regular x (c ++ data) | f => f end) m).

Definition MemorySink_createSymlink (path : CanonPath) (target : str) (m : MemorySourceAccessor) :=
  m ← open_kind path (Symlink []) tSymlink "file is not a symbolic link" m;
  Ok (update_at (components path) (λ f, match f with Symlink _ => Symlink target | f => f end) m).

#[export] Instance MemorySink : FileSystemObjectSink MemorySourceAccessor := {|
  createDirectory := MemorySink_createDirectory;
  createSymlink := MemorySink_createSymlink;
  createRegularFile := MemorySink_createRegularFile;
  crf_isExecutable := CreateMemoryRegularFile_isExecutable;
  crf_preallocateContents := CreateMemoryRegularFile_preallocateContents;
  crf_write := CreateMemoryRegularFile_write;
|}.

(** * Lemmas on ordered string maps *)

Section smap.
Context {V : Type}.
Implicit Types m : list (str * V).

Lemma str_lt_irrefl s : ¬ str_lt s s.
Proof. unfold str_lt. by rewrite str_compare_refl. Qed.
Lemma str_lt_gt s t : str_lt s t → str_compare t s = Gt.
Proof. unfold str_lt. intros E. by rewrite str_compare_antisym, E. Qed.

Lemma smap_insert_snoc k v m :
  Forall (λ k', str_lt k' k) m.*1 → smap_insert k v m = m ++ [(k, v)].
Proof.
  induction m as [|[k' v'] m IH]; intros Hk; [done|]. inversion Hk as [|? ? Hk' Hm]; subst.
  cbn [smap_insert]. rewrite (str_lt_gt _ _ Hk'), IH by done. done.
Qed.

Lemma smap_find_insert k v m : smap_find k (smap_insert k v m) = Some v.
Proof.
  induction m as [|[k' v'] m IH]; cbn; [by rewrite str_eqb_refl|].
  destruct (str_compare k k') eqn:E; cbn; rewrite ?str_eqb_refl; [done..|].
  assert (str_eqb k' k = false) as ->; [|done].
  apply str_eqb_false. intros ->. by rewrite str_compare_refl in E.
Qed.

Lemma smap_find_insert_ne k k' v m : k ≠ k' → smap_find k' (smap_insert k v m) = smap_find k' m.
Proof.
  intros Hk. assert (str_eqb k k' = false) as Hf by by apply str_eqb_false.
  induction m as [|[k0 v0] m IH]; cbn; [by rewrite Hf|].
  destruct (str_compare k k0) eqn:E; cbn; [|by rewrite Hf|by rewrite IH].
  apply str_compare_eq in E as ->. by rewrite Hf.
Qed.

Lemma smap_insert_insert k v w m : smap_insert k v (smap_insert k w m) = smap_insert k v m.
Proof.
  induction m as [|[k' v'] m IH]; cbn; [by rewrite str_compare_refl|].
  destruct (str_compare k k') eqn:E; cbn; rewrite ?str_compare_refl; [done..|].
  by rewrite E, IH.
Qed.

Lemma smap_find_fresh k m : Forall (λ k', str_lt k' k) m.*1 → smap_find k m = None.
Proof.
  induction m as [|[k' v'] m IH]; intros Hk; [done|]. inversion Hk as [|? ? Hk' Hm]; subst. cbn.
  rewrite (proj2 (str_eqb_false k' k)); [by apply IH|]. intros ->. by eapply str_lt_irrefl.
Qed.

Lemma smap_find_app_fresh k v m : smap_find k m = None → smap_find k (m ++ [(k, v)]) = Some v.
Proof.
  induction m as [|[k' v'] m IH]; cbn; [by rewrite str_eqb_refl|].
  destruct (str_eqb k' k); [done|]. exact IH.
Qed.

(** Inserting the entries of an ordered map one by one rebuilds it. *)
Lemma smap_rebuild {W} (f : W → V) (l : list (str * W)) m :
  smap_wf l → Forall (λ k, Forall (λ k', str_lt k' k) m.*1) l.*1 →
  foldl (λ res kw, smap_insert kw.1 (f kw.2) res) m l = m ++ map (λ kw, (kw.1, f kw.2)) l.
Proof.
  unfold smap_wf. revert m. induction l as [|[k w] l IH]; intros m Hs Hm; [by rewrite app_nil_r|].
  cbn in *. inversion Hs as [|? ? Hs' Hk]; subst. inversion Hm as [|? ? Hkm Hm']; subst.
  rewrite smap_insert_snoc by done. rewrite IH; [by rewrite <- app_assoc|done|].
  rewrite Forall_forall in Hk |- *. intros k2 Hk2. rewrite fmap_app. apply Forall_app. split.
  - rewrite Forall_forall in Hm'. by apply Hm'.
  - by apply Forall_singleton, Hk.
Qed.
End smap.

Lemma smap_wf_snoc {V} (m : list (str * V)) k v :
  smap_wf (m ++ [(k, v)]) → smap_wf m ∧ Forall (λ k', str_lt k' k) m.*1.
Proof.
  unfold smap_wf. rewrite fmap_app. cbn. intros Hs. split.
  - by eapply StronglySorted_app_1_l.
  - apply Forall_forall. intros k' Hk'.
    eapply StronglySorted_app_1_elem_of; [exact Hs|done|]. by apply list_elem_of_singleton.
Qed.

(** * Lemmas on paths into the tree *)

Lemma open_find_app cs ds R : open_find (cs ++ ds) R = open_find cs R ≫= open_find ds.
Proof.
  revert R. induction cs as [|c cs IH]; intros R; [done|]. cbn.
  destruct R as [| contents |]; try done. destruct (smap_find c contents); [apply IH|done].
Qed.

Lemma open_find_update cs g R f :
  open_find cs R = Some f → open_find cs (update_at cs g R) = Some (g f).
Proof.
  revert R. induction cs as [|c cs IH]; intros R; cbn; [congruence|].
  destruct R as [| contents |]; try done. destruct (smap_find c contents) as [f'|] eqn:E; [|done].
  intros H. rewrite smap_find_insert. by apply IH.
Qed.

Lemma update_at_update cs g h R : update_at cs g (update_at cs h R) = update_at cs (g ∘ h) R.
Proof.
  revert R. induction cs as [|c cs IH]; intros R; cbn; [done|].
  destruct R as [| contents |]; try done. destruct (smap_find c contents) as [f'|] eqn:E; [|by rewrite E].
  by rewrite smap_find_insert, smap_insert_insert, IH.
Qed.

Lemma update_at_app cs ds g R : update_at (cs ++ ds) g R = update_at cs (update_at ds g) R.
Proof.
  revert R. induction cs as [|c cs IH]; intros R; [done|]. cbn.
  destruct R as [| contents |]; try done. destruct (smap_find c contents); [|done]. by rewrite IH.
Qed.

Lemma update_at_ext cs g h R f :
  open_find cs R = Some f → g f = h f → update_at cs g R = update_at cs h R.
Proof.
  revert R. induction cs as [|c cs IH]; intros R; cbn; [congruence|].
  destruct R as [| contents |]; try done. destruct (smap_find c contents) as [f'|] eqn:E; [|done].
  intros Hf Hg. by rewrite (IH f').
Qed.

Lemma open_create_fresh cs n create newF R ents :
  open_find cs R = Some (Directory ents) → smap_find n ents = None →
  open_create (cs ++ [n]) create newF R =
    Some (update_at cs (λ _, Directory (smap_insert n create ents)) R).
Proof.
  revert newF R. induction cs as [|c cs IH]; intros newF R; cbn.
  - intros [= ->] Hn. by rewrite Hn.
  - destruct R as [| contents |]; try done. destruct (smap_find c contents) as [f'|] eqn:E; [|done].
    intros Hf Hn. by rewrite (IH newF f').
Qed.

(** The tree [R] with the node [f] added as the last entry [n] of the
    directory [cs], whose entries were [ents]. *)
Definition put (cs : list str) (ents : list (str * File)) (n : str) (R f : File) : File :=
  update_at cs (λ _, Directory (ents ++ [(n, f)])) R.

Section put.
Context (cs : list str) (ents : list (str * File)) (n : str) (R : File).
Context (Hdir : open_find cs R = Some (Directory ents)).
Context (Hfresh : Forall (λ k, str_lt k n) ents.*1).

Lemma put_find f : open_find (cs ++ [n]) (put cs ents n R f) = Some f.
Proof.
  unfold put. rewrite open_find_app, (open_find_update _ _ _ _ Hdir). cbn.
  by rewrite smap_find_app_fresh by (by apply smap_find_fresh).
Qed.

Lemma put_update g f : update_at (cs ++ [n]) g (put cs ents n R f) = put cs ents n R (g f).
Proof.
  unfold put. rewrite update_at_app, update_at_update. eapply update_at_ext; [exact Hdir|]. cbn.
  rewrite smap_find_app_fresh by (by apply smap_find_fresh). f_equal.
  rewrite <- !smap_insert_snoc by done. by rewrite smap_insert_insert.
Qed.

Lemma put_create f : open_create (cs ++ [n]) f false R = Some (put cs ents n R f).
Proof.
  rewrite (open_create_fresh _ _ _ _ _ ents) by (try done; by apply smap_find_fresh).
  by rewrite smap_insert_snoc.
Qed.

Lemma put_open_kind f kind what :
  Forall plain_comp (cs ++ [n]) → st_type (File_lstat f) = kind →
  open_kind (render (cs ++ [n])) f kind what R = Ok (put cs ents n R f).
Proof.
  intros Hp Hk. unfold open_kind. rewrite components_render, put_create, put_find by done.
  by rewrite bool_decide_true.
Qed.
End put.

(** * Well-formed trees *)

(** File names an archive accepts. *)
Definition name_ok (n : str) : Prop := valid_comp n ∧ (NUL ∉ n) ∧ str_fits n.

#[export] Instance name_ok_dec n : Decision (name_ok n).
Proof. unfold name_ok. apply _. Defined.

(** Every directory is ordered and its names are acceptable; every string
    fits in a [size_t]. *)
Inductive file_wf : File → Prop :=
  | wf_Regular x c : str_fits c → file_wf (Regular x c)
  | wf_Symlink t : str_fits t → file_wf (Symlink t)
  | wf_Directory es :
      smap_wf es → Forall (λ e, name_ok e.1 ∧ file_wf e.2) es → file_wf (Directory es).

Fixpoint depth (f : File) : nat :=
  match f with
  | Directory es => S (list_max (map (λ e, depth e.2) es))
  | _ => 1
  end.

Lemma depth_entry e es : e ∈ es → (depth e.2 < depth (Directory es))%nat.
Proof.
  intros He. cbn [depth]. apply list_elem_of_In, (in_map (λ e, depth e.2)) in He.
  pose proof (proj1 (list_max_le _ _) (le_n (list_max (map (λ e, depth e.2) es)))) as Hm.
  rewrite List.Forall_forall in Hm. apply Hm in He. lia.
Qed.

Lemma Memory_readDirectory_ok fs m es :
  Forall plain_comp fs → open_find fs m = Some (Directory es) → smap_wf es →
  Memory_readDirectory (render fs) m = Ok (map (λ e, (e.1, Some (st_type (File_lstat e.2)))) es).
Proof.
  intros Hp Hf Hes. unfold Memory_readDirectory. rewrite components_render, Hf by done. f_equal.
  apply (smap_rebuild (λ f, Some (st_type (File_lstat f))) es []); [done|].
  apply Forall_true. by constructor.
Qed.

(** What [copyRecursive] makes of a tree: of every directory, the first
    entry only. *)
Fixpoint first_only (f : File) : File :=
  match f with
  | Directory ((n, g) :: _) => Directory [(n, first_only g)]
  | f => f
  end.

Lemma copyRecursive_put fuel A fs f cs ents n R :
  (depth f <= fuel)%nat → file_wf f →
  Forall plain_comp fs → open_find fs A = Some f →
  Forall plain_comp (cs ++ [n]) → open_find cs R = Some (Directory ents) →
  Forall (λ k, str_lt k n) ents.*1 →
  copyRecursive fuel A (render fs) R (render (cs ++ [n])) = Ok (put cs ents n R (first_only f)).
Proof.
  revert fs f cs ents n R. induction fuel as [|fuel IH]; intros fs f cs ents n R Hd Hwf Hfs Hf Hcs HR Hfr.
  { destruct f; cbn in Hd; lia. }
  cbn [copyRecursive]. unfold lstat. cbn [sa_maybeLstat MemorySourceAccessor_accessor].
  unfold Memory_maybeLstat. rewrite (components_render fs), Hf by done. cbn [fmap option_fmap option_map mbind result_bind].
  destruct f as [x c|es|t]; cbn [File_lstat st_type st_isExecutable].
  - cbn [createRegularFile crf_isExecutable crf_preallocateContents crf_write sa_readFile MemorySink MemorySourceAccessor_accessor].
    unfold MemorySink_createRegularFile, Memory_readFile. rewrite (components_render fs), Hf by done.
    rewrite (put_open_kind _ ents) by done. cbn [mbind result_bind].
    unfold CreateMemoryRegularFile_isExecutable, CreateMemoryRegularFile_write.
    rewrite !components_render by done.
    destruct x; cbn [mbind result_bind CreateMemoryRegularFile_preallocateContents];
      rewrite !put_update by done; done.
  - inversion Hwf as [| |? Hes Hall]; subst.
    cbn [createDirectory sa_readDirectory MemorySink MemorySourceAccessor_accessor].
    unfold MemorySink_createDirectory. rewrite (put_open_kind _ ents) by done. cbn [mbind result_bind].
    rewrite (Memory_readDirectory_ok _ _ es) by done. cbn [mbind result_bind].
    destruct es as [|[m g] es]; [done|]. cbn [map fst snd].
    inversion Hall as [|? ? [[Hm _] Hg] _]; subst. cbn [fst snd] in *.
    rewrite (push_render fs), (push_render (cs ++ [n])) by done. cbn [mbind result_bind].
    pose proof (depth_entry (m, g) ((m, g) :: es) ltac:(by left)). cbn [snd] in *.
    rewrite (IH _ g _ []); [|lia|done|apply Forall_app; auto using Forall_singleton, valid_plain| | | |constructor].
    + unfold put at 1. rewrite put_update by done. done.
    + rewrite open_find_app, Hf. cbn. by rewrite str_eqb_refl.
    + apply Forall_app. split; [done|]. apply Forall_singleton. by destruct Hm.
    + by rewrite put_find.
  - cbn [createSymlink sa_readLink MemorySink MemorySourceAccessor_accessor].
    unfold Memory_readLink, MemorySink_createSymlink. rewrite (components_render fs), Hf by done. cbn [mbind result_bind].
    rewrite (put_open_kind _ ents) by done. cbn [mbind result_bind].
    rewrite components_render, put_update by done. done.
Qed.

(** [copyRecursive] copies of every directory only the first entry, in
    name order, because its loop breaks after one iteration: copying a
    well-formed tree into an empty in-memory file system yields the tree
    pruned to first entries, which differs from the source as soon as a
    directory has two entries. *)
Theorem copyRecursive_first_entry_only fuel es :
  file_wf (Directory es) → (depth (Directory es) <= fuel)%nat →
  copyRecursive fuel (Directory es : MemorySourceAccessor) cp_root MemorySourceAccessor_new cp_root
    = Ok (first_only (Directory es)) ∧
  ((2 <= length es)%nat → first_only (Directory es) ≠ Directory es).
Proof.
  intros Hwf Hd. split; [|destruct es as [|[m g] [|? ?]]; cbn; lia || done].
  destruct fuel as [|fuel]; [cbn in Hd; lia|]. inversion Hwf as [| |? Hes Hall]; subst.
  cbn [copyRecursive]. unfold lstat. cbn [sa_maybeLstat MemorySourceAccessor_accessor].
  change (Memory_maybeLstat cp_root (Directory es)) with (Some (File_lstat (Directory es))).
  cbn [mbind result_bind File_lstat st_type createDirectory sa_readDirectory MemorySink MemorySourceAccessor_accessor].
  change (MemorySink_createDirectory cp_root MemorySourceAccessor_new) with (Ok (Directory [])).
  cbn [mbind result_bind]. change cp_root with (render []).
  rewrite (Memory_readDirectory_ok [] _ es) by (done || constructor). cbn [mbind result_bind].
  destruct es as [|[m g] es]; [done|]. cbn [map fst snd].
  inversion Hall as [|? ? [[Hm _] Hg] _]; subst. cbn [fst snd] in *.
  rewrite !push_render by (done || constructor). cbn [mbind result_bind app].
  pose proof (depth_entry (m, g) ((m, g) :: es) ltac:(by left)). cbn [snd] in *.
  assert (Forall plain_comp [m]) by (apply Forall_singleton; by destruct Hm).
  change [m] with ([] ++ [m]).
  rewrite (copyRecursive_put _ _ _ g [] []); [done|lia|done|done| |done|done|constructor].
  cbn. by rewrite str_eqb_refl.
Qed.

Lemma copyRecursive_first_entry_only_witness :
  copyRecursive 2 (Directory [("a", Regular false "1"); ("b", Regular true "2")]%str : MemorySourceAccessor)
    cp_root MemorySourceAccessor_new cp_root = Ok (Directory [("a", Regular false "1")]%str).
Proof.
  apply (copyRecursive_first_entry_only 2 [("a", Regular false "1"); ("b", Regular true "2")]%str); [|cbn; lia].
  constructor.
  - apply (bool_decide_unpack _). vm_compute. exact I.
  - repeat apply Forall_cons_2; [..|constructor]; (split; [|constructor]);
      apply (bool_decide_unpack _); vm_compute; exact I.
Defined.

(** * Symbolic link resolution *)

Section resolve_proofs.
Context {A : Type} `{SourceAccessor A} (acc : A).

Definition is_symlink (cs : list str) : Prop :=
  ∃ st, sa_maybeLstat (render cs) acc = Some st ∧ st_type st = tSymlink.
(** No component of the path [cs] is a symbolic link. *)
Definition clean (cs : list str) : Prop := ∀ pre, pre ≠ [] → pre `prefix_of` cs → ¬ is_symlink pre.

Lemma clean_nil : clean [].
Proof. intros pre Hne Hp. by apply prefix_nil_inv in Hp. Qed.

Lemma clean_snoc cs c : clean cs → ¬ is_symlink (cs ++ [c]) → clean (cs ++ [c]).
Proof.
  intros Hc Hn pre Hne [suf E]. destruct suf as [|x suf _] using rev_ind.
  - rewrite app_nil_r in E. by subst.
  - rewrite app_assoc in E. apply app_inj_tail in E as [E _]. apply Hc; [done|]. by exists suf.
Qed.

Lemma clean_init cs c : clean (cs ++ [c]) → clean cs.
Proof. intros Hc pre Hne Hp. apply Hc; [done|]. by apply prefix_app_r. Qed.

Definition no_slash (c : str) : Prop := forallb (λ x, negb (is_slash x)) c = true.

Lemma tokenize_no_slash s : Forall no_slash (tokenizeString s "/").
Proof.
  rewrite tokenizeString_split, splitString_split_on.
  apply Forall_forall. intros c Hc. apply list_elem_of_In, filter_In in Hc as [Hc _].
  pose proof (split_on_pieces (char_in "/") s) as Hp. rewrite List.Forall_forall in Hp.
  specialize (Hp c Hc). unfold no_slash. rewrite forallb_forall in Hp |- *.
  intros x Hx. specialize (Hp x Hx). unfold char_in in Hp. unfold is_slash.
  revert Hp. case_bool_decide as H1; case_bool_decide as H2; try done. subst x. destruct H1. by left.
Qed.

(** The outcome the documentation of [SymlinkResolution] promises. *)
Definition resolved (full : bool) (r : result CanonPath) : Prop :=
  match r with
  | Ok p => ∃ cs, p = render cs ∧ Forall valid_comp cs ∧
      (if full then clean cs else ∀ cs' c, cs = cs' ++ [c] → clean cs')
  | Throw e => e = Error "infinite symlink recursion in path" ∨ ∃ p, sa_readLink p acc = Throw e
  end.

Lemma clean_resolved full cs : Forall valid_comp cs → clean cs → resolved full (Ok (render cs)).
Proof.
  intros Hv Hc. exists cs. split_and!; [done|done|]. destruct full; [done|].
  intros cs' c ->. by eapply clean_init.
Qed.

(** The loop body, folded back. *)
Lemma resolve_loop_cons links full res c todo :
  resolve_loop links full acc res (c :: todo) =
  if str_eqb c "" || str_eqb c "." then resolve_loop links full acc res todo
  else if str_eqb c ".." then
    if isRoot res then resolve_loop links full acc res todo
    else res ← pop res; resolve_loop links full acc res todo
  else
    res ← push res c;
    if full || negb (bool_decide (todo = [])) then
      match sa_maybeLstat res acc with
      | Some st =>
          if bool_decide (st_type st = tSymlink) then
            match links with
            | O => Throw (Error "infinite symlink recursion in path")
            | S links =>
                target ← sa_readLink res acc;
                res ← (if isAbsolute target then Ok cp_root else pop res);
                resolve_loop links full acc res (tokenizeString target "/" ++ todo)
            end
          else resolve_loop links full acc res todo
      | None => resolve_loop links full acc res todo
      end
    else resolve_loop links full acc res todo.
Proof. by destruct links. Qed.

Definition loop_ok (links : nat) (full : bool) : Prop := ∀ cs todo,
  Forall valid_comp cs → clean cs → Forall no_slash todo →
  resolved full (resolve_loop links full acc (render cs) todo).

(** One round, given the rounds with fewer links. *)
Lemma resolve_walk_ok links full :
  match links with O => True | S links => loop_ok links full end → loop_ok links full.
Proof.
  intros IHl cs todo. revert cs. induction todo as [|c todo IHt]; intros cs Hv Hc Ht.
  { destruct links; by apply clean_resolved. }
  inversion Ht as [|? ? Hns Ht']; subst. rewrite resolve_loop_cons.
  pose proof (valid_plain _ Hv) as Hp.
  destruct (str_eqb c "" || str_eqb c ".") eqn:E1; [by apply IHt|].
  apply orb_false_iff in E1 as [E1a E1b]. apply str_eqb_false in E1a, E1b.
  destruct (str_eqb c "..") eqn:E2.
  { rewrite isRoot_render by done. case_bool_decide; [by apply IHt|].
    destruct cs as [|d cs _] using rev_ind; [done|].
    apply Forall_app in Hv as [Hv1 Hv2]. apply Forall_singleton in Hv2 as [Hv2 _].
    rewrite pop_render by (first [by apply valid_plain | done]).
    apply IHt; [done|by eapply clean_init|done]. }
  apply str_eqb_false in E2. assert (valid_comp c) as Hvc by (by split_and!).
  rewrite push_render by done. cbn [mbind result_bind].
  assert (Forall valid_comp (cs ++ [c])) as Hv' by (apply Forall_app; auto).
  assert (¬ is_symlink (cs ++ [c]) → clean (cs ++ [c])) as Hcl by (by apply clean_snoc).
  destruct (full || negb (bool_decide (todo = []))) eqn:Ef.
  2: { apply orb_false_iff in Ef as [-> Ef]. apply negb_false_iff, bool_decide_eq_true in Ef. subst todo.
    replace (resolve_loop links false acc (render (cs ++ [c])) []) with (Ok (render (cs ++ [c])))
      by (by destruct links).
    exists (cs ++ [c]). split_and!; [done|done|]. intros cs' c' E. by apply app_inj_tail in E as [<- _]. }
  destruct (sa_maybeLstat (render (cs ++ [c])) acc) as [st|] eqn:Es.
  2: { apply IHt; [done|apply Hcl; intros (st & Hst & _); congruence|done]. }
  clear Ef. case_bool_decide as Hsym.
  2: { apply IHt; [done|apply Hcl; intros (st' & Hst & Hty); congruence|done]. }
  destruct links as [|links]; [by left|].
  destruct (sa_readLink _ acc) as [target|e] eqn:Erl; cbn [mbind result_bind]; [|right; eauto].
  assert (Forall no_slash (tokenizeString target "/" ++ todo)) by (apply Forall_app; auto using tokenize_no_slash).
  destruct (isAbsolute target); cbn [mbind result_bind].
  - apply (IHl []); [constructor|apply clean_nil|done].
  - rewrite pop_render by (first [done | by destruct Hvc]). cbn [mbind result_bind]. by apply IHl.
Qed.

Lemma resolve_loop_ok links full : loop_ok links full.
Proof. induction links; by apply resolve_walk_ok. Qed.
End resolve_proofs.

(** [C34] [resolveSymlinks], over any accessor: on a canonical path it either
    returns a canonical path, in mode [Full] without any component that is a
    symbolic link and in mode [Ancestors] with at most its last component a
    link, or it throws because more than 1024 links were followed or because
    the accessor could not read a link. It never violates the assertions of
    [CanonPath] and always terminates. *)
Theorem resolveSymlinks_spec {A} `{SourceAccessor A} (acc : A) (path : CanonPath) (mode : SymlinkResolution) :
  cp_wf path →
  match resolveSymlinks path mode acc with
  | Ok p => ∃ cs, p = render cs ∧ Forall valid_comp cs ∧
      match mode with
      | Full => clean acc cs
      | Ancestors => ∀ cs' c, cs = cs' ++ [c] → clean acc cs'
      end
  | Throw e => e = Error "infinite symlink recursion in path" ∨ ∃ p, sa_readLink p acc = Throw e
  end.
Proof.
  intros (cs & Hcs & ->). unfold resolveSymlinks. change cp_root with (render []).
  rewrite components_render by (by apply valid_plain).
  assert (Forall no_slash cs) as Hns.
  { eapply Forall_impl; [exact Hcs|]. intros c [[_ ?] _]. done. }
  pose proof (resolve_loop_ok acc (Z.to_nat 1024) (match mode with Full => true | Ancestors => false end)
    [] cs ltac:(constructor) (clean_nil acc) Hns) as Hr.
  unfold resolved in Hr. destruct (resolve_loop _ _ _ _ _); [|done]. by destruct mode.
Qed.

(** A relative and an absolute link, resolved. *)
Definition link_example : MemorySourceAccessor :=
  Directory [("a", Directory [("l", Symlink "../b/./m")]); ("b", Directory [("m", Symlink "/c")]);
             ("c", Regular false "x")]%str.
Lemma resolveSymlinks_spec_witness :
  resolveSymlinks (render ["a"; "l"]%str) Full link_example = Ok (render ["c"%str]) ∧
  clean link_example ["c"%str].
Proof.
  pose proof (resolveSymlinks_spec link_example (render ["a"; "l"]%str) Full) as H.
  assert (resolveSymlinks (render ["a"; "l"]%str) Full link_example = Ok (render ["c"%str])) as E
    by (vm_compute; reflexivity).
  rewrite E in H. destruct H as (cs & Ecs & Hv & Hc).
  { exists ["a"; "l"]%str. split; [|done]. apply (bool_decide_unpack _). vm_compute. exact I. }
  split; [done|]. apply render_inj in Ecs; [by subst| |by apply valid_plain].
  apply (bool_decide_unpack _). vm_compute. exact I.
Defined.
