(* ===== verification/Archive.v ===== *)
(** The archive (NAR) format: [libutil/archive.cc].

    [dumpPath] writes any [SourceAccessor] as an archive, [parseDump] reads an
    archive from any [Source] and drives any [FileSystemObjectSink]. The
    abstract specification is [nar], the archive of a tree, and [events],
    the calls a sink receives for it; the proofs relate both directions to
    it and instantiate it with the in-memory file system. *)

From S2P Require Import Prelude Strings CanonPath Serialise FileSystem.

Definition narVersionMagic1 : str := "bsd-archive-1".
Definition caseHackSuffix : str := "~bsd~case~hack~".

(** * Writing *)

Section dump.
Context {A : Type} `{SourceAccessor A} (useCaseHack : bool) (filter : str → bool) (acc : A).

Definition dumpContents (path : CanonPath) : result str :=
  s ← sa_readFile path acc;
  Ok (writeString "contents" ++ writeNum (Z.of_nat (length s)) ++ s ++ writePadding (length s)).

(** One round of the loop that undoes the case hack. *)
Definition unhack (unhacked : list (str * str)) (i : str * option FileType) : result (list (str * str)) :=
  if useCaseHack then
    let name := match find_str caseHackSuffix i.1 with Some pos => take pos i.1 | None => i.1 end in
    match smap_find name unhacked with
    | Some _ => Throw (Error "file name collision")
    | None => Ok (smap_insert name i.1 unhacked)
    end
  else
    match smap_find i.1 unhacked with
    | Some _ => Ok unhacked
    | None => Ok (smap_insert i.1 i.1 unhacked)
    end.

(** The recursive [dump]; [fuel] bounds the depth of the tree. *)
Fixpoint dump (fuel : nat) (path : CanonPath) : result str :=
  match fuel with
  | O => Throw NonTermination
  | S fuel =>
      st ← lstat path acc;
      body ← (match st_type st with
        | tRegular =>
            contents ← dumpContents path;
            Ok (writeString "type" ++ writeString "regular" ++
                (if st_isExecutable st then writeString "executable" ++ writeString "" else []) ++
                contents)
        | tDirectory =>
            entries ← sa_readDirectory path acc;
            unhacked ← foldR unhack [] entries;
            out ← foldR (λ (out : str) (i : str * str),
              path1 ← push path i.1;
              if filter (abs path1) then
                path2 ← push path i.2;
                node ← dump fuel path2;
                Ok (out ++ writeString "entry" ++ writeString "(" ++ writeString "name" ++
                    writeString i.1 ++ writeString "node" ++ node ++ writeString ")")
              else Ok out) [] unhacked;
            Ok (writeString "type" ++ writeString "directory" ++ out)
        | tSymlink =>
            target ← sa_readLink path acc;
            Ok (writeString "type" ++ writeString "symlink" ++ writeString "target" ++ writeString target)
        | _ => Throw (Error "file has an unsupported type")
        end);
      Ok (writeString "(" ++ body ++ writeString ")")
  end.

Definition dumpPath (fuel : nat) (path : CanonPath) : result str :=
  out ← dump fuel path; Ok (writeString narVersionMagic1 ++ out).
End dump.

Definition dumpString (s : str) : str :=
  writeString narVersionMagic1 ++ writeString "(" ++ writeString "type" ++ writeString "regular" ++
  writeString "contents" ++ writeString s ++ writeString ")".

(** * Reading *)

Definition badArchive (s : str) : exn := SerialisationError ("bad archive: " ++ s).

(** [CaseInsensitiveCompare]: keys are equivalent when [strcasecmp] is 0. *)
Fixpoint ci_find (name : str) (names : list (str * Z)) : option (str * Z) :=
  match names with
  | [] => None
  | (k, v) :: names => if str_eqb (toLower k) (toLower name) then Some (k, v) else ci_find name names
  end.
Fixpoint ci_bump (name : str) (names : list (str * Z)) : list (str * Z) :=
  match names with
  | [] => []
  | (k, v) :: names =>
      if str_eqb (toLower k) (toLower name) then (k, v + 1) :: names else (k, v) :: ci_bump name names
  end.

Definition chunk_size : Z := 65536.

Section parse.
Context {S K : Type} `{Source S, FileSystemObjectSink K} (useCaseHack : bool).

Definition getString (s : S) : result (str * S) := readString size_max s.

Definition expectTag (expected : str) (s : S) : result (unit * S) :=
  '(tag, s) ← getString s;
  if str_eqb tag expected then Ok (tt, s) else Throw (badArchive "expected tag").

(** The copy loop of [parseContents]. *)
Fixpoint contents_loop (fuel : nat) (path : CanonPath) (left : Z) (k : K) (s : S) : result (K * S) :=
  if left =? 0 then Ok (k, s)
  else match fuel with
       | O => Throw NonTermination
       | Datatypes.S fuel =>
           let n := if left <? chunk_size then left else chunk_size in
           '(buf, s) ← src_call (Z.to_nat n) s;
           k ← crf_write path buf k;
           contents_loop fuel path (left - n) k s
       end.

Definition parseContents (path : CanonPath) (k : K) (s : S) : result (K * S) :=
  '(size, s) ← readLongLong s;
  k ← crf_preallocateContents path size k;
  '(k, s) ← contents_loop (Datatypes.S (Z.to_nat (size / chunk_size))) path size k s;
  '(_, s) ← readPadding (Z.to_nat size) s;
  Ok (k, s).

Definition valid_nar_name (name : str) : bool :=
  negb (bool_decide (name = []) || str_eqb name "." || str_eqb name ".." ||
        existsb is_slash name || existsb (λ c, bool_decide (c = NUL)) name).

(** The case hack: the name to create and the updated table. *)
Definition caseHack (name : str) (names : list (str * Z)) : result (str * list (str * Z)) :=
  if useCaseHack then
    match ci_find name names with
    | Some (_, v) =>
        let names := ci_bump name names in
        let name := name ++ caseHackSuffix ++ std_to_string (v + 1) in
        match ci_find name names with
        | Some _ => Throw (badArchive "NAR contains file name that collides with case-hacked file name")
        | None => Ok (name, names)
        end
    | None => Ok (name, (name, 0) :: names)
    end
  else Ok (name, names).

(** [parse], and the entries loop of its directory case. Every recursive call
    follows the reading of a tag, so the number of bytes left bounds the fuel. *)
Fixpoint parse (fuel : nat) (path : CanonPath) (k : K) (s : S) {struct fuel} : result (K * S) :=
  match fuel with
  | O => Throw NonTermination
  | Datatypes.S fuel =>
      '(_, s) ← expectTag "(" s;
      '(_, s) ← expectTag "type" s;
      '(type, s) ← getString s;
      if str_eqb type "regular" then
        k ← createRegularFile path k;
        '(tag, s) ← getString s;
        '(tk, s) ← (if str_eqb tag "executable" then
            '(s2, s) ← getString s;
            if bool_decide (s2 = []) then
              k ← crf_isExecutable path k;
              '(tag, s) ← getString s;
              Ok (tag, k, s)
            else Throw (badArchive "executable marker has non-empty value")
          else Ok (tag, k, s));
        '(k, s) ← (if str_eqb tk.1 "contents" then parseContents path tk.2 s else Ok (tk.2, s));
        '(_, s) ← expectTag ")" s;
        Ok (k, s)
      else if str_eqb type "directory" then
        k ← createDirectory path k;
        parse_entries fuel path [] [] k s
      else if str_eqb type "symlink" then
        '(_, s) ← expectTag "target" s;
        '(target, s) ← getString s;
        k ← createSymlink path target k;
        '(_, s) ← expectTag ")" s;
        Ok (k, s)
      else Throw (badArchive "unknown file type")
  end
with parse_entries (fuel : nat) (path : CanonPath) (names : list (str * Z)) (prevName : str)
    (k : K) (s : S) {struct fuel} : result (K * S) :=
  match fuel with
  | O => Throw NonTermination
  | Datatypes.S fuel =>
      '(tag, s) ← getString s;
      if str_eqb tag ")" then Ok (k, s)
      else if str_eqb tag "entry" then
        '(_, s) ← expectTag "(" s;
        '(_, s) ← expectTag "name" s;
        '(name, s) ← getString s;
        if negb (valid_nar_name name) then Throw (badArchive "NAR contains invalid file name")
        else if str_leb name prevName then Throw (badArchive "NAR directory is not sorted")
        else
          '(name', names) ← caseHack name names;
          '(_, s) ← expectTag "node" s;
          path' ← push path name';
          '(k, s) ← parse fuel path' k s;
          '(_, s) ← expectTag ")" s;
          parse_entries fuel path names name k s
      else Throw (badArchive "expected tag 'entry' or ')'")
  end.

(** [parseDump]: a version that cannot be decoded is reported like a wrong one. *)
Definition parseDump (fuel : nat) (k : K) (s : S) : result (K * S) :=
  '(version, s) ← (match readString (Z.of_nat (length narVersionMagic1)) s with
    | Throw (SerialisationError _) => Ok ([], s)
    | r => r
    end);
  if str_eqb version narVersionMagic1 then parse fuel cp_root k s
  else Throw (badArchive "input doesn't look like a Bsd archive").
End parse.

(** [copyNAR]: parse with a sink that ignores everything, teeing the bytes. *)
#[export] Instance TeeSource_source {S K} `{Source S, Sink K} : Source (S * K) :=
  {| src_read := TeeSource_read |}.
Definition copyNAR {S K} `{Source S, Sink K} (useCaseHack : bool) (fuel : nat) (source : S) (sink : K)
    : result (S * K) :=
  '(_, wrapper) ← parseDump useCaseHack fuel tt (source, sink); Ok wrapper.

(** * Specification: the archive of a tree and the calls it stands for *)

Fixpoint nar_node (f : File) : str :=
  match f with
  | Regular x c =>
      writeString "(" ++ writeString "type" ++ writeString "regular" ++
      (if x then writeString "executable" ++ writeString "" else []) ++
      writeString "contents" ++ writeString c ++ writeString ")"
  | Directory es =>
      writeString "(" ++ writeString "type" ++ writeString "directory" ++
      concat (map (λ e, writeString "entry" ++ writeString "(" ++ writeString "name" ++
        writeString e.1 ++ writeString "node" ++ nar_node e.2 ++ writeString ")") es) ++
      writeString ")"
  | Symlink t =>
      writeString "(" ++ writeString "type" ++ writeString "symlink" ++ writeString "target" ++
      writeString t ++ writeString ")"
  end.
Definition nar (f : File) : str := writeString narVersionMagic1 ++ nar_node f.

Definition nar_entry (e : str * File) : str :=
  writeString "entry" ++ writeString "(" ++ writeString "name" ++ writeString e.1 ++
  writeString "node" ++ nar_node e.2 ++ writeString ")".

(** The calls on a file system object sink. *)
Inductive fso_event :=
  | EvDirectory (path : CanonPath)
  | EvSymlink (path : CanonPath) (target : str)
  | EvRegular (path : CanonPath)
  | EvExecutable (path : CanonPath)
  | EvPreallocate (path : CanonPath) (size : Z)
  | EvWrite (path : CanonPath) (data : str).

Definition run_event {K} `{FileSystemObjectSink K} (k : K) (e : fso_event) : result K :=
  match e with
  | EvDirectory p => createDirectory p k
  | EvSymlink p t => createSymlink p t k
  | EvRegular p => createRegularFile p k
  | EvExecutable p => crf_isExecutable p k
  | EvPreallocate p n => crf_preallocateContents p n k
  | EvWrite p d => crf_write p d k
  end.
Abbreviation run := (foldR run_event).

(** Contents are delivered in blocks of 64 KiB. *)
Fixpoint chunks (fuel : nat) (c : str) : list str :=
  match c, fuel with
  | [], _ | _, O => []
  | _, S fuel => take (Z.to_nat chunk_size) c :: chunks fuel (drop (Z.to_nat chunk_size) c)
  end.

Fixpoint events (cs : list str) (f : File) : list fso_event :=
  match f with
  | Regular x c =>
      EvRegular (render cs) :: (if x then [EvExecutable (render cs)] else []) ++
      EvPreallocate (render cs) (Z.of_nat (length c)) :: map (EvWrite (render cs)) (chunks (length c) c)
  | Directory es =>
      EvDirectory (render cs) :: concat (map (λ e, events (cs ++ [e.1]) e.2) es)
  | Symlink t => [EvSymlink (render cs) t]
  end.

(** The fuel [parse] needs for a tree. *)
Fixpoint need (f : File) : nat :=
  match f with
  | Directory es => S (foldr (λ e n, S (Nat.max (need e.2) n)) 1%nat es)
  | _ => 1
  end.
Definition needs (es : list (str * File)) : nat := foldr (λ e n, S (Nat.max (need e.2) n)) 1%nat es.

Lemma foldR_app {A T} (f : T → A → result T) s l m :
  foldR f s (l ++ m) = (s' ← foldR f s l; foldR f s' m).
Proof.
  revert s. induction l as [|x l IH]; intros s; cbn; [done|]. destruct (f s x); cbn; [apply IH|done].
Qed.

Lemma foldR_app_inv {A T} (f : T → A → result T) s l m r :
  foldR f s (l ++ m) = Ok r → ∃ s', foldR f s l = Ok s' ∧ foldR f s' m = Ok r.
Proof. rewrite foldR_app. destruct (foldR f s l); cbn; [eauto|done]. Qed.

Lemma str_leb_lt s t : str_lt t s → str_leb s t = false.
Proof. intros Hlt. unfold str_leb. by rewrite (str_lt_gt _ _ Hlt). Qed.

Lemma str_lt_nil n : n ≠ [] → str_lt [] n.
Proof. by destruct n. Qed.

Lemma valid_nar_name_ok n : name_ok n → valid_nar_name n = true.
Proof.
  intros ([[Hne Hs] [H1 H2]] & H0 & _). unfold valid_nar_name.
  rewrite bool_decide_false, (proj2 (str_eqb_false _ _) H1), (proj2 (str_eqb_false _ _) H2) by done.
  cbn [orb]. apply negb_true_iff, orb_false_iff. split; apply not_true_iff_false; rewrite existsb_exists.
  - intros (x & Hx & Hsl). rewrite forallb_forall in Hs. apply Hs in Hx. by rewrite Hsl in Hx.
  - intros (x & Hx & Hz). apply bool_decide_eq_true in Hz as ->. by apply list_elem_of_In in Hx.
Qed.

(** * Reading an archive drives the sink through its events *)

Section parse_proofs.
Context {S K : Type} `{SourceOk S, FileSystemObjectSink K}.

Lemma parses_word {T} (r : S → result (T * S)) w w' a : w = w' → parses r w a → parses r w' a.
Proof. by intros ->. Qed.

Lemma getString_parses x : str_fits x → parses getString (writeString x) x.
Proof. apply readString_parses'. Qed.

Lemma expectTag_parses x : str_fits x → parses (expectTag x) (writeString x) tt.
Proof.
  intros Hx. eapply (parses_bind_ret getString); [by apply getString_parses|].
  intros s. by rewrite str_eqb_refl.
Qed.

Lemma contents_loop_parses fuel fuel' path c k k' :
  foldR run_event k (map (EvWrite path) (chunks fuel' c)) = Ok k' → (length c <= fuel')%nat →
  Z.of_nat (length c) ≤ chunk_size * Z.of_nat fuel →
  parses (contents_loop (S := S) fuel path (Z.of_nat (length c)) k) c k'.
Proof.
  revert fuel' c k. induction fuel as [|fuel IH]; intros fuel' c k Hrun Hf' Hf.
  all: destruct c as [|x c]; [destruct fuel'; cbn in Hrun; injection Hrun as ->; apply parses_ret|].
  { cbn [length] in Hf. lia. }
  remember (x :: c) as cc eqn:Ecc. assert (0 < length cc)%nat by (subst; cbn; lia).
  cbn [contents_loop]. rewrite (proj2 (Z.eqb_neq _ 0)) by lia. cbv zeta.
  destruct fuel' as [|fuel']; [lia|].
  assert (chunks (Datatypes.S fuel') cc = take (Z.to_nat chunk_size) cc :: chunks fuel' (drop (Z.to_nat chunk_size) cc))
    as Ech by (by subst cc).
  rewrite Ech in Hrun. cbn [map foldR] in Hrun. unfold chunk_size in *.
  set (n := if Z.of_nat (length cc) <? 65536 then Z.of_nat (length cc) else 65536).
  assert (Hn : take (Z.to_nat 65536) cc = take (Z.to_nat n) cc ∧ drop (Z.to_nat 65536) cc = drop (Z.to_nat n) cc
    ∧ 0 < n ≤ 65536 ∧ (Z.to_nat n <= length cc)%nat ∧ Z.of_nat (length cc) - n = Z.of_nat (length (drop (Z.to_nat n) cc))
    ∧ Z.of_nat (length cc) - n ≤ 65536 * Z.of_nat fuel).
  { rewrite length_drop. unfold n. destruct (Z.ltb_spec (Z.of_nat (length cc)) 65536).
    - rewrite !take_ge, !drop_ge by lia. split_and!; try done; try lia.
    - split_and!; try done; try lia. }
  destruct Hn as (Ht & Hd & Hn1 & Hn2 & Hn3 & Hn4). rewrite Ht, Hd in Hrun.
  eapply parses_word; [apply (take_drop (Z.to_nat n) cc)|].
  eapply (parses_bind (src_call (Z.to_nat n))).
  { apply src_call_parses'. rewrite length_take. lia. }
  destruct (run_event k (EvWrite path (take (Z.to_nat n) cc))) as [k1|] eqn:E1; [|done].
  cbn [run_event] in E1. cbn [mbind result_bind] in Hrun. cbn beta. rewrite E1. cbn [mbind result_bind].
  rewrite Hn3. eapply IH; [exact Hrun|rewrite length_drop; lia|lia].
Qed.

Lemma parseContents_parses path c k k' :
  str_fits c →
  foldR run_event k (EvPreallocate path (Z.of_nat (length c)) :: map (EvWrite path) (chunks (length c) c)) = Ok k' →
  parses (parseContents (S := S) path k) (writeString c) k'.
Proof.
  intros Hc Hrun. unfold str_fits in Hc. unfold writeString.
  eapply (parses_bind readLongLong); [apply readNum_parses; unfold size_max; lia|]. cbn beta.
  cbn [foldR run_event] in Hrun.
  destruct (crf_preallocateContents path _ k) as [k1|] eqn:E1; cbn [mbind result_bind] in Hrun |- *; [|done].
  rewrite Nat2Z.id.
  eapply (parses_bind (contents_loop _ path _ k1)).
  { eapply contents_loop_parses; [exact Hrun|lia|]. unfold chunk_size in *.
    pose proof (Z.mod_pos_bound (Z.of_nat (length c)) 65536).
    pose proof (Z_div_mod_eq_full (Z.of_nat (length c)) 65536).
    rewrite Nat2Z.inj_succ, Z2Nat.id by (apply Z.div_pos; lia). lia. }
  cbn beta. by eapply (parses_bind_ret (readPadding _)); [apply readPadding_parses|].
Qed.
(** Read a fixed tag, and go on. *)
Ltac tag := eapply (parses_bind (expectTag _)); [apply expectTag_parses; done|]; cbn beta.
Ltac getstr := eapply (parses_bind getString); [apply getString_parses; done|]; cbn beta.

Definition node_ok (fuel : nat) : Prop := ∀ cs f k k',
  foldR run_event k (events cs f) = Ok k' → file_wf f → Forall plain_comp cs → (need f <= fuel)%nat →
  parses (parse (S := S) false fuel (render cs) k) (nar_node f) k'.
Definition entries_ok (fuel : nat) : Prop := ∀ cs es names prev k k',
  foldR run_event k (concat (map (λ e, events (cs ++ [e.1]) e.2) es)) = Ok k' →
  smap_wf es → Forall (λ e, name_ok e.1 ∧ file_wf e.2) es → Forall (str_lt prev) es.*1 →
  Forall plain_comp cs → (needs es <= fuel)%nat →
  parses (parse_entries (S := S) false fuel (render cs) names prev k)
    (concat (map nar_entry es) ++ writeString ")") k'.

Lemma regular_parses fuel cs x c k k' :
  foldR run_event k (events cs (Regular x c)) = Ok k' → str_fits c →
  parses (parse (S := S) false (Datatypes.S fuel) (render cs) k) (nar_node (Regular x c)) k'.
Proof.
  intros Hrun Hc. cbn [nar_node parse]. tag. tag. getstr. cbn [str_eqb]. rewrite str_eqb_refl.
  cbn [events] in Hrun. cbn [foldR run_event] in Hrun.
  destruct (createRegularFile (render cs) k) as [k1|]; cbn [mbind result_bind] in Hrun |- *; [|done].
  apply foldR_app_inv in Hrun as (k2 & Hx & Hrun).
  destruct x.
  - rewrite <- app_assoc. getstr. change (str_eqb "executable" "executable") with true. cbn [foldR run_event] in Hx.
    destruct (crf_isExecutable (render cs) k1) as [k1'|]; cbn [mbind result_bind] in Hx; [|done].
    injection Hx as ->. rewrite app_assoc.
    eapply (parses_bind _ _ (writeString "" ++ writeString "contents") _ ("contents"%str, k2)).
    + getstr. cbn [bool_decide decide_rel]. eapply (parses_bind_ret getString); [by apply getString_parses|done].
    + cbn [fst snd]. change (str_eqb "contents" "contents") with true. cbn iota.
      eapply (parses_bind (parseContents _ _)); [by apply parseContents_parses|]. cbn beta.
      eapply (parses_bind_ret (expectTag _)); [by apply expectTag_parses|done].
  - cbn [app foldR] in *. injection Hx as ->. getstr. change (str_eqb "contents" "executable") with false. cbn iota.
    eapply parses_word; [apply app_nil_l|]. eapply (parses_bind (λ s, Ok (("contents"%str, k2), s))); [apply parses_ret|].
    cbn [fst snd]. change (str_eqb "contents" "contents") with true. cbn iota.
    eapply (parses_bind (parseContents _ _)); [by apply parseContents_parses|]. cbn beta.
    eapply (parses_bind_ret (expectTag _)); [by apply expectTag_parses|done].
Qed.

Lemma symlink_parses fuel cs t k k' :
  foldR run_event k (events cs (Symlink t)) = Ok k' → str_fits t →
  parses (parse (S := S) false (Datatypes.S fuel) (render cs) k) (nar_node (Symlink t)) k'.
Proof.
  intros Hrun Ht. cbn [nar_node parse]. tag. tag. getstr.
  change (str_eqb "symlink" "regular") with false. change (str_eqb "symlink" "directory") with false.
  change (str_eqb "symlink" "symlink") with true. cbn iota. tag. getstr.
  cbn [events foldR run_event] in Hrun.
  destruct (createSymlink (render cs) t k) as [k1|]; cbn [mbind result_bind] in Hrun |- *; [|done].
  injection Hrun as ->. eapply (parses_bind_ret (expectTag _)); [by apply expectTag_parses|done].
Qed.

Lemma entries_step fuel : node_ok fuel → entries_ok fuel → entries_ok (Datatypes.S fuel).
Proof.
  intros IHn IHe cs es names prev k k' Hrun Hes Hall Hprev Hcs Hneed. cbn [parse_entries].
  destruct es as [|[n f] es].
  { cbn [map concat app foldR] in *. injection Hrun as ->.
    eapply (parses_bind_ret getString); [by apply getString_parses|]. done. }
  cbn [map concat needs foldr fst snd] in *. unfold nar_entry at 1. rewrite <- !app_assoc. cbn [fst snd].
  inversion Hall as [|? ? [Hn Hf] Hall']; subst. inversion Hprev as [|? ? Hp _]; subst. cbn [fst snd] in *.
  unfold smap_wf in Hes. cbn in Hes. inversion Hes as [|? ? Hes' Hlt]; subst.
  apply foldR_app_inv in Hrun as (k1 & Hr1 & Hr2).
  getstr. change (str_eqb "entry" ")") with false. change (str_eqb "entry" "entry") with true. cbn iota.
  tag. tag. eapply (parses_bind getString); [apply getString_parses; by destruct Hn as (_ & _ & ?)|]. cbn beta.
  rewrite valid_nar_name_ok, str_leb_lt by done. cbn [negb caseHack mbind result_bind]. tag.
  destruct Hn as [Hv _]. rewrite push_render by done. cbn [mbind result_bind].
  eapply (parses_bind (parse false fuel _ k)).
  { eapply IHn; [exact Hr1|done| |unfold needs in Hneed; cbn in Hneed; lia].
    apply Forall_app. split; [done|]. apply Forall_singleton. by destruct Hv. }
  cbn beta. tag. eapply IHe; [exact Hr2|done|done|done|done|unfold needs in *; cbn in Hneed; lia].
Qed.

Lemma node_step fuel : entries_ok fuel → node_ok (Datatypes.S fuel).
Proof.
  intros IHe cs f k k' Hrun Hwf Hcs Hneed. inversion Hwf as [x c Hc|t Ht|es Hes Hall]; subst.
  - by apply regular_parses.
  - by apply symlink_parses.
  - cbn [nar_node parse]. tag. tag. getstr.
    change (str_eqb "directory" "regular") with false. change (str_eqb "directory" "directory") with true. cbn iota.
    cbn [events foldR run_event] in Hrun.
    destruct (createDirectory (render cs) k) as [k1|]; cbn [mbind result_bind] in Hrun |- *; [|done].
    eapply IHe; [exact Hrun|done|done| |done|cbn in Hneed; unfold needs; lia].
    apply Forall_fmap. eapply Forall_impl; [exact Hall|]. intros e [[[[Hne _] _] _] _]. by apply str_lt_nil.
Qed.

Lemma parse_run fuel : node_ok fuel ∧ entries_ok fuel.
Proof.
  induction fuel as [|fuel [IH1 IH2]].
  - split.
    + intros cs f k k' _ _ _ Hn. destruct f; cbn in Hn; lia.
    + intros cs es ???? _ _ _ _ _ Hn. destruct es as [|[? ?] ?]; unfold needs in Hn; cbn in Hn; lia.
  - split; [by apply node_step|by apply entries_step].
Qed.
End parse_proofs.

(** * The in-memory sink rebuilds the tree *)

Lemma chunks_concat fuel c : (length c <= fuel)%nat → concat (chunks fuel c) = c.
Proof.
  revert c. induction fuel as [|fuel IH]; intros [|x c] Hf; try (done || (cbn in Hf; lia)).
  remember (x :: c) as cc eqn:E. assert (length cc = S (length c)) by (by subst).
  assert (chunks (S fuel) cc = take (Z.to_nat chunk_size) cc :: chunks fuel (drop (Z.to_nat chunk_size) cc))
    as -> by (by subst).
  cbn [concat]. rewrite IH, take_drop; [done|]. rewrite length_drop. unfold chunk_size in *. lia.
Qed.

Section memory.
Context (cs : list str) (ents : list (str * File)) (n : str) (R : File).
Context (Hcs : Forall plain_comp (cs ++ [n])).
Context (Hdir : open_find cs R = Some (Directory ents)).
Context (Hfresh : Forall (λ k, str_lt k n) ents.*1).

Lemma run_writes x c ds :
  foldR run_event (put cs ents n R (Regular x c)) (map (EvWrite (render (cs ++ [n]))) ds)
    = Ok (put cs ents n R (Regular x (c ++ concat ds))).
Proof.
  revert c. induction ds as [|d ds IH]; intros c; cbn [map foldR concat]; [by rewrite app_nil_r|].
  cbn [run_event crf_write MemorySink]. unfold CreateMemoryRegularFile_write.
  rewrite components_render, put_update by done. cbn [mbind result_bind]. by rewrite IH, app_assoc.
Qed.

Lemma run_regular x c :
  foldR run_event R (events (cs ++ [n]) (Regular x c)) = Ok (put cs ents n R (Regular x c)).
Proof.
  cbn [events foldR run_event createRegularFile MemorySink]. unfold MemorySink_createRegularFile.
  rewrite (put_open_kind _ ents) by done. cbn [mbind result_bind].
  rewrite foldR_app. destruct x; cbn [foldR run_event crf_isExecutable MemorySink mbind result_bind].
  1: unfold CreateMemoryRegularFile_isExecutable; rewrite components_render, put_update by done.
  all: cbn [mbind result_bind crf_preallocateContents MemorySink CreateMemoryRegularFile_preallocateContents].
  all: unfold CreateMemoryRegularFile_preallocateContents; cbn [mbind result_bind].
  all: by rewrite run_writes, chunks_concat.
Qed.

Lemma run_symlink t :
  foldR run_event R (events (cs ++ [n]) (Symlink t)) = Ok (put cs ents n R (Symlink t)).
Proof.
  cbn [events foldR run_event createSymlink MemorySink]. unfold MemorySink_createSymlink.
  rewrite (put_open_kind _ ents) by done. cbn [mbind result_bind].
  by rewrite components_render, put_update by done.
Qed.
End memory.

Lemma smap_wf_mid {V} (l k : list (str * V)) n v :
  smap_wf (l ++ (n, v) :: k) → Forall (λ k', str_lt k' n) l.*1.
Proof.
  unfold smap_wf. rewrite fmap_app. cbn. intros Hs. apply Forall_forall. intros x Hx.
  eapply StronglySorted_app_1_elem_of; [exact Hs|done|]. by left.
Qed.

(** Entries added one by one to the directory [cs]. *)
Lemma run_tree m f : (depth f <= m)%nat → file_wf f → ∀ cs ents n R,
  Forall plain_comp (cs ++ [n]) → open_find cs R = Some (Directory ents) →
  Forall (λ k, str_lt k n) ents.*1 →
  foldR run_event R (events (cs ++ [n]) f) = Ok (put cs ents n R f).
Proof.
  revert f. induction m as [|m IH]; intros f Hd Hwf cs ents n R Hcs Hdir Hfresh.
  { destruct f; cbn in Hd; lia. }
  inversion Hwf as [x c Hc|t Ht|es Hes Hall]; subst; [by apply run_regular|by apply run_symlink|].
  cbn [events foldR run_event createDirectory MemorySink]. unfold MemorySink_createDirectory.
  rewrite (put_open_kind _ ents) by done. cbn [mbind result_bind].
  enough (∀ done todo, es = done ++ todo →
    foldR run_event (put cs ents n R (Directory done)) (concat (map (λ e, events ((cs ++ [n]) ++ [e.1]) e.2) todo))
      = Ok (put cs ents n R (Directory es))) as Hgo by (by apply (Hgo [] es)).
  intros dn todo. revert dn. induction todo as [|[nm g] todo IHt]; intros dn E.
  { cbn. by rewrite E, app_nil_r. }
  cbn [map concat fst snd]. rewrite foldR_app.
  assert (Hin : (nm, g) ∈ es) by (rewrite E; set_solver).
  rewrite Forall_forall in Hall. destruct (Hall _ Hin) as [[[Hnm _] _] Hg]. cbn [fst snd] in *.
  pose proof (depth_entry _ _ Hin). cbn [snd] in *.
  pose proof Hes as Hlt. rewrite E in Hlt. apply smap_wf_mid in Hlt.
  rewrite (IH g ltac:(lia) Hg _ dn nm); [| |by rewrite put_find|done].
  2: { apply Forall_app. split; [done|]. by apply Forall_singleton. }
  cbn [mbind result_bind]. unfold put at 1. rewrite put_update by done.
  apply IHt. rewrite E, <- app_assoc. done.
Qed.

(** The root directory itself already exists. *)
Lemma run_root es :
  file_wf (Directory es) → foldR run_event MemorySourceAccessor_new (events [] (Directory es)) = Ok (Directory es).
Proof.
  intros Hwf. inversion Hwf as [| |? Hes Hall]; subst. cbn [events foldR run_event createDirectory MemorySink].
  change (MemorySink_createDirectory (render []) MemorySourceAccessor_new) with (Ok (Directory [])).
  cbn [mbind result_bind].
  enough (∀ done todo, es = done ++ todo →
    foldR run_event (Directory done) (concat (map (λ e, events ([] ++ [e.1]) e.2) todo))
      = Ok (Directory es)) as Hgo by (by apply (Hgo [] es)).
  intros dn todo. revert dn. induction todo as [|[nm g] todo IHt]; intros dn E.
  { cbn. by rewrite E, app_nil_r. }
  cbn [map concat fst snd]. rewrite foldR_app.
  assert (Hin : (nm, g) ∈ es) by (rewrite E; set_solver).
  rewrite Forall_forall in Hall. destruct (Hall _ Hin) as [[[Hnm _] _] Hg]. cbn [fst snd] in *.
  pose proof Hes as Hlt. rewrite E in Hlt. apply smap_wf_mid in Hlt.
  rewrite (run_tree _ g (le_n _) Hg [] dn nm); [|by apply Forall_singleton|done|done].
  cbn [mbind result_bind]. apply IHt. rewrite E, <- app_assoc. done.
Qed.

(** * The fuel is bounded by the size of the archive *)

Lemma nar_node_length f : (need f <= length (nar_node f))%nat.
Proof.
  remember (depth f) as m eqn:Em. assert (Hm : (depth f <= m)%nat) by lia. clear Em.
  revert f Hm. induction m as [|m IH]; intros f Hm; [destruct f; cbn in Hm; lia|].
  destruct f as [x c|es|t]; cbn [need nar_node]; rewrite !length_app.
  1, 3: change (length (writeString "(")) with 16%nat; lia.
  change (length (writeString "(")) with 16%nat. change (length (writeString ")")) with 16%nat.
  enough (∀ todo, todo ⊆ es → (foldr (λ e n, S (Nat.max (need e.2) n)) 1 todo <= S (length (concat (map nar_entry todo))))%nat)
    as Hgo. { specialize (Hgo es ltac:(done)). unfold nar_entry in Hgo. lia. }
  induction todo as [|e todo IHt]; intros Hsub; [cbn; lia|]. cbn [foldr map concat]. rewrite length_app.
  assert (He : e ∈ es) by set_solver. pose proof (depth_entry _ _ He).
  specialize (IH e.2 ltac:(lia)). specialize (IHt ltac:(set_solver)).
  unfold nar_entry at 1. rewrite !length_app. change (length (writeString "entry")) with 16%nat. lia.
Qed.

(** * Writing produces the archive of the tree *)

Lemma smap_find_in {V} n (v : V) m : smap_wf m → (n, v) ∈ m → smap_find n m = Some v.
Proof.
  unfold smap_wf. induction m as [|[k w] m IH]; intros Hm Hin; [by apply not_elem_of_nil in Hin|].
  cbn in *. inversion Hm as [|? ? Hm' Hlt]; subst. apply list_elem_of_In in Hin. destruct Hin as [E|Hin].
  - injection E as -> ->. by rewrite str_eqb_refl.
  - rewrite (proj2 (str_eqb_false k n)); [apply IH; [done|by apply list_elem_of_In]|].
    intros ->. rewrite Forall_forall in Hlt. apply (str_lt_irrefl n), Hlt.
    apply list_elem_of_fmap. exists (n, v). split; [done|by apply list_elem_of_In].
Qed.

Section dump_proofs.
Context (filter : str → bool) (root : MemorySourceAccessor).

(** The tree without the entries the filter rejects. *)
Fixpoint prune (cs : list str) (f : File) : File :=
  match f with
  | Directory es =>
      Directory (concat (map (λ e,
        if filter (abs (render (cs ++ [e.1]))) then [(e.1, prune (cs ++ [e.1]) e.2)] else []) es))
  | f => f
  end.

Lemma unhack_all (es : list (str * option FileType)) :
  smap_wf es → foldR (unhack false) [] es = Ok (map (λ e, (e.1, e.1)) es).
Proof.
  intros Hes. enough (∀ dn todo, es = dn ++ todo →
    foldR (unhack false) (map (λ e, (e.1, e.1)) dn) todo = Ok (map (λ e, (e.1, e.1)) es)) as Hgo
    by (by apply (Hgo [] es)).
  intros dn todo. revert dn. induction todo as [|[n x] todo IH]; intros dn E.
  { cbn. by rewrite E, app_nil_r. }
  pose proof Hes as Hlt. rewrite E in Hlt. apply smap_wf_mid in Hlt.
  assert (Forall (λ k, str_lt k n) (map (λ e, (e.1, e.1)) dn : list (str * str)).*1) as Hlt'.
  { apply Forall_fmap, Forall_fmap. apply Forall_fmap in Hlt. exact Hlt. }
  cbn [foldR unhack fst]. unfold unhack at 1. cbn [fst].
  rewrite smap_find_fresh, smap_insert_snoc by done. cbn [mbind result_bind].
  change [(n, n)] with (map (λ e : str * option FileType, (e.1, e.1)) [(n, x)]).
  rewrite <- map_app. apply IH. by rewrite <- app_assoc.
Qed.

Lemma dump_ok fuel cs f :
  (depth f <= fuel)%nat → file_wf f → Forall plain_comp cs → open_find cs root = Some f →
  dump false filter root fuel (render cs) = Ok (nar_node (prune cs f)).
Proof.
  revert cs f. induction fuel as [|fuel IH]; intros cs f Hd Hwf Hcs Hf; [destruct f; cbn in Hd; lia|].
  cbn [dump]. unfold lstat. cbn [sa_maybeLstat MemorySourceAccessor_accessor]. unfold Memory_maybeLstat.
  rewrite components_render, Hf by done. cbn [fmap option_fmap option_map mbind result_bind].
  inversion Hwf as [x c Hc|t Ht|es Hes Hall]; subst; cbn [File_lstat st_type st_isExecutable].
  - unfold dumpContents. cbn [sa_readFile MemorySourceAccessor_accessor]. unfold Memory_readFile.
    rewrite components_render, Hf by done. cbn [mbind result_bind prune nar_node].
    change (writeString c) with (writeNum (Z.of_nat (length c)) ++ c ++ writePadding (length c)).
    by rewrite <- !app_assoc.
  - cbn [sa_readLink MemorySourceAccessor_accessor]. unfold Memory_readLink.
    rewrite components_render, Hf by done. cbn [mbind result_bind prune nar_node]. by rewrite <- !app_assoc.
  - cbn [sa_readDirectory MemorySourceAccessor_accessor]. rewrite (Memory_readDirectory_ok _ _ es) by done.
    cbn [mbind result_bind]. rewrite unhack_all.
    2: { unfold smap_wf. rewrite <- list_fmap_compose. exact Hes. }
    cbn [mbind result_bind]. rewrite !map_map. cbn [fst].
    match goal with |- context [foldR ?F [] ?L] =>
      assert (∀ out todo, todo ⊆ es → foldR F out (map (λ e, (e.1, e.1)) todo) =
        Ok (out ++ concat (map nar_entry (concat (map (λ e,
          if filter (abs (render (cs ++ [e.1]))) then [(e.1, prune (cs ++ [e.1]) e.2)] else []) todo))))) as Hgo end.
    { intros out todo. revert out. induction todo as [|[n g] todo IHt]; intros out Hsub.
      { cbn. by rewrite app_nil_r. }
      assert (Hin : (n, g) ∈ es) by set_solver. pose proof (depth_entry _ _ Hin).
      rewrite Forall_forall in Hall. destruct (Hall _ Hin) as [[Hn _] Hg]. cbn [fst snd] in *.
      cbn [map concat foldR fst snd]. rewrite push_render by done. cbn [mbind result_bind].
      destruct (filter (abs (render (cs ++ [n])))); cbn [mbind result_bind]; [|apply IHt; set_solver].
      rewrite (IH (cs ++ [n]) g); [|lia|done|apply Forall_app; split; [done|]; apply Forall_singleton; by destruct Hn|].
      - cbn [mbind result_bind map concat app]. rewrite IHt by set_solver. unfold nar_entry at 2. cbn [fst snd].
        by rewrite <- !app_assoc.
      - rewrite open_find_app, Hf. cbn. by rewrite (smap_find_in n g es). }
    rewrite (Hgo [] es) by done. cbn [mbind result_bind app prune nar_node]. by rewrite <- ?app_assoc.
Qed.
End dump_proofs.

Lemma prune_id m cs f : (depth f <= m)%nat → prune (λ _, true) cs f = f.
Proof.
  revert cs f. induction m as [|m IH]; intros cs f Hd; [destruct f; cbn in Hd; lia|].
  destruct f as [| es |]; cbn [prune]; [done| |done]. f_equal.
  assert (∀ todo, todo ⊆ es → concat (map (λ e, [(e.1, prune (λ _, true) (cs ++ [e.1]) e.2)]) todo) = todo) as Hgo;
    [|by apply Hgo].
  induction todo as [|[n g] todo IHt]; intros Hsub; [done|]. cbn [map concat app fst snd].
  assert (Hin : (n, g) ∈ es) by set_solver. pose proof (depth_entry _ _ Hin). cbn [snd] in *.
  rewrite IH by lia. f_equal. apply IHt. set_solver.
Qed.

Lemma parseDump_run {S K} `{SourceOk S, FileSystemObjectSink K} f (k k' : K) fuel :
  foldR run_event k (events [] f) = Ok k' → file_wf f → (length (nar_node f) <= fuel)%nat →
  parses (parseDump (S := S) false fuel k) (nar f) k'.
Proof.
  intros Hrun Hwf Hf. unfold nar.
  eapply (parses_bind _ (λ version s, if str_eqb version narVersionMagic1 then parse false fuel cp_root k s
    else Throw (badArchive "input doesn't look like a Bsd archive"))).
  - intros s d Hs.
    destruct (readString_parses (S := S) (Z.of_nat (length narVersionMagic1)) narVersionMagic1) with (3 := Hs)
      as (s' & E & Hs'); [lia|done|]. exists s'. by rewrite E.
  - cbn beta. rewrite str_eqb_refl. change cp_root with (render []).
    apply (proj1 (parse_run fuel)); [done|done|constructor|]. pose proof (nar_node_length f). lia.
Qed.

(** * Arbitrary input *)

(** The exceptions a caller can handle. *)
Definition clean_exn (e : exn) : Prop :=
  e ≠ NonTermination ∧ e ≠ AssertionFailure ∧ e ≠ UndefinedBehaviour.

(** On a stream of at most [L] bytes, [r] returns after consuming at least
    [n] of them, or throws an ordinary exception. *)
Definition total {S T} `{SourceOk S} (r : S → result (T * S)) (P : T → Prop) (n L : nat) : Prop :=
  ∀ s d, denotes s d → (length d <= L)%nat →
  match r s with
  | Ok (x, s') => P x ∧ ∃ d', denotes s' d' ∧ (length d' + n <= length d)%nat
  | Throw e => clean_exn e
  end.

Lemma clean_exn_intro e :
  match e with NonTermination | AssertionFailure | UndefinedBehaviour => False | _ => True end → clean_exn e.
Proof. by destruct e. Qed.
#[export] Hint Extern 1 (clean_exn _) => apply clean_exn_intro; exact I : core.

Section total.
Context {S : Type} `{SourceOk S}.
Abbreviation any := (λ _, True).

Lemma total_weaken {T} (r : S → result (T * S)) P Q n m L L' :
  total r P n L' → (m <= n)%nat → (L <= L')%nat → (∀ x, P x → Q x) → total r Q m L.
Proof.
  intros Hr Hm HL HP s d Hs Hd. specialize (Hr s d Hs ltac:(lia)). destruct (r s) as [[x s']|]; [|done].
  destruct Hr as [Hx (d' & ? & ?)]. split; [auto|]. exists d'. split; [done|lia].
Qed.

Lemma total_ret {T} (x : T) (P : T → Prop) L : P x → total (S := S) (λ s, Ok (x, s)) P 0 L.
Proof. intros Hx s d Hs Hd. split; [done|]. exists d. split; [done|lia]. Qed.

Lemma total_throw {T} (P : T → Prop) e n L : clean_exn e → total (S := S) (λ _, Throw e) P n L.
Proof. by intros ? ????. Qed.

Lemma total_bind {A B} (r : S → result (A * S)) (k : A → S → result (B * S)) P Q n m L :
  total r P n L → (∀ x, P x → total (k x) Q m (L - n)) →
  total (λ s, '(x, s) ← r s; k x s) Q m L.
Proof.
  intros Hr Hk s d Hs Hd. specialize (Hr s d Hs Hd). destruct (r s) as [[x s']|e]; cbn [mbind result_bind]; [|done].
  destruct Hr as [Hx (d' & Hs' & Hd')]. specialize (Hk x Hx s' d' Hs' ltac:(lia)).
  destruct (k x s') as [[y s2]|]; [|done]. destruct Hk as [? (d2 & ? & ?)]. split; [done|]. exists d2. split; [done|lia].
Qed.

(** A step that does not touch the source. *)
Lemma total_pure {A B} (o : result A) (k : A → S → result (B * S)) P n L :
  (∀ e, o = Throw e → clean_exn e) → (∀ x, o = Ok x → total (k x) P n L) →
  total (λ s, x ← o; k x s) P n L.
Proof. intros He Hk. destruct o as [x|e]; [by apply Hk|]. apply total_throw. by apply He. Qed.

Lemma total_call len L : total (S := S) (src_call len) (λ b, length b = len) len L.
Proof.
  intros s d Hs _. destruct (decide (len <= length d)%nat) as [Hl|Hl].
  - rewrite <- (take_drop len d) in Hs.
    destruct (src_call_parses' len (take len d)) with (2 := Hs) as (s' & -> & Hs'); [rewrite length_take; lia|].
    split; [rewrite length_take; lia|]. exists (drop len d). split; [done|]. rewrite length_drop. lia.
  - destruct (src_call_eof len s d Hs) as (m & ->); [lia|]. done.
Qed.

Lemma readLittleEndian_nonneg b : 0 ≤ readLittleEndian b.
Proof.
  unfold readLittleEndian. generalize (zip (seq 0 8) b). intros l.
  assert (∀ x, 0 ≤ x → 0 ≤ foldl (λ x (ib : nat * ascii),
    Z.lor x (u64 (Z.shiftl (byte_val ib.2) (8 * Z.of_nat ib.1)))) x l) as Hgo; [|by apply Hgo].
  induction l as [|y l IH]; intros x Hx; cbn [foldl]; [done|]. apply IH, Z.lor_nonneg. split; [done|].
  unfold u64. apply Z.mod_pos_bound. lia.
Qed.

Lemma total_readNum max L : total (S := S) (readNum max) (λ n, 0 ≤ n) 8 L.
Proof.
  intros s d Hs Hd. pose proof (total_call 8 L s d Hs Hd) as Hc. unfold readNum.
  destruct (src_call 8 s) as [[b s']|]; cbn [mbind result_bind]; [|done].
  destruct (max <? readLittleEndian b); [auto|].
  split; [apply readLittleEndian_nonneg|]. by destruct Hc.
Qed.

Lemma total_readPadding len L : total (S := S) (readPadding len) any 0 L.
Proof.
  unfold readPadding. case_match; [by apply total_ret|].
  eapply (total_bind (src_call _)); [apply total_call|]. intros z _. case_match; [by apply total_ret|apply total_throw; auto].
Qed.

Lemma total_readString max L : total (S := S) (readString max) any 8 L.
Proof.
  intros s d Hs Hd. pose proof (total_readNum size_max L s d Hs Hd) as Hc. unfold readString.
  destruct (readNum size_max s) as [[len s']|]; cbn [mbind result_bind]; [|done].
  destruct Hc as [_ (d1 & Hs1 & Hd1)]. destruct (max <? len); [auto|].
  assert (total (λ s, '(res, s) ← src_call (Z.to_nat len) s; '(_, s) ← readPadding (Z.to_nat len) s; Ok (res, s)) any 0 L) as Ht.
  { eapply (total_bind (src_call _)); [apply total_call|]. intros res _.
    eapply (total_bind (readPadding _)); [apply total_readPadding|]. intros _ _. by apply total_ret. }
  specialize (Ht s' d1 Hs1 ltac:(lia)). cbn beta in Ht. case_match; [|done]. case_match.
  destruct Ht as [? (d2 & ? & ?)]. split; [done|]. exists d2. split; [done|lia].
Qed.

Lemma total_expectTag x L : total (S := S) (expectTag x) any 8 L.
Proof.
  intros s d Hs Hd. pose proof (total_readString size_max L s d Hs Hd) as Hc. unfold expectTag, getString.
  destruct (readString size_max s) as [[t s']|]; cbn [mbind result_bind]; [|done].
  destruct (str_eqb t x); [|auto].
  split; [done|]. by destruct Hc.
Qed.
End total.

(** * The calls parsing makes *)

(** A name that is one path component: not empty, not [.] or [..], and without
    slash or NUL byte. *)
Definition safe_comp (name : str) : Prop := valid_comp name ∧ NUL ∉ name.

Definition ev_path (ev : fso_event) : CanonPath :=
  match ev with
  | EvDirectory p | EvSymlink p _ | EvRegular p | EvExecutable p | EvPreallocate p _ | EvWrite p _ => p
  end.

(** A call at a path made of such names. *)
Definition inside (ev : fso_event) : Prop := ∃ cs, Forall safe_comp cs ∧ ev_path ev = render cs.

(** What a name in an archive may be created as. *)
Definition created_as (hack : bool) (name name' : str) : Prop :=
  name' = name ∨ (hack = true ∧ ∃ i, name' = name ++ caseHackSuffix ++ std_to_string i).

(** The calls for one object at a path, in order. Directories are entered through
    names that are single path components without NUL, in strictly increasing
    order. Contents are announced with their size. *)
Inductive calls (hack : bool) : list str → list fso_event → Prop :=
  | calls_symlink cs t : calls hack cs [EvSymlink (render cs) t]
  | calls_regular cs (x : bool) evs :
      evs = [] ∨ (∃ bs, evs = EvPreallocate (render cs) (Z.of_nat (length (concat bs))) :: map (EvWrite (render cs)) bs) →
      calls hack cs (EvRegular (render cs) :: (if x then [EvExecutable (render cs)] else []) ++ evs)
  | calls_directory cs evs : entry_calls hack cs [] evs → calls hack cs (EvDirectory (render cs) :: evs)
with entry_calls (hack : bool) : list str → str → list fso_event → Prop :=
  | entry_calls_nil cs prev : entry_calls hack cs prev []
  | entry_calls_cons cs prev name name' evs evs' :
      str_lt prev name → safe_comp name → created_as hack name name' → safe_comp name' →
      calls hack (cs ++ [name']) evs → entry_calls hack cs name evs' → entry_calls hack cs prev (evs ++ evs').

Lemma valid_nar_name_valid n : valid_nar_name n = true → safe_comp n.
Proof.
  unfold valid_nar_name. intros Hv. apply negb_true_iff in Hv.
  rewrite !orb_false_iff in Hv. destruct Hv as ((((H0 & H1) & H2) & Hs) & Hz).
  apply bool_decide_eq_false in H0. apply str_eqb_false in H1, H2. split.
  - split_and!; [split; [done|]|done|done]. apply forallb_forall. intros x Hx. apply negb_true_iff.
    destruct (is_slash x) eqn:Ex; [|done]. rewrite <- Hs. symmetry. apply existsb_exists. eauto.
  - intros Hin. rewrite <- not_true_iff_false, existsb_exists in Hz. apply Hz. exists NUL.
    split; [by apply list_elem_of_In|by apply bool_decide_eq_true].
Qed.

(** The case hack keeps names acceptable to [CanonPath::push]. *)
Lemma std_to_string_plain n x : x ∈ std_to_string n → is_slash x = false ∧ x ≠ NUL.
Proof.
  assert (∀ m, 0 ≤ m → x ∈ dec_string m → is_slash x = false ∧ x ≠ NUL) as H.
  { intros m Hm Hx. destruct (dec_string_spec m Hm) as (_ & Hd & _). rewrite forallb_forall in Hd.
    apply list_elem_of_In, Hd in Hx. split; [|by intros ->].
    destruct (is_slash x) eqn:E; [|done]. by apply bool_decide_eq_true in E as ->. }
  unfold std_to_string. destruct (Z.ltb_spec n 0); [|by apply H]. intros [->|Hx]%elem_of_cons; [done|]. by apply (H (- n)); [lia|].
Qed.
Lemma hacked_safe name i : safe_comp name → safe_comp (name ++ caseHackSuffix ++ std_to_string i).
Proof.
  assert (∀ l : str, (2 <= length l)%nat → l ≠ "."%str) as Hl1 by (intros l Hl ->; cbn in Hl; lia).
  assert (∀ l : str, (3 <= length l)%nat → l ≠ ".."%str) as Hl2 by (intros l Hl ->; cbn in Hl; lia).
  intros [[[Hne Hs] _] Hz]. split; [split_and!|].
  - split; [by destruct name|]. rewrite !forallb_app, Hs. cbn [andb]. apply forallb_forall. intros x Hx.
    apply list_elem_of_In, std_to_string_plain in Hx as [-> _]. done.
  - apply Hl1. rewrite !length_app. cbn. lia.
  - apply Hl2. rewrite !length_app. cbn. lia.
  - rewrite !elem_of_app. intros [Hx|[Hx|Hx]]; [done|by apply (bool_decide_pack _) in Hx|].
    by apply std_to_string_plain in Hx as [_ ?].
Qed.
Lemma caseHack_name hack name names name' names' :
  safe_comp name → caseHack hack name names = Ok (name', names') → created_as hack name name' ∧ safe_comp name'.
Proof.
  intros Hv. unfold caseHack. destruct hack; [|intros [= <- <-]; split; [by left|done]].
  destruct (ci_find name names) as [[k v]|]; [|intros [= <- <-]; split; [by left|done]].
  cbv zeta. destruct (ci_find _ _); [done|]. intros [= <- <-]. split; [right; split; [done|by exists (v + 1)]|by apply hacked_safe].
Qed.
Lemma caseHack_clean hack name names e : caseHack hack name names = Throw e → clean_exn e.
Proof. unfold caseHack. repeat case_match; intros; simplify_eq; done. Qed.

Section parse_total.
Context {S K : Type} `{SourceOk S, FileSystemObjectSink K} (hack : bool).
Context (Hsink : ∀ (k : K) ev e, inside ev → run_event k ev = Throw e → clean_exn e).
Abbreviation any := (λ _, True).

(** [k'] was reached from [k] by calls as [Q] says. *)
Definition issued (Q : list fso_event → Prop) (k k' : K) : Prop := ∃ evs, Q evs ∧ run k evs = Ok k'.

Lemma issued_app (Q R T : list fso_event → Prop) k k1 k2 :
  issued Q k k1 → issued R k1 k2 → (∀ l m, Q l → R m → T (l ++ m)) → issued T k k2.
Proof using. intros (l & Hl & El) (m & Hm & Em) HT. exists (l ++ m). split; [auto|]. rewrite foldR_app, El. done. Qed.
Lemma issued_one ev k k' : run_event k ev = Ok k' → issued (λ evs, evs = [ev]) k k'.
Proof using. intros E. exists [ev]. split; [done|]. cbn. by rewrite E. Qed.

Lemma total_call_sink {B} cs ev (k : K) (g : K → S → result (B * S)) P n L :
  Forall safe_comp cs → ev_path ev = render cs → (∀ k', run_event k ev = Ok k' → total (g k') P n L) →
  total (λ s, k' ← run_event k ev; g k' s) P n L.
Proof. intros Hcs Hp Hg. apply total_pure; [|exact Hg]. intros e. apply Hsink. by exists cs. Qed.

Lemma total_contents fuel cs left (k : K) L :
  Forall safe_comp cs → 0 ≤ left ≤ chunk_size * Z.of_nat fuel →
  total (S := S) (contents_loop fuel (render cs) left k)
    (issued (λ evs, ∃ bs, evs = map (EvWrite (render cs)) bs ∧ Z.of_nat (length (concat bs)) = left) k) 0 L.
Proof.
  intros Hcs. revert left k L. induction fuel as [|fuel IH]; intros left k L Hl; cbn [contents_loop].
  - rewrite (proj2 (Z.eqb_eq left 0)) by lia. apply total_ret. exists []. split; [|done]. exists []. cbn. split; [done|lia].
  - destruct (Z.eqb_spec left 0); [apply total_ret; exists []; split; [|done]; exists []; cbn; split; [done|lia]|]. cbv zeta.
    eapply (total_bind (src_call _)); [apply total_call|]. intros buf Hbuf. cbn beta in Hbuf.
    apply (total_call_sink cs (EvWrite (render cs) buf)); [done..|]. intros k' Hk.
    eapply total_weaken; [apply IH|done|reflexivity|].
    + unfold chunk_size in *. destruct (Z.ltb_spec left 65536); lia.
    + intros k2 Hk2. eapply issued_app; [exact (issued_one _ _ _ Hk)|exact Hk2|]. intros l m -> (bs & -> & Hbs).
      exists (buf :: bs). split; [done|]. cbn [concat]. rewrite length_app. unfold chunk_size in *. destruct (Z.ltb_spec left 65536); lia.
Qed.

Definition content_calls (path : CanonPath) (evs : list fso_event) : Prop :=
  ∃ bs, evs = EvPreallocate path (Z.of_nat (length (concat bs))) :: map (EvWrite path) bs.

Lemma total_parseContents cs (k : K) L :
  Forall safe_comp cs → total (S := S) (parseContents (render cs) k) (issued (content_calls (render cs)) k) 0 L.
Proof.
  intros Hcs.
  eapply (total_bind readLongLong); [apply total_readNum|]. intros size Hsize.
  apply (total_call_sink cs (EvPreallocate (render cs) size)); [done..|]. intros k' Hk'.
  eapply (total_bind (contents_loop _ _ _ _)).
  { apply total_contents; [done|]. unfold chunk_size. pose proof (Z.mod_pos_bound size 65536).
    pose proof (Z_div_mod_eq_full size 65536). rewrite Nat2Z.inj_succ, Z2Nat.id by (apply Z.div_pos; lia). lia. }
  intros k2 Hk2. eapply (total_bind (readPadding _)); [apply total_readPadding|]. intros _ _. apply total_ret.
  eapply issued_app; [exact (issued_one _ _ _ Hk')|exact Hk2|]. intros l m -> (bs & -> & <-). by exists bs.
Qed.

(** Read a tag or a string of unknown input, then go on with at least eight
    bytes less. *)
Ltac tg := eapply (total_bind (expectTag _)); [apply total_expectTag|]; intros [] _; cbn beta.
Ltac gs x := eapply (total_bind getString); [apply total_readString|]; intros x _; cbn beta.

Definition parse_total_at (fuel : nat) : Prop := ∀ L cs (k : K), Forall safe_comp cs →
  (L < fuel)%nat → total (S := S) (parse hack fuel (render cs) k) (issued (calls hack cs) k) 0 L.
Definition entries_total_at (fuel : nat) : Prop := ∀ L cs names prev (k : K), Forall safe_comp cs →
  (L < fuel)%nat → total (S := S) (parse_entries hack fuel (render cs) names prev k) (issued (entry_calls hack cs prev) k) 0 L.

Lemma short_total {T} (r : S → result (T * S)) (k : T → S → result (K * S)) P (L : nat) :
  total r any 8 L → (∀ x, (8 <= L)%nat → total (k x) P 0 (L - 8)) →
  total (λ s, '(x, s) ← r s; k x s) P 0 L.
Proof.
  intros Hr Hk s d Hs Hd. specialize (Hr s d Hs Hd). destruct (r s) as [[x s']|e]; cbn [mbind result_bind]; [|done].
  destruct Hr as [_ (d' & Hs' & Hd')]. specialize (Hk x ltac:(lia) s' d' Hs' ltac:(lia)).
  destruct (k x s') as [[y s2]|]; [|done]. destruct Hk as [? (d2 & ? & ?)]. split; [done|]. exists d2. split; [done|lia].
Qed.

(** The part of [parse] for a regular file. *)
Lemma total_regular cs (k : K) L :
  Forall safe_comp cs → total (S := S) (λ s,
    k ← createRegularFile (render cs) k;
    '(tag, s) ← getString s;
    '(tk, s) ← (if str_eqb tag "executable" then
        '(s2, s) ← getString s;
        if bool_decide (s2 = []) then
          k ← crf_isExecutable (render cs) k;
          '(tag, s) ← getString s;
          Ok (tag, k, s)
        else Throw (badArchive "executable marker has non-empty value")
      else Ok (tag, k, s));
    '(k, s) ← (if str_eqb tk.1 "contents" then parseContents (render cs) tk.2 s else Ok (tk.2, s));
    '(_, s) ← expectTag ")" s;
    Ok (k, s)) (issued (calls hack cs) k) 0 L.
Proof.
  intros Hcs. apply (total_call_sink cs (EvRegular (render cs))); [done..|]. intros k1 Hk1. gs tag.
  eapply (total_bind _ _ (λ tk : str * K, issued (λ evs, ∃ x : bool, evs = if x then [EvExecutable (render cs)] else []) k1 tk.2)).
  - destruct (str_eqb tag "executable"); [|apply (total_ret (tag, k1)); exists []; split; [by exists false|done]]. gs s2.
    case_bool_decide; [|apply total_throw; auto].
    apply (total_call_sink cs (EvExecutable (render cs))); [done..|]. intros k2 Hk2. gs tag2.
    apply (total_ret (tag2, k2)). exists [EvExecutable (render cs)]. split; [by exists true|]. cbn in Hk2 |- *. by rewrite Hk2.
  - intros tk Htk. cbn beta in Htk.
    eapply (total_bind _ _ (issued (λ evs, evs = [] ∨ content_calls (render cs) evs) tk.2) _ 0).
    + destruct (str_eqb tk.1 "contents").
      * eapply total_weaken; [by apply total_parseContents|done|done|]. intros k2 (evs & He & Hr). exists evs. split; [by right|done].
      * apply total_ret. exists []. split; [by left|done].
    + intros k2 Hk2. tg. apply total_ret.
      eapply issued_app; [exact (issued_one _ _ _ Hk1)| |].
      * eapply (issued_app _ _ (λ evs, ∃ (x : bool) e, evs = (if x then [EvExecutable (render cs)] else []) ++ e ∧ (e = [] ∨ content_calls (render cs) e)));
          [exact Htk|exact Hk2|]. intros l m (x & ->) Hm. by exists x, m.
      * intros l m -> (x & e & -> & He). by apply calls_regular.
Qed.

Lemma parse_total_step fuel : entries_total_at fuel → parse_total_at (Datatypes.S fuel).
Proof.
  intros IHe L cs k Hcs HL. cbn [parse]. tg. tg.
  apply (short_total getString); [apply total_readString|]. intros type HL8. cbn beta.
  destruct (str_eqb type "regular"); [by apply total_regular|].
  destruct (str_eqb type "directory").
  { apply (total_call_sink cs (EvDirectory (render cs))); [done..|]. intros k1 Hk1.
    eapply total_weaken; [apply (IHe _ cs [] [] k1); [done|]|done|reflexivity|]; [lia|].
    intros k2 Hk2. eapply issued_app; [exact (issued_one _ _ _ Hk1)|exact Hk2|]. intros l m -> Hm. by apply calls_directory. }
  destruct (str_eqb type "symlink"); [|apply total_throw; auto]. tg. gs target.
  apply (total_call_sink cs (EvSymlink (render cs) target)); [done..|]. intros k1 Hk1. tg. apply total_ret.
  apply (issued_one (EvSymlink (render cs) target)) in Hk1 as (evs & -> & Hk1). exists [EvSymlink (render cs) target]. split; [constructor|done].
Qed.

Lemma entries_total_step fuel : parse_total_at fuel → entries_total_at fuel → entries_total_at (Datatypes.S fuel).
Proof.
  intros IHp IHe L cs names prev k Hcs HL. cbn [parse_entries].
  apply (short_total getString); [apply total_readString|]. intros tag HL8. cbn beta.
  destruct (str_eqb tag ")"); [apply total_ret; exists []; split; [constructor|done]|]. destruct (str_eqb tag "entry"); [|apply total_throw; auto].
  tg. tg. gs name. destruct (valid_nar_name name) eqn:Hv; cbn [negb]; [|apply total_throw; auto].
  destruct (str_leb name prev) eqn:Hle; [apply total_throw; auto|]. apply valid_nar_name_valid in Hv.
  apply (total_pure (caseHack hack name names) (λ x s, let '(name', names) := x in _)); [apply caseHack_clean|].
  intros [name' names'] Hh. cbn beta. tg. apply caseHack_name in Hh as [Hname Hv']; [|done].
  assert (Forall safe_comp (cs ++ [name'])) as Hcs' by (apply Forall_app; split; [done|]; by apply Forall_singleton).
  rewrite push_render by first [apply Hv'|eapply Forall_impl; [exact Hcs|]; intros ? Hc; apply Hc]. cbn [mbind result_bind].
  eapply (total_bind (parse _ _ _ _)); [apply (IHp _ (cs ++ [name'])); [done|lia]|]. intros k2 Hk2. tg.
  eapply total_weaken; [apply (IHe _ cs names' name k2); [done|]|done|reflexivity|]; [lia|].
  intros k3 Hk3. eapply issued_app; [exact Hk2|exact Hk3|]. intros l m Hl Hm. apply (entry_calls_cons hack cs prev name name'); try done.
  unfold str_leb in Hle. unfold str_lt. rewrite str_compare_antisym. by destruct (str_compare name prev).
Qed.

Lemma parse_total fuel : parse_total_at fuel ∧ entries_total_at fuel.
Proof.
  induction fuel as [|fuel [IH1 IH2]]; [split; intros ?; lia|].
  split; [by apply parse_total_step|by apply entries_total_step].
Qed.

(** The whole of [parseDump]. *)
Lemma parseDump_calls k s d fuel : denotes s d → (length d < fuel)%nat →
  match parseDump hack fuel k s with
  | Ok (k', _) => issued (calls hack []) k k'
  | Throw e => clean_exn e
  end.
Proof.
  intros Hs Hd. unfold parseDump.
  pose proof (total_readString (Z.of_nat (length narVersionMagic1)) (length d) s d Hs (le_n _)) as Hr.
  destruct (readString _ s) as [[v s1]|e].
  - cbn [mbind result_bind]. destruct (str_eqb v narVersionMagic1); [|by apply clean_exn_intro].
    destruct Hr as [_ (d' & Hs' & Hd')].
    pose proof (proj1 (parse_total fuel) (length d') [] k (Forall_nil_2 _) ltac:(lia) s1 d' Hs' (le_n _)) as Hp.
    change (render []) with cp_root in Hp. by destruct (parse hack fuel cp_root k s1) as [[? ?]|]; [destruct Hp|].
  - destruct e; cbn [mbind result_bind]; try exact Hr.
    change (str_eqb [] narVersionMagic1) with false. cbn iota. auto.
Qed.
End parse_total.

(** * Copying an archive *)

Program Definition TeeSource_ok {S K} `{SourceOk S, SinkOk K} (all : str) : SourceOk (S * K) :=
  {| denotes := λ t d, denotes t.1 d ∧ written t.2 ++ d = all |}.
Next Obligation.
  intros S K ???? all [s k] d n [Hs Hall] Hd Hn. cbn [fst snd] in *.
  destruct (read_some s d n Hs Hd Hn) as (j & s' & ? & ? & E & Hs').
  destruct (write_ok (take j d) k) as (k' & Ek & Hk).
  exists j, (s', k'). split; [done|]. split; [done|]. split.
  - cbn [src_read TeeSource_source TeeSource_read]. unfold TeeSource_read. cbn [fst snd].
    rewrite E. cbn [mbind result_bind]. by rewrite Ek.
  - cbn [fst snd]. split; [done|]. by rewrite Hk, <- app_assoc, take_drop.
Qed.
Next Obligation.
  intros S K ???? all [s k] n [Hs Hall] Hn. cbn [fst snd src_read TeeSource_source] in *.
  unfold TeeSource_read. cbn [fst snd].
  destruct (read_eof s n Hs Hn) as [[m ->]|(s' & m & -> & E')]; [left; by exists m|right].
  destruct (write_ok [] k) as (k' & Ek & _). exists (s', k'), m. cbn [mbind result_bind fst snd].
  rewrite Ek, E'. done.
Qed.

Lemma run_null evs : foldR (run_event (K := unit)) tt evs = Ok tt.
Proof. induction evs as [|[] evs IH]; done. Qed.

(** * Properties *)

(** [C1] NAR round trip. For every well-formed directory tree, dumping it
    from the in-memory file system succeeds, and parsing the archive from
    any conforming source into an empty in-memory file system restores
    exactly the same tree, consuming exactly the archive. The depth of the
    tree bounds the fuel of the dump, the size of the archive that of the
    parser. *)
Theorem nar_roundtrip {S} `{SourceOk S} es fuel :
  file_wf (Directory es) → (depth (Directory es) <= fuel)%nat →
  ∃ w, dumpPath false (λ _, true) (Directory es : MemorySourceAccessor) fuel cp_root = Ok w ∧
    ∀ fuel', (length w <= fuel')%nat →
      parses (S := S) (parseDump false fuel' MemorySourceAccessor_new) w (Directory es).
Proof.
  intros Hwf Hd. exists (nar (Directory es)). unfold dumpPath. change cp_root with (render []).
  rewrite (dump_ok _ _ fuel [] (Directory es)) by (done || constructor). cbn [mbind result_bind].
  rewrite (prune_id _ _ _ Hd). split; [done|]. intros fuel' Hf.
  apply parseDump_run; [by apply run_root|done|]. unfold nar in Hf. rewrite length_app in Hf. lia.
Qed.

Definition nar_example : list (str * File) :=
  [("bin", Directory [("hello", Regular true "#!/bin/sh"); ("hi", Symlink "hello")]); ("empty", Directory []);
   ("share", Regular false "")]%str.
Lemma nar_example_wf : file_wf (Directory nar_example).
Proof.
  assert (∀ x c, bool_decide (str_fits c) = true → file_wf (Regular x c)) as Hr.
  { intros x c Hc. constructor. by apply bool_decide_eq_true in Hc. }
  assert (∀ es, bool_decide (smap_wf es) = true → Forall (λ e, bool_decide (name_ok e.1) = true ∧ file_wf e.2) es →
    file_wf (Directory es)) as Hd.
  { intros es Hs Hes. constructor; [by apply bool_decide_eq_true in Hs|].
    eapply Forall_impl; [exact Hes|]. intros e [Hn He]. by apply bool_decide_eq_true in Hn. }
  assert (file_wf (Symlink "hello")) by (constructor; by apply (bool_decide_unpack _)).
  apply Hd; [by vm_compute|]. repeat apply Forall_cons_2; try apply Forall_nil_2; (split; [by vm_compute|]); cbn [snd].
  - apply Hd; [by vm_compute|]. repeat apply Forall_cons_2; try apply Forall_nil_2; (split; [by vm_compute|]); [by apply Hr|done].
  - apply Hd; [by vm_compute|constructor].
  - by apply Hr.
Qed.

Lemma nar_roundtrip_witness :
  ∃ w, dumpPath false (λ _, true) (Directory nar_example : MemorySourceAccessor) 3 cp_root = Ok w ∧
    ∀ fuel', (length w <= fuel')%nat →
      parses (S := StringSource) (parseDump false fuel' MemorySourceAccessor_new) w (Directory nar_example).
Proof. apply nar_roundtrip; [apply nar_example_wf|cbn; lia]. Defined.

(** [C11] [parseDump] on arbitrary input, with or without the case hack and
    into any sink that fails with ordinary exceptions only: it terminates
    within a number of steps bounded by the number of bytes in the stream,
    and it either succeeds or throws an ordinary exception; the assertions of
    [CanonPath] hold for every name it accepts. *)
Theorem parseDump_total {S K} `{SourceOk S, FileSystemObjectSink K} (hack : bool) (k : K) (s : S) d fuel :
  (∀ (k : K) ev e, run_event k ev = Throw e → clean_exn e) →
  denotes s d → (length d < fuel)%nat →
  match parseDump hack fuel k s with Ok _ => True | Throw e => clean_exn e end.
Proof.
  intros Hk Hs Hd. pose proof (parseDump_calls hack (λ k ev e _, Hk k ev e) k s d fuel Hs Hd) as H'. by destruct (parseDump hack fuel k s) as [[]|].
Qed.

Lemma parseDump_total_witness :
  match parseDump true 100 tt (StringSource_new (writeString "bsd-archive-1" ++ writeString "(")) with
  | Ok _ => True | Throw e => clean_exn e end.
Proof.
  apply (parseDump_total true tt _ (writeString "bsd-archive-1" ++ writeString "(")).
  - intros k [] e; discriminate.
  - split; [cbn; lia|done].
  - vm_compute. lia.
Defined.

(** [C10] Safety of extraction. Whatever bytes are parsed, into whatever sink:
    the calls [parseDump] makes are those for one tree of files. It creates
    objects only at paths made of the names on the way, each a single path
    component (not empty, not [.] or [..], without slash or NUL byte), in strictly
    increasing order within every directory; the case hack can only append its
    suffix and a number. Contents are written after their size was announced, and
    are of that size. Any other input ends in an ordinary exception. The sink need
    only fail with ordinary exceptions when it is called at such a path; as nothing
    is asked of it at other paths, such calls are not made before an exception
    either. *)
Theorem parseDump_safe {S K} `{SourceOk S, FileSystemObjectSink K} (hack : bool) (k : K) (s : S) d fuel :
  (∀ (k : K) ev e, inside ev → run_event k ev = Throw e → clean_exn e) →
  denotes s d → (length d < fuel)%nat →
  match parseDump hack fuel k s with
  | Ok (k', _) => ∃ evs, calls hack [] evs ∧ foldR run_event k evs = Ok k'
  | Throw e => clean_exn e
  end.
Proof. intros Hk Hs Hd. by apply (parseDump_calls hack Hk k s d fuel). Qed.

(** A sink that records the calls. *)
#[local] Instance recording_sink : FileSystemObjectSink (list fso_event) := {|
  createDirectory p k := Ok (k ++ [EvDirectory p]);
  createSymlink p t k := Ok (k ++ [EvSymlink p t]);
  createRegularFile p k := Ok (k ++ [EvRegular p]);
  crf_isExecutable p k := Ok (k ++ [EvExecutable p]);
  crf_preallocateContents p n k := Ok (k ++ [EvPreallocate p n]);
  crf_write p d k := Ok (k ++ [EvWrite p d]);
|}.
Lemma recorded evs : ∀ k : list fso_event, foldR run_event k evs = Ok (k ++ evs).
Proof.
  induction evs as [|ev evs IH]; intros k; cbn [foldR]; [by rewrite app_nil_r|].
  assert (run_event k ev = Ok (k ++ [ev])) as -> by (by destruct ev). cbn [mbind result_bind].
  etransitivity; [apply IH|]. by rewrite <- app_assoc.
Qed.
Lemma recording_clean (k : list fso_event) ev e : inside ev → run_event k ev = Throw e → clean_exn e.
Proof. by destruct ev. Qed.

Lemma parseDump_safe_witness :
  ∃ evs s', parseDump false 2000 ([] : list fso_event) (StringSource_new (nar (Directory nar_example))) = Ok (evs, s') ∧
    evs = events [] (Directory nar_example) ∧ calls false [] evs.
Proof.
  pose proof (parseDump_safe false ([] : list fso_event) (StringSource_new (nar (Directory nar_example))) (nar (Directory nar_example)) 2000 recording_clean) as H.
  destruct (parseDump false 2000 ([] : list fso_event) (StringSource_new (nar (Directory nar_example)))) as [[evs s']|e] eqn:E.
  - destruct H as (evs' & Hc & Hr); [split; [apply Nat.le_0_l|done]|vm_compute; lia|].
    rewrite recorded in Hr. cbn [app] in Hr. injection Hr as ->. exists evs, s'. split; [reflexivity|]. split; [|exact Hc].
    apply (f_equal (λ r, match r with Ok (x, _) => x | Throw _ => [] end)) in E. vm_compute in E. rewrite <- E. vm_compute. reflexivity.
  - exfalso. apply (f_equal is_ok) in E. vm_compute in E. discriminate E.
Defined.

(** [copyNAR] forwards exactly the archive: given a source that starts
    with the archive of a well-formed tree, the sink receives the bytes of
    the archive and nothing else, and the source is left right behind it. *)
Theorem copyNAR_exact {S K} `{SourceOk S, SinkOk K} (f : File) (s : S) (k : K) rest fuel :
  file_wf f → (length (nar f) <= fuel)%nat → denotes s (nar f ++ rest) →
  ∃ s' k', copyNAR false fuel s k = Ok (s', k') ∧ denotes s' rest ∧ written k' = written k ++ nar f.
Proof.
  intros Hwf Hf Hs. unfold copyNAR.
  pose proof (@parseDump_run (S * K) unit _ (TeeSource_ok (written k ++ nar f ++ rest)) _ f tt tt fuel) as Hp.
  destruct (Hp (run_null _) Hwf) with (s := (s, k)) (d := rest) as ([s' k'] & -> & Hs' & Hk').
  - unfold nar in Hf. rewrite length_app in Hf. lia.
  - by split.
  - cbn [mbind result_bind fst snd] in *. exists s', k'. split_and!; [done|done|].
    rewrite app_assoc in Hk'. by apply app_inv_tail in Hk'.
Qed.

Lemma copyNAR_exact_witness :
  ∃ (s' : StringSource) (k' : StringSink),
    copyNAR false (length (nar (Directory nar_example)))
      (StringSource_new (nar (Directory nar_example) ++ "rest")) ("x"%str : StringSink) = Ok (s', k') ∧
    denotes s' "rest" ∧ written k' = "x"%str ++ nar (Directory nar_example).
Proof.
  refine (copyNAR_exact (Directory nar_example) (StringSource_new (nar (Directory nar_example) ++ "rest"))
    ("x"%str : StringSink) "rest" _ nar_example_wf (le_n _) _).
  split; [cbn; lia|done].
Defined.

(** The in-memory sink cannot hold a regular file at its root: the
    archive [dumpString] produces is always rejected, because [open] assigns
    the file to create only when a path component was missing, and the root
    has none. *)
Theorem memory_sink_rejects_root_file {S} `{SourceOk S} (c : str) (s : S) d fuel :
  denotes s (dumpString c ++ d) →
  parseDump false (Datatypes.S fuel) MemorySourceAccessor_new s = Throw (Error "file is not a regular file").
Proof.
  unfold dumpString. rewrite <- !app_assoc. intros Hs. unfold parseDump.
  destruct (readString_parses (S := S) (Z.of_nat (length narVersionMagic1)) narVersionMagic1) with (3 := Hs)
    as (s1 & -> & Hs1); [lia|done|]. cbn [mbind result_bind]. rewrite str_eqb_refl. cbn [parse].
  destruct (expectTag_parses (S := S) "(" ltac:(done)) with (1 := Hs1) as (s2 & -> & Hs2). cbn [mbind result_bind].
  destruct (expectTag_parses (S := S) "type" ltac:(done)) with (1 := Hs2) as (s3 & -> & Hs3). cbn [mbind result_bind].
  destruct (getString_parses (S := S) "regular" ltac:(done)) with (1 := Hs3) as (s4 & -> & Hs4). done.
Qed.

Lemma memory_sink_rejects_root_file_witness :
  parseDump false 50 MemorySourceAccessor_new (StringSource_new (dumpString "hello"))
    = Throw (Error "file is not a regular file").
Proof.
  apply (memory_sink_rejects_root_file "hello" _ []). split; [cbn; lia|]. by rewrite app_nil_r.
Defined.

(** The parser accepts an arbitrary tag in place of [contents] and
    ignores it: for every tag other than the two it knows, the text
    [( type regular <tag> )] is an archive of an empty file, so distinct
    archives have the same meaning. *)
Theorem parse_ignores_unknown_tag {S K} `{SourceOk S, FileSystemObjectSink K} (tag : str) (k k' : K) fuel path :
  str_fits tag → tag ≠ "executable" → tag ≠ "contents" → createRegularFile path k = Ok k' →
  parses (S := S) (parse false (Datatypes.S fuel) path k)
    (writeString "(" ++ writeString "type" ++ writeString "regular" ++ writeString tag ++ writeString ")") k'.
Proof.
  intros Ht He Hc Hk. cbn [parse].
  eapply (parses_bind (expectTag _)); [by apply expectTag_parses|]. cbn beta.
  eapply (parses_bind (expectTag _)); [by apply expectTag_parses|]. cbn beta.
  eapply (parses_bind getString); [by apply getString_parses|]. cbn beta.
  change (str_eqb "regular" "regular") with true. cbn iota. rewrite Hk. cbn [mbind result_bind].
  eapply (parses_bind getString); [by apply getString_parses|]. cbn beta.
  rewrite (proj2 (str_eqb_false _ _) He). eapply parses_word; [apply app_nil_l|].
  eapply (parses_bind (λ s, Ok ((tag, k'), s))); [apply parses_ret|]. cbn [fst snd].
  rewrite (proj2 (str_eqb_false _ _) Hc). eapply parses_word; [apply app_nil_l|].
  eapply (parses_bind (λ s, Ok (k', s))); [apply parses_ret|]. cbn beta.
  eapply (parses_bind_ret (expectTag _)); [by apply expectTag_parses|done].
Qed.

Lemma parse_ignores_unknown_tag_witness :
  parses (S := StringSource) (parse false 1 cp_root tt)
    (writeString "(" ++ writeString "type" ++ writeString "regular" ++ writeString "junk" ++ writeString ")") tt.
Proof. apply parse_ignores_unknown_tag; [apply (bool_decide_unpack _); exact I|done|done|done]. Defined.
