(* ===== verification/Git.v ===== *)
(** Git objects as an alternative to archives: [libutil/git.cc].

    A file is a blob, a directory a tree that lists its children with their
    modes and the hashes of their objects. [dump] writes the object of one
    path, [dumpHash] hashes a whole tree bottom-up, [parse] reads an object and
    hands the children of a tree to a hook, [restore] is [parse] with a hook
    that copies them. [parseLsRemoteLine] is not modelled. *)

From S2P Require Import Prelude Strings Xp Hash CanonPath Serialise FileSystem Archive.

(** * [std::stoi] and octal numbers *)

Definition is_space (c : ascii) : bool := (9 <=? byte_val c) && (byte_val c <=? 13) || (byte_val c =? 32).
Fixpoint skip_space (s : str) : str :=
  match s with c :: s' => if is_space c then skip_space s' else s | [] => [] end.

Definition base_digit (base : Z) (c : ascii) : bool := (48 <=? byte_val c) && (byte_val c <? 48 + base).
Fixpoint base_digits (base : Z) (s : str) : str :=
  match s with c :: s => if base_digit base c then c :: base_digits base s else [] | [] => [] end.
Definition base_value (base : Z) (s : str) : Z := foldl (λ v c, base * v + (byte_val c - 48)) 0 s.

(** [std::stoi(s, nullptr, base)] for a base of at most ten: blanks, a sign and
    the digits that follow; what comes after them is ignored. *)
Definition stoi (base : Z) (s : str) : result Z :=
  let s := skip_space s in
  let '(neg, s) := match s with
                   | c :: s' => if bool_decide (c = "-"%char) then (true, s')
                                else if bool_decide (c = "+"%char) then (false, s') else (false, s)
                   | [] => (false, s)
                   end in
  match base_digits base s with
  | [] => Throw (StdException "stoi: invalid_argument")
  | ds =>
      let v := if neg then - base_value base ds else base_value base ds in
      if (- 2 ^ 31 <=? v) && (v <? 2 ^ 31) then Ok v else Throw (StdException "stoi: out_of_range")
  end.

(** [%o]. *)
Fixpoint oct_loop (fuel : nat) (n : Z) (acc : str) : str :=
  match fuel with
  | O => acc
  | S fuel => if n <? 8 then digit_char n :: acc else oct_loop fuel (n / 8) (digit_char (n mod 8) :: acc)
  end.
Definition oct_string (n : Z) : str := oct_loop (S (Z.to_nat (Z.log2 n))) n [].

(** * Data *)

Inductive ObjectType := Blob | Tree.

Inductive Mode := Mode_Directory | Mode_Regular | Mode_Executable | Mode_Symlink.
#[export] Instance Mode_eq_dec : EqDecision Mode.
Proof. solve_decision. Defined.
(** The values of the enumeration, in octal 40000, 100644, 100755 and 120000. *)
Definition RawMode_of (m : Mode) : Z :=
  match m with
  | Mode_Directory => 4 * 8 ^ 4
  | Mode_Regular => 8 ^ 5 + 6 * 8 ^ 2 + 4 * 8 + 4
  | Mode_Executable => 8 ^ 5 + 7 * 8 ^ 2 + 5 * 8 + 5
  | Mode_Symlink => 8 ^ 5 + 2 * 8 ^ 4
  end.
Definition decodeMode (m : Z) : option Mode :=
  if m =? RawMode_of Mode_Directory then Some Mode_Directory
  else if m =? RawMode_of Mode_Executable then Some Mode_Executable
  else if m =? RawMode_of Mode_Regular then Some Mode_Regular
  else if m =? RawMode_of Mode_Symlink then Some Mode_Symlink
  else None.

Inductive BlobMode := Blob_Regular | Blob_Executable | Blob_Symlink.

Record TreeEntry := { te_mode : Mode; te_hash : Hash }.
Abbreviation GitTree := (gmap str TreeEntry).

Definition convertMode (type : FileType) : result (option Mode) :=
  match type with
  | tSymlink => Ok (Some Mode_Symlink)
  | tRegular => Ok (Some Mode_Regular)
  | tDirectory => Ok (Some Mode_Directory)
  | tChar | tBlock | tSocket | tFifo => Ok None
  | tUnknown => Throw AssertionFailure
  end.

(** * Reading *)

Section parse.
Context {S K : Type} `{Source S, FileSystemObjectSink K} (xp : XpSettings).

(** [fuel] bounds the bytes the source still has. *)
Fixpoint getStringUntil_loop (fuel : nat) (byte : ascii) (acc : str) (s : S) : result (str * S) :=
  match fuel with
  | O => Throw NonTermination
  | Datatypes.S fuel =>
      '(n, s) ← src_call 1 s;
      let c := nth 0 n NUL in
      if bool_decide (c = byte) then Ok (acc, s) else getStringUntil_loop fuel byte (acc ++ [c]) s
  end.
Definition getStringUntil (fuel : nat) (byte : ascii) (s : S) : result (str * S) := getStringUntil_loop fuel byte [] s.

Definition git_getString (n : nat) (s : S) : result (str * S) := src_call n s.

(** The copy loop is that of [parseContents] of archives: [buf] holds 64 KiB. *)
Definition doRegularFile (executable : bool) (size : Z) (sinkPath : CanonPath) (k : K) (s : S) : result (K * S) :=
  k ← createRegularFile sinkPath k;
  k ← (if executable then crf_isExecutable sinkPath k else Ok k);
  k ← crf_preallocateContents sinkPath size k;
  contents_loop (Datatypes.S (Z.to_nat (size / chunk_size))) sinkPath size k s.

Definition parseBlob (fuel : nat) (sinkPath : CanonPath) (blobMode : BlobMode) (k : K) (s : S) : result (K * S) :=
  _ ← require_feature xp GitHashing;
  '(n, s) ← getStringUntil fuel NUL s;
  size ← stoi 10 n;
  let size := u64 size in
  match blobMode with
  | Blob_Regular => doRegularFile false size sinkPath k s
  | Blob_Executable => doRegularFile true size sinkPath k s
  | Blob_Symlink =>
      '(target, s) ← src_call (Z.to_nat size) s;
      k ← createSymlink sinkPath target k;
      Ok (k, s)
  end.

(** [Hash hash(HashAlgorithm::SHA1)] with the bytes copied in. *)
Definition sha1_of (hashs : str) : Hash :=
  MkHash (regularHashSize SHA1) (map byte_val hashs ++ replicate (maxHashSize - length hashs) 0) SHA1.

(** The number of bytes left is unsigned and wraps around. *)
Fixpoint tree_loop (fuel : nat) (bytes : nat) (hook : CanonPath → TreeEntry → K → result K) (left : Z) (k : K) (s : S)
    : result (K * S) :=
  if left =? 0 then Ok (k, s)
  else match fuel with
       | O => Throw NonTermination
       | Datatypes.S fuel =>
           '(perms, s) ← getStringUntil bytes " " s;
           let left := u64 (u64 (left - Z.of_nat (length perms)) - 1) in
           raw ← stoi 8 perms;
           let rawMode := u32 raw in
           match decodeMode rawMode with
           | None => Throw (Error "Unknown Git permission")
           | Some mode =>
               '(name, s) ← getStringUntil bytes NUL s;
               let left := u64 (u64 (left - Z.of_nat (length name)) - 1) in
               '(hashs, s) ← git_getString 20 s;
               let left := u64 (left - 20) in
               path ← CanonPath_raw name;
               k ← hook path {| te_mode := mode; te_hash := sha1_of hashs |} k;
               tree_loop fuel bytes hook left k s
           end
       end.

Definition parseTree (fuel : nat) (sinkPath : CanonPath) (hook : CanonPath → TreeEntry → K → result K) (k : K) (s : S)
    : result (K * S) :=
  '(n, s) ← getStringUntil fuel NUL s;
  size ← stoi 10 n;
  k ← createDirectory sinkPath k;
  tree_loop fuel fuel hook (u64 size) k s.

Definition parseObjectType (s : S) : result (ObjectType * S) :=
  _ ← require_feature xp GitHashing;
  '(type, s) ← git_getString 5 s;
  if str_eqb type "blob " then Ok (Blob, s)
  else if str_eqb type "tree " then Ok (Tree, s)
  else Throw (Error "input doesn't look like a Git object").

Definition git_parse (fuel : nat) (sinkPath : CanonPath) (rootModeIfBlob : BlobMode)
    (hook : CanonPath → TreeEntry → K → result K) (k : K) (s : S) : result (K * S) :=
  _ ← require_feature xp GitHashing;
  '(type, s) ← parseObjectType s;
  match type with
  | Blob => parseBlob fuel sinkPath rootModeIfBlob k s
  | Tree => parseTree fuel sinkPath hook k s
  end.

(** [restore]; [depth] bounds the trees copied. *)
Definition restore {A} `{SourceAccessor A} (fuel depth : nat) (hook : Hash → result (A * CanonPath)) (k : K) (s : S)
    : result (K * S) :=
  git_parse fuel cp_root Blob_Regular (λ name entry k,
    '(accessor, from) ← hook (te_hash entry);
    stat ← lstat from accessor;
    gotOpt ← convertMode (st_type stat);
    match gotOpt with
    | None => Throw (Error "file has an unsupported type")
    | Some got =>
        if negb (bool_decide (got = te_mode entry)) then Throw (Error "git mode of file is not the expected one")
        else copyRecursive depth accessor from k name
    end) k s.
End parse.

(** * Writing *)

Definition dumpBlobPrefix (xp : XpSettings) (size : Z) : result str :=
  _ ← require_feature xp GitHashing; Ok ("blob " ++ std_to_string size ++ [NUL]).

Definition tree_line (ne : str * TreeEntry) : result str :=
  let '(name, entry) := ne in
  name2 ← (if bool_decide (te_mode entry = Mode_Directory) then
             _ ← assertR (nonempty name);
             _ ← assertR (bool_decide (last name = Some "/"%char));
             Ok (take (length name - 1) name)
           else Ok name);
  Ok (oct_string (RawMode_of (te_mode entry)) ++ " " ++ name2 ++ [NUL]
      ++ map byte_of (take (hashSize (te_hash entry)) (hash (te_hash entry)))).

Definition dumpTree (xp : XpSettings) (entries : GitTree) : result str :=
  _ ← require_feature xp GitHashing;
  ls ← mapR tree_line (map_sorted entries);
  let v1 := concat ls in
  Ok ("tree " ++ std_to_string (Z.of_nat (length v1)) ++ [NUL] ++ v1).

Section dump.
Context {A : Type} `{SourceAccessor A} (xp : XpSettings) (filter : str → bool) (acc : A).

(** The output and the mode. *)
Definition git_dump (path : CanonPath) (hook : CanonPath → result TreeEntry) : result (str * Mode) :=
  st ← lstat path acc;
  match st_type st with
  | tRegular =>
      s ← sa_readFile path acc;
      p ← dumpBlobPrefix xp (Z.of_nat (length s));
      Ok (p ++ s, if st_isExecutable st then Mode_Executable else Mode_Regular)
  | tDirectory =>
      dir ← sa_readDirectory path acc;
      entries ← foldR (λ (entries : GitTree) (i : str * option FileType),
        child ← push path i.1;
        if filter (abs child) then
          entry ← hook child;
          let name2 := if bool_decide (te_mode entry = Mode_Directory) then i.1 ++ "/" else i.1 in
          Ok (<[name2 := entry]> entries)
        else Ok entries) ∅ dir;
      out ← dumpTree xp entries;
      Ok (out, Mode_Directory)
  | tSymlink =>
      target ← sa_readLink path acc;
      p ← dumpBlobPrefix xp (Z.of_nat (length target));
      Ok (p ++ target, Mode_Symlink)
  | _ => Throw (Error "file has an unsupported type")
  end.

(** The recursive hook; [fuel] bounds the depth. *)
Fixpoint dumpHash (hashString : HashAlgorithm → str → Hash) (fuel : nat) (ha : HashAlgorithm) (path : CanonPath)
    : result TreeEntry :=
  match fuel with
  | O => Throw NonTermination
  | S fuel =>
      '(out, mode) ← git_dump path (dumpHash hashString fuel ha);
      Ok {| te_mode := mode; te_hash := hashString ha out |}
  end.
End dump.

(** * Numbers *)

Lemma base_digits_all s : forallb is_digit s = true → base_digits 10 s = s.
Proof.
  induction s as [|c s IH]; cbn; [done|]. intros [Hc Hs]%andb_true_iff.
  assert (base_digit 10 c = true) as -> by (unfold is_digit in Hc; unfold base_digit; apply andb_true_iff in Hc; apply andb_true_iff; lia).
  by rewrite IH.
Qed.

Lemma digit_not_space c : is_digit c = true → is_space c = false.
Proof. unfold is_digit, is_space. rewrite andb_true_iff, orb_false_iff, andb_false_iff. lia. Qed.

Lemma stoi_dec n :
  0 ≤ n → stoi 10 (std_to_string n) = if n <? 2 ^ 31 then Ok n else Throw (StdException "stoi: out_of_range").
Proof.
  intros Hn. destruct (dec_string_spec n Hn) as (Hv & Hd & Hne). unfold std_to_string. rewrite (proj2 (Z.ltb_ge n 0)) by done.
  unfold stoi. destruct (dec_string n) as [|c s] eqn:E; [done|].
  assert (is_digit c = true) as Hc by (cbn in Hd; by apply andb_true_iff in Hd as [? _]).
  cbn [skip_space]. rewrite digit_not_space by done. rewrite !bool_decide_eq_false_2 by (by intros ->). cbv zeta iota.
  rewrite base_digits_all by done. change (base_value 10 (c :: s)) with (dec_value (c :: s)). rewrite Hv.
  rewrite (proj2 (Z.leb_le _ _)) by lia. by destruct (n <? 2 ^ 31).
Qed.

Lemma stoi_mode m : stoi 8 (oct_string (RawMode_of m)) = Ok (RawMode_of m) ∧ (" "%char ∉ oct_string (RawMode_of m)).
Proof. destruct m; (split; [vm_compute; reflexivity|apply (bool_decide_unpack _); vm_compute; exact I]). Qed.

Lemma decodeMode_raw m : decodeMode (u32 (RawMode_of m)) = Some m.
Proof. by destruct m. Qed.

(** * Reading what was written *)

(** A name in the order Git uses: that of a directory ends in a slash. *)
Definition sort_name (n : str) (m : Mode) : str := if bool_decide (m = Mode_Directory) then n ++ "/" else n.
Definition sha1_bytes (h : Hash) : str := map byte_of (take 20 (hash h)).

Definition entry_ok (n : str) (e : TreeEntry) : Prop :=
  valid_comp n ∧ (NUL ∉ n) ∧ hash_regular (te_hash e) ∧ algo (te_hash e) = SHA1.

Lemma sha1_of_bytes h : hash_regular h → algo h = SHA1 → sha1_of (sha1_bytes h) = h ∧ length (sha1_bytes h) = 20%nat.
Proof.
  intros [([Hl Hb] & _ & Hz) Hsz] Ha. rewrite Ha in Hsz. change (regularHashSize SHA1) with 20%nat in Hsz.
  assert (length (sha1_bytes h) = 20%nat) as Hlen.
  { unfold sha1_bytes. rewrite length_map, length_take. unfold maxHashSize in Hl. lia. }
  split; [|done]. unfold sha1_of. rewrite Hlen. destruct h as [sz b a]. cbn [hash hashSize algo] in *. subst. f_equal.
  unfold sha1_bytes. cbn [hash]. rewrite map_map. rewrite <- (take_drop 20 b) at 2. f_equal.
  - rewrite <- (map_id (take 20 b)) at 2. apply map_ext_in. intros z Hz'%list_elem_of_In. rewrite byte_val_of. apply Z.mod_small.
    rewrite Forall_forall in Hb. apply Hb. eapply elem_of_take in Hz' as (i & Hi & _). by eapply list_elem_of_lookup_2.
  - apply list_eq. intros i. rewrite lookup_drop. destruct (decide (i < maxHashSize - 20)%nat) as [Hi|Hi].
    + rewrite (proj2 (lookup_replicate _ _ _ _)) by done. specialize (Hz (20 + i)%nat ltac:(lia)). unfold hbyte in Hz.
      destruct (lookup_lt_is_Some_2 b (20 + i)) as [z Hzi]; [rewrite Hl; lia|].
      rewrite Hzi. f_equal. rewrite (nth_lookup_Some _ _ _ _ Hzi) in Hz. done.
    + rewrite !lookup_ge_None_2; [done| |]; [rewrite Hl|rewrite length_replicate]; lia.
Qed.

Lemma tree_line_ok n e :
  entry_ok n e →
  tree_line (sort_name n (te_mode e), e) = Ok (oct_string (RawMode_of (te_mode e)) ++ " " ++ n ++ [NUL] ++ sha1_bytes (te_hash e)).
Proof.
  intros (Hn & _ & Hr & Ha). unfold tree_line, sort_name.
  assert (take (hashSize (te_hash e)) (hash (te_hash e)) = take 20 (hash (te_hash e))) as ->.
  { destruct Hr as [_ Hs]. by rewrite Hs, Ha. }
  case_bool_decide as Hm; [|done]. unfold assertR. assert (nonempty (n ++ "/") = true) as -> by (by destruct n).
  cbn [mbind result_bind]. rewrite (bool_decide_eq_true_2 (last (n ++ "/") = _)) by apply last_snoc. cbn [mbind result_bind].
  rewrite length_app. cbn [length]. rewrite Nat.add_sub, take_app_length. done.
Qed.

Lemma CanonPath_raw_name n : valid_comp n → CanonPath_raw n = Ok (render [n]).
Proof.
  intros Hn. rewrite CanonPath_raw_spec, <- normalize_slash. f_equal. f_equal.
  pose proof (normalize_render [n] ltac:(by constructor)) as H. rewrite abs_render in H. cbn in H.
  by rewrite app_nil_r in H.
Qed.

Section reading.
Context {S K : Type} `{SourceOk S, FileSystemObjectSink K} (xp : XpSettings).

Lemma getStringUntil_parses fuel byte x :
  byte ∉ x → (length x < fuel)%nat → parses (getStringUntil (S := S) fuel byte) (x ++ [byte]) x.
Proof.
  intros Hx Hf. unfold getStringUntil. enough (∀ acc, parses (getStringUntil_loop (S := S) fuel byte acc) (x ++ [byte]) (acc ++ x)) as He by apply (He []).
  revert x Hx Hf. induction fuel as [|fuel IH]; intros x Hx Hf acc; [lia|]. cbn [getStringUntil_loop].
  destruct x as [|c x]; cbn [app].
  - intros s d Hs. destruct (src_call_parses [byte] s d Hs) as (s' & E & Hs'). exists s'. change (length [byte]) with 1%nat in E.
    rewrite E. cbn [mbind result_bind nth]. rewrite bool_decide_eq_true_2, app_nil_r by done. done.
  - apply not_elem_of_cons in Hx as [Hc Hx]. change (c :: x ++ [byte]) with ([c] ++ (x ++ [byte])).
    eapply (parses_bind (src_call 1)); [apply (src_call_parses [c])|]. cbn [nth]. rewrite bool_decide_eq_false_2 by done.
    replace (acc ++ c :: x) with ((acc ++ [c]) ++ x) by (by rewrite <- app_assoc). apply IH; [done|]. cbn in Hf. lia.
Qed.

(** The loop over the entries calls the hook for each of them. *)
Lemma tree_loop_run fuel bytes (hook : CanonPath → TreeEntry → K → result K) (l : list (str * TreeEntry)) ws k s d :
  Forall2 (λ (ne : str * TreeEntry) w, entry_ok ne.1 ne.2 ∧ tree_line (sort_name ne.1 (te_mode ne.2), ne.2) = Ok w) l ws →
  Z.of_nat (length (concat ws)) < 2 ^ 31 → (length (concat ws) < bytes)%nat → (length l <= fuel)%nat →
  denotes s (concat ws ++ d) →
  ∃ s', denotes s' d ∧
    tree_loop fuel bytes hook (Z.of_nat (length (concat ws))) k s =
      (k' ← foldR (λ k (ne : str * TreeEntry), hook (render [ne.1]) ne.2 k) k l; Ok (k', s')).
Proof.
  intros Hl. revert fuel k s. induction Hl as [|[n e] w l ws [Ho Hw] Hl IH]; intros fuel k s Hlen Hb Hf Hs; cbn [concat] in *.
  { exists s. split; [done|]. destruct fuel; done. }
  destruct fuel as [|fuel]; [cbn in Hf; lia|]. cbn [fst snd] in *. rewrite (tree_line_ok n e Ho) in Hw.
  match type of Hw with Ok ?x = Ok _ => assert (w = x) as -> by (by injection Hw) end. clear Hw.
  destruct (sha1_of_bytes (te_hash e)) as [Hh Hlh]; [apply Ho|apply Ho|]. destruct (stoi_mode (te_mode e)) as [Hm Hsp].
  set (o := oct_string (RawMode_of (te_mode e))) in *. set (rest := concat ws) in *.
  assert (length ((o ++ " " ++ n ++ [NUL] ++ sha1_bytes (te_hash e)) ++ rest) = length o + 1 + (length n + 1) + 20 + length rest)%nat as El.
  { rewrite !length_app, Hlh. cbn. lia. }
  rewrite El in Hlen, Hb |- *.
  assert ((o ++ " " ++ n ++ [NUL] ++ sha1_bytes (te_hash e)) ++ rest ++ d =
    (o ++ [" "%char]) ++ (n ++ [NUL]) ++ sha1_bytes (te_hash e) ++ (rest ++ d)) as Ew by (by rewrite <- !app_assoc).
  rewrite <- app_assoc, Ew in Hs.
  destruct (getStringUntil_parses bytes " " o Hsp ltac:(lia) s _ Hs) as (s1 & E1 & Hs1).
  destruct (getStringUntil_parses bytes NUL n ltac:(apply Ho) ltac:(lia) s1 _ Hs1) as (s2 & E2 & Hs2).
  destruct (src_call_parses' 20 (sha1_bytes (te_hash e)) (eq_sym Hlh) s2 _ Hs2) as (s3 & E3 & Hs3).
  cbn [tree_loop]. rewrite (proj2 (Z.eqb_neq _ 0)) by lia. rewrite E1. cbn [mbind result_bind]. rewrite Hm. cbn [mbind result_bind].
  rewrite decodeMode_raw, E2. cbn [mbind result_bind]. unfold git_getString. rewrite E3. cbn [mbind result_bind].
  rewrite CanonPath_raw_name by apply Ho. cbn [mbind result_bind]. rewrite Hh. cbn [foldR fst snd].
  assert ({| te_mode := te_mode e; te_hash := te_hash e |} = e) as -> by (by destruct e).
  destruct (hook (render [n]) e k) as [k1|ex]; cbn [mbind result_bind].
  2:{ destruct (IH fuel k s3) as (s' & Hd & _); [lia|lia|cbn in Hf; lia|done|]. by exists s'. }
  destruct (IH fuel k1 s3) as (s' & Hd & Et); [lia|lia|cbn in Hf; lia|done|]. exists s'. split; [done|]. rewrite <- Et. f_equal.
  unfold u64. rewrite (Z.mod_small (Z.of_nat _ - Z.of_nat (length o))) by lia. rewrite (Z.mod_small (_ - 1)) by lia.
  rewrite (Z.mod_small (_ - Z.of_nat (length n))) by lia. rewrite (Z.mod_small (_ - 1)) by lia. rewrite Z.mod_small by lia. lia.
Qed.

Lemma sized_header n fuel :
  0 ≤ n → (length (std_to_string n) < fuel)%nat →
  parses (getStringUntil (S := S) fuel NUL) (std_to_string n ++ [NUL]) (std_to_string n).
Proof.
  intros Hn Hf. apply getStringUntil_parses; [|done]. eapply forallb_not_elem; [by apply std_to_string_digits|done].
Qed.

(** The object of a tree, from its entries by file name. *)
Lemma parse_tree_run fuel sinkPath m (hook : CanonPath → TreeEntry → K → result K) (l : list (str * TreeEntry)) ws k s d :
  isEnabled xp GitHashing = true →
  Forall2 (λ (ne : str * TreeEntry) w, entry_ok ne.1 ne.2 ∧ tree_line (sort_name ne.1 (te_mode ne.2), ne.2) = Ok w) l ws →
  Z.of_nat (length (concat ws)) < 2 ^ 31 → (length (concat ws) + 10 < fuel)%nat → (length l <= fuel)%nat →
  (length (std_to_string (Z.of_nat (length (concat ws)))) < fuel)%nat →
  denotes s (("tree " ++ std_to_string (Z.of_nat (length (concat ws))) ++ [NUL] ++ concat ws) ++ d) →
  ∃ s', denotes s' d ∧
    git_parse xp fuel sinkPath m hook k s =
      (k ← createDirectory sinkPath k; k' ← foldR (λ k (ne : str * TreeEntry), hook (render [ne.1]) ne.2 k) k l; Ok (k', s')).
Proof.
  intros Hx Hl Hlen Hb Hf Hd Hs. set (n := std_to_string (Z.of_nat (length (concat ws)))) in *.
  assert ((("tree " ++ n ++ [NUL] ++ concat ws) ++ d) = "tree " ++ (n ++ [NUL]) ++ (concat ws ++ d)) as Ew by (by rewrite <- !app_assoc).
  rewrite Ew in Hs. unfold git_parse, parseObjectType, require_feature. rewrite Hx. cbn [mbind result_bind].
  destruct (src_call_parses "tree "%str s _ Hs) as (s1 & E1 & Hs1). unfold git_getString. change (length "tree "%str) with 5%nat in E1.
  rewrite E1. cbn [mbind result_bind]. change (str_eqb "tree " "blob ") with false. change (str_eqb "tree " "tree ") with true. cbn [mbind result_bind].
  unfold parseTree. destruct (sized_header _ fuel (Nat2Z.is_nonneg (length (concat ws))) Hd s1 _ Hs1) as (s2 & E2 & Hs2). fold n in E2. rewrite E2.
  cbn [mbind result_bind]. unfold n. rewrite stoi_dec by lia. rewrite (proj2 (Z.ltb_lt _ _)) by lia. cbn [mbind result_bind].
  unfold u64. rewrite Z.mod_small by lia. destruct (createDirectory sinkPath k) as [k1|]; cbn [mbind result_bind].
  - apply (tree_loop_run fuel fuel hook l ws k1 s2 d); [done|done|lia|lia|done].
  - destruct (tree_loop_run fuel fuel hook l ws k s2 d) as (s' & Hs' & _); [done|done|lia|lia|done|]. by exists s'.
Qed.

Definition blob_mode (f : File) : BlobMode :=
  match f with Regular true _ => Blob_Executable | Symlink _ => Blob_Symlink | _ => Blob_Regular end.
Definition blob_data (f : File) : str :=
  match f with Regular _ c => c | Symlink t => t | Directory _ => [] end.


Lemma doRegularFile_run x c cs k k' s d :
  Z.of_nat (length c) < 2 ^ 31 → foldR run_event k (events cs (Regular x c)) = Ok k' → denotes s (c ++ d) →
  ∃ s', doRegularFile x (Z.of_nat (length c)) (render cs) k s = Ok (k', s') ∧ denotes s' d.
Proof.
  intros Hl Hrun Hs. cbn [events foldR run_event] in Hrun. unfold doRegularFile.
  destruct (createRegularFile (render cs) k) as [k1|]; cbn [mbind result_bind] in Hrun |- *; [|done].
  apply foldR_app_inv in Hrun as (k2 & Hx & Hrun).
  assert ((if x then crf_isExecutable (render cs) k1 else Ok k1) = Ok k2) as ->.
  { destruct x; cbn [foldR run_event] in Hx; [|done]. destruct (crf_isExecutable (render cs) k1); done. }
  cbn [mbind result_bind foldR run_event] in Hrun |- *.
  destruct (crf_preallocateContents (render cs) (Z.of_nat (length c)) k2) as [k3|]; cbn [mbind result_bind] in Hrun |- *; [|done].
  apply (contents_loop_parses _ (length c) (render cs) c k3 k' Hrun (le_n _)); [|done].
  unfold chunk_size. pose proof (Z.mod_pos_bound (Z.of_nat (length c)) 65536). pose proof (Z_div_mod_eq_full (Z.of_nat (length c)) 65536).
  pose proof (Z.div_pos (Z.of_nat (length c)) 65536). lia.
Qed.

Definition git_blob (f : File) : str :=
  "blob " ++ std_to_string (Z.of_nat (length (blob_data f))) ++ [NUL] ++ blob_data f.

Lemma parse_blob_run fuel cs f (hook : CanonPath → TreeEntry → K → result K) k s d :
  isEnabled xp GitHashing = true → (∀ es, f ≠ Directory es) →
  (length (std_to_string (Z.of_nat (length (blob_data f)))) < fuel)%nat → denotes s (git_blob f ++ d) →
  (∀ k', Z.of_nat (length (blob_data f)) < 2 ^ 31 → foldR run_event k (events cs f) = Ok k' →
    ∃ s', git_parse xp fuel (render cs) (blob_mode f) hook k s = Ok (k', s') ∧ denotes s' d) ∧
  (2 ^ 31 ≤ Z.of_nat (length (blob_data f)) →
    git_parse xp fuel (render cs) (blob_mode f) hook k s = Throw (StdException "stoi: out_of_range")).
Proof.
  intros Hx Hf Hd Hs. set (n := std_to_string (Z.of_nat (length (blob_data f)))) in *.
  assert (git_blob f ++ d = "blob " ++ (n ++ [NUL]) ++ (blob_data f ++ d)) as Ew by (unfold git_blob; by rewrite <- !app_assoc).
  rewrite Ew in Hs. destruct (src_call_parses "blob "%str s _ Hs) as (s1 & E1 & Hs1). change (length "blob "%str) with 5%nat in E1.
  destruct (sized_header _ fuel (Nat2Z.is_nonneg (length (blob_data f))) Hd s1 _ Hs1) as (s2 & E2 & Hs2). fold n in E2.
  assert (git_parse xp fuel (render cs) (blob_mode f) hook k s =
    (size ← stoi 10 n; match blob_mode f with
     | Blob_Regular => doRegularFile false (u64 size) (render cs) k s2
     | Blob_Executable => doRegularFile true (u64 size) (render cs) k s2
     | Blob_Symlink => '(target, s) ← src_call (Z.to_nat (u64 size)) s2; k ← createSymlink (render cs) target k; Ok (k, s) end)) as Ep.
  { unfold git_parse, parseObjectType, require_feature, git_getString. rewrite Hx. cbn [mbind result_bind]. rewrite E1. cbn [mbind result_bind].
    change (str_eqb "blob " "blob ") with true. cbn [mbind result_bind]. unfold parseBlob, require_feature. rewrite Hx. cbn [mbind result_bind].
    rewrite E2. done. }
  rewrite Ep. unfold n. rewrite stoi_dec by lia. split.
  - intros k' Hl Hrun. rewrite (proj2 (Z.ltb_lt _ _)) by lia. cbn [mbind result_bind]. unfold u64. rewrite Z.mod_small by lia.
    destruct f as [x c|es|t]; cbn [blob_mode blob_data] in *; [|by destruct (Hf es)|].
    + destruct x; by apply (doRegularFile_run _ c cs k k' s2 d Hl).
    + rewrite Nat2Z.id. destruct (src_call_parses t s2 d Hs2) as (s3 & E3 & Hs3). rewrite E3. cbn [mbind result_bind].
      cbn [events foldR run_event] in Hrun. destruct (createSymlink (render cs) t k); cbn [mbind result_bind] in Hrun |- *; [|done].
      injection Hrun as ->. by exists s3.
  - intros Hl. by rewrite (proj2 (Z.ltb_ge _ _)) by lia.
Qed.
End reading.

(** * Writing trees *)

(** Every key is the sort name of an acceptable entry. *)
Definition tree_ok (entries : GitTree) : Prop :=
  map_Forall (λ key e, ∃ n, key = sort_name n (te_mode e) ∧ entry_ok n e) entries.

Definition file_name (ke : str * TreeEntry) : str :=
  if bool_decide (te_mode ke.2 = Mode_Directory) then take (length ke.1 - 1) ke.1 else ke.1.

Lemma file_name_sort n e : file_name (sort_name n (te_mode e), e) = n.
Proof.
  unfold file_name, sort_name. cbn [fst snd]. case_bool_decide; [|done].
  rewrite length_app. cbn [length]. by rewrite Nat.add_sub, take_app_length.
Qed.

(** The entries by file name, in the order of the object. *)
Definition tree_entries (entries : GitTree) : list (str * TreeEntry) := map (λ ke, (file_name ke, ke.2)) (map_sorted entries).

Lemma dumpTree_lines xp entries :
  isEnabled xp GitHashing = true → tree_ok entries →
  ∃ ws, dumpTree xp entries = Ok ("tree " ++ std_to_string (Z.of_nat (length (concat ws))) ++ [NUL] ++ concat ws) ∧
    Forall2 (λ (ne : str * TreeEntry) w, entry_ok ne.1 ne.2 ∧ tree_line (sort_name ne.1 (te_mode ne.2), ne.2) = Ok w) (tree_entries entries) ws.
Proof.
  intros Hx Ht. unfold dumpTree, require_feature. rewrite Hx. cbn [mbind result_bind]. unfold tree_entries.
  assert (∀ l, (∀ ke, ke ∈ l → ke ∈ map_sorted entries) → ∃ ws, mapR tree_line l = Ok ws ∧
    Forall2 (λ (ne : str * TreeEntry) w, entry_ok ne.1 ne.2 ∧ tree_line (sort_name ne.1 (te_mode ne.2), ne.2) = Ok w)
      (map (λ ke, (file_name ke, ke.2)) l) ws) as Hgo.
  { induction l as [|[key e] l IH]; intros Hl; [by exists []|].
    assert ((key, e) ∈ map_sorted entries) as Hin by (apply Hl; by left). apply elem_of_map_sorted in Hin.
    destruct (Ht key e Hin) as (n & -> & Hn). destruct IH as (ws & Ew & Hw); [intros ke ?; apply Hl; by right|].
    eexists (_ :: ws). cbn [mapR]. rewrite (tree_line_ok n e Hn). cbn [mbind result_bind]. rewrite Ew. split; [done|].
    cbn [map]. rewrite file_name_sort. constructor; [|done]. split; [done|by apply tree_line_ok]. }
  destruct (Hgo (map_sorted entries)) as (ws & -> & Hw); [done|]. exists ws. done.
Qed.

(** * Hashing trees *)

Definition tree_of (l : list (str * TreeEntry)) : GitTree :=
  foldl (λ m (ne : str * TreeEntry), <[sort_name ne.1 (te_mode ne.2) := ne.2]> m) ∅ l.

Section hashing.
Context (xp : XpSettings) (hashString : HashAlgorithm → str → Hash) (ha : HashAlgorithm).
Context (Hx : isEnabled xp GitHashing = true).

Definition git_tree (l : list (str * TreeEntry)) : str :=
  match dumpTree xp (tree_of l) with Ok s => s | Throw _ => [] end.

(** The entry of a file system object in the directory above it. *)
Fixpoint git_entry (f : File) : TreeEntry :=
  match f with
  | Regular x c => {| te_mode := if x then Mode_Executable else Mode_Regular; te_hash := hashString ha (git_blob f) |}
  | Symlink t => {| te_mode := Mode_Symlink; te_hash := hashString ha (git_blob f) |}
  | Directory es => {| te_mode := Mode_Directory; te_hash := hashString ha (git_tree (map (λ e, (e.1, git_entry e.2)) es)) |}
  end.

Lemma tree_line_total n e : ∃ w, tree_line (sort_name n (te_mode e), e) = Ok w.
Proof using.
  unfold tree_line, sort_name. case_bool_decide; [|by eexists]. unfold assertR.
  assert (nonempty (n ++ "/") = true) as -> by (by destruct n). cbn [mbind result_bind].
  rewrite (bool_decide_eq_true_2 (last (n ++ "/") = _)) by apply last_snoc. by eexists.
Qed.

Lemma tree_of_keys l key e :
  tree_of l !! key = Some e → ∃ n, key = sort_name n (te_mode e) ∧ (n, e) ∈ l.
Proof using.
  unfold tree_of. revert key e. induction l as [|[n e] l IH] using rev_ind; intros key e'; [done|].
  rewrite foldl_app. cbn [foldl fst snd]. intros [[<- <-]|[_ Hl]]%lookup_insert_Some.
  - exists n. split; [done|]. apply elem_of_app. right. by left.
  - destruct (IH _ _ Hl) as (n' & -> & Hin). exists n'. split; [done|]. apply elem_of_app. by left.
Qed.

Lemma git_tree_ok l : dumpTree xp (tree_of l) = Ok (git_tree l).
Proof using Hx.
  unfold git_tree. enough (∃ s, dumpTree xp (tree_of l) = Ok s) as [s ->] by done.
  unfold dumpTree, require_feature. rewrite Hx. cbn [mbind result_bind].
  assert (∀ m, (∀ ke, ke ∈ m → ke ∈ map_sorted (tree_of l)) → ∃ ws, mapR tree_line m = Ok ws) as Hgo.
  { induction m as [|[key e] m IH]; intros Hm; [by exists []|].
    assert ((key, e) ∈ map_sorted (tree_of l)) as Hin by (apply Hm; by left).
    apply elem_of_map_sorted, tree_of_keys in Hin as (n & -> & _).
    destruct (tree_line_total n e) as [w Ew]. destruct IH as [ws Ews]; [intros ke ?; apply Hm; by right|].
    cbn [mapR]. rewrite Ew. cbn [mbind result_bind]. rewrite Ews. by eexists. }
  destruct (Hgo (map_sorted (tree_of l))) as [ws ->]; [done|]. by eexists.
Qed.

Section memory.
Context (filter : str → bool) (root : MemorySourceAccessor).

Lemma dumpHash_ok fuel cs f :
  (depth f <= fuel)%nat → file_wf f → Forall plain_comp cs → open_find cs root = Some f →
  dumpHash xp filter root hashString fuel ha (render cs) = Ok (git_entry (prune filter cs f)).
Proof using Hx.
  revert cs f. induction fuel as [|fuel IH]; intros cs f Hd Hwf Hcs Hf; [destruct f; cbn in Hd; lia|].
  cbn [dumpHash]. unfold git_dump, lstat. cbn [sa_maybeLstat MemorySourceAccessor_accessor]. unfold Memory_maybeLstat.
  rewrite components_render, Hf by done. cbn [fmap option_fmap option_map mbind result_bind].
  assert (∀ n, dumpBlobPrefix xp n = Ok ("blob " ++ std_to_string n ++ [NUL])) as Hb.
  { intros n. unfold dumpBlobPrefix, require_feature. by rewrite Hx. }
  inversion Hwf as [x c Hc|t Ht|es Hes Hall]; subst; cbn [File_lstat st_type st_isExecutable].
  - cbn [sa_readFile MemorySourceAccessor_accessor]. unfold Memory_readFile.
    rewrite components_render, Hf by done. cbn [mbind result_bind]. rewrite Hb. cbn [mbind result_bind prune git_entry].
    unfold git_blob. cbn [blob_data]. by rewrite <- !app_assoc.
  - cbn [sa_readLink MemorySourceAccessor_accessor]. unfold Memory_readLink.
    rewrite components_render, Hf by done. cbn [mbind result_bind]. rewrite Hb. cbn [mbind result_bind prune git_entry].
    unfold git_blob. cbn [blob_data]. by rewrite <- !app_assoc.
  - cbn [sa_readDirectory MemorySourceAccessor_accessor]. rewrite (Memory_readDirectory_ok _ _ es) by done. cbn [mbind result_bind].
    match goal with |- context [foldR ?F ∅ _] =>
      assert (∀ todo m, todo ⊆ es → foldR F m (map (λ e, (e.1, Some (st_type (File_lstat e.2)))) todo) =
        Ok (foldl (λ m (ne : str * TreeEntry), <[sort_name ne.1 (te_mode ne.2) := ne.2]> m) m
          (map (λ e, (e.1, git_entry e.2)) (concat (map (λ e,
            if filter (abs (render (cs ++ [e.1]))) then [(e.1, prune filter (cs ++ [e.1]) e.2)] else []) todo))))) as Hgo end.
    { induction todo as [|[n g] todo IHt]; intros m Hsub; [done|].
      assert (Hin : (n, g) ∈ es) by set_solver. pose proof (depth_entry _ _ Hin).
      rewrite Forall_forall in Hall. destruct (Hall _ Hin) as [[Hn _] Hg]. cbn [fst snd] in *.
      cbn [map concat foldR fst snd]. rewrite push_render by done. cbn [mbind result_bind].
      destruct (filter (abs (render (cs ++ [n])))); cbn [mbind result_bind app map]; [|apply IHt; set_solver].
      rewrite (IH (cs ++ [n]) g); [|lia|done|apply Forall_app; split; [done|]; apply Forall_singleton; by destruct Hn|].
      - cbn [mbind result_bind foldl fst snd]. unfold sort_name at 1. apply IHt. set_solver.
      - rewrite open_find_app, Hf. cbn. by rewrite (smap_find_in n g es). }
    rewrite Hgo by done. cbn [mbind result_bind]. fold (tree_of (map (λ e, (e.1, git_entry e.2)) (concat (map (λ e,
            if filter (abs (render (cs ++ [e.1]))) then [(e.1, prune filter (cs ++ [e.1]) e.2)] else []) es)))).
    by rewrite git_tree_ok.
Qed.
End memory.
End hashing.

(** * Objects determine trees *)

Lemma smap_find_elem {V} n (v : V) m : smap_find n m = Some v → (n, v) ∈ m.
Proof.
  induction m as [|[k w] m IH]; cbn; [done|]. destruct (str_eqb k n) eqn:E.
  - apply str_eqb_true in E as ->. intros [= ->]. by left.
  - intros H. right. by apply IH.
Qed.

Lemma smap_ext {V} (l1 l2 : list (str * V)) :
  smap_wf l1 → smap_wf l2 → (∀ x, x ∈ l1 ↔ x ∈ l2) → l1 = l2.
Proof.
  assert (∀ k (v : V) l x, smap_wf ((k, v) :: l) → x ∈ l → str_lt k x.1) as Hlt.
  { intros k v l x Hwf Hx. unfold smap_wf in Hwf. cbn in Hwf. inversion Hwf as [|? ? _ Hall]; subst.
    rewrite Forall_forall in Hall. apply Hall, list_elem_of_fmap. eauto. }
  assert (∀ (a b : str * V), str_lt a.1 b.1 → str_lt b.1 a.1 → False) as Hasym.
  { intros a b H1 H2%str_lt_gt. unfold str_lt in H1. congruence. }
  revert l2. induction l1 as [|[k v] l1 IH]; intros [|[k' v'] l2] W1 W2 Heq.
  - done.
  - exfalso. by apply (elem_of_nil (k', v')), Heq; left.
  - exfalso. by apply (elem_of_nil (k, v)), Heq; left.
  - assert ((k, v) = (k', v')) as E.
    { assert ((k, v) ∈ (k', v') :: l2) as H1 by (apply Heq; by left). assert ((k', v') ∈ (k, v) :: l1) as H2 by (apply Heq; by left).
      apply elem_of_cons in H1 as [?|H1], H2 as [?|H2]; [done..|]. exfalso.
      apply (Hasym (k, v) (k', v')); [by apply (Hlt k v l1)|by apply (Hlt k' v' l2)]. }
    injection E as <- <-. f_equal. unfold smap_wf in W1, W2. cbn in W1, W2. inversion W1 as [|? ? W1' A1]; inversion W2 as [|? ? W2' A2]; subst.
    apply IH; [done|done|]. intros x. pose proof (Heq x) as Hx. rewrite !elem_of_cons in Hx.
    assert (∀ l, Forall (str_lt k) l.*1 → x ∈ l → x ≠ (k, v)) as Hne.
    { intros l Hl Hin ->. rewrite Forall_forall in Hl. apply (str_lt_irrefl k), Hl, list_elem_of_fmap. by exists (k, v). }
    split; intros Hin; [apply Hne in Hin as ?; [|done]|apply Hne in Hin as ?; [|done]]; naive_solver.
Qed.

Lemma sort_name_inj n m e e' :
  valid_comp n → valid_comp m → sort_name n e = sort_name m e' → n = m.
Proof.
  assert (∀ a b : str, valid_comp b → a ++ "/" ≠ b) as Hs.
  { intros a b [[_ Hb] _] <-. rewrite forallb_app in Hb. apply andb_true_iff in Hb as [_ Hb]. done. }
  unfold sort_name. intros Hn Hm. do 2 case_bool_decide; intros E.
  - by apply app_inj_2 in E as [? _].
  - by apply Hs in E.
  - symmetry in E. by apply Hs in E.
  - done.
Qed.

Lemma tree_of_lookup l n e :
  Forall (λ ne : str * TreeEntry, valid_comp ne.1) l → NoDup l.*1 → (n, e) ∈ l → tree_of l !! sort_name n (te_mode e) = Some e.
Proof.
  unfold tree_of. induction l as [|[n' e'] l IH] using rev_ind; intros Hv Hnd Hin; [by apply elem_of_nil in Hin|].
  rewrite fmap_app in Hnd. cbn in Hnd. apply NoDup_app in Hnd as (Hnd & Hdis & _). apply Forall_app in Hv as [Hv [Hv' _]%Forall_cons].
  rewrite foldl_app. cbn [foldl fst snd]. apply elem_of_app in Hin as [Hin|[= -> ->]%list_elem_of_singleton].
  - rewrite lookup_insert_ne; [by apply IH|]. intros E. apply sort_name_inj in E as ->; [|done|].
    + apply (Hdis n); [apply list_elem_of_fmap; by exists (n, e)|by left].
    + rewrite Forall_forall in Hv. by apply (Hv (n, e)).
  - apply lookup_insert_eq.
Qed.

Lemma smap_wf_NoDup {V} (l : list (str * V)) : smap_wf l → NoDup l.*1.
Proof.
  unfold smap_wf. induction 1 as [|k ks _ IH Hall]; constructor; [|done].
  intros Hin. rewrite Forall_forall in Hall. by apply (str_lt_irrefl k), Hall.
Qed.

Lemma tree_of_inj l1 l2 :
  Forall (λ ne : str * TreeEntry, valid_comp ne.1) l1 → Forall (λ ne : str * TreeEntry, valid_comp ne.1) l2 →
  smap_wf l1 → smap_wf l2 → tree_of l1 = tree_of l2 → l1 = l2.
Proof.
  assert (∀ l l', Forall (λ ne : str * TreeEntry, valid_comp ne.1) l → Forall (λ ne : str * TreeEntry, valid_comp ne.1) l' →
    smap_wf l → tree_of l = tree_of l' → ∀ x, x ∈ l → x ∈ l') as Hsub.
  { intros l l' Hv Hv' Hw E [n e] Hin. pose proof (tree_of_lookup l n e Hv (smap_wf_NoDup _ Hw) Hin) as Hl. rewrite E in Hl.
    apply tree_of_keys in Hl as (m & Es & Hm). apply sort_name_inj in Es as <-; [done| |].
    - rewrite Forall_forall in Hv. by apply (Hv (n, e)).
    - rewrite Forall_forall in Hv'. by apply (Hv' (m, e)). }
  intros V1 V2 W1 W2 E. apply smap_ext; [done|done|]. intros x. split; [by apply Hsub|]. by apply Hsub.
Qed.

Lemma tree_lines_inj l1 ws1 l2 ws2 :
  Forall2 (λ (ne : str * TreeEntry) w, entry_ok ne.1 ne.2 ∧ tree_line (sort_name ne.1 (te_mode ne.2), ne.2) = Ok w) l1 ws1 →
  Forall2 (λ (ne : str * TreeEntry) w, entry_ok ne.1 ne.2 ∧ tree_line (sort_name ne.1 (te_mode ne.2), ne.2) = Ok w) l2 ws2 →
  concat ws1 = concat ws2 → l1 = l2.
Proof.
  intros H1. revert l2 ws2. induction H1 as [|[n e] w l1 ws1 [Ho Hw] H1 IH]; intros l2 ws2 H2 E; destruct H2 as [|[n' e'] w' l2 ws2 [Ho' Hw'] H2].
  - done.
  - cbn [fst snd concat] in *. rewrite (tree_line_ok n' e' Ho') in Hw'. injection Hw' as <-. apply (f_equal length) in E. rewrite !length_app in E. cbn in E. lia.
  - cbn [fst snd concat] in *. rewrite (tree_line_ok n e Ho) in Hw. injection Hw as <-. apply (f_equal length) in E. rewrite !length_app in E. cbn in E. lia.
  - cbn [fst snd concat] in *. rewrite (tree_line_ok n e Ho) in Hw. rewrite (tree_line_ok n' e' Ho') in Hw'.
    match type of Hw with Ok ?x = Ok _ => assert (w = x) as -> by (by injection Hw) end.
    match type of Hw' with Ok ?x = Ok _ => assert (w' = x) as -> by (by injection Hw') end. rewrite <- !app_assoc in E.
    apply field_inj in E as [Em E]; [|apply stoi_mode|apply stoi_mode].
    apply field_inj in E as [<- E]; [|apply Ho|apply Ho'].
    destruct (sha1_of_bytes (te_hash e)) as [Hh Hl]; [apply Ho|apply Ho|]. destruct (sha1_of_bytes (te_hash e')) as [Hh' Hl']; [apply Ho'|apply Ho'|].
    apply app_inj_1 in E as [Eb E]; [|congruence]. f_equal; [|by eapply IH].
    assert (RawMode_of (te_mode e) = RawMode_of (te_mode e')) as Er.
    { pose proof (proj1 (stoi_mode (te_mode e))) as A. rewrite Em, (proj1 (stoi_mode (te_mode e'))) in A. by injection A. }
    assert (te_mode e = te_mode e') as Emode.
    { pose proof (decodeMode_raw (te_mode e)) as A. rewrite Er, decodeMode_raw in A. by injection A. }
    f_equal. destruct e, e'. cbn in *. congruence.
Qed.

Lemma dumpTree_inj xp m1 m2 s :
  tree_ok m1 → tree_ok m2 → isEnabled xp GitHashing = true → dumpTree xp m1 = Ok s → dumpTree xp m2 = Ok s → m1 = m2.
Proof.
  intros T1 T2 Hx E1 E2. destruct (dumpTree_lines xp m1 Hx T1) as (ws1 & D1 & F1), (dumpTree_lines xp m2 Hx T2) as (ws2 & D2 & F2).
  rewrite E1 in D1. rewrite E2 in D2. rewrite D1 in D2.
  match type of D2 with Ok ?x = Ok ?y => assert (x = y) as E by (exact (f_equal (λ r, match r with Ok v => v | Throw _ => x end) D2)) end.
  clear D1 D2 E1 E2.
  apply app_inv_head in E. apply field_inj in E as [_ E];
    [|eapply forallb_not_elem; [apply std_to_string_digits; lia|done]..].
  pose proof (tree_lines_inj _ _ _ _ F1 F2 E) as Ee.
  assert (∀ m, tree_ok m → map_sorted m = map (λ ne : str * TreeEntry, (sort_name ne.1 (te_mode ne.2), ne.2)) (tree_entries m)) as Hback.
  { intros m Ht. unfold tree_entries. rewrite map_map. rewrite <- (map_id (map_sorted m)) at 1. apply map_ext_in.
    intros [key e] Hin%list_elem_of_In%elem_of_map_sorted. destruct (Ht _ _ Hin) as (n & -> & _). cbn [fst snd]. by rewrite file_name_sort. }
  rewrite <- (list_to_map_sorted m1), (Hback m1 T1), Ee, <- (Hback m2 T2). apply list_to_map_sorted.
Qed.

(** Every line of a tree takes at least 22 bytes. *)
Lemma tree_lines_length l ws :
  Forall2 (λ (ne : str * TreeEntry) w, entry_ok ne.1 ne.2 ∧ tree_line (sort_name ne.1 (te_mode ne.2), ne.2) = Ok w) l ws →
  (length l <= length (concat ws))%nat.
Proof.
  induction 1 as [|[n e] w l ws [Ho Hw] _ IH]; [done|]. cbn [fst snd concat length] in *. rewrite (tree_line_ok n e Ho) in Hw.
  match type of Hw with Ok ?x = Ok _ => assert (w = x) as -> by (by injection Hw) end. rewrite !length_app. cbn [length]. lia.
Qed.

Lemma parse_dumped_tree {S K} `{SourceOk S, FileSystemObjectSink K} (xp : XpSettings) (fuel : nat) (sinkPath : CanonPath) (m : BlobMode)
    (hook : CanonPath → TreeEntry → K → result K) (entries : GitTree) (out : str) (k : K) (s : S) (d : str) :
  isEnabled xp GitHashing = true → tree_ok entries → dumpTree xp entries = Ok out →
  Z.of_nat (length out) < 2 ^ 31 → (length out + 5 <= fuel)%nat → denotes s (out ++ d) →
  ∃ s', denotes s' d ∧
    git_parse xp fuel sinkPath m hook k s =
      (k ← createDirectory sinkPath k;
       k' ← foldR (λ k (ne : str * TreeEntry), hook (render [ne.1]) ne.2 k) k (tree_entries entries); Ok (k', s')).
Proof.
  intros Hx Ht Ho Hl Hf Hs. destruct (dumpTree_lines xp entries Hx Ht) as (ws & Hd & Hw). rewrite Ho in Hd.
  match type of Hd with Ok ?x = Ok ?y =>
    assert (x = y) as -> by (exact (f_equal (λ r, match r with Ok v => v | Throw _ => x end) Hd)) end. clear Ho Hd.
  pose proof (tree_lines_length _ _ Hw). rewrite !length_app in Hl, Hf. cbn [length] in Hl, Hf.
  apply (parse_tree_run xp fuel sinkPath m hook _ ws); [done|done|lia|lia|lia|lia|done].
Qed.

(** * Theorems *)

(** Round trip of Git trees. Reading the object [dumpTree] writes for a
    tree whose keys are the sort names of acceptable entries and whose object
    is shorter than 2^31 bytes creates the directory, calls the hook once for
    every entry, in the order of the tree, with the name (without the slash
    that sorts directories), the mode and the hash of the entry, fails
    exactly when the directory cannot be created or one of the calls fails, and
    leaves the source behind the object. *)
Theorem git_tree_roundtrip {S K} `{SourceOk S, FileSystemObjectSink K} (xp : XpSettings) (fuel : nat) (sinkPath : CanonPath) (m : BlobMode)
    (hook : CanonPath → TreeEntry → K → result K) (entries : GitTree) (out : str) (k : K) (s : S) (d : str) :
  isEnabled xp GitHashing = true → tree_ok entries → dumpTree xp entries = Ok out →
  Z.of_nat (length out) < 2 ^ 31 → (length out + 5 <= fuel)%nat → denotes s (out ++ d) →
  ∃ s', denotes s' d ∧
    git_parse xp fuel sinkPath m hook k s =
      (k ← createDirectory sinkPath k;
       k' ← foldR (λ k (ne : str * TreeEntry), hook (render [ne.1]) ne.2 k) k (tree_entries entries); Ok (k', s')).
Proof. apply parse_dumped_tree. Qed.

(** [C40] Blobs and the range of [std::stoi]. Reading the object written for a
    regular file or symbolic link of less than 2^31 bytes performs exactly
    the sink operations that create it; an object of 2^31 bytes or more, which
    [dumpBlobPrefix] writes without complaint, is refused with the exception
    of [std::stoi] before anything is created. *)
Theorem git_blob_bounds {S K} `{SourceOk S, FileSystemObjectSink K} (xp : XpSettings) fuel cs f
    (hook : CanonPath → TreeEntry → K → result K) k (s : S) prefix d :
  isEnabled xp GitHashing = true → (∀ es, f ≠ Directory es) →
  dumpBlobPrefix xp (Z.of_nat (length (blob_data f))) = Ok prefix →
  (length prefix <= fuel)%nat → denotes s ((prefix ++ blob_data f) ++ d) →
  (∀ k', Z.of_nat (length (blob_data f)) < 2 ^ 31 → foldR run_event k (events cs f) = Ok k' →
    ∃ s', git_parse xp fuel (render cs) (blob_mode f) hook k s = Ok (k', s') ∧ denotes s' d) ∧
  (2 ^ 31 ≤ Z.of_nat (length (blob_data f)) →
    git_parse xp fuel (render cs) (blob_mode f) hook k s = Throw (StdException "stoi: out_of_range")).
Proof.
  intros Hx Hf Hp Hl Hs. unfold dumpBlobPrefix, require_feature in Hp. rewrite Hx in Hp. cbn [mbind result_bind] in Hp.
  match type of Hp with Ok ?x = Ok _ => assert (prefix = x) as -> by (by injection Hp) end.
  apply parse_blob_run; [done|done| |].
  - rewrite !length_app in Hl. cbn [length] in Hl. lia.
  - unfold git_blob. by rewrite <- !app_assoc in Hs |- *.
Qed.

(** [restore] cannot restore executable files. [convertMode] knows only
    the type of a file and answers [Regular] for an executable one, so on a
    tree that lists an executable entry, whatever files the hook provides for
    the hashes, whatever the sink, [restore] throws. *)
Theorem restore_refuses_executables {S K A} `{SourceOk S, FileSystemObjectSink K, SourceAccessor A} (xp : XpSettings)
    (fuel depth : nat) (hook : Hash → result (A * CanonPath)) (entries : GitTree) (out key : str) (e : TreeEntry) (k : K) (s : S) (d : str) :
  isEnabled xp GitHashing = true → tree_ok entries → dumpTree xp entries = Ok out →
  Z.of_nat (length out) < 2 ^ 31 → (length out + 5 <= fuel)%nat → denotes s (out ++ d) →
  entries !! key = Some e → te_mode e = Mode_Executable →
  ∃ ex, restore xp fuel depth hook k s = Throw ex.
Proof.
  intros Hx Ht Ho Hl Hf Hs Hk He. unfold restore.
  match goal with |- context [git_parse xp fuel cp_root Blob_Regular ?h k s] => set (hk := h) end.
  destruct (parse_dumped_tree xp fuel cp_root Blob_Regular hk entries out k s d Hx Ht Ho Hl Hf Hs) as (s' & _ & ->).
  destruct (createDirectory cp_root k) as [k1|]; cbn [mbind result_bind]; [|by eexists].
  assert (∀ n k2, ∃ ex, hk (render [n]) e k2 = Throw ex) as Hk2.
  { intros n k2. unfold hk. destruct (hook (te_hash e)) as [[a from]|]; cbn [mbind result_bind]; [|by eexists].
    destruct (lstat from a) as [st|]; cbn [mbind result_bind]; [|by eexists]. rewrite He.
    destruct (st_type st); cbn [convertMode mbind result_bind]; by eexists. }
  assert ((key, e) ∈ map_sorted entries) as Hin by (by apply elem_of_map_sorted).
  apply list_elem_of_split in Hin as (l1 & l2 & El). unfold tree_entries. rewrite El, map_app, foldR_app. cbn [map foldR].
  destruct (foldR _ k1 (map _ l1)) as [k3|]; cbn [mbind result_bind fst snd]; [|by eexists].
  destruct (Hk2 (file_name (key, e)) k3) as [ex ->]. by exists ex.
Qed.

Lemma git_blob_inj f g : git_blob f = git_blob g → blob_data f = blob_data g.
Proof.
  unfold git_blob. intros E%app_inv_head. apply field_inj in E as [_ E]; [done|..];
    (eapply forallb_not_elem; [apply std_to_string_digits; lia|done]).
Qed.

Section identify.
Context (xp : XpSettings) (hashString : HashAlgorithm → str → Hash).
Context (Hx : isEnabled xp GitHashing = true).
Context (Hh : ∀ s, hash_regular (hashString SHA1 s) ∧ algo (hashString SHA1 s) = SHA1).

Abbreviation entries_of es := (map (λ e : str * File, (e.1, git_entry xp hashString SHA1 e.2)) es).

(** The objects of a tree, whose digests name them. *)
Fixpoint git_objects (f : File) : list str :=
  match f with
  | Directory es => git_tree xp (entries_of es) :: concat (map (λ e, git_objects e.2) es)
  | _ => [git_blob f]
  end.
Abbreviation distinct := (separates (hashString SHA1)).

Lemma entries_of_names es : (entries_of es).*1 = es.*1.
Proof using. induction es as [|e es IH]; [done|]. cbn. by f_equal. Qed.

Lemma git_entry_hash f : hash_regular (te_hash (git_entry xp hashString SHA1 f)) ∧ algo (te_hash (git_entry xp hashString SHA1 f)) = SHA1.
Proof using Hh. destruct f; apply Hh. Qed.

Lemma entries_of_valid es :
  Forall (λ e, name_ok e.1 ∧ file_wf e.2) es → Forall (λ ne : str * TreeEntry, valid_comp ne.1) (entries_of es).
Proof using. intros H. apply Forall_map. eapply Forall_impl; [exact H|]. by intros e [[? _] _]. Qed.

Lemma entries_of_tree_ok es :
  Forall (λ e, name_ok e.1 ∧ file_wf e.2) es → tree_ok (tree_of (entries_of es)).
Proof using Hh.
  intros H key e (n & -> & Hin)%tree_of_keys. exists n. split; [done|].
  apply list_elem_of_fmap in Hin as ([n' f] & [= -> ->] & Hin). rewrite Forall_forall in H.
  destruct (H _ Hin) as [(Hn & H0 & _) _]. destruct (git_entry_hash f). done.
Qed.

Lemma git_tree_inj es1 es2 :
  file_wf (Directory es1) → file_wf (Directory es2) →
  git_tree xp (entries_of es1) = git_tree xp (entries_of es2) → entries_of es1 = entries_of es2.
Proof using Hx Hh.
  intros W1 W2 E. inversion W1 as [| |? S1 A1]; inversion W2 as [| |? S2 A2]; subst.
  apply tree_of_inj; [by apply entries_of_valid|by apply entries_of_valid|..].
  1,2: unfold smap_wf; by rewrite entries_of_names.
  apply (dumpTree_inj xp _ _ (git_tree xp (entries_of es1))); [by apply entries_of_tree_ok|by apply entries_of_tree_ok|done|..].
  - by apply git_tree_ok.
  - rewrite E. by apply git_tree_ok.
Qed.

(** The entries of two well-formed trees are equal only if the trees are. *)
Lemma git_entry_inj fuel f g :
  (depth f <= fuel)%nat → file_wf f → file_wf g → distinct (git_objects f) (git_objects g) →
  git_entry xp hashString SHA1 f = git_entry xp hashString SHA1 g → f = g.
Proof using Hx Hh.
  revert f g. induction fuel as [|fuel IH]; intros f g Hd Hf Hg Hs E; [destruct f; cbn in Hd; lia|].
  destruct f as [x c|es|t], g as [y c'|es'|t']; cbn [git_entry] in E; try (repeat case_match; discriminate E).
  - injection E as Em Eh. apply (separates_inj _ _ _ _ _ Hs) in Eh; [|by left|by left]. apply git_blob_inj in Eh. cbn in Eh. subst. by destruct x, y.
  - injection E as Eh. apply (separates_inj _ _ _ _ _ Hs) in Eh; [|by left|by left]. apply git_tree_inj in Eh; [|done|done].
    inversion Hf as [| |? _ A]; inversion Hg as [| |? _ A']; subst. clear Hf Hg. f_equal.
    assert (∀ e, e ∈ es → (depth e.2 <= fuel)%nat) as Hdep by (intros e He; apply depth_entry in He; lia). clear Hd.
    apply (separates_mono _ _ _ (concat (map (λ e, git_objects e.2) es)) (concat (map (λ e, git_objects e.2) es'))) in Hs; [|by intros ?; right..].
    revert es' Eh A' Hs. induction es as [|[n f] es IHe]; intros [|[n' g] es'] Eh A' Hs; [done|discriminate Eh|discriminate Eh|].
    injection Eh as -> Ee Eh. apply Forall_cons in A as [[_ Hf] A], A' as [[_ Hg] A']. cbn [map concat snd] in Hs.
    rewrite (IH f g); [|by apply (Hdep (n', f)); left|done|done|eapply separates_mono; [exact Hs|set_solver..]|done].
    rewrite (IHe A (λ e He, Hdep e ltac:(by right)) es'); [done|done|done|]. eapply separates_mono; [exact Hs|set_solver..].
  - injection E as Eh. apply (separates_inj _ _ _ _ _ Hs) in Eh; [|by left|by left]. apply git_blob_inj in Eh. cbn in Eh. by subst.
Qed.
End identify.

(** [C20] A Git hash identifies a file system tree. Let [hashString] return
    SHA-1 hashes of the right size and be different on the Git objects of two
    well-formed trees, as far as these differ. Then [dumpHash] of both succeeds,
    and they have the same entry (mode and hash) exactly if they are the same
    tree, with the same names, contents, link targets and executable bits at
    every level. *)
Theorem git_hash_identifies (xp : XpSettings) hashString fuel (f g : MemorySourceAccessor) :
  isEnabled xp GitHashing = true →
  (∀ s, hash_regular (hashString SHA1 s) ∧ algo (hashString SHA1 s) = SHA1) →
  file_wf f → file_wf g → (depth f <= fuel)%nat → (depth g <= fuel)%nat →
  separates (hashString SHA1) (git_objects xp hashString f) (git_objects xp hashString g) →
  ∃ e1 e2, dumpHash xp (λ _, true) f hashString fuel SHA1 cp_root = Ok e1 ∧
    dumpHash xp (λ _, true) g hashString fuel SHA1 cp_root = Ok e2 ∧ (e1 = e2 ↔ f = g).
Proof.
  intros Hx Hh Hf Hg Df Dg Hs. change cp_root with (render []).
  exists (git_entry xp hashString SHA1 f), (git_entry xp hashString SHA1 g).
  rewrite (dumpHash_ok xp hashString SHA1 Hx (λ _, true) f fuel [] f Df Hf (Forall_nil_2 _) eq_refl).
  rewrite (dumpHash_ok xp hashString SHA1 Hx (λ _, true) g fuel [] g Dg Hg (Forall_nil_2 _) eq_refl).
  rewrite !(prune_id fuel) by done. split; [done|]. split; [done|]. split; [|by intros ->].
  by apply git_entry_inj with fuel.
Qed.

(** ** Witnesses *)

Definition git_xp : XpSettings := [GitHashing].

Lemma sha1_of_regular x : length x = 20%nat → hash_regular (sha1_of x) ∧ algo (sha1_of x) = SHA1.
Proof.
  intros Hx. split; [|done]. split; [|done]. unfold sha1_of. rewrite Hx.
  split; [split|split; [cbn; unfold maxHashSize; lia|]]; cbn [hash hashSize].
  - by rewrite length_app, length_map, length_replicate, Hx.
  - apply Forall_app. split; [|apply Forall_replicate; lia]. apply Forall_map, Forall_forall. intros c _. apply byte_val_bound.
  - intros i Hi. unfold hbyte. rewrite app_nth2; [|rewrite length_map, Hx; exact Hi]. apply hbyte_zero.
Qed.

(** The first bytes of the text after the size. *)
Definition toy_hash (a : HashAlgorithm) (s : str) : Hash := sha1_of (take 20 (drop 7 s ++ replicate 20 NUL)).
Lemma toy_hash_ok s : hash_regular (toy_hash SHA1 s) ∧ algo (toy_hash SHA1 s) = SHA1.
Proof. apply sha1_of_regular. rewrite length_take, length_app, length_replicate. lia. Qed.

Definition git_example : GitTree := tree_of
  [("lib", {| te_mode := Mode_Directory; te_hash := toy_hash SHA1 "tree 0.abc" |});
   ("lib.c", {| te_mode := Mode_Regular; te_hash := toy_hash SHA1 "blob 3.int" |});
   ("run", {| te_mode := Mode_Executable; te_hash := toy_hash SHA1 "blob 3.foo" |})]%str.
Lemma git_example_ok : tree_ok git_example.
Proof.
  intros key e (n & -> & Hin)%tree_of_keys. exists n. split; [done|].
  repeat (apply elem_of_cons in Hin as [[= -> ->]|Hin]); [..|by apply elem_of_nil in Hin];
    (split; [apply (bool_decide_unpack _); vm_compute; exact I|]; split; [apply (bool_decide_unpack _); vm_compute; exact I|apply toy_hash_ok]).
Qed.
Definition git_example_object : str := match dumpTree git_xp git_example with Ok s => s | Throw _ => [] end.

Definition git_example_hook (p : CanonPath) (e : TreeEntry) (k : MemorySourceAccessor) : result MemorySourceAccessor :=
  match te_mode e with
  | Mode_Directory => createDirectory p k
  | Mode_Symlink => createSymlink p "x" k
  | Mode_Regular => createRegularFile p k
  | Mode_Executable => k ← createRegularFile p k; crf_isExecutable p k
  end.

Lemma git_tree_roundtrip_witness :
  ∃ s' : StringSource, denotes s' "rest" ∧
    git_parse git_xp 200 cp_root Blob_Regular git_example_hook MemorySourceAccessor_new
      (StringSource_new (git_example_object ++ "rest")) =
      Ok (Directory [("lib", Directory []); ("lib.c", Regular false []); ("run", Regular true [])]%str, s').
Proof.
  destruct (git_tree_roundtrip git_xp 200 cp_root Blob_Regular git_example_hook git_example git_example_object
    MemorySourceAccessor_new (StringSource_new (git_example_object ++ "rest")) "rest") as (s' & Hs & E).
  - reflexivity.
  - apply git_example_ok.
  - vm_compute. reflexivity.
  - vm_compute. reflexivity.
  - vm_compute. lia.
  - split; [cbn; lia|done].
  - exists s'. split; [exact Hs|]. rewrite E. vm_compute. reflexivity.
Defined.

Lemma git_blob_bounds_witness :
  ∃ s' : StringSource,
    git_parse git_xp 10 (render ["run"%str]) Blob_Executable git_example_hook MemorySourceAccessor_new
      (StringSource_new ("blob 3" ++ [NUL] ++ "fooB")) = Ok (Directory [("run", Regular true "foo")]%str, s') ∧ denotes s' "B".
Proof.
  refine (proj1 (git_blob_bounds git_xp 10 ["run"%str] (Regular true "foo") git_example_hook MemorySourceAccessor_new
    (StringSource_new ("blob 3" ++ [NUL] ++ "fooB")) ("blob 3" ++ [NUL])%str "B" _ _ _ _ _) _ _ _).
  - reflexivity.
  - discriminate.
  - reflexivity.
  - vm_compute. lia.
  - split; [cbn; lia|done].
  - reflexivity.
  - vm_compute. reflexivity.
Defined.

Lemma restore_refuses_executables_witness :
  ∃ ex, restore git_xp 200 5 (λ _, Ok (Regular true "foo" : MemorySourceAccessor, cp_root)) MemorySourceAccessor_new
    (StringSource_new git_example_object) = Throw ex.
Proof.
  apply (restore_refuses_executables git_xp 200 5 (λ _, Ok (Regular true "foo" : MemorySourceAccessor, cp_root)) git_example
    git_example_object "run" {| te_mode := Mode_Executable; te_hash := toy_hash SHA1 "blob 3.foo" |} MemorySourceAccessor_new
    (StringSource_new git_example_object) []).
  - reflexivity.
  - apply git_example_ok.
  - vm_compute. reflexivity.
  - vm_compute. reflexivity.
  - vm_compute. lia.
  - rewrite app_nil_r. split; [cbn; lia|done].
  - vm_compute. reflexivity.
  - reflexivity.
Defined.

(** The example and the same tree with another target of a link or file. *)
Definition git_other : File :=
  match nar_example with e :: es => Directory ((e.1, Symlink "elsewhere") :: es) | [] => Directory [] end.
Lemma git_other_wf : file_wf git_other.
Proof.
  pose proof nar_example_wf as H. inversion H as [| |? H1 H2]; subst. constructor; [exact H1|].
  apply Forall_cons in H2 as [[H2 _] H3]. apply Forall_cons. split; [split; [exact H2|constructor; unfold str_fits; cbn; lia]|exact H3].
Qed.
Lemma git_hash_identifies_witness :
  ∃ e1 e2, dumpHash git_xp (λ _, true) (Directory nar_example : MemorySourceAccessor) poly_hash 3 SHA1 cp_root = Ok e1 ∧
    dumpHash git_xp (λ _, true) (git_other : MemorySourceAccessor) poly_hash 3 SHA1 cp_root = Ok e2 ∧
    (e1 = e2 ↔ Directory nar_example = git_other).
Proof.
  apply (git_hash_identifies git_xp poly_hash 3 (Directory nar_example) git_other).
  - reflexivity.
  - intros s. apply poly_hash_ok.
  - apply nar_example_wf.
  - apply git_other_wf.
  - cbn. lia.
  - cbn. lia.
  - apply (bool_decide_unpack _). vm_compute. exact I.
Defined.
