(* ===== verification/Keys.v ===== *)
(** Keys and signatures: [libutil/signature/local-keys.cc],
    [libutil/signature/signer.cc] and [libstore/keys.cc].

    Keys and signatures are written [name:base64]. The signature scheme itself
    is libsodium's; its functions are the fields of [Sodium], and [SodiumOk] is
    what the library documents of them. *)

From S2P Require Import Prelude Strings Base64.

(** * The library *)

Definition crypto_sign_BYTES : nat := 64.
Definition crypto_sign_PUBLICKEYBYTES : nat := 32.
Definition crypto_sign_SECRETKEYBYTES : nat := 64.

Record Sodium := {
  crypto_sign_detached : str → str → str;               (* data, secret key *)
  crypto_sign_verify_detached : str → str → str → bool; (* signature, data, public key *)
  crypto_sign_ed25519_sk_to_pk : str → str;
  (** the secret keys [crypto_sign_keypair] makes *)
  keypair_secret : str → Prop;
}.

Class SodiumOk (na : Sodium) : Prop := {
  secret_length sk : keypair_secret na sk → length sk = crypto_sign_SECRETKEYBYTES;
  public_length sk : keypair_secret na sk → length (crypto_sign_ed25519_sk_to_pk na sk) = crypto_sign_PUBLICKEYBYTES;
  signature_length data sk : keypair_secret na sk → length (crypto_sign_detached na data sk) = crypto_sign_BYTES;
  signature_valid data sk : keypair_secret na sk →
    crypto_sign_verify_detached na (crypto_sign_detached na data sk) data (crypto_sign_ed25519_sk_to_pk na sk) = true;
}.

(** * Keys *)

(** [BorrowedCryptoValue::parse]: name and payload. *)
Definition BorrowedCryptoValue_parse (s : str) : str * str :=
  match find_idx (λ c, bool_decide (c = ":"%char)) s with
  | None | Some O => ([], [])
  | Some colon => (substr s 0 colon, drop (colon + 1) s)
  end.

Record Key := MkKey { key_name : str; key : str }.
#[export] Instance Key_eq_dec : EqDecision Key.
Proof. solve_decision. Defined.

Definition Key_new (s : str) : result Key :=
  let '(name, key) := BorrowedCryptoValue_parse s in
  if str_eqb name [] || str_eqb key [] then Throw (FormatError "key is corrupt")
  else key ← base64Decode key; Ok (MkKey name key).

Definition Key_to_string (k : Key) : str := key_name k ++ ":" ++ base64Encode (key k).

Definition SecretKey_new (s : str) : result Key :=
  k ← Key_new s;
  if (length (key k) =? crypto_sign_SECRETKEYBYTES)%nat then Ok k else Throw (Error "secret key is not valid").

Definition PublicKey_new (s : str) : result Key :=
  k ← Key_new s;
  if (length (key k) =? crypto_sign_PUBLICKEYBYTES)%nat then Ok k else Throw (Error "public key is not valid").

(** * Signatures *)

(** [PublicKeys]: public keys by name. *)
Abbreviation PublicKeys := (gmap str Key).

Section signatures.
Context (na : Sodium).

Definition Secret_signDetached (k : Key) (data : str) : str :=
  key_name k ++ ":" ++ base64Encode (crypto_sign_detached na data (key k)).

Definition toPublicKey (k : Key) : Key := MkKey (key_name k) (crypto_sign_ed25519_sk_to_pk na (key k)).

(** A signature that is not base-64 is only noted in the trace of the
    exception, and then refused for its length. *)
Definition verifyDetachedAnon (k : Key) (data sig : str) : result bool :=
  let sig2 := match base64Decode sig with Ok s => s | Throw _ => [] end in
  if negb (length sig2 =? crypto_sign_BYTES)%nat then Throw (Error "signature is not valid")
  else Ok (crypto_sign_verify_detached na sig2 data (key k)).

Definition PublicKey_verifyDetached (k : Key) (data sig : str) : result bool :=
  let '(name, payload) := BorrowedCryptoValue_parse sig in
  if negb (str_eqb name (key_name k)) then Ok false else verifyDetachedAnon k data payload.

Definition verifyDetached (data sig : str) (publicKeys : PublicKeys) : result bool :=
  let '(name, payload) := BorrowedCryptoValue_parse sig in
  match publicKeys !! name with
  | None => Ok false
  | Some k => verifyDetachedAnon k data payload
  end.

(** ** Signers *)

Record LocalSigner := { privateKey : Key; publicKey : Key }.
Definition LocalSigner_new (sk : Key) : LocalSigner := {| privateKey := sk; publicKey := toPublicKey sk |}.
End signatures.

(** The abstract class [Signer], with what its users rely on: the signature it
    makes is one that its public key, filed under its name, verifies. *)
Class Signer (S : Type) := {
  signDetached : S → str → str;
  getPublicKey : S → Key;
}.
Class SignerOk (na : Sodium) (S : Type) `{Signer S} (s : S) : Prop := {
  signer_verifies data publicKeys :
    publicKeys !! key_name (getPublicKey s) = Some (getPublicKey s) →
    verifyDetached na data (signDetached s data) publicKeys = Ok true
}.

#[export] Instance LocalSigner_signer (na : Sodium) : Signer LocalSigner := {|
  signDetached s data := Secret_signDetached na (privateKey s) data;
  getPublicKey s := publicKey s |}.

(** ** The keys trusted by default

    [emplace] keeps the first key of a name. The settings are the listed keys
    and the contents of the secret key files, [None] for a file that cannot be
    read. *)
Definition emplace_key (k : Key) (m : PublicKeys) : PublicKeys :=
  match m !! key_name k with Some _ => m | None => <[key_name k := k]> m end.

Definition getDefaultPublicKeys (na : Sodium) (trustedPublicKeys : list str) (secretKeyFiles : list (option str))
    : result PublicKeys :=
  m ← foldR (λ m s, k ← PublicKey_new s; Ok (emplace_key k m)) ∅ trustedPublicKeys;
  foldR (λ m f, match f with
                | None => Ok m
                | Some s => k ← SecretKey_new s; Ok (emplace_key (toPublicKey na k) m)
                end) m secretKeyFiles.

(** * Lemmas *)

Definition key_name_ok (n : str) : Prop := n ≠ [] ∧ ":"%char ∉ n.

Lemma BorrowedCryptoValue_parse_app n p :
  key_name_ok n → BorrowedCryptoValue_parse (n ++ ":" ++ p) = (n, p).
Proof.
  intros [Hne Hc]. unfold BorrowedCryptoValue_parse. change (":" ++ p)%str with (":"%char :: p).
  rewrite find_idx_app_stop; [|by apply find_idx_None, find_idx_char|by apply bool_decide_eq_true].
  destruct n as [|c n]; [done|]. cbn [length]. unfold substr. rewrite drop_0, take_app_length' by done. f_equal.
  rewrite Nat.add_1_r. by rewrite (drop_app_cons_length (c :: n)).
Qed.

Lemma base64Encode_nonempty s : s ≠ [] → base64Encode s ≠ [].
Proof.
  intros Hs E. destruct (base64_spec s) as (H & _ & _). rewrite E in H. by injection H as <-.
Qed.

Lemma Key_new_to_string k : key_name_ok (key_name k) → key k ≠ [] → Key_new (Key_to_string k) = Ok k.
Proof.
  intros Hn Hk. unfold Key_new, Key_to_string. rewrite BorrowedCryptoValue_parse_app by done.
  unfold str_eqb. rewrite !bool_decide_eq_false_2; [|by apply base64Encode_nonempty|by apply Hn].
  cbn [orb]. rewrite (proj1 (base64_spec _)). by destruct k.
Qed.

Section local.
Context (na : Sodium) `{!SodiumOk na}.

Lemma verifyDetached_signed name payload data keys k :
  key_name_ok name → keys !! name = Some k →
  verifyDetached na data (name ++ ":" ++ base64Encode payload) keys =
    if negb (length payload =? crypto_sign_BYTES)%nat then Throw (Error "signature is not valid")
    else Ok (crypto_sign_verify_detached na payload data (key k)).
Proof.
  intros Hn Hk. unfold verifyDetached. rewrite BorrowedCryptoValue_parse_app, Hk by done.
  unfold verifyDetachedAnon. by rewrite (proj1 (base64_spec payload)).
Qed.

Lemma LocalSigner_ok sk :
  key_name_ok (key_name sk) → keypair_secret na (key sk) →
  @SignerOk na LocalSigner (LocalSigner_signer na) (LocalSigner_new na sk).
Proof.
  intros Hn Hk. split. intros data keys Hl. cbn in Hl |- *. unfold Secret_signDetached. cbn [privateKey].
  rewrite (verifyDetached_signed _ _ _ _ _ Hn Hl), signature_length by done.
  change (negb _) with false. cbn [key toPublicKey]. by rewrite signature_valid.
Qed.
End local.

(** * Properties *)

(** Keys and signatures survive their text: a secret key and its public
    key are read back as they were written, and what the key signs is accepted
    by any set of public keys that has its public key under its name, and by
    none that lacks the name. *)
Theorem signature_roundtrip (na : Sodium) `{!SodiumOk na} (sk : Key) (data : str) (keys : PublicKeys) :
  key_name_ok (key_name sk) → keypair_secret na (key sk) →
  SecretKey_new (Key_to_string sk) = Ok sk ∧
  PublicKey_new (Key_to_string (toPublicKey na sk)) = Ok (toPublicKey na sk) ∧
  PublicKey_verifyDetached na (toPublicKey na sk) data (Secret_signDetached na sk data) = Ok true ∧
  (keys !! key_name sk = Some (toPublicKey na sk) → verifyDetached na data (Secret_signDetached na sk data) keys = Ok true) ∧
  (keys !! key_name sk = None → verifyDetached na data (Secret_signDetached na sk data) keys = Ok false).
Proof.
  intros Hn Hk. assert (∀ n s, length s = S n → s ≠ @nil ascii) as Hne by (by intros n []).
  pose proof (secret_length _ Hk) as Ls. pose proof (public_length _ Hk) as Lp.
  assert (SignerOk na LocalSigner (LocalSigner_new na sk)) as Hok by by apply LocalSigner_ok.
  split_and!.
  - unfold SecretKey_new. rewrite Key_new_to_string by eauto. cbn [mbind result_bind]. by rewrite Ls.
  - unfold PublicKey_new. rewrite Key_new_to_string by (cbn; eauto). cbn [mbind result_bind]. cbn [key toPublicKey]. by rewrite Lp.
  - pose proof (@signer_verifies na _ _ _ Hok data {[key_name sk := toPublicKey na sk]} ltac:(by apply lookup_singleton_eq)) as H.
    revert H. unfold verifyDetached, PublicKey_verifyDetached. cbn [signDetached LocalSigner_signer privateKey LocalSigner_new].
    unfold Secret_signDetached. rewrite BorrowedCryptoValue_parse_app by done. rewrite lookup_singleton_eq. cbn [key_name toPublicKey].
    unfold str_eqb. by rewrite bool_decide_eq_true_2.
  - intros Hl. by apply (@signer_verifies na _ _ _ Hok data keys).
  - intros Hl. unfold verifyDetached, Secret_signDetached. by rewrite BorrowedCryptoValue_parse_app, Hl.
Qed.

(** A scheme without security, with which the laws hold. *)
Definition plain_sig (data pk : str) : str := take crypto_sign_BYTES (pk ++ data ++ replicate crypto_sign_BYTES NUL).
Definition plain_sodium : Sodium := {|
  crypto_sign_detached data sk := plain_sig data (take crypto_sign_PUBLICKEYBYTES sk);
  crypto_sign_verify_detached sig data pk := bool_decide (sig = plain_sig data pk);
  crypto_sign_ed25519_sk_to_pk sk := take crypto_sign_PUBLICKEYBYTES sk;
  keypair_secret sk := length sk = crypto_sign_SECRETKEYBYTES |}.
#[export] Instance plain_sodium_ok : SodiumOk plain_sodium.
Proof.
  split; cbn [plain_sodium crypto_sign_detached crypto_sign_verify_detached crypto_sign_ed25519_sk_to_pk keypair_secret].
  - done.
  - intros sk Hl. by rewrite length_take, Hl.
  - intros data sk _. unfold plain_sig. rewrite length_take, !length_app, (length_replicate crypto_sign_BYTES). lia.
  - intros data sk _. by apply bool_decide_eq_true.
Qed.
Definition sample_key : Key := MkKey "cache-1" (replicate crypto_sign_SECRETKEYBYTES "k"%char).

Lemma signature_roundtrip_witness :
  SecretKey_new (Key_to_string sample_key) = Ok sample_key ∧
  verifyDetached plain_sodium "data" (Secret_signDetached plain_sodium sample_key "data")
    {["cache-1"%str := toPublicKey plain_sodium sample_key]} = Ok true.
Proof.
  destruct (signature_roundtrip plain_sodium sample_key "data" {["cache-1"%str := toPublicKey plain_sodium sample_key]})
    as (H1 & _ & _ & H2 & _).
  - split; [discriminate|]. apply (bool_decide_unpack _). vm_compute. exact I.
  - reflexivity.
  - split; [exact H1|]. apply H2. vm_compute. reflexivity.
Defined.
