(* ===== verification/StorePath.v ===== *)
(** Store paths: [libstore/path.cc], [libstore/include/bsd/store/path.hh] and
    the lexical path functions of [libutil/file-system.cc] they use. *)

From S2P Require Import Prelude Strings Xp Hash CanonPath FileSystem.

(** * Names *)

Definition HashLen : nat := 32.
Definition MaxPathLen : nat := Z.to_nat 211.
Definition drvExtension : str := ".drv".

Definition in_range (lo hi c : ascii) : bool := (byte_val lo <=? byte_val c) && (byte_val c <=? byte_val hi).

Definition name_char (c : ascii) : bool :=
  in_range "0" "9" c || in_range "a" "z" c || in_range "A" "Z" c ||
  bool_decide (c = "+"%char) || bool_decide (c = "-"%char) || bool_decide (c = "."%char) ||
  bool_decide (c = "_"%char) || bool_decide (c = "?"%char) || bool_decide (c = "="%char).

Definition is_char (c d : ascii) : bool := bool_decide (c = d).
Definition at_is (s : str) (i : nat) (c : ascii) : bool := bool_decide (s !! i = Some c).

Definition checkName (name : str) : result unit :=
  if bool_decide (name = []) then Throw (BadStorePathName "name must not be empty")
  else if (MaxPathLen <? length name)%nat then Throw (BadStorePathName "name is too long")
  else
    _ ← (if at_is name 0 "." then
           if (length name =? 1)%nat then Throw (BadStorePathName "name is not valid")
           else if at_is name 1 "-" then
             Throw (BadStorePathName "first dash-separated component must not be '.'")
           else if at_is name 1 "." then
             if (length name =? 2)%nat then Throw (BadStorePathName "name is not valid")
             else if at_is name 2 "-" then
               Throw (BadStorePathName "first dash-separated component must not be '..'")
             else Ok tt
           else Ok tt
         else Ok tt);
    if forallb name_char name then Ok tt
    else Throw (BadStorePathName "name contains illegal character").

Definition checkPathName (name : str) : result unit :=
  match checkName name with
  | Throw (BadStorePathName m) => Throw (BadStorePath m)
  | r => r
  end.

(** * The class *)

Record StorePath := MkStorePath { baseName : str }.
#[export] Instance StorePath_eq_dec : EqDecision StorePath.
Proof. solve_decision. Defined.
#[export] Instance StorePath_countable : Countable StorePath.
Proof. apply (inj_countable' baseName MkStorePath). by intros []. Defined.
#[export] Instance baseName_inj : Inj (=) (=) baseName.
Proof. by intros [] [] [= ->]. Qed.
#[export] Instance StorePath_order : KeyOrder StorePath := inj_key_order baseName.

(** [name] and [hashPart]. *)
Definition sp_name (p : StorePath) : str := drop (HashLen + 1) (baseName p).
Definition hashPart (p : StorePath) : str := take HashLen (baseName p).

Definition hash_char (c : ascii) : bool :=
  negb (is_char c "e" || is_char c "o" || is_char c "u" || is_char c "t" ||
        negb (in_range "0" "9" c || in_range "a" "z" c)).

Definition StorePath_new (base : str) : result StorePath :=
  let p := MkStorePath base in
  if (length base <? HashLen + 1)%nat then Throw (BadStorePath "too short to be a valid store path")
  else if negb (forallb hash_char (hashPart p)) then
    Throw (BadStorePath "store path contains illegal base-32 character")
  else _ ← checkPathName (sp_name p); Ok p.

Definition StorePath_hash (h : Hash) (name : str) : result StorePath :=
  d ← to_string h Bsd32 false;
  let p := MkStorePath (d ++ "-" ++ name) in
  if (length (baseName p) <? HashLen + 1)%nat then Throw (Error "basic_string_view::substr")
  else _ ← checkPathName (sp_name p); Ok p.

Definition isDerivation (p : StorePath) : bool := hasSuffix (sp_name p) drvExtension.

Definition requireDerivation (p : StorePath) : result unit :=
  if isDerivation p then Ok tt else Throw (FormatError "store path is not a valid derivation path").

(** * Lexical path functions *)

(** [canonPath(path, false)]. *)
Definition canonPath (path : str) : result str :=
  _ ← assertR (negb (str_eqb path ""));
  if isAbsolute path then canonPathInner path else Throw (Error "not an absolute path").

(** [std::filesystem::path::parent_path] of a path with a separator: drop the
    last component and the separators before it, keeping the root. *)
Fixpoint strip_slashes_rev (r : str) : str :=
  match r with c :: r' => if is_slash c then strip_slashes_rev r' else r | [] => [] end.
Definition parent_path (path : str) (pos : nat) : str :=
  match reverse (strip_slashes_rev (reverse (take pos path))) with
  | [] => [slash]
  | p => p
  end.

Definition fs_dirOf (path : str) : str :=
  match rfindPathSep path with
  | None => "."
  | Some pos => parent_path path pos
  end.

(** The index of the last character that is not a trailing separator. *)
Fixpoint last_nonsep (path : str) (last : nat) : nat :=
  match last with
  | O => O
  | S last' => if at_is path last slash then last_nonsep path last' else last
  end.

Definition baseNameOf (path : str) : str :=
  match path with
  | [] => []
  | _ =>
      let last := last_nonsep path (length path - 1) in
      let pos := match rfindPathSep (take (last + 1) path) with None => 0%nat | Some p => (p + 1)%nat end in
      substr path pos (last - pos + 1)
  end.

(** * [MixStoreDirMethods] *)

Section store_dir.
Context (storeDir : str).

Definition parseStorePath (path : str) : result StorePath :=
  p ← canonPath path;
  if str_eqb (fs_dirOf p) storeDir then StorePath_new (baseNameOf p)
  else Throw (BadStorePath "path is not in the Bsd store").

(** Catches [Error]; an assertion still aborts. *)
Definition maybeParseStorePath (path : str) : result (option StorePath) :=
  match parseStorePath path with
  | Ok p => Ok (Some p)
  | Throw AssertionFailure => Throw AssertionFailure
  | Throw UndefinedBehaviour => Throw UndefinedBehaviour
  | Throw NonTermination => Throw NonTermination
  | Throw _ => Ok None
  end.

Definition isStorePath (path : str) : result bool :=
  o ← maybeParseStorePath path; Ok (match o with Some _ => true | None => false end).

Definition parseStorePathSet (paths : list str) : result (gset StorePath) :=
  foldR (λ res i, p ← parseStorePath i; Ok ({[p]} ∪ res)) ∅ paths.

Definition printStorePath (p : StorePath) : str := storeDir ++ "/" ++ baseName p.

Definition printStorePathSet (paths : gset StorePath) : list str := map printStorePath (set_sorted paths).
End store_dir.

(** * Specification *)

(** [nameRegexStr]: not [.] or [..] up to the end or a dash, and allowed
    characters only. *)
Definition dash_head (name : str) : str :=
  match find_idx (λ c, is_char c "-") name with Some i => take i name | None => name end.
Definition nameRegex (name : str) : Prop :=
  name ≠ [] ∧ forallb name_char name = true ∧ dash_head name ≠ "." ∧ dash_head name ≠ "..".

(** What the constructor from a base name accepts. *)
Definition base_ok (base : str) : Prop :=
  (HashLen + 1 <= length base)%nat ∧ forallb hash_char (take HashLen base) = true ∧
  nameRegex (drop (HashLen + 1) base) ∧ (length (drop (HashLen + 1) base) <= MaxPathLen)%nat.

Definition sp_wf (p : StorePath) : Prop := base_ok (baseName p) ∧ no_slash (baseName p).
#[export] Instance sp_wf_dec p : Decision (sp_wf p).
Proof. unfold sp_wf, base_ok, nameRegex, no_slash. apply _. Defined.

(** A canonical store directory other than the root. *)
Definition store_dir_ok (storeDir : str) : Prop :=
  ∃ ds, ds ≠ [] ∧ Forall valid_comp ds ∧ storeDir = abs (render ds).

(** * Names: the checks implement the regular expression *)

Lemma dash_head_cons c n :
  dash_head (c :: n) = if is_char c "-" then [] else c :: dash_head n.
Proof.
  unfold dash_head. cbn [find_idx]. destruct (is_char c "-"); [done|].
  by destruct (find_idx _ n).
Qed.

Lemma dash_head_nil n : dash_head n = [] ↔ n = [] ∨ at_is n 0 "-" = true.
Proof.
  destruct n as [|c n]; [naive_solver|]. rewrite dash_head_cons. unfold at_is, is_char. cbn.
  repeat case_bool_decide; intuition congruence.
Qed.

Lemma dash_head_dot n rest :
  dash_head ("."%char :: n) = "."%char :: rest ↔ dash_head n = rest.
Proof. rewrite dash_head_cons. change (is_char "." "-") with false. naive_solver. Qed.

Lemma at_is_cons c n i d : at_is (c :: n) (S i) d = at_is n i d.
Proof. done. Qed.

Lemma checkName_spec name :
  match checkName name with
  | Ok _ => nameRegex name ∧ (length name <= MaxPathLen)%nat
  | Throw e => (∃ m, e = BadStorePathName m) ∧ ¬ (nameRegex name ∧ (length name <= MaxPathLen)%nat)
  end.
Proof.
  unfold checkName. destruct (decide (name = [])) as [->|Hne].
  { split; [by eexists|]. intros [[? _] _]. done. }
  rewrite bool_decide_false by done.
  destruct (Nat.ltb_spec MaxPathLen (length name)) as [Hl|Hl].
  { split; [by eexists|]. intros [_ ?]. lia. }
  assert (Hchars : (dash_head name ≠ "." ∧ dash_head name ≠ "..") →
    match (if forallb name_char name then Ok tt else Throw (BadStorePathName "name contains illegal character")) with
    | Ok _ => nameRegex name ∧ (length name <= MaxPathLen)%nat
    | Throw e => (∃ m, e = BadStorePathName m) ∧ ¬ (nameRegex name ∧ (length name <= MaxPathLen)%nat)
    end).
  { intros [Hd1 Hd2]. destruct (forallb name_char name) eqn:Ef; [by repeat split|].
    split; [by eexists|]. intros [(_ & ? & _) _]. congruence. }
  assert (Hbad : ∀ m, (dash_head name = "." ∨ dash_head name = "..") →
    (∃ m', BadStorePathName m = BadStorePathName m') ∧ ¬ (nameRegex name ∧ (length name <= MaxPathLen)%nat)).
  { intros m Hd. split; [by eexists|]. intros [(_ & _ & ? & ?) _]. tauto. }
  destruct name as [|c n]; [done|]. destruct (decide (c = "."%char)) as [->|Hc].
  2: { assert (at_is (c :: n) 0 "." = false) as -> by (unfold at_is; apply bool_decide_eq_false; cbn; naive_solver).
    apply Hchars. rewrite dash_head_cons. destruct (is_char c "-"); split; naive_solver. }
  change (at_is ("."%char :: n) 0 ".") with true. cbn iota. rewrite !at_is_cons.
  destruct n as [|c1 n]; [apply Hbad; by left|]. cbn [length Nat.eqb].
  destruct (at_is (c1 :: n) 0 "-") eqn:E1.
  { apply Hbad. left. apply dash_head_dot, dash_head_nil. auto. }
  destruct (decide (c1 = "."%char)) as [->|Hc1].
  2: { assert (at_is (c1 :: n) 0 "." = false) as -> by (unfold at_is; apply bool_decide_eq_false; cbn; naive_solver).
    apply Hchars. rewrite !dash_head_dot, dash_head_cons.
    destruct (is_char c1 "-") eqn:E; [|split; naive_solver].
    unfold is_char in E. apply bool_decide_eq_true in E as ->. done. }
  change (at_is ("."%char :: n) 0 ".") with true. cbn iota. rewrite !at_is_cons.
  destruct n as [|c2 n]; [apply Hbad; by right|]. cbn [length Nat.eqb].
  destruct (at_is (c2 :: n) 0 "-") eqn:E2.
  { apply Hbad. right. rewrite !dash_head_dot, dash_head_nil. auto. }
  apply Hchars. split; rewrite dash_head_dot; [by rewrite dash_head_cons|].
  rewrite dash_head_dot, dash_head_nil, E2. intros [?|?]; done.
Qed.

Lemma checkPathName_ok name :
  checkPathName name = Ok tt ↔ nameRegex name ∧ (length name <= MaxPathLen)%nat.
Proof.
  unfold checkPathName. pose proof (checkName_spec name) as H.
  destruct (checkName name) as [[]|e]; [done|]. destruct H as [[m ->] ?]. naive_solver.
Qed.

Lemma checkPathName_throw name e : checkPathName name = Throw e → ∃ m, e = BadStorePath m.
Proof.
  unfold checkPathName. pose proof (checkName_spec name) as H.
  destruct (checkName name) as [[]|e']; [done|]. destruct H as [[m ->] _]. naive_solver.
Qed.

(** The constructor accepts exactly the well-formed base names; the byte
    between hash and name is not looked at. *)
Lemma StorePath_new_spec base :
  match StorePath_new base with
  | Ok p => p = MkStorePath base ∧ base_ok base
  | Throw e => (∃ m, e = BadStorePath m) ∧ ¬ base_ok base
  end.
Proof.
  unfold StorePath_new, base_ok. cbv zeta. unfold hashPart, sp_name. cbn [baseName].
  destruct (Nat.ltb_spec (length base) (HashLen + 1)); [split; [by eexists|lia]|].
  destruct (forallb hash_char (take HashLen base)) eqn:Eh; cbn [negb].
  2: { split; [by eexists|]. intros (_ & ? & _). congruence. }
  destruct (checkPathName _) as [[]|e] eqn:En; cbn [mbind result_bind].
  - apply checkPathName_ok in En as [? ?]. auto.
  - split; [by eapply checkPathName_throw|]. intros (_ & _ & Hn & Hl).
    by rewrite (proj2 (checkPathName_ok _) (conj Hn Hl)) in En.
Qed.

Lemma StorePath_new_ok base : base_ok base → StorePath_new base = Ok (MkStorePath base).
Proof.
  intros Hb. pose proof (StorePath_new_spec base) as H. destruct (StorePath_new base); [|tauto].
  by destruct H as [-> _].
Qed.

Lemma StorePath_new_inv base p : StorePath_new base = Ok p → base_ok base ∧ p = MkStorePath base.
Proof. intros E. pose proof (StorePath_new_spec base) as H. rewrite E in H. tauto. Qed.

(** * Paths in the store directory *)

Lemma canonPath_render cs : Forall valid_comp cs → canonPath (abs (render cs)) = Ok (abs (render cs)).
Proof.
  intros Hv. unfold canonPath. destruct (abs_cons cs) as [r Hr].
  assert (isAbsolute (abs (render cs)) = true) as -> by (by rewrite Hr).
  rewrite (proj2 (str_eqb_false _ _)) by (by rewrite Hr). cbn [negb assertR mbind result_bind].
  pose proof (CanonPath_raw_spec (abs (render cs))) as Hc. rewrite normalize_render in Hc by done.
  unfold CanonPath_raw in Hc.
  rewrite canonPathInner_spec, normalize_render by (first [done | by rewrite Hr]). done.
Qed.

Lemma canonPath_normal path p :
  canonPath path = Ok p → ∃ cs, Forall valid_comp cs ∧ p = abs (render cs).
Proof.
  unfold canonPath. destruct (str_eqb path "") eqn:E; [done|]. cbn [negb assertR mbind result_bind].
  apply str_eqb_false in E. destruct (isAbsolute path); [|done].
  rewrite canonPathInner_spec by done. intros [= <-]. exists (normalize path).
  split; [apply normalize_valid|done].
Qed.

Lemma abs_snoc cs c : abs (render (cs ++ [c])) = body cs ++ slash :: c.
Proof. rewrite abs_render, <- body_snoc. by destruct cs. Qed.

Lemma strip_slashes_body cs :
  Forall plain_comp cs → reverse (strip_slashes_rev (reverse (body cs))) = body cs.
Proof.
  intros Hp. destruct cs as [|c cs _] using rev_ind; [done|]. apply Forall_app in Hp as [_ Hc].
  apply Forall_singleton in Hc as [Hne Hs]. rewrite body_snoc.
  destruct c as [|x c _] using rev_ind; [done|].
  rewrite forallb_app in Hs. apply andb_true_iff in Hs as [_ Hx]. cbn in Hx. rewrite andb_true_r in Hx.
  apply negb_true_iff in Hx. change (slash :: c ++ [x]) with ((slash :: c) ++ [x]).
  rewrite app_assoc, reverse_snoc. cbn [strip_slashes_rev]. rewrite Hx. by rewrite reverse_cons, reverse_involutive.
Qed.

Lemma fs_dirOf_snoc cs c :
  Forall plain_comp cs → plain_comp c → fs_dirOf (abs (render (cs ++ [c]))) = abs (render cs).
Proof.
  intros Hcs Hc. rewrite abs_snoc. unfold fs_dirOf. rewrite rfindPathSep_app by done.
  unfold parent_path. rewrite take_app_length, strip_slashes_body by done.
  rewrite abs_render. destruct cs as [|d cs]; [done|]. by rewrite body_join.
Qed.

Lemma baseNameOf_snoc cs c :
  plain_comp c → baseNameOf (abs (render (cs ++ [c]))) = c.
Proof.
  intros Hc. rewrite abs_snoc. unfold baseNameOf. destruct (body cs ++ slash :: c) as [|y l] eqn:E.
  { by destruct (body cs). }
  rewrite <- E. clear y l E. pose proof Hc as [Hne Hs]. cbv zeta.
  destruct c as [|x c _] using rev_ind; [done|].
  rewrite forallb_app in Hs. apply andb_true_iff in Hs as [_ Hx]. cbn in Hx. rewrite andb_true_r in Hx.
  assert (last_nonsep (body cs ++ slash :: c ++ [x]) (length (body cs ++ slash :: c ++ [x]) - 1)
    = (length (body cs) + 1 + length c)%nat) as ->.
  { rewrite length_app. cbn [length]. rewrite length_app. cbn [length].
    replace (length (body cs) + S (length c + 1) - 1)%nat with (S (length (body cs) + length c))%nat by lia.
    cbn [last_nonsep]. assert (at_is (body cs ++ slash :: c ++ [x]) (S (length (body cs) + length c)) slash = false) as ->; [|lia].
    unfold at_is. apply bool_decide_eq_false.
    rewrite lookup_app_r by lia. replace (S (length (body cs) + length c) - length (body cs))%nat with (S (length c)) by lia.
    change ((slash :: c ++ [x]) !! S (length c)) with ((c ++ [x]) !! length c).
    rewrite lookup_app_r, Nat.sub_diag by lia. cbn. intros [= ->]. done. }
  rewrite take_ge. 2: { rewrite !length_app. cbn [length]. rewrite length_app. cbn [length]. lia. }
  rewrite rfindPathSep_app by done. unfold substr.
  replace (body cs ++ slash :: c ++ [x]) with ((body cs ++ [slash]) ++ (c ++ [x])) by (by rewrite <- app_assoc).
  rewrite drop_app_length'; [|rewrite length_app; cbn; lia].
  apply take_ge. rewrite length_app. cbn [length]. lia.
Qed.

(** A well-formed base name is a path component. *)
Lemma sp_wf_comp p : sp_wf p → valid_comp (baseName p).
Proof.
  intros [(Hl & _) Hs]. destruct p as [b]. cbn in *. unfold HashLen in Hl.
  split; [split; [by intros ->; cbn in Hl; lia|done]|].
  split; intros ->; cbn in Hl; lia.
Qed.

Lemma printStorePath_render ds p :
  ds ≠ [] → printStorePath (abs (render ds)) p = abs (render (ds ++ [baseName p])).
Proof. intros Hd. unfold printStorePath. rewrite abs_snoc, abs_render. by destruct ds. Qed.

Lemma parse_print storeDir p :
  store_dir_ok storeDir → sp_wf p → parseStorePath storeDir (printStorePath storeDir p) = Ok p.
Proof.
  intros (ds & Hne & Hv & ->) Hp. pose proof (sp_wf_comp _ Hp) as Hc. unfold parseStorePath.
  rewrite printStorePath_render by done. pose proof (valid_plain _ Hv) as Hpl. pose proof Hc as [Hcp _].
  rewrite canonPath_render by (apply Forall_app; auto). cbn [mbind result_bind].
  rewrite fs_dirOf_snoc, str_eqb_refl, baseNameOf_snoc by done.
  destruct p as [b]. apply StorePath_new_ok. by destruct Hp.
Qed.

Lemma parse_sound storeDir path p :
  store_dir_ok storeDir → parseStorePath storeDir path = Ok p →
  sp_wf p ∧ canonPath path = Ok (printStorePath storeDir p).
Proof.
  intros (ds & Hne & Hv & ->). unfold parseStorePath.
  destruct (canonPath path) as [q|] eqn:Eq; cbn [mbind result_bind]; [|done].
  destruct (canonPath_normal _ _ Eq) as (cs & Hcs & ->).
  destruct (str_eqb _ _) eqn:Ed; [|done]. apply str_eqb_true in Ed.
  destruct cs as [|c cs _] using rev_ind.
  { exfalso. change (fs_dirOf (abs (render []))) with (abs (render [])) in Ed.
    assert (render [] = render ds) as Er by (by destruct ds; unfold render; f_equal).
    apply render_inj in Er; [by subst|constructor|by apply valid_plain]. }
  apply Forall_app in Hcs as [Hcs Hc]. rewrite Forall_singleton in Hc. pose proof Hc as [Hcp _].
  pose proof (valid_plain _ Hcs) as Hpl. pose proof (valid_plain _ Hv) as Hpd.
  rewrite fs_dirOf_snoc in Ed by done. rewrite baseNameOf_snoc by done. intros Hn.
  pose proof (StorePath_new_spec c) as Hsp. rewrite Hn in Hsp. destruct Hsp as [-> Hb].
  split; [split; [done|]; by destruct Hcp|]. rewrite printStorePath_render by done. cbn [baseName].
  assert (render cs = render ds) as Er by (unfold render in *; cbn in Ed; by f_equal).
  apply render_inj in Er; [|done|done]. by subst.
Qed.

(** The constructor of store paths does not look at the character between
    hash and name; printed paths are only unambiguous when it is a dash. *)
Definition sp_dashed (p : StorePath) : Prop := sp_wf p ∧ at_is (baseName p) HashLen "-" = true.

Lemma sp_dashed_chars p : sp_dashed p → forallb name_char (baseName p) = true.
Proof.
  intros [[(Hl & Hh & (_ & Hn & _) & _) _] Hd]. apply bool_decide_eq_true in Hd.
  rewrite <- (take_drop_middle _ _ _ Hd), forallb_app. cbn [forallb]. apply andb_true_iff. split.
  - rewrite forallb_forall in Hh |- *. intros c Hc. apply Hh in Hc. revert Hc. apply implb_true_iff. check_ascii c.
  - rewrite Nat.add_1_r in Hn. by rewrite Hn.
Qed.

(** * Properties *)

(** [checkName] decides exactly the documented language of names: it
    succeeds on a name if and only if the name matches [nameRegexStr] and is
    at most 211 characters long, and otherwise throws [BadStorePathName]. *)
Theorem checkName_regex name :
  (checkName name = Ok tt ↔ nameRegex name ∧ (length name <= MaxPathLen)%nat) ∧
  (checkName name = Ok tt ∨ ∃ m, checkName name = Throw (BadStorePathName m)).
Proof.
  pose proof (checkName_spec name) as H. destruct (checkName name) as [[]|e].
  - split; [tauto|by left].
  - destruct H as [[m ->] ?]. split; [|right; eauto]. split; [done|tauto].
Qed.



(** The constructor does not look at the character between the hash and
    the name: replacing the dash of a valid base name by any other character
    gives a base name that is accepted as well, with the same hash part and
    the same name. *)
Theorem separator_not_checked (h name : str) (c : ascii) :
  length h = HashLen → base_ok (h ++ "-"%char :: name) →
  StorePath_new (h ++ c :: name) = Ok (MkStorePath (h ++ c :: name)) ∧
  hashPart (MkStorePath (h ++ c :: name)) = h ∧ sp_name (MkStorePath (h ++ c :: name)) = name.
Proof.
  intros Hl Hb.
  assert (∀ d, take HashLen (h ++ d :: name) = h) as Ht by (intros d; by apply take_app_length').
  assert (∀ d, drop (HashLen + 1) (h ++ d :: name) = name) as Hd.
  { intros d. replace (h ++ d :: name) with ((h ++ [d]) ++ name) by (by rewrite <- app_assoc).
    apply drop_app_length'. by rewrite length_app, Hl. }
  split; [|split; [apply Ht|apply Hd]].
  apply StorePath_new_ok. unfold base_ok in *. rewrite Ht, Hd in *. rewrite length_app in *. exact Hb.
Qed.

Lemma separator_not_checked_witness :
  StorePath_new "ffffffffffffffffffffffffffffffff!x" = Ok (MkStorePath "ffffffffffffffffffffffffffffffff!x").
Proof.
  apply (separator_not_checked "ffffffffffffffffffffffffffffffff" "x" "!"); [done|].
  apply (StorePath_new_inv _ (MkStorePath "ffffffffffffffffffffffffffffffff-x")). by vm_compute.
Defined.
