(* ===== verification/ContentAddress.v ===== *)
(** Content addresses and the computation of store paths:
    [libstore/content-address.cc], [libutil/file-content-address.cc] (names of
    the methods) and the [makeStorePath] family of [libstore/store-api.cc].

    [hashString] is OpenSSL's digest and is a parameter; the theorems that
    need it assume that it returns a hash of the size of its algorithm. *)

From S2P Require Import Prelude Strings Xp Hash CanonPath FileSystem StorePath.

(** * Methods *)

Inductive FileSerialisationMethod := FSM_Flat | FSM_BsdArchive.
Inductive FileIngestionMethod := FIM_Flat | FIM_BsdArchive | FIM_Git.
#[export] Instance FileIngestionMethod_eq_dec : EqDecision FileIngestionMethod.
Proof. solve_decision. Defined.
Inductive ContentAddressMethod := CAM_Flat | CAM_BsdArchive | CAM_Git | CAM_Text.
#[export] Instance ContentAddressMethod_eq_dec : EqDecision ContentAddressMethod.
Proof. solve_decision. Defined.

Definition parseFileSerialisationMethodOpt (input : str) : option FileSerialisationMethod :=
  if str_eqb input "flat" then Some FSM_Flat
  else if str_eqb input "nar" then Some FSM_BsdArchive
  else None.

Definition parseFileSerialisationMethod (input : str) : result FileSerialisationMethod :=
  match parseFileSerialisationMethodOpt input with
  | Some m => Ok m
  | None => Throw (UsageError "Unknown file serialiation method")
  end.

(** [static_cast] between the two enumerations, whose first values agree. *)
Definition FIM_of_FSM (m : FileSerialisationMethod) : FileIngestionMethod :=
  match m with FSM_Flat => FIM_Flat | FSM_BsdArchive => FIM_BsdArchive end.

Definition parseFileIngestionMethod (input : str) : result FileIngestionMethod :=
  if str_eqb input "git" then Ok FIM_Git
  else match parseFileSerialisationMethodOpt input with
       | Some m => Ok (FIM_of_FSM m)
       | None => Throw (UsageError "Unknown file ingestion method")
       end.

Definition renderFileSerialisationMethod (m : FileSerialisationMethod) : str :=
  match m with FSM_Flat => "flat" | FSM_BsdArchive => "nar" end.

Definition renderFileIngestionMethod (m : FileIngestionMethod) : str :=
  match m with
  | FIM_Flat => renderFileSerialisationMethod FSM_Flat
  | FIM_BsdArchive => renderFileSerialisationMethod FSM_BsdArchive
  | FIM_Git => "git"
  end.

Definition getFileIngestionMethod (m : ContentAddressMethod) : FileIngestionMethod :=
  match m with
  | CAM_Flat => FIM_Flat | CAM_BsdArchive => FIM_BsdArchive | CAM_Git => FIM_Git | CAM_Text => FIM_Flat
  end.

Definition fileIngestionMethodToContentAddressMethod (m : FileIngestionMethod) : ContentAddressMethod :=
  match m with FIM_Flat => CAM_Flat | FIM_BsdArchive => CAM_BsdArchive | FIM_Git => CAM_Git end.

Definition CAM_render (m : ContentAddressMethod) : str :=
  match m with CAM_Text => "text" | _ => renderFileIngestionMethod (getFileIngestionMethod m) end.

Definition CAM_parse (m : str) : result ContentAddressMethod :=
  if str_eqb m "text" then Ok CAM_Text
  else fim ← parseFileIngestionMethod m; Ok (fileIngestionMethodToContentAddressMethod fim).

Section content_address.
Context (xp : XpSettings).

Definition makeFileIngestionPrefix (m : FileIngestionMethod) : result str :=
  match m with
  | FIM_Flat => Ok ""%str
  | FIM_BsdArchive => Ok "r:"%str
  | FIM_Git => _ ← require_feature xp GitHashing; Ok "git:"%str
  end.

Definition renderPrefix (m : ContentAddressMethod) : result str :=
  match m with CAM_Text => Ok "text:"%str | _ => makeFileIngestionPrefix (getFileIngestionMethod m) end.

(** [parsePrefix]: the method and the rest of the string. *)
Definition parsePrefix (m : str) : result (ContentAddressMethod * str) :=
  let '(b, m) := splitPrefix m "r:" in
  if b then Ok (CAM_BsdArchive, m)
  else
    let '(b, m) := splitPrefix m "git:" in
    if b then _ ← require_feature xp GitHashing; Ok (CAM_Git, m)
    else
      let '(b, m) := splitPrefix m "text:" in
      if b then Ok (CAM_Text, m) else Ok (CAM_Flat, m).

Definition renderPrefixModern (m : ContentAddressMethod) : result str :=
  match m with
  | CAM_Text => Ok "text:"%str
  | _ => p ← makeFileIngestionPrefix (getFileIngestionMethod m); Ok ("fixed:" ++ p)
  end.

Definition renderWithAlgo (m : ContentAddressMethod) (ha : HashAlgorithm) : result str :=
  p ← renderPrefixModern m; Ok (p ++ printHashAlgo ha).

(** * Content addresses *)

Record ContentAddress := { ca_method : ContentAddressMethod; ca_hash : Hash }.

Definition CA_render (ca : ContentAddress) : result str :=
  p ← renderPrefixModern (ca_method ca);
  h ← to_string (ca_hash ca) Bsd32 true;
  Ok (p ++ h).

(** The lambda [parseHashAlgorithm_]. *)
Definition parseHashAlgorithm_ (rest : str) : result (HashAlgorithm * str) :=
  match splitPrefixTo rest ":" with
  | (None, _) => Throw (UsageError "content address hash must be in form '<algo>:<hash>'")
  | (Some hashAlgoRaw, rest) => hashAlgo ← parseHashAlgo hashAlgoRaw; Ok (hashAlgo, rest)
  end.

Definition parseContentAddressMethodPrefix (rest : str)
    : result (ContentAddressMethod * HashAlgorithm * str) :=
  match splitPrefixTo rest ":" with
  | (None, _) => Throw (UsageError "not a content address because it is not in the form '<prefix>:<rest>'")
  | (Some prefix, rest) =>
      if str_eqb prefix "text" then
        '(a, rest) ← parseHashAlgorithm_ rest; Ok (CAM_Text, a, rest)
      else if str_eqb prefix "fixed" then
        '(method, rest) ← (
          let '(b, rest) := splitPrefix rest "r:" in
          if b then Ok (CAM_BsdArchive, rest)
          else
            let '(b, rest) := splitPrefix rest "git:" in
            if b then _ ← require_feature xp GitHashing; Ok (CAM_Git, rest)
            else Ok (CAM_Flat, rest));
        '(a, rest) ← parseHashAlgorithm_ rest;
        Ok (method, a, rest)
      else Throw (UsageError "content address prefix is unrecognized")
  end.

Definition CA_parse (rawCa : str) : result ContentAddress :=
  '(m, a, rest) ← parseContentAddressMethodPrefix rawCa;
  h ← parseNonSRIUnprefixed xp rest a;
  Ok {| ca_method := m; ca_hash := h |}.

Definition parseWithAlgo (caMethod : str) : result (ContentAddressMethod * HashAlgorithm) :=
  '(m, a, _) ← parseContentAddressMethodPrefix (caMethod ++ ":"); Ok (m, a).

Definition CA_parseOpt (rawCaOpt : str) : result (option ContentAddress) :=
  if str_eqb rawCaOpt "" then Ok None else ca ← CA_parse rawCaOpt; Ok (Some ca).

Definition renderContentAddress (ca : option ContentAddress) : result str :=
  match ca with Some ca => CA_render ca | None => Ok ""%str end.

Definition printMethodAlgo (ca : ContentAddress) : result str :=
  p ← renderPrefix (ca_method ca); Ok (p ++ printHashAlgo (algo (ca_hash ca))).

(** * References and full content addresses *)

Record StoreReferences := { others : gset StorePath; self : bool }.
Definition refs_empty (r : StoreReferences) : bool := negb (self r) && bool_decide (others r = ∅).
Definition refs_size (r : StoreReferences) : nat := ((if self r then 1 else 0) + size (others r))%nat.

Inductive ContentAddressWithReferences :=
  | TextInfo (h : Hash) (references : gset StorePath)
  | FixedOutputInfo (method : FileIngestionMethod) (h : Hash) (references : StoreReferences).

Definition no_refs : StoreReferences := {| others := ∅; self := false |}.

Definition withoutRefs (ca : ContentAddress) : ContentAddressWithReferences :=
  match ca_method ca with
  | CAM_Text => TextInfo (ca_hash ca) ∅
  | m => FixedOutputInfo (getFileIngestionMethod m) (ca_hash ca) no_refs
  end.

Definition fromParts (m : ContentAddressMethod) (h : Hash) (refs : StoreReferences)
    : result ContentAddressWithReferences :=
  match m with
  | CAM_Text =>
      if self refs then Throw (Error "self-reference not allowed with text hashing")
      else Ok (TextInfo h (others refs))
  | m => Ok (FixedOutputInfo (getFileIngestionMethod m) h refs)
  end.

Definition getMethod (ca : ContentAddressWithReferences) : ContentAddressMethod :=
  match ca with
  | TextInfo _ _ => CAM_Text
  | FixedOutputInfo m _ _ => fileIngestionMethodToContentAddressMethod m
  end.

Definition getHash (ca : ContentAddressWithReferences) : Hash :=
  match ca with TextInfo h _ | FixedOutputInfo _ h _ => h end.

(** * Store paths *)

Context (storeDir : str) (hashString : HashAlgorithm → str → Hash).

Definition makeStorePath_str (type hash name : str) : result StorePath :=
  let s := type ++ ":" ++ hash ++ ":" ++ storeDir ++ ":" ++ name in
  h ← compressHash xp (hashString SHA256 s) 20;
  StorePath_hash h name.

Definition makeStorePath (type : str) (hash : Hash) (name : str) : result StorePath :=
  h ← to_string hash Base16 true; makeStorePath_str type h name.

Definition outputPathName (drvName outputName : str) : str :=
  if str_eqb outputName "out" then drvName else drvName ++ "-" ++ outputName.

Definition makeOutputPath (id : str) (hash : Hash) (name : str) : result StorePath :=
  makeStorePath ("output:" ++ id) hash (outputPathName name id).

Definition makeType (type : str) (references : StoreReferences) : str :=
  let type := foldl (λ type i, type ++ ":" ++ printStorePath storeDir i) type (set_sorted (others references)) in
  if self references then type ++ ":self" else type.

Definition makeFixedOutputPath (name : str) (m : FileIngestionMethod) (h : Hash) (refs : StoreReferences)
    : result StorePath :=
  if bool_decide (m = FIM_Git) && negb (bool_decide (algo h = SHA1)) then
    Throw (Error "Git file ingestion must use SHA-1 hash")
  else if bool_decide (algo h = SHA256) && bool_decide (m = FIM_BsdArchive) then
    makeStorePath (makeType "source" refs) h name
  else if negb (refs_empty refs) then
    Throw (Error "fixed output derivation is not allowed to refer to other store paths")
  else
    p ← makeFileIngestionPrefix m;
    d ← to_string h Base16 true;
    let payload := "fixed:out:" ++ p ++ d ++ ":" in
    makeStorePath "output:out" (hashString SHA256 payload) name.

Definition makeFixedOutputPathFromCA (name : str) (ca : ContentAddressWithReferences) : result StorePath :=
  match ca with
  | TextInfo h references =>
      _ ← assertR (bool_decide (algo h = SHA256));
      makeStorePath (makeType "text" {| others := references; self := false |}) h name
  | FixedOutputInfo m h refs => makeFixedOutputPath name m h refs
  end.

(** [computeStorePath], given the hash of the path it ingests. *)
Definition computeStorePath (name : str) (method : ContentAddressMethod) (h : Hash) (references : gset StorePath)
    : result (StorePath * Hash) :=
  ca ← fromParts method h {| others := references; self := false |};
  p ← makeFixedOutputPathFromCA name ca;
  Ok (p, h).
End content_address.

(** * Methods and content addresses print and parse back *)

Lemma algo_prefix_plain a rest :
  splitPrefix (printHashAlgo a ++ rest) "r:" = (false, printHashAlgo a ++ rest) ∧
  splitPrefix (printHashAlgo a ++ rest) "git:" = (false, printHashAlgo a ++ rest) ∧
  splitPrefix (printHashAlgo a ++ rest) "text:" = (false, printHashAlgo a ++ rest).
Proof. by destruct a. Qed.

Lemma parseHashAlgorithm_ok a rest : parseHashAlgorithm_ (printHashAlgo a ++ ":"%char :: rest) = Ok (a, rest).
Proof.
  unfold parseHashAlgorithm_. rewrite splitPrefixTo_app by apply printHashAlgo_plain.
  by rewrite parse_print_algo.
Qed.

(** Present the text as prefix, colon and rest. *)
Ltac as_prefix t := match goal with |- context [splitPrefixTo ?s _] => change s with t end.

Lemma parse_method_prefix xp m a p rest :
  renderPrefixModern xp m = Ok p →
  parseContentAddressMethodPrefix xp (p ++ printHashAlgo a ++ ":"%char :: rest) = Ok (m, a, rest).
Proof.
  intros Hp. destruct (algo_prefix_plain a (":"%char :: rest)) as (P1 & P2 & _).
  unfold parseContentAddressMethodPrefix.
  destruct m; cbn [renderPrefixModern makeFileIngestionPrefix getFileIngestionMethod mbind result_bind] in Hp.
  - injection Hp as <-.
    as_prefix ("fixed" ++ ":"%char :: printHashAlgo a ++ ":"%char :: rest).
    rewrite splitPrefixTo_app by (apply (bool_decide_unpack _); vm_compute; exact I).
    change (str_eqb "fixed" "text") with false. change (str_eqb "fixed" "fixed") with true. cbn iota.
    rewrite P1, P2. cbn [mbind result_bind]. by rewrite parseHashAlgorithm_ok.
  - injection Hp as <-.
    as_prefix ("fixed" ++ ":"%char :: "r:" ++ printHashAlgo a ++ ":"%char :: rest).
    rewrite splitPrefixTo_app by (apply (bool_decide_unpack _); vm_compute; exact I).
    change (str_eqb "fixed" "text") with false. change (str_eqb "fixed" "fixed") with true. cbn iota.
    rewrite splitPrefix_app. cbn [mbind result_bind]. by rewrite parseHashAlgorithm_ok.
  - destruct (require_feature xp GitHashing) as [[]|] eqn:Ef; cbn [mbind result_bind] in Hp; [|done]. injection Hp as <-.
    as_prefix ("fixed" ++ ":"%char :: "git:" ++ printHashAlgo a ++ ":"%char :: rest).
    rewrite splitPrefixTo_app by (apply (bool_decide_unpack _); vm_compute; exact I).
    change (str_eqb "fixed" "text") with false. change (str_eqb "fixed" "fixed") with true. cbn iota.
    change (splitPrefix ("git:" ++ printHashAlgo a ++ ":"%char :: rest) "r:") with (false, "git:" ++ printHashAlgo a ++ ":"%char :: rest).
    cbn iota. rewrite splitPrefix_app. cbn [mbind result_bind]. by rewrite parseHashAlgorithm_ok.
  - injection Hp as <-. as_prefix ("text" ++ ":"%char :: printHashAlgo a ++ ":"%char :: rest).
    rewrite splitPrefixTo_app by (apply (bool_decide_unpack _); vm_compute; exact I).
    change (str_eqb "text" "text") with true. cbn iota. by rewrite parseHashAlgorithm_ok.
Qed.

Lemma parsePrefix_render xp m a p :
  renderPrefix xp m = Ok p → parsePrefix xp (p ++ printHashAlgo a) = Ok (m, printHashAlgo a).
Proof.
  unfold renderPrefix, parsePrefix.
  destruct m; cbn [makeFileIngestionPrefix getFileIngestionMethod]; intros Hp.
  - injection Hp as <-. by destruct a.
  - injection Hp as <-. by destruct a.
  - destruct (require_feature xp GitHashing) as [[]|] eqn:Ef; cbn [mbind result_bind] in Hp; [|done].
    injection Hp as <-. change (splitPrefix ("git:" ++ printHashAlgo a) "r:") with (false, "git:" ++ printHashAlgo a).
    cbn iota. rewrite splitPrefix_app. done.
  - injection Hp as <-. by destruct a.
Qed.

Lemma CA_parse_render xp (ca : ContentAddress) s :
  hash_regular (ca_hash ca) → algo_enabled xp (algo (ca_hash ca)) →
  CA_render xp ca = Ok s → CA_parse xp s = Ok ca ∧ CA_parseOpt xp s = Ok (Some ca).
Proof.
  intros Hr Ha. unfold CA_render.
  destruct (renderPrefixModern xp (ca_method ca)) as [p|] eqn:Ep; cbn [mbind result_bind]; [|done].
  destruct Hr as [Hwf Hsz]. rewrite to_string_body by done. cbn [mbind result_bind].
  change (bool_decide (Bsd32 = SRI)) with false. cbn [orb]. rewrite <- app_assoc. intros E.
  assert (s = p ++ printHashAlgo (algo (ca_hash ca)) ++ ":"%char :: format_body (ca_hash ca) Bsd32) as -> by (by injection E).
  assert (CA_parse xp (p ++ printHashAlgo (algo (ca_hash ca)) ++ ":"%char :: format_body (ca_hash ca) Bsd32) = Ok ca) as Hp.
  { unfold CA_parse. rewrite (parse_method_prefix xp (ca_method ca)) by done. cbn [mbind result_bind].
    unfold parseNonSRIUnprefixed. pose proof (Hash_parse_body xp (ca_hash ca) Bsd32) as Hb.
    change (bool_decide (Bsd32 = SRI)) with false in Hb. rewrite Hb by (done || by split).
    cbn [mbind result_bind]. by destruct ca. }
  split; [done|]. unfold CA_parseOpt. rewrite (proj2 (str_eqb_false _ _)); [by rewrite Hp|].
  intros E0. apply (f_equal length) in E0. rewrite !length_app in E0. cbn in E0. lia.
Qed.

(** Content addresses round trip. The names of the methods parse back;
    whenever a content address with a hash of the size of its (enabled)
    algorithm can be rendered, that is unless its method needs a disabled
    feature, parsing the text gives the same content address; and the same
    holds for the method with its algorithm, and for the prefix notation in
    front of an algorithm. *)
Theorem content_address_roundtrip xp (ca : ContentAddress) :
  hash_regular (ca_hash ca) → algo_enabled xp (algo (ca_hash ca)) →
  (∀ m, CAM_parse (CAM_render m) = Ok m) ∧
  (∀ s, CA_render xp ca = Ok s → CA_parse xp s = Ok ca ∧ CA_parseOpt xp s = Ok (Some ca)) ∧
  (∀ m a s, renderWithAlgo xp m a = Ok s → parseWithAlgo xp s = Ok (m, a)) ∧
  (∀ m a p, renderPrefix xp m = Ok p →
    parsePrefix xp (p ++ printHashAlgo a) = Ok (m, printHashAlgo a)).
Proof.
  intros Hr Ha. split_and!.
  - by intros [].
  - intros s Hs. by apply CA_parse_render.
  - intros m a s. unfold renderWithAlgo, parseWithAlgo.
    destruct (renderPrefixModern xp m) as [p|] eqn:Ep; cbn [mbind result_bind]; [|done]. intros [= <-].
    rewrite <- app_assoc. by rewrite (parse_method_prefix xp m a p []).
  - intros m a p. by apply parsePrefix_render.
Qed.

Lemma content_address_roundtrip_witness :
  ∃ s, CA_render [] {| ca_method := CAM_BsdArchive; ca_hash := sample_md5 |} = Ok s ∧
    CA_parse [] s = Ok {| ca_method := CAM_BsdArchive; ca_hash := sample_md5 |}.
Proof.
  eexists. split; [vm_compute; reflexivity|].
  apply (content_address_roundtrip [] {| ca_method := CAM_BsdArchive; ca_hash := sample_md5 |}
    sample_md5_regular); [done|vm_compute; reflexivity].
Defined.

(** * The store paths computed *)

Section make_store_path.
Context (xp : XpSettings) (storeDir : str) (hashString : HashAlgorithm → str → Hash).
Context (Hhash : ∀ a s, hash_regular (hashString a s) ∧ algo (hashString a s) = a).

(** The 160-bit digest in a store path, and the string it is the digest of. *)
Definition digest160 (s : str) : str :=
  match compressHash xp (hashString SHA256 s) 20 with Ok h => digits32 h | Throw _ => [] end.
Definition fingerprint (type hash name : str) : str := type ++ ":" ++ hash ++ ":" ++ storeDir ++ ":" ++ name.

Lemma compress_sha256 s :
  ∃ h, compressHash xp (hashString SHA256 s) 20 = Ok h ∧ hash_wf h ∧ hashSize h = 20%nat.
Proof.
  destruct (Hhash SHA256 s) as [[Hwf _] Ha].
  destruct (compressHash_ok xp (hashString SHA256 s) 20) as (h & ? & ? & ? & _);
    [done|unfold maxHashSize; lia|by rewrite Ha|eauto].
Qed.

Lemma digits32_chars h : forallb hash_char (digits32 h) = true.
Proof.
  apply forallb_forall. intros c Hc. unfold digits32 in Hc. apply in_map_iff in Hc as (n & <- & _).
  pose proof (digit32_bound (hashSize h) (hash h) n) as Hb. unfold chars_at.
  assert (Hall : forallb hash_char bsd32Chars = true) by (by vm_compute). rewrite forallb_forall in Hall.
  apply Hall, nth_In. change (length bsd32Chars) with 32%nat. lia.
Qed.

Lemma digest160_ok s : length (digest160 s) = HashLen ∧ forallb hash_char (digest160 s) = true.
Proof.
  unfold digest160. destruct (compress_sha256 s) as (h & -> & _ & Hs).
  rewrite length_digits32, Hs. split; [done|apply digits32_chars].
Qed.

Lemma makeStorePath_str_eq type hash name :
  makeStorePath_str xp storeDir hashString type hash name =
  (_ ← checkPathName name; Ok (MkStorePath (digest160 (fingerprint type hash name) ++ "-"%char :: name))).
Proof.
  unfold makeStorePath_str. cbv zeta. fold (fingerprint type hash name). unfold digest160.
  destruct (compress_sha256 (fingerprint type hash name)) as (h & -> & Hwf & Hs). cbn [mbind result_bind].
  unfold StorePath_hash. rewrite to_string_body by done. change (bool_decide (Bsd32 = SRI)) with false.
  cbn [orb mbind result_bind]. change ("" ++ format_body h Bsd32) with (digits32 h). cbv zeta.
  assert (Hl : length (digits32 h) = 32%nat) by (by rewrite length_digits32, Hs).
  cbn [baseName]. rewrite length_app, Hl. change (32 + length ("-" ++ name) <? HashLen + 1)%nat with false.
  unfold sp_name. cbn [baseName]. replace (drop (HashLen + 1) (digits32 h ++ "-" ++ name)) with name; [done|].
  change ("-" ++ name) with (["-"%char] ++ name). rewrite app_assoc, drop_app_length'; [done|].
  rewrite length_app, Hl. done.
Qed.

Lemma to_string16 h : hash_wf h → to_string h Base16 true = Ok (printHashAlgo (algo h) ++ ":"%char :: printHash16 h).
Proof.
  intros Hwf. rewrite to_string_body by done. change (bool_decide (Base16 = SRI)) with false.
  cbn [orb]. by rewrite <- app_assoc.
Qed.

Lemma makeStorePath_eq type h name :
  hash_wf h →
  makeStorePath xp storeDir hashString type h name =
  (_ ← checkPathName name;
   Ok (MkStorePath (digest160 (fingerprint type (printHashAlgo (algo h) ++ ":"%char :: printHash16 h) name)
                    ++ "-"%char :: name))).
Proof. intros Hwf. unfold makeStorePath. rewrite to_string16 by done. cbn [mbind result_bind]. apply makeStorePath_str_eq. Qed.

Lemma made_path_wf s name :
  checkPathName name = Ok tt → sp_wf (MkStorePath (digest160 s ++ "-"%char :: name)) ∧
  sp_name (MkStorePath (digest160 s ++ "-"%char :: name)) = name.
Proof.
  intros [Hn Hl]%checkPathName_ok. destruct (digest160_ok s) as [Hd Hc].
  assert (Ht : take HashLen (digest160 s ++ "-"%char :: name) = digest160 s) by (by apply take_app_length').
  assert (Hdr : drop (HashLen + 1) (digest160 s ++ "-"%char :: name) = name).
  { replace (digest160 s ++ "-"%char :: name) with ((digest160 s ++ ["-"%char]) ++ name) by (by rewrite <- app_assoc).
    apply drop_app_length'. by rewrite length_app, Hd. }
  split; [|exact Hdr]. split.
  - unfold base_ok. cbn [baseName]. rewrite Ht, Hdr, length_app, Hd. split_and!; [cbn; lia|done|done|done].
  - unfold no_slash. cbn [baseName]. rewrite forallb_app. apply andb_true_iff. split.
    + rewrite forallb_forall in Hc |- *. intros c Hin. apply Hc in Hin. revert Hin. apply implb_true_iff. check_ascii c.
    + cbn [forallb]. change (negb (is_slash "-")) with true. cbn [andb]. destruct Hn as (_ & Hn & _). rewrite forallb_forall in Hn |- *.
      intros c Hin. apply Hn in Hin. revert Hin. apply implb_true_iff. check_ascii c.
Qed.
End make_store_path.

(** * Distinct content addresses have distinct preimages *)

Definition no_colon (s : str) : Prop := forallb (λ c, negb (is_char c ":")) s = true.
Lemma no_colon_spec s : no_colon s ↔ ":"%char ∉ s.
Proof.
  unfold no_colon. rewrite forallb_forall. split.
  - intros H Hin. apply list_elem_of_In, H in Hin. done.
  - intros H c Hc. unfold is_char. rewrite bool_decide_false; [done|]. intros ->. apply H, list_elem_of_In, Hc.
Qed.

Lemma join_colon_inj l1 l2 :
  l1 ≠ [] → l2 ≠ [] → Forall no_colon l1 → Forall no_colon l2 → join ":" l1 = join ":" l2 → l1 = l2.
Proof.
  intros N1 N2 H1 H2 E.
  rewrite <- (split_on_join (λ c, is_char c ":") ":" l1), <- (split_on_join (λ c, is_char c ":") ":" l2) by done.
  by rewrite E.
Qed.

(** Every feature enabled: used to read a printed hash back. *)
Definition xp_all : XpSettings := [BLAKE3Hashes].

Lemma printed_hash_inj h1 h2 :
  hash_regular h1 → hash_regular h2 →
  printHashAlgo (algo h1) = printHashAlgo (algo h2) → printHash16 h1 = printHash16 h2 → h1 = h2.
Proof.
  intros R1 R2 Ea Eh. assert (algo h1 = algo h2) as Ha.
  { pose proof (parse_print_algo (algo h1)) as H. rewrite Ea, parse_print_algo in H. by injection H. }
  assert (∀ a, algo_enabled xp_all a) as Hx by (by intros a ->).
  pose proof (Hash_parse_body xp_all h1 Base16 R1 (Hx _)) as P1.
  pose proof (Hash_parse_body xp_all h2 Base16 R2 (Hx _)) as P2.
  cbn [format_body] in P1, P2. rewrite Eh, Ha, P2 in P1. by injection P1.
Qed.

Lemma digits32_inj h1 h2 : hash_regular h1 → hash_regular h2 → algo h1 = algo h2 → digits32 h1 = digits32 h2 → h1 = h2.
Proof.
  intros R1 R2 Ea Eh. assert (∀ a, algo_enabled xp_all a) as Hx by (by intros a ->).
  pose proof (Hash_parse_body xp_all h1 Bsd32 R1 (Hx _)) as P1.
  pose proof (Hash_parse_body xp_all h2 Bsd32 R2 (Hx _)) as P2.
  cbn [format_body] in P1, P2. rewrite Eh, Ea, P2 in P1. by injection P1.
Qed.

Lemma printHash16_no_colon h : no_colon (printHash16 h).
Proof.
  apply no_colon_spec. unfold printHash16. intros Hin. apply list_elem_of_In, in_concat in Hin as (l & Hl & Hin).
  apply in_map_iff in Hl as (i & <- & _). 
  assert (∀ z, chars_at base16Chars z ≠ ":"%char) as Hz.
  { intros z E. unfold chars_at in E.
    destruct (nth_in_or_default (Z.to_nat z) base16Chars NUL) as [Hi|Hd]; [|by rewrite Hd in E].
    rewrite E in Hi. assert (Hall : forallb (λ c, negb (is_char c ":")) base16Chars = true) by (by vm_compute).
    rewrite forallb_forall in Hall. apply Hall in Hi. done. }
  destruct Hin as [E|[E|[]]]; by apply Hz in E.
Qed.

Lemma printHashAlgo_no_colon a : no_colon (printHashAlgo a).
Proof. by destruct a. Qed.

Lemma app_inj_2' {A} (l1 l2 : list A) x1 y1 x2 y2 :
  l1 ++ [x1; y1] = l2 ++ [x2; y2] → l1 = l2 ∧ x1 = x2 ∧ y1 = y2.
Proof.
  intros E. replace (l1 ++ [x1; y1]) with ((l1 ++ [x1]) ++ [y1]) in E by (by rewrite <- app_assoc).
  replace (l2 ++ [x2; y2]) with ((l2 ++ [x2]) ++ [y2]) in E by (by rewrite <- app_assoc).
  apply app_inj_tail in E as [E ->]. by apply app_inj_tail in E as [-> ->].
Qed.

Section injective.
Context (xp : XpSettings) (storeDir : str) (hashString : HashAlgorithm → str → Hash).
Context (Hhash : ∀ a s, hash_regular (hashString a s) ∧ algo (hashString a s) = a).
Context (Hdir : no_colon storeDir).

Abbreviation print := (printStorePath storeDir).
Abbreviation sha256hex s := (printHash16 (hashString SHA256 s)).

(** The colon-separated items of a reference list and of a hash. *)
Definition ref_items (r : StoreReferences) : list str :=
  map (printStorePath storeDir) (set_sorted (others r)) ++ (if self r then ["self"%str] else []).
Definition hash_items (h : Hash) : list str := [printHashAlgo (algo h); printHash16 h].
Definition method_items (m : FileIngestionMethod) : list str :=
  match m with FIM_Flat => [] | FIM_BsdArchive => ["r"%str] | FIM_Git => ["git"%str] end.
Definition payload (m : FileIngestionMethod) (h : Hash) : str :=
  join ":" (["fixed"; "out"]%str ++ method_items m ++ hash_items h ++ [[]]).

Definition ca_items (ca : ContentAddressWithReferences) : list str :=
  match ca with
  | TextInfo h refs => "text"%str :: ref_items {| others := refs; self := false |} ++ hash_items h
  | FixedOutputInfo m h refs =>
      if bool_decide (algo h = SHA256) && bool_decide (m = FIM_BsdArchive)
      then "source"%str :: ref_items refs ++ hash_items h
      else ["output"; "out"; "sha256"; sha256hex (payload m h)]%str
  end.

Definition ca_ok (ca : ContentAddressWithReferences) : Prop :=
  hash_regular (getHash ca) ∧
  match ca with
  | TextInfo _ refs | FixedOutputInfo _ _ {| others := refs |} => ∀ p, p ∈ refs → no_colon (baseName p)
  end.

Lemma makeType_join t refs : makeType storeDir t refs = join ":" (t :: ref_items refs).
Proof.
  unfold makeType, ref_items. cbv zeta.
  assert (∀ l, foldl (λ type i, type ++ ":" ++ print i) t l = join ":" (t :: map print l)) as Hf.
  { intros l. induction l as [|x l IH] using rev_ind; [done|].
    rewrite foldl_app, IH, map_app. cbn [foldl map]. by rewrite app_comm_cons, join_snoc. }
  rewrite Hf. destruct (self refs); [|by rewrite app_nil_r].
  rewrite app_comm_cons, join_snoc by done. done.
Qed.

Lemma join_hash l h : l ≠ [] →
  join ":" l ++ ":" ++ printHashAlgo (algo h) ++ ":"%char :: printHash16 h = join ":" (l ++ hash_items h).
Proof.
  intros Hl. unfold hash_items.
  change [printHashAlgo (algo h); printHash16 h] with ([printHashAlgo (algo h)] ++ [printHash16 h]).
  rewrite (app_assoc l), join_snoc by (by destruct l).
  rewrite join_snoc by done. by rewrite <- !app_assoc.
Qed.

(** The path computed, and when it is computed at all. *)
Lemma ca_path_shape name ca p :
  ca_ok ca → makeFixedOutputPathFromCA xp storeDir hashString name ca = Ok p →
  checkPathName name = Ok tt ∧
  p = MkStorePath (digest160 xp hashString (join ":" (ca_items ca) ++ ":" ++ storeDir ++ ":" ++ name) ++ "-"%char :: name) ∧
  match ca with
  | FixedOutputInfo m h refs =>
      bool_decide (algo h = SHA256) && bool_decide (m = FIM_BsdArchive) = true ∨ refs_empty refs = true
  | _ => True
  end.
Proof.
  intros [Hreg _]. pose proof Hreg as [Hwf _].
  assert (∀ type h, hash_wf h → makeStorePath xp storeDir hashString type h name = Ok p →
    checkPathName name = Ok tt ∧
    p = MkStorePath (digest160 xp hashString ((type ++ ":" ++ printHashAlgo (algo h) ++ ":"%char :: printHash16 h)
          ++ ":" ++ storeDir ++ ":" ++ name) ++ "-"%char :: name)) as Hmake.
  { intros type h Hh. rewrite (makeStorePath_eq xp storeDir hashString Hhash) by done.
    destruct (checkPathName name) as [[]|]; cbn [mbind result_bind]; [|done]. intros [= <-]. split; [done|].
    unfold fingerprint. by rewrite <- !app_assoc. }
  destruct ca as [h refs|m h refs]; cbn [makeFixedOutputPathFromCA getHash] in *.
  - destruct (bool_decide (algo h = SHA256)); cbn [assertR mbind result_bind]; [|done]. intros E.
    apply Hmake in E as [? ->]; [|done]. rewrite makeType_join, join_hash by done. done.
  - unfold makeFixedOutputPath. destruct (bool_decide (m = FIM_Git) && _); [done|].
    cbn [ca_items]. destruct (bool_decide (algo h = SHA256) && bool_decide (m = FIM_BsdArchive)).
    { intros E. apply Hmake in E as [? ->]; [|done]. rewrite makeType_join, join_hash by done. auto. }
    destruct (refs_empty refs); cbn [negb]; [|done].
    destruct (makeFileIngestionPrefix xp m) as [pr|] eqn:Ep; cbn [mbind result_bind]; [|done].
    rewrite to_string16 by done. cbn [mbind result_bind]. cbv zeta. intros E.
    assert ("fixed:out:" ++ pr ++ (printHashAlgo (algo h) ++ ":"%char :: printHash16 h) ++ ":" = payload m h) as Epl.
    { unfold payload.
      replace (["fixed"; "out"]%str ++ method_items m ++ hash_items h ++ [[]])
        with (((["fixed"; "out"]%str ++ method_items m) ++ hash_items h) ++ [[]]) by (by rewrite <- !app_assoc).
      rewrite join_snoc by done. rewrite <- join_hash by done. rewrite app_nil_r, <- !app_assoc.
      destruct m; cbn [makeFileIngestionPrefix] in Ep.
      - by injection Ep as <-.
      - by injection Ep as <-.
      - destruct (require_feature xp GitHashing); [|done]. by injection Ep as <-. }
    rewrite Epl in E. destruct (Hhash SHA256 (payload m h)) as [[Hw _] Ha].
    apply Hmake in E as [? ->]; [|done]. rewrite Ha. split; [done|]. split; [|by right]. done.
Qed.

Lemma print_no_colon p : no_colon (baseName p) → no_colon (print p).
Proof.
  intros Hp. unfold no_colon, printStorePath in *. rewrite forallb_app. apply andb_true_iff. by split.
Qed.

Lemma ref_items_no_colon r : (∀ p, p ∈ others r → no_colon (baseName p)) → Forall no_colon (ref_items r).
Proof.
  intros Hr. unfold ref_items. apply Forall_app. split.
  - apply Forall_fmap, Forall_forall. intros p Hp. apply print_no_colon, Hr. by apply elem_of_set_sorted.
  - destruct (self r); [by apply Forall_singleton|constructor].
Qed.

Lemma hash_items_no_colon h : Forall no_colon (hash_items h).
Proof. repeat constructor; [apply printHashAlgo_no_colon|apply printHash16_no_colon]. Qed.

Lemma ca_items_no_colon ca : ca_ok ca → Forall no_colon (ca_items ca).
Proof.
  intros [_ Hr]. destruct ca as [h refs|m h [refs sf]]; cbn [ca_items].
  - constructor; [done|]. apply Forall_app. split; [by apply ref_items_no_colon|apply hash_items_no_colon].
  - case_match.
    + constructor; [done|]. apply Forall_app. split; [by apply ref_items_no_colon|apply hash_items_no_colon].
    + repeat constructor; try done. apply printHash16_no_colon.
Qed.

Lemma self_not_path p : print p ≠ "self"%str.
Proof.
  unfold printStorePath. intros E. assert (slash ∈ ("self"%str)) as Hin.
  { rewrite <- E. apply elem_of_app. right. by left. }
  revert Hin. apply (bool_decide_unpack _). by vm_compute.
Qed.

Lemma print_inj : Inj (=) (=) print.
Proof. intros [a] [b]. unfold printStorePath. cbn. intros E. apply app_inv_head in E. by injection E as ->. Qed.

Lemma ref_items_inj r1 r2 : ref_items r1 = ref_items r2 → r1 = r2.
Proof.
  destruct r1 as [o1 s1], r2 as [o2 s2]. unfold ref_items. cbn [others self].
  assert (∀ o o' : gset StorePath, map print (set_sorted o) = map print (set_sorted o') → o = o') as Ho.
  { intros o o' E. rewrite <- (list_to_set_sorted o), <- (list_to_set_sorted o'). f_equal.
    pose proof print_inj. by apply (inj (fmap print)). }
  assert (∀ o o' : gset StorePath, map print (set_sorted o) = map print (set_sorted o') ++ ["self"%str] → False) as Hs.
  { intros o o' E. assert (("self"%str) ∈ map print (set_sorted o)) as Hin by (rewrite E; set_solver).
    apply list_elem_of_fmap in Hin as (p & Hp & _). symmetry in Hp. by apply self_not_path in Hp. }
  destruct s1, s2; rewrite ?app_nil_r; intros E.
  - apply app_inj_tail in E as [E _]. f_equal. by apply Ho.
  - symmetry in E. by apply Hs in E.
  - by apply Hs in E.
  - f_equal. by apply Ho.
Qed.

Lemma hash_items_inj l1 l2 h1 h2 :
  hash_regular h1 → hash_regular h2 → l1 ++ hash_items h1 = l2 ++ hash_items h2 → l1 = l2 ∧ h1 = h2.
Proof.
  intros R1 R2 E. apply app_inj_2' in E as (-> & Ea & Eh). split; [done|]. by apply printed_hash_inj.
Qed.

Lemma payload_inj m1 m2 h1 h2 :
  hash_regular h1 → hash_regular h2 → payload m1 h1 = payload m2 h2 → m1 = m2 ∧ h1 = h2.
Proof.
  intros R1 R2 E. apply join_colon_inj in E; [|done|done| |].
  - apply app_inv_head in E. rewrite !app_assoc in E. apply app_inj_tail in E as [E _].
    apply hash_items_inj in E as [Em ->]; [|done|done]. split; [|done]. by destruct m1, m2.
  - apply Forall_app; split; [by repeat constructor|]. apply Forall_app; split; [by destruct m1; repeat constructor|].
    apply Forall_app; split; [apply hash_items_no_colon|by repeat constructor].
  - apply Forall_app; split; [by repeat constructor|]. apply Forall_app; split; [by destruct m2; repeat constructor|].
    apply Forall_app; split; [apply hash_items_no_colon|by repeat constructor].
Qed.

Lemma refs_empty_eq r1 r2 : refs_empty r1 = true → refs_empty r2 = true → r1 = r2.
Proof.
  destruct r1 as [o1 []], r2 as [o2 []]; try done. unfold refs_empty. cbn.
  intros H1%bool_decide_eq_true H2%bool_decide_eq_true. by subst.
Qed.

(** The strings whose SHA-256 digest is a part of the text hashed into the path. *)
Definition hashed_payloads (ca : ContentAddressWithReferences) : list str :=
  match ca with
  | TextInfo _ _ => []
  | FixedOutputInfo m h _ => if bool_decide (algo h = SHA256) && bool_decide (m = FIM_BsdArchive) then [] else [payload m h]
  end.
(** The text hashed into the path. *)
Definition hashed_text (name : str) (ca : ContentAddressWithReferences) : str :=
  join ":" (ca_items ca) ++ ":" ++ storeDir ++ ":" ++ name.

Lemma ca_items_inj ca1 ca2 n1 n2 p1 p2 :
  ca_ok ca1 → ca_ok ca2 →
  makeFixedOutputPathFromCA xp storeDir hashString n1 ca1 = Ok p1 →
  makeFixedOutputPathFromCA xp storeDir hashString n2 ca2 = Ok p2 →
  separates (λ s, sha256hex s) (hashed_payloads ca1) (hashed_payloads ca2) →
  ca_items ca1 = ca_items ca2 → ca1 = ca2.
Proof.
  intros O1 O2 (_ & _ & S1)%ca_path_shape (_ & _ & S2)%ca_path_shape Hsep; [|done..].
  pose proof (proj1 O1) as R1. pose proof (proj1 O2) as R2.
  destruct ca1 as [h1 r1|m1 h1 r1], ca2 as [h2 r2|m2 h2 r2]; cbn [ca_items hashed_payloads getHash] in *.
  - intros E. injection E as E. apply hash_items_inj in E as [E ->]; [|done|done].
    apply ref_items_inj in E. by injection E as ->.
  - case_match; intros E; discriminate E.
  - case_match; intros E; discriminate E.
  - destruct (bool_decide (algo h1 = SHA256) && _) eqn:B1, (bool_decide (algo h2 = SHA256) && _) eqn:B2; intros E;
      try discriminate E.
    + injection E as E. apply hash_items_inj in E as [E ->]; [|done|done]. apply ref_items_inj in E as ->.
      apply andb_true_iff in B1 as [_ ->%bool_decide_eq_true]. apply andb_true_iff in B2 as [_ ->%bool_decide_eq_true]. done.
    + injection E as E. apply (separates_inj _ _ _ _ _ Hsep) in E; [|by left|by left].
      apply payload_inj in E as [-> ->]; [|done|done]. f_equal.
      destruct S1 as [?|S1], S2 as [?|S2]; try congruence. by apply refs_empty_eq.
Qed.
End injective.

(** [C2] Store paths of content-addressed objects identify their content. Let
    the hash function return digests of the size of its algorithm and be
    different on the strings that are hashed for the two objects: the text of
    either path, and the fixed-output descriptions that are hashed into it. Then
    two objects that have store paths have the same one exactly if they agree in
    name, method, hash, and references, including the reference to themselves.
    The strings are spelled out from the name and the content address. *)
Theorem store_path_identifies_content xp storeDir hashString n1 n2 ca1 ca2 p1 p2 :
  (∀ a s, hash_regular (hashString a s) ∧ algo (hashString a s) = a) → no_colon storeDir →
  ca_ok ca1 → ca_ok ca2 →
  separates (λ s, printHash16 (hashString SHA256 s)) (hashed_payloads ca1) (hashed_payloads ca2) →
  separates (digest160 xp hashString) [hashed_text storeDir hashString n1 ca1] [hashed_text storeDir hashString n2 ca2] →
  makeFixedOutputPathFromCA xp storeDir hashString n1 ca1 = Ok p1 →
  makeFixedOutputPathFromCA xp storeDir hashString n2 ca2 = Ok p2 →
  p1 = p2 ↔ n1 = n2 ∧ ca1 = ca2.
Proof.
  intros Hh Hd O1 O2 Sp St E1 E2. split; [|intros [-> ->]; rewrite E1 in E2; by injection E2].
  intros <-. destruct (ca_path_shape xp storeDir hashString Hh n1 ca1 p1 O1 E1) as (_ & P1 & _).
  destruct (ca_path_shape xp storeDir hashString Hh n2 ca2 p1 O2 E2) as (_ & P2 & _).
  rewrite P1 in P2. injection P2 as P2.
  apply app_inj_1 in P2 as [Ed En]; [|by rewrite !(proj1 (digest160_ok xp hashString Hh _))].
  injection En as ->. split; [done|]. apply (separates_inj _ _ _ _ _ St) in Ed; [|by left|by left].
  apply app_inv_tail, join_colon_inj in Ed; [| | |by apply ca_items_no_colon|by apply ca_items_no_colon].
  - by apply (ca_items_inj xp storeDir hashString Hh Hd ca1 ca2 n2 n2 p1 p1).
  - destruct ca1; cbn; [done|by case_match].
  - destruct ca2; cbn; [done|by case_match].
Qed.

(** A hash function that satisfies the assumption: every digest is zero. *)
Definition zero_hash (a : HashAlgorithm) (s : str) : Hash :=
  MkHash (regularHashSize a) (replicate maxHashSize 0) a.
Lemma zero_hash_ok a s : hash_regular (zero_hash a s) ∧ algo (zero_hash a s) = a.
Proof.
  split; [|done]. split; [|done]. split; [apply bytes_ok_zero|]. split.
  - destruct a; cbn; unfold maxHashSize; lia.
  - intros i _. apply hbyte_zero.
Qed.
Definition zero_ca : ContentAddressWithReferences := TextInfo (zero_hash SHA256 []) ∅.
Lemma zero_ca_ok : ca_ok zero_ca.
Proof. split; [apply zero_hash_ok|]. intros p Hp. by apply not_elem_of_empty in Hp. Qed.

(** A file that refers to another one and the same file without the reference. *)
Definition sample_ca (refs : gset StorePath) : ContentAddressWithReferences := TextInfo (poly_hash SHA256 "text") refs.
Definition sample_ref : StorePath := MkStorePath "00000000000000000000000000000000-dep".
Lemma sample_ca_ok (b : bool) : ca_ok (sample_ca (if b then {[sample_ref]} else ∅)).
Proof.
  split; [apply poly_hash_ok|]. destruct b; intros p Hp; [|by apply not_elem_of_empty in Hp].
  apply elem_of_singleton in Hp as ->. by vm_compute.
Qed.

Lemma store_path_identifies_content_witness : ∃ p1 p2,
  makeFixedOutputPathFromCA [] "/bsd/store" poly_hash "x" (sample_ca {[sample_ref]}) = Ok p1 ∧
  makeFixedOutputPathFromCA [] "/bsd/store" poly_hash "x" (sample_ca ∅) = Ok p2 ∧
  (p1 = p2 ↔ ("x"%str : str) = "x"%str ∧ sample_ca {[sample_ref]} = sample_ca ∅).
Proof.
  eexists _, _. split; [vm_compute; reflexivity|]. split; [vm_compute; reflexivity|].
  eapply (store_path_identifies_content [] "/bsd/store" poly_hash "x" "x" (sample_ca {[sample_ref]}) (sample_ca ∅)).
  - apply poly_hash_ok.
  - by vm_compute.
  - apply (sample_ca_ok true).
  - apply (sample_ca_ok false).
  - apply (bool_decide_unpack _). vm_compute. exact I.
  - apply (bool_decide_unpack _). vm_compute. exact I.
  - vm_compute. reflexivity.
  - vm_compute. reflexivity.
Defined.

(** The reasons for which there is no path. *)
Definition path_refused (xp : XpSettings) (name : str) (ca : ContentAddressWithReferences) : Prop :=
  checkPathName name ≠ Ok tt ∨
  match ca with
  | TextInfo h _ => algo h ≠ SHA256
  | FixedOutputInfo m h refs =>
      (m = FIM_Git ∧ (algo h ≠ SHA1 ∨ isEnabled xp GitHashing = false)) ∨
      (refs_empty refs = false ∧ ¬ (algo h = SHA256 ∧ m = FIM_BsdArchive))
  end.

Lemma path_computed xp storeDir hashString name ca p :
  (∀ a s, hash_regular (hashString a s) ∧ algo (hashString a s) = a) → ca_ok ca →
  makeFixedOutputPathFromCA xp storeDir hashString name ca = Ok p → ¬ path_refused xp name ca.
Proof.
  intros Hh Hca E. destruct (ca_path_shape xp storeDir hashString Hh name ca p Hca E) as (Hn & _ & Hs). intros [Hr|Hr]; [done|].
  destruct ca as [h refs|m h refs]; cbn [makeFixedOutputPathFromCA] in E.
  - by rewrite bool_decide_eq_false_2 in E.
  - unfold makeFixedOutputPath in E. destruct Hr as [(-> & Hr)|(Hr & Hnot)].
    + destruct Hr as [Hr|Hr]; [by rewrite (bool_decide_eq_false_2 _ Hr) in E|].
      rewrite andb_false_r in E. cbn [makeFileIngestionPrefix] in E. unfold require_feature in E. rewrite Hr in E.
      destruct (_ && negb _); [done|]. by destruct (negb (refs_empty refs)).
    + destruct Hs as [[Ha%bool_decide_eq_true Hm%bool_decide_eq_true]%andb_true_iff|Hs]; [by destruct Hnot|congruence].
Qed.
Lemma path_not_computed xp storeDir hashString name ca e :
  (∀ a s, hash_regular (hashString a s) ∧ algo (hashString a s) = a) → ca_ok ca →
  makeFixedOutputPathFromCA xp storeDir hashString name ca = Throw e → path_refused xp name ca.
Proof.
  intros Hh Hca E. destruct (checkPathName name) as [[]|] eqn:En; [right|left; by rewrite En]. destruct Hca as [Hr _].
  assert (∀ type h, hash_wf h → makeStorePath xp storeDir hashString type h name ≠ Throw e) as Hmake.
  { intros type h Hw. rewrite (makeStorePath_eq xp storeDir hashString Hh) by done. by rewrite En. }
  destruct ca as [h refs|m h refs]; cbn [makeFixedOutputPathFromCA getHash] in *; destruct Hr as [Hw _].
  - destruct (decide (algo h = SHA256)) as [Ha|]; [|done]. rewrite bool_decide_true in E by done.
    cbn [assertR mbind result_bind] in E. by apply Hmake in E.
  - unfold makeFixedOutputPath in E.
    destruct (bool_decide (m = FIM_Git) && negb (bool_decide (algo h = SHA1))) eqn:B1.
    { apply andb_true_iff in B1 as [Hm%bool_decide_eq_true Ha%negb_true_iff]. apply bool_decide_eq_false in Ha. auto. }
    destruct (bool_decide (algo h = SHA256) && bool_decide (m = FIM_BsdArchive)) eqn:B2; [by apply Hmake in E|].
    destruct (refs_empty refs) eqn:Er; cbn [negb] in E.
    2: { right. split; [done|]. intros [Ha Hm]. by rewrite !bool_decide_true in B2 by done. }
    destruct (makeFileIngestionPrefix xp m) as [pr|] eqn:Ep; cbn [mbind result_bind] in E.
    { rewrite to_string16 in E by done. cbn [mbind result_bind] in E.
      apply Hmake in E; [done|]. by destruct (Hh SHA256 ("fixed:out:" ++ pr ++ (printHashAlgo (algo h) ++ ":"%char :: printHash16 h) ++ ":")) as [[? _] _]. }
    left. destruct m; cbn in Ep; try done. split; [done|]. right.
    unfold require_feature in Ep. by destruct (isEnabled xp GitHashing).
Qed.

(** [C31] A store path for a content address is computed exactly if nothing
    speaks against it: the name is valid, a text hash is SHA-256 (which is
    asserted), a Git hash is SHA-1 and the Git feature on, and an object other
    than a SHA-256 archive has no references. The path is a valid one: its name
    part is the name asked for, its hash part consists of 32 base-32 digits, and
    it is printed and parsed back by the store. *)
Theorem computed_store_path_valid xp storeDir hashString name ca :
  (∀ a s, hash_regular (hashString a s) ∧ algo (hashString a s) = a) → store_dir_ok storeDir → ca_ok ca →
  match makeFixedOutputPathFromCA xp storeDir hashString name ca with
  | Ok p => ¬ path_refused xp name ca ∧
      sp_wf p ∧ sp_name p = name ∧ forallb hash_char (hashPart p) = true ∧ length (hashPart p) = HashLen ∧
      parseStorePath storeDir (printStorePath storeDir p) = Ok p
  | Throw _ => path_refused xp name ca
  end.
Proof.
  intros Hh Hd Hca. destruct (makeFixedOutputPathFromCA _ _ _ _ _) as [p|e] eqn:E; [|by eapply path_not_computed].
  split; [by eapply path_computed|]. destruct (ca_path_shape xp storeDir hashString Hh name ca p Hca E) as (Hn & -> & _).
  match goal with |- context [digest160 xp hashString ?s] =>
    destruct (made_path_wf xp hashString Hh s name Hn) as [Hwf Hname];
    destruct (digest160_ok xp hashString Hh s) as [Hl Hc];
    assert (hashPart (MkStorePath (digest160 xp hashString s ++ "-"%char :: name)) = digest160 xp hashString s) as ->
      by (by apply take_app_length')
  end.
  split_and!; [exact Hwf|exact Hname|exact Hc|exact Hl|by apply parse_print].
Qed.

Lemma computed_store_path_valid_witness :
  makeFixedOutputPathFromCA [] "/bsd/store" zero_hash "hello" zero_ca
    = Ok (MkStorePath "00000000000000000000000000000000-hello") ∧
  sp_wf (MkStorePath "00000000000000000000000000000000-hello").
Proof.
  pose proof (computed_store_path_valid [] "/bsd/store" zero_hash "hello" zero_ca zero_hash_ok) as H.
  assert (makeFixedOutputPathFromCA [] "/bsd/store" zero_hash "hello" zero_ca
    = Ok (MkStorePath "00000000000000000000000000000000-hello")) as E by (vm_compute; reflexivity).
  rewrite E in H. split; [done|]. apply H; [|apply zero_ca_ok].
  exists ["bsd"; "store"]%str. split; [done|]. split; [|done]. apply (bool_decide_unpack _). vm_compute. exact I.
Defined.
