(* ===== verification/PathInfo.v ===== *)
(** What a store knows of an object: [libstore/path-info.cc] and
    [libstore/include/bsd/store/path-info.hh].

    [ValidPathInfo] records the hash, size, references, signatures and content
    address of a store object. A signature covers its fingerprint; a
    content-addressed object needs none. The JSON forms are not modelled. *)

From S2P Require Import Prelude Strings Base64 Xp Hash CanonPath Keys StorePath ContentAddress.

(** * Data *)

Record UnkeyedValidPathInfo := {
  deriver : option StorePath;
  narHash : Hash;
  references : gset StorePath;
  registrationTime : Z;
  narSize : Z;
  id : Z;
  ultimate : bool;
  sigs : gset str;
  ca : option ContentAddress;
}.

(** The constructor from a hash: every other field has its default. *)
Definition UnkeyedValidPathInfo_new (narHash : Hash) : UnkeyedValidPathInfo :=
  {| deriver := None; narHash := narHash; references := ∅; registrationTime := 0; narSize := 0; id := 0;
     ultimate := false; sigs := ∅; ca := None |}.

Record ValidPathInfo := { info : UnkeyedValidPathInfo; path : StorePath }.

Definition maxSigs : Z := 2 ^ 64 - 1.

(** * Operations *)

Section path_info.
Context (xp : XpSettings) (storeDir : str) (hashString : HashAlgorithm → str → Hash) (na : Sodium).

Definition ValidPathInfo_fingerprint (i : ValidPathInfo) : result str :=
  if narSize (info i) =? 0 then
    Throw (Error "cannot calculate fingerprint of path because its size is not known")
  else
    h ← to_string (narHash (info i)) Bsd32 true;
    Ok ("1;" ++ printStorePath storeDir (path i) ++ ";" ++ h ++ ";" ++ std_to_string (narSize (info i)) ++ ";"
        ++ concatStringsSep "," (printStorePathSet storeDir (references (info i)))).

Definition add_sig (sig : str) (i : ValidPathInfo) : ValidPathInfo :=
  let u := info i in
  {| info := {| deriver := deriver u; narHash := narHash u; references := references u;
                registrationTime := registrationTime u; narSize := narSize u; id := id u; ultimate := ultimate u;
                sigs := {[sig]} ∪ sigs u; ca := ca u |};
     path := path i |}.

Definition sign {S} `{Signer S} (signer : S) (i : ValidPathInfo) : result ValidPathInfo :=
  f ← ValidPathInfo_fingerprint i; Ok (add_sig (signDetached signer f) i).

Definition sign_all {S} `{Signer S} (signers : list S) (i : ValidPathInfo) : result ValidPathInfo :=
  f ← ValidPathInfo_fingerprint i; Ok (foldl (λ i s, add_sig (signDetached s f) i) i signers).

Definition contentAddressWithReferences (i : ValidPathInfo) : result (option ContentAddressWithReferences) :=
  match ca (info i) with
  | None => Ok None
  | Some c =>
      match ca_method c with
      | CAM_Text =>
          _ ← assertR (negb (bool_decide (path i ∈ references (info i))));
          Ok (Some (TextInfo (ca_hash c) (references (info i))))
      | m =>
          let hasSelfReference := bool_decide (path i ∈ references (info i)) in
          let refs := if hasSelfReference then references (info i) ∖ {[path i]} else references (info i) in
          Ok (Some (FixedOutputInfo (getFileIngestionMethod m) (ca_hash c)
                                    {| others := refs; self := hasSelfReference |}))
      end
  end.

Definition isContentAddressed (i : ValidPathInfo) : result bool :=
  fullCaOpt ← contentAddressWithReferences i;
  match fullCaOpt with
  | None => Ok false
  | Some fullCa =>
      caPath ← makeFixedOutputPathFromCA xp storeDir hashString (sp_name (path i)) fullCa;
      Ok (bool_decide (caPath = path i))
  end.

Definition checkSignature (publicKeys : PublicKeys) (sig : str) (i : ValidPathInfo) : result bool :=
  f ← ValidPathInfo_fingerprint i; verifyDetached na f sig publicKeys.

Definition count_good (publicKeys : PublicKeys) (i : ValidPathInfo) (good : Z) (sig : str) : result Z :=
  b ← checkSignature publicKeys sig i; Ok (if b : bool then u64 (good + 1) else good).

Definition checkSignatures (publicKeys : PublicKeys) (i : ValidPathInfo) : result Z :=
  b ← isContentAddressed i;
  if b : bool then Ok maxSigs
  else foldR (count_good publicKeys i) 0 (set_sorted (sigs (info i))).

Definition shortRefs (i : ValidPathInfo) : list str := map baseName (set_sorted (references (info i))).

(** The constructor from a content address. *)
Definition ValidPathInfo_ca (name : str) (c : ContentAddressWithReferences) (h : Hash) : result ValidPathInfo :=
  p ← makeFixedOutputPathFromCA xp storeDir hashString name c;
  let refs := match c with
              | TextInfo _ refs => refs
              | FixedOutputInfo _ _ refs => if self refs then {[p]} ∪ others refs else others refs
              end in
  let u := UnkeyedValidPathInfo_new h in
  Ok {| info := {| deriver := deriver u; narHash := narHash u; references := refs;
                   registrationTime := registrationTime u; narSize := narSize u; id := id u; ultimate := ultimate u;
                   sigs := sigs u; ca := Some {| ca_method := getMethod c; ca_hash := getHash c |} |};
        path := p |}.
End path_info.

(** * Fingerprints *)

Lemma printed_paths_inj storeDir l1 l2 :
  Forall sp_dashed l1 → Forall sp_dashed l2 →
  join "," (map (printStorePath storeDir) l1) = join "," (map (printStorePath storeDir) l2) → l1 = l2.
Proof.
  assert (∀ p l, ∃ t, join "," (map (printStorePath storeDir) (p :: l)) = (storeDir ++ "/") ++ baseName p ++ t ∧
    stops ","%char t ∧ (l = [] → t = []) ∧ (l ≠ [] → t = ","%char :: join "," (map (printStorePath storeDir) l))) as Hj.
  { intros p [|q l]; cbn [map].
    - exists []. unfold printStorePath. cbn [join]. rewrite app_nil_r, <- app_assoc. split_and!; [done|by left|done|done].
    - eexists. rewrite join_cons by done. unfold printStorePath at 1. rewrite <- !app_assoc. split_and!; [done|right; eauto|done|done]. }
  assert (∀ p, sp_dashed p → ","%char ∉ baseName p) as Hc.
  { intros p Hp. eapply forallb_not_elem; [by apply sp_dashed_chars|done]. }
  intros H1. revert l2. induction H1 as [|p l1 Hp _ IH]; intros l2 H2; destruct H2 as [|q l2 Hq H2]; [done|..].
  - destruct (Hj q l2) as (t & -> & _). cbn. intros E. apply (f_equal length) in E. rewrite !length_app in E. cbn in E. lia.
  - destruct (Hj p l1) as (t & -> & _). intros E. apply (f_equal length) in E. rewrite !length_app in E. cbn in E. lia.
  - destruct (Hj p l1) as (t1 & -> & S1 & N1 & C1), (Hj q l2) as (t2 & -> & S2 & N2 & C2).
    intros [Eb Et]%app_inv_head%(stops_inj ","%char); [|by apply Hc|by apply Hc|done|done].
    assert (p = q) as -> by (destruct p, q; cbn in Eb; by subst). f_equal.
    destruct (decide (l1 = [])) as [E1|E1], (decide (l2 = [])) as [E2|E2]; [congruence|..].
    + rewrite N1, C2 in Et by done. done.
    + rewrite C1, N2 in Et by done. done.
    + rewrite C1, C2 in Et by done. injection Et as Et. by apply IH.
Qed.

Record info_wf (i : ValidPathInfo) : Prop := {
  wf_path : sp_dashed (path i);
  wf_hash : hash_regular (narHash (info i));
  wf_size : 0 ≤ narSize (info i) < 2 ^ 64;
  wf_refs : set_Forall sp_dashed (references (info i));
}.

Lemma hash32_inj h1 h2 : hash_regular h1 → hash_regular h2 → to_string h1 Bsd32 true = to_string h2 Bsd32 true → h1 = h2.
Proof.
  intros R1 R2 E. assert (∀ a, algo_enabled xp_all a) as Hx by (by intros a ->).
  assert (∀ h, hash_regular h → ∃ s, to_string h Bsd32 true = Ok s ∧ parseAnyPrefixed xp_all s = Ok h) as Hp.
  { intros h Hr. destruct (getParsed_prefixed h Bsd32) as (s & Hs & Hg); [by apply Hr|]. exists s. split; [done|].
    unfold parseAnyPrefixed. rewrite Hg. apply (Hash_parse_body xp_all h Bsd32 Hr (Hx _)). }
  destruct (Hp h1 R1) as (s1 & E1 & P1), (Hp h2 R2) as (s2 & E2 & P2). congruence.
Qed.

Lemma hash32_text h : hash_wf h → ∃ s, to_string h Bsd32 true = Ok s ∧ forallb (λ c, negb (char_in [";"%char; newline; " "%char] c)) s = true.
Proof.
  intros Hw. rewrite to_string_body by done. eexists. split; [done|]. change (bool_decide (Bsd32 = SRI)) with false. cbn [orb].
  rewrite !forallb_app. apply andb_true_iff. split; [by destruct (algo h)|]. cbn [format_body].
  pose proof (digits32_chars h) as Hd. rewrite forallb_forall in Hd |- *. intros c Hc. apply Hd in Hc. revert Hc.
  apply implb_true_iff. check_ascii c.
Qed.

Section fingerprints.
Context (storeDir : str).

Lemma fingerprint_ok i :
  info_wf i → narSize (info i) ≠ 0 → ∃ f, ValidPathInfo_fingerprint storeDir i = Ok f.
Proof.
  intros Hw Hn. unfold ValidPathInfo_fingerprint. rewrite (proj2 (Z.eqb_neq _ 0)) by done.
  destruct (hash32_text (narHash (info i))) as (s & -> & _); [by apply Hw|]. by eexists.
Qed.

(** The fields a fingerprint covers. *)
Definition same_content (i j : ValidPathInfo) : Prop :=
  path i = path j ∧ narHash (info i) = narHash (info j) ∧ narSize (info i) = narSize (info j) ∧
  references (info i) = references (info j).

Lemma fingerprint_inj i j f :
  info_wf i → info_wf j →
  ValidPathInfo_fingerprint storeDir i = Ok f → ValidPathInfo_fingerprint storeDir j = Ok f → same_content i j.
Proof.
  intros Wi Wj. unfold ValidPathInfo_fingerprint.
  destruct (narSize (info i) =? 0) eqn:Ni; [done|]. destruct (narSize (info j) =? 0) eqn:Nj; [done|].
  destruct (hash32_text (narHash (info i))) as (hi & Ehi & Thi); [by apply Wi|].
  destruct (hash32_text (narHash (info j))) as (hj & Ehj & Thj); [by apply Wj|].
  rewrite Ehi, Ehj. cbn [mbind result_bind]. intros Ei Ej. rewrite <- Ej in Ei. injection Ei as Ei. clear f Ej.
  unfold printStorePath in Ei. rewrite <- !app_assoc in Ei. apply app_inv_head, app_inv_head in Ei.
  assert (∀ p, sp_dashed p → ";"%char ∉ baseName p) as Hb.
  { intros p Hp. eapply forallb_not_elem; [by apply sp_dashed_chars|done]. }
  apply field_inj in Ei as [Ep Ei]; [|apply Hb, Wi|apply Hb, Wj].
  apply field_inj in Ei as [Eh Ei]; [|by eapply forallb_not_elem|by eapply forallb_not_elem].
  pose proof (wf_size i Wi) as Zi. pose proof (wf_size j Wj) as Zj.
  apply field_inj in Ei as [Es Er]; [|by eapply forallb_not_elem; [apply std_to_string_digits; lia|]..].
  rewrite !concatStringsSep_join in Er. apply printed_paths_inj in Er;
    [|apply Forall_forall; intros p Hp%elem_of_set_sorted; by apply Wi|apply Forall_forall; intros p Hp%elem_of_set_sorted; by apply Wj].
  repeat split.
  - destruct (path i), (path j). cbn in Ep. by subst.
  - apply hash32_inj; [by apply Wi|by apply Wj|congruence].
  - apply std_to_string_inj; [lia|lia|done].
  - rewrite <- (list_to_set_sorted (references (info i))), Er. apply list_to_set_sorted.
Qed.
End fingerprints.

(** * Signatures *)

Section trust.
Context (xp : XpSettings) (storeDir : str) (hashString : HashAlgorithm → str → Hash) (na : Sodium).

Lemma count_good_total keys i l g :
  (∀ sig, sig ∈ l → is_ok (checkSignature storeDir na keys sig i) = true) → 0 ≤ g → g + Z.of_nat (length l) < 2 ^ 64 →
  ∃ n, foldR (count_good storeDir na keys i) g l = Ok n ∧ g ≤ n ≤ g + Z.of_nat (length l) ∧
    ((∃ sig, sig ∈ l ∧ checkSignature storeDir na keys sig i = Ok true) → g < n).
Proof.
  revert g. induction l as [|sig l IH]; intros g Hl Hg Hb; cbn [foldR length] in *.
  { exists g. split; [done|]. split; [lia|]. by intros (s & ?%elem_of_nil & _). }
  unfold count_good at 2. pose proof (Hl sig ltac:(by left)) as Hs.
  destruct (checkSignature storeDir na keys sig i) as [b|] eqn:E; [|done]. cbn [mbind result_bind].
  assert (∀ s, s ∈ l → is_ok (checkSignature storeDir na keys s i) = true) as Hl' by (intros s ?; apply Hl; by right).
  destruct b.
  - unfold u64. rewrite Z.mod_small by lia. destruct (IH (g + 1) Hl') as (n & En & Hn & _); [lia|lia|].
    exists n. split; [done|]. split; [lia|]. lia.
  - destruct (IH g Hl') as (n & En & Hn & Hs'); [lia|lia|]. exists n. split; [done|]. split; [lia|].
    intros (s & [->|Hin]%elem_of_cons & Es); [congruence|]. apply Hs'. eauto.
Qed.

Lemma add_sig_content sig i : same_content i (add_sig sig i).
Proof. done. Qed.

Lemma add_sig_fingerprint sig i : ValidPathInfo_fingerprint storeDir (add_sig sig i) = ValidPathInfo_fingerprint storeDir i.
Proof. done. Qed.

Lemma add_sig_ca sig i : isContentAddressed xp storeDir hashString (add_sig sig i) = isContentAddressed xp storeDir hashString i.
Proof. done. Qed.

(** ** Content-addressed objects *)

Lemma method_of_ingestion m :
  getFileIngestionMethod (fileIngestionMethodToContentAddressMethod m) = m ∧
  fileIngestionMethodToContentAddressMethod m ≠ CAM_Text.
Proof. by destruct m. Qed.

Definition ca_references (c : ContentAddressWithReferences) : gset StorePath :=
  match c with TextInfo _ refs => refs | FixedOutputInfo _ _ refs => others refs end.

Lemma ValidPathInfo_ca_inv name c h i :
  ValidPathInfo_ca xp storeDir hashString name c h = Ok i → path i ∉ ca_references c →
  makeFixedOutputPathFromCA xp storeDir hashString name c = Ok (path i) ∧ contentAddressWithReferences i = Ok (Some c).
Proof.
  unfold ValidPathInfo_ca. destruct (makeFixedOutputPathFromCA _ _ _ _ _) as [p|]; cbn [mbind result_bind]; [|done].
  intros [= <-]. cbn [path]. intros Hp. split; [done|]. unfold contentAddressWithReferences. cbn [info ca path ca_method ca_hash].
  destruct c as [hc refs|m hc [refs s]]; cbn [ca_references getMethod getHash references self others] in *.
  - by rewrite bool_decide_eq_false_2.
  - assert (∀ (P : ContentAddressMethod → result (option ContentAddressWithReferences)) (t : result (option ContentAddressWithReferences)) m,
      match fileIngestionMethodToContentAddressMethod m with CAM_Text => t | m => P m end = P (fileIngestionMethodToContentAddressMethod m)) as Hm
      by (by intros ?? []).
    rewrite (Hm (λ m, Ok (Some (FixedOutputInfo (getFileIngestionMethod m) hc _)))). rewrite (proj1 (method_of_ingestion m)).
    destruct s; cbn [self others].
    + rewrite !bool_decide_eq_true_2 by set_solver. by replace (({[p]} ∪ refs) ∖ {[p]}) with refs by set_solver.
    + by rewrite !bool_decide_eq_false_2.
Qed.
End trust.

(** * Properties *)

(** ** Which signatures count *)

(** [sig] is a signature of [f] that a trusted key, the one it names, verifies. *)
Definition vouched (na : Sodium) (keys : PublicKeys) (f sig : str) : Prop :=
  ∃ name payload k bytes, sig = name ++ ":" ++ payload ∧ key_name_ok name ∧ keys !! name = Some k ∧
    base64Decode payload = Ok bytes ∧ length bytes = crypto_sign_BYTES ∧ crypto_sign_verify_detached na bytes f (key k) = true.
(** [sig] names a trusted key but contains no signature. *)
Definition malformed (keys : PublicKeys) (sig : str) : Prop :=
  ∃ name payload k, sig = name ++ ":" ++ payload ∧ key_name_ok name ∧ keys !! name = Some k ∧
    ∀ bytes, base64Decode payload = Ok bytes → length bytes ≠ crypto_sign_BYTES.

Lemma BorrowedCryptoValue_parse_inv sig name payload :
  BorrowedCryptoValue_parse sig = (name, payload) → name ≠ [] → sig = name ++ ":" ++ payload ∧ key_name_ok name.
Proof.
  unfold BorrowedCryptoValue_parse. destruct (find_idx _ sig) as [[|n]|] eqn:E; [by intros [= <- <-]| |by intros [= <- <-]].
  apply find_idx_Some in E as (Hl & Hn & c & Hc & Ec). apply bool_decide_eq_true in Ec as ->.
  apply take_drop_middle in Hc. unfold substr. rewrite drop_0, Nat.add_1_r. intros [= <- <-] Hne. split; [by symmetry|]. split; [done|].
  intros Hin. rewrite forallb_forall in Hn. apply list_elem_of_In, Hn in Hin. apply negb_true_iff, bool_decide_eq_false in Hin. done.
Qed.
Lemma verdict na keys f sig : keys !! [] = None →
  match verifyDetached na f sig keys with
  | Ok true => vouched na keys f sig ∧ ¬ malformed keys sig
  | Ok false => ¬ vouched na keys f sig ∧ ¬ malformed keys sig
  | Throw _ => malformed keys sig
  end.
Proof.
  intros Hempty. unfold verifyDetached. destruct (BorrowedCryptoValue_parse sig) as [name payload] eqn:Ep.
  assert (∀ n p, sig = n ++ ":" ++ p → key_name_ok n → n = name ∧ p = payload) as Hu.
  { intros n p -> Hn. rewrite BorrowedCryptoValue_parse_app in Ep by done. by injection Ep. }
  destruct (keys !! name) as [k|] eqn:Ek.
  2: { split; intros (n & p & k & H); [destruct H as (b & Es & Hn & Hk & _)|destruct H as (Es & Hn & Hk & _)];
       destruct (Hu n p Es Hn) as [-> ->]; congruence. }
  destruct (BorrowedCryptoValue_parse_inv _ _ _ Ep) as [Es Hn]; [by intros ->; congruence|]. unfold verifyDetachedAnon.
  destruct (base64Decode payload) as [bytes|] eqn:Eb.
  2: { exists name, payload, k. split_and!; [done|done|done|]. intros bytes Hb. congruence. }
  destruct (length bytes =? crypto_sign_BYTES)%nat eqn:El; cbn [negb].
  2: { apply Nat.eqb_neq in El. exists name, payload, k. split_and!; [done|done|done|]. intros b' Hb. rewrite Eb in Hb. by injection Hb as <-. }
  apply Nat.eqb_eq in El. assert (¬ malformed keys sig) as Hm.
  { intros (n & p & k' & Es' & Hn' & _ & Hb). destruct (Hu n p Es' Hn') as [-> ->]. by apply (Hb bytes). }
  destruct (crypto_sign_verify_detached na bytes f (key k)) eqn:Ev; split; try done.
  - by exists name, payload, k, bytes.
  - intros (n & p & k' & b' & Es' & Hn' & Hk & Hb & _ & Hv). destruct (Hu n p Es' Hn') as [-> ->]. congruence.
Qed.

Section counting.
Context (storeDir : str) (na : Sodium) (keys : PublicKeys) (i : ValidPathInfo) (f : str).
Context (Hempty : keys !! [] = None) (Hf : ValidPathInfo_fingerprint storeDir i = Ok f).

Lemma count_good_spec l : ∀ g, NoDup l → 0 ≤ g → g + Z.of_nat (length l) < 2 ^ 64 →
  match foldR (count_good storeDir na keys i) g l with
  | Ok n => (∀ sig, sig ∈ l → ¬ malformed keys sig) ∧
      ∃ good : gset str, (∀ sig, sig ∈ good ↔ sig ∈ l ∧ vouched na keys f sig) ∧ n = g + Z.of_nat (size good)
  | Throw _ => ∃ sig, sig ∈ l ∧ malformed keys sig
  end.
Proof using Hempty Hf.
  induction l as [|sig l IH]; intros g Hnd Hg Hb; cbn [foldR length] in *.
  { split; [by intros sig ?%elem_of_nil|]. exists ∅. split; [|rewrite size_empty; lia]. intros sig. rewrite elem_of_nil. set_solver. }
  apply NoDup_cons in Hnd as [Hnin Hnd]. unfold count_good at 2, checkSignature. rewrite Hf. cbn [mbind result_bind].
  pose proof (verdict na keys f sig Hempty) as Hv. destruct (verifyDetached na f sig keys) as [v|e].
  2: { exists sig. split; [left|done]. }
  assert (¬ malformed keys sig) as Hm by (by destruct v; destruct Hv).
  assert (∀ g', 0 ≤ g' → g' + Z.of_nat (length l) < 2 ^ 64 → (v = false → g' = g) → (v = true → g' = g + 1) →
    match foldR (count_good storeDir na keys i) g' l with
    | Ok n => (∀ s, s ∈ sig :: l → ¬ malformed keys s) ∧
        ∃ good : gset str, (∀ s, s ∈ good ↔ s ∈ sig :: l ∧ vouched na keys f s) ∧ n = g + Z.of_nat (size good)
    | Throw _ => ∃ s, s ∈ sig :: l ∧ malformed keys s
    end) as Hgo.
  { intros g' H1 H2 Hff Htt. specialize (IH g' Hnd H1 H2). destruct (foldR _ g' l) as [n|e]; [|destruct IH as (s & ? & ?); exists s; split; [by right|done]].
    destruct IH as [IHm (good & IHg & ->)]. split; [intros s [->|Hs]%elem_of_cons; auto|]. destruct v.
    - exists ({[sig]} ∪ good). split.
      + intros s. rewrite elem_of_union, elem_of_singleton, elem_of_cons, IHg. destruct Hv. naive_solver.
      + rewrite size_union, size_singleton by (rewrite disjoint_singleton_l, IHg; tauto). rewrite Htt by done. lia.
    - exists good. split; [|by rewrite Hff]. intros s. rewrite elem_of_cons, IHg. destruct Hv. naive_solver. }
  destruct v; cbn [mbind result_bind]; [unfold u64; rewrite Z.mod_small by lia|]; (apply Hgo; [lia|lia|done|done]).
Qed.
End counting.

(** [C7] What the check of signatures means, for an info whose archive size is
    known and trusted keys that have names. A content-addressed info counts as
    [maxSigs]. For any other the check returns the number of its signatures,
    written [name:base64], that the trusted key of that name verifies for the
    fingerprint of the info; it throws exactly if one names a trusted key but does
    not hold 64 bytes. And the fingerprint stands for the path, the hash and size of
    the archive and the references: another info has the same one exactly if it
    agrees in all of them, so what a key signed for one content is never the text
    that is verified for another. *)
Theorem signatures_counted (xp : XpSettings) (storeDir : str) (hashString : HashAlgorithm → str → Hash) (na : Sodium) (keys : PublicKeys) i b :
  info_wf i → narSize (info i) ≠ 0 → keys !! [] = None → Z.of_nat (size (sigs (info i))) < 2 ^ 64 →
  isContentAddressed xp storeDir hashString i = Ok b →
  ∃ f, ValidPathInfo_fingerprint storeDir i = Ok f ∧
    (∀ j, info_wf j → ValidPathInfo_fingerprint storeDir j = Ok f ↔ same_content i j) ∧
    match checkSignatures xp storeDir hashString na keys i with
    | Ok n =>
        if b then n = maxSigs
        else (∀ sig, sig ∈ sigs (info i) → ¬ malformed keys sig) ∧
          ∃ good : gset str, (∀ sig, sig ∈ good ↔ sig ∈ sigs (info i) ∧ vouched na keys f sig) ∧ n = Z.of_nat (size good)
    | Throw _ => b = false ∧ ∃ sig, sig ∈ sigs (info i) ∧ malformed keys sig
    end.
Proof.
  intros Hi Hn Hk Hs Hca. destruct (fingerprint_ok storeDir i Hi Hn) as [f Ef]. exists f. split; [done|]. split.
  { intros j Hj. split; [intros Ej; by eapply fingerprint_inj|]. intros (E1 & E2 & E3 & E4). rewrite <- Ef. unfold ValidPathInfo_fingerprint. by rewrite E1, E2, E3, E4. }
  unfold checkSignatures. rewrite Hca. cbn [mbind result_bind]. destruct b; [done|].
  pose proof (count_good_spec storeDir na keys i f Hk Ef (set_sorted (sigs (info i))) 0 (set_sorted_NoDup _) ltac:(lia)) as H.
  rewrite length_set_sorted in H. specialize (H ltac:(lia)). destruct (foldR _ 0 _) as [n|e].
  - destruct H as [H1 (good & H2 & ->)]. split; [intros sig Hin; apply H1; by apply elem_of_set_sorted|].
    exists good. split; [|lia]. intros sig. by rewrite H2, elem_of_set_sorted.
  - split; [done|]. destruct H as (sig & Hin & Hm). exists sig. split; [by apply elem_of_set_sorted|done].
Qed.

(** A signature made by a signer whose public key is trusted is counted,
    whatever other signatures the info has, as long as they are not malformed;
    signing changes nothing else. *)
Theorem signed_info_accepted (xp : XpSettings) (storeDir : str) (hashString : HashAlgorithm → str → Hash) (na : Sodium) {S} `{Signer S} (s : S) `{!SignerOk na S s}
    (keys : PublicKeys) i b :
  keys !! key_name (getPublicKey s) = Some (getPublicKey s) →
  info_wf i → narSize (info i) ≠ 0 → Z.of_nat (size (sigs (info i))) < 2 ^ 64 - 1 →
  isContentAddressed xp storeDir hashString i = Ok b →
  (∀ sig, sig ∈ sigs (info i) → is_ok (checkSignature storeDir na keys sig i) = true) →
  ∃ i' n, sign storeDir s i = Ok i' ∧ same_content i i' ∧ sigs (info i) ⊆ sigs (info i') ∧
    checkSignatures xp storeDir hashString na keys i' = Ok n ∧ 0 < n.
Proof.
  intros Hk Hw Hs Hb Hca Hsigs. destruct (fingerprint_ok storeDir i Hw Hs) as [f Ef].
  set (i' := add_sig (signDetached s f) i).
  assert (checkSignature storeDir na keys (signDetached s f) i = Ok true) as Hnew.
  { unfold checkSignature. rewrite Ef. cbn [mbind result_bind]. by apply signer_verifies. }
  assert (∀ sig, checkSignature storeDir na keys sig i' = checkSignature storeDir na keys sig i) as Hsame by done.
  assert (Z.of_nat (length (set_sorted (sigs (info i')))) < 2 ^ 64) as Hlen.
  { rewrite length_set_sorted. unfold i'. cbn [info sigs add_sig].
    pose proof (size_union_alt {[signDetached s f]} (sigs (info i))) as Hu. rewrite size_singleton in Hu.
    pose proof (subseteq_size (sigs (info i) ∖ {[signDetached s f]}) (sigs (info i)) ltac:(set_solver)). lia. }
  destruct (count_good_total storeDir hashString na keys i' (set_sorted (sigs (info i'))) 0) as (n & En & _ & Hpos); [|lia|lia|].
  { intros sig Hin%elem_of_set_sorted. rewrite Hsame. cbn in Hin. apply elem_of_union in Hin as [->%elem_of_singleton|Hin].
    - by rewrite Hnew.
    - by apply Hsigs. }
  exists i', (if b then maxSigs else n). split; [unfold sign; by rewrite Ef|].
  split; [done|]. split; [cbn; set_solver|]. unfold checkSignatures, i'. rewrite add_sig_ca, Hca. fold i'. cbn [mbind result_bind].
  destruct b; [done|]. split; [done|]. apply Hpos. exists (signDetached s f). rewrite Hsame. split; [|done].
  apply elem_of_set_sorted. cbn. set_solver.
Qed.

(** [C33] An info made from a content address is content addressed and keeps
    that address: its path is recomputed from what it records, so that it
    passes every check of signatures without having any. (The path must not
    already be among the references, which would need a fixed point of the
    hash.) *)
Theorem content_addressed_info (xp : XpSettings) (storeDir : str) (hashString : HashAlgorithm → str → Hash) (na : Sodium) name c h i :
  (∀ a s, hash_regular (hashString a s) ∧ algo (hashString a s) = a) → ca_ok c →
  ValidPathInfo_ca xp storeDir hashString name c h = Ok i → path i ∉ ca_references c →
  contentAddressWithReferences i = Ok (Some c) ∧ sp_name (path i) = name ∧
  isContentAddressed xp storeDir hashString i = Ok true ∧
  ∀ keys, checkSignatures xp storeDir hashString na keys i = Ok maxSigs.
Proof.
  intros Hh Hc Hi Hp. destruct (ValidPathInfo_ca_inv _ _ _ _ _ _ _ Hi Hp) as [Em Ec].
  destruct (ca_path_shape xp storeDir hashString Hh name c (path i) Hc Em) as (Hn & Ep & _).
  assert (sp_name (path i) = name) as En by (rewrite Ep; by apply made_path_wf).
  assert (isContentAddressed xp storeDir hashString i = Ok true) as Hca.
  { unfold isContentAddressed. rewrite Ec. cbn [mbind result_bind]. rewrite En, Em. cbn [mbind result_bind].
    by rewrite bool_decide_eq_true_2. }
  split_and!; [done|done|done|]. intros keys. unfold checkSignatures. by rewrite Hca.
Qed.

(** ** Instances *)

Definition sample_path : StorePath := MkStorePath "00000000000000000000000000000000-x".
Definition sample_info (sigs : gset str) : ValidPathInfo := {|
  info := {| deriver := None; narHash := zero_hash SHA256 []; references := {[sample_path]}; registrationTime := 0;
             narSize := 120; id := 0; ultimate := false; sigs := sigs; ca := None |};
  path := sample_path |}.

Lemma sample_info_wf sigs : info_wf (sample_info sigs).
Proof.
  assert (sp_dashed sample_path) as Hs.
  { split; [|reflexivity]. apply (bool_decide_unpack _). vm_compute. exact I. }
  split; cbn [sample_info info path narHash narSize references].
  - exact Hs.
  - apply zero_hash_ok.
  - lia.
  - by intros p ->%elem_of_singleton.
Qed.

Definition sample_signed : result ValidPathInfo :=
  @sign "/bsd/store" _ (LocalSigner_signer plain_sodium) (LocalSigner_new plain_sodium sample_key) (sample_info ∅).

Lemma signed_info_accepted_witness :
  ∃ i' n, sample_signed = Ok i' ∧ same_content (sample_info ∅) i' ∧
    checkSignatures [] "/bsd/store" zero_hash plain_sodium {["cache-1"%str := toPublicKey plain_sodium sample_key]} i' = Ok n ∧ 0 < n.
Proof.
  assert (@SignerOk plain_sodium LocalSigner (LocalSigner_signer plain_sodium) (LocalSigner_new plain_sodium sample_key)) as Hok.
  { apply LocalSigner_ok; [apply _| |reflexivity]. split; [discriminate|]. apply (bool_decide_unpack _). vm_compute. exact I. }
  destruct (@signed_info_accepted [] "/bsd/store" zero_hash plain_sodium LocalSigner (LocalSigner_signer plain_sodium)
    (LocalSigner_new plain_sodium sample_key) Hok {["cache-1"%str := toPublicKey plain_sodium sample_key]} (sample_info ∅) false)
    as (i' & n & H1 & H2 & _ & H3 & H4).
  - vm_compute. reflexivity.
  - apply sample_info_wf.
  - discriminate.
  - vm_compute. reflexivity.
  - reflexivity.
  - intros sig Hs. by apply not_elem_of_empty in Hs.
  - exists i', n. auto.
Defined.

(** The sample with a signature of it and one of another text. *)
Definition sample_sigs : gset str :=
  match ValidPathInfo_fingerprint "/bsd/store" (sample_info ∅) with
  | Ok f => {[Secret_signDetached plain_sodium sample_key f; Secret_signDetached plain_sodium sample_key "other"]}
  | Throw _ => ∅
  end.
Definition sample_keys : PublicKeys := {["cache-1"%str := toPublicKey plain_sodium sample_key]}.

Lemma signatures_counted_witness :
  checkSignatures [] "/bsd/store" zero_hash plain_sodium sample_keys (sample_info sample_sigs) = Ok 1 ∧
  ∃ f (good : gset str), ValidPathInfo_fingerprint "/bsd/store" (sample_info sample_sigs) = Ok f ∧
    (∀ sig, sig ∈ good ↔ sig ∈ sample_sigs ∧ vouched plain_sodium sample_keys f sig) ∧ size good = 1%nat.
Proof.
  assert (checkSignatures [] "/bsd/store" zero_hash plain_sodium sample_keys (sample_info sample_sigs) = Ok 1) as E by (vm_compute; reflexivity).
  split; [exact E|].
  destruct (signatures_counted [] "/bsd/store" zero_hash plain_sodium sample_keys (sample_info sample_sigs) false) as (f & Ef & _ & H).
  - apply sample_info_wf.
  - discriminate.
  - vm_compute. reflexivity.
  - vm_compute. reflexivity.
  - reflexivity.
  - rewrite E in H. destruct H as [_ (good & H1 & H2)]. exists f, good. split; [exact Ef|]. split; [exact H1|]. lia.
Defined.

Lemma content_addressed_info_witness :
  match ValidPathInfo_ca [] "/bsd/store" zero_hash "hello" zero_ca (zero_hash SHA256 []) with
  | Ok i => isContentAddressed [] "/bsd/store" zero_hash i = Ok true
  | Throw _ => False
  end.
Proof.
  destruct (ValidPathInfo_ca [] "/bsd/store" zero_hash "hello" zero_ca (zero_hash SHA256 [])) as [i|e] eqn:E.
  - apply (content_addressed_info [] "/bsd/store" zero_hash plain_sodium "hello" zero_ca (zero_hash SHA256 []) i
      zero_hash_ok zero_ca_ok E). apply not_elem_of_empty.
  - apply (f_equal is_ok) in E. vm_compute in E. discriminate E.
Defined.
