(* ===== verification/NarInfo.v ===== *)
(** The index entries of a binary cache: [libstore/nar-info.cc].

    A [.narinfo] file describes a store object and the file that holds its
    compressed archive, one [Name: value] field per line. *)

From S2P Require Import Prelude Strings Lexical Xp Hash CanonPath Keys StorePath ContentAddress PathInfo.

(** * Data *)

Record NarInfo := {
  ni_info : ValidPathInfo;
  url : str;
  compression : str;
  fileHash : option Hash;
  fileSize : Z;
}.

Definition StorePath_dummy : StorePath := MkStorePath "ffffffffffffffffffffffffffffffff-x".
Definition Hash_dummy : Hash := MkHash (regularHashSize SHA256) (replicate maxHashSize 0) SHA256.

(** Assignments to the inherited fields. *)
Definition on_info (f : UnkeyedValidPathInfo → UnkeyedValidPathInfo) (n : NarInfo) : NarInfo :=
  {| ni_info := {| info := f (info (ni_info n)); path := path (ni_info n) |};
     url := url n; compression := compression n; fileHash := fileHash n; fileSize := fileSize n |}.
Definition set_path (p : StorePath) (n : NarInfo) : NarInfo :=
  {| ni_info := {| info := info (ni_info n); path := p |};
     url := url n; compression := compression n; fileHash := fileHash n; fileSize := fileSize n |}.
Definition set_url (v : str) (n : NarInfo) : NarInfo :=
  {| ni_info := ni_info n; url := v; compression := compression n; fileHash := fileHash n; fileSize := fileSize n |}.
Definition set_compression (v : str) (n : NarInfo) : NarInfo :=
  {| ni_info := ni_info n; url := url n; compression := v; fileHash := fileHash n; fileSize := fileSize n |}.
Definition set_fileHash (h : Hash) (n : NarInfo) : NarInfo :=
  {| ni_info := ni_info n; url := url n; compression := compression n; fileHash := Some h; fileSize := fileSize n |}.
Definition set_fileSize (z : Z) (n : NarInfo) : NarInfo :=
  {| ni_info := ni_info n; url := url n; compression := compression n; fileHash := fileHash n; fileSize := z |}.

Definition with_narHash (h : Hash) (u : UnkeyedValidPathInfo) : UnkeyedValidPathInfo :=
  {| deriver := deriver u; narHash := h; references := references u; registrationTime := registrationTime u;
     narSize := narSize u; id := id u; ultimate := ultimate u; sigs := sigs u; ca := ca u |}.
Definition with_narSize (z : Z) (u : UnkeyedValidPathInfo) : UnkeyedValidPathInfo :=
  {| deriver := deriver u; narHash := narHash u; references := references u; registrationTime := registrationTime u;
     narSize := z; id := id u; ultimate := ultimate u; sigs := sigs u; ca := ca u |}.
Definition with_references (r : gset StorePath) (u : UnkeyedValidPathInfo) : UnkeyedValidPathInfo :=
  {| deriver := deriver u; narHash := narHash u; references := r; registrationTime := registrationTime u;
     narSize := narSize u; id := id u; ultimate := ultimate u; sigs := sigs u; ca := ca u |}.
Definition with_deriver (d : StorePath) (u : UnkeyedValidPathInfo) : UnkeyedValidPathInfo :=
  {| deriver := Some d; narHash := narHash u; references := references u; registrationTime := registrationTime u;
     narSize := narSize u; id := id u; ultimate := ultimate u; sigs := sigs u; ca := ca u |}.
Definition insert_sig (s : str) (u : UnkeyedValidPathInfo) : UnkeyedValidPathInfo :=
  {| deriver := deriver u; narHash := narHash u; references := references u; registrationTime := registrationTime u;
     narSize := narSize u; id := id u; ultimate := ultimate u; sigs := {[s]} ∪ sigs u; ca := ca u |}.
Definition with_ca (c : option ContentAddress) (u : UnkeyedValidPathInfo) : UnkeyedValidPathInfo :=
  {| deriver := deriver u; narHash := narHash u; references := references u; registrationTime := registrationTime u;
     narSize := narSize u; id := id u; ultimate := ultimate u; sigs := sigs u; ca := c |}.

(** * Parsing *)

(** The local variables of the constructor. *)
Record ni_state := { st_ni : NarInfo; line : Z; havePath : bool; haveNarHash : bool }.

Definition ni_init : ni_state := {|
  st_ni := {| ni_info := {| info := UnkeyedValidPathInfo_new Hash_dummy; path := StorePath_dummy |};
              url := []; compression := []; fileHash := None; fileSize := 0 |};
  line := 1; havePath := false; haveNarHash := false |}.

Definition set_ni (n : NarInfo) (st : ni_state) : ni_state :=
  {| st_ni := n; line := line st; havePath := havePath st; haveNarHash := haveNarHash st |}.
Definition next_line (st : ni_state) : ni_state :=
  {| st_ni := st_ni st; line := u32 (line st + 1); havePath := havePath st; haveNarHash := haveNarHash st |}.

Section nar_info.
Context (xp : XpSettings) (storeDir : str) (lexical_cast : IntType → str → option Z).

Definition corrupt (whence : str) (line : Z) (reason : str) : exn :=
  Error ("NAR info file '" ++ whence ++ "' is corrupt: " ++ reason
         ++ (if 0 <? line then " at line " ++ std_to_string line else [])).

Definition parseHashField (whence : str) (line : Z) (s : str) : result Hash :=
  match parseAnyPrefixed xp s with
  | Throw (BadHash _) => Throw (corrupt whence line "bad hash")
  | r => r
  end.

Definition parse_field (whence : str) (st : ni_state) (name value : str) : result ni_state :=
  let n := st_ni st in
  let u := info (ni_info n) in
  let err := corrupt whence (line st) in
  if str_eqb name "StorePath" then
    p ← parseStorePath storeDir value;
    Ok {| st_ni := set_path p n; line := line st; havePath := true; haveNarHash := haveNarHash st |}
  else if str_eqb name "URL" then Ok (set_ni (set_url value n) st)
  else if str_eqb name "Compression" then Ok (set_ni (set_compression value n) st)
  else if str_eqb name "FileHash" then
    h ← parseHashField whence (line st) value; Ok (set_ni (set_fileHash h n) st)
  else if str_eqb name "FileSize" then
    match string2Int lexical_cast ULong value with
    | None => Throw (err "invalid FileSize")
    | Some z => Ok (set_ni (set_fileSize z n) st)
    end
  else if str_eqb name "NarHash" then
    h ← parseHashField whence (line st) value;
    Ok {| st_ni := on_info (with_narHash h) n; line := line st; havePath := havePath st; haveNarHash := true |}
  else if str_eqb name "NarSize" then
    match string2Int lexical_cast ULong value with
    | None => Throw (err "invalid NarSize")
    | Some z => Ok (set_ni (on_info (with_narSize z) n) st)
    end
  else if str_eqb name "References" then
    let refs := tokenizeString value " " in
    if negb (bool_decide (references u = ∅)) then Throw (err "extra References")
    else
      rs ← foldR (λ rs r, p ← StorePath_new r; Ok ({[p]} ∪ rs)) (references u) refs;
      Ok (set_ni (on_info (with_references rs) n) st)
  else if str_eqb name "Deriver" then
    if str_eqb value "unknown-deriver" then Ok st
    else p ← StorePath_new value; Ok (set_ni (on_info (with_deriver p) n) st)
  else if str_eqb name "Sig" then Ok (set_ni (on_info (insert_sig value) n) st)
  else if str_eqb name "CA" then
    match ca u with
    | Some _ => Throw (err "extra CA")
    | None => c ← CA_parseOpt xp value; Ok (set_ni (on_info (with_ca c) n) st)
    end
  else Ok st.

Fixpoint ni_loop (fuel : nat) (whence s : str) (pos : nat) (st : ni_state) : result ni_state :=
  if (pos <? length s)%nat then
    match fuel with
    | O => Throw NonTermination
    | S fuel =>
        match find_first_of s ":" pos with
        | None => Throw (corrupt whence (line st) "expecting ':'")
        | Some colon =>
            let name := substr s pos (colon - pos) in
            match find_first_of s [newline] (colon + 2) with
            | None => Throw (corrupt whence (line st) "expecting '\n'")
            | Some eol =>
                let value := substr s (colon + 2) (eol - colon - 2) in
                st ← parse_field whence st name value;
                ni_loop fuel whence s (eol + 1) (next_line st)
            end
        end
    end
  else Ok st.

(** Fuel: every round moves past at least one character. *)
Definition NarInfo_parse (s whence : str) : result NarInfo :=
  st ← ni_loop (length s) whence s 0 ni_init;
  let n := st_ni st in
  let n := if str_eqb (compression n) [] then set_compression "bzip2" n else n in
  let size := narSize (info (ni_info n)) in
  if negb (havePath st) || negb (haveNarHash st) || str_eqb (url n) [] || (size =? 0) then
    Throw (corrupt whence 0
      (if negb (havePath st) then "StorePath missing"
       else if negb (haveNarHash st) then "NarHash missing"
       else if str_eqb (url n) [] then "URL missing"
       else if size =? 0 then "NarSize missing or zero" else "?")%str)
  else Ok n.

(** * Printing *)

Definition NarInfo_to_string (n : NarInfo) : result str :=
  let i := ni_info n in
  let u := info i in
  let nl := [newline] in
  let res := "StorePath: " ++ printStorePath storeDir (path i) ++ nl in
  let res := res ++ "URL: " ++ url n ++ nl in
  _ ← assertR (negb (str_eqb (compression n) []));
  let res := res ++ "Compression: " ++ compression n ++ nl in
  fh ← match fileHash n with Some h => _ ← assertR (bool_decide (algo h = SHA256)); Ok h | None => Throw AssertionFailure end;
  fhs ← to_string fh Bsd32 true;
  let res := res ++ "FileHash: " ++ fhs ++ nl in
  let res := res ++ "FileSize: " ++ std_to_string (fileSize n) ++ nl in
  _ ← assertR (bool_decide (algo (narHash u) = SHA256));
  nhs ← to_string (narHash u) Bsd32 true;
  let res := res ++ "NarHash: " ++ nhs ++ nl in
  let res := res ++ "NarSize: " ++ std_to_string (narSize u) ++ nl in
  let res := res ++ "References: " ++ concatStringsSep " " (shortRefs i) ++ nl in
  let res := match deriver u with Some d => res ++ "Deriver: " ++ baseName d ++ nl | None => res end in
  let res := foldl (λ res sig, res ++ "Sig: " ++ sig ++ nl) res (set_sorted (sigs u)) in
  match ca u with
  | Some c => s ← renderContentAddress xp (Some c); Ok (res ++ "CA: " ++ s ++ nl)
  | None => Ok res
  end.
End nar_info.

(** * Fields *)

Definition field_line (f : str * str) : str := f.1 ++ ": " ++ f.2 ++ [newline].
Definition field_ok (f : str * str) : Prop := (":"%char ∉ f.1) ∧ (newline ∉ f.2).

Lemma field_line_eq name value : field_line (name, value) = name ++ ": " ++ value ++ [newline].
Proof. done. Qed.

Lemma find_first_of_at (pre s rest : str) c :
  c ∉ s → find_first_of (pre ++ s ++ c :: rest) [c] (length pre) = Some (length pre + length s)%nat.
Proof.
  intros Hc. unfold find_first_of. rewrite drop_app_length.
  rewrite find_idx_app_stop; [done| |by apply bool_decide_eq_true, list_elem_of_singleton].
  apply forallb_forall. intros d Hd. apply negb_true_iff, bool_decide_eq_false.
  intros ->%list_elem_of_singleton. by apply Hc, list_elem_of_In.
Qed.

Lemma substr_at (pre s rest : str) : substr (pre ++ s ++ rest) (length pre) (length s) = s.
Proof. unfold substr. by rewrite drop_app_length, take_app_length. Qed.

Section parse.
Context (xp : XpSettings) (storeDir : str) (lexical_cast : IntType → str → option Z) (whence : str).

Definition field_step (st : ni_state) (f : str * str) : result ni_state :=
  st ← parse_field xp storeDir lexical_cast whence st f.1 f.2; Ok (next_line st).

(** The loop reads the fields one after the other. *)
Lemma ni_loop_fields ls pre fuel st :
  Forall field_ok ls → (length ls <= fuel)%nat →
  ni_loop xp storeDir lexical_cast fuel whence (pre ++ concat (map field_line ls)) (length pre) st = foldR field_step st ls.
Proof.
  intros Hls. revert pre fuel st. induction Hls as [|[name value] ls [Hn Hv] _ IH]; intros pre fuel st Hf.
  { cbn [map concat foldR]. rewrite app_nil_r. destruct fuel; cbn [ni_loop]; by rewrite Nat.ltb_irrefl. }
  destruct fuel as [|fuel]; [cbn in Hf; lia|]. cbn [map concat ni_loop]. cbn [fst snd] in Hn, Hv.
  set (rest := concat (map field_line ls)).
  assert (field_line (name, value) ++ rest = name ++ ":"%char :: " "%char :: value ++ newline :: rest) as El.
  { unfold field_line. cbn [fst snd]. by rewrite <- !app_assoc. }
  rewrite El. rewrite (proj2 (Nat.ltb_lt _ _)) by (rewrite !length_app; cbn; lia).
  rewrite (find_first_of_at pre name _ ":"%char Hn). cbv zeta.
  assert (pre ++ name ++ ":"%char :: " "%char :: value ++ newline :: rest = (pre ++ name ++ ": ") ++ value ++ newline :: rest) as Es
    by (by rewrite <- !app_assoc).
  assert ((length pre + length name + 2)%nat = length (pre ++ name ++ ": ")) as Ep by (rewrite !length_app; cbn; lia).
  replace (length pre + length name - length pre)%nat with (length name) by lia. rewrite substr_at, Es, Ep.
  rewrite (find_first_of_at _ value rest newline Hv).
  replace (length (pre ++ name ++ ": ") + length value - (length pre + length name) - 2)%nat with (length value) by lia.
  rewrite substr_at. cbn [foldR]. unfold field_step at 2. cbn [fst snd].
  destruct (parse_field xp storeDir lexical_cast whence st name value) as [st'|]; cbn [mbind result_bind]; [|done].
  replace (length (pre ++ name ++ ": ") + length value + 1)%nat with (length (pre ++ name ++ ":"%char :: " "%char :: value ++ [newline]))
    by (rewrite !length_app; cbn; rewrite length_app; cbn; lia).
  replace ((pre ++ name ++ ": ") ++ value ++ newline :: rest) with ((pre ++ name ++ ":"%char :: " "%char :: value ++ [newline]) ++ rest)
    by (rewrite <- !app_assoc; cbn; by rewrite <- app_assoc).
  apply IH. cbn in Hf. lia.
Qed.

(** Reading the fields [ls] turns the info [n] with its flags into [n']. *)
Definition reads (ls : list (str * str)) (n : NarInfo) (p h : bool) (n' : NarInfo) (p' h' : bool) : Prop :=
  ∀ st, st_ni st = n → havePath st = p → haveNarHash st = h →
    ∃ st', foldR field_step st ls = Ok st' ∧ st_ni st' = n' ∧ havePath st' = p' ∧ haveNarHash st' = h'.

Lemma reads_nil n p h : reads [] n p h n p h.
Proof. intros st H1 H2 H3. by exists st. Qed.

Lemma reads_end n p h n' : n = n' → reads [] n p h n' p h.
Proof. intros ->. apply reads_nil. Qed.

Lemma reads_cons f ls n p h n1 p1 h1 n2 p2 h2 :
  (∀ l, parse_field xp storeDir lexical_cast whence {| st_ni := n; line := l; havePath := p; haveNarHash := h |} f.1 f.2 =
        Ok {| st_ni := n1; line := l; havePath := p1; haveNarHash := h1 |}) →
  reads ls n1 p1 h1 n2 p2 h2 → reads (f :: ls) n p h n2 p2 h2.
Proof.
  intros Hf Hls [n0 l0 p0 h0]. cbn [st_ni havePath haveNarHash]. intros -> -> ->. cbn [foldR]. unfold field_step at 2. rewrite Hf. cbn [mbind result_bind].
  by apply Hls.
Qed.

Definition with_sigs (s : gset str) (u : UnkeyedValidPathInfo) : UnkeyedValidPathInfo :=
  {| deriver := deriver u; narHash := narHash u; references := references u; registrationTime := registrationTime u;
     narSize := narSize u; id := id u; ultimate := ultimate u; sigs := s; ca := ca u |}.

Lemma reads_sigs l ls n p h n2 p2 h2 :
  reads ls (on_info (with_sigs (list_to_set l ∪ sigs (info (ni_info n)))) n) p h n2 p2 h2 →
  reads (map (λ s, ("Sig"%str, s)) l ++ ls) n p h n2 p2 h2.
Proof.
  revert n. induction l as [|s l IH]; intros n; cbn [map app].
  - replace (on_info _ n) with n; [done|]. destruct n as [[[] ?] ? ? ? ?]. unfold on_info, with_sigs. cbn.
    by rewrite (left_id_L ∅ (∪)).
  - intros H. apply (reads_cons _ _ n p h (on_info (insert_sig s) n) p h); [done|]. apply IH.
    replace (on_info _ (on_info (insert_sig s) n)) with (on_info (with_sigs (list_to_set (s :: l) ∪ sigs (info (ni_info n)))) n); [done|].
    unfold on_info, with_sigs, insert_sig. cbn. do 2 f_equal. f_equal. set_solver.
Qed.
End parse.

(** * Round trip *)

Section roundtrip.
Context (xp : XpSettings) (storeDir : str) (lexical_cast : IntType → str → option Z).
Context `{!LexicalCast lexical_cast} (Hdir : store_dir_ok storeDir) (Hnl : newline ∉ storeDir).

(** What can be written as an index entry. *)
Record ni_wf (n : NarInfo) : Prop := {
  niw_path : sp_dashed (path (ni_info n));
  niw_url : url n ≠ [] ∧ (newline ∉ url n);
  niw_compression : compression n ≠ [] ∧ (newline ∉ compression n);
  niw_fileHash : ∃ h, fileHash n = Some h ∧ hash_regular h ∧ algo h = SHA256;
  niw_fileSize : 0 ≤ fileSize n < 2 ^ 64;
  niw_narHash : hash_regular (narHash (info (ni_info n))) ∧ algo (narHash (info (ni_info n))) = SHA256;
  niw_narSize : 0 < narSize (info (ni_info n)) < 2 ^ 64;
  niw_refs : set_Forall sp_dashed (references (info (ni_info n)));
  niw_deriver : ∀ d, deriver (info (ni_info n)) = Some d → sp_dashed d;
  niw_sigs : set_Forall (λ s, newline ∉ s) (sigs (info (ni_info n)));
  niw_ca : ∀ c, ca (info (ni_info n)) = Some c →
    hash_regular (ca_hash c) ∧ algo_enabled xp (algo (ca_hash c)) ∧ ∃ s, CA_render xp c = Ok s;
}.

(** The fields that are not written have their defaults after reading. *)
Definition ni_stored (n : NarInfo) : NarInfo :=
  on_info (λ u, {| deriver := deriver u; narHash := narHash u; references := references u; registrationTime := 0;
                   narSize := narSize u; id := 0; ultimate := false; sigs := sigs u; ca := ca u |}) n.

Definition opt_field {A} (name : str) (f : A → str) (o : option A) : list (str * str) :=
  match o with Some x => [(name, f x)] | None => [] end.
Definition ca_text (c : ContentAddress) : str := match CA_render xp c with Ok s => s | Throw _ => [] end.
Definition hash_text (h : Hash) : str := match to_string h Bsd32 true with Ok s => s | Throw _ => [] end.

Definition ni_fields (n : NarInfo) (fh : Hash) : list (str * str) :=
  let u := info (ni_info n) in
  [("StorePath", printStorePath storeDir (path (ni_info n))); ("URL", url n); ("Compression", compression n);
   ("FileHash", hash_text fh); ("FileSize", std_to_string (fileSize n)); ("NarHash", hash_text (narHash u));
   ("NarSize", std_to_string (narSize u)); ("References", join " " (shortRefs (ni_info n)))]%str
  ++ opt_field "Deriver" baseName (deriver u) ++ map (λ s, ("Sig"%str, s)) (set_sorted (sigs u)) ++ opt_field "CA" ca_text (ca u).

Lemma NarInfo_to_string_fields n fh :
  ni_wf n → fileHash n = Some fh → NarInfo_to_string xp storeDir n = Ok (concat (map field_line (ni_fields n fh))).
Proof.
  intros W Ef. destruct (niw_fileHash n W) as (h & Eh & [Hw _] & Ha). rewrite Ef in Eh. injection Eh as <-.
  destruct (niw_narHash n W) as [[Hnw _] Hna]. destruct (hash32_text fh Hw) as (s1 & E1 & _).
  destruct (hash32_text _ Hnw) as (s2 & E2 & _). unfold NarInfo_to_string. cbv zeta. unfold str_eqb.
  rewrite (bool_decide_eq_false_2 (compression n = [])) by apply W. cbn [negb assertR mbind result_bind]. rewrite Ef.
  rewrite (bool_decide_eq_true_2 (algo fh = SHA256)) by done. cbn [assertR mbind result_bind]. rewrite E1. cbn [mbind result_bind].
  rewrite bool_decide_eq_true_2 by done. cbn [assertR mbind result_bind]. rewrite E2. cbn [mbind result_bind].
  unfold ni_fields. cbv zeta. unfold hash_text. rewrite E1, E2, concatStringsSep_join.
  assert (∀ l res, foldl (λ res sig, res ++ "Sig: " ++ sig ++ [newline]) res l =
    res ++ concat (map field_line (map (λ s, ("Sig"%str, s)) l))) as Hs.
  { induction l as [|s l IH]; intros res; cbn [foldl map concat]; [by rewrite app_nil_r|]. rewrite IH, <- app_assoc. done. }
  rewrite Hs, !map_app, !concat_app.
  assert (match ca (info (ni_info n)) with
     | Some c => ∃ s, renderContentAddress xp (Some c) = Ok s ∧ ca_text c = s
     | None => True end) as Hca.
  { destruct (ca (info (ni_info n))) as [c|] eqn:Ec; [|done]. destruct (niw_ca n W c Ec) as (_ & _ & s & Es).
    exists s. unfold ca_text. cbn. by rewrite Es. }
  destruct (ca (info (ni_info n))) as [c|]; [destruct Hca as (s & -> & <-)|]; cbn [mbind result_bind opt_field];
  f_equal; (destruct (deriver (info (ni_info n))); cbn [opt_field map concat];
    rewrite !field_line_eq, ?app_nil_r, <- !app_assoc; reflexivity).
Qed.

Lemma dashed_no_newline p : sp_dashed p → newline ∉ baseName p.
Proof using. intros Hp. eapply forallb_not_elem; [by apply sp_dashed_chars|done]. Qed.

Lemma CA_render_no_newline c s : hash_wf (ca_hash c) → CA_render xp c = Ok s → newline ∉ s.
Proof using.
  intros Hw. unfold CA_render. destruct (renderPrefixModern xp (ca_method c)) as [p|] eqn:Ep; cbn [mbind result_bind]; [|done].
  destruct (hash32_text _ Hw) as (h & -> & Hh). cbn [mbind result_bind]. intros [= <-]. rewrite not_elem_of_app. split.
  - revert Ep. unfold renderPrefixModern, makeFileIngestionPrefix, require_feature.
    destruct (ca_method c); cbn; try (destruct (isEnabled xp GitHashing); cbn); intros [= <-]; by apply (bool_decide_unpack _).
  - by eapply forallb_not_elem.
Qed.

Lemma hash_text_ok h :
  hash_regular h → algo h = SHA256 → (newline ∉ hash_text h) ∧ parseAnyPrefixed xp (hash_text h) = Ok h.
Proof using.
  intros Hr Ha. unfold hash_text. destruct (hash32_text h) as (s & Es & Hs); [by apply Hr|]. rewrite Es. split; [by eapply forallb_not_elem|].
  destruct (getParsed_prefixed h Bsd32) as (s' & Es' & Hg); [by apply Hr|]. rewrite Es in Es'. injection Es' as <-.
  unfold parseAnyPrefixed. rewrite Hg. apply (Hash_parse_body xp h Bsd32 Hr). by rewrite Ha.
Qed.

Lemma ni_fields_ok n fh : ni_wf n → fileHash n = Some fh → Forall field_ok (ni_fields n fh).
Proof using Hnl.
  intros W Ef. destruct (niw_fileHash n W) as (h & Eh & Hr & Ha). rewrite Ef in Eh. injection Eh as <-.
  destruct (niw_narHash n W) as [Hnr Hna]. pose proof (niw_fileSize n W). pose proof (niw_narSize n W).
  assert (∀ z, 0 ≤ z → newline ∉ std_to_string z) as Hz.
  { intros z ?. eapply forallb_not_elem; [by apply std_to_string_digits|done]. }
  unfold ni_fields. cbv zeta. rewrite !Forall_app, !Forall_cons. split_and!; unfold field_ok; cbn [fst snd];
    try (split; [by apply (bool_decide_unpack _)|]).
  - unfold printStorePath. rewrite !not_elem_of_app. split_and!; [done|by apply (bool_decide_unpack _)|]. apply dashed_no_newline, W.
  - apply W.
  - apply W.
  - by apply hash_text_ok.
  - apply Hz. lia.
  - by apply hash_text_ok.
  - apply Hz. lia.
  - apply not_elem_of_join; [by apply (bool_decide_unpack _)|]. unfold shortRefs. rewrite Forall_map. apply Forall_forall.
    intros p Hp%elem_of_set_sorted. cbn. by apply dashed_no_newline, W.
  - constructor.
  - destruct (deriver (info (ni_info n))) as [d|] eqn:Ed; [|constructor]. cbn [opt_field]. rewrite Forall_singleton. unfold field_ok. cbn [fst snd].
    split; [by apply (bool_decide_unpack _)|]. apply dashed_no_newline, (niw_deriver n W d Ed).
  - rewrite Forall_map. apply Forall_forall. intros s Hs%elem_of_set_sorted. unfold field_ok. cbn [compose fst snd]. split; [by apply (bool_decide_unpack _)|]. by apply W.
  - destruct (ca (info (ni_info n))) as [c|] eqn:Ec; [|constructor]. cbn [opt_field]. rewrite Forall_singleton. unfold field_ok. cbn [fst snd].
    split; [by apply (bool_decide_unpack _)|]. cbn [snd]. unfold ca_text. destruct (niw_ca n W c Ec) as (Hc & _ & s & Es). rewrite Es.
    eapply CA_render_no_newline; [|done]. by apply Hc.
Qed.

Lemma parse_references l :
  Forall sp_dashed l →
  tokenizeString (join " " (map baseName l)) " " = map baseName l ∧
  ∀ rs, foldR (λ (rs : gset StorePath) r, p ← StorePath_new r; Ok ({[p]} ∪ rs)) rs (map baseName l) = Ok (list_to_set l ∪ rs).
Proof using.
  intros Hl. split.
  - apply tokenize_join. rewrite Forall_map. eapply Forall_impl; [exact Hl|]. intros p Hp. cbn. split.
    + destruct Hp as [[(Hlen & _) _] _]. intros E. rewrite E in Hlen. cbn in Hlen. lia.
    + eapply forallb_not_elem; [by apply sp_dashed_chars|done].
  - induction Hl as [|p l [[Hp _] _] _ IH]; intros rs; cbn [map foldR list_to_set]; [by rewrite (left_id_L ∅ (∪))|].
    rewrite StorePath_new_ok by done. cbn [mbind result_bind]. rewrite IH. f_equal. destruct p. cbn. clear. set_solver.
Qed.

Lemma parseHashField_ok whence l h :
  hash_regular h → algo h = SHA256 → parseHashField xp whence l (hash_text h) = Ok h.
Proof using. intros Hr Ha. unfold parseHashField. by rewrite (proj2 (hash_text_ok h Hr Ha)). Qed.

Lemma parse_size z : 0 ≤ z < 2 ^ 64 → string2Int lexical_cast ULong (std_to_string z) = Some z.
Proof using LexicalCast0.
  intros Hz. rewrite string2Int_to_string by done. unfold representable. change (int_min ULong) with 0. change (int_max ULong) with (2 ^ 64 - 1).
  by rewrite !(proj2 (Z.leb_le _ _)) by lia.
Qed.

Lemma opt_deriver whence n p h d ls n2 p2 h2 :
  (∀ q, d = Some q → sp_dashed q) → deriver (info (ni_info n)) = None →
  reads xp storeDir lexical_cast whence ls (on_info (λ u, match d with Some q => with_deriver q u | None => u end) n) p h n2 p2 h2 →
  reads xp storeDir lexical_cast whence (opt_field "Deriver" baseName d ++ ls) n p h n2 p2 h2.
Proof using.
  intros Hd Hn Hr. destruct d as [q|]; cbn [opt_field app].
  - eapply reads_cons; [|exact Hr]. intros l. destruct (Hd q eq_refl) as [[Hq _] _].
    assert (str_eqb (baseName q) "unknown-deriver" = false) as Hu.
    { apply bool_decide_eq_false. intros E. destruct Hq as (Hlen & _). rewrite E in Hlen. cbn in Hlen. lia. }
    transitivity (if str_eqb (baseName q) "unknown-deriver" then Ok {| st_ni := n; line := l; havePath := p; haveNarHash := h |}
      else q ← StorePath_new (baseName q); Ok (set_ni (on_info (with_deriver q) n) {| st_ni := n; line := l; havePath := p; haveNarHash := h |}));
      [done|]. rewrite Hu, StorePath_new_ok by done. by destruct q.
  - replace n with (on_info (λ u, u) n) at 1; [done|]. by destruct n as [[]].
Qed.

Lemma opt_ca whence n p h c ls n2 p2 h2 :
  (∀ a, c = Some a → hash_regular (ca_hash a) ∧ algo_enabled xp (algo (ca_hash a)) ∧ ∃ s, CA_render xp a = Ok s) →
  ca (info (ni_info n)) = None →
  reads xp storeDir lexical_cast whence ls (on_info (with_ca c) n) p h n2 p2 h2 →
  reads xp storeDir lexical_cast whence (opt_field "CA" ca_text c ++ ls) n p h n2 p2 h2.
Proof using.
  intros Hc Hn Hr. destruct c as [a|]; cbn [opt_field app].
  - eapply reads_cons; [|exact Hr]. intros l. destruct (Hc a eq_refl) as (Ha & He & s & Es).
    cbn [fst snd]. unfold ca_text. rewrite Es.
    transitivity (match ca (info (ni_info n)) with
      | Some _ => Throw (corrupt whence l "extra CA")
      | None => c ← CA_parseOpt xp s; Ok (set_ni (on_info (with_ca c) n) {| st_ni := n; line := l; havePath := p; haveNarHash := h |}) end); [done|].
    rewrite Hn. by rewrite (proj2 (CA_parse_render xp a s Ha He Es)).
  - replace n with (on_info (with_ca None) n) at 1; [done|]. destruct n as [[[] ?]]. cbn in Hn. by subst.
Qed.

Lemma read_references_field whence n (i : ValidPathInfo) p h l :
  set_Forall sp_dashed (references (info i)) → references (info (ni_info n)) = ∅ →
  parse_field xp storeDir lexical_cast whence {| st_ni := n; line := l; havePath := p; haveNarHash := h |}
    "References" (join " " (shortRefs i)) =
  Ok {| st_ni := on_info (with_references (references (info i))) n; line := l; havePath := p; haveNarHash := h |}.
Proof using.
  intros Hi Hn. destruct (parse_references (set_sorted (references (info i)))) as [Ht Hf].
  { apply Forall_forall. intros q Hq%elem_of_set_sorted. by apply Hi. }
  transitivity (let refs := tokenizeString (join " " (shortRefs i)) " " in
    if negb (bool_decide (references (info (ni_info n)) = ∅)) then Throw (corrupt whence l "extra References")
    else rs ← foldR (λ rs r, p ← StorePath_new r; Ok ({[p]} ∪ rs)) (references (info (ni_info n))) refs;
      Ok {| st_ni := on_info (with_references rs) n; line := l; havePath := p; haveNarHash := h |}); [done|].
  cbv zeta. unfold shortRefs. rewrite Ht, Hn, bool_decide_eq_true_2 by done. cbn [negb]. rewrite Hf. cbn [mbind result_bind].
  by rewrite list_to_set_sorted, (right_id_L ∅ (∪)).
Qed.

Lemma ni_fields_read whence n fh :
  ni_wf n → fileHash n = Some fh →
  reads xp storeDir lexical_cast whence (ni_fields n fh) (st_ni ni_init) false false (ni_stored n) true true.
Proof using Hdir LexicalCast0.
  intros W Ef. destruct (niw_fileHash n W) as (h & Eh & Hr & Ha). rewrite Ef in Eh. injection Eh as <-.
  destruct (niw_narHash n W) as [Hnr Hna]. unfold ni_fields. cbv zeta. cbn [app].
  set (n0 := st_ni ni_init). set (u := info (ni_info n)).
  set (n1 := set_path (path (ni_info n)) n0). set (n2 := set_compression (compression n) (set_url (url n) n1)).
  set (n3 := set_fileSize (fileSize n) (set_fileHash fh n2)).
  set (n4 := on_info (with_narSize (narSize u)) (on_info (with_narHash (narHash u)) n3)).
  set (n5 := on_info (with_references (references u)) n4).
  apply (reads_cons _ _ _ _ _ _ n0 _ _ n1 true false).
  { intros l. transitivity (p ← parseStorePath storeDir (printStorePath storeDir (path (ni_info n)));
      Ok {| st_ni := set_path p n0; line := l; havePath := true; haveNarHash := false |}); [done|].
    rewrite parse_print; [done|done|]. apply W. }
  apply (reads_cons _ _ _ _ _ _ n1 _ _ (set_url (url n) n1) true false); [done|].
  apply (reads_cons _ _ _ _ _ _ _ _ _ n2 true false); [done|].
  apply (reads_cons _ _ _ _ _ _ _ _ _ (set_fileHash fh n2) true false).
  { intros l. transitivity (h ← parseHashField xp whence l (hash_text fh);
      Ok (set_ni (set_fileHash h n2) {| st_ni := n2; line := l; havePath := true; haveNarHash := false |})); [done|].
    by rewrite parseHashField_ok. }
  apply (reads_cons _ _ _ _ _ _ _ _ _ n3 true false).
  { intros l. transitivity (match string2Int lexical_cast ULong (std_to_string (fileSize n)) with
      | None => Throw (corrupt whence l "invalid FileSize")
      | Some z => Ok {| st_ni := set_fileSize z (set_fileHash fh n2); line := l; havePath := true; haveNarHash := false |} end); [done|].
    rewrite parse_size; [done|apply W]. }
  apply (reads_cons _ _ _ _ _ _ _ _ _ (on_info (with_narHash (narHash u)) n3) true true).
  { intros l. transitivity (h ← parseHashField xp whence l (hash_text (narHash u));
      Ok {| st_ni := on_info (with_narHash h) n3; line := l; havePath := true; haveNarHash := true |}); [done|].
    by rewrite parseHashField_ok. }
  apply (reads_cons _ _ _ _ _ _ _ _ _ n4 true true).
  { intros l. transitivity (match string2Int lexical_cast ULong (std_to_string (narSize u)) with
      | None => Throw (corrupt whence l "invalid NarSize")
      | Some z => Ok {| st_ni := on_info (with_narSize z) (on_info (with_narHash (narHash u)) n3); line := l; havePath := true; haveNarHash := true |} end); [done|].
    rewrite parse_size; [done|]. pose proof (niw_narSize n W). unfold u. lia. }
  apply (reads_cons _ _ _ _ _ _ _ _ _ n5 true true).
  { intros l. apply read_references_field; [apply W|done]. }
  apply opt_deriver; [apply W|done|]. rewrite <- (app_nil_r (opt_field "CA" ca_text (ca u))). apply reads_sigs, opt_ca; [apply W|by destruct (deriver u)|].
  apply reads_end. replace (list_to_set (set_sorted (sigs u)) ∪ _) with (sigs u).
  - unfold n5, n4, n3, n2, n1, n0, ni_stored, u. destruct n as [[[dr ? ? ? ? ? ? sg ?] ?] ? ? ? ?]. cbn [fileHash] in Ef.
    rewrite Ef. destruct dr; reflexivity.
  - rewrite list_to_set_sorted. destruct (deriver u); symmetry; apply (right_id_L ∅ (∪)).
Qed.
End roundtrip.

(** * What is accepted *)

Section accepted.
Context (xp : XpSettings) (storeDir : str) (lexical_cast : IntType → str → option Z) (whence : str).
Context `{!LexicalCast lexical_cast} (Hdir : store_dir_ok storeDir).

(** Fuel: the loop does not depend on it once it covers the text. *)
Lemma ni_loop_fuel f1 f2 s pos st :
  (length s <= f1 + pos)%nat → (length s <= f2 + pos)%nat →
  ni_loop xp storeDir lexical_cast f1 whence s pos st = ni_loop xp storeDir lexical_cast f2 whence s pos st.
Proof using.
  revert f2 pos st. induction f1 as [|f1 IH]; intros f2 pos st H1 H2.
  { destruct f2; cbn [ni_loop]; by rewrite (proj2 (Nat.ltb_ge _ _)) by lia. }
  destruct f2 as [|f2]; [cbn [ni_loop]; by rewrite (proj2 (Nat.ltb_ge _ _)) by lia|]. cbn [ni_loop].
  destruct (pos <? length s)%nat; [|done]. destruct (find_first_of s ":" pos) as [colon|] eqn:Ec; [|done].
  destruct (find_first_of s [newline] (colon + 2)) as [eol|] eqn:Ee; [|done]. cbv zeta.
  assert (pos <= colon ∧ colon < eol)%nat as [].
  { unfold find_first_of in Ec, Ee. apply fmap_Some in Ec as (x & _ & ->), Ee as (y & _ & ->). lia. }
  destruct (parse_field _ _ _ _ _ _ _); cbn [mbind result_bind]; [|done]. apply IH; lia.
Qed.

Record ni_good (st : ni_state) : Prop := {
  good_path : havePath st = true → sp_wf (path (ni_info (st_ni st)));
  good_narSize : 0 ≤ narSize (info (ni_info (st_ni st))) < 2 ^ 64;
  good_fileSize : 0 ≤ fileSize (st_ni st) < 2 ^ 64;
  good_refs : set_Forall (base_ok ∘ baseName) (references (info (ni_info (st_ni st))));
  good_deriver : ∀ d, deriver (info (ni_info (st_ni st))) = Some d → base_ok (baseName d);
  good_sigs : set_Forall (λ s, newline ∉ s) (sigs (info (ni_info (st_ni st))));
  good_url : newline ∉ url (st_ni st);
  good_compression : newline ∉ compression (st_ni st);
}.

Lemma ni_init_good : ni_good ni_init.
Proof using. split; cbn; try done; try (by apply not_elem_of_nil); try (intros x Hx; by apply not_elem_of_empty in Hx). Qed.

Lemma references_good l rs rs' :
  foldR (λ (rs : gset StorePath) r, p ← StorePath_new r; Ok ({[p]} ∪ rs)) rs l = Ok rs' →
  set_Forall (base_ok ∘ baseName) rs → set_Forall (base_ok ∘ baseName) rs'.
Proof using.
  revert rs. induction l as [|r l IH]; intros rs; cbn [foldR]; [by intros [= ->]|].
  destruct (StorePath_new r) as [p|] eqn:Ep; cbn [mbind result_bind]; [|done]. intros E Hr. apply (IH _ E).
  apply StorePath_new_inv in Ep as [Hb ->]. apply set_Forall_union; [|done]. by apply set_Forall_singleton.
Qed.

Lemma size_good v z : string2Int lexical_cast ULong v = Some z → 0 ≤ z < 2 ^ 64.
Proof using LexicalCast0.
  intros H%string2Int_representable; [|done]. apply representable_iff in H.
  change (int_min ULong) with 0 in H. change (int_max ULong) with (2 ^ 64 - 1) in H. lia.
Qed.

(** The fields of the invariant that an assignment does not touch. *)
Ltac keep_good G :=
  split; cbn -[Z.pow];
  first [exact (good_path _ G)|exact (good_narSize _ G)|exact (good_fileSize _ G)|exact (good_refs _ G)
        |exact (good_deriver _ G)|exact (good_sigs _ G)|exact (good_url _ G)|exact (good_compression _ G)|assumption|idtac].

Lemma parse_field_good st name value st' :
  ni_good st → newline ∉ value → parse_field xp storeDir lexical_cast whence st name value = Ok st' → ni_good st'.
Proof using LexicalCast0 Hdir.
  intros G Hv. unfold parse_field. cbv zeta.
  destruct (str_eqb name "StorePath").
  { destruct (parseStorePath storeDir value) as [p|] eqn:E; cbn [mbind result_bind]; [|done]. intros [= <-]. keep_good G.
    intros _. by eapply parse_sound. }
  destruct (str_eqb name "URL"); [intros [= <-]; keep_good G|].
  destruct (str_eqb name "Compression"); [intros [= <-]; keep_good G|].
  destruct (str_eqb name "FileHash").
  { destruct (parseHashField _ _ _ _); cbn [mbind result_bind]; [|done]. intros [= <-]. keep_good G. }
  destruct (str_eqb name "FileSize").
  { destruct (string2Int _ _ _) eqn:E; [|done]. apply size_good in E. intros [= <-]. keep_good G. }
  destruct (str_eqb name "NarHash").
  { destruct (parseHashField _ _ _ _); cbn [mbind result_bind]; [|done]. intros [= <-]. keep_good G. }
  destruct (str_eqb name "NarSize").
  { destruct (string2Int _ _ _) eqn:E; [|done]. apply size_good in E. intros [= <-]. keep_good G. }
  destruct (str_eqb name "References").
  { destruct (negb _); [done|]. destruct (foldR _ _ _) as [rs|] eqn:E; cbn [mbind result_bind]; [|done]. intros [= <-].
    apply references_good in E; [|by apply G]. keep_good G. }
  destruct (str_eqb name "Deriver").
  { destruct (str_eqb value "unknown-deriver"); [by intros [= <-]|]. destruct (StorePath_new value) as [p|] eqn:E; cbn [mbind result_bind]; [|done].
    apply StorePath_new_inv in E as [Hb ->]. intros [= <-]. keep_good G. by intros d [= <-]. }
  destruct (str_eqb name "Sig").
  { intros [= <-]. keep_good G. apply set_Forall_union; [by apply set_Forall_singleton|exact (good_sigs _ G)]. }
  destruct (str_eqb name "CA"); [|by intros [= <-]].
  destruct (ca _); [done|]. destruct (CA_parseOpt _ _); cbn [mbind result_bind]; [|done]. intros [= <-]. keep_good G.
Qed.

Lemma value_no_newline s colon eol :
  find_first_of s [newline] (colon + 2) = Some eol → newline ∉ substr s (colon + 2) (eol - colon - 2).
Proof using.
  unfold find_first_of. intros (y & Hy & ->)%fmap_Some. unfold substr.
  replace (colon + 2 + y - colon - 2)%nat with y by lia. apply find_idx_Some in Hy as (_ & Hy & _).
  eapply forallb_not_elem; [exact Hy|]. apply negb_false_iff, bool_decide_eq_true. by apply list_elem_of_singleton.
Qed.

Lemma ni_loop_good fuel s pos st st' :
  ni_good st → ni_loop xp storeDir lexical_cast fuel whence s pos st = Ok st' → ni_good st'.
Proof using LexicalCast0 Hdir.
  revert pos st. induction fuel as [|fuel IH]; intros pos st G; cbn [ni_loop].
  { destruct (pos <? length s)%nat; [done|]. by intros [= <-]. }
  destruct (pos <? length s)%nat; [|by intros [= <-]]. destruct (find_first_of s ":" pos) as [colon|]; [|done].
  destruct (find_first_of s [newline] (colon + 2)) as [eol|] eqn:Ee; [|done]. cbv zeta.
  destruct (parse_field _ _ _ _ _ _ _) as [st1|] eqn:Ep; cbn [mbind result_bind]; [|done].
  apply IH. apply parse_field_good in Ep; [|done|by apply value_no_newline]. keep_good Ep.
Qed.
End accepted.

(** * Properties *)

(** [C23] An index entry survives its text: whatever can be written is read back
    with every field that is written, signatures and references included; the
    registration time and the flags of the local store get their defaults. *)
Theorem narinfo_roundtrip xp storeDir lexical_cast `{!LexicalCast lexical_cast} n whence :
  store_dir_ok storeDir → newline ∉ storeDir → ni_wf xp n →
  ∃ s, NarInfo_to_string xp storeDir n = Ok s ∧ NarInfo_parse xp storeDir lexical_cast s whence = Ok (ni_stored n).
Proof.
  intros Hd Hnl W. destruct (niw_fileHash _ n W) as (fh & Ef & _).
  exists (concat (map field_line (ni_fields xp storeDir n fh))). split; [by apply NarInfo_to_string_fields|].
  destruct (ni_fields_read xp storeDir lexical_cast Hd whence n fh W Ef ni_init) as (st & Est & En & Ep & Eh); [done..|].
  pose proof (ni_fields_ok xp storeDir Hnl n fh W Ef) as Hok.
  unfold NarInfo_parse. rewrite (ni_loop_fields xp storeDir lexical_cast whence (ni_fields xp storeDir n fh) []); [|done|].
  - rewrite Est. cbn [mbind result_bind]. rewrite En, Ep, Eh. cbn [negb orb]. cbv zeta.
    unfold str_eqb. rewrite (bool_decide_eq_false_2 (compression (ni_stored n) = [])) by apply W.
    rewrite (bool_decide_eq_false_2 (url (ni_stored n) = [])) by apply W.
    pose proof (niw_narSize _ n W). change (narSize (info (ni_info (ni_stored n)))) with (narSize (info (ni_info n))).
    by rewrite (proj2 (Z.eqb_neq _ 0)) by lia.
  - clear. induction (ni_fields xp storeDir n fh) as [|[a b] l IH]; [done|]. cbn [map concat length].
    rewrite field_line_eq, !length_app. cbn [length]. cbn. lia.
Qed.

(** Whatever text is accepted as an index entry, the result is usable: the
    path belongs to the store, there is a URL and a compression method, the
    sizes fit 64 bits and that of the archive is not zero, the references and
    the deriver are store paths, and no signature spans lines, so that it can
    be written again. The loop needs no more rounds than the text has
    characters. *)
Theorem narinfo_accepted xp storeDir lexical_cast `{!LexicalCast lexical_cast} s whence n :
  store_dir_ok storeDir → NarInfo_parse xp storeDir lexical_cast s whence = Ok n →
  (sp_wf (path (ni_info n)) ∧ url n ≠ [] ∧ compression n ≠ [] ∧ 0 < narSize (info (ni_info n)) < 2 ^ 64 ∧
   0 ≤ fileSize n < 2 ^ 64 ∧ set_Forall (base_ok ∘ baseName) (references (info (ni_info n))) ∧
   (∀ d, deriver (info (ni_info n)) = Some d → base_ok (baseName d)) ∧
   set_Forall (λ sig, newline ∉ sig) (sigs (info (ni_info n)))) ∧
  ∀ k, ni_loop xp storeDir lexical_cast (length s + k) whence s 0 ni_init =
       ni_loop xp storeDir lexical_cast (length s) whence s 0 ni_init.
Proof.
  intros Hd. unfold NarInfo_parse. destruct (ni_loop _ _ _ _ _ _ _ _) as [st|] eqn:El; cbn [mbind result_bind]; [|done].
  pose proof (ni_loop_good _ _ _ _ Hd _ _ _ _ _ ni_init_good El) as G. cbv zeta.
  set (m := if str_eqb (compression (st_ni st)) [] then set_compression "bzip2" (st_ni st) else st_ni st).
  assert (ni_info m = ni_info (st_ni st) ∧ fileSize m = fileSize (st_ni st) ∧ url m = url (st_ni st) ∧ compression m ≠ []) as (Ei & Es & Eu & Ec).
  { unfold m, str_eqb. case_bool_decide; done. }
  destruct (havePath st) eqn:Hp; cbn [negb orb]; [|done]. destruct (haveNarHash st); cbn [negb orb]; [|done].
  unfold str_eqb. case_bool_decide as Hu; cbn [orb]; [done|]. destruct (narSize (info (ni_info m)) =? 0) eqn:Ez; [done|].
  intros [= <-]. apply Z.eqb_neq in Ez. pose proof (good_narSize st G) as Hz. rewrite Ei in Ez. rewrite Ei, Es. split.
  - split_and!; try apply G; try done; lia.
  - intros k. by rewrite <- El, (ni_loop_fuel _ _ _ _ (length s + k) (length s)) by lia.
Qed.

Definition sample_narinfo : NarInfo := {|
  ni_info := {| info := {| deriver := Some sample_path; narHash := zero_hash SHA256 []; references := {[sample_path]};
                           registrationTime := 0; narSize := 120; id := 0; ultimate := false;
                           sigs := {["cache-1:abc"%str; "cache-2:def"%str]};
                           ca := Some {| ca_method := CAM_BsdArchive; ca_hash := zero_hash SHA256 [] |} |};
                path := sample_path |};
  url := "nar/0.nar.xz"; compression := "xz"; fileHash := Some (zero_hash SHA256 []); fileSize := 100 |}.

Lemma sample_narinfo_wf : ni_wf [] sample_narinfo.
Proof.
  assert (sp_dashed sample_path) as Hs by apply (wf_path _ (sample_info_wf ∅)).
  pose proof (proj1 (zero_hash_ok SHA256 [])) as Hz.
  split; cbn [sample_narinfo ni_info info path url compression fileHash fileSize narHash narSize references deriver sigs ca].
  - exact Hs.
  - split; [discriminate|]. apply (bool_decide_unpack _). exact I.
  - split; [discriminate|]. apply (bool_decide_unpack _). exact I.
  - eauto.
  - lia.
  - done.
  - lia.
  - by apply set_Forall_singleton.
  - by intros d [= <-].
  - apply set_Forall_union; apply set_Forall_singleton; apply (bool_decide_unpack _); exact I.
  - intros c [= <-]. cbn [ca_hash]. split; [done|]. split; [done|]. eexists. vm_compute. reflexivity.
Qed.

Lemma store_dir_sample : store_dir_ok "/bsd/store".
Proof. exists ["bsd"; "store"]%str. split; [done|]. split; [|done]. apply (bool_decide_unpack _). vm_compute. exact I. Qed.

Lemma narinfo_roundtrip_witness :
  ∃ s, NarInfo_to_string [] "/bsd/store" sample_narinfo = Ok s ∧
    NarInfo_parse [] "/bsd/store" plain_cast s "x" = Ok (ni_stored sample_narinfo).
Proof.
  apply (narinfo_roundtrip [] "/bsd/store" plain_cast sample_narinfo "x" store_dir_sample); [|apply sample_narinfo_wf].
  apply (bool_decide_unpack _). exact I.
Defined.

Definition sample_text : str := match NarInfo_to_string [] "/bsd/store" sample_narinfo with Ok s => s | Throw _ => [] end.
Lemma narinfo_accepted_witness :
  match NarInfo_parse [] "/bsd/store" plain_cast sample_text "x" with
  | Ok n => sp_wf (path (ni_info n))
  | Throw _ => False
  end.
Proof.
  destruct (NarInfo_parse [] "/bsd/store" plain_cast sample_text "x") as [n|e] eqn:E.
  - apply (narinfo_accepted [] "/bsd/store" plain_cast sample_text "x" n store_dir_sample E).
  - apply (f_equal is_ok) in E. vm_compute in E. discriminate E.
Defined.
