(* ===== verification/Aterm.v ===== *)
(** The ATerm lexical layer of [libstore/derivations.cc]: the string stream,
    string literals, lists.

    A parser takes the remaining input and returns a value with the input
    left over; [pok p w a] says that [p] reads [w] as [a], whatever follows. *)

From S2P Require Import Prelude Strings FileSystem.

Abbreviation Parser A := (str → result (A * str)).

(** * Reading *)

(** [StringViewStream::peek]; [None] is [EOF]. *)
Definition peek (s : str) : option ascii := head s.

Definition expect (w : str) : Parser unit := λ s,
  if bool_decide (take (length w) s = w) then Ok (tt, drop (length w) s)
  else Throw (FormatError "expected string").

Definition backslash_c : ascii := "092"%char.

(** The table [Escapes]. *)
Definition escapes (c : ascii) : ascii :=
  if bool_decide (c = "n"%char) then "010"%char
  else if bool_decide (c = "r"%char) then "013"%char
  else if bool_decide (c = "t"%char) then "009"%char
  else c.

(** The loop of [parseString] up to the closing quote: content length,
    whether there was an escape, whether a quote was found before the end. *)
Fixpoint scan (s : str) : result (nat * bool * bool) :=
  match s with
  | [] => Ok (0%nat, false, false)
  | c :: s =>
      if bool_decide (c = dquote) then Ok (0%nat, false, true)
      else if bool_decide (c = backslash_c) then
        match s with
        | [] => Throw (FormatError "unterminated string in derivation")
        | _ :: s => '(n, _, closed) ← scan s; Ok (S (S n), true, closed)
        end
      else '(n, escaped, closed) ← scan s; Ok (S n, escaped, closed)
  end.

Fixpoint unescape (s : str) : str :=
  match s with
  | [] => []
  | c :: s =>
      if bool_decide (c = backslash_c) then
        match s with [] => [] | d :: s => escapes d :: unescape s end
      else c :: unescape s
  end.

(** [parseString]. Without a closing quote, [remove_prefix] is asked to remove
    one character more than there are. *)
Definition parseString : Parser str := λ s,
  '(_, s) ← expect [dquote] s;
  '(contentLen, escaped, closed) ← scan s;
  let content := take contentLen s in
  if negb closed then Throw UndefinedBehaviour
  else Ok (if escaped : bool then unescape content else content, drop (contentLen + 1) s).

Definition validatePath (s : str) : result unit :=
  match s with
  | c :: _ => if bool_decide (c = "/"%char) then Ok tt else Throw (FormatError "bad path in derivation")
  | [] => Throw (FormatError "bad path in derivation")
  end.

Definition parsePath : Parser str := λ s,
  '(p, s) ← parseString s; _ ← validatePath p; Ok (p, s).

Definition endOfList (s : str) : bool * str :=
  match peek s with
  | Some c =>
      if bool_decide (c = ","%char) then (false, drop 1 s)
      else if bool_decide (c = "]"%char) then (true, drop 1 s)
      else (false, s)
  | None => (false, s)
  end.

(** [while (!endOfList(str)) ins(elem(str))]. An element is never empty, so
    the remaining input bounds the number of rounds. *)
Fixpoint list_loop {A B} (elem : Parser A) (ins : B → A → B) (fuel : nat) (acc : B) (s : str)
    : result (B * str) :=
  match fuel with
  | O => Throw NonTermination
  | S fuel =>
      let '(e, s) := endOfList s in
      if e then Ok (acc, s)
      else '(x, s) ← elem s; list_loop elem ins fuel (ins acc x) s
  end.
Definition while_list {A B} (elem : Parser A) (ins : B → A → B) (acc : B) : Parser B := λ s,
  list_loop elem ins (S (length s)) acc s.

Definition parseStrings (arePaths : bool) : Parser (gset str) := λ s,
  '(_, s) ← expect "[" s;
  while_list (if arePaths then parsePath else parseString) (λ (res : gset str) x, {[x]} ∪ res) ∅ s.

(** * Writing *)

Definition print_char (c : ascii) : str :=
  if bool_decide (c = dquote) || bool_decide (c = backslash_c) then [backslash_c; c]
  else if bool_decide (c = "010"%char) then [backslash_c; "n"%char]
  else if bool_decide (c = "013"%char) then [backslash_c; "r"%char]
  else if bool_decide (c = "009"%char) then [backslash_c; "t"%char]
  else [c].

Definition printString (s : str) : str := [dquote] ++ concat (map print_char s) ++ [dquote].
Definition printUnquotedString (s : str) : str := [dquote] ++ s ++ [dquote].

(** Elements separated by commas: the [first] flag of the printing loops. *)
Definition print_sep {A} (pr : A → str) (l : list A) : str :=
  (foldl (λ (st : bool * str) x, (false, (if st.1 then st.2 else st.2 ++ ",") ++ pr x)) (true, []) l).2.
Definition printStrings (l : list str) : str := "[" ++ print_sep printString l ++ "]".
Definition printUnquotedStrings (l : list str) : str := "[" ++ print_sep printUnquotedString l ++ "]".

(** * What parsers read *)

Definition pok {A} (p : Parser A) (w : str) (a : A) : Prop := ∀ rest, p (w ++ rest) = Ok (a, rest).

Lemma pok_ret {A} (a : A) : pok (λ s, Ok (a, s)) [] a.
Proof. by intros rest. Qed.

Lemma pok_bind {A B} (p : Parser A) (k : A → Parser B) w1 w2 a b :
  pok p w1 a → pok (k a) w2 b → pok (λ s, '(x, s) ← p s; k x s) (w1 ++ w2) b.
Proof. intros H1 H2 rest. rewrite <- app_assoc, H1. apply H2. Qed.

Lemma pok_bind_ret {A B} (p : Parser A) (k : A → Parser B) w a b :
  pok p w a → (∀ s, k a s = Ok (b, s)) → pok (λ s, '(x, s) ← p s; k x s) w b.
Proof. intros H1 H2 rest. rewrite H1. apply H2. Qed.

Lemma pok_pure {A B} (o : result A) (k : A → Parser B) w a b :
  o = Ok a → pok (k a) w b → pok (λ s, x ← o; k x s) w b.
Proof. by intros ->. Qed.

Lemma pok_expect w : pok (expect w) w tt.
Proof. intros rest. unfold expect. rewrite take_app_length, drop_app_length. by rewrite bool_decide_true. Qed.

(** ** String literals *)

Lemma scan_esc s rest :
  ∃ e, scan (concat (map print_char s) ++ dquote :: rest) = Ok (length (concat (map print_char s)), e, true) ∧
    (e = false → concat (map print_char s) = s).
Proof.
  induction s as [|c s (e & IH & He)].
  { exists false. split; [|done]. cbn. by rewrite bool_decide_true. }
  cbn [map concat]. rewrite <- app_assoc. unfold print_char at 1 3 5.
  repeat case_bool_decide; cbn [orb app scan length]; rewrite ?bool_decide_true, ?bool_decide_false by done;
    rewrite IH; cbn [mbind result_bind].
  all: try (exists true; split; [done|done]).
  exists e. split; [done|]. intros E. by rewrite He.
Qed.

Lemma unescape_esc s : unescape (concat (map print_char s)) = s.
Proof.
  induction s as [|c s IH]; [done|]. cbn [map concat]. unfold print_char at 1.
  repeat case_bool_decide; subst; cbn [orb app unescape]; rewrite ?bool_decide_true, ?bool_decide_false by done;
    by rewrite IH.
Qed.

Lemma pok_parseString s : pok parseString (printString s) s.
Proof.
  intros rest. unfold parseString, printString. rewrite <- !app_assoc.
  pose proof (pok_expect [dquote]) as He. rewrite He. cbn [mbind result_bind]. change ([dquote] ++ rest) with (dquote :: rest).
  destruct (scan_esc s rest) as (e & -> & Hs). cbn [mbind result_bind negb].
  rewrite take_app_length. f_equal. f_equal.
  - destruct e; [apply unescape_esc|by apply Hs].
  - replace (length _ + 1)%nat with (S (length (concat (map print_char s)))) by lia.
    by rewrite drop_app_cons_length.
Qed.

(** Text that needs no escaping, and may be printed unquoted. *)
Definition raw_ok (s : str) : Prop :=
  forallb (λ c, negb (bool_decide (c = dquote) || bool_decide (c = backslash_c))) s = true.

Lemma scan_raw s rest : raw_ok s → scan (s ++ dquote :: rest) = Ok (length s, false, true).
Proof.
  unfold raw_ok. induction s as [|c s IH]; cbn [forallb app scan length]; intros Hr.
  { by rewrite bool_decide_true. }
  apply andb_true_iff in Hr as [Hc Hr]. apply negb_true_iff, orb_false_iff in Hc as [-> ->].
  by rewrite IH.
Qed.

Lemma pok_parseString_raw s : raw_ok s → pok parseString (printUnquotedString s) s.
Proof.
  intros Hr rest. unfold parseString, printUnquotedString. rewrite <- !app_assoc.
  pose proof (pok_expect [dquote]) as He. rewrite He. cbn [mbind result_bind]. change ([dquote] ++ rest) with (dquote :: rest).
  rewrite scan_raw by done. cbn [mbind result_bind negb]. rewrite take_app_length.
  replace (length s + 1)%nat with (S (length s)) by lia. by rewrite drop_app_cons_length.
Qed.

Lemma pok_parsePath s : raw_ok s → head s = Some "/"%char → pok parsePath (printUnquotedString s) s.
Proof.
  intros Hr Hh rest. unfold parsePath. rewrite (pok_parseString_raw s Hr rest). cbn [mbind result_bind].
  destruct s as [|c s]; [done|]. cbn in Hh. injection Hh as ->. done.
Qed.

(** ** Lists *)

Lemma print_sep_join {A} (pr : A → str) l : print_sep pr l = join "," (map pr l).
Proof.
  unfold print_sep. destruct l as [|x l]; [done|]. cbn [foldl map fst snd app].
  assert (∀ l w, (foldl (λ (st : bool * str) y, (false, (if st.1 then st.2 else st.2 ++ ",") ++ pr y)) (false, w) l).2
    = w ++ concat (map (λ y, "," ++ pr y) l)) as Hgo.
  { clear. induction l as [|y l IH]; intros w; cbn [foldl map concat fst snd]; [by rewrite app_nil_r|].
    rewrite IH. by rewrite <- !app_assoc. }
  rewrite Hgo. clear Hgo. revert x. induction l as [|y l IH]; intros x; [cbn; by rewrite app_nil_r|].
  cbn [map concat]. rewrite join_cons by done. rewrite <- (IH y). by rewrite <- app_assoc.
Qed.

(** The first character of a printed element tells it from the end of the
    list and from a separator. *)
Definition elem_start (w : str) : Prop :=
  match w with c :: _ => c ≠ ","%char ∧ c ≠ "]"%char | [] => False end.

Lemma endOfList_elem w rest : elem_start w → endOfList (w ++ rest) = (false, w ++ rest).
Proof. destruct w as [|c w]; [done|]. intros [H1 H2]. unfold endOfList. cbn. by rewrite !bool_decide_false. Qed.

Section lists.
Context {A B : Type} (elem : Parser A) (ins : B → A → B) (pr : A → str).

Lemma list_loop_rest l acc fuel rest :
  Forall (λ x, pok elem (pr x) x) l → (length l < fuel)%nat →
  list_loop elem ins fuel acc (concat (map (λ x, "," ++ pr x) l) ++ "]" ++ rest) = Ok (foldl ins acc l, rest).
Proof.
  intros Hl. revert acc fuel. induction Hl as [|x l Hx Hl IH]; intros acc [|fuel] Hf; cbn [length] in Hf; try lia.
  - done.
  - cbn [map concat list_loop]. rewrite <- !app_assoc. cbn [app]. unfold endOfList at 1. cbn [peek head].
    rewrite bool_decide_true by done. cbn [drop]. change (drop 0 ?z) with z. rewrite Hx. cbn [mbind result_bind foldl].
    apply IH. lia.
Qed.

Lemma pok_list l acc :
  Forall (λ x, pok elem (pr x) x ∧ elem_start (pr x)) l →
  pok (while_list elem ins acc) (print_sep pr l ++ "]") (foldl ins acc l).
Proof.
  intros Hl rest. rewrite print_sep_join, <- app_assoc. unfold while_list.
  assert (Forall (λ x, pok elem (pr x) x) l) as Hl' by (eapply Forall_impl; [exact Hl|]; by intros x []).
  destruct l as [|x l]; [done|]. inversion Hl as [|? ? [Hx Hs] _]; subst. inversion Hl' as [|? ? _ Hll]; subst.
  assert (join "," (map pr (x :: l)) = pr x ++ concat (map (λ y, "," ++ pr y) l)) as ->.
  { clear. revert x. induction l as [|y l IH]; intros x; [cbn; by rewrite app_nil_r|].
    cbn [map]. rewrite join_cons by done. cbn [map] in IH. rewrite (IH y). cbn [concat]. by rewrite <- app_assoc. }
  rewrite <- app_assoc. cbn [list_loop]. rewrite endOfList_elem by done. rewrite Hx. cbn [mbind result_bind foldl].
  apply list_loop_rest; [done|].
  rewrite !length_app. assert (length l <= length (concat (map (λ y, "," ++ pr y) l)))%nat as Hlen.
  { clear. induction l as [|y l IH]; cbn [map concat length]; [lia|]. rewrite !length_app. cbn [length]. lia. }
  destruct (pr x); [done|]. cbn [length]. lia.
Qed.
End lists.

Lemma elem_start_quoted s : elem_start (printString s).
Proof. done. Qed.
Lemma elem_start_unquoted s : elem_start (printUnquotedString s).
Proof. done. Qed.

Lemma foldl_insert_set (l : list str) (acc : gset str) :
  foldl (λ (res : gset str) x, {[x]} ∪ res) acc l = list_to_set l ∪ acc.
Proof.
  revert acc. induction l as [|x l IH]; intros acc; cbn; [set_solver|]. rewrite IH. set_solver.
Qed.

Lemma pok_parseStrings (v : gset str) :
  (∀ s, s ∈ v → raw_ok s) → pok (parseStrings false) (printUnquotedStrings (set_sorted v)) v.
Proof.
  intros Hv. unfold printUnquotedStrings. eapply (pok_bind (expect _)); [apply pok_expect|]. cbn beta.
  assert (v = foldl (λ (res : gset str) x, {[x]} ∪ res) ∅ (set_sorted v)) as Ev.
  { rewrite foldl_insert_set, list_to_set_sorted. set_solver. }
  rewrite Ev at 2. apply pok_list. apply Forall_forall. intros s Hs. apply elem_of_set_sorted in Hs.
  split; [apply pok_parseString_raw; auto|done].
Qed.
