(* ===== verification/Derivation.v ===== *)
(** Derivations: [libstore/derivations.cc] and
    [libstore/include/bsd/store/derivations.hh].

    The ATerm format ([unparse], [parseDerivation]), the kinds of derivations,
    the hashes of derivations modulo fixed outputs with their cache, the wire
    format and rewriting. One set of experimental features stands for the
    [xpSettings] argument and for its default, the global settings. *)

From S2P Require Import Prelude Strings Xp Hash CanonPath Serialise FileSystem StorePath ContentAddress Aterm.

(** * Data *)

Inductive DerivationOutput :=
  | InputAddressed (path : StorePath)
  | CAFixed (ca : ContentAddress)
  | CAFloating (method : ContentAddressMethod) (hashAlgo : HashAlgorithm)
  | Deferred
  | Impure (method : ContentAddressMethod) (hashAlgo : HashAlgorithm).

Inductive DerivationType :=
  | DT_InputAddressed (deferred : bool)
  | DT_ContentAddressed (sandboxed fixed : bool)
  | DT_Impure.

(** [DerivedPathMap<StringSet>::ChildNode]. *)
Inductive ChildNode := MkNode (value : gset str) (childMap : list (str * ChildNode)).
Definition node_value (n : ChildNode) : gset str := let 'MkNode v _ := n in v.
Definition node_childMap (n : ChildNode) : list (str * ChildNode) := let 'MkNode _ m := n in m.

Record BasicDerivation := {
  outputs : gmap str DerivationOutput;
  inputSrcs : gset StorePath;
  platform : str;
  builder : str;
  args : list str;
  env : gmap str str;
  drv_name : str;
}.
Record Derivation := { basic : BasicDerivation; inputDrvs : gmap StorePath ChildNode }.

(** * Kinds of derivations *)

Definition isCA (t : DerivationType) : bool :=
  match t with DT_InputAddressed _ => false | DT_ContentAddressed _ _ => true | DT_Impure => true end.
Definition isFixed (t : DerivationType) : bool :=
  match t with DT_InputAddressed _ => false | DT_ContentAddressed _ fixed => fixed | DT_Impure => false end.
Definition hasKnownOutputPaths (t : DerivationType) : bool :=
  match t with DT_InputAddressed deferred => negb deferred | DT_ContentAddressed _ fixed => fixed | DT_Impure => false end.
Definition isSandboxed (t : DerivationType) : bool :=
  match t with DT_InputAddressed _ => true | DT_ContentAddressed sandboxed _ => sandboxed | DT_Impure => false end.
Definition isImpure (t : DerivationType) : bool :=
  match t with DT_InputAddressed _ => false | DT_ContentAddressed _ _ => false | DT_Impure => true end.

Definition isBuiltin (drv : BasicDerivation) : bool := str_eqb (take 8 (builder drv)) "builtin:".

(** The sets [type] collects, and the algorithm of the floating outputs. *)
Record type_state := {
  inputAddressedOutputs : gset str; fixedCAOutputs : gset str; floatingCAOutputs : gset str;
  deferredIAOutputs : gset str; impureOutputs : gset str; floatingHashAlgo : option HashAlgorithm;
}.
Definition type_init : type_state :=
  {| inputAddressedOutputs := ∅; fixedCAOutputs := ∅; floatingCAOutputs := ∅; deferredIAOutputs := ∅;
     impureOutputs := ∅; floatingHashAlgo := None |}.

Definition type_step (st : type_state) (i : str * DerivationOutput) : result type_state :=
  let '{| inputAddressedOutputs := ia; fixedCAOutputs := fi; floatingCAOutputs := fl;
          deferredIAOutputs := de; impureOutputs := im; floatingHashAlgo := a |} := st in
  match i.2 with
  | InputAddressed _ => Ok {| inputAddressedOutputs := {[i.1]} ∪ ia; fixedCAOutputs := fi; floatingCAOutputs := fl;
                              deferredIAOutputs := de; impureOutputs := im; floatingHashAlgo := a |}
  | CAFixed _ => Ok {| inputAddressedOutputs := ia; fixedCAOutputs := {[i.1]} ∪ fi; floatingCAOutputs := fl;
                       deferredIAOutputs := de; impureOutputs := im; floatingHashAlgo := a |}
  | CAFloating _ ha =>
      let st a := {| inputAddressedOutputs := ia; fixedCAOutputs := fi; floatingCAOutputs := {[i.1]} ∪ fl;
                     deferredIAOutputs := de; impureOutputs := im; floatingHashAlgo := a |} in
      match a with
      | None => Ok (st (Some ha))
      | Some a => if bool_decide (a = ha) then Ok (st (Some a))
                  else Throw (Error "all floating outputs must use the same hash algorithm")
      end
  | Deferred => Ok {| inputAddressedOutputs := ia; fixedCAOutputs := fi; floatingCAOutputs := fl;
                      deferredIAOutputs := {[i.1]} ∪ de; impureOutputs := im; floatingHashAlgo := a |}
  | Impure _ _ => Ok {| inputAddressedOutputs := ia; fixedCAOutputs := fi; floatingCAOutputs := fl;
                        deferredIAOutputs := de; impureOutputs := {[i.1]} ∪ im; floatingHashAlgo := a |}
  end.

Definition empty_set (s : gset str) : bool := bool_decide (s = ∅).

(** [BasicDerivation::type]. *)
Definition drv_type (drv : BasicDerivation) : result DerivationType :=
  st ← foldR type_step type_init (map_sorted (outputs drv));
  let ia := empty_set (inputAddressedOutputs st) in let fi := empty_set (fixedCAOutputs st) in
  let fl := empty_set (floatingCAOutputs st) in let de := empty_set (deferredIAOutputs st) in
  let im := empty_set (impureOutputs st) in
  if ia && fi && fl && de && im then Throw (Error "must have at least one output")
  else if negb ia && fi && fl && de && im then Ok (DT_InputAddressed false)
  else if ia && negb fi && fl && de && im then
    if (1 <? size (fixedCAOutputs st))%nat then Throw (Error "only one fixed output is allowed for now")
    else if negb (bool_decide (head (set_sorted (fixedCAOutputs st)) = Some "out"%str)) then
      Throw (Error "single fixed output must be named out")
    else Ok (DT_ContentAddressed false true)
  else if ia && fi && negb fl && de && im then Ok (DT_ContentAddressed true false)
  else if ia && fi && fl && negb de && im then Ok (DT_InputAddressed true)
  else if ia && fi && fl && de && negb im then Ok DT_Impure
  else Throw (Error "can't mix derivation output types").

(** * Output paths *)

Section drv.
Context (xp : XpSettings) (storeDir : str) (hashString : HashAlgorithm → str → Hash).

Definition CAFixed_path (ca : ContentAddress) (drvName outputName : str) : result StorePath :=
  makeFixedOutputPathFromCA xp storeDir hashString (outputPathName drvName outputName) (withoutRefs ca).

Definition DerivationOutput_path (o : DerivationOutput) (drvName outputName : str) : result (option StorePath) :=
  match o with
  | InputAddressed path => Ok (Some path)
  | CAFixed ca => p ← CAFixed_path ca drvName outputName; Ok (Some p)
  | CAFloating _ _ => Ok None
  | Deferred => Ok None
  | Impure _ _ => Ok None
  end.

Definition outputNames (drv : BasicDerivation) : gset str := dom (outputs drv).

Definition outputsAndOptPaths (drv : BasicDerivation)
    : result (list (str * (DerivationOutput * option StorePath))) :=
  mapR (λ no : str * DerivationOutput,
    p ← DerivationOutput_path no.2 (drv_name drv) no.1; Ok (no.1, (no.2, p))) (map_sorted (outputs drv)).

Definition nameFromPath (drvPath : StorePath) : result str :=
  _ ← requireDerivation drvPath;
  Ok (take (length (sp_name drvPath) - length drvExtension) (sp_name drvPath)).

(** * Parsing *)

(** [parseDerivationOutput] from the three strings of an output. *)
Definition parseDerivationOutput (pathS hashAlgoStr hashS : str) : result DerivationOutput :=
  if negb (str_eqb hashAlgoStr "") then
    '(method, hashAlgoStr) ← parsePrefix xp hashAlgoStr;
    _ ← (if bool_decide (method = CAM_Text) then require_feature xp DynamicDerivations else Ok tt);
    hashAlgo ← parseHashAlgo hashAlgoStr;
    if str_eqb hashS "impure" then
      _ ← require_feature xp ImpureDerivations;
      if negb (str_eqb pathS "") then
        Throw (FormatError "impure derivation output should not specify output path")
      else Ok (Impure method hashAlgo)
    else if negb (str_eqb hashS "") then
      _ ← validatePath pathS;
      h ← parseNonSRIUnprefixed xp hashS hashAlgo;
      Ok (CAFixed {| ca_method := method; ca_hash := h |})
    else
      _ ← require_feature xp CaDerivations;
      if negb (str_eqb pathS "") then
        Throw (FormatError "content-addressing derivation output should not specify output path")
      else Ok (CAFloating method hashAlgo)
  else
    if str_eqb pathS "" then Ok Deferred
    else
      _ ← validatePath pathS;
      p ← parseStorePath storeDir pathS;
      Ok (InputAddressed p).

(** An element of the list of outputs, [(] included. *)
Definition parse_output : Parser (str * DerivationOutput) := λ s,
  '(_, s) ← expect "(" s;
  '(id, s) ← parseString s;
  '(_, s) ← expect "," s; '(pathS, s) ← parseString s;
  '(_, s) ← expect "," s; '(hashAlgo, s) ← parseString s;
  '(_, s) ← expect "," s; '(hash, s) ← parseString s;
  '(_, s) ← expect ")" s;
  o ← parseDerivationOutput pathS hashAlgo hash;
  Ok ((id, o), s).

Inductive DerivationATermVersion := Traditional | DynamicDerivationsVersion.

(** The form with a child map; [node] reads a nested node. *)
Definition parse_child (node : Parser ChildNode) : Parser (str * ChildNode) := λ s,
  '(_, s) ← expect "(" s;
  '(outputName, s) ← parseString s;
  '(_, s) ← expect "," s;
  '(n, s) ← node s;
  '(_, s) ← expect ")" s;
  Ok ((outputName, n), s).
Definition parse_dynamic_node (node : Parser ChildNode) : Parser ChildNode := λ s,
  '(_, s) ← expect "(" s;
  '(v, s) ← parseStrings false s;
  '(_, s) ← expect ",[" s;
  '(cm, s) ← while_list (parse_child node) (λ cm on, smap_insert on.1 on.2 cm) [] s;
  '(_, s) ← expect ")" s;
  Ok (MkNode v cm, s).

(** [parseDerivedPathMapNode]; the nesting is bounded by the input. *)
Fixpoint parseDerivedPathMapNode (fuel : nat) (version : DerivationATermVersion) (s : str) {struct fuel}
    : result (ChildNode * str) :=
  match fuel with
  | O => Throw NonTermination
  | S fuel =>
      match version with
      | Traditional => '(v, s) ← parseStrings false s; Ok (MkNode v [], s)
      | DynamicDerivationsVersion =>
          match peek s with
          | Some "["%char => '(v, s) ← parseStrings false s; Ok (MkNode v [], s)
          | Some "("%char => parse_dynamic_node (parseDerivedPathMapNode fuel version) s
          | _ => Throw (FormatError "invalid inputDrvs entry in derivation")
          end
      end
  end.

(** An element of the list of input derivations. The two arguments of
    [insert_or_assign] are evaluated left to right, one of the orders allowed. *)
Definition parse_inputDrv (version : DerivationATermVersion) : Parser (StorePath * ChildNode) := λ s,
  '(_, s) ← expect "(" s;
  '(drvPath, s) ← parsePath s;
  '(_, s) ← expect "," s;
  p ← parseStorePath storeDir drvPath;
  '(n, s) ← parseDerivedPathMapNode (S (length s)) version s;
  '(_, s) ← expect ")" s;
  Ok ((p, n), s).

Definition parse_env : Parser (str * str) := λ s,
  '(_, s) ← expect "(" s; '(name, s) ← parseString s;
  '(_, s) ← expect "," s; '(value, s) ← parseString s;
  '(_, s) ← expect ")" s;
  Ok ((name, value), s).

(** The version in the header. *)
Definition parse_version : Parser DerivationATermVersion := λ s,
  '(_, s) ← expect "D" s;
  match peek s with
  | Some "e"%char => '(_, s) ← expect "erive(" s; Ok (Traditional, s)
  | Some "r"%char =>
      '(_, s) ← expect "rvWithVersion(" s;
      '(versionS, s) ← parseString s;
      if str_eqb versionS "xp-dyn-drv" then
        _ ← require_feature xp DynamicDerivations;
        '(_, s) ← expect "," s;
        Ok (DynamicDerivationsVersion, s)
      else Throw (FormatError "Unknown derivation ATerm format version")
  | _ => Throw (Error "derivation does not start with 'Derive' or 'DrvWithVersion'")
  end.

(** [std::map::emplace] keeps the first value of a key. *)
Definition emplace {K V} `{Countable K} (m : gmap K V) (kv : K * V) : gmap K V :=
  match m !! kv.1 with Some _ => m | None => <[kv.1 := kv.2]> m end.

(** [parseDerivation], and the input left over, which the code ignores. *)
Definition parse_drv (name : str) : Parser Derivation := λ s,
  '(version, s) ← parse_version s;
  '(_, s) ← expect "[" s;
  '(outs, s) ← while_list parse_output emplace ∅ s;
  '(_, s) ← expect ",[" s;
  '(inDrvs, s) ← while_list (parse_inputDrv version)
    (λ (m : gmap StorePath ChildNode) pn, <[pn.1 := pn.2]> m) ∅ s;
  '(_, s) ← expect "," s; '(paths, s) ← parseStrings true s;
  srcs ← parseStorePathSet storeDir (set_sorted paths);
  '(_, s) ← expect "," s; '(plat, s) ← parseString s;
  '(_, s) ← expect "," s; '(bld, s) ← parseString s;
  '(_, s) ← expect ",[" s;
  '(ar, s) ← while_list parseString (λ l x, l ++ [x]) [] s;
  '(_, s) ← expect ",[" s;
  '(en, s) ← while_list parse_env (λ (m : gmap str str) nv, <[nv.1 := nv.2]> m) ∅ s;
  '(_, s) ← expect ")" s;
  Ok ({| basic := {| outputs := outs; inputSrcs := srcs; platform := plat; builder := bld;
                     args := ar; env := en; drv_name := name |};
         inputDrvs := inDrvs |}, s).

Definition parseDerivation (s name : str) : result Derivation :=
  '(drv, _) ← parse_drv name s; Ok drv.

(** * Printing *)

(** [unparseDerivedPathMapNode] without its leading comma. *)
Fixpoint node_body (n : ChildNode) : str :=
  match n with
  | MkNode v [] => printUnquotedStrings (set_sorted v)
  | MkNode v cm =>
      "(" ++ printUnquotedStrings (set_sorted v) ++ ",[" ++
      print_sep (λ on, "(" ++ printUnquotedString on.1 ++ "," ++ node_body on.2 ++ ")") cm ++ "])"
  end.
Definition unparseDerivedPathMapNode (n : ChildNode) : str := "," ++ node_body n.

Definition hasDynamicDrvDep (drv : Derivation) : bool :=
  existsb (λ kv : StorePath * ChildNode, match node_childMap kv.2 with [] => false | _ => true end)
    (map_sorted (inputDrvs drv)).

(** The three strings of an output. *)
Definition output_strings (maskOutputs : bool) (name : str) (no : str * DerivationOutput) : result (str * str * str) :=
  match no.2 with
  | InputAddressed path => Ok ((if maskOutputs then ""%str else printStorePath storeDir path), ""%str, ""%str)
  | CAFixed ca =>
      p ← (if maskOutputs then Ok ""%str else p ← CAFixed_path ca name no.1; Ok (printStorePath storeDir p));
      ma ← printMethodAlgo xp ca;
      h ← to_string (ca_hash ca) Base16 false;
      Ok (p, ma, h)
  | CAFloating method ha => p ← renderPrefix xp method; Ok (""%str, p ++ printHashAlgo ha, ""%str)
  | Deferred => Ok (""%str, ""%str, ""%str)
  | Impure method ha => p ← renderPrefix xp method; Ok (""%str, p ++ printHashAlgo ha, "impure"%str)
  end.

Definition unparse_output (maskOutputs : bool) (name : str) (no : str * DerivationOutput) : result str :=
  '(a, b, c) ← output_strings maskOutputs name no;
  Ok ("(" ++ printUnquotedString no.1 ++ "," ++ printUnquotedString a ++ "," ++ printUnquotedString b ++
      "," ++ printUnquotedString c ++ ")").

Definition unparse_inputDrv (key : str) (n : ChildNode) : str :=
  "(" ++ printUnquotedString key ++ unparseDerivedPathMapNode n ++ ")".

Definition unparse_env (masked : str → bool) (nv : str * str) : str :=
  "(" ++ printString nv.1 ++ "," ++ printString (if masked nv.1 then [] else nv.2) ++ ")".

(** [Derivation::unparse]; [actualInputs] replaces the input derivations. *)
Definition unparse (drv : Derivation) (maskOutputs : bool) (actualInputs : option (list (str * ChildNode)))
    : result str :=
  let b := basic drv in
  outs ← mapR (unparse_output maskOutputs (drv_name b)) (map_sorted (outputs b));
  let ins := match actualInputs with
    | Some l => print_sep (λ hn, unparse_inputDrv hn.1 hn.2) l
    | None => print_sep (λ pn, unparse_inputDrv (printStorePath storeDir pn.1) pn.2) (map_sorted (inputDrvs drv))
    end in
  Ok ((if hasDynamicDrvDep drv then "DrvWithVersion(" ++ printUnquotedString "xp-dyn-drv" ++ "," else "Derive(") ++
      "[" ++ print_sep id outs ++ "],[" ++ ins ++ "]," ++
      printUnquotedStrings (printStorePathSet storeDir (inputSrcs b)) ++
      "," ++ printUnquotedString (platform b) ++
      "," ++ printString (builder b) ++
      "," ++ printStrings (args b) ++
      ",[" ++ print_sep (unparse_env (λ n, maskOutputs && bool_decide (is_Some (outputs b !! n)))) (map_sorted (env b)) ++
      "])").
End drv.

(** * Input nodes print and parse back *)

Inductive node_ok : ChildNode → Prop :=
  | node_ok_intro v cm :
      (∀ s, s ∈ v → raw_ok s) → smap_wf cm → Forall (λ e, raw_ok e.1 ∧ node_ok e.2) cm → node_ok (MkNode v cm).

Fixpoint node_depth (n : ChildNode) : nat :=
  match n with MkNode _ cm => S (list_max (map (λ e, node_depth e.2) cm)) end.

Lemma node_depth_entry v e cm : e ∈ cm → (node_depth e.2 < node_depth (MkNode v cm))%nat.
Proof.
  intros He. cbn [node_depth]. apply list_elem_of_In, (in_map (λ e, node_depth e.2)) in He.
  pose proof (proj1 (list_max_le _ _) (le_n (list_max (map (λ e, node_depth e.2) cm)))) as Hm.
  rewrite List.Forall_forall in Hm. apply Hm in He. lia.
Qed.

Definition child_str (on : str * ChildNode) : str :=
  "(" ++ printUnquotedString on.1 ++ "," ++ node_body on.2 ++ ")".

Lemma node_body_eq v cm :
  node_body (MkNode v cm) =
  match cm with
  | [] => printUnquotedStrings (set_sorted v)
  | _ => "(" ++ printUnquotedStrings (set_sorted v) ++ ",[" ++ (print_sep child_str cm ++ "]") ++ ")"
  end.
Proof. destruct cm as [|e cm]; [done|]. cbn [node_body]. by rewrite <- app_assoc. Qed.

Lemma smap_rebuild_id {V} (m : list (str * V)) :
  smap_wf m → foldl (λ cm on, smap_insert on.1 on.2 cm) [] m = m.
Proof.
  intros Hm. pose proof (smap_rebuild (V := V) (λ v, v) m [] Hm) as H. cbn beta in H. rewrite H.
  - cbn [app]. rewrite <- (map_id m) at 2. apply map_ext. by intros [].
  - apply Forall_true. by constructor.
Qed.

Lemma pok_node fuel n :
  (node_depth n <= fuel)%nat → node_ok n → pok (parseDerivedPathMapNode fuel DynamicDerivationsVersion) (node_body n) n.
Proof.
  revert n. induction fuel as [|fuel IH]; intros n Hd Hn; [destruct n; cbn in Hd; lia|].
  inversion Hn as [v cm Hv Hs Hall]; subst. rewrite node_body_eq. cbn [parseDerivedPathMapNode].
  destruct cm as [|e cm].
  { intros rest. change (peek (printUnquotedStrings (set_sorted v) ++ rest)) with (Some "["%char). cbn iota.
    by rewrite (pok_parseStrings v Hv). }
  set (l := e :: cm) in *. intros rest.
  match goal with |- context [peek ?s] => change (peek s) with (Some "("%char) end. cbn iota. revert rest.
  enough (pok (parse_dynamic_node (parseDerivedPathMapNode fuel DynamicDerivationsVersion))
    ("(" ++ printUnquotedStrings (set_sorted v) ++ ",[" ++ (print_sep child_str l ++ "]") ++ ")") (MkNode v l)) as Hp
    by exact Hp.
  eapply (pok_bind (expect "(")); [apply pok_expect|]. cbn beta.
  eapply (pok_bind (parseStrings false)); [by apply pok_parseStrings|]. cbn beta.
  eapply (pok_bind (expect ",[")); [apply pok_expect|]. cbn beta.
  eapply (pok_bind (while_list _ _ _)).
  - apply (pok_list _ _ child_str). apply Forall_forall. intros on Hon. split; [|done].
    rewrite Forall_forall in Hall. destruct (Hall on Hon) as [Hr Hno]. pose proof (node_depth_entry v on l Hon).
    eapply (pok_bind (expect "(")); [apply pok_expect|]. cbn beta.
    eapply (pok_bind parseString); [by apply pok_parseString_raw|]. cbn beta.
    eapply (pok_bind (expect ",")); [apply pok_expect|]. cbn beta.
    eapply (pok_bind (parseDerivedPathMapNode fuel _)); [apply IH; [lia|done]|]. cbn beta.
    eapply (pok_bind_ret (expect ")")); [apply pok_expect|]. by destruct on.
  - cbn beta. rewrite smap_rebuild_id by done. by eapply (pok_bind_ret (expect ")")); [apply pok_expect|].
Qed.

Lemma node_body_length n : (node_depth n <= length (node_body n))%nat.
Proof.
  remember (node_depth n) as m eqn:Em. assert (Hm : (node_depth n <= m)%nat) by lia. rewrite Em. clear Em.
  revert n Hm. induction m as [|m IH]; intros [v cm] Hm; [cbn in Hm; lia|]. rewrite node_body_eq.
  destruct cm as [|e cm]; [cbn; lia|]. set (l := e :: cm) in *.
  assert (∀ x, x ∈ l → (node_depth x.2 <= length (print_sep child_str l))%nat) as Hx.
  { intros x Hx. pose proof (node_depth_entry v x l Hx). rewrite print_sep_join.
    assert (length (child_str x) <= length (join "," (map child_str l)))%nat as Hle.
    { clear -Hx. induction l as [|y l IHl]; [by apply not_elem_of_nil in Hx|]. apply list_elem_of_In in Hx as [->|Hx].
      - destruct l; cbn [map join]; rewrite ?length_app; lia.
      - apply list_elem_of_In in Hx. destruct l as [|z l]; [by apply not_elem_of_nil in Hx|].
        cbn [map] in *. rewrite join_cons by done. rewrite !length_app. specialize (IHl Hx). lia. }
    specialize (IH x.2 ltac:(lia)). unfold child_str in Hle at 1. rewrite !length_app in Hle. lia. }
  assert (list_max (map (λ e, node_depth e.2) l) <= length (print_sep child_str l))%nat as Hmax.
  { apply list_max_le, List.Forall_forall. intros k Hk. apply in_map_iff in Hk as (x & <- & Hin).
    apply Hx. by apply list_elem_of_In. }
  cbn [node_depth]. rewrite !length_app. cbn [length]. lia.
Qed.

(** * Derivations print and parse back *)

Lemma raw_ok_app s t : raw_ok (s ++ t) ↔ raw_ok s ∧ raw_ok t.
Proof. unfold raw_ok. rewrite forallb_app. apply andb_true_iff. Qed.

Lemma raw_ok_chars (f : ascii → bool) s :
  (∀ c, implb (f c) (negb (bool_decide (c = dquote) || bool_decide (c = backslash_c))) = true) →
  forallb f s = true → raw_ok s.
Proof.
  intros Hf Hs. unfold raw_ok. rewrite forallb_forall in Hs |- *. intros c Hc. specialize (Hf c).
  by rewrite (Hs c Hc) in Hf.
Qed.

Lemma raw_ok_hex h : raw_ok (printHash16 h).
Proof.
  unfold raw_ok. apply forallb_forall. intros c Hc. unfold printHash16 in Hc.
  apply in_concat in Hc as (l & Hl & Hc). apply in_map_iff in Hl as (i & <- & _).
  assert (∀ z, negb (bool_decide (chars_at base16Chars z = dquote) || bool_decide (chars_at base16Chars z = backslash_c)) = true) as Hz.
  { intros z. unfold chars_at.
    destruct (nth_in_or_default (Z.to_nat z) base16Chars NUL) as [Hi|Hd]; [|by rewrite Hd].
    assert (Hall : forallb (λ c, negb (bool_decide (c = dquote) || bool_decide (c = backslash_c))) base16Chars = true)
      by (by vm_compute).
    rewrite forallb_forall in Hall. by apply Hall. }
  destruct Hc as [<-|[<-|[]]]; apply Hz.
Qed.

Lemma raw_ok_hash s : forallb hash_char s = true → raw_ok s.
Proof. apply raw_ok_chars. intros c. check_ascii c. Qed.
Lemma raw_ok_name s : forallb name_char s = true → raw_ok s.
Proof. apply raw_ok_chars. intros c. check_ascii c. Qed.
Lemma raw_ok_algo a : raw_ok (printHashAlgo a).
Proof. by destruct a. Qed.

Lemma raw_ok_prefix xp m p : renderPrefix xp m = Ok p → raw_ok p.
Proof.
  unfold renderPrefix, makeFileIngestionPrefix. destruct m; cbn; intros E; try (by injection E as <-).
  destruct (require_feature xp GitHashing); [|done]. by injection E as <-.
Qed.

Section roundtrip.
Context (xp : XpSettings) (storeDir : str) (hashString : HashAlgorithm → str → Hash).
Context (Hhash : ∀ a s, hash_regular (hashString a s) ∧ algo (hashString a s) = a).
Context (Hdir : store_dir_ok storeDir) (Hraw : raw_ok storeDir).

(** A store path that can be printed unquoted. *)
Definition path_ok (p : StorePath) : Prop := sp_wf p ∧ raw_ok (baseName p).

Definition method_enabled (m : ContentAddressMethod) : Prop :=
  m = CAM_Text → isEnabled xp DynamicDerivations = true.

(** Outputs whose features are enabled and whose hash fits its algorithm. *)
Definition output_wf (o : DerivationOutput) : Prop :=
  match o with
  | InputAddressed p => sp_wf p
  | CAFixed ca => hash_regular (ca_hash ca) ∧ algo_enabled xp (algo (ca_hash ca)) ∧ method_enabled (ca_method ca)
  | CAFloating m _ => isEnabled xp CaDerivations = true ∧ method_enabled m
  | Deferred => True
  | Impure m _ => isEnabled xp ImpureDerivations = true ∧ method_enabled m
  end.
Definition output_ok (o : DerivationOutput) : Prop :=
  output_wf o ∧ match o with InputAddressed p => raw_ok (baseName p) | _ => True end.

Lemma print_head p : head (printStorePath storeDir p) = Some "/"%char.
Proof. clear Hraw. destruct Hdir as (ds & _ & _ & ->). unfold printStorePath. by destruct (abs_cons ds) as [r ->]. Qed.

Lemma print_raw p : path_ok p → raw_ok (printStorePath storeDir p).
Proof. intros [_ Hp]. unfold printStorePath. apply raw_ok_app. split; [done|]. by apply raw_ok_app. Qed.

Lemma validatePath_print p : validatePath (printStorePath storeDir p) = Ok tt.
Proof.
  pose proof (print_head p) as H. destruct (printStorePath storeDir p) as [|c l]; [done|]. cbn in *.
  injection H as ->. done.
Qed.

Lemma print_nonempty p : str_eqb (printStorePath storeDir p) "" = false.
Proof. apply str_eqb_false. intros E. pose proof (print_head p) as H. by rewrite E in H. Qed.

Lemma CAFixed_path_ok ca name out p :
  hash_regular (ca_hash ca) → CAFixed_path xp storeDir hashString ca name out = Ok p → path_ok p.
Proof.
  intros Hr Hp. unfold CAFixed_path in Hp.
  apply (ca_path_shape xp storeDir hashString Hhash) in Hp as (Hn & -> & _).
  - split; [by apply made_path_wf|]. cbn [baseName]. apply raw_ok_app. split.
    + apply raw_ok_hash. by apply digest160_ok.
    + apply checkPathName_ok in Hn as [(_ & Hc & _) _]. apply (raw_ok_app "-" _). split; [done|by apply raw_ok_name].
  - unfold ca_ok, withoutRefs. destruct (ca_method ca); (split; [done|]); intros q Hq; by apply not_elem_of_empty in Hq.
Qed.

Lemma parsePrefix_step m a p (pathS hashS : str) :
  renderPrefix xp m = Ok p → method_enabled m →
  parseDerivationOutput xp storeDir pathS (p ++ printHashAlgo a) hashS =
  if str_eqb hashS "impure" then
    _ ← require_feature xp ImpureDerivations;
    if negb (str_eqb pathS "") then
      Throw (FormatError "impure derivation output should not specify output path")
    else Ok (Impure m a)
  else if negb (str_eqb hashS "") then
    _ ← validatePath pathS;
    h ← parseNonSRIUnprefixed xp hashS a;
    Ok (CAFixed {| ca_method := m; ca_hash := h |})
  else
    _ ← require_feature xp CaDerivations;
    if negb (str_eqb pathS "") then
      Throw (FormatError "content-addressing derivation output should not specify output path")
    else Ok (CAFloating m a).
Proof.
  intros Hp Hm. unfold parseDerivationOutput.
  assert (str_eqb (p ++ printHashAlgo a) "" = false) as ->.
  { apply str_eqb_false. destruct p; [by destruct a|done]. }
  cbn [negb]. rewrite (parsePrefix_render xp m a p Hp). cbn [mbind result_bind].
  assert ((if bool_decide (m = CAM_Text) then require_feature xp DynamicDerivations else Ok tt) = Ok tt) as ->.
  { case_bool_decide; [|done]. by apply require_feature_ok, Hm. }
  cbn [mbind result_bind]. by rewrite parse_print_algo.
Qed.

Lemma hex_not_special h :
  hash_regular h → str_eqb (printHash16 h) "impure" = false ∧ str_eqb (printHash16 h) "" = false.
Proof.
  intros [[_ [Hs _]] Hsz]. assert (Hl : length (printHash16 h) = (hashSize h * 2)%nat).
  { unfold printHash16. by rewrite length_concat_pairs. }
  split; apply str_eqb_false; intros E; rewrite E, Hsz in Hl; destruct (algo h); cbn in Hl; lia.
Qed.

(** The three strings of an output determine it. *)
Lemma output_strings_parse name id o a b c :
  output_wf o → output_strings xp storeDir hashString false name (id, o) = Ok (a, b, c) →
  parseDerivationOutput xp storeDir a b c = Ok o.
Proof.
  intros Ho. unfold output_strings. cbn [fst snd]. destruct o as [p|ca|m ha| |m ha]; cbn [output_wf] in Ho.
  - intros [= <- <- <-]. unfold parseDerivationOutput. change (str_eqb "" "") with true. cbn [negb].
    rewrite print_nonempty, validatePath_print. cbn [mbind result_bind]. by rewrite parse_print.
  - destruct Ho as (Hr & Ha & Hm).
    destruct (CAFixed_path xp storeDir hashString ca name id) as [p|] eqn:Ep; cbn [mbind result_bind]; [|done].
    unfold printMethodAlgo. destruct (renderPrefix xp (ca_method ca)) as [pr|] eqn:Epr; cbn [mbind result_bind]; [|done].
    pose proof Hr as [Hwf _]. rewrite to_string_body by done. change (bool_decide (Base16 = SRI) || false) with false.
    cbn [mbind result_bind app format_body]. intros E. injection E as <- <- <-. destruct (hex_not_special _ Hr) as [X1 X2].
    rewrite (parsePrefix_step _ _ _ _ _ Epr Hm). rewrite X1, X2. cbn [negb]. rewrite validatePath_print. cbn [mbind result_bind].
    pose proof (Hash_parse_body xp (ca_hash ca) Base16 Hr Ha) as Hb. cbn [format_body] in Hb.
    change (bool_decide (Base16 = SRI)) with false in Hb. unfold parseNonSRIUnprefixed. rewrite Hb.
    cbn [mbind result_bind]. by destruct ca.
  - destruct Ho as [Hx Hm]. destruct (renderPrefix xp m) as [pr|] eqn:Epr; cbn [mbind result_bind]; [|done].
    intros E. injection E as <- <- <-.
    rewrite (parsePrefix_step _ _ _ _ _ Epr Hm). change (str_eqb "" "impure") with false. change (str_eqb "" "") with true. cbn [negb].
    by rewrite (proj2 (require_feature_ok xp CaDerivations)).
  - by intros [= <- <- <-].
  - destruct Ho as [Hx Hm]. destruct (renderPrefix xp m) as [pr|] eqn:Epr; cbn [mbind result_bind]; [|done].
    intros E. injection E as <- <- <-.
    rewrite (parsePrefix_step _ _ _ _ _ Epr Hm). change (str_eqb "impure" "impure") with true. change (str_eqb "" "") with true. cbn [negb].
    by rewrite (proj2 (require_feature_ok xp ImpureDerivations)).
Qed.

(** They need no escaping. *)
Lemma output_strings_raw name id o a b c :
  output_ok o → output_strings xp storeDir hashString false name (id, o) = Ok (a, b, c) → raw_ok a ∧ raw_ok b ∧ raw_ok c.
Proof.
  intros [Ho Hb]. assert (∀ m pr ha, renderPrefix xp m = Ok pr → raw_ok (pr ++ printHashAlgo ha)) as Hpr.
  { intros m pr ha E. apply raw_ok_app. split; [by eapply raw_ok_prefix|apply raw_ok_algo]. }
  unfold output_strings. cbn [fst snd]. destruct o as [p|ca|m ha| |m ha]; cbn [output_wf] in Ho.
  - intros [= <- <- <-]. by split; [apply print_raw|].
  - destruct Ho as (Hr & Ha & Hm).
    destruct (CAFixed_path xp storeDir hashString ca name id) as [p|] eqn:Ep; cbn [mbind result_bind]; [|done].
    unfold printMethodAlgo. destruct (renderPrefix xp (ca_method ca)) as [pr|] eqn:Epr; cbn [mbind result_bind]; [|done].
    pose proof Hr as [Hwf _]. rewrite to_string_body by done. change (bool_decide (Base16 = SRI) || false) with false.
    cbn [mbind result_bind app format_body]. intros E. injection E as <- <- <-.
    split_and!; [by eapply print_raw, CAFixed_path_ok|by eapply Hpr|apply raw_ok_hex].
  - destruct (renderPrefix xp m) as [pr|] eqn:Epr; cbn [mbind result_bind]; [|done]. intros E. injection E as <- <- <-.
    split_and!; [done|by eapply Hpr|done].
  - by intros [= <- <- <-].
  - destruct (renderPrefix xp m) as [pr|] eqn:Epr; cbn [mbind result_bind]; [|done]. intros E. injection E as <- <- <-.
    split_and!; [done|by eapply Hpr|done].
Qed.

Lemma pok_output name id o w :
  raw_ok id → output_ok o → unparse_output xp storeDir hashString false name (id, o) = Ok w →
  pok (parse_output xp storeDir) w (id, o) ∧ elem_start w.
Proof.
  intros Hid Ho. unfold unparse_output.
  destruct (output_strings xp storeDir hashString false name (id, o)) as [[[a b] c]|] eqn:E; [|done].
  cbn [mbind result_bind fst]. pose proof (output_strings_parse _ _ _ _ _ _ (proj1 Ho) E) as Hp.
  destruct (output_strings_raw _ _ _ _ _ _ Ho E) as (Ha & Hb & Hc).
  intros Hw. match type of Hw with Ok ?x = _ => assert (w = x) as -> by (by injection Hw) end. split; [|done].
  eapply (pok_bind (expect _)); [apply pok_expect|]. eapply (pok_bind parseString); [by apply pok_parseString_raw|].
  eapply (pok_bind (expect _)); [apply pok_expect|]. eapply (pok_bind parseString); [by apply pok_parseString_raw|].
  eapply (pok_bind (expect _)); [apply pok_expect|]. eapply (pok_bind parseString); [by apply pok_parseString_raw|].
  eapply (pok_bind (expect _)); [apply pok_expect|]. eapply (pok_bind parseString); [by apply pok_parseString_raw|].
  eapply (pok_bind_ret (expect _)); [apply pok_expect|]. intros s. by rewrite Hp.
Qed.

Lemma pok_inputDrv version p n :
  path_ok p → node_ok n → (version = Traditional → node_childMap n = []) →
  pok (parse_inputDrv storeDir version) (unparse_inputDrv (printStorePath storeDir p) n) (p, n).
Proof.
  intros Hp Hn Hv. unfold unparse_inputDrv, unparseDerivedPathMapNode.
  eapply (pok_bind (expect _)); [apply pok_expect|].
  eapply (pok_bind parsePath); [by apply pok_parsePath; [apply print_raw|apply print_head]|].
  rewrite <- app_assoc. eapply (pok_bind (expect _)); [apply pok_expect|].
  eapply pok_pure; [apply parse_print; [done|apply Hp]|]. intros rest. rewrite <- app_assoc.
  assert (parseDerivedPathMapNode (S (length (node_body n ++ ")" ++ rest))) version (node_body n ++ ")" ++ rest)
    = Ok (n, ")" ++ rest)) as ->.
  { destruct version.
    - destruct n as [v cm]. cbn in Hv. rewrite Hv by done. rewrite node_body_eq. cbn [parseDerivedPathMapNode].
      inversion Hn; subst. by rewrite (pok_parseStrings v).
    - rewrite pok_node; [done| |done]. pose proof (node_body_length n). rewrite length_app. lia. }
  done.
Qed.

Lemma pok_env masked nv :
  masked nv.1 = false → pok parse_env (unparse_env masked nv) nv.
Proof.
  intros Hm. unfold unparse_env. rewrite Hm. destruct nv as [n v]. cbn [fst snd].
  eapply (pok_bind (expect _)); [apply pok_expect|]. eapply (pok_bind parseString); [apply pok_parseString|].
  eapply (pok_bind (expect _)); [apply pok_expect|]. eapply (pok_bind parseString); [apply pok_parseString|].
  by eapply (pok_bind_ret (expect _)); [apply pok_expect|].
Qed.

Lemma store_print_inj p q : sp_wf p → sp_wf q → printStorePath storeDir p = printStorePath storeDir q → p = q.
Proof.
  intros Hp Hq E. pose proof (parse_print _ _ Hdir Hp) as H1. rewrite E, parse_print in H1 by done. by injection H1.
Qed.

Lemma parseStorePathSet_print ps acc :
  Forall sp_wf ps →
  foldR (λ res i, p ← parseStorePath storeDir i; Ok ({[p]} ∪ res)) acc (map (printStorePath storeDir) ps) =
    Ok (list_to_set ps ∪ acc : gset StorePath).
Proof.
  intros H. revert acc. induction H as [|p ps Hp _ IH]; intros acc; cbn [map foldR list_to_set].
  - f_equal. set_solver.
  - rewrite parse_print by done. cbn [mbind result_bind]. rewrite IH. f_equal. set_solver.
Qed.

Lemma preimages (srcs : gset StorePath) l :
  (∀ x, x ∈ l → ∃ p, x = printStorePath storeDir p ∧ p ∈ srcs) →
  ∃ ps, l = map (printStorePath storeDir) ps ∧ ∀ p, p ∈ ps → p ∈ srcs.
Proof.
  induction l as [|x l IH]; intros Hl; [exists []; split; [done|]; intros p Hp; by apply not_elem_of_nil in Hp|].
  destruct (Hl x) as (p & -> & Hp); [by left|].
  destruct IH as (ps & -> & Hps); [intros y Hy; apply Hl; by right|].
  exists (p :: ps). split; [done|]. intros q [->|Hq]%elem_of_cons; auto.
Qed.

(** Source paths are printed in the order of the paths, read into a set of
    strings and converted in the order of the strings. *)
Lemma parse_srcs (srcs : gset StorePath) :
  (∀ p, p ∈ srcs → sp_wf p) →
  parseStorePathSet storeDir (set_sorted (list_to_set (printStorePathSet storeDir srcs) : gset str)) = Ok srcs.
Proof.
  intros Hs. unfold printStorePathSet, parseStorePathSet.
  set (L := set_sorted (list_to_set (map (printStorePath storeDir) (set_sorted srcs)) : gset str)).
  assert (HL : ∀ x, x ∈ L ↔ ∃ p, x = printStorePath storeDir p ∧ p ∈ srcs).
  { intros x. unfold L. rewrite elem_of_set_sorted, elem_of_list_to_set, list_elem_of_fmap.
    setoid_rewrite elem_of_set_sorted. done. }
  destruct (preimages srcs L) as (ps & EL & Hps); [intros x; apply HL|]. rewrite EL.
  rewrite parseStorePathSet_print.
  - f_equal. apply set_eq. intros p. rewrite elem_of_union, elem_of_list_to_set. split; [intros [?|?]; [auto|set_solver]|].
    intros Hp. left. assert (printStorePath storeDir p ∈ L) as Hin by (apply HL; eauto).
    rewrite EL in Hin. apply list_elem_of_fmap in Hin as (q & E & Hq). apply store_print_inj in E; [by subst|auto|auto].
  - apply Forall_forall. auto.
Qed.

Lemma pok_version (dyn : bool) :
  (dyn = true → isEnabled xp DynamicDerivations = true) →
  pok (parse_version xp) (if dyn then "DrvWithVersion(" ++ printUnquotedString "xp-dyn-drv" ++ "," else "Derive(")
    (if dyn then DynamicDerivationsVersion else Traditional).
Proof.
  intros Hd rest. destruct dyn; [|done]. unfold parse_version. cbn -[require_feature].
  by rewrite (proj2 (require_feature_ok xp DynamicDerivations) (Hd eq_refl)).
Qed.

Lemma foldl_emplace {V} (l : list (str * V)) (m : gmap str V) :
  NoDup l.*1 → (∀ k, k ∈ l.*1 → m !! k = None) → foldl emplace m l = insert_all m l.
Proof.
  revert m. induction l as [|[k v] l IH]; intros m Hnd Hm; [done|]. cbn [fmap list_fmap] in *.
  apply NoDup_cons in Hnd as [Hk Hnd]. unfold insert_all. cbn [foldl]. unfold emplace at 2. cbn [fst snd] in *.
  rewrite (Hm k) by (by left). apply IH; [done|]. intros k' Hk'.
  rewrite lookup_insert_ne by (intros <-; done). apply Hm. by right.
Qed.

Lemma print_sep_results {A} (f : A → result str) l ys :
  mapR f l = Ok ys → print_sep id ys = print_sep (λ x, match f x with Ok s => s | Throw _ => [] end) l ∧
    ∀ x, x ∈ l → ∃ s, f x = Ok s.
Proof.
  rewrite mapR_Ok_Forall2. intros H. split.
  - rewrite !print_sep_join, map_id. f_equal. induction H as [|x y l ys E H IH]; [done|]. cbn [map]. by rewrite E, IH.
  - intros x Hx. induction H as [|x' y l ys E H IH]; [by apply not_elem_of_nil in Hx|].
    apply elem_of_cons in Hx as [->|Hx]; eauto.
Qed.

(** Derivations whose text can be read back: the strings the printer does not
    escape need no escaping, and the features in use are enabled. *)
Record drv_ok (drv : Derivation) : Prop := {
  ok_outputs : map_Forall (λ id o, raw_ok id ∧ output_ok o) (outputs (basic drv));
  ok_inputDrvs : map_Forall (λ p n, path_ok p ∧ node_ok n) (inputDrvs drv);
  ok_inputSrcs : set_Forall path_ok (inputSrcs (basic drv));
  ok_platform : raw_ok (platform (basic drv));
  ok_dynamic : hasDynamicDrvDep drv = true → isEnabled xp DynamicDerivations = true;
}.

Definition drv_version (drv : Derivation) : DerivationATermVersion :=
  if hasDynamicDrvDep drv then DynamicDerivationsVersion else Traditional.

Lemma traditional_no_children drv p n :
  (p, n) ∈ map_sorted (inputDrvs drv) → drv_version drv = Traditional → node_childMap n = [].
Proof.
  unfold drv_version, hasDynamicDrvDep. intros Hin. destruct (existsb _ _) eqn:E; [done|]. intros _.
  apply not_true_iff_false in E. rewrite existsb_exists in E. destruct (node_childMap n) eqn:En; [done|].
  exfalso. apply E. exists (p, n). split; [by apply list_elem_of_In|]. cbn [snd]. by rewrite En.
Qed.

Section body.
Context (drv : Derivation) (Hok : drv_ok drv).
Abbreviation b := (basic drv).

Lemma pok_outputs outs :
  mapR (unparse_output xp storeDir hashString false (drv_name b)) (map_sorted (outputs b)) = Ok outs →
  pok (while_list (parse_output xp storeDir) emplace ∅) (print_sep id outs ++ "]") (outputs b).
Proof.
  intros Ho. apply print_sep_results in Ho as [-> Hx].
  assert (outputs b = foldl emplace ∅ (map_sorted (outputs b))) as Eo.
  { rewrite foldl_emplace; [by rewrite insert_all_sorted|apply map_sorted_NoDup|]. intros k _. apply lookup_empty. }
  rewrite Eo at 2. apply pok_list, Forall_forall. intros [id o] Hin. destruct (Hx _ Hin) as [w Ew]. rewrite Ew.
  apply elem_of_map_sorted in Hin. destruct (ok_outputs _ Hok _ _ Hin) as [Hid Hoo]. by eapply pok_output.
Qed.

Lemma pok_inputDrvs :
  pok (while_list (parse_inputDrv storeDir (drv_version drv)) (λ (m : gmap StorePath ChildNode) pn, <[pn.1 := pn.2]> m) ∅)
    (print_sep (λ pn, unparse_inputDrv (printStorePath storeDir pn.1) pn.2) (map_sorted (inputDrvs drv)) ++ "]")
    (inputDrvs drv).
Proof.
  rewrite <- (insert_all_sorted (inputDrvs drv)) at 2. apply pok_list, Forall_forall. intros [p n] Hin.
  split; [|done]. cbn [fst snd]. pose proof (traditional_no_children _ _ _ Hin). apply elem_of_map_sorted in Hin.
  destruct (ok_inputDrvs _ Hok _ _ Hin) as [Hp Hn]. by apply pok_inputDrv.
Qed.

Lemma pok_srcs :
  pok (parseStrings true) (printUnquotedStrings (printStorePathSet storeDir (inputSrcs b)))
    (list_to_set (printStorePathSet storeDir (inputSrcs b))).
Proof.
  unfold printUnquotedStrings. eapply (pok_bind (expect _)); [apply pok_expect|]. cbn beta.
  set (l := printStorePathSet storeDir (inputSrcs b)).
  assert ((list_to_set l : gset str) = foldl (λ (res : gset str) x, {[x]} ∪ res) ∅ l) as ->.
  { rewrite foldl_insert_set. set_solver. }
  apply pok_list, Forall_forall. intros x Hx. split; [|done]. unfold l, printStorePathSet in Hx.
  apply list_elem_of_fmap in Hx as (p & -> & Hp). apply elem_of_set_sorted in Hp.
  apply pok_parsePath; [apply print_raw, (ok_inputSrcs _ Hok), Hp|apply print_head].
Qed.

Lemma pok_args l acc : pok (while_list parseString (λ l x, l ++ [x]) acc) (print_sep printString l ++ "]") (acc ++ l).
Proof.
  assert (acc ++ l = foldl (λ l x, l ++ [x]) acc l) as ->.
  { revert acc. induction l as [|x l IH]; intros acc; [by rewrite app_nil_r|]. cbn [foldl]. rewrite <- IH. by rewrite <- app_assoc. }
  apply pok_list, Forall_forall. intros x _. split; [apply pok_parseString|done].
Qed.

Lemma pok_envs masked :
  (∀ n, masked n = false) →
  pok (while_list parse_env (λ (m : gmap str str) nv, <[nv.1 := nv.2]> m) ∅)
    (print_sep (unparse_env masked) (map_sorted (env b)) ++ "]") (env b).
Proof.
  intros Hm. rewrite <- (insert_all_sorted (env b)) at 2. apply pok_list, Forall_forall. intros nv _.
  split; [by apply pok_env|done].
Qed.

Lemma pok_drv w :
  unparse xp storeDir hashString drv false None = Ok w → pok (parse_drv xp storeDir (drv_name b)) w drv.
Proof.
  unfold unparse. destruct (mapR _ _) as [outs|] eqn:Eo; cbn [mbind result_bind]; [|done]. intros E.
  match type of E with Ok ?x = _ => assert (w = x) as -> by (by injection E) end. clear E.
  set (D := print_sep (λ pn, unparse_inputDrv (printStorePath storeDir pn.1) pn.2) (map_sorted (inputDrvs drv))).
  set (V := if hasDynamicDrvDep drv then _ else _). cbn zeta.
  match goal with |- pok _ ?x _ => replace x with
    (V ++ "[" ++ (print_sep id outs ++ "]") ++ ",[" ++ (D ++ "]") ++ "," ++
      printUnquotedStrings (printStorePathSet storeDir (inputSrcs b)) ++ "," ++ printUnquotedString (platform b) ++
      "," ++ printString (builder b) ++ ",[" ++ (print_sep printString (args b) ++ "]") ++ ",[" ++
      (print_sep (unparse_env (λ n, false && bool_decide (is_Some (outputs b !! n)))) (map_sorted (env b)) ++ "]") ++ ")")
    by (unfold printStrings; rewrite <- !app_assoc; reflexivity) end.
  eapply (pok_bind (parse_version xp)); [apply pok_version, (ok_dynamic _ Hok)|]. fold (drv_version drv).
  eapply (pok_bind (expect _)); [apply pok_expect|]. eapply (pok_bind (while_list _ _ _)); [by apply pok_outputs|].
  eapply (pok_bind (expect _)); [apply pok_expect|]. eapply (pok_bind (while_list _ _ _)); [apply pok_inputDrvs|].
  eapply (pok_bind (expect _)); [apply pok_expect|]. eapply (pok_bind (parseStrings true)); [apply pok_srcs|].
  eapply pok_pure; [apply parse_srcs; intros p Hp; by apply (ok_inputSrcs _ Hok)|].
  eapply (pok_bind (expect _)); [apply pok_expect|].
  eapply (pok_bind parseString); [apply pok_parseString_raw, (ok_platform _ Hok)|].
  eapply (pok_bind (expect _)); [apply pok_expect|]. eapply (pok_bind parseString); [apply pok_parseString|].
  eapply (pok_bind (expect _)); [apply pok_expect|]. eapply (pok_bind (while_list _ _ _)); [apply pok_args|].
  eapply (pok_bind (expect _)); [apply pok_expect|]. eapply (pok_bind (while_list _ _ _)); [by apply pok_envs|].
  eapply (pok_bind_ret (expect _)); [apply pok_expect|]. intros s. cbn [app]. by destruct drv as [[] ?].
Qed.
End body.
End roundtrip.

(** * Properties *)

(** [C3] A derivation written in ATerm form is read back as it was, whatever
    text follows it, under [drv_ok]: the platform, the names of outputs and the
    hashes, which are printed without escaping, contain no quote and no
    backslash ([platform_not_escaped] below shows what a platform with quotes
    does), the store paths are well-formed, and nested inputs need the experimental
    feature. The parser then restores the outputs of every kind, the input
    derivations with their nested output names in both versions of the format,
    the input sources, and the builder, the arguments and the environment with
    any bytes in them. *)
Theorem derivation_roundtrip xp storeDir hashString drv w rest :
  (∀ a s, hash_regular (hashString a s) ∧ algo (hashString a s) = a) →
  store_dir_ok storeDir → raw_ok storeDir → drv_ok xp drv →
  unparse xp storeDir hashString drv false None = Ok w →
  parseDerivation xp storeDir (w ++ rest) (drv_name (basic drv)) = Ok drv.
Proof.
  intros Hhash Hdir Hraw Hok Hw. unfold parseDerivation.
  by rewrite (pok_drv xp storeDir hashString Hhash Hdir Hraw drv Hok w Hw).
Qed.

(** A derivation with dynamic inputs, a fixed output, and bytes to escape. *)
Definition sample_path (name : str) : StorePath := MkStorePath ("00000000000000000000000000000000-" ++ name).
Definition sample_drv : Derivation :=
  {| basic :=
       {| outputs := {["out"%str := CAFixed {| ca_method := CAM_Flat; ca_hash := zero_hash SHA256 [] |}]};
          inputSrcs := {[sample_path "src"]};
          platform := "x86_64-linux"; builder := "/bin/sh";
          args := ["-c"%str; [dquote; "010"%char; backslash_c]];
          env := {["out"%str := ["009"%char; dquote]]}; drv_name := "hello" |};
     inputDrvs := {[sample_path "dep.drv" :=
       MkNode {["out"%str]} [("dev"%str, MkNode {["lib"%str]} [])]]} |}.

Lemma sample_dir_ok : store_dir_ok "/bsd/store" ∧ raw_ok "/bsd/store".
Proof.
  split; [|done]. exists ["bsd"; "store"]%str. split; [done|]. split; [|done].
  apply (bool_decide_unpack _). vm_compute. exact I.
Qed.

#[export] Instance path_ok_dec p : Decision (path_ok p).
Proof. unfold path_ok, raw_ok. apply _. Defined.

Lemma sample_drv_ok : drv_ok [DynamicDerivations] sample_drv.
Proof.
  split; cbn [basic outputs inputSrcs platform sample_drv inputDrvs].
  - apply map_Forall_singleton. split; [done|]. split; [|done]. split; [apply zero_hash_ok|done].
  - apply map_Forall_singleton. split; [apply (bool_decide_unpack _); vm_compute; exact I|].
    assert (∀ x : str, raw_ok x → ∀ s, s ∈ ({[x]} : gset str) → raw_ok s) as Hone
      by (by intros x Hx s ->%elem_of_singleton).
    constructor; [by apply Hone|repeat constructor|]. constructor; [|constructor]. split; [done|].
    constructor; [by apply Hone|constructor|constructor].
  - intros p ->%elem_of_singleton. apply (bool_decide_unpack _). vm_compute. exact I.
  - done.
  - by intros _.
Qed.

Lemma derivation_roundtrip_witness :
  ∃ w, unparse [DynamicDerivations] "/bsd/store" zero_hash sample_drv false None = Ok w ∧
    parseDerivation [DynamicDerivations] "/bsd/store" (w ++ "#") "hello" = Ok sample_drv.
Proof.
  destruct (unparse [DynamicDerivations] "/bsd/store" zero_hash sample_drv false None) as [w|e] eqn:E.
  - exists w. split; [done|]. change "hello"%str with (drv_name (basic sample_drv)).
    apply (derivation_roundtrip _ _ zero_hash).
    + apply zero_hash_ok.
    + apply sample_dir_ok.
    + apply sample_dir_ok.
    + apply sample_drv_ok.
    + exact E.
  - exfalso.
    assert (match unparse [DynamicDerivations] "/bsd/store" zero_hash sample_drv false None with
            | Ok _ => true | Throw _ => false end = true) as H by (vm_compute; reflexivity).
    by rewrite E in H.
Defined.

(** ** What kind of derivation *)

Inductive OutputKind := KInputAddressed | KFixed | KFloating | KDeferred | KImpure.
#[export] Instance DerivationType_eq_dec : EqDecision DerivationType.
Proof. solve_decision. Defined.
#[export] Instance OutputKind_eq_dec : EqDecision OutputKind.
Proof. solve_decision. Defined.

Definition kind_of (o : DerivationOutput) : OutputKind :=
  match o with
  | InputAddressed _ => KInputAddressed | CAFixed _ => KFixed | CAFloating _ _ => KFloating
  | Deferred => KDeferred | Impure _ _ => KImpure
  end.
Definition kind_set (k : OutputKind) (st : type_state) : gset str :=
  match k with
  | KInputAddressed => inputAddressedOutputs st | KFixed => fixedCAOutputs st | KFloating => floatingCAOutputs st
  | KDeferred => deferredIAOutputs st | KImpure => impureOutputs st
  end.

(** What the type of a derivation says of its outputs. *)
Definition type_describes (t : DerivationType) (outs : gmap str DerivationOutput) : Prop :=
  match t with
  | DT_InputAddressed false => map_Forall (λ _ o, ∃ p, o = InputAddressed p) outs
  | DT_InputAddressed true => map_Forall (λ _ o, o = Deferred) outs
  | DT_ContentAddressed false true => ∃ ca, outs = {["out"%str := CAFixed ca]}
  | DT_ContentAddressed true false => ∃ ha, map_Forall (λ _ o, ∃ m, o = CAFloating m ha) outs
  | DT_ContentAddressed _ _ => False
  | DT_Impure => map_Forall (λ _ o, ∃ m ha, o = Impure m ha) outs
  end.

Lemma type_fold st l st' :
  foldR type_step st l = Ok st' →
  (∀ k x, x ∈ kind_set k st' ↔ x ∈ kind_set k st ∨ ∃ o, (x, o) ∈ l ∧ kind_of o = k) ∧
  (∀ a, floatingHashAlgo st = Some a → floatingHashAlgo st' = Some a) ∧
  (∀ x m ha, (x, CAFloating m ha) ∈ l → floatingHashAlgo st' = Some ha).
Proof.
  revert st. induction l as [|[x o] l IH]; intros st E; cbn [foldR] in E.
  { injection E as <-. split_and!; [|done|]; intros.
    - split; [by left|]. intros [?|(o & Ho & _)]; [done|by apply not_elem_of_nil in Ho].
    - by apply not_elem_of_nil in H. }
  destruct (type_step st (x, o)) as [st1|] eqn:E1; cbn [mbind result_bind] in E; [|done].
  destruct (IH _ E) as (I1 & I2 & I3).
  assert ((∀ k y, y ∈ kind_set k st1 ↔ y ∈ kind_set k st ∨ y = x ∧ kind_of o = k) ∧
    (∀ a, floatingHashAlgo st = Some a → floatingHashAlgo st1 = Some a) ∧
    (∀ m ha, o = CAFloating m ha → floatingHashAlgo st1 = Some ha)) as (S1 & S2 & S3).
  { clear -E1. destruct st as [ia fi fl de im a]. unfold type_step in E1. cbn [fst snd] in E1.
    assert (∀ (X : gset str) y, y ∈ {[x]} ∪ X ↔ y ∈ X ∨ y = x) as HX by set_solver.
    destruct o; try destruct a as [a|]; try (case_bool_decide; [|done]); injection E1 as <-;
      (split_and!; [intros [] y; cbn [kind_set kind_of inputAddressedOutputs fixedCAOutputs floatingCAOutputs
        deferredIAOutputs impureOutputs]; rewrite ?HX; intuition congruence | | ]);
      cbn [floatingHashAlgo]; intuition congruence. }
  split_and!.
  - intros k y. rewrite I1, S1. setoid_rewrite elem_of_cons. naive_solver.
  - auto.
  - intros y m ha [E2|Hin]%elem_of_cons; [|by eapply I3]. injection E2 as -> <-. apply I2. by eapply S3.
Qed.

Lemma type_fold_ok st l ha :
  (∀ x m h, (x, CAFloating m h) ∈ l → h = ha) → (∀ a, floatingHashAlgo st = Some a → a = ha) →
  ∃ st', foldR type_step st l = Ok st'.
Proof.
  revert st. induction l as [|[x o] l IH]; intros st Hl Ha; [eauto|]. cbn [foldR].
  assert (∃ st1, type_step st (x, o) = Ok st1 ∧ ∀ a, floatingHashAlgo st1 = Some a → a = ha) as (st1 & -> & H1).
  { destruct st as [ia fi fl de im a]. unfold type_step. cbn [fst snd floatingHashAlgo] in *.
    destruct o as [| |m h| |]; try (eexists; split; [done|]; exact Ha).
    assert (h = ha) as -> by (eapply Hl; by left). destruct a as [a|].
    - rewrite (Ha a) by done. rewrite bool_decide_true by done. eexists. split; [done|]. cbn. congruence.
    - eexists. split; [done|]. cbn. congruence. }
  cbn [mbind result_bind]. apply IH; [|done]. intros y m h Hin. eapply Hl. by right.
Qed.

Section drv_kind.
Context (drv : BasicDerivation) (st : type_state).
Context (Est : foldR type_step type_init (map_sorted (outputs drv)) = Ok st).

Lemma kind_set_spec k x : x ∈ kind_set k st ↔ ∃ o, outputs drv !! x = Some o ∧ kind_of o = k.
Proof.
  destruct (type_fold _ _ _ Est) as (H & _ & _). rewrite H. setoid_rewrite elem_of_map_sorted.
  split; [|by right]. intros [Hx|?]; [|done]. by destruct k; apply not_elem_of_empty in Hx.
Qed.

Lemma empty_kind k : empty_set (kind_set k st) = true ↔ map_Forall (λ _ o, kind_of o ≠ k) (outputs drv).
Proof.
  unfold empty_set. rewrite bool_decide_eq_true. split.
  - intros E x o Ho Hk. assert (x ∈ kind_set k st) as Hx by (apply kind_set_spec; eauto). rewrite E in Hx. set_solver.
  - intros H. apply set_eq. intros x. rewrite kind_set_spec. split; [|set_solver]. intros (o & Ho & Hk). by destruct (H _ _ Ho).
Qed.

Lemma one_kind k0 :
  outputs drv ≠ ∅ ∧ map_Forall (λ _ o, kind_of o = k0) (outputs drv) ↔
  ∀ k, empty_set (kind_set k st) = negb (bool_decide (k = k0)).
Proof.
  split.
  - intros [Hne Hall] k. case_bool_decide as Hk; cbn [negb].
    + apply not_true_iff_false. rewrite empty_kind. intros Hn. apply Hne, map_empty. intros x. apply eq_None_not_Some.
      intros [o Ho]. subst. by apply (Hn _ _ Ho), Hall with x.
    + apply empty_kind. intros x o Ho E. apply Hk. rewrite <- E. by apply Hall with x.
  - intros H. split.
    + intros E. specialize (H k0). rewrite bool_decide_true in H by done. apply not_true_iff_false in H. apply H.
      apply empty_kind. rewrite E. apply map_Forall_empty.
    + intros x o Ho. destruct (decide (kind_of o = k0)) as [?|Hk]; [done|]. specialize (H (kind_of o)).
      rewrite bool_decide_false in H by done. apply empty_kind in H. by destruct (H _ _ Ho).
Qed.

(** The decision of [type] from the kinds of outputs. *)
Lemma drv_type_one t :
  drv_type drv = Ok t →
  ∃ k0, (∀ k, empty_set (kind_set k st) = negb (bool_decide (k = k0))) ∧
    match k0 with
    | KInputAddressed => t = DT_InputAddressed false
    | KFixed => t = DT_ContentAddressed false true ∧ (size (fixedCAOutputs st) <= 1)%nat ∧
                head (set_sorted (fixedCAOutputs st)) = Some "out"%str
    | KFloating => t = DT_ContentAddressed true false
    | KDeferred => t = DT_InputAddressed true
    | KImpure => t = DT_Impure
    end.
Proof.
  unfold drv_type. rewrite Est. cbn [mbind result_bind].
  destruct (empty_set (inputAddressedOutputs st)) eqn:F1;
    destruct (empty_set (fixedCAOutputs st)) eqn:F2;
    destruct (empty_set (floatingCAOutputs st)) eqn:F3;
    destruct (empty_set (deferredIAOutputs st)) eqn:F4;
    destruct (empty_set (impureOutputs st)) eqn:F5; cbn [andb negb]; intros H; try discriminate H.
  - exists KImpure. split; [by intros []|congruence].
  - exists KDeferred. split; [by intros []|congruence].
  - exists KFloating. split; [by intros []|congruence].
  - exists KFixed. split; [by intros []|]. destruct (1 <? size (fixedCAOutputs st))%nat eqn:Es; [done|].
    apply Nat.ltb_ge in Es. case_bool_decide as Eh; [|done]. cbn [negb] in H. split; [congruence|done].
  - exists KInputAddressed. split; [by intros []|congruence].
Qed.
End drv_kind.

Lemma kind_describes t drv st :
  foldR type_step type_init (map_sorted (outputs drv)) = Ok st → drv_type drv = Ok t →
  outputs drv ≠ ∅ ∧ type_describes t (outputs drv).
Proof.
  intros Est Ht. destruct (drv_type_one _ _ Est _ Ht) as (k0 & Hk & Hm).
  destruct (proj2 (one_kind _ _ Est k0) Hk) as [Hne Hall]. split; [done|].
  destruct k0; try subst t; cbn [type_describes].
  - intros x o Ho. apply Hall in Ho. destruct o; naive_solver.
  - destruct Hm as (-> & Hs & Hh). assert (∀ x, x ∈ fixedCAOutputs st ↔ x = "out"%str) as Hx.
    { assert ("out"%str ∈ fixedCAOutputs st) as Ho
        by (apply elem_of_set_sorted; apply head_Some in Hh as [l ->]; by left).
      intros x. split; [|by intros ->]. intros Hx. assert (size (fixedCAOutputs st) = 1%nat) as H1.
      { apply Nat.le_antisymm; [done|]. apply Nat.le_succ_l, Nat.neq_0_lt_0. intros E%size_empty_inv. set_solver. }
      apply size_1_elem_of in H1 as [y Hy].
      assert (∀ z, z ∈ fixedCAOutputs st → z = y) as Hz by (intros z Hz; by apply Hy, elem_of_singleton in Hz).
      rewrite (Hz _ Hx). symmetry. by apply Hz. }
    assert (is_Some (outputs drv !! "out"%str)) as [o Ho].
    { pose proof (proj2 (Hx "out"%str) eq_refl) as H. apply (kind_set_spec _ _ Est KFixed) in H as (o & Ho & _). by exists o. }
    pose proof (Hall _ _ Ho) as Hf. destruct o as [|ca| | |]; try done. exists ca. apply map_eq. intros x.
    destruct (decide (x = "out"%str)) as [->|Hn]; [by rewrite lookup_singleton_eq|].
    rewrite lookup_singleton_ne by done. apply eq_None_not_Some. intros [o' Ho']. apply Hn, Hx.
    apply (kind_set_spec _ _ Est KFixed). exists o'. split; [done|]. by apply Hall in Ho'.
  - destruct (type_fold _ _ _ Est) as (_ & _ & Hf).
    destruct (map_choose _ Hne) as (x & o & Ho). pose proof (Hall _ _ Ho) as Hfl. destruct o as [| |m ha| |]; try done.
    exists ha. intros y o' Ho'. pose proof (Hall _ _ Ho') as Hfl'. destruct o' as [| |m' ha'| |]; try done. exists m'. f_equal.
    apply elem_of_map_sorted, Hf in Ho. apply elem_of_map_sorted, Hf in Ho'. congruence.
  - intros x o Ho. apply Hall in Ho. by destruct o.
  - intros x o Ho. apply Hall in Ho. destruct o; naive_solver.
Qed.

Definition type_kind (t : DerivationType) : OutputKind :=
  match t with
  | DT_InputAddressed false => KInputAddressed | DT_InputAddressed true => KDeferred
  | DT_ContentAddressed _ true => KFixed | DT_ContentAddressed _ false => KFloating
  | DT_Impure => KImpure
  end.

Lemma describes_kind t outs : type_describes t outs → map_Forall (λ _ o, kind_of o = type_kind t) outs.
Proof.
  intros H x o Ho. destruct t as [[]|[] []|]; cbn [type_describes type_kind] in *; try done.
  - by rewrite (H _ _ Ho).
  - by destruct (H _ _ Ho) as [p ->].
  - destruct H as [ha H]. by destruct (H _ _ Ho) as [m ->].
  - destruct H as [ca ->]. by apply lookup_singleton_Some in Ho as [_ <-].
  - by destruct (H _ _ Ho) as (m & ha & ->).
Qed.

Lemma describes_fold t drv :
  type_describes t (outputs drv) → ∃ st, foldR type_step type_init (map_sorted (outputs drv)) = Ok st.
Proof.
  intros H. pose proof (describes_kind _ _ H) as Hk.
  assert (∃ ha, ∀ x m h, (x, CAFloating m h) ∈ map_sorted (outputs drv) → h = ha) as [ha Hha].
  { setoid_rewrite elem_of_map_sorted. destruct (decide (t = DT_ContentAddressed true false)) as [->|Hn].
    - destruct H as [ha H]. exists ha. intros x m h Hx. destruct (H _ _ Hx) as [m' E]. congruence.
    - exists SHA256. intros x m h Hx. apply Hk in Hx. destruct t as [[]|[] []|]; done. }
  by apply (type_fold_ok _ _ ha).
Qed.

Lemma drv_type_iff drv t :
  drv_type drv = Ok t ↔ outputs drv ≠ ∅ ∧ type_describes t (outputs drv).
Proof.
  split.
  - intros Ht. destruct (foldR type_step type_init (map_sorted (outputs drv))) as [st|] eqn:Est.
    + by eapply kind_describes.
    + unfold drv_type in Ht. by rewrite Est in Ht.
  - intros [Hne Hd]. destruct (describes_fold _ _ Hd) as [st Est].
    pose proof (proj1 (one_kind _ _ Est _) (conj Hne (describes_kind _ _ Hd))) as Hk.
    unfold drv_type. rewrite Est. cbn [mbind result_bind].
    pose proof (Hk KInputAddressed) as K1. pose proof (Hk KFixed) as K2. pose proof (Hk KFloating) as K3.
    pose proof (Hk KDeferred) as K4. pose proof (Hk KImpure) as K5. cbn [kind_set] in *. rewrite K1, K2, K3, K4, K5.
    destruct t as [[]|[] []|]; try done. destruct Hd as [ca Hca].
    assert (fixedCAOutputs st = {["out"%str]}) as ->.
    { apply set_eq. intros x. rewrite (kind_set_spec _ _ Est KFixed), Hca, elem_of_singleton. split.
      - intros (o & Ho & _). by apply lookup_singleton_Some in Ho as [-> _].
      - intros ->. exists (CAFixed ca). by rewrite lookup_singleton_eq. }
    done.
Qed.

(** The type of a derivation is decided by its outputs alone: [type]
    accepts exactly the non-empty sets of outputs of one kind, where floating
    outputs agree on the hash algorithm and a fixed output stands alone under
    the name [out], and the type it answers says of which kind they are. *)
Theorem drv_type_spec drv t :
  drv_type drv = Ok t ↔ outputs drv ≠ ∅ ∧ type_describes t (outputs drv).
Proof. apply drv_type_iff. Qed.

(** ** Texts the format does not protect *)

Lemma scan_open s : raw_ok s → scan s = Ok (length s, false, false).
Proof.
  unfold raw_ok. induction s as [|c s IH]; cbn [forallb scan length]; [done|].
  intros [Hc Hr]%andb_true_iff. apply negb_true_iff, orb_false_iff in Hc as [-> ->]. by rewrite IH.
Qed.

Lemma parseString_open s : raw_ok s → parseString (dquote :: s) = Throw UndefinedBehaviour.
Proof.
  intros Hs. unfold parseString. change (dquote :: s) with ([dquote] ++ s). rewrite (pok_expect [dquote] s).
  cbn [mbind result_bind]. by rewrite scan_open.
Qed.

Lemma while_list_throw {A B} (elem : Parser A) (ins : B → A → B) acc s e :
  endOfList s = (false, s) → elem s = Throw e → while_list elem ins acc s = Throw e.
Proof. intros He Hs. unfold while_list. cbn [list_loop]. by rewrite He, Hs. Qed.

(** A derivation that ends inside a string is not rejected: the parser
    removes the closing quote from the view without having seen one, one
    character more than the view holds. Only an end right after a backslash is
    reported as an unterminated string. *)
Theorem unterminated_string_undefined xp storeDir name id :
  raw_ok id →
  parseDerivation xp storeDir ("Derive([(" ++ dquote :: id) name = Throw UndefinedBehaviour ∧
  parseDerivation xp storeDir ("Derive([(" ++ dquote :: id ++ [backslash_c]) name =
    Throw (FormatError "unterminated string in derivation").
Proof.
  intros Hid.
  assert (∀ e s, parseString (dquote :: s) = Throw e →
    parseDerivation xp storeDir ("Derive([(" ++ dquote :: s) name = Throw e) as Hgo.
  { intros e s Hs. unfold parseDerivation, parse_drv.
    pose proof (pok_version xp false) as Hv. cbn [Bool.eqb] in Hv.
    change ("Derive([(" ++ dquote :: s) with ("Derive(" ++ "[" ++ "(" ++ dquote :: s).
    rewrite Hv by done. cbn [mbind result_bind]. rewrite (pok_expect "["). cbn [mbind result_bind].
    rewrite (while_list_throw _ _ _ _ e); [done|done|]. unfold parse_output.
    rewrite (pok_expect "("). cbn [mbind result_bind]. by rewrite Hs. }
  split; apply Hgo; [by apply parseString_open|].
  unfold parseString. change (dquote :: ?x) with ([dquote] ++ x). rewrite (pok_expect [dquote]).
  cbn [mbind result_bind]. clear Hgo. assert (scan (id ++ [backslash_c]) = Throw (FormatError "unterminated string in derivation")) as ->.
  { revert Hid. unfold raw_ok. induction id as [|c s IH]; cbn [forallb scan app]; [done|].
    intros [Hc Hr]%andb_true_iff. apply negb_true_iff, orb_false_iff in Hc as [-> ->]. by rewrite IH. }
  done.
Qed.

Lemma unterminated_string_undefined_witness :
  parseDerivation [] "/bsd/store" ("Derive([(" ++ dquote :: "out") "x" = Throw UndefinedBehaviour.
Proof. by apply (unterminated_string_undefined [] "/bsd/store" "x" "out"). Defined.

(** Two derivations: the platform of the first spells the rest of the second. *)
Definition quoted (s : str) : str := [dquote] ++ s ++ [dquote].
Definition bare_drv (plat bld : str) (ar : list str) : Derivation :=
  {| basic := {| outputs := {["out"%str := Deferred]}; inputSrcs := ∅; platform := plat; builder := bld;
                 args := ar; env := ∅; drv_name := "x" |}; inputDrvs := ∅ |}.
Definition evil_platform : str :=
  "linux" ++ [dquote] ++ "," ++ quoted "/bin/evil" ++ ",[" ++ quoted "-c" ++ "],[])".

Definition bare_text : str :=
  "Derive([(" ++ quoted "out" ++ "," ++ quoted "" ++ "," ++ quoted "" ++ "," ++ quoted "" ++ ")],[],[]," ++
  quoted "linux" ++ "," ++ quoted "/bin/evil" ++ ",[" ++ quoted "-c" ++ "],[])".

(** The platform is printed without escaping and the parser ignores what
    follows the closing parenthesis, so a platform that contains quotes
    replaces the builder, the arguments and the environment of the derivation
    that is read back, without an error. *)
Theorem platform_not_escaped :
  ∃ w, unparse [] "/bsd/store" zero_hash (bare_drv evil_platform "/bin/sh" []) false None = Ok w ∧
    parseDerivation [] "/bsd/store" w "x" = Ok (bare_drv "linux" "/bin/evil" ["-c"%str]).
Proof.
  exists (bare_text ++ [dquote] ++ "," ++ quoted "/bin/sh" ++ ",[],[])"). split; [vm_compute; reflexivity|].
  unfold parseDerivation. destruct sample_dir_ok as [Hdir Hraw].
  rewrite (pok_drv [] "/bsd/store" zero_hash zero_hash_ok Hdir Hraw (bare_drv "linux" "/bin/evil" ["-c"%str])).
  - done.
  - split; [by apply map_Forall_singleton|apply map_Forall_empty|by intros p Hp%elem_of_empty|done|done].
  - vm_compute. reflexivity.
Qed.
