(* ===== verification/DerivedPath.v ===== *)
(** What can be asked of a store: [libstore/outputs-spec.cc],
    [libstore/derived-path.cc], [libstore/derived-path-map.cc] and
    [libstore/path-with-outputs.cc].

    A derived path is a store path, or some outputs of a derivation that may
    itself be an output of another. [DerivedPathMap] is a trie keyed by such
    paths; [StorePathWithOutputs] is the older form of the same requests. The
    JSON forms query a store and are not modelled. *)

From S2P Require Import Prelude Strings Xp Hash CanonPath FileSystem StorePath Derivation.

(** * Output specifications *)

(** [OutputsSpec]; the set of [Names] is never empty. *)
Inductive OutputsSpec := All | Names (names : gset str).

(** The constructor of [Names]. *)
Definition Names_new (names : gset str) : result OutputsSpec :=
  _ ← assertR (negb (bool_decide (names = ∅))); Ok (Names names).

Definition contains (spec : OutputsSpec) (outputName : str) : bool :=
  match spec with All => true | Names outputNames => bool_decide (outputName ∈ outputNames) end.

(** ** Matching [outputSpecRegexStr]

    The expression is a star, or a list of names separated by commas, where a
    name begins with a negative lookahead for one or two dots and a dash or the
    end of the whole input. A name cannot contain a comma, so the longest match
    of its characters is the only one. *)

Definition dash_or_end (s : str) : bool :=
  match s with [] => true | c :: _ => is_char c "-" end.
Definition lookahead_denied (s : str) : bool :=
  match s with
  | c :: s => is_char c "." && (dash_or_end s || match s with d :: s => is_char d "." && dash_or_end s | [] => false end)
  | [] => false
  end.

Fixpoint span_name (s : str) : str * str :=
  match s with
  | c :: s' => if name_char c then let '(n, r) := span_name s' in (c :: n, r) else ([], s)
  | [] => ([], [])
  end.

Fixpoint match_names (fuel : nat) (s : str) : bool :=
  match fuel with
  | O => false
  | S fuel =>
      let '(n, r) := span_name s in
      negb (lookahead_denied s) && nonempty n &&
      match r with [] => true | c :: r => is_char c "," && match_names fuel r end
  end.

Definition OutputsSpec_parseOpt (s : str) : result (option OutputsSpec) :=
  if str_eqb s "*" then Ok (Some All)
  else if match_names (S (length s)) s then
    spec ← Names_new (list_to_set (tokenizeString s ",")); Ok (Some spec)
  else Ok None.

Definition OutputsSpec_parse (s : str) : result OutputsSpec :=
  o ← OutputsSpec_parseOpt s;
  match o with Some spec => Ok spec | None => Throw (Error "invalid outputs specifier") end.

Definition OutputsSpec_to_string (spec : OutputsSpec) : str :=
  match spec with All => "*" | Names outputNames => concatStringsSep "," (set_sorted outputNames) end.

Definition union_ (this that : OutputsSpec) : OutputsSpec :=
  match this with
  | All => All
  | Names theseNames =>
      match that with All => All | Names thoseNames => Names (theseNames ∪ thoseNames) end
  end.

Definition isSubsetOf (this that : OutputsSpec) : bool :=
  match that with
  | All => true
  | Names thoseNames =>
      match this with
      | All => false
      | Names theseNames => foldl (λ ret o, if bool_decide (o ∈ thoseNames) then ret else false) true (set_sorted theseNames)
      end
  end.

(** [s.rfind(c)]. *)
Definition rfind (s : str) (c : ascii) : option nat :=
  (λ i, (length s - 1 - i)%nat) <$> find_idx (λ d, is_char d c) (reverse s).

Inductive ExtendedOutputsSpec := Default | Explicit (spec : OutputsSpec).

Definition Extended_parseOpt (s : str) : result (option (str * ExtendedOutputsSpec)) :=
  match rfind s "^" with
  | None => Ok (Some (s, Default))
  | Some found =>
      specOpt ← OutputsSpec_parseOpt (drop (found + 1) s);
      Ok (option_map (λ spec, (take found s, Explicit spec)) specOpt)
  end.

Definition Extended_parse (s : str) : result (str * ExtendedOutputsSpec) :=
  o ← Extended_parseOpt s;
  match o with Some r => Ok r | None => Throw (Error "invalid extended outputs specifier") end.

Definition Extended_to_string (e : ExtendedOutputsSpec) : str :=
  match e with Default => [] | Explicit spec => "^" ++ OutputsSpec_to_string spec end.

(** * Derived paths *)

Inductive SingleDerivedPath := SOpaque (path : StorePath) | SBuilt (drvPath : SingleDerivedPath) (output : str).
Inductive DerivedPath := Opaque (path : StorePath) | Built (drvPath : SingleDerivedPath) (outputs : OutputsSpec).

#[export] Instance OutputsSpec_eq_dec : EqDecision OutputsSpec.
Proof. solve_decision. Defined.
#[export] Instance SingleDerivedPath_eq_dec : EqDecision SingleDerivedPath.
Proof. solve_decision. Defined.
#[export] Instance DerivedPath_eq_dec : EqDecision DerivedPath.
Proof. solve_decision. Defined.

Section derived_path.
Context (xp : XpSettings) (storeDir : str).

Fixpoint Single_to_string (p : SingleDerivedPath) : str :=
  match p with
  | SOpaque path => printStorePath storeDir path
  | SBuilt drvPath output => Single_to_string drvPath ++ "^" ++ output
  end.

Definition Single_to_string_legacy (p : SingleDerivedPath) : str :=
  match p with
  | SOpaque path => printStorePath storeDir path
  | SBuilt drvPath output => Single_to_string drvPath ++ "!" ++ output
  end.

Definition DerivedPath_to_string (p : DerivedPath) : str :=
  match p with
  | Opaque path => printStorePath storeDir path
  | Built drvPath outputs => Single_to_string drvPath ++ "^" ++ OutputsSpec_to_string outputs
  end.

Definition DerivedPath_to_string_legacy (p : DerivedPath) : str :=
  match p with
  | Opaque path => printStorePath storeDir path
  | Built drvPath outputs => Single_to_string_legacy drvPath ++ "!" ++ OutputsSpec_to_string outputs
  end.

Definition drvRequireExperiment (drv : SingleDerivedPath) : result unit :=
  match drv with SOpaque _ => Ok tt | SBuilt _ _ => require_feature xp DynamicDerivations end.

Definition SBuilt_parse (drv : SingleDerivedPath) (output : str) : result SingleDerivedPath :=
  _ ← drvRequireExperiment drv; Ok (SBuilt drv output).

Definition Built_parse (drv : SingleDerivedPath) (outputsS : str) : result DerivedPath :=
  _ ← drvRequireExperiment drv; outputs ← OutputsSpec_parse outputsS; Ok (Built drv outputs).

(** The recursion is on a shorter string each time. *)
Fixpoint parseWithSingle (fuel : nat) (s : str) (separator : ascii) : result SingleDerivedPath :=
  match fuel with
  | O => Throw NonTermination
  | S fuel =>
      match rfind s separator with
      | None => p ← parseStorePath storeDir s; Ok (SOpaque p)
      | Some n => drv ← parseWithSingle fuel (take n s) separator; SBuilt_parse drv (drop (n + 1) s)
      end
  end.

Definition Single_parse (s : str) : result SingleDerivedPath := parseWithSingle (S (length s)) s "^".
Definition Single_parseLegacy (s : str) : result SingleDerivedPath := parseWithSingle (S (length s)) s "!".

Definition parseWith (s : str) (separator : ascii) : result DerivedPath :=
  match rfind s separator with
  | None => p ← parseStorePath storeDir s; Ok (Opaque p)
  | Some n => drv ← parseWithSingle (S (length s)) (take n s) separator; Built_parse drv (drop (n + 1) s)
  end.

Definition DerivedPath_parse (s : str) : result DerivedPath := parseWith s "^".
Definition DerivedPath_parseLegacy (s : str) : result DerivedPath := parseWith s "!".
End derived_path.

Definition fromSingle (req : SingleDerivedPath) : DerivedPath :=
  match req with
  | SOpaque path => Opaque path
  | SBuilt drvPath output => Built drvPath (Names {[output]})
  end.

Fixpoint Single_getBaseStorePath (p : SingleDerivedPath) : StorePath :=
  match p with SOpaque path => path | SBuilt drvPath _ => Single_getBaseStorePath drvPath end.
Definition getBaseStorePath (p : DerivedPath) : StorePath :=
  match p with Opaque path => path | Built drvPath _ => Single_getBaseStorePath drvPath end.

(** * The older requests *)

Record StorePathWithOutputs := { sp_path : StorePath; sp_outputs : gset str }.

Inductive ParseResult := PR_path (p : StorePathWithOutputs) | PR_drv (p : StorePath) | PR_none.

Definition StorePathWithOutputs_to_string (storeDir : str) (p : StorePathWithOutputs) : str :=
  if bool_decide (sp_outputs p = ∅) then printStorePath storeDir (sp_path p)
  else printStorePath storeDir (sp_path p) ++ "!" ++ concatStringsSep "," (set_sorted (sp_outputs p)).

Definition toDerivedPath (p : StorePathWithOutputs) : result DerivedPath :=
  if negb (bool_decide (sp_outputs p = ∅)) then
    spec ← Names_new (sp_outputs p); Ok (Built (SOpaque (sp_path p)) spec)
  else if isDerivation (sp_path p) then
    _ ← assertR (bool_decide (sp_outputs p = ∅)); Ok (Built (SOpaque (sp_path p)) All)
  else Ok (Opaque (sp_path p)).

Definition toDerivedPaths (ss : list StorePathWithOutputs) : result (list DerivedPath) := mapR toDerivedPath ss.

Definition tryFromDerivedPath (p : DerivedPath) : ParseResult :=
  match p with
  | Opaque path => if isDerivation path then PR_drv path else PR_path {| sp_path := path; sp_outputs := ∅ |}
  | Built (SOpaque path) outputs =>
      PR_path {| sp_path := path; sp_outputs := match outputs with All => ∅ | Names outputs => outputs end |}
  | Built (SBuilt _ _) _ => PR_none
  end.

Definition splitPathWithOutputs (s : str) : str * gset str :=
  match find_idx (λ c, is_char c "!") s with
  | None => (s, ∅)
  | Some n => (take n s, list_to_set (tokenizeString (drop (n + 1) s) ","))
  end.

Definition parsePathWithOutputs (storeDir : str) (pathWithOutputs : str) : result StorePathWithOutputs :=
  let '(path, outputs) := splitPathWithOutputs pathWithOutputs in
  p ← parseStorePath storeDir path; Ok {| sp_path := p; sp_outputs := outputs |}.

(** * Maps keyed by derived paths

    The instance [DerivedPathMap<StringSet>]. A child map is kept in key order,
    as [std::map] does. A reference to a slot is modelled by the function that
    the caller applies to it. *)

Abbreviation DerivedPathMap := (gmap StorePath ChildNode).
Definition empty_node : ChildNode := MkNode ∅ [].

(** [childMap[k]]: the slot is made if it is missing; [f] is what is done to it. *)
Definition child_at (k : str) (f : ChildNode → ChildNode) (m : list (str * ChildNode)) : list (str * ChildNode) :=
  smap_insert k (f (default empty_node (smap_find k m))) m.

Fixpoint ensureSlot (m : DerivedPathMap) (k : SingleDerivedPath) (f : ChildNode → ChildNode) : DerivedPathMap :=
  match k with
  | SOpaque path => <[path := f (default empty_node (m !! path))]> m
  | SBuilt drvPath output =>
      ensureSlot m drvPath (λ n, MkNode (node_value n) (child_at output f (node_childMap n)))
  end.

Fixpoint findSlot (m : DerivedPathMap) (k : SingleDerivedPath) : option ChildNode :=
  match k with
  | SOpaque path => m !! path
  | SBuilt drvPath output => n ← findSlot m drvPath; smap_find output (node_childMap n)
  end.

(** * Lemmas *)

(** ** Output specifications *)

Lemma str_not_in (X : gset str) : ∃ s, s ∉ X.
Proof.
  exists (replicate (S (list_max (map length (elements X)))) NUL). intros Hx%elem_of_elements%list_elem_of_In.
  pose proof (proj1 (list_max_le (map length (elements X)) _) (le_n _)) as Hm. rewrite List.Forall_forall in Hm.
  specialize (Hm _ (in_map length _ _ Hx)). rewrite length_replicate in Hm. lia.
Qed.

Lemma isSubsetOf_names (X Y : gset str) l b :
  (∀ s, s ∈ l ↔ s ∈ X) →
  foldl (λ ret o, if bool_decide (o ∈ Y) then ret else false) b l = true ↔ b = true ∧ X ⊆ Y.
Proof.
  intros Hl. transitivity (b = true ∧ ∀ s, s ∈ l → s ∈ Y); [|apply and_iff_compat_l; rewrite elem_of_subseteq; by setoid_rewrite Hl].
  clear Hl X. revert b. induction l as [|o l IH]; intros b; cbn [foldl].
  - split; [intros ->; split; [done|by intros s ?%elem_of_nil]|by intros [-> _]].
  - rewrite IH. case_bool_decide as Ho.
    + split; intros [-> H]; (split; [done|]); intros s; [intros [->|?]%elem_of_cons; auto|]. intros ?. apply H. by right.
    + split; [by intros [? _]|]. intros [_ H]. by destruct Ho; apply H; left.
Qed.

Lemma span_name_app x t : forallb name_char x = true → stops ","%char t → span_name (x ++ t) = (x, t).
Proof.
  intros Hx Ht. induction x as [|c x IH]; cbn [app].
  - destruct Ht as [->|(t' & ->)]; [done|]. reflexivity.
  - cbn in Hx. apply andb_true_iff in Hx as [Hc Hx]. cbn [span_name]. by rewrite Hc, (IH Hx).
Qed.

Lemma dash_or_end_app r t :
  stops ","%char t → dash_or_end (r ++ t) = true → (r = [] ∧ t = []) ∨ ∃ r', r = "-"%char :: r'.
Proof.
  intros Ht. destruct r as [|c r]; cbn.
  - destruct Ht as [->|(t' & ->)]; [by left|done].
  - unfold is_char. intros ->%bool_decide_eq_true. right. eauto.
Qed.

Lemma denied_name x t : nameRegex x → stops ","%char t → lookahead_denied (x ++ t) = false.
Proof.
  intros (Hne & _ & H1 & H2) Ht. destruct x as [|c x]; [done|]. apply not_true_iff_false. cbn. unfold is_char at 1.
  intros [->%bool_decide_eq_true Hd]%andb_true_iff. apply orb_true_iff in Hd as [Hd|Hd].
  - destruct (dash_or_end_app _ _ Ht Hd) as [[-> _]|(r & ->)]; by destruct H1.
  - destruct x as [|d x]; cbn in Hd.
    + destruct Ht as [->|(t' & ->)]; done.
    + unfold is_char at 1 in Hd. apply andb_true_iff in Hd as [->%bool_decide_eq_true Hd].
      destruct (dash_or_end_app _ _ Ht Hd) as [[-> _]|(r & ->)]; by destruct H2.
Qed.

Lemma match_names_join l fuel :
  l ≠ [] → Forall nameRegex l → (length l <= fuel)%nat → match_names fuel (join "," l) = true.
Proof.
  intros Hne Hl. revert fuel. induction Hl as [|x l Hx Hl IH]; intros fuel Hf; [done|].
  destruct fuel as [|fuel]; [cbn in Hf; lia|]. cbn [match_names].
  assert (∃ t, join "," (x :: l) = x ++ t ∧ stops ","%char t ∧
    match t with [] => true | c :: r => is_char c "," && match_names fuel r end = true) as (t & -> & Ht & Hm).
  { destruct l as [|y l].
    - exists []. cbn [join]. rewrite app_nil_r. split_and!; [done|by left|done].
    - eexists. rewrite join_cons by done. split; [done|]. split; [right; eauto|].
      cbn [app]. change (is_char "," ",") with true. cbn [andb]. apply IH; [done|]. cbn in Hf |- *. lia. }
  rewrite span_name_app, denied_name by (done || apply Hx). cbn [negb andb]. rewrite Hm, andb_true_r.
  destruct Hx as (Hn & _). by destruct x.
Qed.

Definition spec_ok (spec : OutputsSpec) : Prop :=
  match spec with All => True | Names ns => ns ≠ ∅ ∧ set_Forall nameRegex ns end.

Lemma nameRegex_not_in c x : nameRegex x → name_char c = false → c ∉ x.
Proof. intros (_ & Hx & _). by apply forallb_not_elem. Qed.

Lemma OutputsSpec_roundtrip spec :
  spec_ok spec → OutputsSpec_parseOpt (OutputsSpec_to_string spec) = Ok (Some spec).
Proof.
  destruct spec as [|ns]; [done|]. intros [Hne Hns]. unfold OutputsSpec_to_string, OutputsSpec_parseOpt.
  rewrite concatStringsSep_join. set (l := set_sorted ns).
  assert (Forall nameRegex l) as Hl by (apply Forall_forall; intros x Hx%elem_of_set_sorted; by apply Hns).
  assert (l ≠ []) as Hln.
  { intros E. apply Hne. rewrite <- (list_to_set_sorted ns). fold l. by rewrite E. }
  assert ((length l <= length (join "," l))%nat) as Hlen.
  { clear Hln. induction Hl as [|x l' Hx _ IH]; [done|]. destruct Hx as (Hx & _). destruct l' as [|y l'].
    - cbn. destruct x; [done|cbn; lia].
    - rewrite join_cons, !length_app by done. cbn in *. lia. }
  rewrite (proj2 (str_eqb_false _ _)).
  2:{ intros E. assert ("*"%char ∉ join "," l) as Hs; [|rewrite E in Hs; destruct Hs; by left].
      apply not_elem_of_join; [by apply (bool_decide_unpack _)|]. eapply Forall_impl; [exact Hl|]. intros x Hx. by eapply nameRegex_not_in. }
  rewrite match_names_join by (done || lia). rewrite tokenize_join.
  2:{ eapply Forall_impl; [exact Hl|]. intros x Hx. split; [apply Hx|by eapply nameRegex_not_in]. }
  unfold l. rewrite list_to_set_sorted. unfold Names_new, assertR. by rewrite bool_decide_eq_false_2.
Qed.

(** ** Separators *)

Lemma rfind_app s c t : c ∉ t → rfind (s ++ c :: t) c = Some (length s).
Proof.
  intros Hc. unfold rfind. rewrite reverse_app, reverse_cons, <- app_assoc. cbn [app].
  rewrite find_idx_app_stop; [|apply forallb_forall; intros d Hd; apply negb_true_iff, bool_decide_eq_false; intros ->|by apply bool_decide_eq_true].
  - cbn [fmap option_fmap option_map]. f_equal. rewrite length_reverse, length_app. cbn. lia.
  - by apply Hc, elem_of_reverse, list_elem_of_In.
Qed.

Lemma rfind_none s c : c ∉ s → rfind s c = None.
Proof.
  intros Hc. unfold rfind. replace (find_idx _ _) with (@None nat); [done|]. symmetry. apply find_idx_None, forallb_forall.
  intros d Hd. apply negb_true_iff, bool_decide_eq_false. intros ->. by apply Hc, elem_of_reverse, list_elem_of_In.
Qed.

(** ** Derived paths *)

Section roundtrip.
Context (xp : XpSettings) (storeDir : str) (Hdir : store_dir_ok storeDir).

(** What can be written with a separator: it does not occur in the parts, and
    derivations that are outputs themselves need the feature. *)
Fixpoint single_ok (sep : ascii) (p : SingleDerivedPath) : Prop :=
  match p with
  | SOpaque path => sp_dashed path
  | SBuilt d o => single_ok sep d ∧ (sep ∉ o) ∧ drvRequireExperiment xp d = Ok tt
  end.

Fixpoint Single_print (sep : ascii) (p : SingleDerivedPath) : str :=
  match p with
  | SOpaque path => printStorePath storeDir path
  | SBuilt d o => Single_print sep d ++ sep :: o
  end.

Lemma Single_to_string_print p : Single_to_string storeDir p = Single_print "^" p.
Proof. induction p as [|p IH]; cbn; [done|]. by rewrite IH. Qed.

Fixpoint single_depth (p : SingleDerivedPath) : nat :=
  match p with SOpaque _ => 1 | SBuilt d _ => S (single_depth d) end.

Lemma single_depth_length sep p : (single_depth p <= length (Single_print sep p))%nat.
Proof.
  induction p as [p|p IH o]; cbn [single_depth Single_print].
  - unfold printStorePath. rewrite !length_app. cbn. lia.
  - rewrite length_app. cbn. lia.
Qed.

Lemma parse_single sep p fuel :
  name_char sep = false → sep ≠ "/"%char → sep ∉ storeDir → single_ok sep p → (single_depth p <= fuel)%nat →
  parseWithSingle xp storeDir fuel (Single_print sep p) sep = Ok p.
Proof using Hdir.
  intros Hc Hsl Hs. revert fuel. induction p as [p|d IH o]; intros fuel Hp Hf; (destruct fuel as [|fuel]; [cbn in Hf; lia|]);
    cbn [parseWithSingle Single_print single_ok single_depth] in *.
  - rewrite rfind_none; [by rewrite (parse_print storeDir p Hdir (proj1 Hp))|].
    unfold printStorePath. rewrite !not_elem_of_app. split_and!; [done| |].
    + intros E. apply Hsl. by apply list_elem_of_singleton in E.
    + eapply forallb_not_elem; [by apply sp_dashed_chars|done].
  - destruct Hp as (Hd & Ho & Hx). rewrite rfind_app by done. rewrite take_app_length.
    rewrite IH by (done || lia). cbn [mbind result_bind]. rewrite Nat.add_1_r, drop_app_cons_length. unfold SBuilt_parse. by rewrite Hx.
Qed.

Lemma parse_built sep d spec :
  name_char sep = false → sep ≠ "/"%char → sep ∉ storeDir → sep ≠ ","%char → sep ≠ "*"%char →
  single_ok sep d → drvRequireExperiment xp d = Ok tt → spec_ok spec →
  parseWith xp storeDir (Single_print sep d ++ sep :: OutputsSpec_to_string spec) sep = Ok (Built d spec).
Proof using Hdir.
  intros Hc Hsl Hs Hcm Hst Hd Hx Hspec. unfold parseWith. rewrite rfind_app.
  - rewrite take_app_length, parse_single; [|done..|].
    + cbn [mbind result_bind]. unfold Built_parse. rewrite Hx. cbn [mbind result_bind].
      rewrite Nat.add_1_r, drop_app_cons_length. unfold OutputsSpec_parse. by rewrite OutputsSpec_roundtrip.
    + pose proof (single_depth_length sep d). rewrite length_app. lia.
  - destruct spec as [|ns]; cbn [OutputsSpec_to_string].
    + intros E%list_elem_of_singleton. by symmetry in E.
    + rewrite concatStringsSep_join. apply not_elem_of_join; [by intros ?%list_elem_of_singleton|].
      apply Forall_forall. intros x Hin%elem_of_set_sorted. destruct Hspec as [_ Hns]. eapply nameRegex_not_in; [by apply Hns|done].
Qed.

Definition derived_ok (sep : ascii) (p : DerivedPath) : Prop :=
  match p with
  | Opaque path => sp_dashed path
  | Built d spec => single_ok sep d ∧ drvRequireExperiment xp d = Ok tt ∧ spec_ok spec
  end.

Definition Derived_print (sep : ascii) (p : DerivedPath) : str :=
  match p with
  | Opaque path => printStorePath storeDir path
  | Built d spec => Single_print sep d ++ sep :: OutputsSpec_to_string spec
  end.

Lemma parse_derived sep p :
  name_char sep = false → sep ≠ "/"%char → sep ∉ storeDir → sep ≠ ","%char → sep ≠ "*"%char →
  derived_ok sep p → parseWith xp storeDir (Derived_print sep p) sep = Ok p.
Proof using Hdir.
  intros Hc Hsl Hs Hcm Hst Hp. destruct p as [p|d spec]; cbn [Derived_print derived_ok] in *.
  - pose proof (parse_single sep (SOpaque p) 1 Hc Hsl Hs Hp (le_n _)) as H. revert H. cbn [parseWithSingle Single_print].
    unfold parseWith. destruct (rfind _ _); [done|]. destruct (parseStorePath _ _); cbn [mbind result_bind]; [|done]. by intros [= ->].
  - destruct Hp as (Hd & Hx & Hspec). by apply parse_built.
Qed.
End roundtrip.

(** ** Maps *)

(** A node is addressed by the outputs on the way to it. *)
Fixpoint at_node (outs : list str) (f : ChildNode → ChildNode) (n : ChildNode) : ChildNode :=
  match outs with
  | [] => f n
  | o :: outs => MkNode (node_value n) (child_at o (at_node outs f) (node_childMap n))
  end.
Fixpoint descend (outs : list str) (n : ChildNode) : option ChildNode :=
  match outs with
  | [] => Some n
  | o :: outs => c ← smap_find o (node_childMap n); descend outs c
  end.
Fixpoint single_outs (k : SingleDerivedPath) : list str :=
  match k with SOpaque _ => [] | SBuilt d o => single_outs d ++ [o] end.

Lemma at_node_snoc outs o f n :
  at_node outs (λ n, MkNode (node_value n) (child_at o f (node_childMap n))) n = at_node (outs ++ [o]) f n.
Proof.
  revert n. induction outs as [|o' outs IH]; intros n; cbn [at_node app]; [done|]. unfold child_at. by rewrite IH.
Qed.

Lemma descend_snoc outs o n : descend (outs ++ [o]) n = (n' ← descend outs n; smap_find o (node_childMap n')).
Proof.
  revert n. induction outs as [|o' outs IH]; intros n; cbn [descend app].
  - cbn. by destruct (smap_find o (node_childMap n)).
  - destruct (smap_find o' (node_childMap n)); cbn; [apply IH|done].
Qed.

Lemma ensureSlot_at m k f :
  ensureSlot m k f = <[Single_getBaseStorePath k := at_node (single_outs k) f (default empty_node (m !! Single_getBaseStorePath k))]> m.
Proof.
  revert f. induction k as [p|d IH o]; intros f; cbn [ensureSlot Single_getBaseStorePath single_outs]; [done|].
  by rewrite IH, at_node_snoc.
Qed.

Lemma findSlot_at m k : findSlot m k = (n ← m !! Single_getBaseStorePath k; descend (single_outs k) n).
Proof.
  induction k as [p|d IH o]; cbn [findSlot Single_getBaseStorePath single_outs].
  - by destruct (m !! p).
  - rewrite IH. destruct (m !! _); cbn; [by rewrite descend_snoc|done].
Qed.

Definition set_value (v : gset str) (n : ChildNode) : ChildNode := MkNode v (node_childMap n).
Definition value_at (outs : list str) (n : ChildNode) : option (gset str) := node_value <$> descend outs n.

(** [l1] is a proper prefix of [l2]. *)
Fixpoint before (l1 l2 : list str) : bool :=
  match l1, l2 with
  | [], _ :: _ => true
  | o :: l1, o' :: l2 => bool_decide (o = o') && before l1 l2
  | _, [] => false
  end.

Lemma value_at_set outs outs' v n :
  value_at outs' (at_node outs (set_value v) n) =
    if bool_decide (outs' = outs) then Some v
    else match value_at outs' n with Some w => Some w | None => if before outs' outs then Some ∅ else None end.
Proof.
  unfold value_at. revert outs' n. induction outs as [|o outs IH]; intros [|o' outs'] n; cbn [at_node descend before].
  - by rewrite bool_decide_eq_true_2.
  - rewrite bool_decide_eq_false_2 by done. cbn [set_value node_childMap]. destruct (smap_find o' _); cbn; [|done]. by destruct (descend outs' _).
  - rewrite bool_decide_eq_false_2 by done. done.
  - cbn [node_childMap]. unfold child_at. destruct (decide (o = o')) as [<-|Ho].
    + rewrite smap_find_insert. cbn [mbind option_bind]. rewrite IH, (bool_decide_eq_true_2 (o = o)) by done. cbn [andb].
      assert (bool_decide (o :: outs' = o :: outs) = bool_decide (outs' = outs)) as -> by (apply bool_decide_ext; split; [by intros [= ->]|by intros ->]).
      destruct (smap_find o (node_childMap n)) as [c|]; cbn [default from_option id mbind option_bind]; [done|].
      case_bool_decide; [done|]. destruct outs'; cbn [descend]; [|done]. cbn. by destruct outs.
    + rewrite smap_find_insert_ne by done. rewrite !(bool_decide_eq_false_2) by congruence. cbn [andb].
      destruct (smap_find o' _); cbn; [|done]. by destruct (descend outs' _).
Qed.

Fixpoint is_ancestor (k' k : SingleDerivedPath) : bool :=
  match k with
  | SOpaque _ => false
  | SBuilt d _ => bool_decide (k' = d) || is_ancestor k' d
  end.

Lemma before_snoc l1 l2 o : before l1 (l2 ++ [o]) = bool_decide (l1 = l2) || before l1 l2.
Proof.
  revert l2. induction l1 as [|x l1 IH]; intros [|y l2]; cbn [before app]; try done.
  - destruct l1; cbn; by rewrite andb_false_r.
  - rewrite IH. destruct (decide (x = y)) as [<-|Hx].
    + rewrite (bool_decide_eq_true_2 (x = x)) by done. cbn [andb]. f_equal.
      apply bool_decide_ext. split; [by intros ->|by intros [= ->]].
    + rewrite (bool_decide_eq_false_2 (x = y)), (bool_decide_eq_false_2 (x :: l1 = y :: l2)) by congruence. done.
Qed.

Lemma single_eq k k' :
  Single_getBaseStorePath k' = Single_getBaseStorePath k → single_outs k' = single_outs k → k' = k.
Proof.
  revert k'. induction k as [p|d IH o]; intros [p'|d' o']; cbn; intros Hb Ho.
  - by subst.
  - by destruct (single_outs d').
  - by destruct (single_outs d).
  - apply app_inj_2 in Ho as [Ho [= ->]]; [|done]. by rewrite (IH d').
Qed.

Lemma is_ancestor_before k' k :
  Single_getBaseStorePath k' = Single_getBaseStorePath k → is_ancestor k' k = before (single_outs k') (single_outs k).
Proof.
  induction k as [p|d IH o]; intros Hb; cbn [is_ancestor single_outs].
  - by destruct (single_outs k').
  - rewrite before_snoc, (IH Hb). f_equal. apply bool_decide_ext. split; [by intros ->|by apply single_eq].
Qed.

Lemma is_ancestor_base k' k : is_ancestor k' k = true → Single_getBaseStorePath k' = Single_getBaseStorePath k.
Proof.
  induction k as [p|d IH o]; cbn; [done|]. intros [->%bool_decide_eq_true|H]%orb_true_iff; auto.
Qed.

(** * Properties *)

(** Derived paths survive their text, however deeply derivations are
    outputs of each other. The form with exclamation marks is read back when
    the derivation is a store path or an output of one. *)
Theorem derived_path_roundtrip xp storeDir :
  store_dir_ok storeDir → "^"%char ∉ storeDir → "!"%char ∉ storeDir →
  (∀ p, derived_ok xp "^" p → DerivedPath_parse xp storeDir (DerivedPath_to_string storeDir p) = Ok p) ∧
  (∀ p, single_ok xp "^" p → Single_parse xp storeDir (Single_to_string storeDir p) = Ok p) ∧
  (∀ p, derived_ok xp "!" p → match p with Built d _ => (single_depth d <= 2)%nat | _ => True end →
    DerivedPath_parseLegacy xp storeDir (DerivedPath_to_string_legacy storeDir p) = Ok p).
Proof.
  intros Hd H1 H2. split_and!.
  - intros p Hp. pose proof (parse_derived xp storeDir Hd "^" p) as H. unfold DerivedPath_parse.
    replace (DerivedPath_to_string storeDir p) with (Derived_print storeDir "^" p); [by apply H|].
    destruct p; cbn; [done|]. by rewrite Single_to_string_print.
  - intros p Hp. unfold Single_parse. rewrite Single_to_string_print. apply parse_single; [done..|].
    pose proof (single_depth_length storeDir "^" p). lia.
  - intros p Hp Hl. pose proof (parse_derived xp storeDir Hd "!" p) as H. unfold DerivedPath_parseLegacy.
    replace (DerivedPath_to_string_legacy storeDir p) with (Derived_print storeDir "!" p); [by apply H|].
    destruct p as [|[q|[q|d' o'] o] spec]; [done..|]. destruct d'; cbn in Hl; lia.
Qed.

Definition sample_drv : StorePath := MkStorePath "00000000000000000000000000000000-x.drv".
Definition nested_path (n : nat) : SingleDerivedPath := Nat.iter n (λ p, SBuilt p "out"%str) (SOpaque sample_drv).

Lemma derived_path_roundtrip_witness :
  DerivedPath_parse [DynamicDerivations] "/bsd/store"
    (DerivedPath_to_string "/bsd/store" (Built (nested_path 2) (Names {["bin"%str; "out"%str]}))) =
  Ok (Built (nested_path 2) (Names {["bin"%str; "out"%str]})).
Proof.
  refine (proj1 (derived_path_roundtrip [DynamicDerivations] "/bsd/store" _ _ _) (Built (nested_path 2) (Names {["bin"%str; "out"%str]})) _).
  - exists ["bsd"; "store"]%str. split; [done|]. split; [|done]. apply (bool_decide_unpack _). vm_compute. exact I.
  - apply (bool_decide_unpack _). exact I.
  - apply (bool_decide_unpack _). exact I.
  - assert (sp_dashed sample_drv) as Hs.
    { split; [|reflexivity]. apply (bool_decide_unpack _). vm_compute. exact I. }
    assert ("^"%char ∉ "out"%str) as Ho by (apply (bool_decide_unpack _); exact I).
    refine (conj (conj (conj Hs (conj Ho eq_refl)) (conj Ho eq_refl)) (conj eq_refl (conj _ _))).
    + intros [E _]%empty_union_L. by apply non_empty_singleton_L in E.
    + apply set_Forall_union; apply set_Forall_singleton; unfold nameRegex; apply (bool_decide_unpack _); vm_compute; exact I.
Defined.

(** With one more level the older form mixes both separators, and cannot be
    read. *)
Example legacy_nested_mixed :
  DerivedPath_to_string_legacy "/s" (Built (nested_path 2) All) = ("/s/" ++ baseName sample_drv ++ "^out!out!*")%str ∧
  is_ok (DerivedPath_parseLegacy [DynamicDerivations] "/s" (DerivedPath_to_string_legacy "/s" (Built (nested_path 2) All))) = false.
Proof. split; vm_compute; reflexivity. Qed.

(** A name of dots is accepted except at the end of the list, where the
    lookahead finds the end of the input. *)
Example dots_before_comma :
  OutputsSpec_parseOpt "..,out" = Ok (Some (Names {[".."%str; "out"%str]})) ∧ OutputsSpec_parseOpt "out,.." = Ok None.
Proof. split; vm_compute; reflexivity. Qed.

(** Output specifications are sets of output names: [union_] contains what
    either contains, [isSubsetOf] is inclusion, and both the plain and the
    extended form survive their text after any prefix. *)
Theorem outputs_spec_algebra (a b : OutputsSpec) :
  (∀ o, contains (union_ a b) o = contains a o || contains b o) ∧
  (isSubsetOf a b = true ↔ ∀ o, contains a o = true → contains b o = true) ∧
  (spec_ok a → OutputsSpec_parse (OutputsSpec_to_string a) = Ok a ∧
    ∀ prefix, Extended_parse (prefix ++ Extended_to_string (Explicit a)) = Ok (prefix, Explicit a)) ∧
  (∀ prefix, "^"%char ∉ prefix → Extended_parse (prefix ++ Extended_to_string Default) = Ok (prefix, Default)).
Proof.
  split_and!.
  - intros o. destruct a as [|x], b as [|y]; cbn; [done..|by rewrite orb_true_r|]. rewrite <- bool_decide_or. apply bool_decide_ext. set_solver.
  - destruct b as [|y], a as [|x]; cbn [isSubsetOf contains]; [done|done| |].
    + split; [done|]. intros H. destruct (str_not_in y) as [s Hs]. specialize (H s eq_refl). by apply bool_decide_eq_true in H.
    + rewrite (isSubsetOf_names x y) by (intros; apply elem_of_set_sorted). rewrite elem_of_subseteq.
      setoid_rewrite bool_decide_eq_true. naive_solver.
  - intros Ha. pose proof (OutputsSpec_roundtrip a Ha) as Hr. split; [unfold OutputsSpec_parse; by rewrite Hr|].
    intros prefix. unfold Extended_parse, Extended_parseOpt. cbn [Extended_to_string].
    change ("^" ++ OutputsSpec_to_string a) with ("^"%char :: OutputsSpec_to_string a). rewrite rfind_app.
    + rewrite Nat.add_1_r, drop_app_cons_length, Hr, take_app_length. done.
    + destruct a as [|x]; cbn [OutputsSpec_to_string]; [by apply (bool_decide_unpack _)|]. rewrite concatStringsSep_join.
      apply not_elem_of_join; [by apply (bool_decide_unpack _)|]. apply Forall_forall. intros s Hin%elem_of_set_sorted.
      destruct Ha as [_ Hx]. eapply nameRegex_not_in; [by apply Hx|done].
  - intros prefix Hp. cbn. rewrite app_nil_r. unfold Extended_parse, Extended_parseOpt. by rewrite rfind_none.
Qed.

(** A map keyed by derived paths behaves as one: after a value is assigned
    through [ensureSlot], [findSlot] finds it there, every other slot keeps its
    value, and the only new slots are those of the derivations on the way,
    which are empty. *)
Theorem derived_path_map_slots (m : DerivedPathMap) k k' v :
  node_value <$> findSlot (ensureSlot m k (set_value v)) k' =
    if bool_decide (k' = k) then Some v
    else match node_value <$> findSlot m k' with
         | Some w => Some w
         | None => if is_ancestor k' k then Some ∅ else None
         end.
Proof.
  rewrite ensureSlot_at, !findSlot_at. destruct (decide (Single_getBaseStorePath k = Single_getBaseStorePath k')) as [Hb|Hb].
  - rewrite <- Hb, lookup_insert_eq. cbn [mbind option_bind].
    pose proof (value_at_set (single_outs k) (single_outs k') v (default empty_node (m !! Single_getBaseStorePath k))) as H.
    unfold value_at in H. rewrite H, (is_ancestor_before k' k) by done.
    assert (bool_decide (single_outs k' = single_outs k) = bool_decide (k' = k)) as ->.
    { apply bool_decide_ext. split; [by apply single_eq|by intros ->]. }
    destruct (bool_decide (k' = k)) eqn:Hk; [done|]. apply bool_decide_eq_false in Hk. destruct (m !! _) as [n|]; cbn [default from_option id mbind option_bind]; [done|].
    destruct (single_outs k') as [|o l] eqn:Eo; cbn; [|done]. destruct (single_outs k) eqn:Ek; [|done].
    destruct Hk. apply single_eq; congruence.
  - rewrite lookup_insert_ne by done. rewrite bool_decide_eq_false_2 by congruence.
    destruct (is_ancestor k' k) eqn:Ea; [by apply is_ancestor_base in Ea|].
    by destruct (m !! _ ≫= _).
Qed.

(** The older requests are derived paths: translating one and back gives
    it again, and it survives its text. *)
Theorem path_with_outputs_roundtrip storeDir (p : StorePathWithOutputs) :
  (∃ d, toDerivedPath p = Ok d ∧ tryFromDerivedPath d = PR_path p) ∧
  (store_dir_ok storeDir → "!"%char ∉ storeDir → sp_dashed (sp_path p) →
   set_Forall (λ o, o ≠ [] ∧ (","%char ∉ o)) (sp_outputs p) →
   parsePathWithOutputs storeDir (StorePathWithOutputs_to_string storeDir p) = Ok p).
Proof.
  destruct p as [path outs]. cbn [sp_path sp_outputs]. split.
  - unfold toDerivedPath. cbn [sp_path sp_outputs]. case_bool_decide as Ho; cbn [negb].
    + subst. destruct (isDerivation path) eqn:Ed; [by eexists|]. eexists. split; [done|]. cbn. by rewrite Ed.
    + unfold Names_new. rewrite bool_decide_eq_false_2 by done. by eexists.
  - intros Hd Hx Hp Ho. unfold StorePathWithOutputs_to_string, parsePathWithOutputs, splitPathWithOutputs. cbn [sp_path sp_outputs].
    assert ("!"%char ∉ printStorePath storeDir path) as Hn.
    { unfold printStorePath. rewrite !not_elem_of_app. split_and!; [done|by apply (bool_decide_unpack _)|].
      eapply forallb_not_elem; [by apply sp_dashed_chars|done]. }
    assert (forallb (λ c, negb (is_char c "!")) (printStorePath storeDir path) = true) as Hf.
    { apply forallb_forall. intros c Hc. apply negb_true_iff, bool_decide_eq_false. intros ->. by apply Hn, list_elem_of_In. }
    case_bool_decide as He.
    + rewrite (proj2 (find_idx_None _ _)) by done. rewrite (parse_print storeDir path Hd (proj1 Hp)). by subst.
    + change ("!" ++ concatStringsSep "," (set_sorted outs)) with ("!"%char :: concatStringsSep "," (set_sorted outs)).
      rewrite find_idx_app_stop by done. rewrite take_app_length, Nat.add_1_r, drop_app_cons_length, (parse_print storeDir path Hd (proj1 Hp)).
      cbn [mbind result_bind]. rewrite concatStringsSep_join, tokenize_join; [by rewrite list_to_set_sorted|].
      apply Forall_forall. intros o Hin%elem_of_set_sorted. by apply Ho.
Qed.
