(* ===== verification/DrvHash.v ===== *)
(** Hashes of derivations modulo fixed outputs and what is computed from them:
    the second half of [libstore/derivations.cc].

    The memoisation table [drvHashes] is threaded as a state that survives
    exceptions. Reading derivations from the store is a parameter
    ([readInvalidDerivation]), as are the hash functions. [hash_modulo] is the
    computation without the table, the reference for the memoised one. *)

From S2P Require Import Prelude Strings Xp Hash CanonPath Serialise FileSystem StorePath ContentAddress Aterm Derivation.

(** * State and exceptions *)

Inductive DrvHashKind := Regular | DeferredHash.
Record DrvHash := { hashes : gmap str Hash; kind : DrvHashKind }.
Abbreviation DrvHashes := (gmap StorePath DrvHash).

(** A computation over the table; it keeps its changes when it throws. *)
Definition ST (A : Type) : Type := DrvHashes → result A * DrvHashes.
#[export] Instance ST_ret : MRet ST := λ A a hs, (Ok a, hs).
#[export] Instance ST_bind : MBind ST := λ A B f m hs,
  match m hs with (Ok a, hs) => f a hs | (Throw e, hs) => (Throw e, hs) end.
Definition lift {A} (r : result A) : ST A := λ hs, (r, hs).
Fixpoint foldS {A S} (f : S → A → ST S) (s : S) (l : list A) : ST S :=
  match l with [] => mret s | x :: l => s ← f s x; foldS f s l end.

(** * Hashing *)

Section hash.
Context (xp : XpSettings) (storeDir : str) (hashString : HashAlgorithm → str → Hash).
Context (readInvalidDerivation : StorePath → result Derivation).

(** The hash of an output of a fixed-output derivation. *)
Definition fixed_output_hash (drvName : str) (i : str * DerivationOutput) : result (str * Hash) :=
  match i.2 with
  | CAFixed ca =>
      ma ← printMethodAlgo xp ca;
      h ← to_string (ca_hash ca) Base16 false;
      p ← CAFixed_path xp storeDir hashString ca drvName i.1;
      Ok (i.1, hashString SHA256 ("fixed:out:" ++ ma ++ ":" ++ h ++ ":" ++ printStorePath storeDir p))
  | _ => Throw (Error "bad_variant_access")
  end.
Definition fixed_hashes (drv : BasicDerivation) : result DrvHash :=
  hs ← mapR (fixed_output_hash (drv_name drv)) (map_sorted (outputs drv));
  Ok {| hashes := insert_all ∅ hs; kind := Regular |}.

Definition initial_kind (t : DerivationType) : DrvHashKind :=
  match t with
  | DT_InputAddressed _ => Regular
  | DT_ContentAddressed _ fixed => if fixed then Regular else DeferredHash
  | DT_Impure => DeferredHash
  end.

(** [inputs2\[k\].value.insert(outputName)]. *)
Definition insert_value (inputs2 : gmap str ChildNode) (k outputName : str) : gmap str ChildNode :=
  let 'MkNode v cm := default (MkNode ∅ []) (inputs2 !! k) in
  <[k := MkNode ({[outputName]} ∪ v) cm]> inputs2.

Definition add_output (res : DrvHash) (inputs2 : gmap str ChildNode) (outputName : str)
    : result (gmap str ChildNode) :=
  match hashes res !! outputName with
  | None => Throw (Error "no hash for output of derivation")
  | Some h => k ← to_string h Base16 false; Ok (insert_value inputs2 k outputName)
  end.

(** A round of the loop over the input derivations. *)
Definition add_input (acc : DrvHashKind * gmap str ChildNode) (res : DrvHash) (node : ChildNode)
    : result (DrvHashKind * gmap str ChildNode) :=
  inputs2 ← foldR (add_output res) acc.2 (set_sorted (node_value node));
  Ok (match kind res with DeferredHash => DeferredHash | Regular => acc.1 end, inputs2).

Definition finish_hash (drv : Derivation) (maskOutputs : bool) (acc : DrvHashKind * gmap str ChildNode)
    : result DrvHash :=
  s ← unparse xp storeDir hashString drv maskOutputs (Some (map_sorted acc.2));
  let hash := hashString SHA256 s in
  Ok {| hashes := insert_all ∅ (map (λ no : str * DerivationOutput, (no.1, hash)) (map_sorted (outputs (basic drv))));
        kind := acc.1 |}.

(** Without the table. *)
Fixpoint hash_modulo (fuel : nat) (drv : Derivation) (maskOutputs : bool) : result DrvHash :=
  match fuel with
  | O => Throw NonTermination
  | S fuel =>
      type ← drv_type (basic drv);
      if isFixed type then fixed_hashes (basic drv)
      else
        acc ← foldR (λ acc (pn : StorePath * ChildNode),
                       drv ← readInvalidDerivation pn.1;
                       res ← hash_modulo fuel drv false;
                       add_input acc res pn.2)
                (initial_kind type, ∅) (map_sorted (inputDrvs drv));
        finish_hash drv maskOutputs acc
  end.

Definition insert_or_assign (drvPath : StorePath) (h : DrvHash) : ST unit := λ hs, (Ok tt, <[drvPath := h]> hs).

(** [pathDerivationModulo], given [hashDerivationModulo]. *)
Definition pathDerivationModulo (hash : Derivation → ST DrvHash) (drvPath : StorePath) : ST DrvHash := λ hs,
  match hs !! drvPath with
  | Some h => (Ok h, hs)
  | None =>
      let body : ST DrvHash :=
        drv ← lift (readInvalidDerivation drvPath);
        h ← hash drv;
        _ ← insert_or_assign drvPath h;
        mret h in
      body hs
  end.

Fixpoint hashDerivationModulo (fuel : nat) (drv : Derivation) (maskOutputs : bool) : ST DrvHash :=
  match fuel with
  | O => lift (Throw NonTermination)
  | S fuel =>
      type ← lift (drv_type (basic drv));
      if isFixed type then lift (fixed_hashes (basic drv))
      else
        acc ← foldS (λ acc (pn : StorePath * ChildNode),
                       res ← pathDerivationModulo (λ drv, hashDerivationModulo fuel drv false) pn.1;
                       lift (add_input acc res pn.2))
                (initial_kind type, ∅) (map_sorted (inputDrvs drv));
        lift (finish_hash drv maskOutputs acc)
  end.

Definition staticOutputHashes (fuel : nat) (drv : Derivation) : ST (gmap str Hash) :=
  h ← hashDerivationModulo fuel drv true; mret (hashes h).

Definition hashPlaceholder (outputName : str) : result str :=
  h ← to_string (hashString SHA256 ("bsd-output:" ++ outputName)) Bsd32 false; Ok ("/" ++ h).
End hash.

(** * Rewriting and checking *)

Section rewriting.
Context (xp : XpSettings) (storeDir : str) (hashString : HashAlgorithm → str → Hash).
Context (readInvalidDerivation : StorePath → result Derivation).
Abbreviation hashDerivationModulo := (hashDerivationModulo xp storeDir hashString readInvalidDerivation).

(** [rewriteStrings] with fuel for its inner loop. *)
Definition rewriteR (fuel : nat) (rewrites : gmap str str) (s : str) : result str :=
  match rewriteStrings fuel s rewrites with Some s => Ok s | None => Throw NonTermination end.

Definition rewrite_env (fuel : nat) (rewrites : gmap str str) (newEnv : gmap str str) (envVar : str * str)
    : result (gmap str str) :=
  envName ← rewriteR fuel rewrites envVar.1;
  envValue ← rewriteR fuel rewrites envVar.2;
  Ok (emplace newEnv (envName, envValue)).

Definition applyRewrites (fuel : nat) (drv : BasicDerivation) (rewrites : gmap str str) : result BasicDerivation :=
  if bool_decide (rewrites = ∅) then Ok drv
  else
    bld ← rewriteR fuel rewrites (builder drv);
    ar ← mapR (rewriteR fuel rewrites) (args drv);
    en ← foldR (rewrite_env fuel rewrites) ∅ (map_sorted (env drv));
    Ok {| outputs := outputs drv; inputSrcs := inputSrcs drv; platform := platform drv; builder := bld;
          args := ar; env := en; drv_name := drv_name drv |}.

(** A round of the loop of [rewriteDerivation] over the outputs. *)
Definition fill_output (hashModulo : DrvHash) (drv : BasicDerivation) (no : str * DerivationOutput)
    : result BasicDerivation :=
  match no.2 with
  | Deferred =>
      match hashes hashModulo !! no.1 with
      | None => Throw (Error "derivation output has no hash")
      | Some h =>
          outPath ← makeOutputPath xp storeDir hashString no.1 h (drv_name drv);
          Ok {| outputs := <[no.1 := InputAddressed outPath]> (outputs drv); inputSrcs := inputSrcs drv;
                platform := platform drv; builder := builder drv; args := args drv;
                env := <[no.1 := printStorePath storeDir outPath]> (env drv); drv_name := drv_name drv |}
      end
  | _ => Ok drv
  end.

Definition rewriteDerivation (fuel : nat) (drv : BasicDerivation) (rewrites : gmap str str) : ST BasicDerivation :=
  drv ← lift (applyRewrites fuel drv rewrites);
  hashModulo ← hashDerivationModulo 1 {| basic := drv; inputDrvs := ∅ |} true;
  lift (foldR (fill_output hashModulo) drv (map_sorted (outputs drv))).

Definition envHasRightPath (en : gmap str str) (actual : StorePath) (varName : str) : result unit :=
  match en !! varName with
  | None => Throw (Error "derivation has incorrect environment variable")
  | Some v =>
      p ← parseStorePath storeDir v;
      if bool_decide (p = actual) then Ok tt else Throw (Error "derivation has incorrect environment variable")
  end.

(** A round of the loop of [checkInvariants]; the state is [hashesModulo]. *)
Definition check_output (fuel : nat) (drv : Derivation) (drvName : str) (hashesModulo : option DrvHash)
    (i : str * DerivationOutput) : ST (option DrvHash) :=
  match i.2 with
  | InputAddressed path =>
      h ← (match hashesModulo with
           | Some h => mret h
           | None => hashDerivationModulo fuel drv true
           end);
      _ ← lift (match hashes h !! i.1 with
                | None => Throw (Error "derivation has unexpected output")
                | Some currentOutputHash =>
                    recomputed ← makeOutputPath xp storeDir hashString i.1 currentOutputHash drvName;
                    if bool_decide (path = recomputed) then envHasRightPath (env (basic drv)) path i.1
                    else Throw (Error "derivation has incorrect output")
                end);
      mret (Some h)
  | CAFixed ca =>
      _ ← lift (p ← CAFixed_path xp storeDir hashString ca drvName i.1; envHasRightPath (env (basic drv)) p i.1);
      mret hashesModulo
  | CAFloating _ _ | Deferred | Impure _ _ => mret hashesModulo
  end.

Definition checkInvariants (fuel : nat) (drv : Derivation) (drvPath : StorePath) : ST unit :=
  _ ← lift (assertR (isDerivation drvPath));
  let drvName := take (length (sp_name drvPath) - length drvExtension) (sp_name drvPath) in
  if negb (str_eqb drvName (drv_name (basic drv))) then lift (Throw (Error "derivation name does not match its path"))
  else
    _ ← lift (drv_type (basic drv));
    _ ← foldS (check_output fuel drv drvName) None (map_sorted (outputs (basic drv)));
    mret tt.
End rewriting.

(** * Memoisation *)

Section memo.
Context (xp : XpSettings) (storeDir : str) (hashString : HashAlgorithm → str → Hash).
Context (readInvalidDerivation : StorePath → result Derivation).
Abbreviation hash_modulo := (hash_modulo xp storeDir hashString readInvalidDerivation).
Abbreviation hashDerivationModulo := (hashDerivationModulo xp storeDir hashString readInvalidDerivation).
Abbreviation pathDerivationModulo := (pathDerivationModulo readInvalidDerivation).

(** The references between derivations are well-founded. *)
Definition ranked (rank : StorePath → nat) : Prop :=
  ∀ p d q n, readInvalidDerivation p = Ok d → inputDrvs d !! q = Some n → (rank q < rank p)%nat.
Definition inputs_below (rank : StorePath → nat) (N : nat) (drv : Derivation) : Prop :=
  ∀ q n, inputDrvs drv !! q = Some n → (rank q < N)%nat.

Context (rank : StorePath → nat) (Hrank : ranked rank).

Lemma foldR_ext {A S} (f g : S → A → result S) s l :
  (∀ x, x ∈ l → ∀ s, f s x = g s x) → foldR f s l = foldR g s l.
Proof.
  revert s. induction l as [|x l IH]; intros s H; [done|]. cbn [foldR]. rewrite (H x) by (by left).
  destruct (g s x); [|done]. cbn [mbind result_bind]. apply IH. intros y Hy. apply H. by right.
Qed.

(** More fuel than the depth of the graph changes nothing. *)
Lemma hash_modulo_fuel N drv mask fuel :
  inputs_below rank N drv → (S N <= fuel)%nat → hash_modulo fuel drv mask = hash_modulo (S N) drv mask.
Proof.
  revert drv mask fuel. induction N as [N IH] using lt_wf_ind. intros drv mask [|fuel] Hb Hf; [lia|].
  cbn [DrvHash.hash_modulo]. destruct (drv_type (basic drv)) as [t|]; [|done]. cbn [mbind result_bind].
  destruct (isFixed t); [done|]. f_equal. apply foldR_ext. intros [q n] Hq acc. cbn [fst snd].
  destruct (readInvalidDerivation q) as [d|] eqn:Ed; [|done]. cbn [mbind result_bind].
  apply elem_of_map_sorted in Hq. pose proof (Hb _ _ Hq) as Hlt.
  assert (inputs_below rank (rank q) d) as Hd by (intros q' n' Hq'; by eapply Hrank).
  rewrite (IH (rank q) Hlt d false fuel Hd) by lia. by rewrite (IH (rank q) Hlt d false N Hd) by lia.
Qed.

(** The table holds what the computation without it answers. *)
Definition table_ok (hs : DrvHashes) : Prop :=
  ∀ p h, hs !! p = Some h → ∃ d, readInvalidDerivation p = Ok d ∧ hash_modulo (S (rank p)) d false = Ok h.

(** [m] computes [r] and keeps the table right, never losing an entry. *)
Definition computes {A} (m : ST A) (r : result A) : Prop :=
  ∀ hs, table_ok hs → ∃ hs', m hs = (r, hs') ∧ table_ok hs' ∧ dom hs ⊆ dom hs'.

Lemma computes_lift {A} (r : result A) : computes (lift r) r.
Proof. intros hs Hh. by exists hs. Qed.

Lemma computes_bind {A B} (m : ST A) (k : A → ST B) r f :
  computes m r → (∀ a, r = Ok a → computes (k a) (f a)) → computes (m ≫= k) (r ≫= f).
Proof.
  intros Hm Hk hs Hh. destruct (Hm hs Hh) as (h1 & E & H1 & D1). unfold mbind, ST_bind. rewrite E.
  destruct r as [a|e]; [|by exists h1]. destruct (Hk a eq_refl h1 H1) as (h2 & E2 & H2 & D2).
  exists h2. split; [done|]. split; [done|]. by etrans.
Qed.

Lemma computes_foldS {A S} (f : S → A → ST S) (g : S → A → result S) s l :
  (∀ x, x ∈ l → ∀ s, computes (f s x) (g s x)) → computes (foldS f s l) (foldR g s l).
Proof.
  revert s. induction l as [|x l IH]; intros s H; [apply (computes_lift (Ok s))|]. cbn [foldS foldR].
  apply computes_bind; [apply H; by left|]. intros s' _. apply IH. intros y Hy. apply H. by right.
Qed.

Lemma computes_path N q :
  (rank q < N)%nat →
  (∀ d, readInvalidDerivation q = Ok d → computes (hashDerivationModulo N d false) (hash_modulo N d false)) →
  computes (pathDerivationModulo (λ d, hashDerivationModulo N d false) q)
    (d ← readInvalidDerivation q; hash_modulo N d false).
Proof.
  intros Hq Hc hs Hh. unfold DrvHash.pathDerivationModulo.
  assert (Hst : ∀ d, readInvalidDerivation q = Ok d → hash_modulo N d false = hash_modulo (S (rank q)) d false).
  { intros d Ed. apply hash_modulo_fuel; [|lia]. intros q' n' Hq'. by eapply Hrank. }
  destruct (hs !! q) as [h|] eqn:Eh.
  - destruct (Hh _ _ Eh) as (d & Ed & Hd). exists hs. rewrite Ed. cbn [mbind result_bind]. by rewrite Hst, Hd.
  - unfold mbind, ST_bind, lift. destruct (readInvalidDerivation q) as [d|e] eqn:Ed; [|by exists hs]. cbn [result_bind].
    destruct (Hc d eq_refl hs Hh) as (h1 & E1 & H1 & D1). rewrite E1.
    destruct (hash_modulo N d false) as [h|e] eqn:Er; [|by exists h1]. unfold insert_or_assign.
    eexists. split; [reflexivity|]. split; [|rewrite dom_insert; set_solver].
    intros p h' Hp. apply lookup_insert_Some in Hp as [[-> ->]|[_ Hp]]; [|by apply H1].
    exists d. split; [done|]. rewrite <- Hst by done. exact Er.
Qed.

Lemma computes_hash N drv mask :
  inputs_below rank N drv → computes (hashDerivationModulo (S N) drv mask) (hash_modulo (S N) drv mask).
Proof.
  revert drv mask. induction N as [N IH] using lt_wf_ind. intros drv mask Hb.
  cbn [DrvHash.hashDerivationModulo DrvHash.hash_modulo]. apply computes_bind; [apply computes_lift|]. intros t _.
  destruct (isFixed t); [apply computes_lift|]. apply computes_bind; [|intros acc _; apply computes_lift].
  apply computes_foldS. intros [q n] Hq acc. cbn [fst snd]. apply elem_of_map_sorted in Hq. pose proof (Hb _ _ Hq) as Hlt.
  assert (∀ r (k : DrvHash → result (DrvHashKind * gmap str ChildNode)),
    (d ← readInvalidDerivation q; res ← r d; k res) = (d ← readInvalidDerivation q; r d) ≫= k) as Ebind.
  { intros r k. by destruct (readInvalidDerivation q). }
  rewrite (Ebind (λ d, hash_modulo N d false)). apply computes_bind; [|intros res _; apply computes_lift].
  apply computes_path; [done|]. intros d Ed. destruct N as [|N]; [lia|]. apply IH; [lia|].
  intros q' n' Hq'. assert (rank q' < rank q)%nat by (by eapply Hrank). lia.
Qed.
End memo.

(** * What the inputs contribute *)

Section inputs.
Context (xp : XpSettings) (storeDir : str) (hashString : HashAlgorithm → str → Hash).

(** The pairs of a hash and an output name in the table of inputs. *)
Definition pairs (m : gmap str ChildNode) (k o : str) : Prop := ∃ n, m !! k = Some n ∧ o ∈ node_value n.
Definition plain (m : gmap str ChildNode) : Prop := map_Forall (λ _ n, node_childMap n = [] ∧ node_value n ≠ ∅) m.

Lemma plain_eq m1 m2 : plain m1 → plain m2 → (∀ k o, pairs m1 k o ↔ pairs m2 k o) → m1 = m2.
Proof.
  intros P1 P2 H.
  assert (∀ m m' : gmap str ChildNode, plain m → plain m' → (∀ k o, pairs m k o ↔ pairs m' k o) →
    ∀ k n, m !! k = Some n → m' !! k = Some n) as Hgo.
  { clear. intros m m' P P' H k n Hn. destruct (P _ _ Hn) as [Hc Hv]. apply set_choose_L in Hv as [o Ho].
    destruct (proj1 (H k o)) as (n' & Hn' & _); [by exists n|]. destruct (P' _ _ Hn') as [Hc' _]. rewrite Hn'. f_equal.
    destruct n as [v cm], n' as [v' cm']. cbn in *. subst. f_equal. apply set_eq. intros x.
    specialize (H k x). unfold pairs in H. rewrite Hn, Hn' in H. naive_solver. }
  apply map_eq. intros k. destruct (m1 !! k) as [n|] eqn:E1.
  - symmetry. by eapply (Hgo m1 m2).
  - destruct (m2 !! k) as [n|] eqn:E2; [|done]. assert (m1 !! k = Some n) as E; [|congruence].
    eapply (Hgo m2 m1); [done|done|by intros; rewrite H|done].
Qed.

Lemma insert_value_pairs m k o k' o' : pairs (insert_value m k o) k' o' ↔ pairs m k' o' ∨ k' = k ∧ o' = o.
Proof.
  unfold pairs, insert_value. destruct (default (MkNode ∅ []) (m !! k)) as [v cm] eqn:E.
  destruct (decide (k' = k)) as [->|Hk].
  - rewrite lookup_insert_eq. split.
    + intros (n & [= <-] & Ho). cbn [node_value] in Ho. apply elem_of_union in Ho as [Ho%elem_of_singleton|Ho]; [by right|].
      left. destruct (m !! k) as [n|]; cbn in E; [subst; by eexists|]. injection E as <- <-. by apply not_elem_of_empty in Ho.
    + intros [(n & En & Ho)|[_ ->]]; eexists; (split; [reflexivity|]); cbn [node_value]; [|set_solver].
      rewrite En in E. cbn in E. subst. set_solver.
  - rewrite lookup_insert_ne by done. naive_solver.
Qed.

Lemma insert_value_plain m k o : plain m → plain (insert_value m k o).
Proof.
  unfold insert_value. intros Hm. destruct (default (MkNode ∅ []) (m !! k)) as [v cm] eqn:E.
  apply map_Forall_insert_2; [|done]. cbn. split; [|set_solver].
  destruct (m !! k) as [n|] eqn:En; cbn in E; subst; [|by injection E]. by destruct (Hm _ _ En).
Qed.

Definition output_key (res : DrvHash) (o k : str) : Prop :=
  ∃ h, hashes res !! o = Some h ∧ to_string h Base16 false = Ok k.

Lemma add_outputs_spec res os m m' :
  plain m →
  foldR (add_output res) m os = Ok m' →
  plain m' ∧ (∀ o, o ∈ os → ∃ k, output_key res o k) ∧
  (∀ k o, pairs m' k o ↔ pairs m k o ∨ o ∈ os ∧ output_key res o k).
Proof.
  revert m. induction os as [|o os IH]; intros m Hm E; cbn [foldR] in E.
  { injection E as <-. split; [done|]. split; [by intros o Ho%elem_of_nil|]. set_solver. }
  unfold add_output at 2 in E. destruct (hashes res !! o) as [h|] eqn:Eh; [|done].
  destruct (to_string h Base16 false) as [k|] eqn:Ek; [|done]. cbn [mbind result_bind] in E.
  destruct (IH _ (insert_value_plain _ _ _ Hm) E) as (P & K & Q). split; [done|].
  assert (∀ k', output_key res o k' ↔ k' = k) as Hok.
  { intros k'. unfold output_key. rewrite Eh. split; [intros (h' & [= <-] & E'); congruence|intros ->; eauto]. }
  split.
  - intros o' [->|Ho']%elem_of_cons; [|by apply K]. exists k. by apply Hok.
  - intros k' o'. rewrite Q, insert_value_pairs, elem_of_cons. split.
    + intros [[?|[-> ->]]|[? ?]]; [by left|right|right; by split; [right|]]. split; [by left|by apply Hok].
    + intros [?|[[->|?] Hk]]; [by left; left|left; right; split; [by apply Hok|done]|by right].
Qed.

Lemma add_outputs_ok res os m :
  (∀ o, o ∈ os → ∃ k, output_key res o k) → ∃ m', foldR (add_output res) m os = Ok m'.
Proof.
  revert m. induction os as [|o os IH]; intros m H; [eauto|]. cbn [foldR].
  destruct (H o) as (k & h & Eh & Ek); [by left|]. unfold add_output at 2. rewrite Eh, Ek. cbn [mbind result_bind].
  apply IH. intros o' Ho'. apply H. by right.
Qed.

(** ** The loop over the inputs *)

Context (resolve : StorePath → result DrvHash).
Definition input_step (acc : DrvHashKind * gmap str ChildNode) (pn : StorePath * ChildNode) :=
  res ← resolve pn.1; add_input acc res pn.2.

(** An input resolves, with a hash for each of its outputs. *)
Definition resolves (pn : StorePath * ChildNode) : Prop :=
  ∃ res, resolve pn.1 = Ok res ∧ ∀ o, o ∈ node_value pn.2 → ∃ k, output_key res o k.
Definition contributes (pn : StorePath * ChildNode) (k o : str) : Prop :=
  ∃ res, resolve pn.1 = Ok res ∧ o ∈ node_value pn.2 ∧ output_key res o k.
Definition defers (pn : StorePath * ChildNode) : Prop :=
  ∃ res, resolve pn.1 = Ok res ∧ kind res = DeferredHash.

Lemma inputs_spec l acc acc' :
  plain acc.2 → foldR input_step acc l = Ok acc' →
  plain acc'.2 ∧ (∀ pn, pn ∈ l → resolves pn) ∧
  (∀ k o, pairs acc'.2 k o ↔ pairs acc.2 k o ∨ ∃ pn, pn ∈ l ∧ contributes pn k o) ∧
  (acc'.1 = DeferredHash ↔ acc.1 = DeferredHash ∨ ∃ pn, pn ∈ l ∧ defers pn).
Proof.
  revert acc. induction l as [|pn l IH]; intros acc Hp E; cbn [foldR] in E.
  { injection E as <-. split; [done|]. split; [by intros o Ho%elem_of_nil|]. set_solver. }
  unfold input_step at 2 in E. destruct (resolve pn.1) as [res|] eqn:Er; [|done]. cbn [mbind result_bind] in E.
  unfold add_input in E. destruct (foldR (add_output res) acc.2 _) as [m|] eqn:Em; [|done]. cbn [mbind result_bind] in E.
  destruct (add_outputs_spec _ _ _ _ Hp Em) as (P1 & K1 & Q1).
  destruct (IH _ (P1 : plain (_, m).2) E) as (P & K & Q & D). cbn [fst snd] in *. split; [done|]. split_and!.
  - intros pn' [->|?]%elem_of_cons; [|by apply K]. exists res. split; [done|]. intros o Ho. apply K1. by apply elem_of_set_sorted.
  - intros k o. rewrite Q, Q1. setoid_rewrite elem_of_cons. setoid_rewrite elem_of_set_sorted. unfold contributes.
    split.
    + intros [[?|[? ?]]|(pn' & ? & ?)]; [by left|right; exists pn; split; [by left|by exists res]|right; exists pn'; split; [by right|done]].
    + intros [?|(pn' & [->|?] & (r & Hr & ? & ?))]; [by left; left| |right; exists pn'; split; [done|by exists r]].
      left; right. rewrite Er in Hr. by injection Hr as <-.
  - rewrite D. setoid_rewrite elem_of_cons. unfold defers. split.
    + intros [H|(pn' & ? & ?)]; [|right; exists pn'; split; [by right|done]].
      destruct (kind res) eqn:Ek; [by left|]. right. exists pn. split; [by left|by exists res].
    + intros [->|(pn' & [->|?] & (r & Hr & Hk))]; [by left; destruct (kind res)| |right; exists pn'; split; [done|by exists r]].
      left. rewrite Er in Hr. injection Hr as <-. by rewrite Hk.
Qed.

Lemma inputs_ok l acc : (∀ pn, pn ∈ l → resolves pn) → ∃ acc', foldR input_step acc l = Ok acc'.
Proof.
  revert acc. induction l as [|pn l IH]; intros acc H; [eauto|]. cbn [foldR].
  destruct (H pn) as (res & Er & Ho); [by left|]. unfold input_step at 2. rewrite Er. cbn [mbind result_bind].
  unfold add_input. destruct (add_outputs_ok res (set_sorted (node_value pn.2)) acc.2) as [m ->].
  { intros o Hi. apply Ho. by apply elem_of_set_sorted. }
  cbn [mbind result_bind]. apply IH. intros pn' Hp. apply H. by right.
Qed.
End inputs.

(** * Properties *)

(** ** The table is transparent *)

(** [C6] Memoisation does not change hashes: when the derivations of the store
    refer to each other without a cycle, then from any table filled by earlier
    calls [hashDerivationModulo] answers what the computation without a table
    answers, errors included, and leaves a table of the same kind with no entry
    lost. Fuel for one more than the depth of the inputs is enough: any larger
    amount gives the same answer. *)
Theorem memoised_hash_transparent xp storeDir hashString read rank N drv mask hs :
  ranked read rank → inputs_below rank N drv → table_ok xp storeDir hashString read rank hs →
  (∃ hs', hashDerivationModulo xp storeDir hashString read (S N) drv mask hs =
            (hash_modulo xp storeDir hashString read (S N) drv mask, hs') ∧
          table_ok xp storeDir hashString read rank hs' ∧ dom hs ⊆ dom hs') ∧
  (∀ fuel, (S N <= fuel)%nat →
    hash_modulo xp storeDir hashString read fuel drv mask = hash_modulo xp storeDir hashString read (S N) drv mask).
Proof.
  intros Hr Hb Ht. split; [by apply computes_hash|]. intros fuel Hf. by apply (hash_modulo_fuel _ _ _ _ rank).
Qed.

(** A store with one fixed-output derivation, and a derivation that uses it. *)
Definition fetch_drv (url : str) : Derivation :=
  {| basic := {| outputs := {["out"%str := CAFixed {| ca_method := CAM_Flat; ca_hash := zero_hash SHA256 [] |}]};
                 inputSrcs := ∅; platform := "builtin"; builder := "builtin:fetchurl"; args := [];
                 env := {["url"%str := url]}; drv_name := "src" |}; inputDrvs := ∅ |}.
Definition sample_read (p : StorePath) : result Derivation :=
  if bool_decide (p = sample_path "a.drv") then Ok (fetch_drv "http://a")
  else if bool_decide (p = sample_path "b.drv") then Ok (fetch_drv "http://b")
  else Throw (InvalidPath "path is not valid").
Definition user_drv (input : StorePath) : Derivation :=
  {| basic := {| outputs := {["out"%str := Deferred]}; inputSrcs := ∅; platform := "x86_64-linux"; builder := "/bin/sh";
                 args := []; env := {["out"%str := ""%str]}; drv_name := "user" |};
     inputDrvs := {[input := MkNode {["out"%str]} []]} |}.

Lemma sample_ranked : ranked sample_read (λ _, 0%nat).
Proof.
  intros p d q n Hp Hq. unfold sample_read in Hp. repeat case_bool_decide; try done; injection Hp as <-;
    cbn [inputDrvs fetch_drv] in Hq; by apply lookup_empty_Some in Hq.
Qed.
Lemma user_below p : inputs_below (λ _, 0%nat) 1 (user_drv p).
Proof. intros q n _. lia. Qed.

Lemma memoised_hash_transparent_witness :
  ∃ hs', hashDerivationModulo [] "/bsd/store" zero_hash sample_read 2 (user_drv (sample_path "a.drv")) true ∅ =
           (hash_modulo [] "/bsd/store" zero_hash sample_read 2 (user_drv (sample_path "a.drv")) true, hs').
Proof.
  destruct (memoised_hash_transparent [] "/bsd/store" zero_hash sample_read (λ _, 0%nat) 1
    (user_drv (sample_path "a.drv")) true ∅ sample_ranked (user_below _)) as [(hs' & E & _) _]; [|by exists hs'].
  intros p h Hp. by apply lookup_empty_Some in Hp.
Defined.

(** ** Modulo fixed outputs *)

Section modulo.
Context (xp : XpSettings) (storeDir : str) (hashString : HashAlgorithm → str → Hash).
Context (read : StorePath → result Derivation).
Abbreviation hash_modulo := (hash_modulo xp storeDir hashString read).

(** Input derivations that are the same, or fixed-output derivations with the
    same outputs, whatever their inputs, builders and environments. *)
Definition interchangeable (p q : StorePath) : Prop :=
  p = q ∨
  ∃ dp dq, read p = Ok dp ∧ read q = Ok dq ∧
    outputs (basic dp) = outputs (basic dq) ∧ drv_name (basic dp) = drv_name (basic dq) ∧
    drv_type (basic dp) = Ok (DT_ContentAddressed false true).

(** Every input of [d1] is an input of [d2], up to interchange, with the same
    outputs used. *)
Definition inputs_within (d1 d2 : Derivation) : Prop :=
  ∀ p n, inputDrvs d1 !! p = Some n →
    ∃ q m, inputDrvs d2 !! q = Some m ∧ node_value m = node_value n ∧ interchangeable p q.

Definition resolve (fuel : nat) (p : StorePath) : result DrvHash := d ← read p; hash_modulo fuel d false.

Lemma resolve_interchangeable fuel p q : interchangeable p q → resolve fuel p = resolve fuel q.
Proof.
  unfold resolve. intros [->|(dp & dq & -> & -> & Ho & Hn & Ht)]; [done|]. cbn [mbind result_bind].
  destruct fuel as [|fuel]; [done|]. cbn [DrvHash.hash_modulo].
  assert (drv_type (basic dq) = drv_type (basic dp)) as -> by (unfold drv_type; by rewrite Ho).
  rewrite Ht. cbn [mbind result_bind isFixed]. unfold fixed_hashes. by rewrite Ho, Hn.
Qed.

Lemma hash_modulo_unfold fuel drv mask :
  hash_modulo (S fuel) drv mask =
  (type ← drv_type (basic drv);
   if isFixed type then fixed_hashes xp storeDir hashString (basic drv)
   else acc ← foldR (input_step (resolve fuel)) (initial_kind type, ∅) (map_sorted (inputDrvs drv));
        finish_hash xp storeDir hashString drv mask acc).
Proof.
  cbn [DrvHash.hash_modulo]. destruct (drv_type (basic drv)) as [t|]; [|done]. cbn [mbind result_bind].
  destruct (isFixed t); [done|]. f_equal. apply foldR_ext. intros pn _ acc. unfold input_step, resolve.
  by destruct (read pn.1).
Qed.

Lemma inputs_transfer fuel (l1 l2 : list (StorePath * ChildNode)) pn :
  (∀ p n, (p, n) ∈ l1 → ∃ q m, (q, m) ∈ l2 ∧ node_value m = node_value n ∧ interchangeable p q) →
  pn ∈ l1 → ∃ pm, pm ∈ l2 ∧ node_value pm.2 = node_value pn.2 ∧ resolve fuel pm.1 = resolve fuel pn.1.
Proof.
  intros H Hp. destruct pn as [p n]. destruct (H p n Hp) as (q & m & Hq & Hv & Hi). exists (q, m).
  split; [done|]. split; [done|]. symmetry. by apply resolve_interchangeable.
Qed.

Lemma same_inputs_fold fuel d1 d2 acc acc1 :
  inputs_within d1 d2 → inputs_within d2 d1 → plain acc.2 →
  foldR (input_step (resolve fuel)) acc (map_sorted (inputDrvs d1)) = Ok acc1 →
  foldR (input_step (resolve fuel)) acc (map_sorted (inputDrvs d2)) = Ok acc1.
Proof.
  intros H12 H21 Hp E1. set (l1 := map_sorted (inputDrvs d1)) in *. set (l2 := map_sorted (inputDrvs d2)).
  assert (∀ pn, pn ∈ l1 → ∃ pm, pm ∈ l2 ∧ node_value pm.2 = node_value pn.2 ∧ resolve fuel pm.1 = resolve fuel pn.1) as T12.
  { intros pn. apply inputs_transfer. unfold l1, l2. setoid_rewrite elem_of_map_sorted. exact H12. }
  assert (∀ pn, pn ∈ l2 → ∃ pm, pm ∈ l1 ∧ node_value pm.2 = node_value pn.2 ∧ resolve fuel pm.1 = resolve fuel pn.1) as T21.
  { intros pn. apply inputs_transfer. unfold l1, l2. setoid_rewrite elem_of_map_sorted. exact H21. }
  destruct (inputs_spec _ _ _ _ Hp E1) as (P1 & R1 & Q1 & D1).
  destruct (inputs_ok (resolve fuel) l2 acc) as [acc2 E2].
  { intros pn Hpn. destruct (T21 _ Hpn) as (pm & Hm & Hv & Hr). destruct (R1 _ Hm) as (res & Er & Ho).
    exists res. by rewrite <- Hr, <- Hv. }
  destruct (inputs_spec _ _ _ _ Hp E2) as (P2 & R2 & Q2 & D2). rewrite E2. f_equal.
  destruct acc1 as [k1 m1], acc2 as [k2 m2]. cbn [fst snd] in *. f_equal.
  - assert (k1 = DeferredHash ↔ k2 = DeferredHash) as Hk; [|destruct k1, k2; naive_solver].
    rewrite D1, D2. apply or_iff_compat_l. unfold defers. split; intros (pn & Hpn & (res & Hres)).
    + destruct (T12 _ Hpn) as (pm & Hm & _ & Hr). exists pm. split; [done|]. exists res. by rewrite Hr.
    + destruct (T21 _ Hpn) as (pm & Hm & _ & Hr). exists pm. split; [done|]. exists res. by rewrite Hr.
  - apply plain_eq; [done|done|]. intros k o. rewrite Q1, Q2. apply or_iff_compat_l. unfold contributes.
    split; intros (pn & Hpn & (res & Hres)).
    + destruct (T21 _ Hpn) as (pm & Hm & Hv & Hr). exists pm. split; [done|]. exists res. by rewrite Hr, Hv.
    + destruct (T12 _ Hpn) as (pm & Hm & Hv & Hr). exists pm. split; [done|]. exists res. by rewrite Hr, Hv.
Qed.
End modulo.

(** [C8] The hash of a derivation does not depend on how its fixed-output
    inputs are produced: exchanging inputs for fixed-output derivations with
    the same name and outputs, possibly several for one, changes neither the
    hashes nor their kind. *)
Theorem hash_modulo_interchange xp storeDir hashString read fuel mask d1 d2 h :
  basic d1 = basic d2 → hasDynamicDrvDep d1 = hasDynamicDrvDep d2 →
  inputs_within read d1 d2 → inputs_within read d2 d1 →
  hash_modulo xp storeDir hashString read fuel d1 mask = Ok h →
  hash_modulo xp storeDir hashString read fuel d2 mask = Ok h.
Proof.
  intros Hb Hd H12 H21. destruct fuel as [|fuel]; [done|]. rewrite !hash_modulo_unfold, <- Hb.
  destruct (drv_type (basic d1)) as [t|]; [|done]. cbn [mbind result_bind]. destruct (isFixed t); [done|].
  destruct (foldR _ _ (map_sorted (inputDrvs d1))) as [acc|] eqn:E; cbn [mbind result_bind]; [|done].
  rewrite (same_inputs_fold _ _ _ _ _ _ _ _ _ H12 H21 (map_Forall_empty _) E). cbn [mbind result_bind].
  unfold finish_hash, unparse. by rewrite <- Hb, <- Hd.
Qed.

Definition hash_of (r : result DrvHash) : option (option (list Z)) :=
  match r with Ok h => Some (hash <$> hashes h !! "out"%str) | Throw _ => None end.

Lemma hash_modulo_interchange_witness :
  ∃ h, hash_modulo [] "/bsd/store" zero_hash sample_read 2 (user_drv (sample_path "a.drv")) true = Ok h ∧
       hash_modulo [] "/bsd/store" zero_hash sample_read 2 (user_drv (sample_path "b.drv")) true = Ok h.
Proof.
  assert (∀ p q url url', sample_read p = Ok (fetch_drv url) → sample_read q = Ok (fetch_drv url') →
    inputs_within sample_read (user_drv p) (user_drv q)) as Hin.
  { intros p q url url' Hp Hq p' n Hn. cbn [inputDrvs user_drv] in Hn. apply lookup_singleton_Some in Hn as [<- <-].
    exists q, (MkNode {["out"%str]} []). split; [apply lookup_singleton_eq|]. split; [done|]. right.
    exists (fetch_drv url), (fetch_drv url'). split_and!; [done|done|done|done|]. vm_compute. reflexivity. }
  assert (sample_read (sample_path "a.drv") = Ok (fetch_drv "http://a")) as Ha by done.
  assert (sample_read (sample_path "b.drv") = Ok (fetch_drv "http://b")) as Hb by done.
  destruct (hash_modulo [] "/bsd/store" zero_hash sample_read 2 (user_drv (sample_path "a.drv")) true) as [h|e] eqn:E.
  - exists h. split; [done|].
    refine (hash_modulo_interchange _ _ _ _ _ _ (user_drv (sample_path "a.drv")) _ _ _ _ _ _ E); [done|done| |]; by eapply Hin.
  - exfalso. assert (hash_of (hash_modulo [] "/bsd/store" zero_hash sample_read 2 (user_drv (sample_path "a.drv")) true)
      ≠ None) as H by (vm_compute; discriminate). rewrite E in H. exact (H eq_refl).
Defined.

(** Only the names of the outputs an input derivation itself provides
    enter the hash: what is used of the derivations these outputs contain, the
    nested part of a dynamic input, does not, so that derivations that differ
    only there have the same hashes. *)
Theorem dynamic_children_not_hashed xp storeDir hashString read fuel mask drv p v c1 cm1 c2 cm2 h :
  hash_modulo xp storeDir hashString read fuel
    {| basic := drv; inputDrvs := {[p := MkNode v (c1 :: cm1)]} |} mask = Ok h →
  hash_modulo xp storeDir hashString read fuel
    {| basic := drv; inputDrvs := {[p := MkNode v (c2 :: cm2)]} |} mask = Ok h.
Proof.
  assert (∀ c1 cm1 c2 cm2, inputs_within read {| basic := drv; inputDrvs := {[p := MkNode v (c1 :: cm1)]} |}
    {| basic := drv; inputDrvs := {[p := MkNode v (c2 :: cm2)]} |}) as Hin.
  { clear. intros c1 cm1 c2 cm2 q n Hq. cbn [inputDrvs] in *. apply lookup_singleton_Some in Hq as [<- <-].
    exists p, (MkNode v (c2 :: cm2)). split; [apply lookup_singleton_eq|]. split; [done|by left]. }
  destruct fuel as [|fuel]; [done|]. rewrite !hash_modulo_unfold. cbn [basic].
  destruct (drv_type drv) as [t|]; [|done]. cbn [mbind result_bind]. destruct (isFixed t); [done|].
  destruct (foldR _ _ _) as [acc|] eqn:E; cbn [mbind result_bind]; [|done].
  rewrite (same_inputs_fold _ _ _ _ _ _ _ _ _ (Hin c1 cm1 c2 cm2) (Hin c2 cm2 c1 cm1) (map_Forall_empty _) E).
  cbn [mbind result_bind]. unfold finish_hash, unparse. cbn [basic]. unfold hasDynamicDrvDep. cbn [inputDrvs].
  unfold map_sorted. by rewrite !map_to_list_singleton.
Qed.

Definition dynamic_user (child : str) : Derivation :=
  {| basic := basic (user_drv (sample_path "a.drv"));
     inputDrvs := {[sample_path "a.drv" := MkNode {["out"%str]} [(child, MkNode {["out"%str]} [])]]} |}.

Lemma dynamic_children_not_hashed_witness :
  ∃ h, hash_modulo [] "/bsd/store" zero_hash sample_read 2 (dynamic_user "x") true = Ok h ∧
       hash_modulo [] "/bsd/store" zero_hash sample_read 2 (dynamic_user "y") true = Ok h.
Proof.
  destruct (hash_modulo [] "/bsd/store" zero_hash sample_read 2 (dynamic_user "x") true) as [h|e] eqn:E.
  - exists h. split; [done|]. exact (dynamic_children_not_hashed _ _ _ _ _ _ _ _ _ _ _ _ _ _ E).
  - exfalso. assert (hash_of (hash_modulo [] "/bsd/store" zero_hash sample_read 2 (dynamic_user "x") true)
      ≠ None) as H by (vm_compute; discriminate). rewrite E in H. exact (H eq_refl).
Defined.

(** ** Output paths computed from masked hashes *)

(** Derivations with the same text once outputs are masked: the same but for
    the paths of input-addressed outputs, deferred ones having none yet, and
    the values of the variables named after outputs. *)
Record masked_eq (d1 d2 : BasicDerivation) : Prop := {
  me_outputs : dom (outputs d1) = dom (outputs d2);
  me_strings : ∀ id o1 o2, outputs d1 !! id = Some o1 → outputs d2 !! id = Some o2 →
    o1 = o2 ∨ (kind_of o1 ∈ [KInputAddressed; KDeferred] ∧ kind_of o2 ∈ [KInputAddressed; KDeferred]);
  me_inputSrcs : inputSrcs d1 = inputSrcs d2;
  me_platform : platform d1 = platform d2;
  me_builder : builder d1 = builder d2;
  me_args : args d1 = args d2;
  me_env : dom (env d1) = dom (env d2);
  me_values : ∀ n, outputs d1 !! n = None → env d1 !! n = env d2 !! n;
  me_name : drv_name d1 = drv_name d2;
}.

Lemma Forall2_mapR {A B C} (f : A → result C) (g : B → result C) l k :
  Forall2 (λ x y, f x = g y) l k → mapR f l = mapR g k.
Proof. induction 1 as [|x y l k E _ IH]; [done|]. cbn [mapR]. by rewrite E, IH. Qed.

Lemma Forall2_map_eq {A B C} (f : A → C) (g : B → C) l k : Forall2 (λ x y, f x = g y) l k → map f l = map g k.
Proof. induction 1 as [|x y l k E _ IH]; [done|]. cbn [map]. by rewrite E, IH. Qed.

Lemma masked_text xp storeDir hashString d1 d2 ins1 ins2 actual :
  masked_eq d1 d2 → hasDynamicDrvDep {| basic := d1; inputDrvs := ins1 |} = hasDynamicDrvDep {| basic := d2; inputDrvs := ins2 |} →
  unparse xp storeDir hashString {| basic := d1; inputDrvs := ins1 |} true (Some actual) =
  unparse xp storeDir hashString {| basic := d2; inputDrvs := ins2 |} true (Some actual).
Proof.
  intros M Hd. unfold unparse. cbn [basic]. rewrite Hd, (me_inputSrcs _ _ M), (me_platform _ _ M), (me_builder _ _ M), (me_args _ _ M).
  assert (mapR (unparse_output xp storeDir hashString true (drv_name d1)) (map_sorted (outputs d1)) =
    mapR (unparse_output xp storeDir hashString true (drv_name d2)) (map_sorted (outputs d2))) as ->.
  { apply Forall2_mapR. eapply Forall2_impl; [apply map_sorted_same_keys, (me_outputs _ _ M)|].
    intros [i1 o1] [i2 o2] ([= <-] & H1 & H2). cbn [fst snd] in *. rewrite (me_name _ _ M).
    destruct (me_strings _ _ M _ _ _ H1 H2) as [->|[K1 K2]]; [done|].
    rewrite !list_elem_of_In in K1, K2. unfold unparse_output, output_strings. cbn [fst snd].
    destruct o1, o2; cbn in K1, K2; naive_solver. }
  destruct (mapR _ _) as [outs|]; [|done]. cbn [mbind result_bind].
  assert (print_sep (unparse_env (λ n, true && bool_decide (is_Some (outputs d1 !! n)))) (map_sorted (env d1)) =
    print_sep (unparse_env (λ n, true && bool_decide (is_Some (outputs d2 !! n)))) (map_sorted (env d2))) as ->; [|done].
  rewrite !print_sep_join. f_equal.
  eapply Forall2_map_eq, Forall2_impl; [apply map_sorted_same_keys, (me_env _ _ M)|].
  intros [n1 v1] [n2 v2] ([= <-] & H1 & H2). cbn [fst snd] in *. unfold unparse_env. cbn [fst snd andb].
  assert (is_Some (outputs d1 !! n1) ↔ is_Some (outputs d2 !! n1)) as Hs
    by (by rewrite <- !elem_of_dom, (me_outputs _ _ M)).
  rewrite (bool_decide_ext _ _ Hs). case_bool_decide as Hn; [done|]. repeat f_equal.
  rewrite <- Hs in Hn. apply eq_None_not_Some in Hn. apply (me_values _ _ M) in Hn. congruence.
Qed.

Section fill.
Context (xp : XpSettings) (storeDir : str) (hashString : HashAlgorithm → str → Hash).
Context (Hhash : ∀ a s, hash_regular (hashString a s) ∧ algo (hashString a s) = a).
Context (H : Hash) (Hregular : hash_regular H).

Lemma makeOutputPath_wf id name p : makeOutputPath xp storeDir hashString id H name = Ok p → sp_wf p.
Proof.
  unfold makeOutputPath. rewrite (makeStorePath_eq xp storeDir hashString Hhash) by apply Hregular.
  destruct (checkPathName _) as [[]|] eqn:E; cbn [mbind result_bind]; [|done]. intros Hp.
  match type of Hp with Ok ?x = _ => assert (p = x) as -> by (by injection Hp) end. by apply made_path_wf.
Qed.

(** What the loop of [rewriteDerivation] has done after some outputs. *)
Lemma fill_outputs_spec hm d l d' :
  (∀ id o, (id, o) ∈ l → o = Deferred ∧ hashes hm !! id = Some H) → NoDup l.*1 →
  foldR (fill_output xp storeDir hashString hm) d l = Ok d' →
  inputSrcs d' = inputSrcs d ∧ platform d' = platform d ∧ builder d' = builder d ∧ args d' = args d ∧
  drv_name d' = drv_name d ∧
  (∀ id, id ∉ l.*1 → outputs d' !! id = outputs d !! id ∧ env d' !! id = env d !! id) ∧
  (∀ id, id ∈ l.*1 → ∃ p, makeOutputPath xp storeDir hashString id H (drv_name d) = Ok p ∧
     outputs d' !! id = Some (InputAddressed p) ∧ env d' !! id = Some (printStorePath storeDir p)).
Proof.
  revert d. induction l as [|[id o] l IH]; intros d Hl Hnd E; cbn [foldR] in E.
  { injection E as <-. split_and!; try done. by intros id Hid%elem_of_nil. }
  destruct (Hl id o) as [-> Hh]; [by left|]. unfold fill_output at 2 in E. cbn [fst snd] in E. rewrite Hh in E.
  destruct (makeOutputPath xp storeDir hashString id H (drv_name d)) as [p|] eqn:Ep; cbn [mbind result_bind] in E; [|done].
  cbn [fmap list_fmap fst] in *. apply NoDup_cons in Hnd as [Hid Hnd].
  destruct (IH _ (λ i o Hi, Hl i o (list_elem_of_further _ _ _ Hi)) Hnd E) as (? & ? & ? & ? & Hname & Hout & Hin).
  cbn [inputSrcs platform builder args drv_name outputs env] in *. split_and!; try done.
  - intros i Hi. apply not_elem_of_cons in Hi as [Hne Hi]. destruct (Hout i Hi) as [-> ->].
    by rewrite !lookup_insert_ne by done.
  - intros i [->|Hi]%elem_of_cons; [|by apply Hin]. exists p. destruct (Hout id Hid) as [-> ->].
    by rewrite !lookup_insert_eq.
Qed.
End fill.

Lemma const_hashes (outs : gmap str DerivationOutput) (h : Hash) id o :
  outs !! id = Some o → insert_all ∅ (map (λ no : str * DerivationOutput, (no.1, h)) (map_sorted outs)) !! id = Some h.
Proof.
  intros Ho. assert ((map (λ no : str * DerivationOutput, (no.1, h)) (map_sorted outs)).*1 = (map_sorted outs).*1) as Ek
    by (by rewrite <- list_fmap_compose).
  rewrite insert_all_list_to_map by (rewrite Ek; apply map_sorted_NoDup). apply lookup_union_Some_l.
  apply elem_of_list_to_map; [rewrite Ek; apply map_sorted_NoDup|]. apply list_elem_of_fmap. exists (id, o).
  split; [done|]. by apply elem_of_map_sorted.
Qed.

Section resolved.
Context (xp : XpSettings) (storeDir : str) (hashString : HashAlgorithm → str → Hash).
Context (read : StorePath → result Derivation).
Context (Hhash : ∀ a s, hash_regular (hashString a s) ∧ algo (hashString a s) = a) (Hdir : store_dir_ok storeDir).

Definition no_inputs (d : BasicDerivation) : Derivation := {| basic := d; inputDrvs := ∅ |}.

Lemma hash_no_inputs n d mask t hs :
  drv_type d = Ok t → isFixed t = false →
  hashDerivationModulo xp storeDir hashString read (S n) (no_inputs d) mask hs =
  (finish_hash xp storeDir hashString (no_inputs d) mask (initial_kind t, ∅), hs).
Proof.
  intros Ht Hf. cbn [hashDerivationModulo]. unfold mbind, ST_bind, lift. cbn [basic no_inputs]. rewrite Ht, Hf.
  change (map_sorted (∅ : gmap StorePath ChildNode)) with (@nil (StorePath * ChildNode)). done.
Qed.

(** The derivations before and after the loop of [rewriteDerivation]. *)
Context (d1 d2 : BasicDerivation) (hm : DrvHash) (text : str).
Context (Htype : drv_type d1 = Ok (DT_InputAddressed true)) (Henv : dom (outputs d1) ⊆ dom (env d1)).
Context (Htext : unparse xp storeDir hashString (no_inputs d1) true (Some []) = Ok text).
Context (Hm : finish_hash xp storeDir hashString (no_inputs d1) true (Regular, ∅) = Ok hm).
Context (Hfill : foldR (fill_output xp storeDir hashString hm) d1 (map_sorted (outputs d1)) = Ok d2).
Abbreviation H := (hashString SHA256 text).

Lemma hm_lookup id o : outputs d1 !! id = Some o → hashes hm !! id = Some H.
Proof.
  intros Ho. unfold finish_hash in Hm. cbn [snd fst] in Hm.
  change (map_sorted (∅ : gmap str ChildNode)) with (@nil (str * ChildNode)) in Hm. rewrite Htext in Hm.
  cbn [mbind result_bind] in Hm. injection Hm as <-. cbn [hashes basic no_inputs]. by eapply const_hashes.
Qed.

Lemma filled id o :
  outputs d1 !! id = Some o →
  ∃ p, makeOutputPath xp storeDir hashString id H (drv_name d1) = Ok p ∧
    outputs d2 !! id = Some (InputAddressed p) ∧ env d2 !! id = Some (printStorePath storeDir p).
Proof.
  pose proof (drv_type_iff d1 (DT_InputAddressed true)) as [[_ Hd] _]; [done|]. cbn [type_describes] in Hd.
  destruct (fill_outputs_spec xp storeDir hashString H hm d1 (map_sorted (outputs d1)) d2) as (_ & _ & _ & _ & _ & _ & Hin);
    [|apply map_sorted_NoDup|done|].
  - intros i o' Hi. apply elem_of_map_sorted in Hi. split; [by eapply Hd|by eapply hm_lookup].
  - intros Ho. apply Hin. rewrite map_sorted_keys, elem_of_set_sorted. by apply elem_of_dom_2 in Ho.
Qed.

Lemma filled_masked : masked_eq d1 d2 ∧ drv_type d2 = Ok (DT_InputAddressed false).
Proof.
  pose proof (drv_type_iff d1 (DT_InputAddressed true)) as [[Hne Hd] _]; [done|]. cbn [type_describes] in Hd.
  destruct (fill_outputs_spec xp storeDir hashString H hm d1 (map_sorted (outputs d1)) d2) as (E1 & E2 & E3 & E4 & E5 & Hout & _);
    [|apply map_sorted_NoDup|done|].
  { intros i o' Hi. apply elem_of_map_sorted in Hi. split; [by eapply Hd|by eapply hm_lookup]. }
  rewrite map_sorted_keys in Hout. setoid_rewrite elem_of_set_sorted in Hout.
  assert (Hnone : ∀ id, outputs d1 !! id = None → outputs d2 !! id = None ∧ env d2 !! id = env d1 !! id).
  { intros id Hid. destruct (Hout id) as [-> ->]; [by apply not_elem_of_dom|]. done. }
  assert (Hdom : dom (outputs d1) = dom (outputs d2)).
  { apply set_eq. intros id. rewrite !elem_of_dom. destruct (outputs d1 !! id) as [o|] eqn:E.
    - destruct (filled _ _ E) as (p & _ & -> & _). split; by eexists.
    - by destruct (Hnone _ E) as [-> _]. }
  split; [split; try done|].
  - intros id o1 o2 H1 H2. right. rewrite (Hd _ _ H1). destruct (filled _ _ H1) as (p & _ & Ep & _).
    rewrite Ep in H2. injection H2 as <-. cbn [kind_of]. split; [by right; left|by left].
  - apply set_eq. intros id. rewrite !elem_of_dom. destruct (outputs d1 !! id) as [o|] eqn:E.
    + destruct (filled _ _ E) as (p & _ & _ & ->). split; [by eexists|intros _].
      apply elem_of_dom, Henv. by apply elem_of_dom_2 in E.
    + by destruct (Hnone _ E) as [_ ->].
  - intros n Hn. by destruct (Hnone _ Hn) as [_ ->].
  - apply drv_type_iff. split; [intros E; apply Hne, dom_empty_inv_L; rewrite Hdom, E; apply dom_empty_L|].
    intros id o Ho. destruct (outputs d1 !! id) as [o1|] eqn:E1'.
    + destruct (filled _ _ E1') as (p & _ & Ep & _). exists p. congruence.
    + destruct (Hnone _ E1') as [E _]. congruence.
Qed.

Lemma filled_hash n hs :
  ∃ hm2, hashDerivationModulo xp storeDir hashString read (S n) (no_inputs d2) true hs = (Ok hm2, hs) ∧
    ∀ id o, outputs d2 !! id = Some o → hashes hm2 !! id = Some H.
Proof.
  destruct filled_masked as [M Ht]. rewrite (hash_no_inputs _ _ _ _ _ Ht eq_refl). unfold finish_hash. cbn [snd fst].
  change (map_sorted (∅ : gmap str ChildNode)) with (@nil (str * ChildNode)).
  assert (unparse xp storeDir hashString (no_inputs d2) true (Some []) = Ok text) as ->.
  { rewrite <- Htext. symmetry. by apply masked_text. }
  cbn [mbind result_bind]. eexists. split; [reflexivity|]. intros id o Ho. cbn [hashes basic no_inputs].
  by eapply const_hashes.
Qed.

Lemma check_filled n hs l st :
  (∀ id o, (id, o) ∈ l → outputs d2 !! id = Some o) →
  (∀ h, st = Some h → ∀ id o, outputs d2 !! id = Some o → hashes h !! id = Some H) →
  ∃ st', foldS (check_output xp storeDir hashString read (S n) (no_inputs d2) (drv_name d1)) st l hs = (Ok st', hs).
Proof.
  revert st. induction l as [|[id o] l IH]; intros st Hl Hst; [by exists st|].
  assert (Ho : outputs d2 !! id = Some o) by (apply Hl; by left).
  assert (is_Some (outputs d1 !! id)) as [o1 Ho1].
  { destruct filled_masked as [M _]. apply elem_of_dom. rewrite (me_outputs _ _ M). by apply elem_of_dom_2 in Ho. }
  destruct (filled _ _ Ho1) as (p & Ep & Eo & Ee). rewrite Ho in Eo. injection Eo as ->.
  assert (∃ h, (match st with Some h => mret h | None => hashDerivationModulo xp storeDir hashString read (S n) (no_inputs d2) true end : ST DrvHash) hs
    = (Ok h, hs) ∧ ∀ id o, outputs d2 !! id = Some o → hashes h !! id = Some H) as (h & Eh & Hh).
  { destruct st as [h|]; [exists h; split; [done|by apply Hst]|apply filled_hash]. }
  assert (check_output xp storeDir hashString read (S n) (no_inputs d2) (drv_name d1) st (id, InputAddressed p) hs
    = (Ok (Some h), hs)) as Ec.
  { unfold check_output. cbn [fst snd]. unfold mbind at 1, ST_bind. rewrite Eh. rewrite (Hh _ _ Ho).
    unfold lift. rewrite Ep. cbn [mbind result_bind]. rewrite bool_decide_true by done.
    unfold envHasRightPath. cbn [basic no_inputs]. rewrite Ee.
    rewrite parse_print by (done || by eapply (makeOutputPath_wf xp storeDir hashString Hhash H); [apply Hhash|exact Ep]).
    cbn [mbind result_bind]. by rewrite bool_decide_true. }
  cbn [foldS]. unfold mbind, ST_bind. rewrite Ec. apply IH; [intros i o' Hi; apply Hl; by right|].
  intros h' [= <-]. exact Hh.
Qed.
End resolved.

(** [C9] A derivation resolved by [rewriteDerivation] passes the check made
    when it is registered: when all outputs are deferred and each has a
    variable of its name, the paths computed from the masked hash are filled
    in, all outputs become input-addressed, and [checkInvariants] recomputes
    the same paths from the filled derivation and finds them in the variables. *)
Theorem resolved_derivation_checks xp storeDir hashString read fuel drv rewrites d1 d2 hs hs' drvPath n hs2 :
  (∀ a s, hash_regular (hashString a s) ∧ algo (hashString a s) = a) → store_dir_ok storeDir →
  applyRewrites fuel drv rewrites = Ok d1 → drv_type d1 = Ok (DT_InputAddressed true) →
  dom (outputs d1) ⊆ dom (env d1) →
  rewriteDerivation xp storeDir hashString read fuel drv rewrites hs = (Ok d2, hs') →
  sp_name drvPath = drv_name d1 ++ drvExtension →
  checkInvariants xp storeDir hashString read (S n) (no_inputs d2) drvPath hs2 = (Ok tt, hs2) ∧
  map_Forall (λ _ o, ∃ p, o = InputAddressed p) (outputs d2) ∧ dom (outputs d2) = dom (outputs d1).
Proof.
  intros Hhash Hdir Ha Ht Henv Hr Hn. unfold rewriteDerivation, mbind, ST_bind, lift in Hr. rewrite Ha in Hr.
  fold (no_inputs d1) in Hr. rewrite (hash_no_inputs _ _ _ _ _ _ _ _ _ Ht eq_refl) in Hr. cbn [initial_kind] in Hr.
  destruct (finish_hash xp storeDir hashString (no_inputs d1) true (Regular, ∅)) as [hm|] eqn:Hm; [|done].
  assert (foldR (fill_output xp storeDir hashString hm) d1 (map_sorted (outputs d1)) = Ok d2) as Hf by (by injection Hr).
  assert (∃ text, unparse xp storeDir hashString (no_inputs d1) true (Some []) = Ok text) as [text Htext].
  { pose proof Hm as Hm'. unfold finish_hash in Hm'. cbn [snd fst] in Hm'.
    change (map_sorted (∅ : gmap str ChildNode)) with (@nil (str * ChildNode)) in Hm'.
    destruct (unparse _ _ _ _ _ _) as [text|]; [by exists text|done]. }
  destruct (filled_masked xp storeDir hashString d1 d2 hm text Ht Henv Htext Hm Hf) as [M Ht2].
  split_and!; [|by apply drv_type_iff in Ht2 as [_ ?]|by rewrite (me_outputs _ _ M)].
  unfold checkInvariants. rewrite Hn. unfold isDerivation. rewrite Hn.
  assert (hasSuffix (drv_name d1 ++ drvExtension) drvExtension = true) as ->.
  { unfold hasSuffix. rewrite length_app, Nat.add_sub, drop_app_length.
    apply andb_true_iff. split; [apply Nat.leb_le; lia|by apply bool_decide_eq_true]. }
  rewrite length_app, Nat.add_sub, take_app_length. unfold lift. cbn [assertR]. unfold mbind, ST_bind. cbn [basic no_inputs].
  rewrite (me_name _ _ M), (proj2 (str_eqb_true _ _) eq_refl). cbn [negb]. rewrite Ht2. rewrite <- (me_name _ _ M).
  destruct (check_filled xp storeDir hashString read Hhash Hdir d1 d2 hm text Ht Henv Htext Hm Hf n hs2
    (map_sorted (outputs d2)) None) as [st' E]; [by intros id o Hi%elem_of_map_sorted|done|].
  rewrite E. done.
Qed.

Lemma resolved_derivation_checks_witness :
  ∃ d2 hs', rewriteDerivation [] "/bsd/store" zero_hash sample_read 9 (basic (user_drv (sample_path "a.drv")))
              {["sh"%str := "ls"%str]} ∅ = (Ok d2, hs') ∧
    checkInvariants [] "/bsd/store" zero_hash sample_read 1 (no_inputs d2) (sample_path "user.drv") ∅ = (Ok tt, ∅).
Proof.
  destruct (applyRewrites 9 (basic (user_drv (sample_path "a.drv"))) {["sh"%str := "ls"%str]}) as [d1|e] eqn:Ea.
  2: { exfalso. assert (match applyRewrites 9 (basic (user_drv (sample_path "a.drv"))) {["sh"%str := "ls"%str]} with
         Ok _ => true | Throw _ => false end = true) as B by (vm_compute; reflexivity). rewrite Ea in B. discriminate B. }
  destruct (rewriteDerivation [] "/bsd/store" zero_hash sample_read 9 (basic (user_drv (sample_path "a.drv")))
              {["sh"%str := "ls"%str]} ∅) as [r hs'] eqn:Er.
  destruct r as [d2|e].
  2: { exfalso. assert (match (rewriteDerivation [] "/bsd/store" zero_hash sample_read 9
         (basic (user_drv (sample_path "a.drv"))) {["sh"%str := "ls"%str]} ∅).1 with
         Ok _ => true | Throw _ => false end = true) as B by (vm_compute; reflexivity). rewrite Er in B. discriminate B. }
  exists d2, hs'. split; [reflexivity|].
  assert (match applyRewrites 9 (basic (user_drv (sample_path "a.drv"))) {["sh"%str := "ls"%str]} with
    | Ok d => bool_decide (drv_type d = Ok (DT_InputAddressed true)) && bool_decide (dom (outputs d) ⊆ dom (env d)) &&
              str_eqb (drv_name d) "user"
    | Throw _ => false end = true) as B by (vm_compute; reflexivity).
  rewrite Ea in B. apply andb_true_iff in B as [[B1%bool_decide_eq_true B2%bool_decide_eq_true]%andb_true_iff B3%str_eqb_true].
  refine (proj1 (resolved_derivation_checks [] "/bsd/store" zero_hash sample_read 9 _ _ d1 d2 ∅ hs' _ 0 ∅
    zero_hash_ok (proj1 sample_dir_ok) Ea B1 B2 Er _)).
  rewrite B3. vm_compute. reflexivity.
Defined.
