(* ===== verification/Protocol.v ===== *)
(** Values on the wire: [libstore/common-protocol.cc],
    [libstore/include/bsd/store/common-protocol-impl.hh],
    [libstore/include/bsd/store/length-prefixed-protocol-helper.hh] and the
    wire format of derivations in [libstore/derivations.cc].

    [Serialise] is the interface the template [CommonProto::Serialise] is
    specialised to, [SerialiseOk] what it promises: what was written is read
    back, from any source and whatever follows. Containers are serialised
    from the serialisers of their elements. *)

From S2P Require Import Prelude Strings Xp Hash CanonPath Serialise FileSystem StorePath ContentAddress Aterm Derivation.

(** * The interface *)

Class Serialise (T : Type) := {
  proto_read : ∀ {S} `{Source S}, S → result (T * S);
  proto_write : T → result str;
}.
Class SerialiseOk (T : Type) `{Serialise T} := {
  proto_valid : T → Prop;
  proto_parses {S} `{SourceOk S} t w : proto_valid t → proto_write t = Ok w → parses (S := S) proto_read w t;
}.

(** A value checked after it was read. *)
Lemma parses_then {S A B} `{SourceOk S} (r : S → result (A * S)) (f : A → result B) w a b :
  parses r w a → f a = Ok b → parses (λ s, '(x, s) ← r s; y ← f x; Ok (y, s)) w b.
Proof. intros Hr Hf. eapply parses_bind_ret; [exact Hr|]. intros s. by rewrite Hf. Qed.

(** * Strings, store paths, content addresses *)

#[export] Instance string_serialise : Serialise str :=
  {| proto_read S _ := readString size_max; proto_write x := Ok (writeString x) |}.
#[export] Program Instance string_serialise_ok : SerialiseOk str := {| proto_valid := str_fits |}.
Next Obligation. intros S ? ? t w Ht [= <-]. by apply readString_parses'. Qed.

Section store.
Context (xp : XpSettings) (storeDir : str).

Definition StorePath_serialise : Serialise StorePath :=
  {| proto_read S _ s := '(x, s) ← readString size_max s; p ← parseStorePath storeDir x; Ok (p, s);
     proto_write p := Ok (writeString (printStorePath storeDir p)) |}.

Definition ContentAddress_serialise : Serialise ContentAddress :=
  {| proto_read S _ s := '(x, s) ← readString size_max s; ca ← CA_parse xp x; Ok (ca, s);
     proto_write ca := x ← CA_render xp ca; Ok (writeString x) |}.

Definition optional_StorePath_serialise : Serialise (option StorePath) :=
  {| proto_read S _ s :=
       '(x, s) ← readString size_max s;
       po ← (if str_eqb x "" then Ok None else p ← parseStorePath storeDir x; Ok (Some p));
       Ok (po, s);
     proto_write po := Ok (writeString (match po with Some p => printStorePath storeDir p | None => "" end)) |}.

Definition optional_ContentAddress_serialise : Serialise (option ContentAddress) :=
  {| proto_read S _ s := '(x, s) ← readString size_max s; ca ← CA_parseOpt xp x; Ok (ca, s);
     proto_write co := x ← (match co with Some ca => CA_render xp ca | None => Ok ""%str end); Ok (writeString x) |}.
End store.

(** * Containers *)

(** [while (size--) ins(read())]. *)
Fixpoint read_n {S A B} `{Source S} (read : S → result (A * S)) (ins : B → A → B) (size : nat) (acc : B) (s : S)
    : result (B * S) :=
  match size with
  | O => Ok (acc, s)
  | Datatypes.S size => '(a, s) ← read s; read_n read ins size (ins acc a) s
  end.
Definition read_sized {S A B} `{Source S} (read : S → result (A * S)) (ins : B → A → B) (acc : B) (s : S)
    : result (B * S) :=
  '(size, s) ← readNum size_max s; read_n read ins (Z.to_nat size) acc s.

(** The size, then the elements in order. *)
Definition write_sized {A} (write : A → result str) (l : list A) : result str :=
  ws ← mapR write l; Ok (writeNum (Z.of_nat (length l)) ++ concat ws).

Section containers.
Context {T} `{Serialise T}.

#[export] Instance vector_serialise : Serialise (list T) :=
  {| proto_read S _ := read_sized proto_read (λ l x, l ++ [x]) []; proto_write := write_sized proto_write |}.

#[export] Instance set_serialise `{Countable T, !KeyOrder T} : Serialise (gset T) :=
  {| proto_read S _ := read_sized proto_read (λ (res : gset T) x, {[x]} ∪ res) ∅;
     proto_write res := write_sized proto_write (set_sorted res) |}.

#[export] Instance pair_serialise {U} `{Serialise U} : Serialise (T * U) :=
  {| proto_read S _ s := '(t, s) ← proto_read s; '(u, s) ← proto_read s; Ok ((t, u), s);
     proto_write tu := a ← proto_write tu.1; b ← proto_write tu.2; Ok (a ++ b) |}.

#[export] Instance map_serialise {V} `{Serialise V, Countable T, !KeyOrder T} : Serialise (gmap T V) :=
  {| proto_read S _ := read_sized proto_read (λ (res : gmap T V) kv, <[kv.1 := kv.2]> res) ∅;
     proto_write res := write_sized proto_write (map_sorted res) |}.
End containers.

(** ** Their laws *)

Lemma read_n_parses {S A B} `{SourceOk S} (read : S → result (A * S)) (ins : B → A → B) l ws acc :
  Forall2 (λ a w, parses read w a) l ws →
  parses (read_n read ins (length l) acc) (concat ws) (foldl ins acc l).
Proof.
  intros Hl. revert acc. induction Hl as [|a w l ws Ha _ IH]; intros acc; [apply parses_ret|].
  cbn [length concat foldl]. eapply (parses_bind read); [exact Ha|apply IH].
Qed.

Lemma sized_parses {S A B} `{SourceOk S} (read : S → result (A * S)) (ins : B → A → B) write l acc w :
  Z.of_nat (length l) < 2 ^ 64 → (∀ a w, a ∈ l → write a = Ok w → parses read w a) →
  write_sized write l = Ok w → parses (read_sized read ins acc) w (foldl ins acc l).
Proof.
  intros Hn Hl. unfold write_sized. destruct (mapR write l) as [ws|] eqn:E; cbn [mbind result_bind]; [|done].
  intros Hw. assert (w = writeNum (Z.of_nat (length l)) ++ concat ws) as -> by (by injection Hw).
  eapply (parses_bind (readNum size_max)); [apply readNum_parses; unfold size_max; lia|]. cbn beta.
  rewrite Nat2Z.id. apply read_n_parses. apply mapR_Ok_Forall2 in E. clear -E Hl.
  induction E as [|a w l ws Ea _ IH]; constructor; [apply Hl; [by left|done]|]. apply IH. intros b v Hb. apply Hl. by right.
Qed.

Lemma foldl_snoc {A} (l acc : list A) : foldl (λ l x, l ++ [x]) acc l = acc ++ l.
Proof.
  revert acc. induction l as [|x l IH]; intros acc; [by rewrite app_nil_r|]. cbn [foldl]. rewrite IH. by rewrite <- app_assoc.
Qed.

Lemma foldl_union `{Countable A} (l : list A) (acc : gset A) :
  foldl (λ (res : gset A) x, {[x]} ∪ res) acc l = list_to_set l ∪ acc.
Proof. revert acc. induction l as [|x l IH]; intros acc; cbn; [set_solver|]. rewrite IH. set_solver. Qed.

Section containers_ok.
Context {T} `{SerialiseOk T}.

#[export] Program Instance vector_serialise_ok : SerialiseOk (list T) :=
  {| proto_valid l := Z.of_nat (length l) < 2 ^ 64 ∧ Forall proto_valid l |}.
Next Obligation.
  intros S ? ? l w [Hn Hl] Hw. pose proof (foldl_snoc l []) as E. cbn [app] in E. rewrite <- E.
  eapply sized_parses; [done| |exact Hw]. intros a v Ha. rewrite Forall_forall in Hl. apply proto_parses. by apply Hl.
Qed.

#[export] Program Instance set_serialise_ok `{Countable T, !KeyOrder T} : SerialiseOk (gset T) :=
  {| proto_valid s := Z.of_nat (size s) < 2 ^ 64 ∧ set_Forall proto_valid s |}.
Next Obligation.
  intros ? ? ? S ? ? s w [Hn Hl] Hw.
  assert (s = foldl (λ (res : gset T) x, {[x]} ∪ res) ∅ (set_sorted s)) as E.
  { rewrite foldl_union, list_to_set_sorted. set_solver. }
  rewrite E. eapply sized_parses; [by rewrite length_set_sorted| |exact Hw].
  intros a v Ha. apply proto_parses, Hl. by apply elem_of_set_sorted.
Qed.

#[export] Program Instance pair_serialise_ok {U} `{SerialiseOk U} : SerialiseOk (T * U) :=
  {| proto_valid tu := proto_valid tu.1 ∧ proto_valid tu.2 |}.
Next Obligation.
  intros U ? ? S ? ? [t u] w [Ht Hu]. cbn [proto_write pair_serialise fst snd].
  destruct (proto_write t) as [a|] eqn:Ea; cbn [mbind result_bind]; [|done].
  destruct (proto_write u) as [b|] eqn:Eb; cbn [mbind result_bind]; [|done]. intros [= <-].
  eapply (parses_bind proto_read); [by eapply proto_parses|]. cbn beta.
  by eapply (parses_bind_ret proto_read); [by eapply proto_parses|].
Qed.

#[export] Program Instance map_serialise_ok {V} `{SerialiseOk V, Countable T, !KeyOrder T} : SerialiseOk (gmap T V) :=
  {| proto_valid m := Z.of_nat (size m) < 2 ^ 64 ∧ map_Forall (λ k v, proto_valid k ∧ proto_valid v) m |}.
Next Obligation.
  intros V ? ? ? ? ? S ? ? m w [Hn Hl] Hw. rewrite <- (insert_all_sorted m). unfold insert_all.
  eapply sized_parses; [| |exact Hw].
  - rewrite map_sorted_perm. by rewrite length_map_to_list.
  - intros [k v] u Hkv. apply proto_parses. apply elem_of_map_sorted in Hkv. by apply Hl in Hkv.
Qed.
End containers_ok.

Section store_ok.
Context (xp : XpSettings) (storeDir : str) (Hdir : store_dir_ok storeDir).

Program Definition StorePath_serialise_ok : @SerialiseOk StorePath (StorePath_serialise storeDir) :=
  {| proto_valid p := sp_wf p ∧ str_fits (printStorePath storeDir p) |}.
Next Obligation.
  intros S ? ? p w [Hp Hf] [= <-]. eapply (parses_then (readString size_max)); [by apply readString_parses'|].
  by apply parse_print.
Qed.

Program Definition ContentAddress_serialise_ok : @SerialiseOk ContentAddress (ContentAddress_serialise xp) :=
  {| proto_valid ca := hash_regular (ca_hash ca) ∧ algo_enabled xp (algo (ca_hash ca)) ∧
       ∀ x, CA_render xp ca = Ok x → str_fits x |}.
Next Obligation.
  intros S ? ? ca w (Hr & Ha & Hf). cbn [proto_write ContentAddress_serialise].
  destruct (CA_render xp ca) as [x|] eqn:E; cbn [mbind result_bind]; [|done]. intros [= <-].
  eapply (parses_then (readString size_max)); [by apply readString_parses', Hf|]. by apply CA_parse_render.
Qed.

Program Definition optional_StorePath_serialise_ok : @SerialiseOk (option StorePath) (optional_StorePath_serialise storeDir) :=
  {| proto_valid po := from_option (λ p, sp_wf p ∧ str_fits (printStorePath storeDir p)) True po |}.
Next Obligation.
  intros S ? ? po w Hp [= <-]. destruct po as [p|]; cbn [from_option] in Hp.
  - destruct Hp as [Hp Hf]. eapply (parses_then (readString size_max)); [by apply readString_parses'|].
    rewrite (print_nonempty storeDir Hdir). by rewrite parse_print.
  - by eapply (parses_then (readString size_max)); [by apply readString_parses'|].
Qed.

Program Definition optional_ContentAddress_serialise_ok
    : @SerialiseOk (option ContentAddress) (optional_ContentAddress_serialise xp) :=
  {| proto_valid co := from_option (λ ca, hash_regular (ca_hash ca) ∧ algo_enabled xp (algo (ca_hash ca)) ∧
       ∀ x, CA_render xp ca = Ok x → str_fits x) True co |}.
Next Obligation.
  intros S ? ? co w Hc. cbn [proto_write optional_ContentAddress_serialise]. destruct co as [ca|]; cbn [from_option] in Hc.
  - destruct Hc as (Hr & Ha & Hf). destruct (CA_render xp ca) as [x|] eqn:E; cbn [mbind result_bind]; [|done].
    intros [= <-]. eapply (parses_then (readString size_max)); [by apply readString_parses', Hf|]. by apply CA_parse_render.
  - intros [= <-]. by eapply (parses_then (readString size_max)); [by apply readString_parses'|].
Qed.
End store_ok.

(** * Derivations on the wire *)

Section drv_wire.
Context (xp : XpSettings) (storeDir : str) (hashString : HashAlgorithm → str → Hash).

Definition readDerivationOutput {S} `{Source S} (s : S) : result (DerivationOutput * S) :=
  '(pathS, s) ← readString size_max s;
  '(hashAlgo, s) ← readString size_max s;
  '(hash, s) ← readString size_max s;
  o ← parseDerivationOutput xp storeDir pathS hashAlgo hash;
  Ok (o, s).

Definition read_named_output {S} `{Source S} (s : S) : result (str * DerivationOutput * S) :=
  '(name, s) ← readString size_max s;
  '(output, s) ← readDerivationOutput s;
  Ok ((name, output), s).
Definition read_env_entry {S} `{Source S} (s : S) : result (str * str * S) :=
  '(key, s) ← readString size_max s; '(value, s) ← readString size_max s; Ok ((key, value), s).

(** [readDerivation] into [drv]: all is replaced but the environment, to
    which entries are added. *)
Definition readDerivation {S} `{Source S} (name : str) (drv : BasicDerivation) (s : S) : result (BasicDerivation * S) :=
  '(outs, s) ← read_sized read_named_output emplace ∅ s;
  '(srcs, s) ← @proto_read (gset StorePath) (@set_serialise _ (StorePath_serialise storeDir) _ _ _) S _ s;
  '(plat, s) ← readString size_max s;
  '(bld, s) ← readString size_max s;
  '(ar, s) ← readStrings s;
  '(en, s) ← read_sized read_env_entry (λ (e : gmap str str) kv, <[kv.1 := kv.2]> e) (env drv) s;
  Ok ({| outputs := outs; inputSrcs := srcs; platform := plat; builder := bld; args := ar; env := en;
         drv_name := name |}, s).

Definition write_named_output (drvName : str) (i : str * DerivationOutput) : result str :=
  '(a, b, c) ← output_strings xp storeDir hashString false drvName i;
  Ok (writeString i.1 ++ writeString a ++ writeString b ++ writeString c).
Definition write_env_entry (i : str * str) : result str := Ok (writeString i.1 ++ writeString i.2).

Definition writeDerivation (drv : BasicDerivation) : result str :=
  outs ← write_sized (write_named_output (drv_name drv)) (map_sorted (outputs drv));
  srcs ← @proto_write (gset StorePath) (@set_serialise _ (StorePath_serialise storeDir) _ _ _) (inputSrcs drv);
  en ← write_sized write_env_entry (map_sorted (env drv));
  Ok (outs ++ srcs ++ writeString (platform drv) ++ writeString (builder drv) ++ writeStrings (args drv) ++ en).
End drv_wire.

Section drv_wire_ok.
Context (xp : XpSettings) (storeDir : str) (hashString : HashAlgorithm → str → Hash) (Hdir : store_dir_ok storeDir).
Context {S : Type} `{SourceOk S}.

Abbreviation fits_num l := (Z.of_nat (length l) < 2 ^ 64).

(** The strings and counts fit the 64-bit lengths of the format, and the
    outputs and paths are well-formed. *)
Record drv_wire_ok (drv : BasicDerivation) : Prop := {
  wok_outputs : fits_num (map_sorted (outputs drv));
  wok_output id o : outputs drv !! id = Some o → str_fits id ∧ output_wf xp o;
  wok_strings id o a b c : outputs drv !! id = Some o →
    output_strings xp storeDir hashString false (drv_name drv) (id, o) = Ok (a, b, c) →
    str_fits a ∧ str_fits b ∧ str_fits c;
  wok_srcs : Z.of_nat (size (inputSrcs drv)) < 2 ^ 64;
  wok_src p : p ∈ inputSrcs drv → sp_wf p ∧ str_fits (printStorePath storeDir p);
  wok_platform : str_fits (platform drv);
  wok_builder : str_fits (builder drv);
  wok_args : fits_num (args drv);
  wok_arg : Forall str_fits (args drv);
  wok_env : fits_num (map_sorted (env drv));
  wok_entry : map_Forall (λ k v, str_fits k ∧ str_fits v) (env drv);
}.

Lemma named_output_parses drv id o w :
  drv_wire_ok drv → outputs drv !! id = Some o →
  write_named_output xp storeDir hashString (drv_name drv) (id, o) = Ok w →
  parses (S := S) (read_named_output xp storeDir) w (id, o).
Proof.
  intros Hok Ho. unfold write_named_output.
  destruct (output_strings xp storeDir hashString false (drv_name drv) (id, o)) as [[[a b] c]|] eqn:E; cbn [mbind result_bind]; [|done].
  destruct (wok_output _ Hok _ _ Ho) as [Hid Hwf]. destruct (wok_strings _ Hok _ _ _ _ _ Ho E) as (Ha & Hb & Hc).
  intros Hw. match type of Hw with Ok ?x = _ => assert (w = x) as -> by (by injection Hw) end. cbn [fst].
  eapply (parses_bind (readString size_max)); [by apply readString_parses'|]. cbn beta.
  eapply (parses_bind_ret (readDerivationOutput xp storeDir)); [|done].
  eapply (parses_bind (readString size_max)); [by apply readString_parses'|]. cbn beta.
  eapply (parses_bind (readString size_max)); [by apply readString_parses'|]. cbn beta.
  eapply (parses_then (readString size_max)); [by apply readString_parses'|].
  by apply (output_strings_parse xp storeDir hashString Hdir _ _ _ _ _ _ Hwf E).
Qed.

Lemma env_entry_parses k v w :
  str_fits k → str_fits v → write_env_entry (k, v) = Ok w → parses (S := S) read_env_entry w (k, v).
Proof.
  intros Hk Hv Hw. assert (w = writeString k ++ writeString v) as -> by (by injection Hw).
  eapply (parses_bind (readString size_max)); [by apply readString_parses'|]. cbn beta.
  by eapply (parses_bind_ret (readString size_max)); [by apply readString_parses'|].
Qed.

Lemma derivation_parses drv drv0 w :
  drv_wire_ok drv → env drv0 = ∅ → writeDerivation xp storeDir hashString drv = Ok w →
  parses (S := S) (readDerivation xp storeDir (drv_name drv) drv0) w drv.
Proof.
  intros Hok He. unfold writeDerivation.
  destruct (write_sized _ (map_sorted (outputs drv))) as [outs|] eqn:Eo; cbn [mbind result_bind]; [|done].
  destruct (proto_write (inputSrcs drv)) as [srcs|] eqn:Es; cbn [mbind result_bind]; [|done].
  destruct (write_sized write_env_entry _) as [en|] eqn:Ee; cbn [mbind result_bind]; [|done].
  intros Hw. match type of Hw with Ok ?x = _ => assert (w = x) as -> by (by injection Hw) end.
  eapply (parses_bind (read_sized _ _ _)).
  { eapply sized_parses; [apply Hok| |exact Eo]. intros [id o] u Hin. apply elem_of_map_sorted in Hin.
    by apply named_output_parses. }
  cbn beta. rewrite foldl_emplace; [|apply map_sorted_NoDup|intros; apply lookup_empty]. rewrite insert_all_sorted.
  eapply (parses_bind proto_read).
  { eapply (@proto_parses _ _ (@set_serialise_ok _ _ (StorePath_serialise_ok storeDir Hdir) _ _ _)); [|exact Es].
    split; [apply Hok|]. intros p Hp. by apply (wok_src _ Hok). }
  cbn beta. eapply (parses_bind (readString size_max)); [apply readString_parses', Hok|]. cbn beta.
  eapply (parses_bind (readString size_max)); [apply readString_parses', Hok|]. cbn beta.
  eapply (parses_bind readStrings); [apply readStrings_parses; apply Hok|]. cbn beta.
  eapply (parses_bind_ret (read_sized _ _ _)).
  { eapply sized_parses; [apply (wok_env _ Hok)| |exact Ee]. intros [k v] u Hin. apply elem_of_map_sorted in Hin.
    destruct (wok_entry _ Hok _ _ Hin). by apply env_entry_parses. }
  intros s. rewrite He. fold (insert_all (∅ : gmap str str) (map_sorted (env drv))). rewrite insert_all_sorted.
  by destruct drv.
Qed.
End drv_wire_ok.

(** * Properties *)

(** [C32] A derivation written for the wire is read back from any source,
    whatever the size of the chunks it delivers and whatever follows: all
    kinds of outputs, source paths, arguments and environment are restored
    when it is read into a derivation without environment variables. *)
Theorem derivation_wire_roundtrip {S} `{SourceOk S} xp storeDir hashString drv drv0 w s d :
  store_dir_ok storeDir → drv_wire_ok xp storeDir hashString drv → env drv0 = ∅ →
  writeDerivation xp storeDir hashString drv = Ok w → denotes s (w ++ d) →
  ∃ s' : S, readDerivation xp storeDir (drv_name drv) drv0 s = Ok (drv, s') ∧ denotes s' d.
Proof. intros Hdir Hok He Hw. by apply (derivation_parses xp storeDir hashString Hdir). Qed.

Definition empty_drv : BasicDerivation :=
  {| outputs := ∅; inputSrcs := ∅; platform := []; builder := []; args := []; env := ∅; drv_name := [] |}.
Definition wire_drv : BasicDerivation :=
  {| outputs := {["out"%str := InputAddressed (sample_path "x")]}; inputSrcs := {[sample_path "src"]};
     platform := "x86_64-linux"; builder := "/bin/sh"; args := ["-c"%str]; env := {["A"%str := "b"%str]}; drv_name := "x" |}.

Lemma wire_drv_ok : drv_wire_ok [] "/bsd/store" zero_hash wire_drv.
Proof.
  assert (∀ n, path_ok (sample_path n) → sp_wf (sample_path n)) as Hp by (by intros n []).
  split; cbn [wire_drv outputs inputSrcs platform builder args env drv_name].
  - vm_compute. reflexivity.
  - intros id o Ho. apply lookup_singleton_Some in Ho as [<- <-]. split; [vm_compute; reflexivity|].
    apply Hp, (bool_decide_unpack _). vm_compute. exact I.
  - intros id o a b c Ho. apply lookup_singleton_Some in Ho as [<- <-]. intros [= <- <- <-].
    split_and!; vm_compute; reflexivity.
  - vm_compute. reflexivity.
  - intros p ->%elem_of_singleton. split; [apply Hp, (bool_decide_unpack _); vm_compute; exact I|vm_compute; reflexivity].
  - vm_compute. reflexivity.
  - vm_compute. reflexivity.
  - vm_compute. reflexivity.
  - apply (bool_decide_unpack _). vm_compute. exact I.
  - vm_compute. reflexivity.
  - apply map_Forall_singleton. split; vm_compute; reflexivity.
Qed.

Lemma derivation_wire_roundtrip_witness :
  ∃ w s', writeDerivation [] "/bsd/store" zero_hash wire_drv = Ok w ∧
    readDerivation [] "/bsd/store" "x" empty_drv (StringSource_new w) = Ok (wire_drv, s').
Proof.
  destruct (writeDerivation [] "/bsd/store" zero_hash wire_drv) as [w|e] eqn:E.
  - exists w. destruct (derivation_wire_roundtrip [] "/bsd/store" zero_hash wire_drv empty_drv w (StringSource_new w) []
      (proj1 sample_dir_ok) wire_drv_ok eq_refl E) as (s' & Es & _).
    + split; [cbn; lia|]. by rewrite app_nil_r.
    + exists s'. by split.
  - exfalso. assert (match writeDerivation [] "/bsd/store" zero_hash wire_drv with Ok _ => true | Throw _ => false end = true)
      as B by (vm_compute; reflexivity). rewrite E in B. discriminate B.
Defined.

(** The length-prefixed container formats are compositional: for any
    element types whose serialisers keep the promise, vectors, sets, maps and
    pairs of them are read back from any source as they were written, the
    order of iteration and the chunks of the source notwithstanding. *)
Theorem containers_wire_roundtrip {T V S} `{SerialiseOk T, SerialiseOk V, Countable T, !KeyOrder T, SourceOk S} :
  (∀ (l : list T) w, proto_valid l → proto_write l = Ok w → parses (S := S) proto_read w l) ∧
  (∀ (x : gset T) w, proto_valid x → proto_write x = Ok w → parses (S := S) proto_read w x) ∧
  (∀ (m : gmap T V) w, proto_valid m → proto_write m = Ok w → parses (S := S) proto_read w m) ∧
  (∀ (p : T * list V) w, proto_valid p → proto_write p = Ok w → parses (S := S) proto_read w p).
Proof. split_and!; intros; by apply proto_parses. Qed.

Definition map_example : gmap str str := {["a"%str := "b"%str]}.
Lemma containers_wire_roundtrip_witness :
  ∃ w, proto_write map_example = Ok w ∧ parses (S := StringSource) proto_read w map_example.
Proof.
  destruct (proto_write map_example) as [w|e] eqn:E.
  - exists w. split; [done|].
    apply (proj1 (proj2 (proj2 (containers_wire_roundtrip (T := str) (V := str) (S := StringSource))))); [|exact E].
    split; [vm_compute; reflexivity|]. apply map_Forall_singleton. split; vm_compute; reflexivity.
  - exfalso. assert (match proto_write map_example with Ok _ => true | Throw _ => false end = true)
      as B by (vm_compute; reflexivity). rewrite E in B. discriminate B.
Defined.
