(* ===== verification/Names.v ===== *)
(** Package names and versions: [libstore/names.cc].

    [DrvName] splits a derivation name into the name proper and the version;
    [compareVersions] orders versions component by component. Matching a name
    against a regular expression ([DrvName::matches]) is not modelled. *)

From S2P Require Import Prelude Strings Lexical.

(** * Derivation names *)

(** [isalpha] in the default locale. *)
Definition is_alpha (c : ascii) : bool :=
  ((65 <=? byte_val c) && (byte_val c <=? 90)) || ((97 <=? byte_val c) && (byte_val c <=? 122)).

Record DrvName := { fullName : str; name : str; version : str; hits : Z }.

Fixpoint split_version (fuel : nat) (s : str) (i : nat) : option nat :=
  match fuel with
  | O => None
  | S fuel =>
      match s !! i with
      | None => None
      | Some c =>
          if bool_decide (c = "-"%char) && match s !! S i with Some d => negb (is_alpha d) | None => false end
          then Some i else split_version fuel s (S i)
      end
  end.

Definition DrvName_new (s : str) : DrvName :=
  match split_version (length s) s 0 with
  | Some i => {| fullName := s; name := substr s 0 i; version := drop (i + 1) s; hits := 0 |}
  | None => {| fullName := s; name := s; version := []; hits := 0 |}
  end.

(** * Versions *)

Definition is_sep (c : ascii) : bool := bool_decide (c = "."%char) || bool_decide (c = "-"%char).

Fixpoint skip_seps (p : str) : str :=
  match p with c :: p' => if is_sep c then skip_seps p' else p | [] => [] end.

(** Consume the longest prefix of characters that satisfy [f]. *)
Fixpoint consume (f : ascii → bool) (p : str) : str * str :=
  match p with
  | c :: p' => if f c then let '(s, r) := consume f p' in (c :: s, r) else ([], p)
  | [] => ([], [])
  end.

(** The iterator [p] up to [end] is the string still to be read. *)
Definition nextComponent (p : str) : str * str :=
  match skip_seps p with
  | [] => ([], [])
  | (c :: _) as p => if is_digit c then consume is_digit p else consume (λ c, negb (is_digit c) && negb (is_sep c)) p
  end.

Section versions.
Context (lexical_cast : IntType → str → option Z).

Definition componentsLT (c1 c2 : str) : bool :=
  match string2Int lexical_cast Int c1, string2Int lexical_cast Int c2 with
  | Some n1, Some n2 => n1 <? n2
  | n1, n2 =>
      if str_eqb c1 [] && bool_decide (is_Some n2) then true
      else if str_eqb c1 "pre" && negb (str_eqb c2 "pre") then true
      else if str_eqb c2 "pre" then false
      else if bool_decide (is_Some n2) then true
      else if bool_decide (is_Some n1) then false
      else str_ltb c1 c2
  end.

Fixpoint compare_loop (fuel : nat) (p1 p2 : str) : result comparison :=
  match p1, p2 with
  | [], [] => Ok Eq
  | _, _ =>
      match fuel with
      | O => Throw NonTermination
      | S fuel =>
          let '(c1, p1) := nextComponent p1 in
          let '(c2, p2) := nextComponent p2 in
          if componentsLT c1 c2 then Ok Lt
          else if componentsLT c2 c1 then Ok Gt
          else compare_loop fuel p1 p2
      end
  end.

Definition compareVersions (v1 v2 : str) : result comparison := compare_loop (length v1 + length v2) v1 v2.
End versions.

Definition drvNamesFromArgs (opArgs : list str) : list DrvName := map DrvName_new opArgs.

(** * What the order is

    A version is read as the list of the keys of its components: [pre] comes
    first, then the end of the version, then words in the order of strings,
    then numbers. A shorter version is continued with [KEmpty]. *)

Inductive vkey := KPre | KEmpty | KOther (s : str) | KNum (n : Z).

Definition vkey_compare (k1 k2 : vkey) : comparison :=
  match k1, k2 with
  | KPre, KPre => Eq | KPre, _ => Lt | _, KPre => Gt
  | KEmpty, KEmpty => Eq | KEmpty, _ => Lt | _, KEmpty => Gt
  | KOther s, KOther t => str_compare s t | KOther _, _ => Lt | _, KOther _ => Gt
  | KNum n, KNum m => n ?= m
  end.

Fixpoint lex (n : nat) (l1 l2 : list vkey) : comparison :=
  match n with
  | O => Eq
  | S n =>
      match vkey_compare (hd KEmpty l1) (hd KEmpty l2) with
      | Eq => lex n (tl l1) (tl l2)
      | o => o
      end
  end.

(** A comparison function that orders its type strictly and weakly. *)
Record WeakOrder {A} (cmp : A → A → comparison) : Prop := {
  wo_sym x y : cmp y x = CompOpp (cmp x y);
  wo_trans x y z o : cmp x y = o → cmp y z = o → cmp x z = o;
  wo_eq x y z : cmp x y = Eq → cmp y z = cmp x z;
}.

Lemma wo_refl {A} (cmp : A → A → comparison) x : WeakOrder cmp → cmp x x = Eq.
Proof. intros H. pose proof (wo_sym _ H x x). by destruct (cmp x x). Qed.

Lemma wo_eq_r {A} (cmp : A → A → comparison) x y z : WeakOrder cmp → cmp y z = Eq → cmp x y = cmp x z.
Proof. intros H E. rewrite (wo_sym _ H y x), (wo_sym _ H z x). f_equal. symmetry. by apply (wo_eq _ H). Qed.

Lemma Z_weak : WeakOrder Z.compare.
Proof.
  split.
  - intros. apply Z.compare_antisym.
  - intros x y z [] H1 H2; rewrite ?Z.compare_eq_iff, ?Z.compare_lt_iff, ?Z.compare_gt_iff in *; lia.
  - intros x y z ->%Z.compare_eq_iff. done.
Qed.

Lemma str_weak : WeakOrder str_compare.
Proof.
  split.
  - intros. apply str_compare_antisym.
  - intros s t u [] H1 H2.
    + apply str_compare_eq in H1 as ->. done.
    + by eapply str_compare_lt_trans.
    + rewrite str_compare_antisym in H1, H2 |- *. apply (f_equal CompOpp) in H1, H2.
      rewrite CompOpp_involutive in H1, H2. by rewrite (str_compare_lt_trans _ _ _ H2 H1).
  - intros s t u ->%str_compare_eq. done.
Qed.

Lemma vkey_weak : WeakOrder vkey_compare.
Proof.
  split.
  - intros [] []; cbn; try done; [apply str_compare_antisym|apply Z.compare_antisym].
  - intros [] [] [] o; cbn; try done; try congruence; [apply str_weak|apply Z_weak].
  - intros [] [] []; cbn; try done; [apply str_weak|apply Z_weak].
Qed.

Lemma lex_weak n : WeakOrder (lex n).
Proof.
  induction n as [|n IH]; [split; cbn; congruence|]. split.
  - intros l1 l2. cbn [lex]. rewrite (wo_sym _ vkey_weak). destruct (vkey_compare (hd KEmpty l1) _); cbn [CompOpp]; [|done..].
    apply IH.
  - intros l1 l2 l3 o. cbn [lex].
    destruct (vkey_compare (hd KEmpty l1) (hd KEmpty l2)) eqn:E1.
    + rewrite <- (wo_eq _ vkey_weak _ _ (hd KEmpty l3) E1). intros H1. destruct (vkey_compare (hd KEmpty l2) _); [|done..]. by apply IH.
    + intros <-. destruct (vkey_compare (hd KEmpty l2) (hd KEmpty l3)) eqn:E2; [intros _|intros _|done].
      * by rewrite <- (wo_eq_r _ _ _ _ vkey_weak E2), E1.
      * by rewrite (wo_trans _ vkey_weak _ _ _ _ E1 E2).
    + intros <-. destruct (vkey_compare (hd KEmpty l2) (hd KEmpty l3)) eqn:E2; [intros _|done|intros _].
      * by rewrite <- (wo_eq_r _ _ _ _ vkey_weak E2), E1.
      * by rewrite (wo_trans _ vkey_weak _ _ _ _ E1 E2).
  - intros l1 l2 l3. cbn [lex]. destruct (vkey_compare (hd KEmpty l1) (hd KEmpty l2)) eqn:E1; [|done..].
    intros E. rewrite (wo_eq _ vkey_weak _ _ _ E1). destruct (vkey_compare (hd KEmpty l1) (hd KEmpty l3)); [|done..]. by apply IH.
Qed.

(** ** Reading components *)

Lemma consume_length f p : (length (consume f p).2 <= length p)%nat.
Proof. induction p as [|c p IH]; cbn; [done|]. destruct (f c); [|done]. destruct (consume f p); cbn in *; lia. Qed.

Lemma consume_progress f c p : f c = true → (length (consume f (c :: p)).2 <= length p)%nat.
Proof. intros Hf. cbn. rewrite Hf. pose proof (consume_length f p). by destruct (consume f p). Qed.

Lemma skip_seps_length p : (length (skip_seps p) <= length p)%nat.
Proof. induction p as [|c p IH]; cbn; [done|]. destruct (is_sep c); cbn; lia. Qed.

Lemma skip_seps_head p c r : skip_seps p = c :: r → is_sep c = false.
Proof. induction p as [|d p IH]; cbn; [done|]. destruct (is_sep d) eqn:E; [done|]. congruence. Qed.

Lemma nextComponent_nil : nextComponent [] = ([], []).
Proof. done. Qed.

Lemma nextComponent_length p : p ≠ [] → (length (nextComponent p).2 < length p)%nat.
Proof.
  intros Hp. unfold nextComponent. pose proof (skip_seps_length p) as Hl. destruct (skip_seps p) as [|c r] eqn:E; rewrite ?E in Hl.
  - cbn. destruct p; [done|cbn; lia].
  - pose proof (skip_seps_head _ _ _ E) as Hs. assert (length r < length p)%nat by (cbn in *; lia).
    destruct (is_digit c) eqn:Ed.
    + eapply Nat.le_lt_trans; [by apply (consume_progress is_digit c r)|done].
    + eapply Nat.le_lt_trans; [apply (consume_progress _ c r)|done]. by rewrite Ed, Hs.
Qed.

Lemma nextComponent_length_le p : (length (nextComponent p).2 <= length p)%nat.
Proof. destruct p as [|c p]; [done|]. pose proof (nextComponent_length (c :: p)). naive_solver lia. Qed.

Section keys.
Context (lexical_cast : IntType → str → option Z) `{!LexicalCast lexical_cast}.

Definition comp_key (c : str) : vkey :=
  match string2Int lexical_cast Int c with
  | Some n => KNum n
  | None => if str_eqb c [] then KEmpty else if str_eqb c "pre" then KPre else KOther c
  end.

Fixpoint keys_loop (fuel : nat) (p : str) : list vkey :=
  match fuel, p with
  | S fuel, _ :: _ => let '(c, p) := nextComponent p in comp_key c :: keys_loop fuel p
  | _, _ => []
  end.
Definition version_keys (v : str) : list vkey := keys_loop (length v) v.

Lemma keys_loop_fuel f g p : (length p <= f)%nat → (length p <= g)%nat → keys_loop f p = keys_loop g p.
Proof.
  revert g p. induction f as [|f IH]; intros g p Hf Hg.
  { destruct p; [|cbn in Hf; lia]. by destruct g. }
  destruct p as [|c p]; [by destruct g|]. destruct g as [|g]; [cbn in Hg; lia|]. cbn [keys_loop].
  pose proof (nextComponent_length (c :: p) ltac:(done)) as Hlt. destruct (nextComponent (c :: p)) as [x r].
  cbn in Hlt, Hf, Hg. f_equal. apply IH; lia.
Qed.

Lemma comp_key_nil : comp_key [] = KEmpty.
Proof. unfold comp_key. by rewrite string2Int_not_digits. Qed.

Lemma version_keys_next p :
  hd KEmpty (version_keys p) = comp_key (nextComponent p).1 ∧ tl (version_keys p) = version_keys (nextComponent p).2.
Proof.
  destruct p as [|c p]; [rewrite nextComponent_nil; cbn; by rewrite comp_key_nil|].
  unfold version_keys at 1 2. cbn [length keys_loop].
  pose proof (nextComponent_length (c :: p) ltac:(done)) as Hlt. destruct (nextComponent (c :: p)) as [x r].
  cbn in Hlt |- *. split; [done|]. apply keys_loop_fuel; lia.
Qed.

Lemma componentsLT_key c1 c2 :
  componentsLT lexical_cast c1 c2 = match vkey_compare (comp_key c1) (comp_key c2) with Lt => true | _ => false end.
Proof.
  unfold componentsLT, comp_key.
  assert (string2Int lexical_cast Int [] = None) as H0 by by apply string2Int_not_digits.
  assert (string2Int lexical_cast Int "pre" = None) as Hp by by apply string2Int_not_digits.
  destruct (string2Int lexical_cast Int c1) as [n1|] eqn:E1, (string2Int lexical_cast Int c2) as [n2|] eqn:E2; cbn [vkey_compare].
  - unfold Z.ltb. by destruct (n1 ?= n2).
  - unfold str_eqb. repeat (case_bool_decide; subst; cbn); try done; congruence.
  - unfold str_eqb. repeat (case_bool_decide; subst; cbn); try done; try congruence; by destruct H1.
  - unfold str_eqb, str_ltb. repeat (case_bool_decide; subst; cbn); try done;
      try (match goal with H : is_Some None |- _ => by destruct H end). all: try destruct c1; try destruct c2; try done.
Qed.

(** Fuel: every round reads at least one character of a version that is not
    used up. *)
Lemma compare_loop_lex fuel n p1 p2 :
  (length p1 + length p2 <= fuel)%nat → (length p1 + length p2 <= n)%nat →
  compare_loop lexical_cast fuel p1 p2 = Ok (lex n (version_keys p1) (version_keys p2)).
Proof.
  revert n p1 p2. induction fuel as [|fuel IH]; intros n p1 p2 Hf Hn.
  { destruct p1, p2; cbn in Hf; try lia. clear. by induction n. }
  destruct (decide (p1 = [] ∧ p2 = [])) as [[-> ->]|Hne]; [clear; by induction n|].
  destruct n as [|n]; [destruct p1, p2; cbn in Hn; naive_solver lia|]. cbn [compare_loop lex].
  destruct (version_keys_next p1) as [-> ->], (version_keys_next p2) as [-> ->].
  assert (length (nextComponent p1).2 + length (nextComponent p2).2 < length p1 + length p2)%nat as Hlt.
  { pose proof (nextComponent_length_le p1). pose proof (nextComponent_length_le p2).
    destruct p1 as [|a p1]; [destruct p2 as [|b p2]; [naive_solver|]|];
      [pose proof (nextComponent_length (b :: p2) ltac:(done))|pose proof (nextComponent_length (a :: p1) ltac:(done))]; lia. }
  transitivity (let '(c1, r1) := nextComponent p1 in let '(c2, r2) := nextComponent p2 in
    if componentsLT lexical_cast c1 c2 then Ok Lt else if componentsLT lexical_cast c2 c1 then Ok Gt
    else compare_loop lexical_cast fuel r1 r2); [destruct p1, p2; naive_solver|].
  destruct (nextComponent p1) as [c1 r1], (nextComponent p2) as [c2 r2]. cbn [fst snd] in *.
  rewrite !componentsLT_key, (wo_sym _ vkey_weak (comp_key c1)).
  destruct (vkey_compare _ _); cbn [CompOpp]; [|done..]. apply IH; lia.
Qed.

Lemma compareVersions_lex n v1 v2 :
  (length v1 + length v2 <= n)%nat → compareVersions lexical_cast v1 v2 = Ok (lex n (version_keys v1) (version_keys v2)).
Proof. by apply compare_loop_lex. Qed.

Lemma consume_all f s : forallb f s = true → consume f s = (s, []).
Proof. induction s as [|c s IH]; cbn; [done|]. intros [-> H]%andb_true_iff. by rewrite IH. Qed.

Lemma digit_not_sep c : is_digit c = true → is_sep c = false.
Proof. intros Hd. unfold is_sep. rewrite !bool_decide_eq_false_2; [done|..]; by intros ->. Qed.

Lemma version_keys_numeral s : numeral s = true → version_keys s = [comp_key s].
Proof.
  intros [Hne Hd]%andb_true_iff. destruct s as [|c s]; [done|].
  assert (is_digit c = true) as Hc by (cbn in Hd; by apply andb_true_iff in Hd as [? _]).
  unfold version_keys. cbn [length keys_loop]. unfold nextComponent. cbn [skip_seps]. rewrite digit_not_sep, Hc, consume_all by done.
  by destruct (length s).
Qed.

Lemma dec_string_numeral n : 0 ≤ n → numeral (dec_string n) = true.
Proof.
  intros Hn. destruct (dec_string_spec n Hn) as (_ & Hd & Hne). unfold numeral. rewrite Hd. by destruct (dec_string n).
Qed.

Lemma comp_key_number n :
  0 ≤ n → comp_key (dec_string n) = if n <=? int_max Int then KNum n else KOther (dec_string n).
Proof.
  intros Hn. pose proof (dec_string_numeral n Hn) as Hs. unfold comp_key.
  rewrite string2Int_numeral, (proj1 (dec_string_spec n Hn)) by done. destruct (n <=? int_max Int); [done|].
  unfold str_eqb. rewrite !bool_decide_eq_false_2; [done|..]; intros E; by rewrite E in Hs.
Qed.

(** ** Splitting a name *)

(** A dash that begins the version. *)
Definition version_dash (s : str) (i : nat) : Prop :=
  s !! i = Some "-"%char ∧ ∃ d, s !! S i = Some d ∧ is_alpha d = false.

Lemma split_version_spec fuel s i :
  (length s <= fuel + i)%nat →
  match split_version fuel s i with
  | Some j => (i <= j)%nat ∧ version_dash s j ∧ ∀ k, (i <= k < j)%nat → ¬ version_dash s k
  | None => ∀ k, (i <= k)%nat → ¬ version_dash s k
  end.
Proof.
  revert i. induction fuel as [|fuel IH]; intros i Hl; cbn [split_version].
  { intros k Hk [Hd _]. apply lookup_lt_Some in Hd. lia. }
  destruct (s !! i) as [c|] eqn:Ec.
  2:{ apply lookup_ge_None in Ec. intros k Hk [Hd _]. apply lookup_lt_Some in Hd. lia. }
  destruct (bool_decide (c = "-"%char) && _) eqn:E.
  - apply andb_true_iff in E as [->%bool_decide_eq_true Hd]. split; [done|]. split; [|lia]. split; [done|].
    destruct (s !! S i) as [d|]; [|done]. exists d. split; [done|]. by apply negb_true_iff.
  - assert (¬ version_dash s i) as Hni.
    { intros [Hc (d & Hd & Ha)]. rewrite Hc in Ec. injection Ec as <-. rewrite bool_decide_eq_true_2, Hd, Ha in E by done. done. }
    assert (∀ k, (i <= k)%nat → k = i ∨ (S i <= k)%nat) as Hk by lia.
    specialize (IH (S i) ltac:(lia)). destruct (split_version fuel s (S i)) as [j|].
    + destruct IH as (H1 & H2 & H3). split; [lia|]. split; [done|]. intros k Hkj.
      destruct (Hk k) as [->|?]; [lia|done|]. apply H3. lia.
    + intros k Hik. destruct (Hk k) as [->|?]; [lia|done|]. by apply IH.
Qed.
End keys.

(** * Properties *)

(** The name ends before the first dash that is followed by something other
    than a letter, and the version is the rest; without such a dash there is
    no version. A dash at the very end does not count. *)
Theorem drv_name_split s :
  let d := DrvName_new s in
  fullName d = s ∧
  ((∃ i, version_dash s i ∧ (∀ k, (k < i)%nat → ¬ version_dash s k) ∧ length (name d) = i ∧
         s = name d ++ "-" ++ version d ∧ version d ≠ []) ∨
   ((∀ i, ¬ version_dash s i) ∧ name d = s ∧ version d = [])).
Proof.
  unfold DrvName_new. pose proof (split_version_spec (length s) s 0 ltac:(lia)) as H.
  destruct (split_version (length s) s 0) as [i|]; cbn; (split; [done|]).
  - left. exists i. destruct H as (_ & Hd & Hm). split; [done|]. split; [intros k Hk; apply Hm; lia|].
    unfold substr. rewrite drop_0. destruct Hd as [Hi (d & Hd & _)]. pose proof (lookup_lt_Some _ _ _ Hi).
    pose proof (lookup_lt_Some _ _ _ Hd). split; [rewrite length_take; lia|]. split.
    + rewrite <- (take_drop_middle s i _ Hi) at 1. by rewrite Nat.add_1_r.
    + intros E. apply (f_equal length) in E. rewrite length_drop in E. cbn in E. lia.
  - right. split; [|done]. intros i. apply H. lia.
Qed.

(** Whole numbers as versions are compared by value as long as both fit
    an [int]; a number from 2^31 on is compared as a word instead, and so comes
    before every number that fits. *)
Theorem numeric_versions lexical_cast `{!LexicalCast lexical_cast} n m :
  0 ≤ n → 0 ≤ m →
  compareVersions lexical_cast (std_to_string n) (std_to_string m) =
    Ok (match n <? 2 ^ 31, m <? 2 ^ 31 with
        | true, true => n ?= m
        | true, false => Gt
        | false, true => Lt
        | false, false => str_compare (std_to_string n) (std_to_string m)
        end).
Proof.
  intros Hn Hm. unfold std_to_string. rewrite !(proj2 (Z.ltb_ge _ 0)) by lia.
  rewrite (compareVersions_lex _ (S (length (dec_string n) + length (dec_string m)))) by lia. f_equal.
  rewrite !version_keys_numeral, !comp_key_number by (try apply dec_string_numeral; done).
  assert (∀ k, (k <=? int_max Int) = (k <? 2 ^ 31)) as Hk.
  { intros k. change (int_max Int) with (2 ^ 31 - 1). apply eq_iff_eq_true. rewrite Z.leb_le, Z.ltb_lt. lia. }
  rewrite !Hk. cbn [lex hd tl].
  assert (∀ i o, match o with Eq => lex i [] [] | Lt => Lt | Gt => Gt end = o) as He.
  { intros i []; [|done..]. by induction i. }
  rewrite He. by destruct (n <? 2 ^ 31), (m <? 2 ^ 31).
Qed.

Lemma numeric_versions_witness :
  compareVersions plain_cast (std_to_string 9) (std_to_string 10) = Ok Lt ∧
  compareVersions plain_cast (std_to_string 2147483648) (std_to_string 1) = Ok Lt.
Proof. split; apply (numeric_versions plain_cast); lia. Defined.

(** [C35] Versions are weakly ordered: comparing two versions always ends with
    an answer, swapping them reverses it, and the answers are transitive, also
    through versions that compare as equal without being the same text. *)
Theorem compareVersions_order lexical_cast `{!LexicalCast lexical_cast} v1 v2 v3 :
  let cmp := compareVersions lexical_cast in
  (∃ o, cmp v1 v2 = Ok o ∧ cmp v2 v1 = Ok (CompOpp o)) ∧ cmp v1 v1 = Ok Eq ∧
  (∀ o, cmp v1 v2 = Ok o → cmp v2 v3 = Ok o → cmp v1 v3 = Ok o) ∧
  (cmp v1 v2 = Ok Eq → cmp v2 v3 = cmp v1 v3).
Proof.
  intros cmp. set (n := (length v1 + length v1 + length v2 + length v3)%nat).
  unfold cmp. rewrite (compareVersions_lex _ n v1 v2), (compareVersions_lex _ n v2 v1), (compareVersions_lex _ n v1 v1),
    (compareVersions_lex _ n v2 v3), (compareVersions_lex _ n v1 v3) by lia.
  pose proof (lex_weak n) as W. split_and!.
  - eexists. split; [done|]. f_equal. apply W.
  - f_equal. by apply wo_refl.
  - intros o [= <-] [= H]. f_equal. by eapply W.
  - intros [= H]. f_equal. by apply W.
Qed.

Lemma compareVersions_order_witness :
  compareVersions plain_cast "1.2pre4" "1.2" = Ok Lt ∧ compareVersions plain_cast "1.2" "1.02.1" = Ok Lt ∧
  compareVersions plain_cast "1.2pre4" "1.02.1" = Ok Lt.
Proof.
  split; [reflexivity|]. split; [reflexivity|].
  apply (proj1 (proj2 (proj2 (compareVersions_order plain_cast "1.2pre4" "1.2" "1.02.1")))); reflexivity.
Defined.
