(* ===== verification/References.v ===== *)
(** References between store objects: [libutil/references.cc],
    [libutil/include/bsd/util/references.hh] and
    [libstore/path-references.cc].

    Objects refer to each other by the hash parts of store paths that occur in
    their archives. [RefScanSink] looks for them in the archive as it streams
    by in chunks, [RewritingSink] replaces strings in it, [HashModuloSink]
    hashes it with one string replaced by zeros. *)

From S2P Require Import Prelude Strings Xp Hash CanonPath Serialise StorePath.

(** * Scanning *)

Definition refLength : nat := 32.

(** The table [isBase32]. *)
Definition isBase32 (c : ascii) : bool := existsb (λ d, bool_decide (d = c)) bsd32Chars.

(** The loop over [j]: the last character below [i + j] that is not a digit. *)
Fixpoint last_bad (s : str) (i j : nat) : option nat :=
  match j with
  | O => None
  | S j => if isBase32 (nth (i + j) s NUL) then last_bad s i j else Some j
  end.

(** The sets [hashes] and [seen]. *)
Record scan_sets := { sc_hashes : gset str; sc_seen : gset str }.

(** [hashes.erase(ref)] and the insertion that depends on it. *)
Definition note_ref (ref : str) (st : scan_sets) : scan_sets :=
  if bool_decide (ref ∈ sc_hashes st) then
    {| sc_hashes := sc_hashes st ∖ {[ref]}; sc_seen := {[ref]} ∪ sc_seen st |}
  else st.

(** The loop over [i], which grows in every round. *)
Fixpoint search_loop (fuel : nat) (s : str) (i : nat) (st : scan_sets) : result scan_sets :=
  if (i + refLength <=? length s)%nat then
    match fuel with
    | O => Throw NonTermination
    | S fuel =>
        match last_bad s i refLength with
        | Some j => search_loop fuel s (i + j + 1) st
        | None => search_loop fuel s (i + 1) (note_ref (take refLength (drop i s)) st)
        end
    end
  else Ok st.
Definition search (s : str) (st : scan_sets) : result scan_sets := search_loop (length s) s 0 st.

Record RefScanSink := { rs_sets : scan_sets; rs_tail : str }.
Definition RefScanSink_new (hashes : gset str) : RefScanSink :=
  {| rs_sets := {| sc_hashes := hashes; sc_seen := ∅ |}; rs_tail := [] |}.

Definition RefScanSink_write (data : str) (k : RefScanSink) : result RefScanSink :=
  let tailLen := Nat.min (length data) refLength in
  let s := rs_tail k ++ take tailLen data in
  st ← search s (rs_sets k);
  st ← search data st;
  let rest := (refLength - tailLen)%nat in
  let tail := if (rest <? length (rs_tail k))%nat then drop (length (rs_tail k) - rest) (rs_tail k) else rs_tail k in
  Ok {| rs_sets := st; rs_tail := tail ++ drop (length data - tailLen) data |}.
#[export] Instance RefScanSink_sink : Sink RefScanSink := {| snk_write := RefScanSink_write |}.

Definition getResult (k : RefScanSink) : gset str := sc_seen (rs_sets k).

(** ** Store paths *)

Record PathRefScanSink := { pr_sink : RefScanSink; pr_backMap : gmap str StorePath }.

Definition fromPaths (refs : gset StorePath) : result PathRefScanSink :=
  '(hashes, backMap) ← foldR (λ (st : gset str * gmap str StorePath) i,
      let hp := hashPart i in
      match st.2 !! hp with
      | Some _ => Throw AssertionFailure
      | None => Ok ({[hp]} ∪ st.1, <[hp := i]> st.2)
      end) (∅, ∅) (set_sorted refs);
  Ok {| pr_sink := RefScanSink_new hashes; pr_backMap := backMap |}.

#[export] Instance PathRefScanSink_sink : Sink PathRefScanSink :=
  {| snk_write data k := s ← RefScanSink_write data (pr_sink k); Ok {| pr_sink := s; pr_backMap := pr_backMap k |} |}.

Definition getResultPaths (k : PathRefScanSink) : result (gset StorePath) :=
  foldR (λ found i,
    match pr_backMap k !! i with
    | None => Throw AssertionFailure
    | Some p => Ok ({[p]} ∪ found)
    end) ∅ (set_sorted (getResult (pr_sink k))).

(** [scanForReferences(Sink &, const Path &, const StorePathSet &)]; [chunks]
    are the writes of [dumpPath]. *)
Definition scanForReferences {K} `{Sink K} (toTee : K) (chunks : list str) (refs : gset StorePath)
    : result (gset StorePath * K) :=
  refsSink ← fromPaths refs;
  k ← foldR (λ k d, snk_write d k) (refsSink, toTee) chunks;
  found ← getResultPaths k.1;
  Ok (found, k.2).

(** * Rewriting *)

Section rewriting.
Context {K : Type} `{Sink K}.

Record RewritingSink := {
  rw_rewrites : gmap str str; rw_maxRewriteSize : nat; rw_prev : str; rw_nextSink : K; rw_pos : Z; rw_matches : list Z }.

Definition RewritingSink_new (rewrites : gmap str str) (nextSink : K) : result RewritingSink :=
  maxRewriteSize ← foldR (λ m (i : str * str),
    _ ← assertR (length i.1 =? length i.2)%nat; Ok (Nat.max m (length i.1))) 0%nat (map_sorted rewrites);
  Ok {| rw_rewrites := rewrites; rw_maxRewriteSize := maxRewriteSize; rw_prev := []; rw_nextSink := nextSink;
        rw_pos := 0; rw_matches := [] |}.

(** [RewritingSink::operator ()]; the fuel of [rewriteStrings] is enough for
    rewrites that keep the length. *)
Definition RewritingSink_write (data : str) (k : RewritingSink) : result RewritingSink :=
  s ← (match rewriteStrings (S (length (rw_prev k ++ data))) (rw_prev k ++ data) (rw_rewrites k) with
       | Some s => Ok s | None => Throw NonTermination end);
  let m := rw_maxRewriteSize k in
  let prev := if (length s <? m)%nat then s
              else if (m =? 0)%nat then []
              else take (m - 1) (drop (length s - m + 1) s) in
  let consumed := (length s - length prev)%nat in
  next ← (if (consumed =? 0)%nat then Ok (rw_nextSink k) else snk_write (take consumed s) (rw_nextSink k));
  Ok {| rw_rewrites := rw_rewrites k; rw_maxRewriteSize := m; rw_prev := prev; rw_nextSink := next;
        rw_pos := u64 (rw_pos k + Z.of_nat consumed); rw_matches := rw_matches k |}.

Definition RewritingSink_flush (k : RewritingSink) : result RewritingSink :=
  if bool_decide (rw_prev k = []) then Ok k
  else
    next ← snk_write (rw_prev k) (rw_nextSink k);
    Ok {| rw_rewrites := rw_rewrites k; rw_maxRewriteSize := rw_maxRewriteSize k; rw_prev := [];
          rw_nextSink := next; rw_pos := u64 (rw_pos k + Z.of_nat (length (rw_prev k))); rw_matches := rw_matches k |}.
End rewriting.
Arguments RewritingSink K : clear implicits.

(** ** Hashing modulo a string *)

(** The hash sink is the string hashed so far. *)
Record HashModuloSink := { hm_ha : HashAlgorithm; hm_sink : RewritingSink StringSink }.

Definition HashModuloSink_new (ha : HashAlgorithm) (modulus : str) : result HashModuloSink :=
  k ← RewritingSink_new {[modulus := replicate (length modulus) NUL]} ([] : StringSink);
  Ok {| hm_ha := ha; hm_sink := k |}.
Definition HashModuloSink_write (data : str) (k : HashModuloSink) : result HashModuloSink :=
  s ← RewritingSink_write data (hm_sink k); Ok {| hm_ha := hm_ha k; hm_sink := s |}.
Definition HashModuloSink_finish (hashString : HashAlgorithm → str → Hash) (k : HashModuloSink) : result (Hash * Z) :=
  s ← RewritingSink_flush (hm_sink k);
  let hashed := foldl (λ h pos, h ++ "|" ++ std_to_string pos) (rw_nextSink s) (rw_matches s) in
  Ok (hashString (hm_ha k) hashed, rw_pos s).

(** * What scanning finds *)

(** [x] is a reference string that occurs in [s]. *)
Definition digits32 (x : str) : Prop := length x = refLength ∧ forallb isBase32 x = true.
Definition occurs (x s : str) : Prop := ∃ p q, s = p ++ x ++ q.

(** It occurs at or after position [i]. *)
Definition occurs_from (i : nat) (x s : str) : Prop :=
  ∃ k, (i <= k)%nat ∧ (k + refLength <= length s)%nat ∧ take refLength (drop k s) = x ∧ forallb isBase32 x = true.

Lemma occurs_from_0 x s : occurs_from 0 x s ↔ digits32 x ∧ occurs x s.
Proof.
  split.
  - intros (k & _ & Hk & Hx & Hb). split; [split; [|done]|].
    + rewrite <- Hx, length_take, length_drop. lia.
    + exists (take k s), (drop (k + refLength) s). by rewrite <- Hx, <- drop_drop, !take_drop.
  - intros [[Hl Hb] (p & q & ->)]. exists (length p). rewrite !length_app, Hl. split_and!; [lia|lia| |done].
    rewrite drop_app_length, <- Hl. apply take_app_length.
Qed.

Lemma last_bad_None s i j : last_bad s i j = None → ∀ k, (k < j)%nat → isBase32 (nth (i + k) s NUL) = true.
Proof.
  induction j as [|j IH]; intros E k Hk; [lia|]. cbn [last_bad] in E. destruct (isBase32 (nth (i + j) s NUL)) eqn:Ej; [|done].
  destruct (decide (k = j)) as [->|]; [done|]. apply IH; [done|lia].
Qed.

Lemma last_bad_Some s i j b : last_bad s i j = Some b → (b < j)%nat ∧ isBase32 (nth (i + b) s NUL) = false.
Proof.
  induction j as [|j IH]; intros E; cbn [last_bad] in E; [done|]. destruct (isBase32 (nth (i + j) s NUL)) eqn:Ej.
  - destruct (IH E). split; [lia|done].
  - injection E as <-. split; [lia|done].
Qed.

Lemma nth_take_drop n k (s : str) j d : (j < n)%nat → nth j (take n (drop k s)) d = nth (k + j) s d.
Proof. intros Hj. rewrite nth_firstn, (proj2 (Nat.ltb_lt j n) Hj). apply nth_skipn. Qed.

Lemma forallb_nth (f : ascii → bool) (x : str) : forallb f x = true ↔ ∀ j, (j < length x)%nat → f (nth j x NUL) = true.
Proof.
  rewrite forallb_forall. split.
  - intros H j Hj. apply H. by apply nth_In.
  - intros H c Hc. destruct (In_nth x c NUL Hc) as (j & Hj & <-). by apply H.
Qed.

(** Skipping past a character that is no digit misses nothing. *)
Lemma occurs_from_skip s i b x :
  isBase32 (nth (i + b) s NUL) = false → (b < refLength)%nat → occurs_from i x s ↔ occurs_from (i + b + 1) x s.
Proof.
  intros Hb Hr. split; intros (k & Hk & Hl & Hx & Hd); exists k; split_and!; try done; [|lia].
  destruct (decide (i + b + 1 <= k)%nat) as [|Hn]; [done|]. exfalso.
  assert (length x = refLength) as Hlx by (rewrite <- Hx, length_take, length_drop; lia).
  rewrite forallb_nth in Hd. specialize (Hd (i + b - k)%nat ltac:(lia)). rewrite <- Hx, nth_take_drop in Hd by lia.
  replace (k + (i + b - k))%nat with (i + b)%nat in Hd by lia. congruence.
Qed.

Lemma occurs_from_here s i x :
  last_bad s i refLength = None → (i + refLength <= length s)%nat →
  occurs_from i x s ↔ x = take refLength (drop i s) ∨ occurs_from (i + 1) x s.
Proof.
  intros Hn Hl. split.
  - intros (k & Hk & Hkl & Hx & Hd). destruct (decide (k = i)) as [->|]; [by left|].
    right. exists k. split_and!; [lia|done..].
  - intros [->|(k & Hk & ?)]; [|exists k; split; [lia|done]].
    exists i. split_and!; [lia|done|done|]. apply forallb_nth. intros j Hj. rewrite length_take, length_drop in Hj.
    rewrite nth_take_drop by lia. apply (last_bad_None _ _ _ Hn). lia.
Qed.

(** The effect of finding the references [P]. *)
Definition found (P : str → Prop) (st st' : scan_sets) : Prop :=
  (∀ x, x ∈ sc_hashes st' ↔ x ∈ sc_hashes st ∧ ¬ P x) ∧
  (∀ x, x ∈ sc_seen st' ↔ x ∈ sc_seen st ∨ (x ∈ sc_hashes st ∧ P x)).

Lemma note_ref_found ref st : found (λ x, x = ref) st (note_ref ref st).
Proof.
  unfold found, note_ref. case_bool_decide as Hr; cbn [sc_hashes sc_seen]; (split; intros x).
  - set_solver.
  - rewrite elem_of_union, elem_of_singleton. split; [intros [->|?]; auto|intros [?|[_ ->]]; auto].
  - split; [|tauto]. intros Hx. split; [done|]. by intros ->.
  - split; [auto|]. intros [?|[? ->]]; [done|]. by destruct Hr.
Qed.

Lemma found_trans P Q R st st1 st2 :
  found P st st1 → found Q st1 st2 → (∀ x, R x ↔ P x ∨ Q x) → found R st st2.
Proof.
  intros [H1 S1] [H2 S2] HR. split; intros x.
  - rewrite H2, H1, HR. tauto.
  - specialize (H1 x). specialize (S1 x). specialize (S2 x). rewrite HR.
    destruct (decide (x ∈ sc_seen st1)); tauto.
Qed.

Lemma found_ext P Q st st' : found P st st' → (∀ x, P x ↔ Q x) → found Q st st'.
Proof. intros [H1 H2] E. split; intros x; [rewrite H1|rewrite H2]; by rewrite E. Qed.

Lemma search_loop_spec fuel s i st :
  (length s < fuel + i + refLength)%nat → ∃ st', search_loop fuel s i st = Ok st' ∧ found (λ x, occurs_from i x s) st st'.
Proof.
  revert i st. induction fuel as [|fuel IH]; intros i st Hf; cbn [search_loop].
  - rewrite (proj2 (Nat.leb_gt _ _)) by lia. exists st. split; [done|]. split; intros x; [|].
    + split; [|tauto]. intros Hx. split; [done|]. intros (k & ? & ? & _). lia.
    + split; [by left|]. intros [?|[_ (k & ? & ? & _)]]; [done|lia].
  - destruct (Nat.leb_spec (i + refLength) (length s)) as [Hl|Hl].
    + destruct (last_bad s i refLength) as [b|] eqn:Eb.
      * destruct (last_bad_Some _ _ _ _ Eb) as [Hb Hn]. destruct (IH (i + b + 1)%nat st) as (st' & E & Hs); [lia|].
        exists st'. split; [done|]. eapply found_ext; [exact Hs|]. intros x. symmetry. by apply occurs_from_skip.
      * destruct (IH (i + 1)%nat (note_ref (take refLength (drop i s)) st)) as (st' & E & Hs); [lia|].
        exists st'. split; [done|]. eapply (found_trans _ _ _ _ _ _ (note_ref_found _ _) Hs).
        intros x. by apply occurs_from_here.
    + exists st. split; [done|]. split; intros x.
      * split; [|tauto]. intros Hx. split; [done|]. intros (k & ? & ? & _). lia.
      * split; [by left|]. intros [?|[_ (k & ? & ? & _)]]; [done|lia].
Qed.

(** The references found in a string. *)
Definition refs_in (s x : str) : Prop := digits32 x ∧ occurs x s.

Lemma search_spec s st : ∃ st', search s st = Ok st' ∧ found (refs_in s) st st'.
Proof.
  destruct (search_loop_spec (length s) s 0 st) as (st' & E & Hf); [unfold refLength; lia|].
  exists st'. split; [done|]. eapply found_ext; [exact Hf|]. intros x. apply occurs_from_0.
Qed.

(** ** Across chunks *)

(** The last [n] characters. *)
Definition lastn (n : nat) (s : str) : str := drop (length s - n) s.

Lemma lastn_app n s t : lastn n (s ++ t) = lastn (n - length t) s ++ lastn n t.
Proof.
  unfold lastn. rewrite length_app, drop_app. f_equal; [|f_equal; lia].
  destruct (decide (length t <= n)%nat); [f_equal; lia|]. rewrite !drop_ge; [done|lia|lia].
Qed.

Lemma occurs_app x s t : occurs x s → occurs x (t ++ s) ∧ occurs x (s ++ t).
Proof.
  intros (p & q & ->). split; [exists (t ++ p), q|exists p, (q ++ t)]; by rewrite <- !app_assoc.
Qed.

Lemma occurs_at x s :
  length x = refLength → occurs x s ↔ ∃ k, (k + refLength <= length s)%nat ∧ take refLength (drop k s) = x.
Proof.
  intros Hl. split.
  - intros (p & q & ->). exists (length p). rewrite !length_app, Hl. split; [lia|].
    rewrite drop_app_length, <- Hl. apply take_app_length.
  - intros (k & Hk & Hx). exists (take k s), (drop (k + refLength) s). by rewrite <- Hx, <- drop_drop, !take_drop.
Qed.

Lemma take_drop_left n k (s t : str) : (k + n <= length s)%nat → take n (drop k (s ++ t)) = take n (drop k s).
Proof. intros H. rewrite drop_app_le by lia. apply take_app_le. rewrite length_drop. lia. Qed.

(** A string of length 32 in [D ++ data] is in one of the three strings searched. *)
Lemma occurs_split x D data :
  length x = refLength →
  occurs x (D ++ data) ↔ occurs x D ∨ occurs x (lastn refLength D ++ take refLength data) ∨ occurs x data.
Proof.
  intros Hl. split.
  - rewrite !occurs_at by done. intros (k & Hk & Hx). rewrite length_app in Hk.
    destruct (decide (k + refLength <= length D)%nat) as [H1|H1].
    { left. exists k. split; [done|]. by rewrite take_drop_left in Hx. }
    destruct (decide (length D <= k)%nat) as [H2|H2].
    { right; right. exists (k - length D)%nat. split; [lia|]. by rewrite drop_app_ge in Hx by lia. }
    right; left. set (a := (length D - refLength)%nat). exists (k - a)%nat.
    assert (length (lastn refLength D) = (length D - a)%nat) as HL by (unfold lastn; rewrite length_drop; lia).
    assert (k - a + refLength <= length (lastn refLength D ++ take refLength data))%nat as Hb
      by (rewrite length_app, length_take, HL; lia).
    split; [done|]. rewrite <- (take_drop_left _ _ _ (drop refLength data)) by done.
    rewrite <- app_assoc, take_drop. rewrite <- Hx. f_equal. unfold lastn. fold a.
    rewrite <- (take_drop a D) at 2. rewrite <- app_assoc, (drop_app_ge (take a D)) by (rewrite length_take; lia).
    f_equal. rewrite length_take. lia.
  - intros [H|[H|H]]; [exact (proj2 (occurs_app x D data H))| |exact (proj1 (occurs_app x data D H))].
    unfold lastn in H. apply (occurs_app _ _ (take (length D - refLength) D)) in H as [H _].
    rewrite app_assoc, take_drop in H. apply (occurs_app _ _ (drop refLength data)) in H as [_ H].
    by rewrite <- app_assoc, take_drop in H.
Qed.

(** The state of the sink after the data [D], from the hashes [H]. *)
Definition scanned (H : gset str) (D : str) (k : RefScanSink) : Prop :=
  rs_tail k = lastn refLength D ∧
  found (refs_in D) {| sc_hashes := H; sc_seen := ∅ |} (rs_sets k).

Lemma scanned_new H : scanned H [] (RefScanSink_new H).
Proof.
  assert (∀ x, ¬ refs_in [] x) as Hn.
  { intros x [[Hl _] (p & q & E)]. apply (f_equal length) in E. rewrite !length_app, Hl in E. unfold refLength in E. cbn in E. lia. }
  split; [done|]. split; intros x; specialize (Hn x); cbn [RefScanSink_new rs_sets sc_hashes sc_seen]; tauto.
Qed.

Lemma scanned_write H D k data :
  scanned H D k → ∃ k', RefScanSink_write data k = Ok k' ∧ scanned H (D ++ data) k'.
Proof.
  intros [Ht Hf]. unfold RefScanSink_write. rewrite Ht.
  assert (take (Nat.min (length data) refLength) data = take refLength data) as Etake.
  { destruct (decide (length data <= refLength)%nat); [|by rewrite Nat.min_r by lia].
    rewrite Nat.min_l by lia. by rewrite !take_ge by lia. }
  rewrite Etake. destruct (search_spec (lastn refLength D ++ take refLength data) (rs_sets k)) as (s1 & E1 & F1).
  destruct (search_spec data s1) as (s2 & E2 & F2). rewrite E1. cbn [mbind result_bind]. rewrite E2. cbn [mbind result_bind].
  eexists. split; [reflexivity|]. split; cbn [rs_tail rs_sets].
  - rewrite lastn_app. f_equal.
    + assert (length (lastn refLength D) = Nat.min refLength (length D)) as HL by (unfold lastn; rewrite length_drop; lia).
      rewrite HL. destruct (Nat.ltb_spec (refLength - Nat.min (length data) refLength) (Nat.min refLength (length D))).
      * unfold lastn. rewrite drop_drop. f_equal. lia.
      * unfold lastn. f_equal. lia.
    + unfold lastn. f_equal. lia.
  - eapply (found_trans _ (λ x, refs_in (lastn refLength D ++ take refLength data) x ∨ refs_in data x) _ _ _ _ Hf).
    + by eapply (found_trans _ _ _ _ _ _ F1 F2).
    + intros x. unfold refs_in. destruct (decide (length x = refLength)) as [Hx|Hx].
      * rewrite occurs_split by done. tauto.
      * unfold digits32. tauto.
Qed.

Lemma scanned_chunks H D k chunks :
  scanned H D k → ∃ k', foldR (λ k d, RefScanSink_write d k) k chunks = Ok k' ∧ scanned H (D ++ concat chunks) k'.
Proof.
  revert D k. induction chunks as [|c chunks IH]; intros D k Hk; cbn [foldR concat].
  { exists k. by rewrite app_nil_r. }
  destruct (scanned_write _ _ _ c Hk) as (k1 & -> & H1). cbn [mbind result_bind].
  destruct (IH _ _ H1) as (k2 & E & H2). exists k2. by rewrite app_assoc.
Qed.

Lemma scanned_result H D k x : scanned H D k → x ∈ getResult k ↔ x ∈ H ∧ refs_in D x.
Proof. intros [_ [_ Hs]]. unfold getResult. rewrite Hs. cbn [sc_hashes sc_seen]. set_solver. Qed.

(** ** Store paths *)

Lemma hash_part_digits p : sp_wf p → digits32 (hashPart p).
Proof.
  intros [(Hl & Hc & _) _]. split.
  - unfold hashPart. rewrite length_take. unfold HashLen, refLength in *. lia.
  - unfold hashPart. rewrite forallb_forall in Hc |- *. intros c Hin. specialize (Hc c Hin).
    assert (∀ c, implb (hash_char c) (isBase32 c) = true) as Hi by (intros c'; check_ascii c').
    specialize (Hi c). by rewrite Hc in Hi.
Qed.

(** No two paths share a hash part. *)
Definition distinct_hashes (refs : gset StorePath) : Prop :=
  ∀ p q, p ∈ refs → q ∈ refs → hashPart p = hashPart q → p = q.

Lemma fromPaths_fold (l : list StorePath) (st : gset str * gmap str StorePath) :
  NoDup l → (∀ p q, p ∈ l → q ∈ l → hashPart p = hashPart q → p = q) → (∀ p, p ∈ l → st.2 !! hashPart p = None) →
  ∃ st', foldR (λ (st : gset str * gmap str StorePath) i,
      match st.2 !! hashPart i with
      | Some _ => Throw AssertionFailure
      | None => Ok ({[hashPart i]} ∪ st.1, <[hashPart i := i]> st.2)
      end) st l = Ok st' ∧
    (∀ x, x ∈ st'.1 ↔ x ∈ st.1 ∨ ∃ p, p ∈ l ∧ x = hashPart p) ∧
    (∀ p, p ∈ l → st'.2 !! hashPart p = Some p) ∧ (∀ x, (∀ p, p ∈ l → x ≠ hashPart p) → st'.2 !! x = st.2 !! x).
Proof.
  revert st. induction l as [|p l IH]; intros st Hnd Hd Hn; cbn [foldR].
  { exists st. split_and!; [done| |by intros ? ?%elem_of_nil|done].
    intros x. split; [by left|]. intros [?|(p & Hp%elem_of_nil & _)]; done. }
  apply NoDup_cons in Hnd as [Hp Hnd]. rewrite (Hn p) by (by left). cbn [mbind result_bind].
  destruct (IH ({[hashPart p]} ∪ st.1, <[hashPart p := p]> st.2)) as (st' & E & H1 & H2 & H3).
  - done.
  - intros q r Hq Hr. apply Hd; by right.
  - intros q Hq. cbn [snd]. rewrite lookup_insert_ne; [apply Hn; by right|]. intros Eh.
    apply Hd in Eh; [by subst|by left|by right].
  - exists st'. split; [done|]. cbn [fst snd] in *. split_and!.
    + intros x. rewrite H1, elem_of_union, elem_of_singleton. setoid_rewrite elem_of_cons. naive_solver.
    + intros q [->|Hq]%elem_of_cons; [|by apply H2]. rewrite H3; [apply lookup_insert_eq|].
      intros r Hr Eh. apply Hd in Eh; [by subst|by left|by right].
    + intros x Hx. rewrite H3 by (intros q Hq; apply Hx; by right). apply lookup_insert_ne. intros E'. by apply (Hx p); [left|].
Qed.

Lemma fromPaths_spec refs :
  distinct_hashes refs →
  ∃ H backMap, fromPaths refs = Ok {| pr_sink := RefScanSink_new H; pr_backMap := backMap |} ∧
    (∀ x, x ∈ H ↔ ∃ p, p ∈ refs ∧ x = hashPart p) ∧ (∀ p, p ∈ refs → backMap !! hashPart p = Some p).
Proof.
  intros Hd. destruct (fromPaths_fold (set_sorted refs) (∅, ∅)) as ([H bm] & E & H1 & H2 & _).
  - apply set_sorted_NoDup.
  - intros p q. rewrite !elem_of_set_sorted. apply Hd.
  - intros p _. apply lookup_empty.
  - exists H, bm. unfold fromPaths.
    match goal with |- context [foldR ?f ?a ?b] => replace (foldR f a b) with (Ok (H, bm)) by (symmetry; exact E) end.
    cbn [mbind result_bind fst snd] in *. split; [done|]. split.
    + intros x. rewrite H1. setoid_rewrite elem_of_set_sorted. set_solver.
    + intros p Hp. apply H2. by apply elem_of_set_sorted.
Qed.

Lemma result_fold (bm : gmap str StorePath) l acc :
  (∀ x, x ∈ l → is_Some (bm !! x)) →
  ∃ acc', foldR (λ (found : gset StorePath) i,
      match bm !! i with None => Throw AssertionFailure | Some p => Ok ({[p]} ∪ found) end) acc l = Ok acc' ∧
    ∀ p, p ∈ acc' ↔ p ∈ acc ∨ ∃ x, x ∈ l ∧ bm !! x = Some p.
Proof.
  revert acc. induction l as [|x l IH]; intros acc Hl; cbn [foldR].
  { exists acc. split; [done|]. intros p. split; [by left|]. intros [?|(x & Hx%elem_of_nil & _)]; done. }
  destruct (Hl x) as [p Hp]; [by left|]. rewrite Hp. cbn [mbind result_bind].
  destruct (IH ({[p]} ∪ acc)) as (acc' & E & H1); [intros y Hy; apply Hl; by right|]. exists acc'. split; [done|].
  intros q. rewrite H1, elem_of_union, elem_of_singleton. setoid_rewrite elem_of_cons. naive_solver.
Qed.

Lemma tee_scan {K} `{SinkOk K} hs bm chunks D k toTee :
  scanned hs D k →
  ∃ k' t, foldR (λ (k : PathRefScanSink * K) d, snk_write d k) ({| pr_sink := k; pr_backMap := bm |}, toTee) chunks
      = Ok ({| pr_sink := k'; pr_backMap := bm |}, t) ∧
    scanned hs (D ++ concat chunks) k' ∧ written t = written toTee ++ concat chunks.
Proof.
  revert D k toTee. induction chunks as [|c chunks IH]; intros D k toTee Hk; cbn [foldR concat].
  { exists k, toTee. by rewrite !app_nil_r. }
  destruct (scanned_write _ _ _ c Hk) as (k1 & E1 & H1). destruct (write_ok c toTee) as (t1 & E2 & W2).
  assert (snk_write c ({| pr_sink := k; pr_backMap := bm |}, toTee) = Ok ({| pr_sink := k1; pr_backMap := bm |}, t1)) as ->.
  { cbn [snk_write TeeSink_sink]. unfold TeeSink_write. cbn [fst snd snk_write PathRefScanSink_sink pr_sink pr_backMap].
    rewrite E1. cbn [mbind result_bind]. by rewrite E2. }
  cbn [mbind result_bind]. destruct (IH _ _ t1 H1) as (k' & t & E & Hs & W). exists k', t.
  split; [done|]. split; [by rewrite app_assoc|]. by rewrite W, W2, <- app_assoc.
Qed.

(** * Rewriting a stream *)

Section single.
Context (from to : str) (Hlen : length from = length to) (Hne : from ≠ []).

Lemma from_pos : (0 < length from)%nat.
Proof using Hlen Hne. destruct from; [done|cbn; lia]. Qed.

(** An occurrence of the pattern at a position; the one [rewriteStrings] goes on
    with; a run of its loop. *)
Definition occ (s : str) (i : nat) : Prop := is_prefix from (drop i s) = true.
Definition next (s : str) (j : nat) : option nat := if bool_decide (from = to) then None else find_from s from j.
Abbreviation put s i := (str_replace s i (length from) to).
Inductive rewrites : nat → str → nat → str → Prop :=
  | rewrites_done j s : rewrites j s j s
  | rewrites_step j s i j' s' : next s j = Some i → rewrites i (put s i) j' s' → rewrites j s j' s'.

Lemma occ_length s i : occ s i → (i + length from <= length s)%nat.
Proof using Hlen Hne.
  unfold occ. rewrite is_prefix_spec. intros E. apply (f_equal length) in E. rewrite length_take, length_drop in E.
  pose proof from_pos. lia.
Qed.
Lemma occ_app s t i : occ s i → occ (s ++ t) i.
Proof using Hlen Hne.
  intros H. pose proof (occ_length _ _ H). unfold occ in *. rewrite is_prefix_spec in *.
  rewrite drop_app_le by lia. rewrite take_app_le; [done|]. rewrite length_drop. lia.
Qed.
Lemma occ_app_inv s t i : occ (s ++ t) i → (i + length from <= length s)%nat → occ s i.
Proof using Hlen Hne.
  unfold occ. rewrite !is_prefix_spec. intros E Hi. rewrite drop_app_le in E by lia. rewrite take_app_le in E; [done|].
  rewrite length_drop. lia.
Qed.
Lemma occ_shift u w i : occ (u ++ w) (length u + i) ↔ occ w i.
Proof using Hlen Hne. unfold occ. by rewrite drop_app_add. Qed.

Lemma put_app s t i : occ s i → put (s ++ t) i = put s i ++ t.
Proof using Hlen Hne.
  intros H%occ_length. unfold str_replace. rewrite take_app_le by lia. rewrite drop_app_le by lia. by rewrite <- !app_assoc.
Qed.
Lemma put_shift u w i : put (u ++ w) (length u + i) = u ++ put w i.
Proof using Hlen Hne.
  unfold str_replace. rewrite take_app_add. replace (length u + i + length from)%nat with (length u + (i + length from))%nat by lia.
  rewrite drop_app_add. by rewrite <- !app_assoc.
Qed.
Lemma length_put s i : occ s i → length (put s i) = length s.
Proof using Hlen Hne. intros H%occ_length. rewrite length_str_replace by done. lia. Qed.

Lemma find_str_first s i : find_str from s = Some i ↔ occ s i ∧ ∀ k, (k < i)%nat → ¬ occ s k.
Proof using Hlen Hne.
  unfold occ. revert i. induction s as [|c s IH]; intros i; cbn [find_str].
  - destruct (is_prefix from []) eqn:E.
    + split; [intros [= <-]; split; [done|lia]|]. intros [_ H]. destruct i as [|i]; [done|]. exfalso. apply (H 0%nat); [lia|done].
    + split; [done|]. intros [H _]. rewrite drop_nil in H. congruence.
  - destruct (is_prefix from (c :: s)) eqn:E.
    + split; [intros [= <-]; split; [done|lia]|]. intros [_ H]. destruct i as [|i]; [done|]. exfalso. apply (H 0%nat); [lia|done].
    + rewrite fmap_Some. setoid_rewrite IH. split.
      * intros (j & [Hj Hk] & ->). split; [done|]. intros [|k] Hlt; [cbn [drop]; congruence|]. apply Hk. lia.
      * intros [Hi Hk]. destruct i as [|i]; [cbn [drop] in Hi; congruence|]. exists i. split; [|done]. split; [done|].
        intros k Hlt. apply (Hk (S k)). lia.
Qed.

(** The search finds the first occurrence from the position on. *)
Lemma next_Some s j i :
  next s j = Some i ↔ from ≠ to ∧ (j <= i)%nat ∧ occ s i ∧ ∀ k, (j <= k < i)%nat → ¬ occ s k.
Proof using Hlen Hne.
  unfold next, find_from. case_bool_decide as E; [naive_solver|].
  destruct (Nat.ltb_spec (length s) j) as [Hj|Hj].
  { split; [done|]. intros (_ & Hl & Ho%occ_length & _). lia. }
  rewrite fmap_Some. setoid_rewrite find_str_first. unfold occ. setoid_rewrite drop_drop. split.
  - intros (d & [Hd Hk] & ->). split; [done|]. split; [lia|]. split; [done|]. intros k Hlt.
    specialize (Hk (k - j)%nat ltac:(lia)). by replace (j + (k - j))%nat with k in Hk by lia.
  - intros (_ & Hl & Hi & Hk). exists (i - j)%nat. replace (j + (i - j))%nat with i by lia. split; [|done]. split; [done|].
    intros k Hlt. apply Hk. lia.
Qed.
Lemma next_None s j : next s j = None ↔ (from ≠ to → ∀ k, (j <= k)%nat → ¬ occ s k).
Proof using Hlen Hne.
  split.
  - intros Hn Hft k Hk Ho. revert k Hk Ho. induction k as [k IH] using lt_wf_ind. intros Hk Ho.
    enough (next s j = Some k) by congruence. apply next_Some. split_and!; [done|done|done|]. intros m Hm Hom. apply (IH m); [lia|lia|done].
  - intros H. destruct (next s j) as [i|] eqn:E; [|done]. apply next_Some in E as (Hft & Hl & Ho & _). by destruct (H Hft i).
Qed.

Lemma next_app s t j i : next s j = Some i → next (s ++ t) j = Some i.
Proof using Hlen Hne.
  rewrite !next_Some. intros (? & ? & Ho & Hk). split_and!; [done|done|by apply occ_app|]. intros k Hlt Hok.
  apply (Hk k Hlt). apply (occ_app_inv _ t); [done|]. apply occ_length in Ho. lia.
Qed.
Lemma next_shift u w j : next (u ++ w) (length u + j) = Nat.add (length u) <$> next w j.
Proof using Hlen Hne.
  destruct (next w j) as [i|] eqn:E; cbn [fmap option_fmap option_map].
  - apply next_Some in E as (? & ? & Ho & Hk). apply next_Some. split_and!; [done|lia|by apply occ_shift|].
    intros k Hlt. replace k with (length u + (k - length u))%nat by lia. rewrite occ_shift. apply Hk. lia.
  - apply next_None. rewrite next_None in E. intros Hft k Hlt. replace k with (length u + (k - length u))%nat by lia.
    rewrite occ_shift. apply E; [done|lia].
Qed.

Lemma rewrites_app t j s j' s' : rewrites j s j' s' → rewrites j (s ++ t) j' (s' ++ t).
Proof using Hlen Hne.
  induction 1 as [|j s i j' s' E H IH]; [constructor|]. econstructor; [by apply next_app|].
  apply next_Some in E as (_ & _ & Ho & _). by rewrite put_app.
Qed.
Lemma rewrites_shift u j w j' w' : rewrites j w j' w' → rewrites (length u + j) (u ++ w) (length u + j') (u ++ w').
Proof using Hlen Hne.
  induction 1 as [|j s i j' s' E H IH]; [constructor|]. econstructor; [by rewrite next_shift, E|]. by rewrite put_shift.
Qed.
Lemma rewrites_trans j s j1 s1 j2 s2 : rewrites j s j1 s1 → rewrites j1 s1 j2 s2 → rewrites j s j2 s2.
Proof using Hlen Hne. induction 1; [done|]. intros. econstructor; eauto. Qed.
Lemma rewrites_where j s j' s' :
  rewrites j s j' s' → length s' = length s ∧ (j' = j ∨ (j' + length from <= length s')%nat).
Proof using Hlen Hne.
  induction 1 as [|j s i j' s' E H [IH1 IH2]]; [auto|]. apply next_Some in E as (_ & _ & Ho & _).
  rewrite length_put in IH1 by done. split; [done|]. right. destruct IH2 as [->|?]; [|done]. apply occ_length in Ho. lia.
Qed.
Lemma rewrites_unique j s j1 s1 j2 s2 :
  rewrites j s j1 s1 → next s1 j1 = None → rewrites j s j2 s2 → next s2 j2 = None → s1 = s2.
Proof using Hlen Hne.
  induction 1 as [|j s i j1 s1 E H IH]; intros Hn H2 Hn2; (inversion H2; subst; [congruence|]); [congruence|].
  replace i0 with i in * by congruence. by apply IH.
Qed.

(** [rewriteStrings] runs its loop to the end. *)
Lemma rewriteStrings_rewrites s : ∃ j' s', rewrites 0 s j' s' ∧ next s' j' = None ∧
  rewriteStrings (S (length s)) s {[from := to]} = Some s'.
Proof using Hlen Hne.
  unfold rewriteStrings, map_sorted. rewrite map_to_list_singleton.
  change (merge_sort entry_le [(from, to)]) with [(from, to)]. cbn [foldl mbind option_bind fst snd].
  destruct (bool_decide (from = to)) eqn:E.
  { exists 0%nat, s. split; [constructor|]. unfold next. by rewrite E. }
  apply bool_decide_eq_false in E as Hft. destruct (rewrite_loop_full s from to Hlen Hft) as (s' & Hs & _).
  enough (∀ fuel j s s', rewrite_loop fuel s from to j = Some s' → ∃ j', rewrites j s j' s' ∧ next s' j' = None) as Hgo.
  { destruct (Hgo _ _ _ _ Hs) as (j' & ? & ?). by exists j', s'. }
  clear s s' Hs. induction fuel as [|fuel IH]; intros j s s' Hs; cbn [rewrite_loop] in Hs; [done|].
  assert (next s j = find_from s from j) as Hnx by (unfold next; by rewrite E).
  destruct (find_from s from j) as [i|] eqn:Ef.
  - apply IH in Hs as (j' & Hr & Hn). exists j'. split; [by econstructor|done].
  - injection Hs as <-. exists j. split; [constructor|done].
Qed.

(** Going on from what is left of the rewritten data is going on from all of it:
    an occurrence before the rest would end inside the data seen so far. *)
Lemma rewrites_more D data out prev j w j2 :
  rewrites 0 D j (out ++ prev) → next (out ++ prev) j = None → (j <= length out)%nat →
  out = [] ∨ length prev = (length from - 1)%nat →
  rewrites 0 (prev ++ data) j2 w → next w j2 = None →
  ∃ j', rewrites 0 (D ++ data) j' (out ++ w) ∧ next (out ++ w) j' = None ∧
    ((j' <= length out)%nat ∨ (j' + length from <= length (out ++ w))%nat).
Proof using Hlen Hne.
  intros HD Hn Hj Hp Hw Hnw. apply (rewrites_app data) in HD. rewrite <- app_assoc in HD.
  assert (from ≠ to → ∀ k, (j <= k < length out)%nat → ¬ occ (out ++ prev ++ data) k) as Hno.
  { intros Hft k Hk Ho. apply (proj1 (next_None _ _) Hn Hft k); [lia|]. rewrite app_assoc in Ho.
    apply (occ_app_inv _ data); [done|]. destruct Hp as [->|Hp]; [cbn in Hk; lia|]. rewrite length_app. lia. }
  inversion Hw as [? ? E1|? ? i ? ? E1 Hw']; subst.
  - exists j. split; [done|]. split; [|by left]. apply next_None. intros Hft k Hk.
    destruct (decide (k < length out)%nat); [apply Hno; [done|lia]|].
    replace k with (length out + (k - length out))%nat by lia. rewrite occ_shift. apply (proj1 (next_None _ _) Hnw); [done|lia].
  - exists (length out + j2)%nat. split; [|split].
    + eapply rewrites_trans; [exact HD|]. apply (rewrites_step _ _ (length out + i)).
      * apply next_Some in E1 as (Hft & _ & Ho & Hk). apply next_Some. split_and!; [done|lia|by apply occ_shift|].
        intros k Hlt. destruct (decide (k < length out)%nat); [apply Hno; [done|lia]|].
        replace k with (length out + (k - length out))%nat by lia. rewrite occ_shift. apply Hk. lia.
      * rewrite put_shift. by apply rewrites_shift.
    + rewrite next_shift, Hnw. done.
    + right. rewrite length_app. apply next_Some in E1 as (_ & _ & Ho & _). apply occ_length in Ho as Hl.
      apply rewrites_where in Hw' as [Hlw [->|?]]; [|lia]. rewrite length_put in Hlw by done. lia.
Qed.

(** ** The sink *)

Context {K : Type} `{SinkOk K}.

(** After the data [D] the sink has written a prefix of the rewritten data and
    holds the rest. *)
Definition rewriting (k0 : K) (D : str) (k : RewritingSink K) : Prop :=
  rw_rewrites k = {[from := to]} ∧ rw_maxRewriteSize k = length from ∧ rw_matches k = [] ∧
  ∃ out j, written (rw_nextSink k) = written k0 ++ out ∧ rw_pos k = u64 (Z.of_nat (length out)) ∧
    (length (rw_prev k) < length from)%nat ∧ (out = [] ∨ length (rw_prev k) = (length from - 1)%nat) ∧
    rewrites 0 D j (out ++ rw_prev k) ∧ next (out ++ rw_prev k) j = None ∧ (j <= length out)%nat.

Lemma u64_add a b : u64 (u64 a + b) = u64 (a + b).
Proof. apply Zplus_mod_idemp_l. Qed.

Lemma rewriting_new k0 : ∃ k, RewritingSink_new {[from := to]} k0 = Ok k ∧ rewriting k0 [] k.
Proof using Hlen Hne.
  unfold RewritingSink_new, map_sorted. rewrite map_to_list_singleton.
  change (merge_sort entry_le [(from, to)]) with [(from, to)]. cbn [foldR fst snd].
  rewrite (proj2 (Nat.eqb_eq _ _) Hlen). cbn [assertR mbind result_bind]. eexists. split; [reflexivity|].
  split_and!; try done. exists [], 0%nat. rewrite app_nil_r. pose proof from_pos. split_and!; try done; [by left|constructor|].
  apply next_None. intros _ k _ Ho%occ_length. cbn in Ho. lia.
Qed.

Lemma rewriting_write k0 D data k :
  rewriting k0 D k → ∃ k', RewritingSink_write data k = Ok k' ∧ rewriting k0 (D ++ data) k'.
Proof using Hlen Hne.
  intros (Hr & Hm & Hma & out & j & Hw & Hp & Hl & Ho & HD & Hn & Hj). pose proof from_pos as Hpos.
  destruct (rewriteStrings_rewrites (rw_prev k ++ data)) as (j2 & w & Hrw & Hnw & E).
  destruct (rewrites_more _ _ _ _ _ _ _ HD Hn Hj Ho Hrw Hnw) as (j' & HD' & Hn' & Hj'). rewrite length_app in Hj'.
  unfold RewritingSink_write. rewrite Hr, E, Hm. cbn [mbind result_bind].
  destruct (Nat.ltb_spec (length w) (length from)) as [Hs|Hs].
  - rewrite Nat.sub_diag. cbn [Nat.eqb mbind result_bind]. eexists. split; [reflexivity|]. split_and!; try done.
    exists out, j'. cbn [rw_nextSink rw_pos rw_prev].
    split_and!; [done|rewrite Hp, u64_add; f_equal; lia|done| |done|done|lia].
    destruct Ho as [->|Ho]; [by left|]. right. apply rewrites_where in Hrw as [Hlw _]. rewrite length_app in Hlw. lia.
  - rewrite (proj2 (Nat.eqb_neq (length from) 0)) by lia. set (c := (length w - (length from - 1))%nat).
    assert (take (length from - 1) (drop (length w - length from + 1) w) = drop c w) as ->.
    { rewrite take_ge by (rewrite length_drop; lia). f_equal. lia. }
    rewrite length_drop. replace (length w - (length w - c))%nat with c by lia.
    rewrite (proj2 (Nat.eqb_neq c 0)) by lia. destruct (write_ok (take c w) (rw_nextSink k)) as (n & -> & Wn).
    cbn [mbind result_bind]. eexists. split; [reflexivity|]. split_and!; try done.
    exists (out ++ take c w), j'. cbn [rw_nextSink rw_pos rw_prev]. rewrite <- app_assoc, take_drop.
    assert (length (take c w) = c) as Hc by (rewrite length_take; lia). rewrite length_app, Hc, length_drop. split_and!.
    + by rewrite Wn, Hw, <- app_assoc.
    + rewrite Hp, u64_add. f_equal. lia.
    + lia.
    + right. lia.
    + done.
    + done.
    + lia.
Qed.

Lemma rewriting_chunks k0 D chunks k :
  rewriting k0 D k → ∃ k', foldR (λ k d, RewritingSink_write d k) k chunks = Ok k' ∧ rewriting k0 (D ++ concat chunks) k'.
Proof using Hlen Hne.
  revert D k. induction chunks as [|c chunks IH]; intros D k Hk; cbn [foldR concat].
  { exists k. by rewrite app_nil_r. }
  destruct (rewriting_write _ _ c _ Hk) as (k1 & -> & H1). cbn [mbind result_bind].
  destruct (IH _ _ H1) as (k2 & E & H2). exists k2. by rewrite app_assoc.
Qed.

Lemma rewriting_flush k0 D k :
  rewriting k0 D k →
  ∃ s k', rewriteStrings (S (length D)) D {[from := to]} = Some s ∧
    RewritingSink_flush k = Ok k' ∧ written (rw_nextSink k') = written k0 ++ s ∧
    rw_pos k' = u64 (Z.of_nat (length D)) ∧ rw_matches k' = [].
Proof using Hlen Hne.
  intros (Hr & Hm & Hma & out & j & Hw & Hp & Hl & Ho & HD & Hn & Hj).
  destruct (rewriteStrings_rewrites D) as (j' & s & HD' & Hn' & E).
  assert (s = out ++ rw_prev k) as -> by (eapply rewrites_unique; [exact HD'|done|exact HD|done]).
  apply rewrites_where in HD as [HlD _]. rewrite length_app in HlD.
  unfold RewritingSink_flush. case_bool_decide as Hpn.
  - exists (out ++ rw_prev k), k. rewrite Hpn in *. rewrite app_nil_r in *. split_and!; [done|done|done| |done].
    rewrite Hp. f_equal. cbn in HlD. lia.
  - destruct (write_ok (rw_prev k) (rw_nextSink k)) as (n & -> & Wn). cbn [mbind result_bind].
    eexists _, _. split; [exact E|]. split; [reflexivity|]. cbn [rw_nextSink rw_pos rw_matches].
    split_and!; [|rewrite Hp, u64_add; f_equal; lia|done]. by rewrite Wn, Hw, <- app_assoc.
Qed.

(** The whole: a new sink, the chunks, and the end. *)
Lemma rewriting_stream k0 chunks :
  ∃ s k, rewriteStrings (S (length (concat chunks))) (concat chunks) {[from := to]} = Some s ∧
    (k ← RewritingSink_new {[from := to]} k0;
     k ← foldR (λ k d, RewritingSink_write d k) k chunks;
     RewritingSink_flush k) = Ok k ∧
    written (rw_nextSink k) = written k0 ++ s ∧ rw_pos k = u64 (Z.of_nat (length (concat chunks))) ∧ rw_matches k = [].
Proof using Hlen Hne.
  destruct (rewriting_new k0) as (k1 & -> & R1). cbn [mbind result_bind].
  destruct (rewriting_chunks k0 [] chunks k1 R1) as (k2 & -> & R2). cbn [mbind result_bind]. by apply rewriting_flush.
Qed.
End single.

(** * What rewriting writes *)

Section replace.
Context (from to : str).

(** Replace the occurrences of [from] from left to right; [pend] is what
    remains to be written of a replacement. *)
Fixpoint replaced (pend s : str) : str :=
  match s with
  | [] => []
  | c :: s' =>
      match pend with
      | d :: pend => d :: replaced pend s'
      | [] => if is_prefix from s then match to with d :: pend => d :: replaced pend s' | [] => replaced [] s' end
              else c :: replaced [] s'
      end
  end.

Context (Hlen : length from = length to) (Hne : from ≠ []) (Hfresh : ∀ c, c ∈ to → c ∉ from).
Abbreviation G := (replaced []).

Lemma replaced_pend pend x s : length x = length pend → replaced pend (x ++ s) = pend ++ G s.
Proof.
  revert x. induction pend as [|d pend IH]; intros [|c x] Hl; try done. cbn [replaced app]. by rewrite IH by (injection Hl; done).
Qed.

Lemma replaced_cons c s :
  G (c :: s) = if is_prefix from (c :: s) then match to with d :: pend => d :: replaced pend s | [] => G s end
               else c :: G s.
Proof. done. Qed.

Lemma replaced_match s : G (from ++ s) = to ++ G s.
Proof.
  assert (∃ c f, from = c :: f) as (c & f & Ef) by (destruct from; [done|eauto]).
  assert (from ++ s = c :: (f ++ s)) as Es by (by rewrite Ef).
  assert (is_prefix from (c :: (f ++ s)) = true) as Hp by (rewrite <- Es; apply is_prefix_spec, take_app_length).
  rewrite Es, replaced_cons, Hp. rewrite Ef in Hlen. destruct to as [|d t]; [done|]. cbn [app]. f_equal.
  apply replaced_pend. by injection Hlen.
Qed.

Lemma replaced_skip c s : is_prefix from (c :: s) = false → G (c :: s) = c :: G s.
Proof. intros Hp. by rewrite replaced_cons, Hp. Qed.

(** Characters of a replacement are never part of a match. *)
Lemma replaced_fresh z s : (∀ c, c ∈ z → c ∉ from) → G (z ++ s) = z ++ G s.
Proof.
  induction z as [|c z IH]; intros Hz; [done|]. cbn [app]. rewrite replaced_skip.
  - rewrite IH; [done|]. intros d Hd. apply Hz. by right.
  - destruct from as [|f fs]; [done|]. cbn [is_prefix]. rewrite bool_decide_false; [done|].
    intros <-. apply (Hz f); by left.
Qed.

Lemma length_replaced s : length (G s) = length s.
Proof.
  remember (length s) as n eqn:En. assert (Hn : (length s <= n)%nat) by lia. rewrite En. clear En.
  revert s Hn. induction n as [|n IH]; intros s Hn; [by destruct s; [|cbn in Hn; lia]|].
  destruct s as [|c s]; [done|]. destruct (is_prefix from (c :: s)) eqn:Ep.
  - apply is_prefix_spec in Ep. rewrite <- (take_drop (length from) (c :: s)), Ep, replaced_match, !length_app, IH; [lia|].
    rewrite length_drop. destruct from; [done|]. cbn in *. lia.
  - rewrite replaced_skip by done. cbn [length]. rewrite IH; [done|]. cbn in Hn. lia.
Qed.

(** ** [rewriteStrings] with one rewrite *)

Lemma replaced_until w r :
  (∀ j, (j < length w)%nat → is_prefix from (drop j (w ++ r)) = false) → G (w ++ r) = w ++ G r.
Proof.
  induction w as [|c w IH]; intros Hj; [done|]. cbn [app]. rewrite replaced_skip.
  - rewrite IH; [done|]. intros j Hl. apply (Hj (S j)). cbn. lia.
  - apply (Hj 0%nat). cbn. lia.
Qed.

Lemma find_str_None s : find_str from s = None → ∀ j, (j < length s)%nat → is_prefix from (drop j s) = false.
Proof.
  induction s as [|c s IH]; intros E j Hj; [cbn in Hj; lia|]. cbn [find_str] in E.
  destruct (is_prefix from (c :: s)) eqn:Ep; [done|]. destruct (find_str from s) eqn:Ef; [done|].
  destruct j as [|j]; [done|]. apply IH; [done|]. cbn in Hj. lia.
Qed.

Lemma rewrite_loop_replaced fuel x z w :
  (∀ c, c ∈ z → c ∉ from) → (length w < fuel)%nat →
  rewrite_loop fuel (x ++ z ++ w) from to (length x) = Some (x ++ z ++ G w).
Proof.
  revert x z w. induction fuel as [|fuel IH]; intros x z w Hz Hf; [lia|]. cbn [rewrite_loop]. unfold find_from.
  rewrite (proj2 (Nat.ltb_ge _ _)) by (rewrite length_app; lia). rewrite drop_app_length.
  destruct (find_str from (z ++ w)) as [i|] eqn:Ei; cbn [fmap option_fmap option_map].
  2: { rewrite <- replaced_fresh by done. do 2 f_equal. rewrite <- (app_nil_r (z ++ w)) at 2.
       rewrite replaced_until; [by rewrite app_nil_r|]. rewrite app_nil_r. by apply find_str_None. }
  destruct (find_str_Some _ _ _ Ei) as (Hi & Hm & Hno).
  assert (length z <= i)%nat as Hzi.
  { destruct (decide (length z <= i)%nat) as [|Hlt]; [done|]. exfalso. rewrite drop_app_le in Hm by lia.
    destruct (drop i z) as [|c zs] eqn:Ed; [apply (f_equal length) in Ed; rewrite length_drop in Ed; cbn in Ed; lia|].
    destruct from as [|f fs]; [done|]. cbn in Hm. injection Hm as -> _. apply (Hz f); [|by left].
    apply (subseteq_drop i). rewrite Ed. by left. }
  set (w0 := take (i - length z) w). set (w1 := drop (i - length z + length from) w).
  assert (w = w0 ++ from ++ w1) as Ew.
  { unfold w0, w1. rewrite <- (take_drop (i - length z) w) at 1. f_equal. rewrite drop_app_ge in Hm by done.
    rewrite <- (take_drop (length from) (drop (i - length z) w)) at 1. rewrite Hm. f_equal. by rewrite drop_drop. }
  assert (length w0 = i - length z)%nat as Hw0 by (unfold w0; rewrite length_take; rewrite length_app in Hi; lia).
  assert (G w = w0 ++ to ++ G w1) as ->.
  { rewrite Ew at 1. rewrite replaced_until; [by rewrite replaced_match|]. rewrite <- Ew. intros j Hj.
    specialize (Hno (length z + j)%nat ltac:(lia)). by rewrite drop_app_add in Hno. }
  assert (str_replace (x ++ z ++ w) (length x + i) (length from) to = (x ++ z ++ w0) ++ to ++ w1) as ->.
  { unfold str_replace. rewrite Ew at 1. replace (length x + i)%nat with (length (x ++ z ++ w0)) by (rewrite !length_app; lia).
    replace (x ++ z ++ w0 ++ from ++ w1) with ((x ++ z ++ w0) ++ from ++ w1) by (by rewrite <- !app_assoc).
    rewrite take_app_length. do 2 f_equal. rewrite Ew.
    replace (x ++ z ++ w0 ++ from ++ w1) with (((x ++ z ++ w0) ++ from) ++ w1) by (by rewrite <- !app_assoc).
    apply drop_app_length'. by rewrite (length_app (x ++ z ++ w0)). }
  replace (length x + i)%nat with (length (x ++ z ++ w0)) by (rewrite !length_app; lia).
  rewrite IH; [by rewrite <- !app_assoc|done|]. rewrite Ew, !length_app in Hf.
  destruct from; [done|]. cbn [length] in Hf. lia.
Qed.

Lemma rewriteStrings_replaced s : rewriteStrings (S (length s)) s {[from := to]} = Some (G s).
Proof.
  unfold rewriteStrings. unfold map_sorted. rewrite map_to_list_singleton.
  change (merge_sort entry_le [(from, to)]) with [(from, to)]. cbn [foldl mbind option_bind fst snd].
  rewrite bool_decide_false.
  - apply (rewrite_loop_replaced (S (length s)) [] [] s); [|lia]. by intros c Hc%elem_of_nil.
  - intros E. destruct from as [|f fs]; [done|]. apply (Hfresh f); [rewrite <- E|]; by left.
Qed.

(** ** Replacing twice *)

Lemma replaced_pointwise s : Forall2 (λ a b, b = a ∨ b ∈ to) s (G s).
Proof.
  remember (length s) as n eqn:En. assert (Hn : (length s <= n)%nat) by lia. clear En.
  revert s Hn. induction n as [|n IH]; intros s Hn; [destruct s; [constructor|cbn in Hn; lia]|].
  destruct s as [|c s]; [constructor|]. destruct (is_prefix from (c :: s)) eqn:Ep.
  - apply is_prefix_spec in Ep. rewrite <- (take_drop (length from) (c :: s)), Ep, replaced_match.
    apply Forall2_app.
    + apply Forall2_same_length_lookup_2; [done|]. intros i a b _ Hb. right. by apply list_elem_of_lookup_2 in Hb.
    + apply IH. rewrite length_drop. pose proof (from_pos from to Hlen Hne). cbn in *. lia.
  - rewrite replaced_skip by done. constructor; [by left|]. apply IH. cbn in Hn. lia.
Qed.

Lemma prefix_unchanged f s r :
  Forall2 (λ a b, b = a ∨ b ∈ to) s r → (∀ c, c ∈ f → c ∈ from) → is_prefix f r = true → is_prefix f s = true.
Proof.
  intros HF. revert f. induction HF as [|a b s r Hab HF IH]; intros [|c f] Hin Hp; try done.
  cbn [is_prefix] in *. apply andb_true_iff in Hp as [Hc%bool_decide_eq_true Hp]. subst b.
  apply andb_true_iff. split; [|apply IH; [intros d Hd; apply Hin; by right|done]].
  apply bool_decide_eq_true. destruct Hab as [->|Hto]; [done|]. exfalso. apply (Hfresh c Hto), Hin. by left.
Qed.

Lemma replaced_idemp s : G (G s) = G s.
Proof.
  remember (length s) as n eqn:En. assert (Hn : (length s <= n)%nat) by lia. clear En.
  revert s Hn. induction n as [|n IH]; intros s Hn; [by destruct s; [|cbn in Hn; lia]|].
  destruct s as [|c s]; [done|]. destruct (is_prefix from (c :: s)) eqn:Ep.
  - apply is_prefix_spec in Ep. rewrite <- (take_drop (length from) (c :: s)), Ep, replaced_match.
    rewrite replaced_fresh by done. rewrite IH; [done|]. rewrite length_drop. pose proof (from_pos from to Hlen Hne). cbn in *. lia.
  - rewrite (replaced_skip c s) by done. rewrite replaced_skip; [rewrite IH; [done|cbn in Hn; lia]|].
    apply not_true_iff_false. intros Hp. apply not_true_iff_false in Ep. apply Ep.
    eapply prefix_unchanged; [|by intros|exact Hp]. constructor; [by left|apply replaced_pointwise].
Qed.
End replace.

(** * Properties *)

(** [C13] Scanning finds exactly the references of an object: of the given
    paths, those whose hash part occurs anywhere in the archive, in whatever
    chunks it arrives, also across a chunk boundary; the archive passes
    unchanged to the other sink. *)
Theorem scan_finds_references {K} `{SinkOk K} (toTee : K) chunks refs :
  distinct_hashes refs → set_Forall sp_wf refs →
  ∃ found t, scanForReferences toTee chunks refs = Ok (found, t) ∧
    (∀ p, p ∈ found ↔ p ∈ refs ∧ occurs (hashPart p) (concat chunks)) ∧
    written t = written toTee ++ concat chunks.
Proof.
  intros Hd Hwf. destruct (fromPaths_spec refs Hd) as (hs & bm & E & Hh & Hb).
  destruct (tee_scan hs bm chunks [] _ toTee (scanned_new hs)) as (k & t & Ek & Hk & Hw).
  unfold scanForReferences. rewrite E. cbn [mbind result_bind]. rewrite Ek. cbn [mbind result_bind fst snd].
  assert (Hin : ∀ x, x ∈ set_sorted (getResult k) ↔ ∃ p, p ∈ refs ∧ x = hashPart p ∧ occurs x (concat chunks)).
  { intros x. rewrite elem_of_set_sorted, (scanned_result _ _ _ _ Hk), Hh. unfold refs_in. cbn [app]. split.
    - intros [(p & Hp & ->) [_ Ho]]. eauto.
    - intros (p & Hp & -> & Ho). split; [eauto|]. split; [by apply hash_part_digits, Hwf|done]. }
  destruct (result_fold bm (set_sorted (getResult k)) ∅) as (fs & Ef & Hf).
  { intros x Hx. apply Hin in Hx as (p & Hp & -> & _). exists p. by apply Hb. }
  exists fs, t. unfold getResultPaths. cbn [pr_sink pr_backMap]. rewrite Ef. cbn [mbind result_bind]. split; [done|].
  split; [|done]. intros p. rewrite Hf. split.
  - intros [?%elem_of_empty|(x & Hx & Hp)]; [done|]. apply Hin in Hx as (q & Hq & -> & Ho).
    rewrite (Hb _ Hq) in Hp. by injection Hp as <-.
  - intros [Hp Ho]. right. exists (hashPart p). split; [apply Hin; eauto|by apply Hb].
Qed.

Definition ref_path : StorePath := MkStorePath "00000000000000000000000000000000-x".
Lemma scan_finds_references_witness :
  ∃ found t, scanForReferences ([] : StringSink) ["x0000000000000000000000"%str; "0000000000y"%str] {[ref_path]} = Ok (found, t) ∧
    ref_path ∈ found.
Proof.
  destruct (scan_finds_references ([] : StringSink) ["x0000000000000000000000"%str; "0000000000y"%str] {[ref_path]})
    as (found & t & E & Hf & _).
  - by intros p q ->%elem_of_singleton ->%elem_of_singleton.
  - intros p ->%elem_of_singleton. apply (bool_decide_unpack _). vm_compute. exact I.
  - exists found, t. split; [exact E|]. apply Hf. split; [by apply elem_of_singleton|]. by exists "x"%str, "y"%str.
Defined.

(** [C37] Rewriting a stream with one pattern, as [HashModuloSink] and the
    conversion to content-addressed paths do. For every pattern and every
    replacement of the same length, also one that has characters in common with
    the pattern, the sink passes on exactly what [rewriteStrings] makes of the
    concatenation of the chunks, wherever the chunks divide an occurrence, and
    counts its bytes. With several patterns the result can depend on the chunks
    ([rewriting_sink_chunked] below). *)
Theorem rewriting_sink_whole {K} `{SinkOk K} (k0 : K) from to chunks :
  length from = length to → from ≠ [] →
  ∃ s k, rewriteStrings (S (length (concat chunks))) (concat chunks) {[from := to]} = Some s ∧
    (k ← RewritingSink_new {[from := to]} k0;
     k ← foldR (λ k d, RewritingSink_write d k) k chunks;
     RewritingSink_flush k) = Ok k ∧
    written (rw_nextSink k) = written k0 ++ s ∧ rw_pos k = u64 (Z.of_nat (length (concat chunks))).
Proof.
  intros Hl Hn. destruct (rewriting_stream from to Hl Hn k0 chunks) as (s & k & E & Er & W & P & _). by exists s, k.
Qed.

(** Chunks that divide occurrences, one of which a replacement creates. *)
Lemma rewriting_sink_whole_witness :
  ∃ s k, rewriteStrings 8 "abbabab" {["ab"%str := "ba"%str]} = Some s ∧
    (k ← RewritingSink_new {["ab"%str := "ba"%str]} ([] : StringSink);
     k ← foldR (λ k d, RewritingSink_write d k) k ["a"; "bba"; "bab"]%str;
     RewritingSink_flush k) = Ok k ∧ rw_nextSink k = s ∧ s = "bbababa"%str.
Proof.
  destruct (rewriting_sink_whole ([] : StringSink) "ab" "ba" ["a"; "bba"; "bab"]%str) as (s & k & E1 & E2 & W & _).
  - reflexivity.
  - discriminate.
  - exists s, k. assert (rewriteStrings 8 "abbabab" {["ab"%str := "ba"%str]} = Some s) as E by (revert E1; vm_compute; exact id).
    split; [exact E|]. split; [exact E2|]. split; [exact W|]. vm_compute in E. injection E as <-. reflexivity.
Defined.

(** The text a sink passes on for the given chunks. *)
Definition rewriting_session (rewrites : gmap str str) (chunks : list str) : result str :=
  k ← RewritingSink_new rewrites ([] : StringSink);
  k ← foldR (λ k d, RewritingSink_write d k) k chunks;
  k ← RewritingSink_flush k;
  Ok (rw_nextSink k).

(** With several patterns the result depends on the chunks: a replaced text that
    the sink kept is rewritten again by the patterns that come before its own. *)
Lemma rewriting_sink_chunked :
  let m := {["a"%str := "b"%str; "c"%str := "a"%str; "xx"%str := "yy"%str]} in
  rewriteStrings 2 "c" m = Some "a"%str ∧
  rewriting_session m ["c"%str] = Ok "a"%str ∧ rewriting_session m ["c"; ""]%str = Ok "b"%str.
Proof. repeat split; vm_compute; reflexivity. Qed.

(** Hash some data, in chunks, modulo a string. *)
Definition hash_modulo_session (hashString : HashAlgorithm → str → Hash) (ha : HashAlgorithm) (modulus : str)
    (chunks : list str) : result (Hash * Z) :=
  k ← HashModuloSink_new ha modulus;
  k ← foldR (λ k d, HashModuloSink_write d k) k chunks;
  HashModuloSink_finish hashString k.

Lemma hash_modulo_session_eq hashString ha modulus chunks :
  modulus ≠ [] → NUL ∉ modulus →
  hash_modulo_session hashString ha modulus chunks =
    Ok (hashString ha (replaced modulus (replicate (length modulus) NUL) [] (concat chunks)),
        u64 (Z.of_nat (length (concat chunks)))).
Proof.
  intros Hn Hz. set (zeros := replicate (length modulus) NUL).
  assert (length modulus = length zeros) as Hl by (unfold zeros; by rewrite length_replicate).
  assert (∀ c, c ∈ zeros → c ∉ modulus) as Hf by (intros c Hc; unfold zeros in Hc; apply elem_of_replicate in Hc as [-> _]; done).
  destruct (rewriting_stream modulus zeros Hl Hn ([] : StringSink) chunks) as (s & k3 & Es & Er & W & P & M).
  rewrite (rewriteStrings_replaced modulus zeros Hl Hn Hf) in Es. injection Es as <-.
  destruct (RewritingSink_new {[modulus := zeros]} ([] : StringSink)) as [k1|] eqn:E1; [|done]. cbn [mbind result_bind] in Er.
  destruct (foldR (λ k d, RewritingSink_write d k) k1 chunks) as [k2|] eqn:E2; [|done]. cbn [mbind result_bind] in Er.
  unfold hash_modulo_session, HashModuloSink_new. fold zeros. rewrite E1. cbn [mbind result_bind].
  assert (∀ l a b, foldR (λ k d, RewritingSink_write d k) a l = Ok b →
    foldR (λ k d, HashModuloSink_write d k) {| hm_ha := ha; hm_sink := a |} l = Ok {| hm_ha := ha; hm_sink := b |}) as Hfold.
  { clear. induction l as [|d l IH]; intros a b; cbn [foldR]; [by intros [= <-]|]. unfold HashModuloSink_write at 2. cbn [hm_sink hm_ha].
    destruct (RewritingSink_write d a) as [a'|]; cbn [mbind result_bind]; [apply IH|done]. }
  rewrite (Hfold _ _ _ E2). cbn [mbind result_bind]. unfold HashModuloSink_finish. cbn [hm_sink hm_ha]. rewrite Er.
  cbn [mbind result_bind]. unfold StringSink in M, P, W. rewrite M, P. cbn [foldl]. cbn [written StringSink_ok] in W. by rewrite W.
Qed.

(** Data and the same data with occurrences of the modulus already zeroed
    have the same hash modulo it, whatever the hash function: nothing records
    where the self-references were. *)
Theorem hash_modulo_ignores_positions hashString ha modulus chunks chunks' s :
  modulus ≠ [] → NUL ∉ modulus →
  rewriteStrings (S (length (concat chunks))) (concat chunks) {[modulus := replicate (length modulus) NUL]} = Some s →
  concat chunks' = s →
  ∃ h, hash_modulo_session hashString ha modulus chunks = Ok h ∧
       hash_modulo_session hashString ha modulus chunks' = Ok h.
Proof.
  intros Hn Hz Hs Hc. set (zeros := replicate (length modulus) NUL) in *.
  assert (length modulus = length zeros) as Hl by (unfold zeros; by rewrite length_replicate).
  assert (∀ c, c ∈ zeros → c ∉ modulus) as Hf by (intros c Hc'; unfold zeros in Hc'; apply elem_of_replicate in Hc' as [-> _]; done).
  rewrite (rewriteStrings_replaced modulus zeros Hl Hn Hf) in Hs. injection Hs as <-.
  rewrite !hash_modulo_session_eq, Hc by done. fold zeros.
  rewrite (replaced_idemp modulus zeros Hl Hn Hf), (length_replaced modulus zeros Hl Hn Hf). eauto.
Qed.

Definition some_hash (a : HashAlgorithm) (s : str) : Hash := MkHash (regularHashSize a) (map byte_val s) a.
Lemma hash_modulo_ignores_positions_witness :
  ∃ h, hash_modulo_session some_hash SHA256 "ab" ["xa"; "b"]%str = Ok h ∧
       hash_modulo_session some_hash SHA256 "ab" [["x"%char; NUL; NUL]] = Ok h.
Proof.
  apply (hash_modulo_ignores_positions some_hash SHA256 "ab" ["xa"; "b"]%str [["x"%char; NUL; NUL]] ["x"%char; NUL; NUL]).
  - discriminate.
  - apply (bool_decide_unpack _). vm_compute. exact I.
  - vm_compute. reflexivity.
  - reflexivity.
Defined.
