(* ===== verification/Graph.v ===== *)
(** Algorithms over graphs of store paths:
    [libutil/include/bsd/util/topo-sort.hh] and
    [libutil/include/bsd/util/closure.hh].

    [topoSort] is a depth-first search that keeps the path it is on. The
    closure is computed by callbacks that may run on any thread, in any order:
    the model is a step relation over the sections of code run under the
    lock. *)

From stdpp Require Import relations.
From S2P Require Import Prelude.

(** * Topological sorting *)

Section topo_sort.
Context {T : Type} `{Countable T, !KeyOrder T}.
Context (items : gset T) (getChildren : T → result (gset T)) (makeCycleError : T → T → exn).

(** The variables captured by [dfsVisit]. *)
Record dfs_state := { visited : gset T; parents : gset T; sorted : list T }.

(** [dfsVisit]; [None] is a null [parent]. *)
Fixpoint dfsVisit (fuel : nat) (path : T) (parent : option T) (st : dfs_state) : result dfs_state :=
  match fuel with
  | O => Throw NonTermination
  | S fuel =>
      if bool_decide (path ∈ parents st) then
        match parent with Some p => Throw (makeCycleError path p) | None => Throw UndefinedBehaviour end
      else if bool_decide (path ∈ visited st) then Ok st
      else
        let st := {| visited := {[path]} ∪ visited st; parents := {[path]} ∪ parents st; sorted := sorted st |} in
        references ← getChildren path;
        st ← foldR (λ st i, if bool_decide (i ≠ path) && bool_decide (i ∈ items) then dfsVisit fuel i (Some path) st else Ok st)
               st (set_sorted references);
        Ok {| visited := visited st; parents := parents st ∖ {[path]}; sorted := sorted st ++ [path] |}
  end.

(** [topoSort]; the path grows within the items, which bounds the recursion. *)
Definition topoSort : result (list T) :=
  st ← foldR (λ st i, dfsVisit (S (size items)) i None st) {| visited := ∅; parents := ∅; sorted := [] |} (set_sorted items);
  Ok (reverse (sorted st)).

(** ** The search *)

Context (ch : T → gset T) (Hch : ∀ x, x ∈ items → getChildren x = Ok (ch x)).

(** The edges the search follows. *)
Definition edge (a b : T) : Prop := b ∈ ch a ∧ b ≠ a ∧ b ∈ items.

(** Children come before their parents. *)
Definition children_first (l : list T) : Prop :=
  ∀ l1 a l2, l = l1 ++ a :: l2 → ∀ b, edge a b → b ∈ l1.

Record dfs_inv (st : dfs_state) : Prop := {
  inv_parents : parents st ⊆ visited st;
  inv_visited : visited st ⊆ items;
  inv_sorted x : x ∈ sorted st ↔ x ∈ visited st ∧ x ∉ parents st;
  inv_nodup : NoDup (sorted st);
  inv_order : children_first (sorted st);
}.

(** The parents are the path that leads to the node visited. *)
Definition on_path (st : dfs_state) (parent : option T) (path : T) : Prop :=
  match parent with
  | None => parents st = ∅
  | Some q => q ∈ parents st ∧ edge q path ∧ ∀ p, p ∈ parents st → rtc edge p q
  end.

(** What a visit does: it extends the list, or finds a cycle. *)
Definition visit_ok (st : dfs_state) (r : result dfs_state) (P : dfs_state → Prop) : Prop :=
  match r with
  | Ok st' => dfs_inv st' ∧ parents st' = parents st ∧ (∀ x, x ∈ sorted st → x ∈ sorted st') ∧ P st'
  | Throw e => ∃ x y, e = makeCycleError x y ∧ edge y x ∧ rtc edge x y
  end.

Lemma children_first_snoc l a : children_first l → (∀ b, edge a b → b ∈ l) → children_first (l ++ [a]).
Proof.
  intros Hl Ha l1 x l2 E b Hb. destruct l2 as [|y l2] using rev_ind.
  - apply app_inj_tail in E as [-> <-]. by apply Ha.
  - rewrite app_comm_cons, app_assoc in E. apply app_inj_tail in E as [-> _]. by eapply Hl.
Qed.

(** The loop over the children. *)
Lemma visit_children (visit : T → dfs_state → result dfs_state) path l st :
  dfs_inv st → path ∈ parents st → (∀ p, p ∈ parents st → rtc edge p path) →
  (∀ i st', i ∈ l → edge path i → dfs_inv st' → parents st' = parents st →
     visit_ok st' (visit i st') (λ st2, i ∈ sorted st2)) →
  (∀ i, i ∈ l → i ≠ path → i ∈ items → edge path i) →
  visit_ok st (foldR (λ st i, if bool_decide (i ≠ path) && bool_decide (i ∈ items) then visit i st else Ok st) st l)
    (λ st', ∀ i, i ∈ l → edge path i → i ∈ sorted st').
Proof.
  revert st. induction l as [|i l IH]; intros st Hinv Hp Hr Hv He; cbn [foldR].
  { split_and!; [done..|]. by intros i Hi%elem_of_nil. }
  assert (visit_ok st (if bool_decide (i ≠ path) && bool_decide (i ∈ items) then visit i st else Ok st)
    (λ st', edge path i → i ∈ sorted st')) as Hi.
  { destruct (bool_decide (i ≠ path) && bool_decide (i ∈ items)) eqn:B.
    - apply andb_true_iff in B as [B1%bool_decide_eq_true B2%bool_decide_eq_true].
      assert (edge path i) as Hpi by (apply He; [by left|done..]). specialize (Hv i st ltac:(by left) Hpi Hinv eq_refl).
      destruct (visit i st); [|done]. destruct Hv as (? & ? & ? & ?). split_and!; [done..|]. by intros _.
    - split_and!; [done..|]. intros (_ & Hn & Hit). by rewrite !bool_decide_true in B. }
  destruct (if bool_decide _ && _ then _ else _) as [st1|e]; cbn [mbind result_bind]; [|done].
  destruct Hi as (I1 & P1 & S1 & Hi). specialize (IH st1 I1). rewrite P1 in IH.
  specialize (IH Hp Hr (λ j st' Hj, Hv j st' (list_elem_of_further _ _ _ Hj)) (λ j Hj, He j (list_elem_of_further _ _ _ Hj))).
  destruct (foldR _ st1 l) as [st2|e]; [|done]. destruct IH as (I2 & P2 & S2 & Hl).
  split_and!; [done|congruence|auto|]. intros j [->|Hj]%elem_of_cons Hej; auto.
Qed.

Lemma dfsVisit_ok fuel path parent st :
  dfs_inv st → path ∈ items → on_path st parent path → (size (items ∖ parents st) < fuel)%nat →
  visit_ok st (dfsVisit fuel path parent st) (λ st', path ∈ sorted st').
Proof.
  revert path parent st. induction fuel as [|fuel IH]; intros path parent st Hinv Hin Hon Hf; [lia|]. cbn [dfsVisit].
  case_bool_decide as Hpar.
  { destruct parent as [q|]; cbn in Hon; [|set_solver]. destruct Hon as (Hq & He & Hr). exists path, q. auto. }
  case_bool_decide as Hvis.
  { split_and!; [done..|]. by apply (inv_sorted _ Hinv). }
  rewrite Hch by done. cbn [mbind result_bind].
  set (st1 := {| visited := {[path]} ∪ visited st; parents := {[path]} ∪ parents st; sorted := sorted st |}).
  assert (dfs_inv st1) as Hinv1.
  { destruct Hinv as [I1 I2 I3 I4 I5]. split; cbn [st1 visited parents sorted]; [set_solver..| |done|done].
    intros x. rewrite I3, !elem_of_union, elem_of_singleton. destruct (decide (x = path)) as [->|]; tauto. }
  assert (∀ p, p ∈ parents st1 → rtc edge p path) as Hr1.
  { cbn [st1 parents]. intros p [->%elem_of_singleton|Hp]%elem_of_union; [done|].
    destruct parent as [q|]; cbn in Hon; [|set_solver]. destruct Hon as (_ & He & Hr). eapply rtc_r; [by apply Hr|done]. }
  pose proof (visit_children (λ i, dfsVisit fuel i (Some path)) path (set_sorted (ch path)) st1 Hinv1) as Hc.
  cbn beta in Hc. specialize (Hc ltac:(cbn; set_solver) Hr1).
  assert (visit_ok st1 (foldR (λ st i, if bool_decide (i ≠ path) && bool_decide (i ∈ items) then dfsVisit fuel i (Some path) st else Ok st)
    st1 (set_sorted (ch path))) (λ st', ∀ i, i ∈ set_sorted (ch path) → edge path i → i ∈ sorted st')) as Hloop.
  { apply Hc.
    - intros i st' _ Hpi Hinv' Hpar'. apply IH; [done|apply Hpi| |].
      + cbn. rewrite Hpar'. split_and!; [cbn; set_solver|done|done].
      + rewrite Hpar'. cbn [st1 parents].
        apply (Nat.lt_le_trans _ (size (items ∖ parents st))); [apply subset_size; set_solver|lia].
    - intros i Hi Hn Hit. rewrite elem_of_set_sorted in Hi. done. }
  destruct (foldR _ st1 _) as [st2|e]; cbn [mbind result_bind]; [|done].
  destruct Hloop as (I2 & P2 & S2 & Hl). unfold visit_ok. cbn [st1 parents sorted] in *.
  assert (path ∈ parents st2) as Hp2 by (rewrite P2; set_solver).
  assert (path ∉ sorted st2) as Hns by (rewrite (inv_sorted _ I2); tauto).
  split_and!; cbn [parents sorted].
  - pose proof (inv_parents _ I2) as Hpv. destruct I2 as [J1 J2 J3 J4 J5]. split; cbn [visited parents sorted].
    + set_solver.
    + done.
    + intros x. rewrite elem_of_app, J3, list_elem_of_singleton. destruct (decide (x = path)) as [->|]; set_solver.
    + apply NoDup_app. split_and!; [done| |apply NoDup_singleton]. intros x Hx ->%list_elem_of_singleton. done.
    + apply children_first_snoc; [done|]. intros b Hb. apply Hl; [|done]. apply elem_of_set_sorted, Hb.
  - rewrite P2. set_solver.
  - intros x Hx. apply elem_of_app. left. by apply S2.
  - apply elem_of_app. right. by apply list_elem_of_singleton.
Qed.

Lemma visit_items l st :
  dfs_inv st → parents st = ∅ → (∀ i, i ∈ l → i ∈ items) →
  visit_ok st (foldR (λ st i, dfsVisit (S (size items)) i None st) st l) (λ st', ∀ i, i ∈ l → i ∈ sorted st').
Proof.
  revert st. induction l as [|i l IH]; intros st Hinv Hp Hl; cbn [foldR].
  { split_and!; [done..|]. by intros i Hi%elem_of_nil. }
  assert (visit_ok st (dfsVisit (S (size items)) i None st) (λ st', i ∈ sorted st')) as Hi.
  { apply dfsVisit_ok; [done|apply Hl; by left|done|]. apply Nat.lt_succ_r, subseteq_size. set_solver. }
  destruct (dfsVisit (S (size items)) i None st) as [st1|e]; cbn [mbind result_bind]; [|done].
  destruct Hi as (I1 & P1 & S1 & Hi). rewrite Hp in P1.
  specialize (IH st1 I1 P1 (λ j Hj, Hl j (list_elem_of_further _ _ _ Hj))).
  destruct (foldR _ st1 l) as [st2|e]; [|done]. destruct IH as (I2 & P2 & S2 & Hl2).
  split_and!; [done|congruence|auto|]. intros j [->|Hj]%elem_of_cons; auto.
Qed.

(** An order with children first leaves no room for a cycle. *)
Lemma children_first_tc l l1 a l2 b : children_first l → l = l1 ++ a :: l2 → tc edge a b → b ∈ l1.
Proof.
  intros Hl E Ht. revert l1 l2 E. induction Ht as [a b Hab|a b c Hab _ IH]; intros l1 l2 E; [by eapply Hl|].
  assert (b ∈ l1) as Hb by (by eapply Hl). apply list_elem_of_split in Hb as (k1 & k2 & ->).
  rewrite <- app_assoc in E. apply elem_of_app. left. by eapply IH.
Qed.

Lemma tc_target a b : tc edge a b → b ∈ items.
Proof. induction 1 as [a b Hab|a b c _ _ IH]; [apply Hab|done]. Qed.

Lemma sorted_acyclic l : children_first l → NoDup l → (∀ x, x ∈ items → x ∈ l) → ∀ x, ¬ tc edge x x.
Proof.
  intros Hl Hnd Hin x Hx. pose proof (tc_target _ _ Hx) as Hi.
  apply Hin, list_elem_of_split in Hi as (l1 & l2 & ->).
  assert (x ∈ l1) as Hx1 by (by eapply children_first_tc). apply NoDup_app in Hnd as (_ & Hd & _).
  apply (Hd x Hx1). by left.
Qed.

Lemma topoSort_ok :
  match topoSort with
  | Ok l => l ≡ₚ elements items ∧ children_first (reverse l) ∧ ∀ x, ¬ tc edge x x
  | Throw e => ∃ x y, e = makeCycleError x y ∧ edge y x ∧ rtc edge x y
  end.
Proof.
  unfold topoSort. set (st0 := {| visited := ∅; parents := ∅; sorted := [] |}).
  assert (dfs_inv st0) as I0.
  { split; cbn [st0 visited parents sorted]; [set_solver..| |constructor|].
    - intros x. rewrite elem_of_nil. set_solver.
    - intros l1 a l2 E. by destruct l1. }
  pose proof (visit_items (set_sorted items) st0 I0 eq_refl ltac:(intros i; apply elem_of_set_sorted)) as Hv.
  destruct (foldR _ st0 _) as [st|e]; cbn [mbind result_bind]; [|done]. destruct Hv as (I & P & _ & Hs).
  assert (∀ x, x ∈ items → x ∈ sorted st) as Hall by (intros x Hx; by apply Hs, elem_of_set_sorted).
  split_and!.
  - rewrite reverse_Permutation. apply NoDup_Permutation; [apply I|apply NoDup_elements|]. intros x. rewrite elem_of_elements.
    split; [|apply Hall]. intros Hx. apply (inv_visited _ I). by apply (inv_sorted _ I) in Hx as [? _].
  - rewrite reverse_involutive. apply I.
  - eapply sorted_acyclic; [apply I|apply I|done].
Qed.
End topo_sort.

(** ** Properties of sorting *)

(** [C27] [topoSort] sorts or finds a cycle. It returns the items, each once, so
    that every item comes before its children other than itself, exactly when
    the graph of items has no cycle but self-loops; otherwise it throws the
    error for an edge that closes a cycle. It always ends, and the missing
    parent is never used. *)
Theorem topoSort_spec {T} `{Countable T, !KeyOrder T} (items : gset T) getChildren makeCycleError (ch : T → gset T) :
  (∀ x, x ∈ items → getChildren x = Ok (ch x)) →
  (∃ l, topoSort items getChildren makeCycleError = Ok l ∧ l ≡ₚ elements items ∧
     (∀ l1 a l2, l = l1 ++ a :: l2 → ∀ b, edge items ch a b → b ∈ l2) ∧ (∀ x, ¬ tc (edge items ch) x x)) ∨
  (∃ x y, topoSort items getChildren makeCycleError = Throw (makeCycleError x y) ∧
     edge items ch y x ∧ rtc (edge items ch) x y).
Proof.
  intros Hch. pose proof (topoSort_ok items getChildren makeCycleError ch Hch) as Ht.
  destruct (topoSort items getChildren makeCycleError) as [l|e].
  - left. destruct Ht as (Hp & Hc & Ha). exists l. split_and!; [done..| |done]. intros l1 a l2 -> b Hb.
    apply elem_of_reverse. apply (Hc (reverse l2) a (reverse l1)); [|done].
    by rewrite reverse_app, reverse_cons, <- app_assoc.
  - right. destruct Ht as (x & y & -> & ? & ?). eauto.
Qed.

Definition sample_children (x : str) : gset str :=
  if str_eqb x "a" then {["b"%str; "c"%str; "a"%str]} else if str_eqb x "c" then {["b"%str]} else ∅.
Lemma topoSort_spec_witness :
  topoSort {["a"%str; "b"%str; "c"%str]} (λ x, Ok (sample_children x)) (λ _ _, Error "cycle") = Ok ["a"; "c"; "b"]%str ∧
  ∀ x, ¬ tc (edge {["a"%str; "b"%str; "c"%str]} sample_children) x x.
Proof.
  assert (topoSort {["a"%str; "b"%str; "c"%str]} (λ x, Ok (sample_children x)) (λ _ _, Error "cycle") = Ok ["a"; "c"; "b"]%str)
    as E by (vm_compute; reflexivity).
  split; [exact E|].
  destruct (topoSort_spec {["a"%str; "b"%str; "c"%str]} (λ x, Ok (sample_children x)) (λ _ _, Error "cycle") sample_children)
    as [(l & _ & _ & _ & Ha)|(x & y & E' & _)]; [done|exact Ha|]. rewrite E in E'. discriminate E'.
Defined.

(** * Closures *)

Section closure.
Context {T : Type} `{Countable T, !KeyOrder T}.
(** What [getEdgesAsync] eventually passes to the callback for an element. *)
Context (edges : T → result (gset T)).

(** A request whose callback has not run, or a callback in its loop. *)
Inductive task := Request (x : T) | Loop (children : list T).

(** [starting] is the rest of the loop of [computeClosure] itself, [None] when
    it waits for [done]; the other fields are those of [State]. *)
Record cl_state := {
  starting : option (list T);
  tasks : list task;
  pending : nat;
  res : gset T;
  exc : option exn;
}.

Definition with_starting (s : option (list T)) (st : cl_state) : cl_state :=
  {| starting := s; tasks := tasks st; pending := pending st; res := res st; exc := exc st |}.
Definition with_tasks (ts : list task) (st : cl_state) : cl_state :=
  {| starting := starting st; tasks := ts; pending := pending st; res := res st; exc := exc st |}.

(** [enqueue]: its section under the lock, and the request it makes. *)
Definition enqueue (current : T) (st : cl_state) : cl_state :=
  match exc st with
  | Some _ => st
  | None =>
      if bool_decide (current ∈ res st) then st
      else {| starting := starting st; tasks := Request current :: tasks st; pending := S (pending st);
              res := {[current]} ∪ res st; exc := None |}
  end.

(** The end of a callback, with the exception it caught. *)
Definition finish (e : option exn) (st : cl_state) : cl_state :=
  {| starting := starting st; tasks := tasks st; pending := pred (pending st); res := res st;
     exc := match exc st with None => e | Some e => Some e end |}.

(** One section of one thread. *)
Inductive cl_step : cl_state → cl_state → Prop :=
  | step_start st x l : starting st = Some (x :: l) → cl_step st (enqueue x (with_starting (Some l) st))
  | step_wait st : starting st = Some [] → cl_step st (with_starting None st)
  | step_answer st t1 x t2 ch : tasks st = t1 ++ Request x :: t2 → edges x = Ok ch →
      cl_step st (with_tasks (t1 ++ Loop (set_sorted ch) :: t2) st)
  | step_fail st t1 x t2 e : tasks st = t1 ++ Request x :: t2 → edges x = Throw e →
      cl_step st (finish (Some e) (with_tasks (t1 ++ t2) st))
  | step_child st t1 c cs t2 : tasks st = t1 ++ Loop (c :: cs) :: t2 →
      cl_step st (enqueue c (with_tasks (t1 ++ Loop cs :: t2) st))
  | step_end st t1 t2 : tasks st = t1 ++ Loop [] :: t2 → cl_step st (finish None (with_tasks (t1 ++ t2) st)).

(** The call with an empty set of results. *)
Definition closure_init (startElts : gset T) : cl_state :=
  {| starting := Some (set_sorted startElts); tasks := []; pending := 0; res := ∅; exc := None |}.

(** The wait is over: [computeClosure] returns or rethrows. *)
Definition returns (st : cl_state) : Prop := starting st = None ∧ pending st = 0%nat.

(** ** Safety *)

Definition leads (x y : T) : Prop := ∃ ch, edges x = Ok ch ∧ y ∈ ch.
Context (start : gset T).
Definition reachable (y : T) : Prop := ∃ x, x ∈ start ∧ rtc leads x y.

Definition task_ok (t : task) : Prop :=
  match t with Request x => reachable x | Loop cs => Forall reachable cs end.

(** The element has been dealt with, or will be. *)
Definition covered (st : cl_state) (y : T) : Prop := y ∈ res st ∨ ∃ cs, Loop cs ∈ tasks st ∧ y ∈ cs.

Record cl_inv (st : cl_state) : Prop := {
  cl_pending : pending st = length (tasks st);
  cl_tasks : Forall task_ok (tasks st);
  cl_res x : x ∈ res st → reachable x;
  cl_starting l : starting st = Some l → Forall (λ x, x ∈ start) l;
  cl_exc e : exc st = Some e → ∃ x, reachable x ∧ edges x = Throw e;
  cl_start x : exc st = None → x ∈ start → x ∈ res st ∨ ∃ l, starting st = Some l ∧ x ∈ l;
  cl_done x : exc st = None → x ∈ res st →
    Request x ∈ tasks st ∨ ∃ ch, edges x = Ok ch ∧ ∀ y, y ∈ ch → covered st y;
}.

Lemma closure_init_inv : cl_inv (closure_init start).
Proof.
  split; cbn [closure_init pending tasks res exc starting]; try done.
  - intros l [= <-]. apply Forall_forall. intros x. apply elem_of_set_sorted.
  - intros x _ Hx. right. eexists. split; [done|]. by apply elem_of_set_sorted.
Qed.

Lemma reachable_start x : x ∈ start → reachable x.
Proof. intros Hx. by exists x. Qed.

Lemma reachable_leads x y : reachable x → leads x y → reachable y.
Proof. intros (s & Hs & Hr) Hl. exists s. split; [done|]. by eapply rtc_r. Qed.

(** An element removed from a loop or from the start is covered by [enqueue]. *)
Lemma enqueue_inv st0 st c :
  reachable c → pending st = length (tasks st) → Forall task_ok (tasks st) → (∀ x, x ∈ res st → reachable x) →
  (∀ l, starting st = Some l → Forall (λ x, x ∈ start) l) →
  (∀ e, exc st = Some e → ∃ x, reachable x ∧ edges x = Throw e) →
  (∀ x, exc st = None → x ∈ start → x = c ∨ x ∈ res st ∨ ∃ l, starting st = Some l ∧ x ∈ l) →
  (∀ x, exc st = None → x ∈ res st →
    Request x ∈ tasks st ∨ ∃ ch, edges x = Ok ch ∧ ∀ y, y ∈ ch → y = c ∨ covered st y) →
  st0 = enqueue c st → cl_inv st0.
Proof.
  intros Hc Hp Ht Hr Hs He Hst Hd ->. unfold enqueue. destruct (exc st) as [e|] eqn:Ee.
  { split; try done; [|intros; congruence..]. intros e' E'. apply He. congruence. }
  case_bool_decide as Hin.
  - split; try done.
    + intros e E. congruence.
    + intros x _ Hx. destruct (Hst x eq_refl Hx) as [->|?]; auto.
    + intros x _ Hx. destruct (Hd x eq_refl Hx) as [?|(ch & E & Hy)]; [by left|]. right. exists ch. split; [done|].
      intros y Hyc. destruct (Hy y Hyc) as [->|?]; [by left|done].
  - split; cbn [pending tasks res exc starting]; try done.
    + cbn [length]. by rewrite Hp.
    + by constructor.
    + intros x [->%elem_of_singleton|?]%elem_of_union; auto.
    + intros x _ Hx. destruct (Hst x eq_refl Hx) as [->|[?|?]]; [left; set_solver|left; set_solver|by right].
    + intros x _ [->%elem_of_singleton|Hx]%elem_of_union; [left; by left|].
      destruct (Hd x eq_refl Hx) as [?|(ch & E & Hy)]; [left; by right|]. right. exists ch. split; [done|].
      intros y Hyc. unfold covered. cbn [res tasks].
      destruct (Hy y Hyc) as [->|[?|(cs & Hcs & ?)]]; [left; set_solver|left; set_solver|right]. exists cs. split; [by right|done].
Qed.

Lemma covered_weaken st st' y :
  res st ⊆ res st' → (∀ cs, Loop cs ∈ tasks st → y ∈ cs → covered st' y) → covered st y → covered st' y.
Proof. intros Hr Ht [Hy|(cs & Hcs & Hy)]; [left; set_solver|by eapply Ht]. Qed.

Lemma elem_of_middle {A} (x : A) l1 y l2 : x ∈ l1 ++ y :: l2 ↔ x = y ∨ x ∈ l1 ++ l2.
Proof. rewrite !elem_of_app, elem_of_cons. tauto. Qed.

Lemma inv_start st x l :
  cl_inv st → starting st = Some (x :: l) → cl_inv (enqueue x (with_starting (Some l) st)).
Proof.
  intros [I1 I2 I3 I4 I5 I6 I7] HE. pose proof (I4 _ HE) as Hl. apply Forall_cons in Hl as [Hx Hl].
  eapply (enqueue_inv _ (with_starting (Some l) st) x); cbn [with_starting tasks pending res exc starting]; try done.
  - by apply reachable_start.
  - by intros l' [= <-].
  - intros y Hy Hys. destruct (I6 y Hy Hys) as [?|(l' & El & Hin)]; [auto|]. rewrite HE in El. injection El as <-.
    apply elem_of_cons in Hin as [->|Hin]; [by left|]. right; right. eauto.
  - intros y Hy Hyr. destruct (I7 y Hy Hyr) as [?|(ch & ? & Hc)]; [by left|]. right. exists ch. split; [done|].
    intros z Hz. right. by apply Hc.
Qed.

Lemma inv_wait st :
  cl_inv st → starting st = Some [] → cl_inv (with_starting None st).
Proof.
  intros [I1 I2 I3 I4 I5 I6 I7] HE. split; cbn [with_starting tasks pending res exc starting]; try done.
  intros y Hy Hys. destruct (I6 y Hy Hys) as [?|(l' & El & Hin)]; [auto|]. rewrite HE in El. injection El as <-.
  by apply elem_of_nil in Hin.
Qed.

Lemma inv_answer st t1 x t2 ch :
  cl_inv st → tasks st = t1 ++ Request x :: t2 → edges x = Ok ch →
  cl_inv (with_tasks (t1 ++ Loop (set_sorted ch) :: t2) st).
Proof.
  intros [I1 I2 I3 I4 I5 I6 I7] HE Hx'. rewrite HE in I2. pose proof I2 as I2'. apply Forall_app in I2 as [T1 T2]. apply Forall_cons in T2 as [Tx T2].
  split; cbn [with_tasks tasks pending res exc starting]; try done.
  - rewrite I1, HE, !length_app. done.
  - apply Forall_app. split; [done|]. constructor; [|done]. apply Forall_forall. intros y Hy.
    apply elem_of_set_sorted in Hy. eapply reachable_leads; [exact Tx|]. by exists ch.
  - intros y Hy Hyr. destruct (decide (y = x)) as [->|Hne].
    + right. exists ch. split; [done|]. intros z Hz. right. exists (set_sorted ch). cbn [tasks with_tasks].
      split; [apply elem_of_middle; by left|by apply elem_of_set_sorted].
    + destruct (I7 y Hy Hyr) as [Hr|(c & ? & Hc)].
      * left. rewrite HE, elem_of_middle in Hr. rewrite elem_of_middle. destruct Hr as [[= ->]|?]; [done|by right].
      * right. exists c. split; [done|]. intros z Hz. apply (covered_weaken st); [done| |by apply Hc].
         intros cs Hcs Hzc. right. exists cs. split; [|done]. cbn [tasks with_tasks]. rewrite HE in Hcs.
         rewrite elem_of_middle in Hcs |- *. destruct Hcs as [?|?]; [done|by right].
Qed.

Lemma inv_fail st t1 x t2 e :
  cl_inv st → tasks st = t1 ++ Request x :: t2 → edges x = Throw e →
  cl_inv (finish (Some e) (with_tasks (t1 ++ t2) st)).
Proof.
  intros [I1 I2 I3 I4 I5 I6 I7] HE Hx'. rewrite HE in I2. pose proof I2 as I2'. apply Forall_app in I2 as [T1 T2]. apply Forall_cons in T2 as [Tx T2].
  split; cbn [finish with_tasks tasks pending res exc starting].
  - rewrite I1, HE, !length_app. cbn [length]. lia.
  - by apply Forall_app.
  - done.
  - done.
  - intros e'. destruct (exc st) as [e0|] eqn:Ee; [by intros [= <-]; apply I5|]. intros [= <-]. by exists x.
  - intros y. by destruct (exc st).
  - intros y. by destruct (exc st).
Qed.

Lemma inv_child st t1 c cs t2 :
  cl_inv st → tasks st = t1 ++ Loop (c :: cs) :: t2 → cl_inv (enqueue c (with_tasks (t1 ++ Loop cs :: t2) st)).
Proof.
  intros [I1 I2 I3 I4 I5 I6 I7] HE. rewrite HE in I2. pose proof I2 as I2'. apply Forall_app in I2 as [T1 T2]. apply Forall_cons in T2 as [Tx T2].
  cbn [task_ok] in Tx. apply Forall_cons in Tx as [Tc Tcs].
  eapply (enqueue_inv _ (with_tasks (t1 ++ Loop cs :: t2) st) c); cbn [with_tasks tasks pending res exc starting]; try done.
  - rewrite I1, HE, !length_app. done.
  - apply Forall_app. split; [done|]. by constructor.
  - intros y Hy Hys. right. by apply I6.
  - intros y Hy Hyr. destruct (I7 y Hy Hyr) as [Hr|(ch & ? & Hc)].
    + left. rewrite HE, elem_of_middle in Hr. rewrite elem_of_middle. destruct Hr as [?|?]; [done|by right].
    + right. exists ch. split; [done|]. intros z Hz. destruct (decide (z = c)) as [->|Hne]; [by left|]. right.
      apply (covered_weaken st); [done| |by apply Hc]. intros cs' Hcs' Hzc. rewrite HE, elem_of_middle in Hcs'.
      right. cbn [tasks with_tasks]. destruct Hcs' as [[= ->]|Hin].
      * apply elem_of_cons in Hzc as [->|Hzc]; [done|]. exists cs. split; [apply elem_of_middle; by left|done].
      * exists cs'. split; [apply elem_of_middle; by right|done].
Qed.

Lemma inv_end st t1 t2 :
  cl_inv st → tasks st = t1 ++ Loop [] :: t2 → cl_inv (finish None (with_tasks (t1 ++ t2) st)).
Proof.
  intros [I1 I2 I3 I4 I5 I6 I7] HE. rewrite HE in I2. pose proof I2 as I2'. apply Forall_app in I2 as [T1 T2]. apply Forall_cons in T2 as [Tx T2].
  split; cbn [finish with_tasks tasks pending res exc starting].
  - rewrite I1, HE, !length_app. cbn [length]. lia.
  - by apply Forall_app.
  - done.
  - done.
  - intros e'. destruct (exc st) as [e0|] eqn:Ee; [by intros [= <-]; apply I5|done].
  - intros y Hy. apply I6. by destruct (exc st).
  - intros y Hy Hyr. assert (exc st = None) as Hn by (by destruct (exc st)). destruct (I7 y Hn Hyr) as [Hr|(ch & ? & Hc)].
    + left. rewrite HE, elem_of_middle in Hr. by destruct Hr as [?|?].
    + right. exists ch. split; [done|]. intros z Hz. apply (covered_weaken st); [done| |by apply Hc].
      intros cs' Hcs' Hzc. rewrite HE, elem_of_middle in Hcs'. right. cbn [tasks finish with_tasks].
      destruct Hcs' as [[= ->]|Hin]; [by apply elem_of_nil in Hzc|]. by exists cs'.
Qed.

Lemma cl_step_inv st st' : cl_step st st' → cl_inv st → cl_inv st'.
Proof. destruct 1; eauto using inv_start, inv_wait, inv_answer, inv_fail, inv_child, inv_end. Qed.

Lemma inv_returns st :
  cl_inv st → returns st →
  tasks st = [] ∧ (exc st = None → ∀ y, y ∈ res st ↔ reachable y) ∧
  (∀ e, exc st = Some e → ∃ x, reachable x ∧ edges x = Throw e).
Proof.
  intros [I1 I2 I3 I4 I5 I6 I7] [Hs Hp]. assert (tasks st = []) as Ht by (apply nil_length_inv; congruence).
  split_and!; [done| |done]. intros He y. split; [apply I3|]. intros (x & Hx & Hr). revert Hx.
  assert (x ∈ start → x ∈ res st) as Hst.
  { intros Hx. destruct (I6 x He Hx) as [?|(l & El & _)]; [done|congruence]. }
  intros Hx. specialize (Hst Hx). clear Hx. induction Hr as [x|x y z (ch & Ech & Hy) _ IH]; [done|]. apply IH.
  destruct (I7 x He Hst) as [Hr|(ch' & Ech' & Hc)]; [rewrite Ht in Hr; by apply elem_of_nil in Hr|].
  rewrite Ech in Ech'. injection Ech' as <-. destruct (Hc y Hy) as [?|(cs & Hcs & _)]; [done|].
  rewrite Ht in Hcs. by apply elem_of_nil in Hcs.
Qed.

(** ** Liveness *)

(** A finite set that contains everything reachable. *)
Context (U : gset T) (HU : ∀ y, reachable y → y ∈ U).

Definition weight (x : T) : nat := match edges x with Ok ch => 2 + size ch | Throw _ => 1 end.
Definition task_weight (t : task) : nat := match t with Request x => weight x | Loop cs => 1 + length cs end.
Definition measure (st : cl_state) : nat :=
  match starting st with Some l => 1 + length l | None => 0 end +
  sum_list_with task_weight (tasks st) + sum_list_with weight (elements (U ∖ res st)).

Lemma enqueue_measure c st : reachable c → measure (enqueue c st) = measure st.
Proof.
  intros Hc. unfold enqueue. destruct (exc st); [done|]. case_bool_decide as Hin; [done|].
  unfold measure. cbn [starting tasks res sum_list_with task_weight].
  assert (elements (U ∖ res st) ≡ₚ c :: elements (U ∖ ({[c]} ∪ res st))) as ->.
  { rewrite <- elements_union_singleton by set_solver. assert (U ∖ res st = {[c]} ∪ U ∖ ({[c]} ∪ res st)) as ->; [|done].
    apply set_eq. intros x. pose proof (HU c Hc). destruct (decide (x = c)) as [->|]; set_solver. }
  cbn [sum_list_with]. lia.
Qed.

Lemma step_measure st st' : cl_step st st' → cl_inv st → (measure st' < measure st)%nat.
Proof.
  intros Hs Hinv. destruct Hs as [st x l E|st E|st t1 x t2 ch E Ech|st t1 x t2 e E Ech|st t1 c cs t2 E|st t1 t2 E].
  - rewrite enqueue_measure.
    + unfold measure. cbn [with_starting starting tasks res]. rewrite E. cbn [length]. lia.
    + apply reachable_start. apply (cl_starting _ Hinv) in E. by apply Forall_cons in E as [? _].
  - unfold measure. cbn [with_starting starting tasks res]. rewrite E. cbn [length]. lia.
  - unfold measure. cbn [with_tasks starting tasks res]. rewrite E, !sum_list_with_app. cbn [sum_list_with task_weight].
    assert (weight x = 2 + size ch)%nat as -> by (unfold weight; by rewrite Ech). rewrite length_set_sorted. lia.
  - unfold measure. cbn [finish with_tasks starting tasks res]. rewrite E, !sum_list_with_app. cbn [sum_list_with task_weight].
    assert (weight x = 1)%nat as -> by (unfold weight; by rewrite Ech). lia.
  - rewrite enqueue_measure.
    + unfold measure. cbn [with_tasks starting tasks res]. rewrite E, !sum_list_with_app. cbn [sum_list_with task_weight length]. lia.
    + pose proof (cl_tasks _ Hinv) as Ht. rewrite E in Ht. apply Forall_app in Ht as [_ Ht].
      apply Forall_cons in Ht as [Ht _]. by apply Forall_cons in Ht as [? _].
  - unfold measure. cbn [finish with_tasks starting tasks res]. rewrite E, !sum_list_with_app.
    cbn [sum_list_with task_weight length]. lia.
Qed.

Lemma step_progress st : cl_inv st → (∃ st', cl_step st st') ∨ returns st.
Proof.
  intros Hinv. destruct (starting st) as [[|x l]|] eqn:Es.
  - left. eexists. by apply step_wait.
  - left. eexists. by eapply step_start.
  - destruct (tasks st) as [|t ts] eqn:Et.
    { right. split; [done|]. by rewrite (cl_pending _ Hinv), Et. }
    left. destruct t as [x|[|c cs]].
    + destruct (edges x) as [ch|e] eqn:Ex; eexists; [by eapply (step_answer _ [])|by eapply (step_fail _ [])].
    + eexists. by eapply (step_end _ []).
    + eexists. by eapply (step_child _ []).
Qed.

Lemma steps_inv st : rtc cl_step (closure_init start) st → cl_inv st.
Proof.
  intros Hr. assert (Hi : cl_inv (closure_init start)) by apply closure_init_inv. revert Hi.
  induction Hr as [st|st st1 st2 Hs _ IH]; intros Hi; [done|]. apply IH. by eapply cl_step_inv.
Qed.

Lemma nsteps_measure n st st' : nsteps cl_step n st st' → cl_inv st → (n + measure st' <= measure st)%nat.
Proof.
  induction 1 as [st|n st st1 st2 Hs _ IH]; intros Hi; [done|]. specialize (IH (cl_step_inv _ _ Hs Hi)).
  pose proof (step_measure _ _ Hs Hi). lia.
Qed.
End closure.

(** ** Properties of closures *)

(** [C28] When [computeClosure] stops waiting, in whatever order the callbacks
    ran and on whatever threads, no callback is left that could use its
    variables; if no request failed the result is exactly the set of elements
    reachable from the start, otherwise the exception is that of a reachable
    element. At every end of a callback the assertion on the number of pending
    requests holds. *)
Theorem closure_correct {T} `{Countable T, !KeyOrder T} (edges : T → result (gset T)) start st :
  rtc (cl_step edges) (closure_init start) st →
  (returns st →
    tasks st = [] ∧ (exc st = None → ∀ y, y ∈ res st ↔ reachable edges start y) ∧
    (∀ e, exc st = Some e → ∃ x, reachable edges start x ∧ edges x = Throw e)) ∧
  (∀ t, t ∈ tasks st → (0 < pending st)%nat).
Proof.
  intros Hr. apply steps_inv in Hr. split; [by apply inv_returns|].
  intros t Ht. rewrite (cl_pending _ _ _ Hr). destruct (tasks st); [by apply elem_of_nil in Ht|cbn; lia].
Qed.

(** [C29] The computation of a closure cannot hang: if the reachable elements
    form a finite set then every run makes at most a fixed number of steps, and
    as long as the wait is not over some thread can make one. *)
Theorem closure_terminates {T} `{Countable T, !KeyOrder T} (edges : T → result (gset T)) (start U : gset T) :
  (∀ y, reachable edges start y → y ∈ U) →
  (∀ n st, nsteps (cl_step edges) n (closure_init start) st → (n <= measure edges U (closure_init start))%nat) ∧
  (∀ st, rtc (cl_step edges) (closure_init start) st → (∃ st', cl_step edges st st') ∨ returns st).
Proof.
  intros HU. split.
  - intros n st Hn. pose proof (nsteps_measure edges start U HU n _ _ Hn (closure_init_inv edges start)). lia.
  - intros st Hr. by eapply step_progress, steps_inv.
Qed.

Definition leaf_edges (x : str) : result (gset str) := Ok ∅.

Lemma closure_correct_witness :
  ∃ st, rtc (cl_step leaf_edges) (closure_init {["b"%str]}) st ∧ returns st ∧ ∀ y, y ∈ res st ↔ reachable leaf_edges {["b"%str]} y.
Proof.
  eexists. split; [|split].
  - eapply rtc_l; [eapply (step_start _ _ "b"%str []); vm_compute; reflexivity|].
    eapply rtc_l; [eapply step_wait; vm_compute; reflexivity|].
    eapply rtc_l; [eapply (step_answer _ _ [] "b"%str [] ∅); [vm_compute; reflexivity|reflexivity]|].
    eapply rtc_l; [eapply (step_end _ _ [] []); vm_compute; reflexivity|]. apply rtc_refl.
  - split; vm_compute; reflexivity.
  - refine (proj1 (proj2 (proj1 (closure_correct leaf_edges {["b"%str]} _ _) _)) _).
    + eapply rtc_l; [eapply (step_start _ _ "b"%str []); vm_compute; reflexivity|].
      eapply rtc_l; [eapply step_wait; vm_compute; reflexivity|].
      eapply rtc_l; [eapply (step_answer _ _ [] "b"%str [] ∅); [vm_compute; reflexivity|reflexivity]|].
      eapply rtc_l; [eapply (step_end _ _ [] []); vm_compute; reflexivity|]. apply rtc_refl.
    + split; vm_compute; reflexivity.
    + vm_compute. reflexivity.
Defined.

Lemma closure_terminates_witness :
  measure leaf_edges {["b"%str]} (closure_init {["b"%str]}) = 4%nat ∧
  ((∃ st', cl_step leaf_edges (closure_init {["b"%str]}) st') ∨ returns (closure_init {["b"%str]})).
Proof.
  assert (∀ y, reachable leaf_edges {["b"%str]} y → y ∈ ({["b"%str]} : gset str)) as HU.
  { intros y (x & Hx & Hr). destruct Hr as [x|x y z (ch & Ech & Hy) _]; [done|]. injection Ech as <-. set_solver. }
  split; [vm_compute; reflexivity|].
  exact (proj2 (closure_terminates leaf_edges {["b"%str]} {["b"%str]} HU) _ (rtc_refl _ _)).
Defined.
