(* ===== verification/LocalStore.v ===== *)
(** The local store: registering, querying and invalidating paths.
    [libstore/local-store.cc], with the cached queries of
    [libstore/store-api.cc].

    The state is the database, the cache of path information of the process
    and the table of derivation hashes. A transaction that throws restores the
    database and nothing else. The derivations in the store directory are a
    parameter ([readInvalidDerivation]), as are the clocks. *)

From S2P Require Import Prelude Strings Xp Hash StorePath ContentAddress PathInfo Derivation DrvHash Graph Lru Database.

(** * State and exceptions *)

(** [None] stands for a null pointer: the path was found missing. *)
Record PathInfoCacheValue := { time_point : Z; pic_value : option ValidPathInfo }.

Record Local := MkLocal {
  ls_db : Db;
  ls_cache : LRUCache str PathInfoCacheValue;
  ls_drvHashes : DrvHashes;
}.
Definition with_db (d : Db) (s : Local) : Local := MkLocal d (ls_cache s) (ls_drvHashes s).

(** A computation over the store; it keeps its changes when it throws. *)
Definition LM (A : Type) : Type := Local → result A * Local.
#[export] Instance LM_ret : MRet LM := λ A a s, (Ok a, s).
#[export] Instance LM_bind : MBind LM := λ A B f m s,
  match m s with (Ok a, s) => f a s | (Throw e, s) => (Throw e, s) end.

Definition pureR {A} (r : result A) : LM A := λ s, (r, s).
Definition query {A} (f : Db → result A) : LM A := λ s, (f (ls_db s), s).
Definition exec (f : Db → result Db) : LM unit := λ s,
  match f (ls_db s) with Ok d => (Ok tt, with_db d s) | Throw e => (Throw e, s) end.
Definition insert_row (row : PathRow) : LM Z := λ s,
  match RegisterValidPath row (ls_db s) with Ok (i, d) => (Ok i, with_db d s) | Throw e => (Throw e, s) end.
Definition on_cache {A} (f : LRUCache str PathInfoCacheValue → result (A * LRUCache str PathInfoCacheValue)) : LM A := λ s,
  match f (ls_cache s) with Ok (a, c) => (Ok a, MkLocal (ls_db s) c (ls_drvHashes s)) | Throw e => (Throw e, s) end.
Definition on_hashes {A} (m : ST A) : LM A := λ s,
  let '(r, hs) := m (ls_drvHashes s) in (r, MkLocal (ls_db s) (ls_cache s) hs).
Fixpoint eachL {A} (f : A → LM unit) (l : list A) : LM unit :=
  match l with [] => mret tt | x :: l => _ ← f x; eachL f l end.

(** [SQLiteTxn]: the destructor rolls back unless [commit] was called. *)
Definition txn {A} (m : LM A) : LM A := λ s,
  match m s with (Ok a, s') => (Ok a, s') | (Throw e, s') => (Throw e, with_db (ls_db s) s') end.

Abbreviation ValidPathInfos := (gmap StorePath ValidPathInfo).

Section local_store.
Context (xp : XpSettings) (storeDir : str) (hashString : HashAlgorithm → str → Hash).
(** The derivation at a path of the store directory; how deep derivations
    depend on each other. *)
Context (readInvalidDerivation : StorePath → result Derivation) (fuel : nat).

(** * Rows *)

(** The arguments bound to the statements. *)
Definition sigs_arg (sigs : gset str) : option str :=
  if bool_decide (sigs = ∅) then None else Some (concatStringsSep " " (set_sorted sigs)).
Definition size_arg (narSize : Z) : option Z := if narSize =? 0 then None else Some (i64 narSize).
Definition ultimate_arg (ultimate : bool) : option Z := if ultimate then Some 1 else None.
Definition ca_arg (c : option ContentAddress) : result (option str) :=
  s ← renderContentAddress xp c; Ok (match c with Some _ => Some s | None => None end).

Definition row_of (time0 : Z) (i : ValidPathInfo) : result PathRow :=
  h ← to_string (narHash (info i)) Base16 true;
  c ← ca_arg (ca (info i));
  Ok (MkRow (printStorePath storeDir (path i)) h
    (if registrationTime (info i) =? 0 then time0 else registrationTime (info i))
    (printStorePath storeDir <$> deriver (info i))
    (size_arg (narSize (info i))) (ultimate_arg (ultimate (info i))) (sigs_arg (sigs (info i))) c).

(** * Queries *)

Definition parse_paths (ps : list str) : result (gset StorePath) :=
  foldR (λ acc p, sp ← parseStorePath storeDir p; Ok ({[sp]} ∪ acc)) ∅ ps.

Definition queryPathInfoInternal (p : StorePath) (db : Db) : result (option ValidPathInfo) :=
  match select_path (printStorePath storeDir p) db with
  | None => Ok None
  | Some (rowid, r) =>
      h ← (match parseAnyPrefixed xp (r_hash r) with
           | Throw (BadHash m) => Throw (Error m)
           | x => x
           end);
      d ← (match r_deriver r with None => Ok None | Some s => d ← parseStorePath storeDir s; Ok (Some d) end);
      c ← (match r_ca r with None => Ok None | Some s => CA_parseOpt xp s end);
      refs ← parse_paths (QueryReferences rowid db);
      Ok (Some {|
        info := {| deriver := d; narHash := h; references := refs; registrationTime := r_registrationTime r;
                   narSize := u64 (default 0 (r_narSize r)); id := rowid;
                   ultimate := default 0 (r_ultimate r) =? 1;
                   sigs := match r_sigs r with None => ∅ | Some s => list_to_set (tokenizeString s " ") end;
                   ca := c |};
        path := p |})
  end.

Definition queryValidPathId (p : StorePath) (db : Db) : result Z :=
  match select_path (printStorePath storeDir p) db with
  | None => Throw (InvalidPath "path is not valid")
  | Some (i, _) => Ok i
  end.

Definition isValidPath_ (p : StorePath) (db : Db) : bool :=
  bool_decide (is_Some (select_path (printStorePath storeDir p) db)).

Definition queryAllValidPaths (db : Db) : result (gset StorePath) := parse_paths (QueryValidPaths db).

Definition queryReferrers (p : StorePath) (db : Db) : result (gset StorePath) :=
  parse_paths (QueryReferrers (printStorePath storeDir p) db).

Definition queryValidDerivers (p : StorePath) (db : Db) : result (gset StorePath) :=
  parse_paths (QueryValidDerivers (printStorePath storeDir p) db).

Definition queryStaticPartialDerivationOutputMap (p : StorePath) (db : Db) : result (gmap str (option StorePath)) :=
  drvId ← queryValidPathId p db;
  foldR (λ m (x : str * str), sp ← parseStorePath storeDir x.2; Ok (<[x.1 := Some sp]> m)) ∅ (QueryDerivationOutputs drvId db).

(** * Registration *)

Section clocks.
(** [time(0)] and the steady clock at the time of the call. *)
Context (time0 now : Z).

Definition cacheDrvOutputMapping (drv : Z) (outputName : str) (output : StorePath) : LM unit :=
  exec (AddDerivationOutput drv outputName (printStorePath storeDir output)).

Definition cache_info (i : ValidPathInfo) : LM unit :=
  on_cache (λ c, c ← lru_upsert (baseName (path i)) {| time_point := now; pic_value := Some i |} c; Ok (tt, c)).

Definition addValidPath (i : ValidPathInfo) (checkOutputs : bool) : LM Z :=
  bad ← pureR (match ca (info i) with
               | None => Ok false
               | Some _ => b ← isContentAddressed xp storeDir hashString i; Ok (negb b)
               end);
  if bad : bool then pureR (Throw (Error "path claims to be content-addressed but isn't"))
  else
    row ← pureR (row_of time0 i);
    rowid ← insert_row row;
    _ ← (if isDerivation (path i) then
           drv ← pureR (readInvalidDerivation (path i));
           _ ← (if checkOutputs then
                  on_hashes (checkInvariants xp storeDir hashString readInvalidDerivation fuel drv (path i))
                else mret tt);
           outs ← pureR (outputsAndOptPaths xp storeDir hashString (basic drv));
           eachL (λ o : str * (DerivationOutput * option StorePath),
             match o.2.2 with Some p => cacheDrvOutputMapping rowid o.1 p | None => mret tt end) outs
         else mret tt);
    _ ← cache_info i;
    mret rowid.

Definition updatePathInfo (i : ValidPathInfo) : LM unit :=
  h ← pureR (to_string (narHash (info i)) Base16 true);
  c ← pureR (ca_arg (ca (info i)));
  exec (λ db, Ok (UpdatePathInfo (size_arg (narSize (info i))) h (ultimate_arg (ultimate (info i)))
    (sigs_arg (sigs (info i))) c (printStorePath storeDir (path i)) db)).

Definition register_one (x : StorePath * ValidPathInfo) : LM unit :=
  _ ← pureR (assertR (bool_decide (algo (narHash (info x.2)) = SHA256)));
  valid ← query (λ db, Ok (isValidPath_ (path x.2) db));
  if valid : bool then updatePathInfo x.2 else _ ← addValidPath x.2 false; mret tt.

Definition add_references (x : StorePath * ValidPathInfo) : LM unit :=
  referrer ← query (queryValidPathId (path x.2));
  eachL (λ j, reference ← query (queryValidPathId j); exec (AddReference referrer reference))
    (set_sorted (references (info x.2))).

Definition check_derivation (x : StorePath * ValidPathInfo) : LM unit :=
  if isDerivation (path x.2) then
    drv ← pureR (readInvalidDerivation (path x.2));
    on_hashes (checkInvariants xp storeDir hashString readInvalidDerivation fuel drv (path x.2))
  else mret tt.

Definition infos_children (infos : ValidPathInfos) (p : StorePath) : result (gset StorePath) :=
  Ok (match infos !! p with None => ∅ | Some i => references (info i) end).
Definition cycle_error (p parent : StorePath) : exn := Error "cycle detected in the references".

(** The paths are those of the infos, in the order of the map. *)
Definition registerValidPaths (infos : ValidPathInfos) : LM unit := txn (
  _ ← eachL register_one (map_sorted infos);
  _ ← eachL add_references (map_sorted infos);
  _ ← eachL check_derivation (map_sorted infos);
  _ ← pureR (topoSort (list_to_set (map (λ x : StorePath * ValidPathInfo, path x.2) (map_sorted infos)))
               (infos_children infos) cycle_error);
  mret tt).

Definition registerValidPath (i : ValidPathInfo) : LM unit := registerValidPaths {[path i := i]}.

(** * Invalidation *)

Definition invalidatePath (p : StorePath) : LM unit :=
  _ ← exec (InvalidatePath (printStorePath storeDir p));
  on_cache (λ c, '(_, c) ← lru_erase (baseName p) c; Ok (tt, c)).

Definition PathInUse : exn := Error "cannot delete path because it is in use".

Definition invalidatePathChecked (p : StorePath) : LM unit := txn (
  valid ← query (λ db, Ok (isValidPath_ p db));
  if valid : bool then
    referrers ← query (queryReferrers p);
    if bool_decide (referrers ∖ {[p]} = ∅) then invalidatePath p else pureR (Throw PathInUse)
  else mret tt).

(** * Cached queries *)

Context (ttlPositive ttlNegative : Z).

Definition isKnownNow (v : PathInfoCacheValue) : bool :=
  now <? time_point v + (if bool_decide (is_Some (pic_value v)) then ttlPositive else ttlNegative).

(** Local stores have no disk cache. *)
Definition isValidPath (p : StorePath) : LM bool :=
  res ← on_cache (lru_get (baseName p));
  match res with
  | Some v => if isKnownNow v then mret (bool_decide (is_Some (pic_value v))) else query (λ db, Ok (isValidPath_ p db))
  | None => query (λ db, Ok (isValidPath_ p db))
  end.

Definition queryPathInfoFromClientCache (p : StorePath) : LM (option (option ValidPathInfo)) :=
  res ← on_cache (lru_get (baseName p));
  match res with
  | Some v => if isKnownNow v then mret (Some (pic_value v)) else mret None
  | None => mret None
  end.

Definition MissingName : str := "x".
Definition goodStorePath (expected actual : StorePath) : bool :=
  bool_decide (hashPart expected = hashPart actual)
  && (bool_decide (sp_name expected = MissingName) || bool_decide (sp_name expected = sp_name actual)).

Definition queryPathInfo (p : StorePath) : LM ValidPathInfo :=
  r ← queryPathInfoFromClientCache p;
  match r with
  | Some (Some i) => mret i
  | Some None => pureR (Throw (InvalidPath "path is not valid"))
  | None =>
      i ← query (queryPathInfoInternal p);
      _ ← on_cache (λ c, c ← lru_upsert (baseName p) {| time_point := now; pic_value := i |} c; Ok (tt, c));
      match i with
      | Some i => if goodStorePath p (path i) then mret i else pureR (Throw (InvalidPath "path is not valid"))
      | None => pureR (Throw (InvalidPath "path is not valid"))
      end
  end.
End clocks.
End local_store.

(** * Rows and path information *)

(** Information the columns can hold. *)
Record storable (xp : XpSettings) (i : ValidPathInfo) : Prop := {
  sb_path : sp_wf (path i);
  sb_hash : hash_regular (narHash (info i));
  sb_algo : algo (narHash (info i)) = SHA256;
  sb_deriver d : deriver (info i) = Some d → sp_wf d;
  sb_size : 0 ≤ narSize (info i) < 2 ^ 64;
  sb_sigs s : s ∈ sigs (info i) → s ≠ [] ∧ (" "%char ∉ s) ∧ (NUL ∉ s);
  sb_ca c : ca (info i) = Some c → hash_regular (ca_hash c) ∧ algo_enabled xp (algo (ca_hash c));
}.

(** The same information as read from the database. *)
Definition as_read (rowid time0 : Z) (refs : gset StorePath) (i : ValidPathInfo) : ValidPathInfo :=
  let u := info i in
  {| info := {| deriver := deriver u; narHash := narHash u; references := refs;
                registrationTime := if registrationTime u =? 0 then time0 else registrationTime u;
                narSize := narSize u; id := rowid; ultimate := ultimate u; sigs := sigs u; ca := ca u |};
     path := path i |}.

Section rows.
Context (xp : XpSettings) (storeDir : str) (Hdir : store_dir_ok storeDir).
Implicit Types (db : Db) (i : ValidPathInfo).

Abbreviation print := (printStorePath storeDir).

Lemma printStorePath_inj p q : print p = print q → p = q.
Proof using. unfold printStorePath. intros E. apply app_inv_head, app_inv_head in E. destruct p, q. cbn in E. by subst. Qed.

Lemma u64_i64 n : 0 ≤ n < 2 ^ 64 → u64 (default 0 (size_arg n)) = n.
Proof using.
  intros Hn. unfold size_arg, u64, i64. destruct (Z.eqb_spec n 0) as [->|Hne]; cbn; [done|].
  rewrite Zminus_mod_idemp_l. replace (n + 2 ^ 63 - 2 ^ 63) with n by lia. by apply Z.mod_small.
Qed.

Lemma sigs_read (ss : gset str) :
  (∀ s, s ∈ ss → s ≠ [] ∧ (" "%char ∉ s) ∧ (NUL ∉ s)) →
  match sigs_arg ss with None => ∅ | Some s => list_to_set (tokenizeString s " ") end = ss.
Proof using.
  intros Hs. unfold sigs_arg. case_bool_decide as E; [done|]. rewrite concatStringsSep_join.
  rewrite tokenize_join; [apply list_to_set_sorted|]. apply Forall_forall. intros s Hin%elem_of_set_sorted.
  by destruct (Hs s Hin) as (? & ? & _).
Qed.

Lemma row_of_inv time0 i r :
  row_of xp storeDir time0 i = Ok r → storable xp i →
  r_path r = print (path i) ∧ parseAnyPrefixed xp (r_hash r) = Ok (narHash (info i)) ∧
  r_registrationTime r = (if registrationTime (info i) =? 0 then time0 else registrationTime (info i)) ∧
  r_deriver r = print <$> deriver (info i) ∧
  u64 (default 0 (r_narSize r)) = narSize (info i) ∧ (default 0 (r_ultimate r) =? 1) = ultimate (info i) ∧
  match r_sigs r with None => ∅ | Some s => list_to_set (tokenizeString s " ") end = sigs (info i) ∧
  match r_ca r with None => Ok None | Some s => CA_parseOpt xp s end = Ok (ca (info i)).
Proof using.
  intros E Hs. unfold row_of in E. destruct (getParsed_prefixed (narHash (info i)) Base16) as (h & Eh & Hg); [apply Hs|].
  rewrite Eh in E. cbn [mbind result_bind] in E. destruct (ca_arg xp (ca (info i))) as [c|] eqn:Ec; [|done]. cbn [mbind result_bind] in E.
  match type of E with Ok ?x = Ok _ => assert (r = x) as -> by (by injection E) end. cbn.
  split; [done|]. split.
  { unfold parseAnyPrefixed. rewrite Hg. apply (Hash_parse_body xp _ Base16); [apply Hs|]. intros Hb. rewrite (sb_algo xp i Hs) in Hb. done. }
  split; [done|]. split; [done|]. split; [apply u64_i64, Hs|]. split; [by destruct (ultimate (info i))|].
  split; [apply sigs_read, Hs|]. unfold ca_arg in Ec. destruct (ca (info i)) as [c'|] eqn:Ec'; cbn in Ec.
  - destruct (CA_render xp c') as [s|] eqn:Es; cbn in Ec; [|done]. injection Ec as <-.
    destruct (sb_ca xp i Hs c' Ec') as [? ?]. by apply CA_parse_render.
  - by injection Ec as <-.
Qed.

(** Paths that were printed are parsed again. *)
Definition printed (ps : list str) : Prop := ∀ s, s ∈ ps → ∃ p, sp_wf p ∧ s = print p.

Lemma parse_paths_ok ps : printed ps → ∃ R, parse_paths storeDir ps = Ok R ∧ ∀ q, q ∈ R ↔ print q ∈ ps.
Proof using Hdir.
  intros Hp. unfold parse_paths.
  enough (∀ acc, ∃ R, foldR (λ (acc : gset StorePath) p, sp ← parseStorePath storeDir p; Ok ({[sp]} ∪ acc)) acc ps = Ok R ∧ ∀ q, q ∈ R ↔ print q ∈ ps ∨ q ∈ acc) as He.
  { destruct (He ∅) as (R & E & HR). exists R. split; [done|]. intros q. rewrite HR. set_solver. }
  induction ps as [|s ps IH]; intros acc; [exists acc; split; [done|]; set_solver|].
  destruct (Hp s) as (p & Hw & ->); [by left|]. cbn [foldR]. rewrite parse_print by done. cbn [mbind result_bind].
  destruct (IH (λ s Hs, Hp s ltac:(by right)) ({[p]} ∪ acc)) as (R & E & HR). exists R. split; [done|]. intros q. rewrite HR.
  rewrite elem_of_cons, elem_of_union, elem_of_singleton. split; [intros [?|[->|?]]; auto|]. intros [[E'|?]|?]; auto.
  apply printStorePath_inj in E' as ->. auto.
Qed.

(** Every row is one that was written for some information. *)
Definition rows_ok db : Prop :=
  ∀ j r, ValidPaths db !! j = Some r → ∃ i t, storable xp i ∧ row_of xp storeDir t i = Ok r.
Definition store_ok db : Prop := db_wf db ∧ rows_ok db.

Lemma rows_path db j s : rows_ok db → path_of db j = Some s → ∃ p, sp_wf p ∧ s = print p.
Proof using.
  intros Hr Hp. unfold path_of in Hp. destruct (ValidPaths db !! j) as [r|] eqn:E; [|done]. injection Hp as <-.
  destruct (Hr j r E) as (i & t & Hs & Ei). exists (path i). split; [apply Hs|]. by apply (row_of_inv t i r).
Qed.

Lemma references_ok db j :
  store_ok db → ∃ R, parse_paths storeDir (QueryReferences j db) = Ok R ∧
    ∀ q, q ∈ R ↔ ∃ k, (j, k) ∈ Refs db ∧ path_of db k = Some (print q).
Proof using Hdir.
  intros [_ Hr]. destruct (parse_paths_ok (QueryReferences j db)) as (R & E & HR).
  { intros s (k & _ & Hk)%elem_of_QueryReferences. by eapply rows_path. }
  exists R. split; [done|]. intros q. by rewrite HR, elem_of_QueryReferences.
Qed.

(** What a query returns for a valid path. *)
Lemma query_ok db j r i t :
  store_ok db → ValidPaths db !! j = Some r → storable xp i → row_of xp storeDir t i = Ok r →
  ∃ R, queryPathInfoInternal xp storeDir (path i) db = Ok (Some (as_read j t R i)) ∧
    ∀ q, q ∈ R ↔ ∃ k, (j, k) ∈ Refs db ∧ path_of db k = Some (print q).
Proof using Hdir.
  intros Hok Hj Hs Ei. destruct (references_ok db j Hok) as (R & ER & HR). exists R. split; [|done].
  destruct (row_of_inv t i r Ei Hs) as (Rp & Rh & Rt & Rd & Rn & Ru & Rs & Rc).
  unfold queryPathInfoInternal. rewrite (proj2 (select_path_Some db (print (path i)) j r (proj1 Hok))) by done.
  rewrite Rh. cbn [mbind result_bind].
  assert (match r_deriver r with None => Ok None | Some s => d ← parseStorePath storeDir s; Ok (Some d) end = Ok (deriver (info i))) as ->.
  { rewrite Rd. destruct (deriver (info i)) as [d|] eqn:Ed; cbn; [|done]. rewrite parse_print; [done|done|]. by eapply sb_deriver. }
  cbn [mbind result_bind]. rewrite Rc. cbn [mbind result_bind]. rewrite ER. cbn [mbind result_bind].
  unfold as_read. by rewrite Rt, Rn, Ru, Rs.
Qed.
End rows.

(** * Reasoning about computations

    [wp m Q E s]: started in [s], [m] returns a value and a state that satisfy
    [Q], or throws an exception that satisfies [E]. *)

Definition wp {A} (m : LM A) (Q : A → Local → Prop) (E : exn → Prop) (s : Local) : Prop :=
  match m s with (Ok a, s') => Q a s' | (Throw e, _) => E e end.

Section wp.
Context (E : exn → Prop).

Lemma wp_ret {A} (a : A) Q s : Q a s → wp (mret a) Q E s.
Proof. done. Qed.

Lemma wp_bind {A B} (m : LM A) (f : A → LM B) Q s : wp m (λ a, wp (f a) Q E) E s → wp (m ≫= f) Q E s.
Proof. unfold wp, mbind, LM_bind. by destruct (m s) as [[a|e] s']. Qed.

Lemma wp_mono {A} (m : LM A) (Q Q' : A → Local → Prop) s : wp m Q E s → (∀ a s', Q a s' → Q' a s') → wp m Q' E s.
Proof. unfold wp. destruct (m s) as [[a|e] s']; eauto. Qed.

Lemma wp_pure {A} (r : result A) Q s : (∀ a, r = Ok a → Q a s) → (∀ e, r = Throw e → E e) → wp (pureR r) Q E s.
Proof. unfold wp, pureR. destruct r; eauto. Qed.

Lemma wp_query {A} (f : Db → result A) Q s :
  (∀ a, f (ls_db s) = Ok a → Q a s) → (∀ e, f (ls_db s) = Throw e → E e) → wp (query f) Q E s.
Proof. unfold wp, query. destruct (f (ls_db s)); eauto. Qed.

Lemma wp_exec (f : Db → result Db) Q s :
  (∀ d, f (ls_db s) = Ok d → Q tt (with_db d s)) → (∀ e, f (ls_db s) = Throw e → E e) → wp (exec f) Q E s.
Proof. unfold wp, exec. destruct (f (ls_db s)); eauto. Qed.

(** Changes of the table of derivation hashes are not looked at. *)
Lemma wp_hashes {A} (m : ST A) Q s :
  (∀ a hs, (m (ls_drvHashes s)).1 = Ok a → Q a (MkLocal (ls_db s) (ls_cache s) hs)) →
  (∀ e, (m (ls_drvHashes s)).1 = Throw e → E e) → wp (on_hashes m) Q E s.
Proof. unfold wp, on_hashes. destruct (m (ls_drvHashes s)) as [[a|e] hs]; eauto. Qed.

Lemma wp_upsert key v Q s :
  lru_wf (ls_cache s) → (∀ c, lru_wf c → Q tt (MkLocal (ls_db s) c (ls_drvHashes s))) →
  wp (on_cache (λ c, c ← lru_upsert key v c; Ok (tt, c))) Q E s.
Proof.
  intros W HQ. unfold wp, on_cache. destruct (upsert_ok (ls_cache s) key v W) as (c & -> & Wc & _). cbn. by apply HQ.
Qed.

(** A loop; the invariant is about the items done. *)
Lemma wp_each {A} (I : list A → Local → Prop) (f : A → LM unit) l s :
  I [] s → (∀ l1 x l2 s', l = l1 ++ x :: l2 → I l1 s' → wp (f x) (λ _, I (l1 ++ [x])) E s') →
  wp (eachL f l) (λ _, I l) E s.
Proof.
  intros HI Hf. enough (∀ l2 l1 s', l = l1 ++ l2 → I l1 s' → wp (eachL f l2) (λ _, I l) E s') as Hgo by by apply (Hgo l []).
  induction l2 as [|x l2 IH]; intros l1 s' El HI1.
  - apply wp_ret. by rewrite El, app_nil_r.
  - cbn [eachL]. apply wp_bind. eapply wp_mono; [by eapply Hf|]. intros u s2 HI2. apply (IH (l1 ++ [x])); [|done].
    by rewrite <- app_assoc.
Qed.
End wp.

(** * Registration *)

(** An existing row keeps its path, time and deriver. *)
Definition updated_row (xp : XpSettings) (i : ValidPathInfo) (r : PathRow) : result PathRow :=
  h ← to_string (narHash (info i)) Base16 true;
  c ← ca_arg xp (ca (info i));
  Ok (update_row (size_arg (narSize (info i))) h (ultimate_arg (ultimate (info i))) (sigs_arg (sigs (info i))) c r).

(** Information [i] registered over [old]. *)
Definition merged (old i : ValidPathInfo) : ValidPathInfo :=
  let u := info i in
  {| info := {| deriver := deriver (info old); narHash := narHash u; references := references u;
                registrationTime := registrationTime (info old); narSize := narSize u; id := id u;
                ultimate := ultimate u; sigs := sigs u; ca := ca u |};
     path := path old |}.

(** What is read after registering [i] for a path that was valid as [old]. *)
Definition reregistered (old i : ValidPathInfo) : ValidPathInfo :=
  let u := info i in
  {| info := {| deriver := deriver (info old); narHash := narHash u; references := references (info old) ∪ references u;
                registrationTime := registrationTime (info old); narSize := narSize u; id := id (info old);
                ultimate := ultimate u; sigs := sigs u; ca := ca u |};
     path := path old |}.

Section register.
Context (xp : XpSettings) (storeDir : str) (hashString : HashAlgorithm → str → Hash).
Context (readInvalidDerivation : StorePath → result Derivation) (fuel : nat) (time0 now : Z).
Context (Hdir : store_dir_ok storeDir).

Abbreviation print := (printStorePath storeDir).
Abbreviation Infos := (list (StorePath * ValidPathInfo)).

Lemma row_of_merged t old i r r' :
  storable xp old → storable xp i → row_of xp storeDir t old = Ok r → updated_row xp i r = Ok r' →
  storable xp (merged old i) ∧ row_of xp storeDir t (merged old i) = Ok r'.
Proof using.
  intros So Si Er Eu. split.
  - split; cbn; [apply So|apply Si|apply Si|apply So|apply Si|apply Si|apply Si].
  - unfold updated_row in Eu. unfold row_of in Er |- *. cbn [merged info narHash ca path deriver registrationTime narSize ultimate sigs].
    destruct (to_string (narHash (info i)) Base16 true) as [h|]; cbn [mbind result_bind] in *; [|done].
    destruct (ca_arg xp (ca (info i))) as [c|]; cbn [mbind result_bind] in *; [|done].
    destruct (to_string (narHash (info old)) Base16 true) as [h'|]; cbn [mbind result_bind] in *; [|done].
    destruct (ca_arg xp (ca (info old))) as [c'|]; cbn [mbind result_bind] in *; [|done].
    match type of Er with Ok ?x = Ok _ => assert (r = x) as -> by (by injection Er) end. exact Eu.
Qed.

(** The database while the paths are entered; [done] is what has been. *)
Record entered (db0 : Db) (dn : Infos) (db : Db) : Prop := {
  en_ok : store_ok xp storeDir db;
  en_refs : Refs db = Refs db0;
  en_outs x : is_Some (ValidPaths db0 !! x.1) → DerivationOutputs db !! x = DerivationOutputs db0 !! x;
  en_old j r : ValidPaths db0 !! j = Some r → ∃ r', ValidPaths db !! j = Some r' ∧
    ((r' = r ∧ ∀ x, x ∈ dn → print (path x.2) ≠ r_path r) ∨
     ∃ x, x ∈ dn ∧ print (path x.2) = r_path r ∧ updated_row xp x.2 r = Ok r');
  en_new j r : ValidPaths db !! j = Some r → ValidPaths db0 !! j = None → ∃ x, x ∈ dn ∧ row_of xp storeDir time0 x.2 = Ok r;
  en_done x : x ∈ dn → ∃ j, path_of db j = Some (print (path x.2));
}.

Lemma updated_row_path i r r' : updated_row xp i r = Ok r' → r_path r' = r_path r.
Proof using.
  unfold updated_row. destruct (to_string _ _ _) as [h|]; cbn [mbind result_bind]; [|done].
  destruct (ca_arg _ _) as [c|]; cbn [mbind result_bind]; [|done]. intros E. by injection E as <-.
Qed.

Lemma entered_old_path db0 dn db j r : entered db0 dn db → ValidPaths db0 !! j = Some r → path_of db j = Some (r_path r).
Proof using.
  intros En Hj. destruct (en_old _ _ _ En j r Hj) as (r' & Hr' & [[-> _]|(x & _ & _ & Hu)]); unfold path_of; rewrite Hr'; cbn; [done|].
  f_equal. by eapply updated_row_path.
Qed.

Lemma row_of_path t i r : row_of xp storeDir t i = Ok r → r_path r = print (path i).
Proof using.
  unfold row_of. destruct (to_string _ _ _) as [h|]; cbn [mbind result_bind]; [|done].
  destruct (ca_arg _ _) as [c|]; cbn [mbind result_bind]; [|done]. intros E. by injection E as <-.
Qed.

Lemma update_entered db0 dn x db c h :
  entered db0 dn db → storable xp x.2 → (∀ y, y ∈ dn → path y.2 ≠ path x.2) →
  (∃ j, path_of db j = Some (print (path x.2))) →
  ca_arg xp (ca (info x.2)) = Ok c → to_string (narHash (info x.2)) Base16 true = Ok h →
  entered db0 (dn ++ [x]) (UpdatePathInfo (size_arg (narSize (info x.2))) h (ultimate_arg (ultimate (info x.2)))
    (sigs_arg (sigs (info x.2))) c (print (path x.2)) db).
Proof using.
  intros En Sx Hne Hv Ec Eh. destruct (en_ok _ _ _ En) as [W Hrows].
  assert (∀ r, updated_row xp x.2 r = Ok (update_row (size_arg (narSize (info x.2))) h (ultimate_arg (ultimate (info x.2))) (sigs_arg (sigs (info x.2))) c r)) as Hup.
  { intros r. unfold updated_row. by rewrite Eh; cbn [mbind result_bind]; rewrite Ec. }
  set (db' := UpdatePathInfo _ _ _ _ _ _ db).
  destruct (UpdatePathInfo_ok db (size_arg (narSize (info x.2))) h (ultimate_arg (ultimate (info x.2))) (sigs_arg (sigs (info x.2))) c (print (path x.2)) W)
    as (W' & R' & O' & P' & V'). fold db' in W', R', O', P', V'.
  assert (∀ j r', ValidPaths db' !! j = Some r' → ∃ r, ValidPaths db !! j = Some r ∧
    ((r_path r ≠ print (path x.2) ∧ r' = r) ∨ (r_path r = print (path x.2) ∧ updated_row xp x.2 r = Ok r'))) as Hinv.
  { intros j r' Hj. destruct (ValidPaths db !! j) as [r|] eqn:Er.
    - exists r. split; [done|]. rewrite (V' j r Er) in Hj. injection Hj as <-. case_bool_decide; [right|left]; auto.
    - unfold db' in Hj. cbn in Hj. by rewrite lookup_fmap, Er in Hj. }
  split.
  - split; [done|]. intros j r' Hj. destruct (Hinv j r' Hj) as (r & Hr & [[_ ->]|[_ Hu]]); [by apply (Hrows j)|].
    destruct (Hrows j r Hr) as (old & t & So & Eo). destruct (row_of_merged t old x.2 r r' So Sx Eo Hu) as [Sm Em]. eauto.
  - by rewrite R', (en_refs _ _ _ En).
  - intros y Hy. rewrite O'. by apply (en_outs _ _ _ En).
  - intros j r Hj. pose proof (entered_old_path _ _ _ _ _ En Hj) as Hp. destruct (en_old _ _ _ En j r Hj) as (r1 & Hr1 & Hcase).
    assert (r_path r1 = r_path r) as Hp1 by (unfold path_of in Hp; rewrite Hr1 in Hp; by injection Hp).
    eexists. split; [by apply V'|]. rewrite Hp1. case_bool_decide as Hx.
    + right. exists x. split; [apply elem_of_app; right; by left|]. split; [done|].
      destruct Hcase as [[-> _]|(y & Hy & Ey & _)]; [apply Hup|].
      destruct (Hne y Hy). rewrite Hx in Ey. by apply printStorePath_inj in Ey.
    + destruct Hcase as [[-> Hall]|(y & Hy & Ey & Eu)]; [left; split; [done|]|right; exists y; split; [apply elem_of_app; by left|done]].
      intros y Hy. apply elem_of_app in Hy as [Hy| ->%list_elem_of_singleton]; [by apply Hall|congruence].
  - intros j r' Hj Hj0. destruct (Hinv j r' Hj) as (r & Hr & Hcase). destruct (en_new _ _ _ En j r Hr Hj0) as (y & Hy & Ey).
    exists y. split; [apply elem_of_app; by left|]. destruct Hcase as [[_ ->]|[Hp _]]; [done|].
    rewrite (row_of_path _ _ _ Ey) in Hp. apply printStorePath_inj in Hp. by destruct (Hne y Hy).
  - intros y Hy. apply elem_of_app in Hy as [Hy| ->%list_elem_of_singleton].
    + destruct (en_done _ _ _ En y Hy) as [j Hj]. exists j. by rewrite P'.
    + destruct Hv as [j Hj]. exists j. by rewrite P'.
Qed.

Lemma insert_entered db0 dn x db row j db' :
  entered db0 dn db → storable xp x.2 → row_of xp storeDir time0 x.2 = Ok row →
  select_path (print (path x.2)) db = None → RegisterValidPath row db = Ok (j, db') →
  entered db0 (dn ++ [x]) db' ∧ ValidPaths db0 !! j = None ∧ is_Some (ValidPaths db' !! j).
Proof using.
  intros En Sx Er Hs Hreg. destruct (en_ok _ _ _ En) as [W Hrows]. pose proof (row_of_path _ _ _ Er) as Hp. rewrite <- Hp in Hs.
  destruct (RegisterValidPath_ok db row W Hs) as (j' & db1 & E & W' & Hj & V' & R' & O'). rewrite Hreg in E.
  assert (j' = j ∧ db1 = db') as [-> ->] by (split; congruence). clear E.
  rewrite select_path_None in Hs.
  assert (ValidPaths db0 !! j = None) as Hj0.
  { destruct (ValidPaths db0 !! j) as [r|] eqn:Ej; [|done]. destruct (en_old _ _ _ En j r Ej) as (r' & Hr' & _). congruence. }
  split; [|split; [done|rewrite V'; by rewrite lookup_insert_eq]]. split.
  - split; [done|]. intros k r Hk. rewrite V' in Hk. apply lookup_insert_Some in Hk as [[_ <-]|[_ Hk]]; [by exists x.2, time0|by apply (Hrows k)].
  - by rewrite R', (en_refs _ _ _ En).
  - intros y Hy. rewrite O'. by apply (en_outs _ _ _ En).
  - intros k r Hk. destruct (en_old _ _ _ En k r Hk) as (r' & Hr' & Hcase). exists r'. split.
    { rewrite V', lookup_insert_ne; [done|]. intros <-. congruence. }
    destruct Hcase as [[-> Hall]|(y & Hy & Ey & Eu)]; [left; split; [done|]|right; exists y; split; [apply elem_of_app; by left|done]].
    intros y Hy. apply elem_of_app in Hy as [Hy| ->%list_elem_of_singleton]; [by apply Hall|]. rewrite <- Hp. intros E. by destruct (Hs k r Hr').
  - intros k r Hk Hk0. rewrite V' in Hk. apply lookup_insert_Some in Hk as [[_ <-]|[_ Hk]].
    + exists x. split; [apply elem_of_app; right; by left|done].
    + destruct (en_new _ _ _ En k r Hk Hk0) as (y & Hy & Ey). exists y. split; [apply elem_of_app; by left|done].
  - intros y Hy. unfold path_of. rewrite V'. apply elem_of_app in Hy as [Hy| ->%list_elem_of_singleton].
    + destruct (en_done _ _ _ En y Hy) as [k Hk]. exists k. rewrite lookup_insert_ne; [done|]. intros <-. unfold path_of in Hk. by rewrite Hj in Hk.
    + exists j. rewrite lookup_insert_eq. cbn. by rewrite Hp.
Qed.

Lemma output_entered db0 dn db j o q db' :
  entered db0 dn db → ValidPaths db0 !! j = None → is_Some (ValidPaths db !! j) → AddDerivationOutput j o q db = Ok db' →
  entered db0 dn db' ∧ is_Some (ValidPaths db' !! j).
Proof using.
  intros En Hj0 Hj Hadd. destruct (en_ok _ _ _ En) as [W Hrows].
  destruct (AddDerivationOutput_ok db j o q W Hj) as (db1 & E & W' & V' & R' & O'). rewrite Hadd in E.
  assert (db1 = db') as -> by congruence. split; [|by rewrite V'].
  split; unfold path_of; rewrite ?V', ?R'; try apply En.
  - split; [done|]. intros k r. rewrite V'. apply Hrows.
  - intros y Hy. rewrite O', lookup_insert_ne; [by apply (en_outs _ _ _ En)|]. intros <-. cbn in Hy. rewrite Hj0 in Hy. by destruct Hy.
Qed.

Lemma select_path_of db q i r : db_wf db → select_path q db = Some (i, r) → path_of db i = Some q.
Proof using. intros W Hs. apply select_path_Some in Hs as [Hi <-]; [|done]. unfold path_of. by rewrite Hi. Qed.

Lemma valid_id db q i : db_wf db → queryValidPathId storeDir q db = Ok i ↔ path_of db i = Some (print q).
Proof using.
  intros W. unfold queryValidPathId. split.
  - destruct (select_path (print q) db) as [[j r]|] eqn:E; [|done]. intros [= <-]. by eapply select_path_of.
  - unfold path_of. destruct (ValidPaths db !! i) as [r|] eqn:E; cbn; [|done]. intros [= Hp].
    by rewrite (proj2 (select_path_Some db (print q) i r W)).
Qed.

Lemma path_of_unique db i j q : db_wf db → path_of db i = Some q → path_of db j = Some q → i = j.
Proof using.
  intros W. unfold path_of. destruct (ValidPaths db !! i) as [r|] eqn:Ei; [|done]. destruct (ValidPaths db !! j) as [r'|] eqn:Ej; [|done].
  intros [= H1] [= H2]. eapply dw_unique; eauto. congruence.
Qed.

Definition accepted_derivation (p : StorePath) : Prop :=
  ∃ drv outs, readInvalidDerivation p = Ok drv ∧ outputsAndOptPaths xp storeDir hashString (basic drv) = Ok outs ∧
    ∀ hs, (checkInvariants xp storeDir hashString readInvalidDerivation fuel drv p hs).1 = Ok tt.

(** The references between the paths of a set. *)
Definition infos_refs (infos : ValidPathInfos) (p : StorePath) : gset StorePath :=
  match infos !! p with None => ∅ | Some i => references (info i) end.

(** Why a set of paths is not registered. *)
Inductive rejected (db0 : Db) (infos : ValidPathInfos) : Prop :=
  | rej_render p i e : infos !! p = Some i → ca_arg xp (ca (info i)) = Throw e → rejected db0 infos
  | rej_content p i : infos !! p = Some i → is_Some (ca (info i)) → isContentAddressed xp storeDir hashString i ≠ Ok true → rejected db0 infos
  | rej_derivation p i : infos !! p = Some i → isDerivation p = true → ¬ accepted_derivation p → rejected db0 infos
  | rej_missing p i q : infos !! p = Some i → q ∈ references (info i) → (∀ j, path_of db0 j ≠ Some (print q)) →
      infos !! q = None → rejected db0 infos
  | rej_cycle p : tc (edge (dom infos) (infos_refs infos)) p p → rejected db0 infos.

Section phases.
Context (db0 : Db) (infos : ValidPathInfos) (Hst : ∀ p i, infos !! p = Some i → storable xp i ∧ path i = p).
Let E (e : exn) : Prop := rejected db0 infos.
Let l : Infos := map_sorted infos.

Lemma in_infos x : x ∈ l → infos !! path x.2 = Some x.2 ∧ storable xp x.2.
Proof using Hst.
  destruct x as [p i]. intros Hx. apply elem_of_map_sorted in Hx. destruct (Hst p i Hx) as [Hs Hp]. cbn. by rewrite Hp.
Qed.

Lemma infos_NoDup : NoDup (map (λ x : StorePath * ValidPathInfo, path x.2) l).
Proof using Hst.
  assert (map (λ x : StorePath * ValidPathInfo, path x.2) l = l.*1) as ->; [|apply map_sorted_NoDup].
  apply map_ext_in. intros [p i] Hx%list_elem_of_In%elem_of_map_sorted. by destruct (Hst p i Hx).
Qed.

Lemma fresh_path dn x rest y : l = dn ++ x :: rest → y ∈ dn → path y.2 ≠ path x.2.
Proof using Hst.
  intros El Hy Ep. pose proof infos_NoDup as Hnd. rewrite El, map_app in Hnd. apply NoDup_app in Hnd as (_ & Hd & _).
  apply (Hd (path y.2)); [apply list_elem_of_fmap; by exists y|]. rewrite Ep. cbn. by left.
Qed.

Lemma wp_addValidPath dn x rest s :
  l = dn ++ x :: rest → entered db0 dn (ls_db s) → lru_wf (ls_cache s) → isValidPath_ storeDir (path x.2) (ls_db s) = false →
  wp (addValidPath xp storeDir hashString readInvalidDerivation fuel time0 now x.2 false)
    (λ _ s', entered db0 (dn ++ [x]) (ls_db s') ∧ lru_wf (ls_cache s')) E s.
Proof using Hst.
  intros El En Wc Hv. assert (x ∈ l) as Hx by (rewrite El; apply elem_of_app; right; by left). destruct (in_infos x Hx) as [Hl Sx].
  apply bool_decide_eq_false, eq_None_not_Some in Hv. unfold addValidPath. apply wp_bind, wp_pure.
  2:{ intros e He. destruct (ca (info x.2)) as [c|] eqn:Ec; [|done]. destruct (isContentAddressed _ _ _ x.2) as [b|] eqn:Eb; [done|].
      eapply rej_content; [exact Hl|by rewrite Ec|congruence]. }
  intros bad Hbad. destruct bad.
  { apply wp_pure; [done|]. intros e _. destruct (ca (info x.2)) as [c|] eqn:Ec; [|done].
    destruct (isContentAddressed _ _ _ x.2) as [b|] eqn:Eb; cbn in Hbad; [|done]. eapply rej_content; [exact Hl|by rewrite Ec|]. rewrite Eb. by destruct b. }
  destruct (getParsed_prefixed (narHash (info x.2)) Base16) as (h & Eh & _); [apply Sx|].
  apply wp_bind, wp_pure.
  2:{ intros e He. unfold row_of in He. rewrite Eh in He. cbn [mbind result_bind] in He.
      destruct (ca_arg xp (ca (info x.2))) eqn:Ec; [done|]. eapply rej_render; [exact Hl|done]. }
  intros row Hrow. apply wp_bind. unfold wp at 1, insert_row.
  destruct (en_ok _ _ _ En) as [W _]. pose proof (row_of_path _ _ _ Hrow) as Hp.
  destruct (RegisterValidPath_ok (ls_db s) row W) as (j & db1 & Ereg & _); [by rewrite Hp|]. rewrite Ereg.
  destruct (insert_entered db0 dn x (ls_db s) row j db1 En Sx Hrow Hv Ereg) as (En1 & Hj0 & Hj1).
  apply wp_bind. eapply (wp_mono _ _ (λ _ s', (entered db0 (dn ++ [x]) (ls_db s') ∧ is_Some (ValidPaths (ls_db s') !! j)) ∧ lru_wf (ls_cache s'))).
  2:{ intros u s2 [[En2 _] Wc2]. apply wp_bind, wp_upsert; [done|]. intros c Wc3. apply wp_ret. auto. }
  destruct (isDerivation (path x.2)) eqn:Ed; [|apply wp_ret; auto].
  apply wp_bind, wp_pure; [|intros e He; eapply rej_derivation; [exact Hl|done|]; intros (drv & outs & Hd & _); congruence].
  intros drv Hdrv. apply wp_bind, wp_ret, wp_bind, wp_pure; [|intros e He; eapply rej_derivation; [exact Hl|done|]; intros (drv' & outs & Hd & Ho & _); congruence].
  intros outs _. eapply (wp_mono _ _ (λ _ s', (entered db0 (dn ++ [x]) (ls_db s') ∧ is_Some (ValidPaths (ls_db s') !! j)) ∧ lru_wf (ls_cache s'))); [|done].
  apply (wp_each E (λ _ s', (entered db0 (dn ++ [x]) (ls_db s') ∧ is_Some (ValidPaths (ls_db s') !! j)) ∧ lru_wf (ls_cache s'))); [done|].
  intros l1 o l2 s3 _ [[En3 Hj3] Wc3]. destruct (o.2.2) as [q|]; [|apply wp_ret; auto].
  destruct (en_ok _ _ _ En3) as [W3 _]. unfold cacheDrvOutputMapping. apply wp_exec.
  - intros d Hd. cbn. destruct (output_entered db0 _ _ j o.1 (print q) d En3 Hj0 Hj3 Hd). auto.
  - intros e He. destruct (AddDerivationOutput_ok _ j o.1 (print q) W3 Hj3) as (? & ? & _). congruence.
Qed.

Lemma wp_register_one dn x rest s :
  l = dn ++ x :: rest → entered db0 dn (ls_db s) → lru_wf (ls_cache s) →
  wp (register_one xp storeDir hashString readInvalidDerivation fuel time0 now x)
    (λ _ s', entered db0 (dn ++ [x]) (ls_db s') ∧ lru_wf (ls_cache s')) E s.
Proof using Hst.
  intros El En Wc. assert (x ∈ l) as Hx by (rewrite El; apply elem_of_app; right; by left). destruct (in_infos x Hx) as [Hl Sx]. destruct (en_ok _ _ _ En) as [W _].
  unfold register_one. apply wp_bind, wp_pure; unfold assertR; (rewrite bool_decide_eq_true_2 by apply Sx); [|done].
  intros _ _. apply wp_bind, wp_query; [|done]. intros valid [= Hv]. destruct valid.
  - destruct (getParsed_prefixed (narHash (info x.2)) Base16) as (h & Eh & _); [apply Sx|].
    unfold updatePathInfo. apply wp_bind, wp_pure; [|congruence]. intros h' Eh'. apply wp_bind, wp_pure; [|intros e He; eapply rej_render; [exact Hl|done]].
    intros c Hc. apply wp_exec; [|done]. intros d [= <-]. cbn. split; [|done].
    apply update_entered; [done|done|intros y; by eapply fresh_path| |done|done].
    apply bool_decide_eq_true in Hv as [[j r] Hs]. exists j. by eapply select_path_of.
  - apply wp_bind. eapply wp_mono; [by eapply wp_addValidPath|]. intros a s' Hs'. by apply wp_ret.
Qed.

(** The database while the references are entered. *)
Record linked (db1 : Db) (ps : list (StorePath * StorePath)) (db : Db) : Prop := {
  ln_wf : db_wf db;
  ln_rows : ValidPaths db = ValidPaths db1;
  ln_outs : DerivationOutputs db = DerivationOutputs db1;
  ln_refs e : e ∈ Refs db ↔ e ∈ Refs db1 ∨
    ∃ p q, (p, q) ∈ ps ∧ path_of db1 e.1 = Some (print p) ∧ path_of db1 e.2 = Some (print q);
  ln_valid p q : (p, q) ∈ ps → ∃ j, path_of db1 j = Some (print q);
}.

Lemma path_of_rows db db1 j : ValidPaths db = ValidPaths db1 → path_of db j = path_of db1 j.
Proof using. unfold path_of. by intros ->. Qed.

Lemma path_of_Some db j q : path_of db j = Some q → is_Some (ValidPaths db !! j).
Proof using. unfold path_of. by destruct (ValidPaths db !! j). Qed.

Lemma link_one db1 ps db i j p q d :
  linked db1 ps db → path_of db i = Some (print p) → path_of db j = Some (print q) → AddReference i j db = Ok d →
  linked db1 (ps ++ [(p, q)]) d.
Proof using.
  intros Hl Hi Hj Hd. destruct (AddReference_ok db i j (ln_wf _ _ _ Hl)) as (d' & Ed & W & V & R & O); [by eapply path_of_Some..|].
  assert (d' = d) as -> by congruence.
  assert (∀ k, path_of db1 k = path_of db k) as Hrows by (intros k; symmetry; apply path_of_rows, Hl).
  split.
  - done.
  - rewrite V. apply Hl.
  - rewrite O. apply Hl.
  - intros e. rewrite R, elem_of_union, elem_of_singleton, (ln_refs _ _ _ Hl). split.
    + intros [->|[He|(p' & q' & Hin & H1 & H2)]]; [right; exists p, q|by left|right; exists p', q'];
        rewrite elem_of_app, list_elem_of_singleton, ?Hrows in *; auto.
    + intros [He|(p' & q' & Hin & H1 & H2)]; [auto|]. apply elem_of_app in Hin as [Hin|Hin]; [right; right; by exists p', q'|].
      apply list_elem_of_singleton in Hin as [= -> ->]. left. destruct e as [a b]. cbn in *.
      rewrite Hrows in H1, H2. f_equal; (eapply path_of_unique; [apply Hl|done|done]).
  - intros p' q' Hin. apply elem_of_app in Hin as [Hin|Hin]; [by apply (ln_valid _ _ _ Hl p')|].
    apply list_elem_of_singleton in Hin as [= -> ->]. exists j. by rewrite Hrows.
Qed.

Definition pairs_of (x : StorePath * ValidPathInfo) : list (StorePath * StorePath) :=
  map (pair (path x.2)) (set_sorted (references (info x.2))).

Lemma missing_rejected db1 x q :
  entered db0 l db1 → x ∈ l → q ∈ references (info x.2) → (∀ j, path_of db1 j ≠ Some (print q)) → rejected db0 infos.
Proof using Hst.
  intros En Hx Hq Hn. destruct (in_infos x Hx) as [Hl _]. eapply rej_missing; [exact Hl|done| |].
  - intros j Hj. unfold path_of in Hj. destruct (ValidPaths db0 !! j) as [r|] eqn:Ej; [|done]. injection Hj as Hj.
    apply (Hn j). rewrite <- Hj. by eapply entered_old_path.
  - destruct (infos !! q) as [i|] eqn:Eq; [|done]. destruct (Hst q i Eq) as [_ Hp].
    destruct (en_done _ _ _ En (q, i)) as [j Hj]; [by apply elem_of_map_sorted|]. cbn in Hj. rewrite Hp in Hj. by destruct (Hn j).
Qed.

Lemma wp_add_references db1 ps x s :
  entered db0 l db1 → x ∈ l → linked db1 ps (ls_db s) → lru_wf (ls_cache s) →
  wp (add_references storeDir x) (λ _ s', linked db1 (ps ++ pairs_of x) (ls_db s') ∧ lru_wf (ls_cache s')) E s.
Proof using Hst.
  intros En Hx Hln Wc. assert (∀ db ps k, linked db1 ps db → path_of db1 k = path_of db k) as Hrows by (intros db ps' k Hk; symmetry; apply path_of_rows, Hk).
  unfold add_references. apply wp_bind, wp_query.
  2:{ intros e He. exfalso. destruct (en_done _ _ _ En x Hx) as [j Hj]. rewrite (Hrows _ _ _ Hln) in Hj.
      apply (valid_id _ _ _ (ln_wf _ _ _ Hln)) in Hj. congruence. }
  intros i Hi. apply (valid_id _ _ _ (ln_wf _ _ _ Hln)) in Hi. rewrite <- (Hrows _ _ _ Hln) in Hi.
  eapply wp_mono.
  - apply (wp_each E (λ qs s', linked db1 (ps ++ map (pair (path x.2)) qs) (ls_db s') ∧ lru_wf (ls_cache s'))); [by rewrite app_nil_r|].
    intros qs q rest s' El [Hl' Wc']. apply wp_bind, wp_query.
    + intros j Hj. apply (valid_id _ _ _ (ln_wf _ _ _ Hl')) in Hj. rewrite (Hrows _ _ _ Hl') in Hi. apply wp_exec.
      * intros d Hd. cbn [ls_db ls_cache with_db]. split; [|done]. rewrite map_app, app_assoc. by eapply link_one.
      * intros e He. destruct (AddReference_ok (ls_db s') i j (ln_wf _ _ _ Hl')) as (? & ? & _); [by eapply path_of_Some..|]. congruence.
    + intros e He. eapply (missing_rejected db1 x q); [done|done| |].
      * apply elem_of_set_sorted. rewrite El. apply elem_of_app. right. by left.
      * intros j Hj. rewrite (Hrows _ _ _ Hl') in Hj. apply (valid_id _ _ _ (ln_wf _ _ _ Hl')) in Hj. congruence.
  - done.
Qed.

Lemma wp_check_derivation x s db1 :
  x ∈ l → ls_db s = db1 → lru_wf (ls_cache s) →
  wp (check_derivation xp storeDir hashString readInvalidDerivation fuel x) (λ _ s', ls_db s' = db1 ∧ lru_wf (ls_cache s')) E s.
Proof using Hst.
  intros Hx Hd Wc. destruct (in_infos x Hx) as [Hl _]. unfold check_derivation. destruct (isDerivation (path x.2)) eqn:Ed; [|by apply wp_ret].
  apply wp_bind, wp_pure.
  - intros drv Hdrv. apply wp_hashes; [done|]. intros e He. eapply rej_derivation; [exact Hl|done|].
    intros (drv' & outs & Hd' & _ & Hc). specialize (Hc (ls_drvHashes s)). congruence.
  - intros e He. eapply rej_derivation; [exact Hl|done|]. intros (drv' & outs & Hd' & _). congruence.
Qed.

Lemma infos_items : list_to_set (map (λ x : StorePath * ValidPathInfo, path x.2) l) = dom infos.
Proof using Hst.
  apply set_eq. intros p. rewrite elem_of_list_to_set, elem_of_dom. split.
  - intros ([q i] & -> & Hx)%list_elem_of_fmap. cbn. destruct (in_infos (q, i) Hx) as [Hl _]. by eexists.
  - intros [i Hi]. apply list_elem_of_fmap. exists (p, i). split; [|by apply elem_of_map_sorted]. cbn. by destruct (Hst p i Hi).
Qed.

(** All four steps; the database of a successful registration. *)
Definition registered (db : Db) : Prop :=
  ∃ db1, entered db0 l db1 ∧ linked db1 (concat (map pairs_of l)) db ∧ ∀ p, ¬ tc (edge (dom infos) (infos_refs infos)) p p.

Lemma registerValidPaths_wp s :
  store_ok xp storeDir db0 → ls_db s = db0 → lru_wf (ls_cache s) →
  match registerValidPaths xp storeDir hashString readInvalidDerivation fuel time0 now infos s with
  | (Ok _, s') => registered (ls_db s') ∧ lru_wf (ls_cache s')
  | (Throw _, s') => rejected db0 infos ∧ ls_db s' = db0
  end.
Proof using Hst.
  intros Hok Hs Wc. unfold registerValidPaths, txn.
  match goal with |- context [match ?m s with _ => _ end] => set (body := m) end.
  assert (wp body (λ _ s', registered (ls_db s') ∧ lru_wf (ls_cache s')) E s) as Hwp.
  - unfold body. clear body. apply wp_bind. eapply wp_mono.
    { apply (wp_each E (λ dn s', entered db0 dn (ls_db s') ∧ lru_wf (ls_cache s'))).
      - split; [|done]. rewrite Hs. split; try done; [|intros j r Hj Hj0; congruence|intros x Hx; by apply elem_of_nil in Hx].
        intros j r Hj. exists r. split; [done|]. left. split; [done|]. intros x Hx. by apply elem_of_nil in Hx.
      - intros l1 x l2 s' El [En Wc']. by eapply wp_register_one. }
    intros _ s1 [En W1]. apply wp_bind. eapply wp_mono.
    { apply (wp_each E (λ dn s', linked (ls_db s1) (concat (map pairs_of dn)) (ls_db s') ∧ lru_wf (ls_cache s'))).
      - split; [|done]. destruct (en_ok _ _ _ En) as [W _]. split; try done; [|intros p q Hx; by apply elem_of_nil in Hx].
        intros e. split; [by left|]. intros [?|(p & q & Hx & _)]; [done|]. by apply elem_of_nil in Hx.
      - intros l1 x l2 s' El [Hln Wc']. rewrite map_app, concat_app. cbn [map concat]. rewrite app_nil_r. apply wp_add_references; [done| |done|done].
        unfold l. rewrite El. apply elem_of_app. right. by left. }
    intros _ s2 [Hln W2]. apply wp_bind. eapply wp_mono.
    { apply (wp_each E (λ _ s', ls_db s' = ls_db s2 ∧ lru_wf (ls_cache s'))); [done|].
      intros l1 x l2 s' El [Hd Wc']. apply wp_check_derivation; [|done|done]. unfold l. rewrite El. apply elem_of_app. right. by left. }
    intros _ s3 [Hd W3]. apply wp_bind.
    pose proof (topoSort_ok (dom infos) (infos_children infos) cycle_error (infos_refs infos) (λ _ _, eq_refl)) as Ht.
    fold l. rewrite infos_items. apply wp_pure.
    + intros ts Ets. rewrite Ets in Ht. apply wp_ret. split; [|done]. exists (ls_db s1). rewrite Hd. split; [done|]. split; [done|]. apply Ht.
    + intros e Ee. rewrite Ee in Ht. destruct Ht as (x & y & _ & Hyx & Hxy). apply (rej_cycle _ _ y). by eapply tc_rtc_r; [apply tc_once|].
  - unfold wp in Hwp. by destruct (body s) as [[a|e] s'].
Qed.

Definition valid (db : Db) (p : StorePath) : Prop := isValidPath_ storeDir p db = true.

Lemma valid_path_of db p : db_wf db → valid db p ↔ ∃ j, path_of db j = Some (print p).
Proof using.
  intros W. unfold valid, isValidPath_. rewrite bool_decide_eq_true. split.
  - intros [[j r] Hs]. exists j. by eapply select_path_of.
  - intros [j Hj]. unfold path_of in Hj. destruct (ValidPaths db !! j) as [r|] eqn:Er; [|done]. injection Hj as Hj.
    exists (j, r). by apply select_path_Some.
Qed.

Lemma elem_of_pairs p q : (p, q) ∈ concat (map pairs_of l) ↔ q ∈ infos_refs infos p.
Proof using Hst.
  unfold infos_refs. rewrite list_elem_of_In, in_concat. split.
  - intros (ps & Hps & Hin). apply in_map_iff in Hps as ([p' i] & <- & Hx). apply list_elem_of_In in Hx. destruct (in_infos (p', i) Hx) as [Hl _].
    apply in_map_iff in Hin as (q' & [= <- <-] & Hq). cbn in *. rewrite Hl. by apply elem_of_set_sorted, list_elem_of_In.
  - destruct (infos !! p) as [i|] eqn:Ei; [|by intros Hq%elem_of_empty]. intros Hq. exists (pairs_of (p, i)). split.
    + apply in_map_iff. exists (p, i). split; [done|]. by apply list_elem_of_In, elem_of_map_sorted.
    + apply in_map_iff. exists q. cbn. split; [by rewrite (proj2 (Hst p i Ei))|]. by apply list_elem_of_In, elem_of_set_sorted.
Qed.

Section result.
Context (Hok : store_ok xp storeDir db0) (db1 db : Db).
Context (En : entered db0 l db1) (Hln : linked db1 (concat (map pairs_of l)) db).

Lemma result_store_ok : store_ok xp storeDir db.
Proof using En Hln.
  split; [apply Hln|]. intros j r. rewrite (ln_rows _ _ _ Hln). apply (proj2 (en_ok _ _ _ En)).
Qed.

Lemma result_path_of j q : path_of db0 j = Some q → path_of db j = Some q.
Proof using En Hln.
  intros Hj. rewrite (path_of_rows _ _ _ (ln_rows _ _ _ Hln)). unfold path_of in Hj. destruct (ValidPaths db0 !! j) as [r|] eqn:Ej; [|done].
  injection Hj as <-. by eapply entered_old_path.
Qed.

Lemma result_valid p : valid db p ↔ valid db0 p ∨ p ∈ dom infos.
Proof using Hst Hok En Hln.
  rewrite !valid_path_of by (apply Hok || apply Hln). split.
  - intros [j Hj]. destruct (ValidPaths db0 !! j) as [r|] eqn:Ej.
    + left. exists j. assert (path_of db0 j = Some (r_path r)) as Hp by (unfold path_of; by rewrite Ej).
      rewrite Hp. apply result_path_of in Hp. congruence.
    + right. unfold path_of in Hj. destruct (ValidPaths db !! j) as [r|] eqn:Er; [|done]. rewrite (ln_rows _ _ _ Hln) in Er.
      destruct (en_new _ _ _ En j r Er Ej) as (x & Hx & Ex). apply row_of_path in Ex. cbn in Hj. injection Hj as Hj. rewrite Ex in Hj.
      apply printStorePath_inj in Hj as <-. destruct (in_infos x Hx) as [Hl _]. by apply elem_of_dom_2 in Hl.
  - intros [[j Hj]|[i Hi]%elem_of_dom]; [exists j; by apply result_path_of|].
    destruct (en_done _ _ _ En (p, i)) as [j Hj]; [by apply elem_of_map_sorted|]. exists j.
    rewrite (path_of_rows _ _ _ (ln_rows _ _ _ Hln)), Hj. cbn. by rewrite (proj2 (Hst p i Hi)).
Qed.

Lemma result_closed p q : q ∈ infos_refs infos p → valid db q.
Proof using Hst Hln.
  intros Hq. apply elem_of_pairs in Hq. destruct (ln_valid _ _ _ Hln _ _ Hq) as [j Hj].
  apply valid_path_of; [apply Hln|]. exists j. by rewrite (path_of_rows _ _ _ (ln_rows _ _ _ Hln)).
Qed.

(** The references of a path: the old ones and the new ones. *)
Lemma result_refs j p q :
  path_of db j = Some (print p) →
  (∃ k, (j, k) ∈ Refs db ∧ path_of db k = Some (print q)) ↔
  (∃ k, (j, k) ∈ Refs db0 ∧ path_of db0 k = Some (print q)) ∨ q ∈ infos_refs infos p.
Proof using Hst Hok En Hln.
  intros Hj. pose proof (λ k, path_of_rows _ _ k (ln_rows _ _ _ Hln)) as Hrows. split.
  - intros (k & Hk & Hq). apply (ln_refs _ _ _ Hln) in Hk as [Hk|(p' & q' & Hin & H1 & H2)]; cbn in *.
    + left. rewrite (en_refs _ _ _ En) in Hk. exists k. split; [done|]. destruct (dw_refs _ (proj1 Hok) _ Hk) as [_ [r Hr]]. cbn in Hr.
      assert (path_of db0 k = Some (r_path r)) as Hp by (unfold path_of; by rewrite Hr). rewrite Hp. apply result_path_of in Hp. congruence.
    + right. rewrite <- Hrows in H1, H2. apply elem_of_pairs.
      assert (print p' = print p) as ->%printStorePath_inj by congruence. assert (print q' = print q) as ->%printStorePath_inj by congruence. done.
  - intros [(k & Hk & Hq)|Hq].
    + exists k. split; [|by apply result_path_of]. apply (ln_refs _ _ _ Hln). left. by rewrite (en_refs _ _ _ En).
    + apply elem_of_pairs in Hq. destruct (ln_valid _ _ _ Hln _ _ Hq) as [k Hk]. exists k. rewrite Hrows. split; [|done].
      apply (ln_refs _ _ _ Hln). right. exists p, q. cbn. by rewrite <- (Hrows j).
Qed.

(** The row of a path and what it was written for. *)
Lemma row_at d p j r :
  store_ok xp storeDir d → ValidPaths d !! j = Some r → r_path r = print p →
  ∃ o t R, storable xp o ∧ row_of xp storeDir t o = Ok r ∧ path o = p ∧
    queryPathInfoInternal xp storeDir p d = Ok (Some (as_read j t R o)) ∧
    ∀ q, q ∈ R ↔ ∃ k, (j, k) ∈ Refs d ∧ path_of d k = Some (print q).
Proof using Hdir.
  intros Hd Hj Hp. destruct (proj2 Hd j r Hj) as (o & t & So & Eo). pose proof (row_of_path _ _ _ Eo) as Ho.
  rewrite Hp in Ho. apply printStorePath_inj in Ho as ->. destruct (query_ok xp storeDir Hdir d j r o t Hd Hj So Eo) as (R & E1 & HR).
  by exists o, t, R.
Qed.

Lemma query_row d p old :
  store_ok xp storeDir d → queryPathInfoInternal xp storeDir p d = Ok (Some old) →
  ∃ j r, ValidPaths d !! j = Some r ∧ r_path r = print p.
Proof using.
  intros Hd Hq. unfold queryPathInfoInternal in Hq. destruct (select_path (print p) d) as [[j r]|] eqn:Es; [|done].
  exists j, r. by apply select_path_Some in Es; [|apply Hd].
Qed.

Lemma result_row j r p : ValidPaths db !! j = Some r → r_path r = print p → path_of db j = Some (print p).
Proof using. intros Hj Hp. unfold path_of. rewrite Hj. cbn. by rewrite Hp. Qed.

Lemma result_new p i :
  infos !! p = Some i → ¬ valid db0 p →
  ∃ rowid, queryPathInfoInternal xp storeDir p db = Ok (Some (as_read rowid time0 (references (info i)) i)).
Proof using Hst Hdir Hok En Hln.
  intros Hi Hv. pose proof (proj2 (result_valid p) (or_intror (elem_of_dom_2 _ _ _ Hi))) as Hv'.
  pose proof result_store_ok as Hok'. apply valid_path_of in Hv' as [j Hj]; [|apply Hok'].
  destruct (ValidPaths db !! j) as [r|] eqn:Er; [|unfold path_of in Hj; by rewrite Er in Hj].
  assert (r_path r = print p) as Hp by (unfold path_of in Hj; rewrite Er in Hj; by injection Hj).
  destruct (ValidPaths db0 !! j) as [r0|] eqn:Er0.
  { destruct Hv. apply valid_path_of; [apply Hok|]. exists j. assert (path_of db0 j = Some (r_path r0)) as H0 by (unfold path_of; by rewrite Er0).
    rewrite H0. apply result_path_of in H0. congruence. }
  pose proof Er as Er1. rewrite (ln_rows _ _ _ Hln) in Er1. destruct (en_new _ _ _ En j r Er1 Er0) as (x & Hx & Ex).
  destruct (in_infos x Hx) as [Hl Sx]. pose proof (row_of_path _ _ _ Ex) as Hpx. rewrite Hp in Hpx. apply printStorePath_inj in Hpx. rewrite <- Hpx, Hi in Hl.
  injection Hl as ->. destruct (query_ok xp storeDir Hdir db j r x.2 time0 Hok' Er Sx Ex) as (R & EQ & HR). exists j. rewrite <- Hpx in EQ. rewrite EQ.
  do 3 f_equal. apply set_eq. intros q. rewrite HR, (result_refs j p q Hj). unfold infos_refs. rewrite Hi. split; [|by right].
  intros [(k & Hk & _)|]; [|done]. destruct (dw_refs _ (proj1 Hok) _ Hk) as [[? Hk'] _]. cbn in Hk'. congruence.
Qed.

Lemma result_update p i old :
  infos !! p = Some i → queryPathInfoInternal xp storeDir p db0 = Ok (Some old) →
  queryPathInfoInternal xp storeDir p db = Ok (Some (reregistered old i)).
Proof using Hst Hdir Hok En Hln.
  intros Hi Hq. destruct (query_row _ _ _ Hok Hq) as (j & r & Hj & Hp). pose proof result_store_ok as Hok'. destruct (Hst p i Hi) as [Si Epi].
  destruct (row_at db0 p j r Hok Hj Hp) as (o & t & R & So & Eo & Ho & EQ & HR). rewrite Hq in EQ. injection EQ as ->.
  destruct (en_old _ _ _ En j r Hj) as (r' & Hr' & Hcase).
  destruct Hcase as [[_ Hn]|(x & Hx & Ex & Eu)].
  { destruct (Hn (p, i)); [by apply elem_of_map_sorted|]. cbn. by rewrite Epi, Hp. }
  rewrite Hp in Ex. apply printStorePath_inj in Ex. destruct (in_infos x Hx) as [Hl _]. rewrite Ex, Hi in Hl. injection Hl as ->.
  destruct (row_of_merged t o x.2 r r' So Si Eo Eu) as [Sm Em]. rewrite <- (ln_rows _ _ _ Hln) in Hr'.
  destruct (query_ok xp storeDir Hdir db j r' (merged o x.2) t Hok' Hr' Sm Em) as (R' & EQ' & HR'). cbn [merged path] in EQ'. rewrite Ho in EQ'.
  rewrite EQ'. unfold as_read, reregistered, merged. cbn. do 4 f_equal. apply set_eq. intros q.
  assert (path_of db j = Some (print p)) as Hpj.
  { apply result_path_of. unfold path_of. rewrite Hj. cbn. by rewrite Hp. }
  rewrite HR', (result_refs j p q Hpj), elem_of_union, HR. unfold infos_refs. by rewrite Hi.
Qed.

Lemma result_other p :
  infos !! p = None → queryPathInfoInternal xp storeDir p db = queryPathInfoInternal xp storeDir p db0.
Proof using Hst Hdir Hok En Hln.
  intros Hi. pose proof result_store_ok as Hok'. destruct (decide (isValidPath_ storeDir p db0 = true)) as [Hv|Hv].
  - apply bool_decide_eq_true in Hv as [[j r] Hs]. apply select_path_Some in Hs as [Hj Hp]; [|apply Hok].
    destruct (row_at db0 p j r Hok Hj Hp) as (o & t & R & So & Eo & Ho & EQ & HR). rewrite EQ.
    destruct (en_old _ _ _ En j r Hj) as (r' & Hr' & [[-> _]|(x & Hx & Ex & _)]).
    2:{ rewrite Hp in Ex. apply printStorePath_inj in Ex. destruct (in_infos x Hx) as [Hl _]. congruence. }
    rewrite <- (ln_rows _ _ _ Hln) in Hr'. destruct (query_ok xp storeDir Hdir db j r o t Hok' Hr' So Eo) as (R' & EQ' & HR').
    rewrite Ho in EQ'. rewrite EQ'. do 3 f_equal. apply set_eq. intros q.
    rewrite HR', (result_refs j p q (result_row _ _ _ Hr' Hp)), HR. unfold infos_refs. rewrite Hi. split; [|by left].
    intros [?|Hq%elem_of_empty]; done.
  - assert (¬ valid db p) as Hv' by (rewrite result_valid; intros [?|[? ?]%elem_of_dom]; [done|congruence]).
    unfold queryPathInfoInternal. unfold valid, isValidPath_ in Hv'. unfold isValidPath_ in Hv. rewrite bool_decide_eq_true in Hv, Hv'.
    apply eq_None_not_Some in Hv as ->. apply eq_None_not_Some in Hv' as ->. done.
Qed.
End result.
End phases.

(** * Invalidation *)

Lemma referrers_ok d p :
  store_ok xp storeDir d → valid d p →
  ∃ j r R, ValidPaths d !! j = Some r ∧ r_path r = print p ∧ queryReferrers storeDir p d = Ok R ∧
    ∀ q, q ∈ R ↔ ∃ k, (k, j) ∈ Refs d ∧ path_of d k = Some (print q).
Proof using Hdir.
  intros Hd Hv. apply bool_decide_eq_true in Hv as [[j r] Hs]. pose proof Hs as Hs'. apply select_path_Some in Hs' as [Hj Hp]; [|apply Hd].
  destruct (parse_paths_ok storeDir Hdir (QueryReferrers (print p) d)) as (R & ER & HR).
  { intros s (k & _ & Hk)%(elem_of_QueryReferrers d (print p) j r s Hs). eapply rows_path; [apply Hd|done]. }
  exists j, r, R. split; [done|]. split; [done|]. split; [done|]. intros q. by rewrite HR, (elem_of_QueryReferrers d (print p) j r).
Qed.

Lemma invalidated_store d d' p j :
  store_ok xp storeDir d → path_of d j = Some (print p) → (∀ k, (k, j) ∈ Refs d → k = j) → db_wf d' →
  ValidPaths d' = delete j (ValidPaths d) → (∀ e, e ∈ Refs d' ↔ e ∈ Refs d ∧ e.1 ≠ j) →
  store_ok xp storeDir d' ∧ queryPathInfoInternal xp storeDir p d' = Ok None ∧
  ∀ q, q ≠ p → queryPathInfoInternal xp storeDir q d' = queryPathInfoInternal xp storeDir q d.
Proof using Hdir.
  intros Hd Hj Hr W' V' R'. assert (store_ok xp storeDir d') as Hd'.
  { split; [done|]. intros k r Hk. rewrite V' in Hk. apply lookup_delete_Some in Hk as [_ Hk]. by apply (proj2 Hd k). }
  assert (∀ k r, ValidPaths d' !! k = Some r ↔ ValidPaths d !! k = Some r ∧ k ≠ j) as Hrow.
  { intros k r. rewrite V', lookup_delete_Some. split; intros [? ?]; split; congruence. }
  split; [done|]. split.
  - unfold queryPathInfoInternal. rewrite (proj2 (select_path_None d' (print p))); [done|]. intros k r [Hk Hne]%Hrow Hp.
    apply Hne. eapply path_of_unique; [apply Hd| |exact Hj]. unfold path_of. rewrite Hk. cbn. by rewrite Hp.
  - intros q Hq. destruct (select_path (print q) d) as [[k r]|] eqn:Es.
    + apply select_path_Some in Es as [Hk Hp]; [|apply Hd]. assert (k ≠ j) as Hne.
      { intros ->. unfold path_of in Hj. rewrite Hk in Hj. cbn in Hj. injection Hj as Hj. rewrite Hp in Hj. by apply printStorePath_inj in Hj. }
      destruct (row_at d q k r Hd Hk Hp) as (o & t & R & So & Eo & Ho & EQ & HR).
      destruct (query_ok xp storeDir Hdir d' k r o t Hd' (proj2 (Hrow k r) (conj Hk Hne)) So Eo) as (R2 & EQ' & HR').
      rewrite Ho in EQ'. rewrite EQ, EQ'. do 3 f_equal. apply set_eq. intros x. rewrite HR, HR'.
      split; intros (m & Hm & Hx); exists m.
      * apply R' in Hm as [Hm _]. split; [done|]. unfold path_of in Hx |- *. destruct (ValidPaths d' !! m) as [rm|] eqn:Em; [|done].
        apply Hrow in Em as [-> _]. done.
      * assert (m ≠ j) as Hmj by (intros ->; by apply Hne, Hr). split; [by apply R'|].
        unfold path_of in Hx |- *. by rewrite V', lookup_delete_ne.
    + unfold queryPathInfoInternal. rewrite Es. rewrite select_path_None in Es. rewrite (proj2 (select_path_None d' (print q))); [done|].
      intros k r [Hk _]%Hrow. by apply (Es k).
Qed.

Lemma invalidatePathChecked_run p s :
  store_ok xp storeDir (ls_db s) → lru_wf (ls_cache s) →
  match invalidatePathChecked storeDir p s with
  | (Ok _, s') => store_ok xp storeDir (ls_db s') ∧ lru_wf (ls_cache s') ∧
      queryPathInfoInternal xp storeDir p (ls_db s') = Ok None ∧
      ∀ q, q ≠ p → queryPathInfoInternal xp storeDir q (ls_db s') = queryPathInfoInternal xp storeDir q (ls_db s)
  | (Throw e, s') => e = PathInUse ∧ s' = s ∧ valid (ls_db s) p ∧
      ∃ q i, q ≠ p ∧ queryPathInfoInternal xp storeDir q (ls_db s) = Ok (Some i) ∧ p ∈ references (info i)
  end.
Proof using Hdir.
  intros Hd Wc. unfold invalidatePathChecked, txn, mbind, LM_bind, query. destruct (isValidPath_ storeDir p (ls_db s)) eqn:Ev; cbn.
  2:{ split; [done|]. split; [done|]. split; [|done]. unfold queryPathInfoInternal.
      apply bool_decide_eq_false, eq_None_not_Some in Ev. by rewrite Ev. }
  destruct (referrers_ok (ls_db s) p Hd Ev) as (j & r & R & Hj & Hp & ER & HR). rewrite ER. case_bool_decide as Hempty.
  - assert (∀ k, (k, j) ∈ Refs (ls_db s) → k = j) as Hself.
    { intros k Hk. destruct (dw_refs _ (proj1 Hd) _ Hk) as [[rk Hrk] _]. cbn in Hrk.
      assert (path_of (ls_db s) k = Some (r_path rk)) as Hpk by (unfold path_of; by rewrite Hrk).
      destruct (rows_path xp storeDir (ls_db s) k (r_path rk) (proj2 Hd) Hpk) as (q & _ & Eq). rewrite Eq in Hpk.
      assert (q ∈ R) as Hq by (apply HR; eauto). assert (q = p) as ->.
      { destruct (decide (q = p)) as [|Hqp]; [done|]. exfalso. apply (elem_of_empty (C := gset StorePath) q). rewrite <- Hempty.
        apply elem_of_difference. by rewrite elem_of_singleton. }
      eapply path_of_unique; [apply Hd|exact Hpk|]. unfold path_of. rewrite Hj. cbn. by rewrite Hp. }
    destruct (InvalidatePath_ok (ls_db s) (print p) j r (proj1 Hd)) as (d' & Ei & W' & V' & R' & _); [by apply select_path_Some; [apply Hd|]|done|].
    unfold invalidatePath, exec, mbind, LM_bind. rewrite Ei. cbn. unfold on_cache. cbn.
    destruct (erase_ok (ls_cache s) (baseName p) Wc) as (c' & Ec & Wc' & _). rewrite Ec. cbn.
    assert (path_of (ls_db s) j = Some (print p)) as Hpj by (unfold path_of; rewrite Hj; cbn; by rewrite Hp).
    destruct (invalidated_store (ls_db s) d' p j Hd Hpj Hself W' V' R') as (? & ? & ?). done.
  - unfold pureR. cbn. split; [done|]. split; [by destruct s|]. split; [done|]. apply set_choose_L in Hempty as [q Hq].
    apply elem_of_difference in Hq as [Hq Hne]. apply HR in Hq as (k & Hk & Hpk).
    destruct (ValidPaths (ls_db s) !! k) as [rk|] eqn:Erk; [|unfold path_of in Hpk; by rewrite Erk in Hpk].
    assert (r_path rk = print q) as Hprk by (unfold path_of in Hpk; rewrite Erk in Hpk; by injection Hpk).
    destruct (row_at (ls_db s) q k rk Hd Erk Hprk) as (o & t & R2 & So & Eo & Ho & EQ & HR2).
    exists q, (as_read k t R2 o). split; [by rewrite not_elem_of_singleton in Hne|]. split; [done|]. cbn. apply HR2. exists j. split; [done|].
    unfold path_of. rewrite Hj. cbn. by rewrite Hp.
Qed.
End register.

(** * The cache stays well formed

    Whether an operation succeeds or throws. *)

Definition keeps {A} (m : LM A) : Prop := ∀ s, lru_wf (ls_cache s) → lru_wf (ls_cache (m s).2).

Create HintDb keeps.

Lemma keeps_ret {A} (a : A) : keeps (mret a).
Proof. by intros s W. Qed.
Lemma keeps_pure {A} (r : result A) : keeps (pureR r).
Proof. by intros s W. Qed.
Lemma keeps_query {A} (f : Db → result A) : keeps (query f).
Proof. by intros s W. Qed.
Lemma keeps_exec f : keeps (exec f).
Proof. intros s W. unfold exec. by destruct (f (ls_db s)). Qed.
Lemma keeps_insert row : keeps (insert_row row).
Proof. intros s W. unfold insert_row. by destruct (RegisterValidPath row (ls_db s)) as [[]|]. Qed.
Lemma keeps_hashes {A} (m : ST A) : keeps (on_hashes m).
Proof. intros s W. unfold on_hashes. by destruct (m (ls_drvHashes s)) as [[]]. Qed.
Lemma keeps_upsert key v : keeps (on_cache (λ c, c ← lru_upsert key v c; Ok (tt, c))).
Proof. intros s W. unfold on_cache. destruct (upsert_ok (ls_cache s) key v W) as (c & -> & Wc & _). done. Qed.
Lemma keeps_bind {A B} (m : LM A) (f : A → LM B) : keeps m → (∀ a, keeps (f a)) → keeps (m ≫= f).
Proof. intros Hm Hf s W. unfold mbind, LM_bind. specialize (Hm s W). destruct (m s) as [[a|e] s']; [by apply Hf|done]. Qed.
Lemma keeps_each {A} (f : A → LM unit) l : (∀ x, keeps (f x)) → keeps (eachL f l).
Proof. intros Hf. induction l; [apply keeps_ret|]. apply keeps_bind; auto. Qed.
Lemma keeps_txn {A} (m : LM A) : keeps m → keeps (txn m).
Proof. intros Hm s W. unfold txn. specialize (Hm s W). by destruct (m s) as [[a|e] s']. Qed.

#[export] Hint Resolve keeps_ret keeps_pure keeps_query keeps_exec keeps_insert keeps_hashes keeps_upsert keeps_bind keeps_each keeps_txn : keeps.

Ltac keeps_tac :=
  repeat first
    [ apply keeps_bind; [|intros ?] | apply keeps_each; intros ? | apply keeps_txn
    | solve [auto with keeps] | case_match ].

Lemma registerValidPaths_keeps xp storeDir hashString readInvalidDerivation fuel time0 now infos :
  keeps (registerValidPaths xp storeDir hashString readInvalidDerivation fuel time0 now infos).
Proof.
  unfold registerValidPaths, register_one, updatePathInfo, addValidPath, cacheDrvOutputMapping, cache_info, add_references, check_derivation.
  keeps_tac.
Qed.

(** * Theorems *)

(** A cold start: an empty database and an empty cache. *)
Definition Local_new (cacheSize : nat) : Local := MkLocal Db_empty (LRUCache_new cacheSize) ∅.

Lemma LRUCache_new_wf {K V} `{Countable K} n : lru_wf (LRUCache_new n : LRUCache K V).
Proof. split; cbn; try constructor; try lia; intros; set_solver. Qed.

Lemma Db_empty_ok xp storeDir : store_ok xp storeDir Db_empty.
Proof. split; [apply Db_empty_wf|]. intros j r Hj. cbn in Hj. by rewrite lookup_empty in Hj. Qed.

(** [C16] Registering paths is atomic, checked and faithful. For storable
    information, [registerValidPaths] either throws, leaves the database as it
    was, and then one of the paths claims a content address that is wrong or
    cannot be rendered, is a derivation that is unreadable or fails its
    checks, refers to a path that is neither valid nor being registered, or
    takes part in a cycle; or it succeeds, and then exactly the given paths
    have become valid, a new path is read back with the information
    registered, a path that was valid before keeps its deriver, identifier and
    registration time and adds the new references to the old ones, every
    other path is read as before, all references lead to valid paths and there
    is no cycle among the paths registered. *)
Theorem registerValidPaths_spec (xp : XpSettings) (storeDir : str) hashString readInvalidDerivation (fuel : nat) (time0 now : Z)
    (infos : ValidPathInfos) (s : Local) :
  store_dir_ok storeDir → store_ok xp storeDir (ls_db s) → lru_wf (ls_cache s) →
  (∀ p i, infos !! p = Some i → storable xp i ∧ path i = p) →
  match registerValidPaths xp storeDir hashString readInvalidDerivation fuel time0 now infos s with
  | (Ok _, s') =>
      store_ok xp storeDir (ls_db s') ∧ lru_wf (ls_cache s') ∧
      (∀ p, valid storeDir (ls_db s') p ↔ valid storeDir (ls_db s) p ∨ p ∈ dom infos) ∧
      (∀ p i, infos !! p = Some i → ¬ valid storeDir (ls_db s) p →
        ∃ rowid, queryPathInfoInternal xp storeDir p (ls_db s') = Ok (Some (as_read rowid time0 (references (info i)) i))) ∧
      (∀ p i old, infos !! p = Some i → queryPathInfoInternal xp storeDir p (ls_db s) = Ok (Some old) →
        queryPathInfoInternal xp storeDir p (ls_db s') = Ok (Some (reregistered old i))) ∧
      (∀ p, infos !! p = None → queryPathInfoInternal xp storeDir p (ls_db s') = queryPathInfoInternal xp storeDir p (ls_db s)) ∧
      (∀ p q, q ∈ infos_refs infos p → valid storeDir (ls_db s') q) ∧
      (∀ p, ¬ tc (edge (dom infos) (infos_refs infos)) p p)
  | (Throw _, s') => rejected xp storeDir hashString readInvalidDerivation fuel (ls_db s) infos ∧ ls_db s' = ls_db s
  end.
Proof.
  intros Hdir Hok Wc Hst.
  pose proof (registerValidPaths_wp xp storeDir hashString readInvalidDerivation fuel time0 now (ls_db s) infos Hst s Hok eq_refl Wc) as Hwp.
  destruct (registerValidPaths _ _ _ _ _ _ _ infos s) as [[u|e] s']; [|done]. destruct Hwp as [(db1 & En & Hln & Hac) Wc'].
  split; [by eapply result_store_ok|]. split; [done|]. split; [intros p; by eapply result_valid|].
  split; [intros p i; by eapply result_new|]. split; [intros p i old; by eapply result_update|].
  split; [intros p; by eapply result_other|]. split; [intros p q; by eapply result_closed|done].
Qed.

(** [C38] Invalidating a path is checked. [invalidatePathChecked] throws, and
    changes nothing, exactly when another valid path refers to the path;
    otherwise the path is not valid any more and every other path is read as
    before. The foreign keys never have to stop it. *)
Theorem invalidatePathChecked_spec (xp : XpSettings) (storeDir : str) (p : StorePath) (s : Local) :
  store_dir_ok storeDir → store_ok xp storeDir (ls_db s) → lru_wf (ls_cache s) →
  match invalidatePathChecked storeDir p s with
  | (Ok _, s') => store_ok xp storeDir (ls_db s') ∧ lru_wf (ls_cache s') ∧
      queryPathInfoInternal xp storeDir p (ls_db s') = Ok None ∧
      ∀ q, q ≠ p → queryPathInfoInternal xp storeDir q (ls_db s') = queryPathInfoInternal xp storeDir q (ls_db s)
  | (Throw e, s') => e = PathInUse ∧ s' = s ∧ valid storeDir (ls_db s) p ∧
      ∃ q i, q ≠ p ∧ queryPathInfoInternal xp storeDir q (ls_db s) = Ok (Some i) ∧ p ∈ references (info i)
  end.
Proof. intros Hdir. by apply invalidatePathChecked_run. Qed.

Section reach.
Context (xp : XpSettings) (storeDir : str) (hashString : HashAlgorithm → str → Hash).
Context (readInvalidDerivation : StorePath → result Derivation) (fuel cacheSize : nat).

(** The stores a process can get to, whatever it registers and invalidates,
    whether the operations succeed or throw. *)
Inductive reaches : Local → Prop :=
  | reach_new : reaches (Local_new cacheSize)
  | reach_register s time0 now infos : reaches s → (∀ p i, infos !! p = Some i → storable xp i ∧ path i = p) →
      reaches (registerValidPaths xp storeDir hashString readInvalidDerivation fuel time0 now infos s).2
  | reach_invalidate s p : reaches s → reaches (invalidatePathChecked storeDir p s).2.
End reach.

(** [C17] The store is closed. In every store a process can get to by
    registering and invalidating paths, whether its operations succeed or
    throw, the database satisfies the constraints of its schema, every row can
    be read, and whatever a valid path refers to is valid. *)
Theorem store_closed (xp : XpSettings) (storeDir : str) hashString readInvalidDerivation (fuel cacheSize : nat) (s : Local) :
  store_dir_ok storeDir → reaches xp storeDir hashString readInvalidDerivation fuel cacheSize s →
  store_ok xp storeDir (ls_db s) ∧
  (∀ p, valid storeDir (ls_db s) p → ∃ i, queryPathInfoInternal xp storeDir p (ls_db s) = Ok (Some i)) ∧
  (∀ p i q, queryPathInfoInternal xp storeDir p (ls_db s) = Ok (Some i) → q ∈ references (info i) → valid storeDir (ls_db s) q).
Proof.
  intros Hdir Hr. assert (store_ok xp storeDir (ls_db s) ∧ lru_wf (ls_cache s)) as [Hok Wc].
  { induction Hr as [|s time0 now infos _ [Hok Wc] Hst|s p _ [Hok Wc]].
    - split; [apply Db_empty_ok|apply LRUCache_new_wf].
    - pose proof (registerValidPaths_keeps xp storeDir hashString readInvalidDerivation fuel time0 now infos s Wc) as Hk.
      pose proof (registerValidPaths_wp xp storeDir hashString readInvalidDerivation fuel time0 now (ls_db s) infos Hst s Hok eq_refl Wc) as Hwp.
      destruct (registerValidPaths _ _ _ _ _ _ _ infos s) as [[u|e] s']; cbn [snd] in *.
      + destruct Hwp as [(db1 & En & Hln & _) _]. split; [by eapply result_store_ok|done].
      + destruct Hwp as [_ ->]. done.
    - pose proof (invalidatePathChecked_run xp storeDir Hdir p s Hok Wc) as Hi.
      destruct (invalidatePathChecked storeDir p s) as [[u|e] s']; cbn [snd]; [by destruct Hi as (? & ? & _)|].
      destruct Hi as (_ & -> & _). done. }
  split; [done|]. split.
  - intros p [[j r] Hs]%bool_decide_eq_true. apply select_path_Some in Hs as [Hj Hp]; [|apply Hok].
    destruct (row_at xp storeDir Hdir (ls_db s) p j r Hok Hj Hp) as (o & t & R & _ & _ & _ & EQ & _). eauto.
  - intros p i q Hq Hin. destruct (query_row xp storeDir _ _ _ Hok Hq) as (j & r & Hj & Hp).
    destruct (row_at xp storeDir Hdir (ls_db s) p j r Hok Hj Hp) as (o & t & R & _ & _ & _ & EQ & HR).
    rewrite Hq in EQ. injection EQ as ->. cbn in Hin. apply HR in Hin as (k & _ & Hk).
    apply valid_path_of; [apply Hok|eauto].
Qed.

(** A registration that is rolled back is still reported as valid. The
    cache of path information is filled by [addValidPath] and not by the
    commit: two paths that refer to each other are refused and the database
    is left empty, but for the process that tried, and for as long as the
    entry is kept, [isValidPath] answers that they are valid and
    [queryPathInfo] returns their information. *)
Theorem rolled_back_path_cached :
  ∃ (infos : ValidPathInfos) (s' : Local) (a : StorePath) (i : ValidPathInfo),
    infos !! a = Some i ∧
    registerValidPaths [] "/bsd/store" zero_hash (λ _, Throw (Error "no such file")) 1 7 0 infos (Local_new 10) =
      (Throw (cycle_error a a), s') ∧
    ls_db s' = Db_empty ∧ isValidPath_ "/bsd/store" a (ls_db s') = false ∧
    (isValidPath "/bsd/store" 1 3600 3600 a s').1 = Ok true ∧
    (queryPathInfo [] "/bsd/store" 1 3600 3600 a s').1 = Ok i.
Proof.
  pose (a := MkStorePath "00000000000000000000000000000000-a"). pose (b := MkStorePath "11111111111111111111111111111111-b").
  pose (mk p q := {| info := {| deriver := None; narHash := zero_hash SHA256 []; references := {[q]}; registrationTime := 0;
    narSize := 120; id := 0; ultimate := false; sigs := ∅; ca := None |}; path := p |}).
  pose (infos := <[a := mk a b]> {[b := mk b a]} : ValidPathInfos).
  exists infos, (registerValidPaths [] "/bsd/store" zero_hash (λ _, Throw (Error "no such file")) 1 7 0 infos (Local_new 10)).2, a, (mk a b).
  split; [reflexivity|]. split; [vm_compute; reflexivity|]. split; [vm_compute; reflexivity|]. split; [vm_compute; reflexivity|].
  split; vm_compute; reflexivity.
Qed.

(** ** Witnesses *)

Definition ex_path (c : ascii) (name : str) : StorePath := MkStorePath (replicate 32 c ++ "-" ++ name).
Definition ex_info (p : StorePath) (refs : gset StorePath) : ValidPathInfo := {|
  info := {| deriver := Some p; narHash := zero_hash SHA256 []; references := refs; registrationTime := 0;
             narSize := 120; id := 0; ultimate := true; sigs := {["key-1:c2ln"%str; "key-2:c2ln"%str]}; ca := None |};
  path := p |}.
Definition ex_lib := ex_path "0" "lib".
Definition ex_app := ex_path "1" "app".
Definition ex_app_info := ex_info ex_app {[ex_lib; ex_app]}.
Definition ex_infos : ValidPathInfos := <[ex_app := ex_app_info]> {[ex_lib := ex_info ex_lib ∅]}.
Definition ex_read (p : StorePath) : result Derivation := Throw (Error "no such file").

Lemma ex_info_storable p refs : sp_wf p → storable [] (ex_info p refs).
Proof.
  intros Hp. split; cbn.
  - done.
  - apply zero_hash_ok.
  - done.
  - by intros d [= <-].
  - lia.
  - intros s [->%elem_of_singleton| ->%elem_of_singleton]%elem_of_union;
      (split; [done|]; split; apply (bool_decide_unpack _); vm_compute; exact I).
  - done.
Qed.

Lemma ex_infos_ok p i : ex_infos !! p = Some i → storable [] i ∧ path i = p.
Proof.
  unfold ex_infos. intros [[<- <-]|[_ [<- <-]%lookup_singleton_Some]]%lookup_insert_Some;
    (split; [apply ex_info_storable; apply (bool_decide_unpack _); vm_compute; exact I|done]).
Qed.

Lemma ex_dir_ok : store_dir_ok "/bsd/store".
Proof. exists ["bsd"; "store"]%str. split; [done|]. split; [|done]. apply (bool_decide_unpack _). vm_compute. exact I. Qed.

Definition ex_store : Local := (registerValidPaths [] "/bsd/store" zero_hash ex_read 1 7 0 ex_infos (Local_new 10)).2.

Lemma registerValidPaths_spec_witness :
  valid "/bsd/store" (ls_db ex_store) ex_app ∧
  ∃ rowid, queryPathInfoInternal [] "/bsd/store" ex_app (ls_db ex_store) = Ok (Some (as_read rowid 7 (references (info ex_app_info)) ex_app_info)).
Proof.
  pose proof (registerValidPaths_spec [] "/bsd/store" zero_hash ex_read 1 7 0 ex_infos (Local_new 10)
    ex_dir_ok (Db_empty_ok _ _) (LRUCache_new_wf _) ex_infos_ok) as H. unfold ex_store.
  assert ((registerValidPaths [] "/bsd/store" zero_hash ex_read 1 7 0 ex_infos (Local_new 10)).1 = Ok tt) as E by (vm_compute; reflexivity).
  destruct (registerValidPaths _ _ _ _ _ _ _ _ _) as [[u|e] s']; [|discriminate E]. destruct H as (_ & _ & Hv & Hn & _). cbn [snd]. split.
  - apply Hv. right. apply (bool_decide_unpack _). vm_compute. exact I.
  - apply (Hn ex_app ex_app_info); [reflexivity|]. vm_compute. discriminate.
Defined.

Lemma ex_reaches : reaches [] "/bsd/store" zero_hash ex_read 1 10 ex_store.
Proof. apply (reach_register _ _ _ _ _ _ _ 7 0 ex_infos); [apply reach_new|apply ex_infos_ok]. Qed.

Lemma ex_store_ok : store_ok [] "/bsd/store" (ls_db ex_store) ∧ lru_wf (ls_cache ex_store).
Proof.
  split; [|apply registerValidPaths_keeps, LRUCache_new_wf].
  pose proof (registerValidPaths_wp [] "/bsd/store" zero_hash ex_read 1 7 0 Db_empty ex_infos ex_infos_ok (Local_new 10)
    (Db_empty_ok _ _) eq_refl (LRUCache_new_wf _)) as Hwp. unfold ex_store.
  destruct (registerValidPaths _ _ _ _ _ _ _ _ _) as [[u|e] s']; cbn [snd].
  - destruct Hwp as [(db1 & En & Hln & _) _]. by eapply result_store_ok.
  - destruct Hwp as [_ ->]. apply Db_empty_ok.
Qed.

Lemma invalidatePathChecked_spec_witness :
  (invalidatePathChecked "/bsd/store" ex_lib ex_store).1 = Throw PathInUse ∧
  ∃ q i, q ≠ ex_lib ∧ queryPathInfoInternal [] "/bsd/store" q (ls_db ex_store) = Ok (Some i) ∧ ex_lib ∈ references (info i).
Proof.
  pose proof (invalidatePathChecked_spec [] "/bsd/store" ex_lib ex_store ex_dir_ok (proj1 ex_store_ok) (proj2 ex_store_ok)) as H.
  assert ((invalidatePathChecked "/bsd/store" ex_lib ex_store).1 = Throw PathInUse) as E by (vm_compute; reflexivity).
  split; [exact E|]. destruct (invalidatePathChecked "/bsd/store" ex_lib ex_store) as [[u|e] s']; [discriminate E|]. apply H.
Defined.

Lemma store_closed_witness :
  ∃ i, queryPathInfoInternal [] "/bsd/store" ex_app (ls_db ex_store) = Ok (Some i) ∧ ex_lib ∈ references (info i) ∧
    valid "/bsd/store" (ls_db ex_store) ex_lib.
Proof.
  destruct (store_closed [] "/bsd/store" zero_hash ex_read 1 10 ex_store ex_dir_ok ex_reaches) as (_ & Hv & Hr).
  destruct (Hv ex_app) as [i Hi]; [vm_compute; reflexivity|]. exists i. split; [exact Hi|].
  assert (ex_lib ∈ references (info i)) as Hin; [|split; [exact Hin|exact (Hr ex_app i ex_lib Hi Hin)]].
  assert (i = default (ex_info ex_app ∅) (match queryPathInfoInternal [] "/bsd/store" ex_app (ls_db ex_store) with Ok r => r | _ => None end)) as ->
    by (by rewrite Hi). apply (bool_decide_unpack _). vm_compute. exact I.
Defined.
