(* ===== verification/Gc.v ===== *)
(** The garbage collector of a local store: [collectGarbage] of
    [libstore/gc.cc], with [computeFSClosure] and [topoSortPaths] of
    [libstore/misc.cc].

    The roots, the names read from the store directory and the directories
    that other processes hold locked are inputs. Queries read the database:
    the cache of path information is transparent for them as long as it agrees
    with the database ([LocalStore]). The unused links and the size of the
    files that share them are not modelled. *)

From S2P Require Import Prelude Strings Xp Hash StorePath ContentAddress PathInfo Derivation DrvHash Graph Lru Database LocalStore.

(** * Closures *)

Section run_closure.
Context {T : Type} `{Countable T, !KeyOrder T} (edges : T → result (gset T)).

(** One schedule of [computeClosure]: the requests are answered in the order
    of the tasks. *)
Definition cl_next (st : cl_state (T := T)) : option (cl_state (T := T)) :=
  match starting st with
  | Some (x :: l) => Some (enqueue x (with_starting (Some l) st))
  | Some [] => Some (with_starting None st)
  | None =>
      match tasks st with
      | [] => None
      | Request x :: ts =>
          match edges x with
          | Ok ch => Some (with_tasks (Loop (set_sorted ch) :: ts) st)
          | Throw e => Some (finish (Some e) (with_tasks ts st))
          end
      | Loop (c :: cs) :: ts => Some (enqueue c (with_tasks (Loop cs :: ts) st))
      | Loop [] :: ts => Some (finish None (with_tasks ts st))
      end
  end.

Fixpoint cl_run (fuel : nat) (st : cl_state (T := T)) : result (gset T) :=
  match fuel with
  | O => Throw NonTermination
  | S fuel =>
      match cl_next st with
      | Some st => cl_run fuel st
      | None => match exc st with None => Ok (res st) | Some e => Throw e end
      end
  end.

(** [U] holds every element the closure can come to. *)
Definition computeClosure (U startElts : gset T) : result (gset T) :=
  cl_run (S (measure edges U (closure_init startElts))) (closure_init startElts).
End run_closure.

(** * Queries of a store *)

Section queries.
Context (xp : XpSettings) (storeDir : str).
(** The realisations of the outputs of a derivation; none unless content-addressed
    derivations are enabled. *)
Context (realised : StorePath → list (str * option StorePath)).

Definition queryPartialDerivationOutputMap (p : StorePath) (db : Db) : result (gmap str (option StorePath)) :=
  outputs ← queryStaticPartialDerivationOutputMap storeDir p db;
  Ok (foldl (λ m (o : str * option StorePath),
        match o.2 with
        | Some q => <[o.1 := Some q]> m
        | None => match m !! o.1 with None => <[o.1 := None]> m | Some _ => m end
        end) outputs (realised p)).

Definition valid_outputs (p : StorePath) (db : Db) : result (list StorePath) :=
  m ← queryPartialDerivationOutputMap p db;
  Ok (omap (λ o : str * option StorePath, match o.2 with
                                          | Some q => if isValidPath_ storeDir q db then Some q else None
                                          | None => None
                                          end) (map_sorted m)).

(** [queryPathInfo] without the cache. *)
Definition path_info (p : StorePath) (db : Db) : result ValidPathInfo :=
  i ← queryPathInfoInternal xp storeDir p db;
  match i with
  | Some i => if goodStorePath p (path i) then Ok i else Throw (InvalidPath "path is not valid")
  | None => Throw (InvalidPath "path is not valid")
  end.

(** [queryDeps] of [computeFSClosure], in both directions. *)
Definition queryDeps (flipDirection includeOutputs includeDerivers : bool) (db : Db) (p : StorePath) : result (gset StorePath) :=
  i ← path_info p db;
  if flipDirection then
    referrers ← queryReferrers storeDir p db;
    derivers ← (if includeOutputs then queryValidDerivers storeDir p db else Ok ∅);
    outs ← (if includeDerivers && isDerivation p then valid_outputs p db else Ok []);
    Ok (referrers ∖ {[p]} ∪ derivers ∪ list_to_set outs)
  else
    outs ← (if includeOutputs && isDerivation p then valid_outputs p db else Ok []);
    Ok (references (info i) ∖ {[p]} ∪ list_to_set outs
        ∪ (if includeDerivers then match deriver (info i) with
                                   | Some d => if isValidPath_ storeDir d db then {[d]} else ∅
                                   | None => ∅
                                   end else ∅)).

(** Everything in the database, and the start. *)
Definition universe (db : Db) (startPaths : gset StorePath) : gset StorePath :=
  startPaths ∪ list_to_set (omap (λ s, match parseStorePath storeDir s with Ok p => Some p | Throw _ => None end) (QueryValidPaths db)).

Definition computeFSClosure (flipDirection includeOutputs includeDerivers : bool) (db : Db) (startPaths : gset StorePath)
    : result (gset StorePath) :=
  computeClosure (queryDeps flipDirection includeOutputs includeDerivers db) (universe db startPaths) startPaths.

Definition topo_children (db : Db) (p : StorePath) : result (gset StorePath) :=
  match path_info p db with
  | Ok i => Ok (references (info i))
  | Throw (InvalidPath _) => Ok ∅
  | Throw e => Throw e
  end.
Definition topoSortPaths (db : Db) (paths : gset StorePath) : result (list StorePath) :=
  topoSort paths (topo_children db) cycle_error.
End queries.

(** * Options, results and state *)

Inductive GCAction := gcReturnLive | gcReturnDead | gcDeleteDead | gcDeleteSpecific.
#[export] Instance GCAction_eq_dec : EqDecision GCAction.
Proof. solve_decision. Defined.

Record GCOptions := {
  action : GCAction;
  ignoreLiveness : bool;
  pathsToDelete : gset StorePath;
  maxFreed : Z;
}.
Record GCResults := { gr_paths : gset str; bytesFreed : Z }.

(** The store and the variables of [collectGarbage]. [gc_files] are the entries
    of the store directory with the bytes their deletion frees. *)
Record GcState := MkGc {
  gc_local : Local;
  gc_files : gmap str Z;
  gc_alive : gset StorePath;
  gc_dead : gset StorePath;
  gc_referrers : gmap StorePath (gset StorePath);
  gc_results : GCResults;
}.
Definition gc_db (s : GcState) : Db := ls_db (gc_local s).

Definition GM (A : Type) : Type := GcState → result A * GcState.
#[export] Instance GM_ret : MRet GM := λ A a s, (Ok a, s).
#[export] Instance GM_bind : MBind GM := λ A B f m s,
  match m s with (Ok a, s) => f a s | (Throw e, s) => (Throw e, s) end.
Definition gthrow {A} (e : exn) : GM A := λ s, (Throw e, s).
Definition gread {A} (f : Db → result A) : GM A := λ s, (f (gc_db s), s).
Definition gstate {A} (f : GcState → A) : GM A := λ s, (Ok (f s), s).
Definition gmodify (f : GcState → GcState) : GM unit := λ s, (Ok tt, f s).
Definition gtry {A} (m : GM A) (h : exn → option (GM A)) : GM A := λ s,
  match m s with
  | (Ok a, s) => (Ok a, s)
  | (Throw e, s) => match h e with Some k => k s | None => (Throw e, s) end
  end.
Definition glocal {A} (m : LM A) : GM A := λ s,
  let '(r, l) := m (gc_local s) in (r, MkGc l (gc_files s) (gc_alive s) (gc_dead s) (gc_referrers s) (gc_results s)).
Fixpoint eachG {A} (f : A → GM unit) (l : list A) : GM unit :=
  match l with [] => mret tt | x :: l => _ ← f x; eachG f l end.

Definition add_alive (ps : gset StorePath) : GM unit := gmodify (λ s,
  MkGc (gc_local s) (gc_files s) (ps ∪ gc_alive s) (gc_dead s) (gc_referrers s) (gc_results s)).
Definition set_dead (p : StorePath) : GM unit := gmodify (λ s,
  MkGc (gc_local s) (gc_files s) (gc_alive s) ({[p]} ∪ gc_dead s) (gc_referrers s) (gc_results s)).
Definition set_referrers (f : gmap StorePath (gset StorePath) → gmap StorePath (gset StorePath)) : GM unit := gmodify (λ s,
  MkGc (gc_local s) (gc_files s) (gc_alive s) (gc_dead s) (f (gc_referrers s)) (gc_results s)).

(** The struct thrown to stop the collection. *)
Definition GCLimitReached : exn := StdException "GCLimitReached".

(** * The collector *)

Section gc.
Context (xp : XpSettings) (storeDir : str) (realised : StorePath → list (str * option StorePath)).
Context (options : GCOptions) (keepOutputs keepDerivations : bool).
(** The roots found, the hash parts of the temporary roots, and the temporary
    directories other processes hold locked. [fuel] bounds the paths one
    search visits. *)
Context (roots : gset StorePath) (tempRoots : gset str) (lockedDir : str → bool) (fuel : nat).

Definition shouldDelete : bool := bool_decide (action options = gcDeleteDead ∨ action options = gcDeleteSpecific).
Definition forced : bool := bool_decide (action options = gcDeleteSpecific) && ignoreLiveness options.
Definition gcKeepOutputs : bool := keepOutputs && negb forced.
Definition gcKeepDerivations : bool := keepDerivations && negb forced.

Definition deleteFromStore (name : str) : GM unit :=
  if hasPrefix name "tmp-" && lockedDir name then mret tt
  else
    _ ← gmodify (λ s, MkGc (gc_local s) (delete name (gc_files s)) (gc_alive s) (gc_dead s) (gc_referrers s)
          {| gr_paths := {[storeDir ++ "/" ++ name]} ∪ gr_paths (gc_results s);
             bytesFreed := u64 (bytesFreed (gc_results s) + default 0 (gc_files s !! name)) |});
    freed ← gstate (λ s, bytesFreed (gc_results s));
    if maxFreed options <? freed then gthrow GCLimitReached else mret tt.

Definition markAlive (start p : StorePath) : GM unit :=
  _ ← add_alive {[p; start]};
  gtry (closure ← gread (λ db, computeFSClosure xp storeDir realised false gcKeepOutputs gcKeepDerivations db {[p]}); add_alive closure)
    (λ e, match e with InvalidPath _ => Some (mret tt) | _ => None end).

(** The paths a search goes on to from a valid path. *)
Definition referrers_of (p : StorePath) : GM (gset StorePath) :=
  cached ← gstate (λ s, gc_referrers s !! p);
  match cached with
  | Some r => mret r
  | None =>
      r ← gread (queryReferrers storeDir p);
      _ ← set_referrers (λ m, <[p := r]> m);
      mret r
  end.
Definition derived_outputs (p : StorePath) (db : Db) : result (list StorePath) :=
  m ← queryPartialDerivationOutputMap storeDir realised p db;
  foldR (λ acc (o : str * option StorePath),
    match o.2 with
    | Some q =>
        if isValidPath_ storeDir q db then
          i ← path_info xp storeDir q db;
          Ok (if bool_decide (deriver (info i) = Some p) then acc ++ [q] else acc)
        else Ok acc
    | None => Ok acc
    end) [] (map_sorted m).

Definition push_all (ps : list StorePath) (vt : gset StorePath * list StorePath) : gset StorePath * list StorePath :=
  foldl (λ (vt : gset StorePath * list StorePath) p, if bool_decide (p ∈ vt.1) then vt else ({[p]} ∪ vt.1, vt.2 ++ [p])) vt ps.

(** The search; [None] when it was broken off because something is alive or
    must not be deleted. *)
Fixpoint search_referrers (fuel : nat) (start : StorePath) (vt : gset StorePath * list StorePath) : GM (option (gset StorePath)) :=
  match vt.2 with
  | [] => mret (Some vt.1)
  | p :: todo =>
      match fuel with
      | O => gthrow NonTermination
      | S fuel =>
          alive ← gstate gc_alive;
          dead ← gstate gc_dead;
          if bool_decide (p ∈ alive) then _ ← add_alive {[start]}; mret None
          else if bool_decide (p ∈ dead) then search_referrers fuel start (vt.1, todo)
          else if bool_decide (p ∈ roots) then _ ← markAlive start p; mret None
          else if bool_decide (action options = gcDeleteSpecific) && bool_decide (p ∉ pathsToDelete options) then mret None
          else if bool_decide (hashPart p ∈ tempRoots) then _ ← markAlive start p; mret None
          else
            valid ← gread (λ db, Ok (isValidPath_ storeDir p db));
            if valid : bool then
              referrers ← referrers_of p;
              outs ← (if gcKeepDerivations && isDerivation p then gread (derived_outputs p) else mret []);
              derivers ← (if gcKeepOutputs then gread (queryValidDerivers storeDir p) else mret ∅);
              search_referrers fuel start (push_all (set_sorted derivers) (push_all outs (push_all (set_sorted referrers) (vt.1, todo))))
            else search_referrers fuel start (vt.1, todo)
      end
  end.

Definition delete_one (p : StorePath) : GM unit :=
  dead ← gstate gc_dead;
  if bool_decide (p ∈ dead) then mret tt
  else
    _ ← set_dead p;
    if shouldDelete then
      gtry (_ ← glocal (invalidatePathChecked storeDir p); _ ← deleteFromStore (baseName p); set_referrers (delete p))
        (λ e, if bool_decide (e = PathInUse) then Some (mret tt) else None)
    else mret tt.

Definition deleteReferrersClosure (start : StorePath) : GM unit :=
  found ← search_referrers fuel start ({[start]}, [start]);
  match found with
  | None => mret tt
  | Some visited =>
      sorted ← gread (λ db, topoSortPaths xp storeDir db visited);
      eachG delete_one sorted
  end.

Definition delete_specific (p : StorePath) : GM unit :=
  _ ← deleteReferrersClosure p;
  dead ← gstate gc_dead;
  if bool_decide (p ∈ dead) then mret tt else gthrow (Error "Cannot delete path since it is still alive").

Definition linksName : str := ".links".

Definition collect_name (name : str) : GM unit :=
  if str_eqb name "." || str_eqb name ".." || str_eqb name linksName then mret tt
  else
    p ← gread (λ _, maybeParseStorePath storeDir (storeDir ++ "/" ++ name));
    match p with Some p => deleteReferrersClosure p | None => deleteFromStore name end.

(** Up to the deletion of unused links; [names] is what [readdir] returns. *)
Definition collectGarbage (names : list str) : GM unit :=
  _ ← (if bool_decide (action options = gcDeleteSpecific) then eachG delete_specific (set_sorted (pathsToDelete options))
       else if 0 <? maxFreed options then
         gtry (eachG collect_name names) (λ e, if bool_decide (e = GCLimitReached) then Some (mret tt) else None)
       else mret tt);
  match action options with
  | gcReturnLive => gmodify (λ s, MkGc (gc_local s) (gc_files s) (gc_alive s) (gc_dead s) (gc_referrers s)
      {| gr_paths := set_map (printStorePath storeDir) (gc_alive s) ∪ gr_paths (gc_results s); bytesFreed := bytesFreed (gc_results s) |})
  | gcReturnDead => gmodify (λ s, MkGc (gc_local s) (gc_files s) (gc_alive s) (gc_dead s) (gc_referrers s)
      {| gr_paths := set_map (printStorePath storeDir) (gc_dead s) ∪ gr_paths (gc_results s); bytesFreed := bytesFreed (gc_results s) |})
  | _ => mret tt
  end.
End gc.

(** * Stores that have lost rows *)

(** [db] is [db0] without some rows and what belongs to them. *)
Record restricts (db0 db : Db) : Prop := {
  rs_rows j r : ValidPaths db !! j = Some r → ValidPaths db0 !! j = Some r;
  rs_refs e : e ∈ Refs db ↔ e ∈ Refs db0 ∧ is_Some (ValidPaths db !! e.1);
  rs_outs x q : DerivationOutputs db !! x = Some q ↔ DerivationOutputs db0 !! x = Some q ∧ is_Some (ValidPaths db !! x.1);
}.

Section restrict.
Context (xp : XpSettings) (storeDir : str) (Hdir : store_dir_ok storeDir).
Abbreviation print := (printStorePath storeDir).
Implicit Types (db : Db) (p q : StorePath).

Lemma restricts_refl db : db_wf db → restricts db db.
Proof using.
  intros W. split; [done| |].
  - intros e. split; [|by intros [? _]]. intros He. split; [done|]. by apply (dw_refs db W).
  - intros x q. split; [|by intros [? _]]. intros Hx. split; [done|]. apply (dw_outs db W). by exists q.
Qed.

Lemma restricts_trans db0 db1 db2 : restricts db0 db1 → restricts db1 db2 → restricts db0 db2.
Proof using.
  intros H1 H2. assert (∀ j, is_Some (ValidPaths db2 !! j) → is_Some (ValidPaths db1 !! j)) as Hs.
  { intros j [r Hr]. exists r. by apply (rs_rows _ _ H2). }
  split.
  - intros j r Hj. by apply (rs_rows _ _ H1), (rs_rows _ _ H2).
  - intros e. rewrite (rs_refs _ _ H2), (rs_refs _ _ H1). split; [tauto|]. intros [? ?]. auto.
  - intros x q. rewrite (rs_outs _ _ H2), (rs_outs _ _ H1). split; [tauto|]. intros [? ?]. auto.
Qed.

Lemma restricts_path_of db0 db j x : restricts db0 db → path_of db j = Some x → path_of db0 j = Some x.
Proof using.
  intros Hr. unfold path_of. destruct (ValidPaths db !! j) as [r|] eqn:E; [|done]. by rewrite (rs_rows _ _ Hr j r E).
Qed.

Lemma restricts_ok db0 db : store_ok xp storeDir db0 → db_wf db → restricts db0 db → store_ok xp storeDir db.
Proof using. intros [_ Hr] W Hs. split; [done|]. intros j r Hj. by apply (Hr j), (rs_rows _ _ Hs). Qed.

(** A path whose row is still there is read as before. *)
Lemma restricts_query db0 db p j :
  store_ok xp storeDir db0 → db_wf db → restricts db0 db → path_of db j = Some (print p) →
  queryPathInfoInternal xp storeDir p db = queryPathInfoInternal xp storeDir p db0.
Proof using Hdir.
  intros Hok W Hr Hj. pose proof (restricts_ok db0 db Hok W Hr) as Hok'.
  destruct (ValidPaths db !! j) as [r|] eqn:Er; [|unfold path_of in Hj; by rewrite Er in Hj].
  assert (r_path r = print p) as Hp by (unfold path_of in Hj; rewrite Er in Hj; by injection Hj).
  destruct (row_at xp storeDir Hdir db p j r Hok' Er Hp) as (o & t & R & So & Eo & Ho & EQ & HR). rewrite EQ.
  destruct (query_ok xp storeDir Hdir db0 j r o t Hok (rs_rows _ _ Hr j r Er) So Eo) as (R0 & EQ0 & HR0). rewrite Ho in EQ0. rewrite EQ0.
  do 3 f_equal. apply set_eq. intros q. rewrite HR, HR0. split; intros (k & Hk & Hq); exists k.
  - apply (rs_refs _ _ Hr) in Hk as [Hk _]. split; [done|]. by eapply restricts_path_of.
  - assert ((j, k) ∈ Refs db) as Hk' by (apply (rs_refs _ _ Hr); split; [done|cbn; by rewrite Er]). split; [done|].
    destruct (dw_refs db W _ Hk') as [_ [rk Hrk]]. cbn in Hrk. unfold path_of in Hq |- *. rewrite (rs_rows _ _ Hr k rk Hrk) in Hq. by rewrite Hrk.
Qed.

(** The effect of [invalidatePathChecked] on the rows. *)
Lemma invalidatePathChecked_rows p s :
  store_ok xp storeDir (ls_db s) → lru_wf (ls_cache s) →
  let s' := (invalidatePathChecked storeDir p s).2 in
  db_wf (ls_db s') ∧ lru_wf (ls_cache s') ∧ restricts (ls_db s) (ls_db s') ∧
  ∀ j r, ValidPaths (ls_db s) !! j = Some r → ValidPaths (ls_db s') !! j = Some r ∨ r_path r = print p.
Proof using Hdir.
  intros Hd Wc. pose proof (restricts_refl _ (proj1 Hd)) as Hrefl.
  unfold invalidatePathChecked, txn, mbind, LM_bind, query. destruct (isValidPath_ storeDir p (ls_db s)) eqn:Ev; cbn.
  2:{ split; [apply Hd|]. auto. }
  destruct (referrers_ok xp storeDir Hdir (ls_db s) p Hd Ev) as (j & r & R & Hj & Hp & ER & HR). rewrite ER. case_bool_decide as Hempty; cbn.
  2:{ split; [apply Hd|]. auto. }
  unfold invalidatePath, exec, mbind, LM_bind.
  destruct (InvalidatePath (print p) (ls_db s)) as [d'|e] eqn:Ei; cbn; [|split; [apply Hd|]; auto].
  destruct (erase_ok (ls_cache s) (baseName p) Wc) as (c' & Ec & Wc' & _). unfold on_cache. cbn. rewrite Ec. cbn.
  assert (select_path (print p) (ls_db s) = Some (j, r)) as Hs by (by apply select_path_Some; [apply Hd|]).
  assert (∀ k, (k, j) ∈ Refs (ls_db s) → k = j) as Hself.
  { intros k Hk. destruct (decide (k = j)) as [|Hne]; [done|]. by rewrite (InvalidatePath_fails _ _ _ _ _ Hs Hk Hne) in Ei. }
  destruct (InvalidatePath_ok (ls_db s) (print p) j r (proj1 Hd) Hs Hself) as (d2 & Ei' & W' & V' & R' & O').
  rewrite Ei in Ei'. assert (d2 = d') as -> by congruence.
  assert (∀ k, is_Some (ValidPaths d' !! k) ↔ is_Some (ValidPaths (ls_db s) !! k) ∧ k ≠ j) as Hv.
  { intros k. rewrite V', lookup_delete_is_Some. split; intros [? ?]; split; congruence. }
  split; [done|]. split; [done|]. split.
  - split.
    + intros k rk Hk. rewrite V' in Hk. by apply lookup_delete_Some in Hk as [_ Hk].
    + intros e. rewrite R', Hv. split; [|by intros (? & ? & ?)]. intros [He Hne]. split; [done|]. split; [|done].
      by apply (dw_refs _ (proj1 Hd) e).
    + intros x q. rewrite O', Hv. split; [|by intros (? & ? & ?)]. intros [Hx Hne]. split; [done|]. split; [|done].
      apply (dw_outs _ (proj1 Hd)). by exists q.
  - intros k rk Hk. destruct (decide (k = j)) as [->|Hne].
    + right. congruence.
    + left. by rewrite V', lookup_delete_ne.
Qed.

(** ** Outputs and derivers *)

Lemma elem_of_QueryValidDerivers db (x a : str) :
  a ∈ QueryValidDerivers x db ↔ ∃ i o, DerivationOutputs db !! (i, o) = Some x ∧ path_of db i = Some a.
Proof using.
  unfold QueryValidDerivers. rewrite list_elem_of_omap. split.
  - intros ([[i o] y] & Hin & E). apply elem_of_map_to_list in Hin. case_bool_decide as Hy; [|done]. cbn in *. subst y. eauto.
  - intros (i & o & Hin & E). exists ((i, o), x). split; [by apply elem_of_map_to_list|]. cbn. by rewrite bool_decide_eq_true_2.
Qed.

Lemma derivers_ok db p R :
  store_ok xp storeDir db → queryValidDerivers storeDir p db = Ok R →
  ∀ a, a ∈ R ↔ ∃ i o, DerivationOutputs db !! (i, o) = Some (print p) ∧ path_of db i = Some (print a).
Proof using Hdir.
  intros Hok HR a. destruct (parse_paths_ok storeDir Hdir (QueryValidDerivers (print p) db)) as (R' & E & HR').
  { intros s (i & o & _ & Hi)%elem_of_QueryValidDerivers. eapply rows_path; [apply Hok|done]. }
  unfold queryValidDerivers in HR. rewrite HR in E. injection E as <-. by rewrite HR', elem_of_QueryValidDerivers.
Qed.

Lemma elem_of_QueryDerivationOutputs db i o s : (o, s) ∈ QueryDerivationOutputs i db ↔ DerivationOutputs db !! (i, o) = Some s.
Proof using.
  unfold QueryDerivationOutputs. rewrite list_elem_of_omap. split.
  - intros ([[k o'] y] & Hin & E). apply elem_of_map_to_list in Hin. case_bool_decide as Hy; [|done]. cbn in *. subst k. by injection E as <- <-.
  - intros Hin. exists ((i, o), s). split; [by apply elem_of_map_to_list|]. cbn. by rewrite bool_decide_eq_true_2.
Qed.

Lemma fold_outputs (l : list (str * str)) (m0 m : gmap str (option StorePath)) :
  foldR (λ (m : gmap str (option StorePath)) (x : str * str), sp ← parseStorePath storeDir x.2; Ok (<[x.1 := Some sp]> m)) m0 l = Ok m →
  (∀ o s s', (o, s) ∈ l → (o, s') ∈ l → s = s') →
  ∀ o x, m !! o = Some x ↔ (∃ s q, (o, s) ∈ l ∧ parseStorePath storeDir s = Ok q ∧ x = Some q) ∨ (m0 !! o = Some x ∧ (o ∉ l.*1)).
Proof using.
  revert m0. induction l as [|[o1 s1] l IH]; intros m0 Hm Hfun o x.
  - cbn in Hm. injection Hm as ->. split; [intros Hx; right; split; [done|]; by apply not_elem_of_nil|].
    intros [(s & q & Hin & _)|[? _]]; [by apply elem_of_nil in Hin|done].
  - cbn [foldR fst snd] in Hm. destruct (parseStorePath storeDir s1) as [q1|] eqn:E1; cbn [mbind result_bind] in Hm; [|done].
    rewrite (IH _ Hm (λ o s s' H1 H2, Hfun o s s' (list_elem_of_further _ _ _ H1) (list_elem_of_further _ _ _ H2))).
    cbn [fmap list_fmap fst]. rewrite not_elem_of_cons. split.
    + intros [(s & q & Hin & Hq & ->)|[Hx Hn]]; [left; exists s, q; split; [by right|done]|].
      apply lookup_insert_Some in Hx as [[<- <-]|[Hne Hx]]; [left; exists s1, q1; split; [by left|done]|]. right. auto.
    + intros [(s & q & Hin & Hq & ->)|(Hx & Hne & Hn)]; [|right; by rewrite lookup_insert_ne].
      apply elem_of_cons in Hin as [[= -> ->]|Hin]; [|left; eauto]. rewrite E1 in Hq. injection Hq as ->.
      destruct (decide (o1 ∈ l.*1)) as [Hin|Hin]; [|right; by rewrite lookup_insert_eq].
      left. apply list_elem_of_fmap in Hin as ([o2 s2] & E & Hin). cbn in E. subst o2. exists s2, q.
      rewrite <- (Hfun o1 s1 s2); [|by left|by right]. rewrite (Hfun o1 s1 s2); [|by left|by right]. split; [done|].
      rewrite <- (Hfun o1 s1 s2); [done|by left|by right].
Qed.

(** The outputs a derivation is recorded with. *)
Lemma static_map_ok db p m :
  db_wf db → queryStaticPartialDerivationOutputMap storeDir p db = Ok m →
  ∃ i, path_of db i = Some (print p) ∧
    ∀ o x, m !! o = Some x ↔ ∃ s q, DerivationOutputs db !! (i, o) = Some s ∧ parseStorePath storeDir s = Ok q ∧ x = Some q.
Proof using.
  intros W. unfold queryStaticPartialDerivationOutputMap. destruct (queryValidPathId storeDir p db) as [i|] eqn:Ei; cbn [mbind result_bind]; [|done].
  intros Hm. exists i. split; [by apply valid_id|].
  intros o x. rewrite (fold_outputs _ _ _ Hm).
  - split.
    + intros [(s & q & Hin & Hq & ->)|[Hx _]]; [|done]. apply elem_of_QueryDerivationOutputs in Hin. eauto.
    + intros (s & q & Hin & Hq & ->). left. exists s, q. by rewrite elem_of_QueryDerivationOutputs.
  - intros o' s s' H1%elem_of_QueryDerivationOutputs H2%elem_of_QueryDerivationOutputs. congruence.
Qed.

Lemma restricts_outputs realised db0 db p i m m0 :
  store_ok xp storeDir db0 → db_wf db → restricts db0 db → path_of db i = Some (print p) →
  queryPartialDerivationOutputMap storeDir realised p db = Ok m → queryPartialDerivationOutputMap storeDir realised p db0 = Ok m0 → m = m0.
Proof using.
  intros Hok W Hr Hi. unfold queryPartialDerivationOutputMap.
  destruct (queryStaticPartialDerivationOutputMap storeDir p db) as [n|] eqn:En; cbn [mbind result_bind]; [|done].
  destruct (queryStaticPartialDerivationOutputMap storeDir p db0) as [n0|] eqn:En0; cbn [mbind result_bind]; [|done].
  destruct (static_map_ok db p n W En) as (j & Hj & Hn). destruct (static_map_ok db0 p n0 (proj1 Hok) En0) as (j0 & Hj0 & Hn0).
  assert (j = i) as -> by (by eapply path_of_unique). pose proof (restricts_path_of _ _ _ _ Hr Hi) as Hi0.
  assert (j0 = i) as -> by (eapply path_of_unique; [apply Hok|done|done]).
  assert (n = n0) as ->; [|congruence]. apply map_eq. intros o. apply option_eq. intros x. rewrite Hn, Hn0.
  split; intros (s & q & Hs & Hq); exists s, q; (split; [|done]); [by apply (rs_outs _ _ Hr) in Hs as [? _]|].
  apply (rs_outs _ _ Hr). split; [done|]. by eapply path_of_Some.
Qed.
End restrict.

Lemma push_all_spec ps vt :
  (push_all ps vt).1 = vt.1 ∪ list_to_set ps ∧ ∀ x, x ∈ (push_all ps vt).2 ↔ x ∈ vt.2 ∨ (x ∈ ps ∧ x ∉ vt.1).
Proof.
  unfold push_all. revert vt. induction ps as [|p ps IH]; intros [V todo]; cbn [foldl list_to_set]; [cbn; set_solver|].
  cbn [fst snd]. case_bool_decide as Hp; destruct (IH (V, todo)) as [E1 E2], (IH ({[p]} ∪ V, todo ++ [p])) as [E3 E4]; cbn [fst snd] in *.
  - clear E3 E4. split; [rewrite E1; set_solver|]. intros x. rewrite E2, elem_of_cons. naive_solver.
  - clear E1 E2. split; [rewrite E3; set_solver|]. intros x. rewrite E4, elem_of_app, list_elem_of_singleton, elem_of_cons, not_elem_of_union, not_elem_of_singleton.
    destruct (decide (x = p)) as [->|]; naive_solver.
Qed.

(** * What is kept *)

Section live.
Context (xp : XpSettings) (storeDir : str) (Hdir : store_dir_ok storeDir) (realised : StorePath → list (str * option StorePath)).
Context (options : GCOptions) (keepOutputs keepDerivations : bool).
Context (roots : gset StorePath) (tempRoots : gset str).
Context (db0 : Db) (files0 : gmap str Z) (Hok0 : store_ok xp storeDir db0).
Abbreviation print := (printStorePath storeDir).

(** As long as [a] is kept, [b] is: [a] refers to [b], or is an output of the
    derivation [b] and derivations are kept, or is a derivation with the
    output [b] and outputs are kept. *)
Inductive holds (a b : StorePath) : Prop :=
  | holds_ref i : queryPathInfoInternal xp storeDir a db0 = Ok (Some i) → b ∈ references (info i) → holds a b
  | holds_drv i m o : gcKeepDerivations options keepDerivations = true → isDerivation b = true → valid storeDir db0 b →
      queryPartialDerivationOutputMap storeDir realised b db0 = Ok m → m !! o = Some (Some a) →
      queryPathInfoInternal xp storeDir a db0 = Ok (Some i) → deriver (info i) = Some b → holds a b
  | holds_out i o : gcKeepOutputs options keepOutputs = true → valid storeDir db0 b →
      path_of db0 i = Some (print a) → DerivationOutputs db0 !! (i, o) = Some (print b) → holds a b.

Definition root (r : StorePath) : Prop := r ∈ roots ∨ hashPart r ∈ tempRoots.
Definition live (p : StorePath) : Prop := ∃ r, root r ∧ rtc holds r p.

Record gc_inv (s : GcState) : Prop := {
  gi_wf : db_wf (gc_db s);
  gi_cache : lru_wf (ls_cache (gc_local s));
  gi_rows : restricts db0 (gc_db s);
  gi_lost j r : ValidPaths db0 !! j = Some r → ValidPaths (gc_db s) !! j = Some r ∨ ∃ p, p ∈ gc_dead s ∧ r_path r = print p;
  gi_dead p : p ∈ gc_dead s → ¬ live p;
  gi_files p : sp_wf p → p ∉ gc_dead s → gc_files s !! baseName p = files0 !! baseName p;
  gi_referrers p R : gc_referrers s !! p = Some R →
    ∀ q k j, (k, j) ∈ Refs (gc_db s) → path_of (gc_db s) k = Some (print q) → path_of (gc_db s) j = Some (print p) → q ∈ R;
}.

Lemma kept_row s p j : gc_inv s → p ∉ gc_dead s → path_of db0 j = Some (print p) → path_of (gc_db s) j = Some (print p).
Proof using.
  intros G Hp Hj. unfold path_of in Hj |- *. destruct (ValidPaths db0 !! j) as [r|] eqn:Er; [|done]. injection Hj as Hj.
  destruct (gi_lost s G j r Er) as [Hr|(q & Hq & Eq)]; [rewrite Hr; cbn; by rewrite Hj|].
  rewrite Hj in Eq. apply printStorePath_inj in Eq as ->. done.
Qed.

Lemma live_holds a b : live a → holds a b → live b.
Proof using. intros (r & Hr & Hp) Hh. exists r. split; [done|]. by eapply rtc_r. Qed.

Lemma inv_ok s : gc_inv s → store_ok xp storeDir (gc_db s).
Proof using Hok0. intros G. by eapply restricts_ok; [|apply G|apply G]. Qed.

(** Whatever keeps a path that has not been collected is found from it. *)
Definition found_from (s : GcState) (p : StorePath) (V : gset StorePath) : Prop :=
  (∀ k j q, (k, j) ∈ Refs (gc_db s) → path_of (gc_db s) k = Some (print q) → path_of (gc_db s) j = Some (print p) → q ∈ V) ∧
  (gcKeepDerivations options keepDerivations = true → isDerivation p = true →
    ∃ m, queryPartialDerivationOutputMap storeDir realised p (gc_db s) = Ok m ∧
      ∀ o q i, m !! o = Some (Some q) → queryPathInfoInternal xp storeDir q (gc_db s) = Ok (Some i) → deriver (info i) = Some p → q ∈ V) ∧
  (gcKeepOutputs options keepOutputs = true →
    ∀ i o q, DerivationOutputs (gc_db s) !! (i, o) = Some (print p) → path_of (gc_db s) i = Some (print q) → q ∈ V).

Lemma holds_found s a b V :
  gc_inv s → holds a b → a ∉ gc_dead s → b ∉ gc_dead s → found_from s b V → a ∈ V.
Proof using Hdir Hok0.
  intros G Hh Ha Hb (F1 & F2 & F3). destruct Hh as [i Hq Hin|i m o Hk Hd Hv Hm Ho Hq Hdr|i o Hk Hv Hi Ho].
  - destruct (query_row xp storeDir _ _ _ Hok0 Hq) as (j & r & Hj & Hp).
    destruct (row_at xp storeDir Hdir db0 a j r Hok0 Hj Hp) as (x & t & R & _ & _ & _ & EQ & HR). rewrite Hq in EQ. injection EQ as ->.
    cbn in Hin. apply HR in Hin as (k & Hk & Hpk).
    assert (path_of db0 j = Some (print a)) as Hpj by (unfold path_of; rewrite Hj; cbn; by rewrite Hp).
    pose proof (kept_row s a j G Ha Hpj) as Hpj'. pose proof (kept_row s b k G Hb Hpk) as Hpk'.
    apply (F1 j k a); [|done|done]. apply (rs_refs _ _ (gi_rows s G)). split; [done|]. by eapply path_of_Some.
  - destruct (F2 Hk Hd) as (m' & Hm' & HF). apply valid_path_of in Hv as [k Hpk]; [|apply Hok0]. pose proof (kept_row s b k G Hb Hpk) as Hpk'.
    rewrite (restricts_outputs xp storeDir realised db0 (gc_db s) b k m' m Hok0 (gi_wf s G) (gi_rows s G) Hpk' Hm' Hm) in HF.
    apply (HF o a i); [done| |done]. rewrite <- Hq. destruct (query_row xp storeDir _ _ _ Hok0 Hq) as (j & r & Hj & Hp).
    eapply (restricts_query xp storeDir Hdir db0 (gc_db s) a j Hok0); [apply G|apply G|]. apply kept_row; [done|done|].
    unfold path_of. rewrite Hj. cbn. by rewrite Hp.
  - pose proof (kept_row s a i G Ha Hi) as Hi'. apply (F3 Hk i o a); [|done].
    apply (rs_outs _ _ (gi_rows s G)). split; [done|]. by eapply path_of_Some.
Qed.

(** A search that was not broken off has found nothing that is kept. *)
Definition searched (s : GcState) (V : gset StorePath) : Prop :=
  ∀ p, p ∈ V → p ∈ gc_dead s ∨
    ¬ root p ∧ (valid storeDir (gc_db s) p → found_from s p V).

Lemma valid_kept s p : gc_inv s → p ∉ gc_dead s → valid storeDir db0 p → valid storeDir (gc_db s) p.
Proof using Hok0.
  intros G Hp Hv. apply valid_path_of in Hv as [j Hj]; [|apply Hok0]. apply valid_path_of; [apply G|]. exists j. by apply kept_row.
Qed.

Lemma holds_valid a b : holds a b → valid storeDir db0 b.
Proof using Hdir Hok0.
  intros [i Hq Hin|i m o _ _ Hv _ _ _ _|i o _ Hv _ _]; [|done|done].
  destruct (query_row xp storeDir _ _ _ Hok0 Hq) as (j & r & Hj & Hp).
  destruct (row_at xp storeDir Hdir db0 a j r Hok0 Hj Hp) as (x & t & R & _ & _ & _ & EQ & HR). rewrite Hq in EQ. injection EQ as ->.
  cbn in Hin. apply HR in Hin as (k & Hk & Hpk). apply valid_path_of; [apply Hok0|]. eauto.
Qed.

Lemma searched_not_live s V p : gc_inv s → searched s V → p ∈ V → ¬ live p.
Proof using Hdir Hok0.
  intros G HV Hp Hl. assert (∀ x, live x → x ∉ gc_dead s) as Hnd by (intros x Hx Hd; by apply (gi_dead s G x)).
  destruct Hl as (r & Hr & Hrp).
  assert (∀ x y, rtc holds x y → live x → y ∈ V → x ∈ V) as Hback.
  { clear -G HV Hnd Hdir Hok0. intros x y Hxy. induction Hxy as [x|x y z Hxy _ IH]; intros Hx Hz; [done|].
    pose proof (live_holds _ _ Hx Hxy) as Hy. specialize (IH Hy Hz). destruct (HV y IH) as [Hd|[_ Hf]]; [by destruct (Hnd y)|].
    eapply (holds_found s x y V G Hxy); [by apply Hnd|by apply Hnd|]. apply Hf. apply valid_kept; [done|by apply Hnd|by eapply holds_valid]. }
  assert (live r) as Hlr by (by exists r). destruct (HV r) as [Hd|[Hn _]]; [by apply (Hback r p)|by apply (Hnd r)|done].
Qed.

(** ** The operations keep the invariant *)

Definition wpg {A} (m : GM A) (Q : A → GcState → Prop) (s : GcState) : Prop :=
  match m s with (Ok a, s') => Q a s' | (Throw _, s') => gc_inv s' end.

Lemma wpg_bind {A B} (m : GM A) (f : A → GM B) Q s : wpg m (λ a, wpg (f a) Q) s → wpg (m ≫= f) Q s.
Proof using. unfold wpg, mbind, GM_bind. by destruct (m s) as [[a|e] s']. Qed.

Lemma wpg_mono {A} (m : GM A) (Q Q' : A → GcState → Prop) s : wpg m Q s → (∀ a s', Q a s' → Q' a s') → wpg m Q' s.
Proof using. unfold wpg. destruct (m s) as [[a|e] s']; eauto. Qed.

Lemma wpg_read {A} (f : Db → result A) Q s : gc_inv s → (∀ a, f (gc_db s) = Ok a → Q a s) → wpg (gread f) Q s.
Proof using. unfold wpg, gread. destruct (f (gc_db s)); eauto. Qed.

Lemma wpg_state {A} (f : GcState → A) Q s : Q (f s) s → wpg (gstate f) Q s.
Proof using. done. Qed.

Lemma wpg_each {A} (I : GcState → Prop) (f : A → GM unit) l s :
  I s → (∀ x s', x ∈ l → I s' → wpg (f x) (λ _, I) s') → wpg (eachG f l) (λ _, I) s.
Proof using.
  revert s. induction l as [|x l IH]; intros s HI Hf; [done|]. cbn [eachG]. apply wpg_bind. eapply wpg_mono; [apply Hf; [by left|done]|].
  intros u s' HI'. apply IH; [done|]. intros y s2 Hy. apply Hf. by right.
Qed.

(** Neither the store nor the set of collected paths changes. *)
Definition same (s s' : GcState) : Prop := gc_local s' = gc_local s ∧ gc_dead s' = gc_dead s ∧ gc_files s' = gc_files s.

Lemma inv_same s s' :
  gc_inv s → same s s' → (∀ p R, gc_referrers s' !! p = Some R →
    ∀ q k j, (k, j) ∈ Refs (gc_db s) → path_of (gc_db s) k = Some (print q) → path_of (gc_db s) j = Some (print p) → q ∈ R) → gc_inv s'.
Proof using.
  intros G (E1 & E2 & E3) HR. assert (gc_db s' = gc_db s) as Ed by (unfold gc_db; by rewrite E1).
  split; rewrite ?Ed, ?E1, ?E2, ?E3; try apply G. exact HR.
Qed.

Lemma same_refl s : same s s.
Proof using. done. Qed.

Lemma same_trans s1 s2 s3 : same s1 s2 → same s2 s3 → same s1 s3.
Proof using. intros (? & ? & ?) (? & ? & ?). unfold same. by split_and!; etrans. Qed.

Lemma same_db s s' : same s s' → gc_db s' = gc_db s.
Proof using. intros (E & _). unfold gc_db. by rewrite E. Qed.

Lemma add_alive_wp ps s : gc_inv s → wpg (add_alive ps) (λ _ s', gc_inv s' ∧ same s s') s.
Proof using. intros G. split; [|done]. apply (inv_same s); [done|done|]. apply (gi_referrers s G). Qed.

Lemma markAlive_wp start p s :
  gc_inv s → wpg (markAlive xp storeDir realised options keepOutputs keepDerivations start p) (λ _ s', gc_inv s' ∧ same s s') s.
Proof using.
  intros G. unfold markAlive. apply wpg_bind. eapply wpg_mono; [by apply add_alive_wp|]. intros u s1 [G1 S1].
  unfold gtry, wpg, mbind, GM_bind, gread. destruct (computeFSClosure _ _ _ _ _ _ _ _) as [c|e].
  - pose proof (add_alive_wp c s1 G1) as [G2 S2]. cbn. split; [done|]. by eapply same_trans.
  - destruct e; try exact G1. by split.
Qed.

Lemma referrers_wp p s :
  gc_inv s → valid storeDir (gc_db s) p →
  wpg (referrers_of storeDir p) (λ R s', gc_inv s' ∧ same s s' ∧
    ∀ k j q, (k, j) ∈ Refs (gc_db s) → path_of (gc_db s) k = Some (print q) → path_of (gc_db s) j = Some (print p) → q ∈ R) s.
Proof using Hdir Hok0.
  intros G Hv. unfold referrers_of. apply wpg_bind, wpg_state. destruct (gc_referrers s !! p) as [R|] eqn:ER.
  - split; [done|]. split; [done|]. intros k j q. by apply (gi_referrers s G p R ER).
  - apply wpg_bind, wpg_read; [done|]. intros R HR. destruct (referrers_ok xp storeDir Hdir (gc_db s) p (inv_ok s G) Hv) as (j & r & R' & Hj & Hp & E & HR').
    rewrite HR in E. injection E as <-. assert (path_of (gc_db s) j = Some (print p)) as Hpj by (unfold path_of; rewrite Hj; cbn; by rewrite Hp).
    assert (∀ k i q, (k, i) ∈ Refs (gc_db s) → path_of (gc_db s) k = Some (print q) → path_of (gc_db s) i = Some (print p) → q ∈ R) as Hin.
    { intros k i q Hk Hq Hi. apply HR'. exists k. split; [|done]. by rewrite <- (path_of_unique _ _ _ _ (gi_wf s G) Hi Hpj). }
    split; [|done]. apply (inv_same s); [done|done|]. cbn. intros p' R'' Hl.
    apply lookup_insert_Some in Hl as [[<- <-]|[_ Hl]]; [intros q k i; by apply Hin|by apply (gi_referrers s G)].
Qed.

Lemma path_info_ok q d i : queryPathInfoInternal xp storeDir q d = Ok (Some i) → path_info xp storeDir q d = Ok i.
Proof using.
  intros Hq. unfold path_info. rewrite Hq. cbn [mbind result_bind].
  assert (path i = q) as ->.
  { unfold queryPathInfoInternal in Hq. destruct (select_path _ _) as [[j r]|]; [|done].
    repeat (match type of Hq with (_ ← ?m; _) = _ => destruct m; cbn [mbind result_bind] in Hq; [|done] end). by injection Hq as <-. }
  unfold goodStorePath. rewrite (bool_decide_eq_true_2 (hashPart q = hashPart q)), (bool_decide_eq_true_2 (sp_name q = sp_name q)) by done.
  by rewrite orb_true_r.
Qed.

Lemma foldR_grows {A B} (f : list B → A → result (list B)) l acc out :
  (∀ acc x acc', f acc x = Ok acc' → ∀ b, b ∈ acc → b ∈ acc') → foldR f acc l = Ok out → ∀ b, b ∈ acc → b ∈ out.
Proof using.
  intros Hf. revert acc. induction l as [|x l IH]; intros acc H b Hb; [by injection H as <-|]. cbn [foldR] in H.
  destruct (f acc x) as [acc'|] eqn:E; [|done]. cbn [mbind result_bind] in H. apply (IH acc' H). by eapply Hf.
Qed.

Lemma derived_outputs_ok p d outs :
  store_ok xp storeDir d → derived_outputs xp storeDir realised p d = Ok outs →
  ∃ m, queryPartialDerivationOutputMap storeDir realised p d = Ok m ∧
    ∀ o q i, m !! o = Some (Some q) → queryPathInfoInternal xp storeDir q d = Ok (Some i) → deriver (info i) = Some p → q ∈ outs.
Proof using.
  intros Hd. unfold derived_outputs. destruct (queryPartialDerivationOutputMap _ _ _ _) as [m|]; cbn [mbind result_bind]; [|done].
  intros Hf. exists m. split; [done|]. intros o q i Ho Hq Hdr. apply elem_of_map_sorted in Ho.
  assert (isValidPath_ storeDir q d = true) as Hv.
  { destruct (query_row xp storeDir _ _ _ Hd Hq) as (j & r & Hj & Hp). apply bool_decide_eq_true. exists (j, r).
    apply select_path_Some; [apply Hd|done]. }
  match type of Hf with foldR ?F _ _ = _ => set (f := F) in Hf end.
  assert (∀ acc x acc', f acc x = Ok acc' → ∀ b, b ∈ acc → b ∈ acc') as Hmono.
  { intros acc [o' [y|]] acc' Hx b Hb; cbn in Hx; [|by injection Hx as <-].
    destruct (isValidPath_ storeDir y d); [|by injection Hx as <-]. destruct (path_info xp storeDir y d) as [iy|]; cbn [mbind result_bind] in Hx; [|done].
    injection Hx as <-. case_bool_decide; [|done]. apply elem_of_app. by left. }
  revert Hf Ho. generalize (@nil StorePath) as acc. induction (map_sorted m) as [|[o' x] l IH]; intros acc Hf Ho; [by apply elem_of_nil in Ho|].
  cbn [foldR] in Hf. apply elem_of_cons in Ho as [Eo|Ho].
  - injection Eo as <- <-. assert (f acc (o, Some q) = Ok (acc ++ [q])) as Ef.
    { unfold f. cbn [snd]. rewrite Hv, (path_info_ok q d i Hq). cbn [mbind result_bind]. by rewrite bool_decide_eq_true_2. }
    rewrite Ef in Hf. cbn [mbind result_bind] in Hf. eapply (foldR_grows f l); [exact Hmono|exact Hf|]. apply elem_of_app. right. by left.
  - destruct (f acc (o', x)) as [acc'|]; cbn [mbind result_bind] in Hf; [|done]. by apply (IH acc').
Qed.

(** ** The search *)

Definition done_with (s : GcState) (V : gset StorePath) (p : StorePath) : Prop :=
  p ∈ gc_dead s ∨ ¬ root p ∧ (valid storeDir (gc_db s) p → found_from s p V).

Lemma done_mono s s' V V' p : same s s' → V ⊆ V' → done_with s V p → done_with s' V' p.
Proof using.
  intros Hs HV [Hd|[Hr Hf]]; unfold done_with; [left; by rewrite (proj1 (proj2 Hs))|]. right. split; [done|].
  unfold found_from. rewrite (same_db _ _ Hs). intros Hv. destruct (Hf Hv) as (F1 & F2 & F3). split; [eauto|]. split; [|eauto].
  intros Hk Hd. destruct (F2 Hk Hd) as (m & Hm & HF). exists m. split; [done|]. eauto.
Qed.

Lemma search_wp n start vt s :
  gc_inv s → (∀ p, p ∈ vt.1 → p ∈ vt.2 ∨ done_with s vt.1 p) →
  wpg (search_referrers xp storeDir realised options keepOutputs keepDerivations roots tempRoots n start vt)
    (λ r s', gc_inv s' ∧ same s s' ∧ match r with Some V => vt.1 ⊆ V ∧ searched s' V | None => True end) s.
Proof using Hdir Hok0.
  revert vt s. induction n as [|n IH]; intros [V [|p todo]] s G Hvt; cbn [search_referrers fst snd]; [|done| |].
  1,2: split; [done|]; split; [done|]; split; [done|]; intros q Hq; destruct (Hvt q Hq) as [Hn|?]; [by apply elem_of_nil in Hn|done].
  apply wpg_bind, wpg_state, wpg_bind, wpg_state.
  case_bool_decide; [apply wpg_bind; eapply wpg_mono; [by apply add_alive_wp|]; intros u s1 [G1 S1]; exact (conj G1 (conj S1 I))|].
  assert (∀ s' V' todo', gc_inv s' → same s s' → V ⊆ V' → (∀ q, q ∈ V' → q ∈ todo' ∨ q ∈ V) → (∀ q, q ∈ todo → q ∈ todo') → done_with s V' p →
    wpg (search_referrers xp storeDir realised options keepOutputs keepDerivations roots tempRoots n start (V', todo'))
      (λ r s', gc_inv s' ∧ same s s' ∧ match r with Some V2 => V ⊆ V2 ∧ searched s' V2 | None => True end) s') as Hgo.
  { intros s' V' todo' G' S' HV Hnew Htodo Hp. eapply wpg_mono; [apply IH; [done|]|].
    - cbn [fst snd]. intros q Hq. destruct (Hnew q Hq) as [?|Hq']; [by left|]. destruct (Hvt q Hq') as [Hc|Hd]; [|right; by eapply done_mono].
      cbn [snd] in Hc. apply elem_of_cons in Hc as [->|Hc]; [right; by apply (done_mono s s' V' V')|left; by apply Htodo].
    - intros r s2 (G2 & S2 & Hr). split; [done|]. split; [by eapply same_trans|]. destruct r as [V2|]; [|done]. destruct Hr as [Hr1 Hr2]. split; [by transitivity V'|done]. }
  case_bool_decide as Hdead; [apply Hgo; [done|done|done|by right|done|by left]|].
  case_bool_decide; [apply wpg_bind; eapply wpg_mono; [by apply markAlive_wp|]; intros u s1 [G1 S1]; exact (conj G1 (conj S1 I))|].
  destruct (bool_decide (action options = gcDeleteSpecific) && bool_decide (p ∉ pathsToDelete options)); [exact (conj G (conj (same_refl s) I))|].
  case_bool_decide; [apply wpg_bind; eapply wpg_mono; [by apply markAlive_wp|]; intros u s1 [G1 S1]; exact (conj G1 (conj S1 I))|].
  assert (¬ root p) as Hroot by (intros [?|?]; done).
  apply wpg_bind, wpg_read; [done|]. intros valid [= Hv]. destruct valid; [|apply Hgo; [done|done|done|by right|done|]; right; split; [done|]; unfold LocalStore.valid; congruence].
  apply wpg_bind. eapply wpg_mono; [by apply referrers_wp|]. intros R s1 (G1 & S1 & HR). apply wpg_bind.
  eapply (wpg_mono _ (λ outs s2, s2 = s1 ∧ (gcKeepDerivations options keepDerivations && isDerivation p = true → derived_outputs xp storeDir realised p (gc_db s) = Ok outs))).
  { destruct (gcKeepDerivations options keepDerivations && isDerivation p); [|done]. apply wpg_read; [done|].
    intros outs Ho. rewrite (same_db _ _ S1) in Ho. done. }
  intros outs s2 [-> Houts]. apply wpg_bind.
  eapply (wpg_mono _ (λ ds s2, s2 = s1 ∧ (gcKeepOutputs options keepOutputs = true → queryValidDerivers storeDir p (gc_db s) = Ok ds))).
  { destruct (gcKeepOutputs options keepOutputs); [|done]. apply wpg_read; [done|]. intros ds Hds. rewrite (same_db _ _ S1) in Hds. done. }
  intros ds s2 [-> Hds].
  destruct (push_all_spec (set_sorted R) (V, todo)) as [A1 A2]. set (vt1 := push_all (set_sorted R) (V, todo)) in *.
  destruct (push_all_spec outs vt1) as [B1 B2]. set (vt2 := push_all outs vt1) in *.
  destruct (push_all_spec (set_sorted ds) vt2) as [C1 C2]. set (vt3 := push_all (set_sorted ds) vt2) in *. cbn [fst snd] in A1, A2.
  destruct vt3 as [V' todo']. cbn [fst snd] in C1, C2.
  assert (∀ q, q ∈ V' ↔ q ∈ V ∨ q ∈ R ∨ q ∈ outs ∨ q ∈ ds) as HV'.
  { intros q. rewrite C1, B1, A1, !elem_of_union, !elem_of_list_to_set, !elem_of_set_sorted. tauto. }
  apply Hgo; [done|done|intros q; rewrite HV'; auto| | |].
  - intros q Hq. destruct (decide (q ∈ V)) as [|Hn]; [by right|left]. apply C2. rewrite elem_of_set_sorted, B2, A2, elem_of_set_sorted, B1, A1, !elem_of_union, !elem_of_list_to_set, elem_of_set_sorted.
    apply HV' in Hq. destruct (decide (q ∈ R)), (decide (q ∈ outs)); tauto.
  - intros q Hq. apply C2. left. apply B2. left. apply A2. by left.
  - right. split; [done|]. intros _. split; [intros k j q Hk Hq1 Hq2; apply HV'; right; left; by eapply HR|]. split.
    + intros Hk Hd. destruct (derived_outputs_ok p (gc_db s) outs (inv_ok s G)) as (m & Hm & HF); [apply Houts; by rewrite Hk, Hd|].
      exists m. split; [done|]. intros o q i Ho Hq Hdr. apply HV'. right. right. left. by eapply HF.
    + intros Hk i o q Ho Hq. apply HV'. right. right. right. apply (derivers_ok xp storeDir Hdir (gc_db s) p ds (inv_ok s G) (Hds Hk)). eauto.
Qed.

(** ** Deletion *)

Context (lockedDir : str → bool) (fuel : nat).

(** Removing a name that no kept path has. *)
Lemma deleteFromStore_wp name s :
  gc_inv s → (∀ p, sp_wf p → baseName p = name → p ∈ gc_dead s) →
  wpg (deleteFromStore storeDir options lockedDir name) (λ _, gc_inv) s.
Proof using.
  intros G Hn. unfold deleteFromStore. destruct (_ && _); [done|]. apply wpg_bind. unfold wpg at 1, gmodify.
  match goal with |- wpg _ _ ?x => set (s' := x) end. assert (gc_inv s') as G'.
  { split; try apply G. intros p Hp Hd. cbn. rewrite lookup_delete_ne; [by apply (gi_files s G)|]. intros E. by apply Hd, Hn. }
  apply wpg_bind, wpg_state. by case_match.
Qed.

Lemma delete_one_wp p s :
  gc_inv s → ¬ live p → wpg (delete_one storeDir options lockedDir p) (λ _, gc_inv) s.
Proof using Hdir Hok0.
  intros G Hp. unfold delete_one. apply wpg_bind, wpg_state. case_bool_decide as Hd; [done|].
  apply wpg_bind. unfold wpg at 1, set_dead, gmodify. match goal with |- wpg _ _ ?x => set (s1 := x) end.
  assert (gc_inv s1) as G1.
  { split; try apply G; cbn.
    - intros j r Hj. destruct (gi_lost s G j r Hj) as [?|(q & Hq & E)]; [by left|right; exists q; split; [set_solver|done]].
    - intros q [->%elem_of_singleton|Hq]%elem_of_union; [done|by apply (gi_dead s G)].
    - intros q Hq Hn. apply (gi_files s G); [done|]. set_solver. }
  destruct (shouldDelete options); [|done].
  assert (∀ h, (∀ e k, h e = Some k → k = (mret tt : GM unit)) → ∀ m, wpg m (λ _, gc_inv) s1 → wpg (gtry m h) (λ _, gc_inv) s1) as Htry.
  { intros h Hh m Hm. unfold wpg, gtry in *. destruct (m s1) as [[a|e] s2]; [done|]. destruct (h e) as [k|] eqn:E; [|done]. by rewrite (Hh e k E). }
  apply Htry; [intros e k; case_bool_decide; intros E; by inversion E|]. clear Htry. apply wpg_bind.
  destruct (invalidatePathChecked_rows xp storeDir Hdir p (gc_local s1) (inv_ok s1 G1) (gi_cache s1 G1)) as (W2 & C2 & R2 & L2).
  unfold wpg at 1, glocal. destruct (invalidatePathChecked storeDir p (gc_local s1)) as [r l2] eqn:Ei. cbn [snd] in *.
  set (s2 := MkGc l2 _ _ _ _ _). assert (gc_inv s2) as G2.
  { split; try apply G1; try done.
    - eapply restricts_trans; [apply (gi_rows s1 G1)|exact R2].
    - intros j x Hj. destruct (gi_lost s1 G1 j x Hj) as [Hx|?]; [|by right]. destruct (L2 j x Hx) as [?|E]; [by left|].
      right. exists p. split; [cbn; set_solver|done].
    - intros q R HR a k j Hk Ha Hj. apply (rs_refs _ _ R2) in Hk as [Hk _].
      eapply (gi_referrers s1 G1 q R HR a k j); [done| |]; by eapply restricts_path_of. }
  destruct r as [u|e]; [|done]. apply wpg_bind. eapply wpg_mono.
  - apply deleteFromStore_wp; [done|]. intros q _ E. apply (inj baseName) in E as ->. cbn. set_solver.
  - intros u' s3 G3. unfold wpg, set_referrers, gmodify. apply (inv_same s3); [done|done|]. cbn.
    intros q R HR. apply lookup_delete_Some in HR as [_ HR]. by apply (gi_referrers s3 G3).
Qed.

Lemma query_total d p : store_ok xp storeDir d → ∃ o, queryPathInfoInternal xp storeDir p d = Ok o.
Proof using Hdir.
  intros Hd. destruct (select_path (print p) d) as [[j r]|] eqn:Es.
  - apply select_path_Some in Es as [Hj Hp]; [|apply Hd]. destruct (row_at xp storeDir Hdir d p j r Hd Hj Hp) as (o & t & R & _ & _ & _ & EQ & _). eauto.
  - exists None. unfold queryPathInfoInternal. by rewrite Es.
Qed.

Definition refs_in (d : Db) (p : StorePath) : gset StorePath :=
  match queryPathInfoInternal xp storeDir p d with Ok (Some i) => references (info i) | _ => ∅ end.

Lemma topo_children_ok d p : store_ok xp storeDir d → topo_children xp storeDir d p = Ok (refs_in d p).
Proof using Hdir.
  intros Hd. unfold topo_children, refs_in. destruct (query_total d p Hd) as [[i|] Hq]; rewrite Hq.
  - by rewrite (path_info_ok p d i Hq).
  - unfold path_info. by rewrite Hq.
Qed.

Lemma topoSortPaths_elems d V l : store_ok xp storeDir d → topoSortPaths xp storeDir d V = Ok l → l ≡ₚ elements V.
Proof using Hdir.
  intros Hd Hl. pose proof (topoSort_ok V (topo_children xp storeDir d) cycle_error (refs_in d) (λ x _, topo_children_ok d x Hd)) as Ht.
  unfold topoSortPaths in Hl. rewrite Hl in Ht. apply Ht.
Qed.

Lemma deleteReferrersClosure_wp start s :
  gc_inv s →
  wpg (deleteReferrersClosure xp storeDir realised options keepOutputs keepDerivations roots tempRoots lockedDir fuel start) (λ _, gc_inv) s.
Proof using Hdir Hok0.
  intros G. unfold deleteReferrersClosure. apply wpg_bind. eapply wpg_mono.
  { apply search_wp; [done|]. cbn [fst snd]. intros p ->%elem_of_singleton. left. by left. }
  intros [V|] s1 (G1 & S1 & HV); [|done]. destruct HV as [_ HV]. apply wpg_bind, wpg_read; [done|]. intros l Hl.
  apply wpg_each; [done|]. intros p s2 Hp G2. apply delete_one_wp; [done|].
  rewrite (topoSortPaths_elems _ _ _ (inv_ok s1 G1) Hl) in Hp. apply elem_of_elements in Hp. exact (searched_not_live s1 V p G1 HV Hp).
Qed.

Lemma delete_specific_wp p s :
  gc_inv s →
  wpg (delete_specific xp storeDir realised options keepOutputs keepDerivations roots tempRoots lockedDir fuel p) (λ _, gc_inv) s.
Proof using Hdir Hok0.
  intros G. apply wpg_bind. eapply wpg_mono; [by apply deleteReferrersClosure_wp|]. intros u s1 G1.
  apply wpg_bind, wpg_state. by case_bool_decide.
Qed.

Lemma collect_name_wp name s :
  gc_inv s →
  wpg (collect_name xp storeDir realised options keepOutputs keepDerivations roots tempRoots lockedDir fuel name) (λ _, gc_inv) s.
Proof using Hdir Hok0.
  intros G. unfold collect_name. destruct (_ || _ || _); [done|]. apply wpg_bind, wpg_read; [done|]. intros [p|] Hp.
  - by apply deleteReferrersClosure_wp.
  - apply deleteFromStore_wp; [done|]. intros q Hq <-. unfold maybeParseStorePath in Hp.
    change (storeDir ++ "/" ++ baseName q) with (print q) in Hp. by rewrite parse_print in Hp.
Qed.

Lemma collectGarbage_inv names s :
  gc_inv s →
  gc_inv (collectGarbage xp storeDir realised options keepOutputs keepDerivations roots tempRoots lockedDir fuel names s).2.
Proof using Hdir Hok0.
  intros G. assert (∀ A (m : GM A), wpg m (λ _, gc_inv) s → gc_inv (m s).2) as Hsnd.
  { intros A m Hm. unfold wpg in Hm. by destruct (m s) as [[a|e] s']. }
  apply Hsnd. unfold collectGarbage. apply wpg_bind. eapply (wpg_mono _ (λ _, gc_inv)).
  - case_bool_decide; [apply wpg_each; [done|]; intros p s' _ G'; by apply delete_specific_wp|]. case_match; [|done].
    assert (wpg (eachG (collect_name xp storeDir realised options keepOutputs keepDerivations roots tempRoots lockedDir fuel) names) (λ _, gc_inv) s) as Hm.
    { apply wpg_each; [done|]. intros x s' _ G'. by apply collect_name_wp. }
    unfold wpg, gtry in *. destruct (eachG _ names s) as [[a|e] s2]; [done|]. by case_bool_decide.
  - intros u s1 G1. destruct (action options); [| |done..]; (apply (inv_same s1); [done|done|apply (gi_referrers s1 G1)]).
Qed.
End live.

(** * Safety *)

Definition gc_start (l : Local) (files : gmap str Z) : GcState := MkGc l files ∅ ∅ ∅ {| gr_paths := ∅; bytesFreed := 0 |}.

Lemma gc_start_inv (xp : XpSettings) (storeDir : str) (realised : StorePath → list (str * option StorePath)) (options : GCOptions)
    (keepOutputs keepDerivations : bool) (roots : gset StorePath) (tempRoots : gset str) (l : Local) (files : gmap str Z) :
  store_ok xp storeDir (ls_db l) → lru_wf (ls_cache l) →
  gc_inv xp storeDir realised options keepOutputs keepDerivations roots tempRoots (ls_db l) files (gc_start l files).
Proof.
  intros Hok Wc. split; cbn; try done.
  - apply Hok.
  - by apply restricts_refl, Hok.
  - auto.
Qed.

(** [C18] The garbage collector keeps what is in use. Whatever the action, the
    limit, the settings and the names found in the store directory, and
    whether the collection ends, stops at its limit or throws: a path that can
    be reached from a root or a temporary root over references, from an output
    to its derivation when derivations are kept and from a derivation to its
    outputs when outputs are kept, is read from the database exactly as
    before, and its files are not touched. *)
Theorem gc_keeps_live (xp : XpSettings) (storeDir : str) (realised : StorePath → list (str * option StorePath)) (options : GCOptions) (keepOutputs keepDerivations : bool)
    (roots : gset StorePath) (tempRoots : gset str) (lockedDir : str → bool) (fuel : nat) (names : list str)
    (l : Local) (files : gmap str Z) (p : StorePath) :
  store_dir_ok storeDir → store_ok xp storeDir (ls_db l) → lru_wf (ls_cache l) →
  live xp storeDir realised options keepOutputs keepDerivations roots tempRoots (ls_db l) p →
  let s' := (collectGarbage xp storeDir realised options keepOutputs keepDerivations roots tempRoots lockedDir fuel names (gc_start l files)).2 in
  queryPathInfoInternal xp storeDir p (gc_db s') = queryPathInfoInternal xp storeDir p (ls_db l) ∧
  (sp_wf p → gc_files s' !! baseName p = files !! baseName p).
Proof.
  intros Hdir Hok Wc Hl s'.
  pose proof (collectGarbage_inv xp storeDir Hdir realised options keepOutputs keepDerivations roots tempRoots (ls_db l) files Hok lockedDir fuel names
    (gc_start l files) (gc_start_inv xp storeDir realised options keepOutputs keepDerivations roots tempRoots l files Hok Wc)) as G.
  fold s' in G. assert (p ∉ gc_dead s') as Hd by (intros Hd; by apply (gi_dead _ _ _ _ _ _ _ _ _ _ _ G p)).
  split; [|intros Hp; by apply (gi_files _ _ _ _ _ _ _ _ _ _ _ G)].
  destruct (select_path (printStorePath storeDir p) (ls_db l)) as [[j r]|] eqn:Es.
  - apply select_path_Some in Es as [Hj Hp]; [|apply Hok]. eapply (restricts_query xp storeDir Hdir (ls_db l) (gc_db s') p j Hok); [apply G|apply G|].
    eapply kept_row; [exact G|done|]. unfold path_of. rewrite Hj. cbn. by rewrite Hp.
  - unfold queryPathInfoInternal. rewrite Es. rewrite select_path_None in Es.
    rewrite (proj2 (select_path_None (gc_db s') _)); [done|]. intros j r Hj. apply (Es j). by apply (rs_rows _ _ (gi_rows _ _ _ _ _ _ _ _ _ _ _ G)).
Qed.
