(* ===== verification/GcComplete.v ===== *)
(** The garbage collector deletes all garbage: a run that deletes dead paths
    without a limit ends, and what it leaves is in use.

    [Gc] shows that nothing in use is deleted. Here the search, the order of
    the deletions and the closures are shown to succeed, so that every path
    of the store directory is either accounted for by a root or gone. *)

From S2P Require Import Prelude Strings Xp Hash CanonPath FileSystem StorePath ContentAddress PathInfo Derivation DrvHash Graph Lru Database LocalStore Gc.

(** * Closures are computed *)

Section closure_run.
Context {T : Type} `{Countable T, !KeyOrder T} (edges : T → result (gset T)) (start U : gset T).
Context (HU : ∀ y, reachable edges start y → y ∈ U).

Lemma cl_next_step st st' : cl_next edges st = Some st' → cl_step edges st st'.
Proof using.
  unfold cl_next. destruct (starting st) as [[|x l]|] eqn:Es.
  - intros [= <-]. by apply step_wait.
  - intros [= <-]. by apply step_start.
  - destruct (tasks st) as [|[x|[|c cs]] ts] eqn:Et; [done| | |].
    + destruct (edges x) as [ch|e] eqn:Ex; intros [= <-]; [by eapply (step_answer _ _ [])|by eapply (step_fail _ _ [])].
    + intros [= <-]. by eapply (step_end _ _ []).
    + intros [= <-]. by eapply (step_child _ _ []).
Qed.

Lemma cl_next_end st : cl_inv edges start st → cl_next edges st = None → returns st.
Proof using.
  intros Hi. unfold cl_next. destruct (starting st) as [[|x l]|] eqn:Es; [done|done|].
  destruct (tasks st) as [|[x|[|c cs]] ts] eqn:Et; [|by destruct (edges x)|done|done].
  intros _. split; [done|]. by rewrite (cl_pending _ _ _ Hi), Et.
Qed.

Lemma cl_run_ok fuel st :
  cl_inv edges start st → (measure edges U st < fuel)%nat →
  match cl_run edges fuel st with
  | Ok R => ∀ y, y ∈ R ↔ reachable edges start y
  | Throw e => ∃ x, reachable edges start x ∧ edges x = Throw e
  end.
Proof using HU.
  revert st. induction fuel as [|fuel IH]; intros st Hi Hf; [lia|]. cbn [cl_run]. destruct (cl_next edges st) as [st'|] eqn:En.
  - apply cl_next_step in En. apply IH; [by eapply cl_step_inv|]. pose proof (step_measure edges start U HU _ _ En Hi). lia.
  - pose proof (cl_next_end st Hi En) as Hr. destruct (inv_returns _ _ _ Hi Hr) as (_ & Hok & Hex).
    destruct (exc st) as [e|] eqn:Ee; [by apply Hex|by apply Hok].
Qed.

Lemma computeClosure_ok :
  match computeClosure edges U start with
  | Ok R => ∀ y, y ∈ R ↔ reachable edges start y
  | Throw e => ∃ x, reachable edges start x ∧ edges x = Throw e
  end.
Proof using HU. apply cl_run_ok; [apply closure_init_inv|lia]. Qed.
End closure_run.

Lemma push_all_measure (X : gset StorePath) ps vt :
  (∀ p, p ∈ ps → p ∈ X) → (size (X ∖ (push_all ps vt).1) + length (push_all ps vt).2 = size (X ∖ vt.1) + length vt.2)%nat.
Proof.
  unfold push_all. revert vt. induction ps as [|p ps IH]; intros [V todo] Hp; [done|]. cbn [foldl fst snd].
  case_bool_decide as Hin; (rewrite IH; [|intros q Hq; apply Hp; by right]); [done|]. cbn [fst snd]. rewrite length_app. cbn [length].
  assert (X ∖ V = {[p]} ∪ X ∖ ({[p]} ∪ V)) as ->.
  { apply set_eq. intros x. rewrite elem_of_union, elem_of_singleton, !elem_of_difference, elem_of_union, elem_of_singleton.
    destruct (decide (x = p)) as [->|]; [|tauto]. split; [auto|]. intros _. split; [apply Hp; by left|done]. }
  unfold size, set_size. cbn. rewrite elements_union_singleton; [cbn; lia|].
  intros [_ Hn]%elem_of_difference. apply Hn, elem_of_union_l, elem_of_singleton. done.
Qed.

Lemma sp_not_tmp p : sp_wf p → hasPrefix (baseName p) "tmp-" = false.
Proof.
  intros [(Hl & Hc & _) _]. apply bool_decide_eq_false_2. intros E. destruct p as [[|c b]]; cbn in *; [lia|].
  injection E as -> _. by apply andb_true_iff in Hc as [Hc _].
Qed.

Lemma split_unique {A} (l k : list A) a l2 k2 : NoDup (l ++ a :: l2) → l ++ a :: l2 = k ++ a :: k2 → l = k.
Proof.
  revert k. induction l as [|x l IH]; intros [|y k] Hnd E; cbn in *; [done| | |].
  - injection E as <- E. apply NoDup_cons in Hnd as [Hn _]. exfalso. apply Hn. rewrite E. apply elem_of_app. right. by left.
  - injection E as -> E. apply NoDup_cons in Hnd as [Hn _]. exfalso. apply Hn. apply elem_of_app. right. by left.
  - injection E as -> E. f_equal. apply IH; [|done]. by apply NoDup_cons in Hnd as [_ Hnd].
Qed.

Lemma maybeParse_tot storeDir path :
  isAbsolute path = true →
  ∃ o, maybeParseStorePath storeDir path = Ok o ∧ match o with Some p => parseStorePath storeDir path = Ok p | None => ∀ p, parseStorePath storeDir path ≠ Ok p end.
Proof.
  intros Ha. unfold maybeParseStorePath. destruct (parseStorePath storeDir path) as [p|e] eqn:E; [by exists (Some p)|].
  assert (∃ m, e = BadStorePath m) as [m ->]; [|by exists None].
  unfold parseStorePath, canonPath in E. destruct (str_eqb path "") eqn:Ee; [by apply str_eqb_true in Ee as ->|]. rewrite Ha in E.
  cbn [negb assertR mbind result_bind] in E. apply str_eqb_false in Ee. rewrite canonPathInner_spec in E by done. cbn [mbind result_bind] in E.
  destruct (str_eqb _ _); [|injection E as <-; by eexists].
  pose proof (StorePath_new_spec (baseNameOf (abs (render (normalize path))))) as Hn. rewrite E in Hn. apply Hn.
Qed.

Lemma omap_length_le {A B} (f : A → option B) l : (length (omap f l) <= length l)%nat.
Proof. induction l as [|x l IH]; [done|]. cbn. destruct (f x); cbn; lia. Qed.
Lemma list_to_set_size_le (l : list StorePath) : (size (list_to_set l : gset StorePath) <= length l)%nat.
Proof.
  induction l as [|x l IH]; [cbn; by rewrite size_empty|]. cbn. rewrite size_union_alt, size_singleton.
  pose proof (subseteq_size (list_to_set l ∖ {[x]} : gset StorePath) (list_to_set l) ltac:(set_solver)). lia.
Qed.

Lemma universe_size storeDir db start : (size (universe storeDir db {[start]} ∖ {[start]}) <= size (ValidPaths db))%nat.
Proof.
  unfold universe. set (l := omap _ _). assert (length l <= size (ValidPaths db))%nat as Hl.
  { unfold l. etrans; [apply omap_length_le|]. unfold QueryValidPaths. by rewrite length_map, length_map_to_list. }
  etrans; [|exact Hl]. rewrite <- (list_to_set_size_le l). apply subseteq_size. set_solver.
Qed.

(** * What is left *)

Section complete.
Context (xp : XpSettings) (storeDir : str) (Hdir : store_dir_ok storeDir) (realised : StorePath → list (str * option StorePath)).
Context (options : GCOptions) (keepOutputs keepDerivations : bool).
Context (roots : gset StorePath) (tempRoots : gset str).
Context (db0 : Db) (files0 : gmap str Z) (Hok0 : store_ok xp storeDir db0).
Abbreviation print := (printStorePath storeDir).
Abbreviation KO := (gcKeepOutputs options keepOutputs).
Abbreviation KD := (gcKeepDerivations options keepDerivations).
Abbreviation inv := (gc_inv xp storeDir realised options keepOutputs keepDerivations roots tempRoots db0 files0).
Abbreviation keeps_alive := (holds xp storeDir realised options keepOutputs keepDerivations db0).
Abbreviation is_root := (root roots tempRoots).

(** The outputs recorded for derivations are store paths. *)
Definition outs_ok (db : Db) : Prop := ∀ x s, DerivationOutputs db !! x = Some s → ∃ q, sp_wf q ∧ s = print q.
(** No path refers to itself through another one. *)
Definition ref_edge (db : Db) (a b : StorePath) : Prop := a ≠ b ∧ ∃ i, queryPathInfoInternal xp storeDir a db = Ok (Some i) ∧ b ∈ references (info i).
Context (Houts : outs_ok db0) (Hacyclic : ∀ p, ¬ tc (ref_edge db0) p p).

(** The closure of a root also follows the deriver and all outputs. *)
Definition forward (a b : StorePath) : Prop := ∃ S, queryDeps xp storeDir realised false KO KD db0 a = Ok S ∧ b ∈ S.
Definition link (a b : StorePath) : Prop := keeps_alive a b ∨ forward a b.
Definition kept (p : StorePath) : Prop := ∃ r, is_root r ∧ rtc link r p.

Lemma kept_link a b : kept a → link a b → kept b.
Proof using. intros (r & Hr & Hp) Hl. exists r. split; [done|]. by eapply rtc_r. Qed.

Lemma kept_rtc a b : kept a → rtc keeps_alive a b → kept b.
Proof using. intros Ha Hab. induction Hab as [|a b c Hab _ IH]; [done|]. apply IH. apply (kept_link a); [done|by left]. Qed.

Record complete_inv (s : GcState) : Prop := {
  ci_inv : inv s;
  ci_alive x : x ∈ gc_alive s → kept x;
  ci_referrers p R : gc_referrers s !! p = Some R → ∀ q, q ∈ R → keeps_alive q p ∧ sp_wf q;
  ci_dead p : p ∈ gc_dead s → ¬ valid storeDir (gc_db s) p ∧ gc_files s !! baseName p = None;
}.

(** ** Queries of what is left of the store *)

Section queries.
Context (s : GcState) (G : inv s).
Abbreviation db := (gc_db s).

Lemma valid_before p : valid storeDir db p → valid storeDir db0 p.
Proof using Hok0 G.
  intros Hv. apply valid_path_of in Hv as [j Hj]; [|apply G]. apply valid_path_of; [apply Hok0|]. exists j.
  eapply restricts_path_of; [apply G|done].
Qed.

Lemma query_before p i : queryPathInfoInternal xp storeDir p db = Ok (Some i) → queryPathInfoInternal xp storeDir p db0 = Ok (Some i).
Proof using Hdir Hok0 G.
  intros Hq. destruct (query_row xp storeDir _ _ _ (inv_ok _ _ _ _ _ _ _ _ _ _ Hok0 s G) Hq) as (j & r & Hj & Hp). rewrite <- Hq. symmetry.
  eapply (restricts_query xp storeDir Hdir db0 db p j Hok0); [apply G|apply G|]. unfold path_of. rewrite Hj. cbn. by rewrite Hp.
Qed.

Lemma valid_sp_wf p : valid storeDir db p → sp_wf p.
Proof using Hok0 G.
  intros Hv. apply valid_path_of in Hv as [j Hj]; [|apply G]. apply (rows_path xp storeDir) in Hj as (q & Hq & E); [|by apply (inv_ok _ _ _ _ _ _ _ _ _ _ Hok0 s G)].
  by apply printStorePath_inj in E as ->.
Qed.

Lemma valid_query p : valid storeDir db p ↔ ∃ i, queryPathInfoInternal xp storeDir p db = Ok (Some i).
Proof using Hdir Hok0 G.
  pose proof (inv_ok _ _ _ _ _ _ _ _ _ _ Hok0 s G) as Hok. split.
  - intros [[j r] Hs]%bool_decide_eq_true. apply select_path_Some in Hs as [Hj Hp]; [|apply G].
    destruct (row_at xp storeDir Hdir db p j r Hok Hj Hp) as (o & t & R & _ & _ & _ & EQ & _). eauto.
  - intros [i Hq]. destruct (query_row xp storeDir _ _ _ Hok Hq) as (j & r & Hj & Hp). apply bool_decide_eq_true. exists (j, r).
    apply select_path_Some; [apply G|done].
Qed.

Lemma output_map_ok p : valid storeDir db p → ∃ m, queryPartialDerivationOutputMap storeDir realised p db = Ok m ∧ queryPartialDerivationOutputMap storeDir realised p db0 = Ok m.
Proof using Hdir Hok0 Houts G.
  intros Hv. assert (∀ d, db_wf d → restricts db0 d → valid storeDir d p → ∃ m, queryPartialDerivationOutputMap storeDir realised p d = Ok m) as Htot.
  { intros d W Hr Hvd. unfold queryPartialDerivationOutputMap, queryStaticPartialDerivationOutputMap. apply valid_path_of in Hvd as [j Hj]; [|done].
    rewrite (proj2 (valid_id storeDir d p j W) Hj). cbn [mbind result_bind].
    enough (∀ l m0, (∀ o x, (o, x) ∈ l → ∃ q, sp_wf q ∧ x = print q) →
      ∃ m, foldR (λ (m : gmap str (option StorePath)) (x : str * str), sp ← parseStorePath storeDir x.2; Ok (<[x.1 := Some sp]> m)) m0 l = Ok m) as Hf.
    { destruct (Hf (QueryDerivationOutputs j d) ∅) as [m ->]; [|by eexists]. intros o x Hin%elem_of_QueryDerivationOutputs.
      apply (rs_outs _ _ Hr) in Hin as [Hin _]. by eapply Houts. }
    clear -Hdir. induction l as [|[o x] l IH]; intros m0 Hl; [by eexists|]. cbn [foldR snd fst].
    destruct (Hl o x) as (q & Hq & ->); [by left|]. rewrite parse_print by done. cbn [mbind result_bind]. apply IH. intros o' x' Hx. apply (Hl o'). by right. }
  destruct (Htot db) as [m Hm]; [apply G|apply G|done|]. destruct (Htot db0) as [m0 Hm0]; [apply Hok0|apply restricts_refl, Hok0|by apply valid_before|].
  exists m. split; [done|]. apply valid_path_of in Hv as [j Hj]; [|apply G].
  by rewrite (restricts_outputs xp storeDir realised db0 db p j m m0 Hok0 (gi_wf _ _ _ _ _ _ _ _ _ _ _ G) (gi_rows _ _ _ _ _ _ _ _ _ _ _ G) Hj Hm Hm0).
Qed.

(** ** Backwards *)

Lemma referrer_holds k j q p :
  (k, j) ∈ Refs db → path_of db k = Some (print q) → path_of db j = Some (print p) → keeps_alive q p ∧ sp_wf q.
Proof using Hdir Hok0 G.
  intros Hk Hq Hp. pose proof (inv_ok _ _ _ _ _ _ _ _ _ _ Hok0 s G) as Hok.
  assert (valid storeDir db q) as Hv by (apply valid_path_of; [apply G|eauto]). split; [|by apply valid_sp_wf].
  destruct (ValidPaths db !! k) as [r|] eqn:Er; [|unfold path_of in Hq; by rewrite Er in Hq].
  assert (r_path r = print q) as Hrq by (unfold path_of in Hq; rewrite Er in Hq; by injection Hq).
  destruct (row_at xp storeDir Hdir db q k r Hok Er Hrq) as (o & t & R & _ & _ & _ & EQ & HR).
  eapply holds_ref; [by apply query_before|]. cbn. apply HR. eauto.
Qed.

Lemma derivers_total p : ∃ R, queryValidDerivers storeDir p db = Ok R ∧ ∀ q, q ∈ R → valid storeDir db p → KO = true → keeps_alive q p ∧ sp_wf q.
Proof using Hdir Hok0 G.
  pose proof (inv_ok _ _ _ _ _ _ _ _ _ _ Hok0 s G) as Hok.
  destruct (parse_paths_ok storeDir Hdir (QueryValidDerivers (print p) db)) as (R & E & _).
  { intros x (i & o & _ & Hi)%elem_of_QueryValidDerivers. eapply rows_path; [apply Hok|done]. }
  exists R. split; [done|]. intros q Hq Hv Hk. apply (derivers_ok xp storeDir Hdir db p R Hok E) in Hq as (i & o & Ho & Hi).
  assert (valid storeDir db q) as Hvq by (apply valid_path_of; [apply G|eauto]). split; [|by apply valid_sp_wf].
  eapply (holds_out _ _ _ _ _ _ _ _ _ i o); [done|by apply valid_before| |].
  - eapply restricts_path_of; [apply G|done].
  - by apply (rs_outs _ _ (gi_rows _ _ _ _ _ _ _ _ _ _ _ G)) in Ho as [? _].
Qed.

Lemma foldR_total {A B} (f : list B → A → result (list B)) (P : B → Prop) l acc :
  (∀ acc x, x ∈ l → Forall P acc → ∃ acc', f acc x = Ok acc' ∧ Forall P acc') → Forall P acc → ∃ out, foldR f acc l = Ok out ∧ Forall P out.
Proof using.
  revert acc. induction l as [|x l IH]; intros acc Hf Ha; [by exists acc|]. cbn [foldR].
  destruct (Hf acc x) as (acc' & -> & Ha'); [by left|done|]. cbn [mbind result_bind]. apply IH; [|done].
  intros a y Hy. apply Hf. by right.
Qed.

Lemma derived_total p :
  valid storeDir db p → isDerivation p = true → KD = true →
  ∃ outs, derived_outputs xp storeDir realised p db = Ok outs ∧ ∀ q, q ∈ outs → keeps_alive q p ∧ sp_wf q.
Proof using Hdir Hok0 Houts G.
  intros Hv Hd Hk. destruct (output_map_ok p Hv) as (m & Hm & Hm0). unfold derived_outputs. rewrite Hm. cbn [mbind result_bind].
  setoid_rewrite <- Forall_forall. apply foldR_total; [|constructor]. intros acc [o [q|]] Hin Ha; cbn [snd]; [|eauto].
  apply elem_of_map_sorted in Hin. destruct (isValidPath_ storeDir q db) eqn:Ev; [|eauto].
  destruct (proj1 (valid_query q) Ev) as [i Hq]. rewrite (path_info_ok xp storeDir q db i Hq). cbn [mbind result_bind].
  eexists. split; [done|]. case_bool_decide as Hdr; [|done]. apply Forall_app. split; [done|]. apply Forall_singleton. split; [|by apply valid_sp_wf].
  eapply holds_drv; [done|done|by apply valid_before|done|done|by apply query_before|done].
Qed.

(** ** Forwards *)

Lemma path_info_cases p :
  (∃ i, path_info xp storeDir p db = Ok i ∧ queryPathInfoInternal xp storeDir p db = Ok (Some i)) ∨
  (∃ m, path_info xp storeDir p db = Throw (InvalidPath m)).
Proof using Hdir Hok0 G.
  destruct (query_total xp storeDir Hdir db p (inv_ok _ _ _ _ _ _ _ _ _ _ Hok0 s G)) as [[i|] Hq].
  - left. exists i. split; [by apply path_info_ok|done].
  - right. unfold path_info. rewrite Hq. by eexists.
Qed.

Lemma deps_ok a :
  (∃ m, queryDeps xp storeDir realised false KO KD db a = Throw (InvalidPath m)) ∨
  (∃ S, queryDeps xp storeDir realised false KO KD db a = Ok S ∧ ∀ b, b ∈ S → forward a b ∧ valid storeDir db b).
Proof using Hdir Hok0 Houts G.
  destruct (path_info_cases a) as [(i & Hi & Hq)|(m & Hm)]; unfold queryDeps at 1 2; [rewrite Hi|rewrite Hm; cbn; eauto]. right. cbn [mbind result_bind].
  pose proof (query_before a i Hq) as Hq0. pose proof (path_info_ok xp storeDir a db0 i Hq0) as Hi0.
  assert (valid storeDir db a) as Hv by (apply valid_query; eauto). destruct (output_map_ok a Hv) as (m & Hm & Hm0).
  set (outs d := omap (λ o : str * option StorePath, match o.2 with Some q => if isValidPath_ storeDir q d then Some q else None | None => None end) (map_sorted m)).
  assert ((if KO && isDerivation a then valid_outputs storeDir realised a db else Ok []) = Ok (if KO && isDerivation a then outs db else [])) as ->.
  { destruct (KO && isDerivation a); [|done]. unfold valid_outputs. by rewrite Hm. }
  cbn [mbind result_bind]. eexists. split; [reflexivity|]. intros b Hb. unfold forward.
  assert (queryDeps xp storeDir realised false KO KD db0 a = Ok (references (info i) ∖ {[a]} ∪ list_to_set (if KO && isDerivation a then outs db0 else [])
    ∪ (if KD then match deriver (info i) with Some d => if isValidPath_ storeDir d db0 then {[d]} else ∅ | None => ∅ end else ∅))) as E0.
  { unfold queryDeps. rewrite Hi0. cbn [mbind result_bind]. destruct (KO && isDerivation a); [|done]. unfold valid_outputs. by rewrite Hm0. }
  rewrite !elem_of_union in Hb. assert (valid storeDir db b) as Hvb.
  { destruct Hb as [[Hb|Hb]|Hb].
    - apply elem_of_difference in Hb as [Hb _]. pose proof (inv_ok _ _ _ _ _ _ _ _ _ _ Hok0 s G) as Hok.
      destruct (query_row xp storeDir _ _ _ Hok Hq) as (j & r & Hj & Hp). destruct (row_at xp storeDir Hdir db a j r Hok Hj Hp) as (x & t & R & _ & _ & _ & EQ & HR).
      rewrite Hq in EQ. injection EQ as ->. apply HR in Hb as (k & _ & Hk). apply valid_path_of; [apply G|eauto].
    - apply elem_of_list_to_set in Hb. destruct (KO && isDerivation a); [|by apply elem_of_nil in Hb].
      apply list_elem_of_omap in Hb as ([o [q|]] & _ & E); cbn in E; [|done]. by destruct (isValidPath_ storeDir q db) eqn:Ev; [injection E as <-|].
    - destruct KD; [|by apply elem_of_empty in Hb]. destruct (deriver (info i)) as [d|]; [|by apply elem_of_empty in Hb].
      destruct (isValidPath_ storeDir d db) eqn:Ev; [by apply elem_of_singleton in Hb as ->|by apply elem_of_empty in Hb]. }
  split; [|done]. eexists. split; [exact E0|]. rewrite !elem_of_union. destruct Hb as [[Hb|Hb]|Hb]; [auto| |].
  - left. right. apply elem_of_list_to_set. apply elem_of_list_to_set in Hb. destruct (KO && isDerivation a); [|done].
    apply list_elem_of_omap in Hb as ([o [q|]] & Hin & E); cbn in E; [|done]. destruct (isValidPath_ storeDir q db) eqn:Ev; [|done]. injection E as ->.
    apply list_elem_of_omap. exists (o, Some b). split; [done|]. cbn. by rewrite (valid_before b Ev).
  - right. destruct KD; [|done]. destruct (deriver (info i)) as [d|]; [|done].
    destruct (isValidPath_ storeDir d db) eqn:Ev; [|by apply elem_of_empty in Hb]. by rewrite (valid_before d Ev).
Qed.

Lemma universe_valid start y : valid storeDir db y → y ∈ universe storeDir db start.
Proof using Hdir Hok0 G.
  intros Hv. unfold universe. apply elem_of_union_r, elem_of_list_to_set, list_elem_of_omap. exists (print y).
  rewrite parse_print; [|done|by apply valid_sp_wf]. split; [|done].
  apply valid_path_of in Hv as [j Hj]; [|apply G]. unfold path_of in Hj. destruct (ValidPaths db !! j) as [r|] eqn:Er; [|done]. injection Hj as Hj.
  apply list_elem_of_In, in_map_iff. exists (j, r). split; [done|]. by apply list_elem_of_In, elem_of_map_to_list.
Qed.

(** The closure that marks a root alive. *)
Lemma closure_kept p :
  kept p →
  (∃ m, computeFSClosure xp storeDir realised false KO KD db {[p]} = Throw (InvalidPath m)) ∨
  (∃ R, computeFSClosure xp storeDir realised false KO KD db {[p]} = Ok R ∧ ∀ y, y ∈ R → kept y).
Proof using Hdir Hok0 Houts G.
  intros Hp. set (edges := queryDeps xp storeDir realised false KO KD db).
  assert (∀ a b, leads edges a b → forward a b ∧ valid storeDir db b) as Hlead.
  { intros a b (S & ES & Hb). destruct (deps_ok a) as [(m & E)|(S' & E & HS)]; unfold edges in ES; rewrite E in ES; [done|]. injection ES as ->. by apply HS. }
  assert (∀ a y, rtc (leads edges) a y → y = a ∨ valid storeDir db y) as Hreach.
  { intros a y Hay. apply rtc_inv_r in Hay as [->|(z & _ & Hz)]; [by left|right; by apply (Hlead z)]. }
  assert (∀ z, reachable edges {[p]} z → z ∈ universe storeDir db {[p]}) as HU.
  { intros z (x & ->%elem_of_singleton & Hz). destruct (Hreach p z Hz) as [->|Hv]; [apply elem_of_union_l, elem_of_singleton; done|by apply universe_valid]. }
  pose proof (computeClosure_ok edges {[p]} (universe storeDir db {[p]}) HU) as Hc. unfold computeFSClosure. fold edges.
  destruct (computeClosure edges _ _) as [R|e].
  - right. exists R. split; [done|]. intros y Hy. apply Hc in Hy as (x & ->%elem_of_singleton & Hxy).
    clear Hreach Hc HU. revert Hp. induction Hxy as [|a b c Hab _ IH]; intros Ha; [done|]. apply IH. apply (kept_link a); [done|right; by apply Hlead].
  - left. destruct Hc as (x & _ & Hx). destruct (deps_ok x) as [(m & E)|(S & E & _)]; unfold edges in Hx; rewrite E in Hx; [|done].
    injection Hx as <-. eauto.
Qed.
End queries.

(** ** The search ends *)

Definition tot {A} (m : GM A) (Q : A → GcState → Prop) (s : GcState) : Prop := ∃ a s', m s = (Ok a, s') ∧ Q a s'.

Lemma tot_bind {A B} (m : GM A) (f : A → GM B) Q s : tot m (λ a, tot (f a) Q) s → tot (m ≫= f) Q s.
Proof using. intros (a & s' & E & b & s2 & E2 & HQ). exists b, s2. split; [|done]. unfold mbind, GM_bind. by rewrite E. Qed.

Lemma tot_ret {A} (a : A) (Q : A → GcState → Prop) s : Q a s → tot (mret a) Q s.
Proof using. intros HQ. by exists a, s. Qed.

Lemma tot_state {A} (f : GcState → A) Q s : Q (f s) s → tot (gstate f) Q s.
Proof using. intros HQ. by exists (f s), s. Qed.

Lemma tot_read {A} (f : Db → result A) (a : A) Q s : f (gc_db s) = Ok a → Q a s → tot (gread f) Q s.
Proof using. intros E HQ. exists a, s. split; [|done]. unfold gread. by rewrite E. Qed.

Lemma tot_mono {A} (m : GM A) (Q Q' : A → GcState → Prop) s : tot m Q s → (∀ a s', Q a s' → Q' a s') → tot m Q' s.
Proof using. intros (a & s' & E & HQ) H. exists a, s'. split; [done|]. by apply H. Qed.

Lemma add_alive_tot ps s :
  complete_inv s → (∀ p, p ∈ ps → kept p) → tot (add_alive ps) (λ _ s', complete_inv s' ∧ ps ⊆ gc_alive s') s.
Proof using.
  intros C Hps. eexists _, _. split; [reflexivity|]. split; [|cbn; intros x Hx; by apply elem_of_union_l]. split; cbn; try apply C.
  - apply (inv_same _ _ _ _ _ _ _ _ _ _ s); [apply C|done|]. apply (gi_referrers _ _ _ _ _ _ _ _ _ _ _ (ci_inv s C)).
  - intros x [Hx|Hx]%elem_of_union; [by apply Hps|by apply (ci_alive s C)].
Qed.

Lemma markAlive_tot start p s :
  complete_inv s → kept p → kept start →
  tot (markAlive xp storeDir realised options keepOutputs keepDerivations start p) (λ _ s', complete_inv s' ∧ start ∈ gc_alive s') s.
Proof using Hdir Hok0 Houts.
  intros C Hp Hs. unfold markAlive. apply tot_bind. eapply tot_mono.
  { apply (add_alive_tot {[p; start]}); [done|]. intros x Hx. apply elem_of_union in Hx as [->%elem_of_singleton| ->%elem_of_singleton]; done. }
  intros u s1 [C1 A1]. assert (start ∈ gc_alive s1) as Hst by (apply A1, elem_of_union_r, elem_of_singleton; done).
  unfold tot, gtry, mbind, GM_bind, gread. destruct (closure_kept s1 (ci_inv s1 C1) p Hp) as [(m & ->)|(R & -> & HR)].
  - by exists tt, s1.
  - destruct (add_alive_tot R s1 C1 HR) as ([] & s2 & E & C2 & _). rewrite E. exists tt, s2. split; [done|]. split; [done|].
    unfold add_alive, gmodify in E. injection E as <-. cbn. by apply elem_of_union_r.
Qed.

Lemma referrers_tot p s :
  complete_inv s → valid storeDir (gc_db s) p →
  tot (referrers_of storeDir p) (λ R s', complete_inv s' ∧ same s s' ∧ ∀ q, q ∈ R → keeps_alive q p ∧ sp_wf q) s.
Proof using Hdir Hok0.
  intros C Hv. unfold referrers_of. apply tot_bind, tot_state. destruct (gc_referrers s !! p) as [R|] eqn:ER.
  - apply tot_ret. split; [done|]. split; [done|]. by apply (ci_referrers s C).
  - destruct (referrers_ok xp storeDir Hdir (gc_db s) p (inv_ok _ _ _ _ _ _ _ _ _ _ Hok0 s (ci_inv s C)) Hv) as (j & r & R & Hj & Hp & E & HR).
    assert (path_of (gc_db s) j = Some (print p)) as Hpj by (unfold path_of; rewrite Hj; cbn; by rewrite Hp).
    apply tot_bind. eapply tot_read; [exact E|]. apply tot_bind. eexists _, _. split; [reflexivity|]. apply tot_ret.
    assert (∀ q, q ∈ R → keeps_alive q p ∧ sp_wf q) as HRk.
    { intros q Hq. apply HR in Hq as (k & Hk & Hpk). by eapply (referrer_holds s (ci_inv s C)). }
    split; [|done]. split; cbn; try apply C.
    + apply (inv_same _ _ _ _ _ _ _ _ _ _ s); [apply C|done|]. cbn. intros p' R' Hl. apply lookup_insert_Some in Hl as [[<- <-]|[_ Hl]].
      * intros q k i Hk Hq Hi. apply HR. exists k. split; [|done]. by rewrite <- (path_of_unique _ _ _ _ (gi_wf _ _ _ _ _ _ _ _ _ _ _ (ci_inv s C)) Hi Hpj).
      * by apply (gi_referrers _ _ _ _ _ _ _ _ _ _ _ (ci_inv s C)).
    + intros p' R' Hl. apply lookup_insert_Some in Hl as [[<- <-]|[_ Hl]]; [done|by apply (ci_referrers s C)].
Qed.

(** Everything the search can come to. *)
Definition U (start : StorePath) : gset StorePath := universe storeDir db0 {[start]}.

Lemma holds_in_U start q p : keeps_alive q p → q ∈ U start.
Proof using Hdir Hok0 files0 roots tempRoots.
  intros Hh. assert (inv (gc_start (MkLocal db0 (LRUCache_new 0) ∅) files0)) as G0.
  { apply (gc_start_inv xp storeDir realised options keepOutputs keepDerivations roots tempRoots (MkLocal db0 (LRUCache_new 0) ∅) files0); [done|apply LRUCache_new_wf]. }
  apply (universe_valid _ G0). apply (valid_query _ G0). unfold gc_db. cbn. destruct Hh as [i Hq _|i m o _ _ _ _ _ Hq _|i o _ _ Hi _]; [eauto|eauto|].
  apply (valid_query _ G0). apply valid_path_of; [apply Hok0|eauto].
Qed.

Context (Haction : action options = gcDeleteDead).

Lemma search_tot n start vt s :
  complete_inv s → (∀ x, x ∈ vt.1 → rtc keeps_alive x start ∧ sp_wf x) → (∀ x, x ∈ vt.2 → x ∈ vt.1) →
  (size (U start ∖ vt.1) + length vt.2 <= n)%nat →
  tot (search_referrers xp storeDir realised options keepOutputs keepDerivations roots tempRoots n start vt)
    (λ r s', complete_inv s' ∧ match r with Some V => ∀ x, x ∈ V → sp_wf x | None => start ∈ gc_alive s' end) s.
Proof using Hdir Hok0 Houts Haction.
  revert vt s. induction n as [|n IH]; intros [V [|p todo]] s C HV Htodo Hn; cbn [search_referrers fst snd] in *;
    [apply tot_ret; split; [done|]; intros x Hx; by apply HV|cbn in Hn; lia|apply tot_ret; split; [done|]; intros x Hx; by apply HV|].
  destruct (HV p) as [Hps Hwp]; [apply Htodo; by left|]. cbn [length] in Hn.
  apply tot_bind, tot_state, tot_bind, tot_state. case_bool_decide as Ha.
  { apply tot_bind. eapply tot_mono; [apply (add_alive_tot {[start]}); [done|]|].
    - intros x ->%elem_of_singleton. eapply kept_rtc; [|done]. by apply (ci_alive s C).
    - intros u s1 [C1 A1]. apply tot_ret. split; [done|]. apply A1, elem_of_singleton. done. }
  assert (is_root p → tot (_ ← markAlive xp storeDir realised options keepOutputs keepDerivations start p; (mret None : GM (option (gset StorePath))))
    (λ r s', complete_inv s' ∧ match r with Some V => ∀ x, x ∈ V → sp_wf x | None => start ∈ gc_alive s' end) s) as Hmark.
  { intros Hr. assert (kept p) as Hk by (by exists p). apply tot_bind. eapply tot_mono; [apply markAlive_tot; [done|done|by eapply kept_rtc]|].
    intros u s1 [C1 A1]. by apply tot_ret. }
  assert (∀ q, q ∈ todo → q ∈ V) as Htodo' by (intros q Hq; apply Htodo; by right).
  case_bool_decide as Hd; [apply (IH (V, todo)); [done|done|done|cbn; lia]|].
  case_bool_decide as Hr; [apply Hmark; by left|]. rewrite (bool_decide_eq_false_2 (action options = gcDeleteSpecific)) by (by rewrite Haction). cbn [andb].
  case_bool_decide as Ht; [apply Hmark; by right|]. apply tot_bind. eapply tot_read; [reflexivity|].
  destruct (isValidPath_ storeDir p (gc_db s)) eqn:Ev; [|apply (IH (V, todo)); [done|done|done|cbn; lia]].
  apply tot_bind. eapply tot_mono; [by apply referrers_tot|]. intros R s1 (C1 & S1 & HR). pose proof (same_db _ _ S1) as Ed.
  assert (valid storeDir (gc_db s1) p) as Hv1 by (unfold valid; by rewrite Ed). apply tot_bind.
  eapply (tot_mono _ (λ outs s2, s2 = s1 ∧ ∀ q, q ∈ outs → keeps_alive q p ∧ sp_wf q)).
  { destruct (KD && isDerivation p) eqn:Ek; [|apply tot_ret; split; [done|]; intros q Hq; by apply elem_of_nil in Hq].
    apply andb_true_iff in Ek as [Ek1 Ek2]. destruct (derived_total s1 (ci_inv s1 C1) p Hv1 Ek2 Ek1) as (outs & Eo & Ho). by eapply tot_read. }
  intros outs s2 [-> Houts']. apply tot_bind.
  eapply (tot_mono _ (λ ds s2, s2 = s1 ∧ ∀ q, q ∈ ds → keeps_alive q p ∧ sp_wf q)).
  { destruct KO eqn:Ek; [|apply tot_ret; split; [done|]; intros q Hq; by apply elem_of_empty in Hq].
    destruct (derivers_total s1 (ci_inv s1 C1) p) as (ds & Eds & Hds). eapply tot_read; [done|]. split; [done|]. intros q Hq. by apply Hds. }
  intros ds s2 [-> Hds].
  assert (∀ ps vt, (∀ q, q ∈ ps → keeps_alive q p ∧ sp_wf q) → (∀ x, x ∈ vt.1 → rtc keeps_alive x start ∧ sp_wf x) → (∀ x, x ∈ vt.2 → x ∈ vt.1) →
    (size (U start ∖ vt.1) + length vt.2 <= n)%nat →
    (∀ x, x ∈ (push_all ps vt).1 → rtc keeps_alive x start ∧ sp_wf x) ∧ (∀ x, x ∈ (push_all ps vt).2 → x ∈ (push_all ps vt).1) ∧
    (size (U start ∖ (push_all ps vt).1) + length (push_all ps vt).2 <= n)%nat) as Hpush.
  { intros ps vt Hps' H1 H2 H3. destruct (push_all_spec ps vt) as [E1 E2]. rewrite push_all_measure by (intros q Hq; by eapply holds_in_U, Hps').
    rewrite E1. split; [|split; [|done]].
    - intros x Hx. apply elem_of_union in Hx as [Hx|Hx]; [by apply H1|]. apply elem_of_list_to_set, Hps' in Hx as [Hx1 Hx2].
      split; [by eapply rtc_l|done].
    - intros x Hx. apply E2 in Hx as [Hx|[Hx _]]; [apply elem_of_union_l; by apply H2|apply elem_of_union_r; by apply elem_of_list_to_set]. }
  destruct (Hpush (set_sorted R) (V, todo)) as (A1 & A2 & A3); [intros q Hq%elem_of_set_sorted; by apply HR|done|done|cbn [fst snd]; lia|].
  destruct (Hpush outs _ Houts' A1 A2 A3) as (B1 & B2 & B3).
  destruct (Hpush (set_sorted ds) _ (λ q Hq, Hds q (proj1 (elem_of_set_sorted _ _) Hq)) B1 B2 B3) as (D1 & D2 & D3). by apply IH.
Qed.

(** ** Deleting what was found *)

Context (lockedDir : str → bool) (Hmax : maxFreed options = 2 ^ 64 - 1).

Lemma deleteFromStore_run name s :
  hasPrefix name "tmp-" && lockedDir name = false →
  deleteFromStore storeDir options lockedDir name s =
    (Ok tt, MkGc (gc_local s) (delete name (gc_files s)) (gc_alive s) (gc_dead s) (gc_referrers s)
      {| gr_paths := {[storeDir ++ "/" ++ name]} ∪ gr_paths (gc_results s);
         bytesFreed := u64 (bytesFreed (gc_results s) + default 0 (gc_files s !! name)) |}).
Proof using Hmax.
  intros Hn. unfold deleteFromStore. rewrite Hn. unfold mbind, GM_bind, gmodify, gstate. cbn.
  rewrite (proj2 (Z.ltb_ge _ _)); [done|]. rewrite Hmax. unfold u64. pose proof (Z.mod_pos_bound (bytesFreed (gc_results s) + default 0 (gc_files s !! name)) (2 ^ 64)). lia.
Qed.

Lemma delete_one_dead a s : a ∈ gc_dead s → delete_one storeDir options lockedDir a s = (Ok tt, s).
Proof using. intros Hd. unfold delete_one, mbind, GM_bind, gstate. by rewrite bool_decide_eq_true_2. Qed.

(** The state once [a] has been deleted. *)
Definition dropped (a : StorePath) (s : GcState) (l' : Local) : GcState :=
  MkGc l' (delete (baseName a) (gc_files s)) (gc_alive s) ({[a]} ∪ gc_dead s) (delete a (gc_referrers s))
    {| gr_paths := {[storeDir ++ "/" ++ baseName a]} ∪ gr_paths (gc_results s);
       bytesFreed := u64 (bytesFreed (gc_results s) + default 0 (gc_files s !! baseName a)) |}.

Lemma delete_one_run a s u l' :
  a ∉ gc_dead s → sp_wf a → invalidatePathChecked storeDir a (gc_local s) = (Ok u, l') →
  delete_one storeDir options lockedDir a s = (Ok tt, dropped a s l').
Proof using Hmax Haction.
  intros Hd Hw E. unfold delete_one, mbind, GM_bind, gstate. rewrite bool_decide_eq_false_2 by done. unfold set_dead, gmodify.
  assert (shouldDelete options = true) as -> by (apply bool_decide_eq_true; by left). unfold gtry, glocal. cbn [gc_local]. rewrite E.
  by rewrite deleteFromStore_run by (by rewrite sp_not_tmp).
Qed.

(** Nothing that is still valid refers to the next path in line. *)
Section line.
Context (s1 : GcState) (G1 : inv s1) (V : gset StorePath) (HV : searched xp storeDir realised options keepOutputs keepDerivations roots tempRoots s1 V).
Context (HVwf : ∀ x, x ∈ V → sp_wf x).
Context (sorted : list StorePath) (Hsorted : topoSortPaths xp storeDir (gc_db s1) V = Ok sorted).

Lemma line_order l1 a l2 q :
  sorted = l1 ++ a :: l2 → q ∈ V → q ≠ a → a ∈ refs_in xp storeDir (gc_db s1) q → q ∈ l1.
Proof using Hdir Hok0 Hsorted G1.
  intros El Hq Hne Ha. pose proof (inv_ok _ _ _ _ _ _ _ _ _ _ Hok0 s1 G1) as Hok.
  pose proof (topoSort_ok V (topo_children xp storeDir (gc_db s1)) cycle_error (refs_in xp storeDir (gc_db s1))
    (λ x _, topo_children_ok xp storeDir Hdir (gc_db s1) x Hok)) as Ht.
  unfold topoSortPaths in Hsorted. rewrite Hsorted in Ht. destruct Ht as (Hp & Hc & _).
  assert (q ∈ sorted) as Hin by (rewrite Hp; by apply elem_of_elements). apply list_elem_of_split in Hin as (m1 & m2 & Em).
  assert (a ∈ sorted) as Hina by (rewrite El; apply elem_of_app; right; by left).
  assert (a ∈ m2) as Hm2.
  { assert (a ∈ reverse m2) as H; [|by rewrite elem_of_reverse in H]. apply (Hc (reverse m2) q (reverse m1)).
    - rewrite Em, reverse_app, reverse_cons. by rewrite <- app_assoc.
    - split; [done|]. split; [done|]. rewrite Hp in Hina. by apply elem_of_elements in Hina. }
  assert (NoDup sorted) as Hnd by (rewrite Hp; apply NoDup_elements). apply list_elem_of_split in Hm2 as (n1 & n2 & ->).
  assert (l1 = m1 ++ q :: n1) as ->; [|apply elem_of_app; right; by left].
  apply (split_unique l1 (m1 ++ q :: n1) a l2 n2); [by rewrite <- El|]. rewrite <- El, Em. by rewrite <- app_assoc.
Qed.

Definition evolved (s : GcState) : Prop :=
  restricts (gc_db s1) (gc_db s) ∧ (∀ x, x ∈ gc_dead s1 → x ∈ gc_dead s) ∧ gc_files s ⊆ gc_files s1.

Lemma no_referrers l1 a l2 s q i :
  sorted = l1 ++ a :: l2 → complete_inv s → evolved s → (∀ x, x ∈ l1 → x ∈ gc_dead s) → a ∉ gc_dead s → a ∈ V →
  valid storeDir (gc_db s) a → q ≠ a → queryPathInfoInternal xp storeDir q (gc_db s) = Ok (Some i) → a ∈ references (info i) → False.
Proof using Hdir Hok0 Hsorted G1 HV.
  intros El C (Hr & Hd & _) Hl1 Ha HaV Hva Hne Hq Hin. pose proof (inv_ok _ _ _ _ _ _ _ _ _ _ Hok0 s1 G1) as Hok1.
  pose proof (inv_ok _ _ _ _ _ _ _ _ _ _ Hok0 s (ci_inv s C)) as Hok. destruct (query_row xp storeDir _ _ _ Hok Hq) as (j & r & Hj & Hp).
  assert (path_of (gc_db s) j = Some (print q)) as Hpj by (unfold path_of; rewrite Hj; cbn; by rewrite Hp).
  assert (queryPathInfoInternal xp storeDir q (gc_db s1) = Ok (Some i)) as Hq1.
  { rewrite <- Hq. symmetry. eapply (restricts_query xp storeDir Hdir (gc_db s1) (gc_db s) q j Hok1); [apply C|done|done]. }
  destruct (HV a HaV) as [Hdead|[_ Hf]]; [by apply Ha, Hd|].
  assert (valid storeDir (gc_db s1) a) as Hva1.
  { apply valid_path_of in Hva as [k Hk]; [|apply Hok]. apply valid_path_of; [apply Hok1|]. exists k. by eapply restricts_path_of. }
  assert (q ∈ V) as HqV.
  { destruct (Hf Hva1) as (F1 & _). pose proof (rs_rows _ _ Hr j r Hj) as Hj1.
    destruct (row_at xp storeDir Hdir (gc_db s1) q j r Hok1 Hj1 Hp) as (o & t & R & _ & _ & _ & EQ & HR). rewrite Hq1 in EQ. injection EQ as ->.
    cbn in Hin. apply HR in Hin as (k & Hk & Hpk). apply (F1 j k q); [done| |done]. by eapply restricts_path_of. }
  assert (q ∈ gc_dead s) as Hqd.
  { apply Hl1. eapply line_order; [done|done|done|]. unfold refs_in. by rewrite Hq1. }
  destruct (ci_dead s C q Hqd) as [Hnv _]. apply Hnv. apply (valid_query s (ci_inv s C)). eauto.
Qed.

Lemma delete_one_tot l1 a l2 s :
  sorted = l1 ++ a :: l2 → complete_inv s → evolved s → (∀ x, x ∈ l1 → x ∈ gc_dead s) → a ∈ V →
  tot (delete_one storeDir options lockedDir a) (λ _ s', complete_inv s' ∧ evolved s' ∧ (∀ x, x ∈ l1 ++ [a] → x ∈ gc_dead s') ∧ gc_alive s' = gc_alive s) s.
Proof using Hdir Hok0 Hsorted G1 HV HVwf Hmax Haction.
  intros El C Hev Hl1 HaV. pose proof (inv_ok _ _ _ _ _ _ _ _ _ _ Hok0 s (ci_inv s C)) as Hok.
  pose proof (delete_one_wp xp storeDir Hdir realised options keepOutputs keepDerivations roots tempRoots db0 files0 Hok0 lockedDir a s (ci_inv s C)
    (searched_not_live xp storeDir Hdir realised options keepOutputs keepDerivations roots tempRoots db0 files0 Hok0 s1 V a G1 HV HaV)) as Hwp.
  destruct (decide (a ∈ gc_dead s)) as [Hd|Hd].
  { exists tt, s. split; [by apply delete_one_dead|]. split; [done|]. split; [done|]. split; [|done].
    intros x [Hx|Hx]%elem_of_app; [by apply Hl1|]. by apply list_elem_of_singleton in Hx as ->. }
  pose proof (invalidatePathChecked_run xp storeDir Hdir a (gc_local s) Hok (gi_cache _ _ _ _ _ _ _ _ _ _ _ (ci_inv s C))) as Hinv.
  destruct (invalidatePathChecked_rows xp storeDir Hdir a (gc_local s) Hok (gi_cache _ _ _ _ _ _ _ _ _ _ _ (ci_inv s C))) as (_ & _ & R2 & _).
  destruct (invalidatePathChecked storeDir a (gc_local s)) as [[u|e] l'] eqn:Ei; cbn [snd] in R2.
  2:{ exfalso. destruct Hinv as (_ & _ & Hva & q & i & Hne & Hq & Hin). by eapply (no_referrers l1 a l2 s q i). }
  destruct Hinv as (Hok' & _ & Hnone & _). pose proof (delete_one_run a s u l' Hd (HVwf a HaV) Ei) as E.
  unfold wpg in Hwp. rewrite E in Hwp. exists tt, (dropped a s l'). split; [done|]. clear E.
  assert (∀ x, ¬ valid storeDir (gc_db s) x → ¬ valid storeDir (ls_db l') x) as Hgone.
  { intros x Hx Hv. apply Hx. apply valid_path_of in Hv as [k Hk]; [|apply Hok']. apply valid_path_of; [apply Hok|]. exists k. by eapply restricts_path_of. }
  split; [|split; [|split; [|done]]].
  - split; cbn; [exact Hwp|apply C| |].
    + intros p R HR. apply lookup_delete_Some in HR as [_ HR]. by apply (ci_referrers s C p R).
    + intros p [->%elem_of_singleton|Hp]%elem_of_union.
      * split; [|apply lookup_delete_eq]. intros Hv. unfold gc_db in Hv. cbn in Hv. apply bool_decide_eq_true in Hv as [[k r] Hs].
        unfold queryPathInfoInternal in Hnone. rewrite Hs in Hnone.
        repeat (match type of Hnone with (_ ← ?m; _) = _ => destruct m; cbn [mbind result_bind] in Hnone; [|done] end). done.
      * destruct (ci_dead s C p Hp) as [Hnv Hf]. split; [by apply Hgone|]. by apply lookup_delete_None; right.
  - destruct Hev as (Hr & Hdd & Hfl). split; [eapply restricts_trans; [exact Hr|exact R2]|]. cbn. split.
    + intros x Hx. apply elem_of_union_r. by apply Hdd.
    + etrans; [apply delete_subseteq|exact Hfl].
  - cbn. intros x [Hx|Hx]%elem_of_app; [apply elem_of_union_r; by apply Hl1|]. apply list_elem_of_singleton in Hx as ->. by apply elem_of_union_l, elem_of_singleton.
Qed.

Lemma delete_all_tot l1 l2 s :
  sorted = l1 ++ l2 → complete_inv s → evolved s → (∀ x, x ∈ l1 → x ∈ gc_dead s) →
  tot (eachG (delete_one storeDir options lockedDir) l2) (λ _ s', complete_inv s' ∧ evolved s' ∧ ∀ x, x ∈ sorted → x ∈ gc_dead s') s.
Proof using Hdir Hok0 Hsorted G1 HV HVwf Hmax Haction.
  revert l1 s. induction l2 as [|a l2 IH]; intros l1 s El C Hev Hl1; cbn [eachG].
  { apply tot_ret. rewrite app_nil_r in El. by subst. }
  assert (a ∈ V) as Ha.
  { assert (a ∈ sorted) as Ha by (rewrite El; apply elem_of_app; right; by left).
    rewrite (topoSortPaths_elems xp storeDir Hdir _ _ _ (inv_ok _ _ _ _ _ _ _ _ _ _ Hok0 s1 G1) Hsorted) in Ha. by apply elem_of_elements. }
  apply tot_bind. eapply tot_mono; [by apply (delete_one_tot l1 a l2)|]. cbn beta. intros _ s2 (C2 & E2 & D2 & _).
  apply (IH (l1 ++ [a])); [by rewrite <- app_assoc|done..].
Qed.
End line.

(** References that are left are references of the start, so there is an order. *)
Lemma topoSort_tot s V : inv s → ∃ sorted, topoSortPaths xp storeDir (gc_db s) V = Ok sorted.
Proof using Hdir Hok0 Hacyclic.
  intros G. pose proof (inv_ok _ _ _ _ _ _ _ _ _ _ Hok0 s G) as Hok.
  pose proof (topoSort_ok V (topo_children xp storeDir (gc_db s)) cycle_error (refs_in xp storeDir (gc_db s))
    (λ x _, topo_children_ok xp storeDir Hdir (gc_db s) x Hok)) as Ht.
  unfold topoSortPaths. destruct (topoSort _ _ _) as [l|e]; [eauto|]. destruct Ht as (x & y & _ & Hyx & Hxy). exfalso.
  assert (∀ a b, edge V (refs_in xp storeDir (gc_db s)) a b → ref_edge db0 a b) as Hmap.
  { intros a b (Hb & Hne & _). split; [done|]. unfold refs_in in Hb. destruct (queryPathInfoInternal xp storeDir a (gc_db s)) as [[i|]|] eqn:Eq; [|done|done].
    exists i. split; [by apply query_before with s|done]. }
  apply (Hacyclic y). eapply tc_rtc_r; [apply tc_once; by apply Hmap|]. clear Hyx. induction Hxy as [|a b c Hab _ IH]; [done|].
  eapply rtc_l; [by apply Hmap|done].
Qed.

Context (fuel : nat).

Definition grown (s s' : GcState) : Prop := (∀ x, x ∈ gc_dead s → x ∈ gc_dead s') ∧ gc_files s' ⊆ gc_files s.

Lemma deleteReferrersClosure_tot start s :
  complete_inv s → sp_wf start → (size (U start ∖ {[start]}) + 1 <= fuel)%nat →
  tot (deleteReferrersClosure xp storeDir realised options keepOutputs keepDerivations roots tempRoots lockedDir fuel start)
    (λ _ s', complete_inv s' ∧ grown s s' ∧ (kept start ∨ start ∈ gc_dead s')) s.
Proof using Hdir Hok0 Houts Haction Hmax Hacyclic.
  intros C Hw Hf. unfold deleteReferrersClosure. apply tot_bind.
  destruct (search_tot fuel start ({[start]}, [start]) s C) as (r & s1 & Er & C1 & Hr); [| |cbn [fst snd length]; lia|].
  { cbn [fst]. intros x ->%elem_of_singleton. split; [apply rtc_refl|done]. }
  { cbn [fst snd]. intros x ->%list_elem_of_singleton. by apply elem_of_singleton. }
  exists r, s1. split; [done|].
  pose proof (search_wp xp storeDir Hdir realised options keepOutputs keepDerivations roots tempRoots db0 files0 Hok0 fuel start ({[start]}, [start]) s (ci_inv s C)) as Hs.
  unfold wpg in Hs. rewrite Er in Hs. destruct Hs as (G1 & S1 & HV).
  { cbn [fst snd]. intros p ->%elem_of_singleton. left. by left. }
  destruct S1 as (_ & Ed & Efl).
  destruct r as [V|].
  2:{ apply tot_ret. split; [done|]. unfold grown. rewrite Ed, Efl. split; [done|]. left. by apply (ci_alive s1 C1). }
  destruct HV as [HV1 HV]. destruct (topoSort_tot s1 V G1) as [l El]. apply tot_bind. eapply tot_read; [exact El|].
  eapply tot_mono; [apply (delete_all_tot s1 G1 V HV Hr l El [] l); [done|done| |]|].
  - split; [apply restricts_refl, G1|done].
  - intros x Hx. by apply elem_of_nil in Hx.
  - intros _ s2 (C2 & (_ & E2 & F2) & D2). split; [done|]. split; [unfold grown; by rewrite <- Ed, <- Efl|]. right. apply D2.
    rewrite (topoSortPaths_elems xp storeDir Hdir _ _ _ (inv_ok _ _ _ _ _ _ _ _ _ _ Hok0 s1 G1) El). apply elem_of_elements, HV1. cbn [fst]. by apply elem_of_singleton.
Qed.

(** ** A run over the store directory *)

(** What the collector makes of the entry [name]. *)
Definition collected (name : str) (s : GcState) : Prop :=
  (∀ p, sp_wf p → baseName p = name → kept p ∨ p ∈ gc_dead s) ∧
  (name ≠ "."%str → name ≠ ".."%str → name ≠ linksName → isStorePath storeDir (storeDir ++ "/" ++ name) = Ok false →
   hasPrefix name "tmp-" && lockedDir name = false → gc_files s !! name = None).

Lemma collected_grown name s s' : collected name s → grown s s' → collected name s'.
Proof using.
  intros [H1 H2] [G1 G2]. split.
  - intros p Hp E. destruct (H1 p Hp E) as [?|?]; [by left|right; by apply G1].
  - intros A B D E F. apply (lookup_weaken_None (gc_files s')  (gc_files s)); [by apply H2|done].
Qed.

Context (Hfuel : (S (size (ValidPaths db0)) <= fuel)%nat).

Lemma collect_name_tot name s :
  complete_inv s →
  tot (collect_name xp storeDir realised options keepOutputs keepDerivations roots tempRoots lockedDir fuel name)
    (λ _ s', complete_inv s' ∧ grown s s' ∧ collected name s') s.
Proof using Hdir Hok0 Houts Haction Hmax Hacyclic Hfuel.
  intros C. unfold collect_name. destruct (str_eqb name "." || str_eqb name ".." || str_eqb name linksName) eqn:En.
  { apply tot_ret. split; [done|]. split; [done|]. rewrite !orb_true_iff, !str_eqb_true in En. split.
    - intros p [(Hl & _) _] <-. exfalso. by destruct En as [[E|E]|E]; rewrite E in Hl; cbn in Hl; lia.
    - intros; naive_solver. }
  destruct (maybeParse_tot storeDir (storeDir ++ "/" ++ name)) as (o & Eo & Ho).
  { destruct Hdir as (ds & _ & _ & ->). destruct (abs_cons ds) as [r ->]. done. }
  apply tot_bind. eapply tot_read; [exact Eo|]. destruct o as [p|].
  - destruct (parse_sound storeDir _ p Hdir Ho) as [Hw _]. eapply tot_mono; [apply deleteReferrersClosure_tot; [done|done|]|].
    + pose proof (universe_size storeDir db0 p). unfold U. lia.
    + intros _ s' (C' & G' & K'). split; [done|]. split; [done|]. split.
      * intros q Hq <-. change (storeDir ++ "/" ++ baseName q) with (print q) in Ho. rewrite parse_print in Ho by done. by injection Ho as ->.
      * intros _ _ _ E. unfold isStorePath in E. by rewrite Eo in E.
  - assert (∀ q, sp_wf q → baseName q ≠ name) as Hno.
    { intros q Hq <-. apply (Ho q). change (storeDir ++ "/" ++ baseName q) with (print q). by apply parse_print. }
    pose proof (deleteFromStore_wp xp storeDir realised options keepOutputs keepDerivations roots tempRoots db0 files0 lockedDir name s (ci_inv s C)
      (λ q Hq E, False_ind _ (Hno q Hq E))) as Hwp.
    destruct (hasPrefix name "tmp-" && lockedDir name) eqn:El.
    { unfold deleteFromStore. rewrite El. apply tot_ret. split; [done|]. split; [done|]. split; [intros q Hq E; by destruct (Hno q)|by rewrite El]. }
    unfold wpg in Hwp. rewrite deleteFromStore_run in Hwp by done. eexists tt, _. split; [by apply deleteFromStore_run|]. split; [|split].
    + split; cbn; [exact Hwp|apply C|apply C|]. intros q Hq. destruct (ci_dead s C q Hq) as [Hv Hf]. split; [exact Hv|]. apply lookup_delete_None. by right.
    + split; [done|]. cbn. apply delete_subseteq.
    + split; [intros q Hq E; by destruct (Hno q)|]. intros _ _ _ _ _. apply lookup_delete_eq.
Qed.

Lemma collect_names_tot names s :
  complete_inv s →
  tot (eachG (collect_name xp storeDir realised options keepOutputs keepDerivations roots tempRoots lockedDir fuel) names)
    (λ _ s', complete_inv s' ∧ grown s s' ∧ ∀ name, name ∈ names → collected name s') s.
Proof using Hdir Hok0 Houts Haction Hmax Hacyclic Hfuel.
  revert s. induction names as [|n names IH]; intros s C; cbn [eachG].
  { apply tot_ret. split; [done|]. split; [done|]. intros n Hn. by apply elem_of_nil in Hn. }
  apply tot_bind. eapply tot_mono; [by apply collect_name_tot|]. cbn beta. intros _ s1 (C1 & G1 & H1). eapply tot_mono; [by apply IH|].
  cbn beta. intros _ s2 (C2 & G2 & H2). split; [done|]. split.
  - destruct G1 as [A1 B1], G2 as [A2 B2]. split; [auto|by etrans].
  - intros name [->|Hn]%elem_of_cons; [by eapply collected_grown|by apply H2].
Qed.

Lemma collectGarbage_tot names s :
  complete_inv s →
  ∃ s', collectGarbage xp storeDir realised options keepOutputs keepDerivations roots tempRoots lockedDir fuel names s = (Ok tt, s') ∧
    complete_inv s' ∧ ∀ name, name ∈ names → collected name s'.
Proof using Hdir Hok0 Houts Haction Hmax Hacyclic Hfuel.
  intros C. destruct (collect_names_tot names s C) as ([] & s' & E & C' & _ & H). exists s'. split; [|done].
  unfold collectGarbage. rewrite Haction, bool_decide_eq_false_2 by done. rewrite (proj2 (Z.ltb_lt 0 (maxFreed options))) by (rewrite Hmax; lia).
  unfold mbind, GM_bind, gtry. by rewrite E.
Qed.
End complete.

(** [C19] The garbage collector collects all garbage. Deleting dead paths without
    a limit in a store whose references have no cycles, the collection ends
    without an error, a search never visits more than the valid paths and its
    start, and every entry of the store directory is dealt with: a store path
    is kept for the sake of a root (a chain of references, derivers and
    outputs leads to it from one) or it is no longer valid and its files are
    gone, and an entry that is not a store path is gone unless it is a
    temporary directory some process has locked. *)
Theorem gc_collects_garbage (xp : XpSettings) (storeDir : str) (realised : StorePath → list (str * option StorePath)) (options : GCOptions)
    (keepOutputs keepDerivations : bool) (roots : gset StorePath) (tempRoots : gset str) (lockedDir : str → bool) (fuel : nat) (names : list str)
    (l : Local) (files : gmap str Z) :
  store_dir_ok storeDir → store_ok xp storeDir (ls_db l) → lru_wf (ls_cache l) →
  outs_ok storeDir (ls_db l) → (∀ p, ¬ tc (ref_edge xp storeDir (ls_db l)) p p) →
  action options = gcDeleteDead → maxFreed options = 2 ^ 64 - 1 → (size (ValidPaths (ls_db l)) < fuel)%nat →
  ∃ s', collectGarbage xp storeDir realised options keepOutputs keepDerivations roots tempRoots lockedDir fuel names (gc_start l files) = (Ok tt, s') ∧
    (∀ p, sp_wf p → baseName p ∈ names →
       kept xp storeDir realised options keepOutputs keepDerivations roots tempRoots (ls_db l) p ∨
       ¬ valid storeDir (gc_db s') p ∧ gc_files s' !! baseName p = None) ∧
    (∀ name, name ∈ names → name ≠ "."%str → name ≠ ".."%str → name ≠ linksName →
       isStorePath storeDir (storeDir ++ "/" ++ name) = Ok false → hasPrefix name "tmp-" && lockedDir name = false →
       gc_files s' !! name = None).
Proof.
  intros Hdir Hok Wc Houts Hac Haction Hmax Hfuel.
  pose proof (gc_start_inv xp storeDir realised options keepOutputs keepDerivations roots tempRoots l files Hok Wc) as G0.
  assert (complete_inv xp storeDir realised options keepOutputs keepDerivations roots tempRoots (ls_db l) files (gc_start l files)) as C0.
  { split; [exact G0|intros x Hx; by apply elem_of_empty in Hx|done|intros x Hx; by apply elem_of_empty in Hx]. }
  destruct (collectGarbage_tot xp storeDir Hdir realised options keepOutputs keepDerivations roots tempRoots (ls_db l) files Hok Houts Hac Haction
    lockedDir Hmax fuel Hfuel names _ C0) as (s' & E & C & H). exists s'. split; [exact E|]. split.
  - intros p Hp Hn. destruct (proj1 (H _ Hn) p Hp eq_refl) as [Hk|Hd]; [by left|right]. by apply (ci_dead _ _ _ _ _ _ _ _ _ _ _ C).
  - intros name Hn. apply (H name Hn).
Qed.

(** ** Witnesses *)

Definition ex_options : GCOptions := {| action := gcDeleteDead; ignoreLiveness := false; pathsToDelete := ∅; maxFreed := 2 ^ 64 - 1 |}.
Definition ex_names : list str := ["."; ".."; ".links"; "tmp-1"; baseName ex_lib; baseName ex_app; "leftover"]%str.
Definition ex_files : gmap str Z := {["tmp-1"%str := 5; baseName ex_lib := 100; baseName ex_app := 20; "leftover"%str := 3]}.

Lemma ex_rows j r : ValidPaths (ls_db ex_store) !! j = Some r → r_path r = printStorePath "/bsd/store" ex_lib ∨ r_path r = printStorePath "/bsd/store" ex_app.
Proof.
  intros Hj. assert (Forall (λ x : Z * PathRow, r_path x.2 = printStorePath "/bsd/store" ex_lib ∨ r_path x.2 = printStorePath "/bsd/store" ex_app)
    (map_to_list (ValidPaths (ls_db ex_store)))) as Hall by (apply (bool_decide_unpack _); vm_compute; exact I).
  rewrite Forall_forall in Hall. apply (Hall (j, r)). by apply elem_of_map_to_list.
Qed.

Definition ex_refs (p : StorePath) : gset StorePath :=
  match queryPathInfoInternal [] "/bsd/store" p (ls_db ex_store) with Ok (Some i) => references (info i) | _ => ∅ end.

Lemma ex_edges a b : ref_edge [] "/bsd/store" (ls_db ex_store) a b → a = ex_app ∧ b = ex_lib.
Proof.
  intros (Hne & i & Hq & Hb). destruct (query_row _ _ _ _ _ (proj1 ex_store_ok) Hq) as (j & r & Hj & Hp).
  assert (b ∈ ex_refs a) as Hin by (unfold ex_refs; by rewrite Hq). clear Hq Hb.
  destruct (ex_rows j r Hj) as [E|E]; rewrite Hp in E; apply printStorePath_inj in E as ->.
  - assert (ex_refs ex_lib = ∅) as E by (apply (bool_decide_unpack _); vm_compute; exact I). rewrite E in Hin. exact (False_ind _ (not_elem_of_empty b Hin)).
  - assert (ex_refs ex_app = {[ex_lib; ex_app]}) as E by (apply (bool_decide_unpack _); vm_compute; exact I). rewrite E in Hin.
    clear E. split; [reflexivity|]. apply elem_of_union in Hin as [Hin|Hin]; apply elem_of_singleton in Hin; [exact Hin|].
    exfalso. apply Hne. symmetry. exact Hin.
Qed.

Lemma ex_acyclic p : ¬ tc (ref_edge [] "/bsd/store" (ls_db ex_store)) p p.
Proof.
  assert (∀ a b, tc (ref_edge [] "/bsd/store" (ls_db ex_store)) a b → a = ex_app ∧ b = ex_lib) as H.
  { intros a b Hab. induction Hab as [a b Hab|a b c Hab _ [_ ->]]; [exact (ex_edges _ _ Hab)|]. split; [exact (proj1 (ex_edges _ _ Hab))|reflexivity]. }
  intros Hp. apply H in Hp as [-> E]. discriminate E.
Qed.

Lemma ex_outs : outs_ok "/bsd/store" (ls_db ex_store).
Proof. intros x s H. assert (DerivationOutputs (ls_db ex_store) = ∅) as E by (vm_compute; reflexivity). rewrite E in H. discriminate H. Qed.

Lemma ex_holds : holds [] "/bsd/store" (λ _, []) ex_options false false (ls_db ex_store) ex_app ex_lib.
Proof.
  assert (ex_lib ∈ ex_refs ex_app) as H by (apply (bool_decide_unpack _); vm_compute; exact I). unfold ex_refs in H.
  destruct (queryPathInfoInternal [] "/bsd/store" ex_app (ls_db ex_store)) as [[i|]|] eqn:E;
    [exact (holds_ref _ _ _ _ _ _ _ _ _ i E H)|exact (False_ind _ (not_elem_of_empty _ H))..].
Qed.

Lemma gc_keeps_live_witness :
  let s' := (collectGarbage [] "/bsd/store" (λ _, []) ex_options false false {[ex_app]} ∅ (λ _, false) 3 ex_names (gc_start ex_store ex_files)).2 in
  gc_files s' !! baseName ex_lib = Some 100 ∧ gc_files s' !! "leftover"%str = None.
Proof.
  split; [|vm_compute; reflexivity].
  destruct (gc_keeps_live [] "/bsd/store" (λ _, []) ex_options false false {[ex_app]} ∅ (λ _, false) 3 ex_names ex_store ex_files ex_lib
    ex_dir_ok (proj1 ex_store_ok) (proj2 ex_store_ok)) as [_ H].
  - exists ex_app. split; [left; by apply elem_of_singleton|]. apply rtc_once. apply ex_holds.
  - rewrite H; [vm_compute; reflexivity|]. apply (bool_decide_unpack _). vm_compute. exact I.
Defined.

Lemma gc_collects_garbage_witness :
  ∃ s', collectGarbage [] "/bsd/store" (λ _, []) ex_options true true ∅ ∅ (λ n, str_eqb n "tmp-1") 3 ex_names (gc_start ex_store ex_files) = (Ok tt, s') ∧
    ¬ valid "/bsd/store" (gc_db s') ex_lib ∧ gc_files s' !! baseName ex_lib = None ∧ gc_files s' !! "leftover"%str = None.
Proof.
  destruct (gc_collects_garbage [] "/bsd/store" (λ _, []) ex_options true true ∅ ∅ (λ n, str_eqb n "tmp-1") 3 ex_names ex_store ex_files
    ex_dir_ok (proj1 ex_store_ok) (proj2 ex_store_ok) ex_outs ex_acyclic eq_refl eq_refl) as (s' & E & H1 & H2); [apply Nat.ltb_lt; vm_compute; reflexivity|].
  exists s'. split; [exact E|]. destruct (H1 ex_lib) as [(r & [Hr|Hr] & _)|[Hv Hf]].
  - apply (bool_decide_unpack _). vm_compute. exact I.
  - apply (bool_decide_unpack _). vm_compute. exact I.
  - exfalso. exact (not_elem_of_empty _ Hr).
  - exfalso. exact (not_elem_of_empty _ Hr).
  - split; [exact Hv|]. split; [exact Hf|]. apply (H2 "leftover"%str).
    1-4: apply (bool_decide_unpack _); vm_compute; exact I.
    1-2: vm_compute; reflexivity.
Defined.
