(* ===== verification/Expr.v ===== *)
(** The language: abstract syntax and the resolution of variables.
    [libexpr/include/bsd/expr/bsdexpr.hh], [bsdexpr.cc], [symbol-table.hh].

    [bindVars] turns the name of a variable into the number of environments to
    go up and the slot there, or into the innermost [with] to ask. In the code
    it writes these into the tree; here it returns the tree with them. An
    [ExprWith] is pointed to by the variables that may come from it: the pointer
    is modelled by what it is used for, the distance to the next [with] outwards
    and that [with]. Positions, documentation comments and [__curPos] are left
    out. *)

From Stdlib Require Export SpecFloat.
From S2P Require Import Prelude.

(** * Symbols *)

(** The identifier of a symbol; zero is no symbol. *)
Abbreviation Symbol := nat.
Abbreviation SymbolTable := (list str).

Fixpoint find_index (s : str) (t : list str) : option nat :=
  match t with [] => None | x :: t => if str_eqb x s then Some O else S <$> find_index s t end.
Definition symbol_create (s : str) (t : SymbolTable) : Symbol * SymbolTable :=
  match find_index s t with Some i => (S i, t) | None => (S (length t), t ++ [s]) end.
Definition symbol_str (t : SymbolTable) (x : Symbol) : option str := match x with O => None | S i => t !! i end.

(** * [std::lower_bound] *)

(** The first element that is not less than the key. The range has to be
    partitioned by the key. *)
Definition lower_bound {A} (less : A → bool) : list A → result (option A) :=
  fix go l :=
    match l with
    | [] => Ok None
    | x :: l' =>
        if less x then go l'
        else if existsb less l' then Throw UndefinedBehaviour else Ok (Some x)
    end.

(** * Syntax *)

(** What is used of an [ExprWith] by the variables it may provide. *)
Inductive With := MkWith (prevWith : nat) (parentWith : option With).

Lemma With_ind' (Q : With → Prop) :
  (∀ prev parent, (∀ w, parent = Some w → Q w) → Q (MkWith prev parent)) → ∀ w, Q w.
Proof. intros H. fix IH 1. intros [prev [w|]]; apply H; [intros w' [= <-]; apply IH|clear IH; intros w' [=]]. Qed.

Inductive AttrKind := Plain | Inherited | InheritedFrom.
Record AttrDef (E : Type) := MkAttrDef { ad_kind : AttrKind; ad_e : E; ad_displ : nat }.
Record AttrsOf (E : Type) := MkAttrs {
  recursive : bool;
  attrs : list (Symbol * AttrDef E);
  inheritFromExprs : option (list E);
  dynamicAttrs : list (E * E);
}.
Record FormalsOf (E : Type) := MkFormals { formals : list (Symbol * option E); ellipsis : bool }.
Arguments MkAttrDef {E}.
Arguments ad_kind {E}.
Arguments ad_e {E}.
Arguments ad_displ {E}.
Arguments MkAttrs {E}.
Arguments recursive {E}.
Arguments attrs {E}.
Arguments inheritFromExprs {E}.
Arguments dynamicAttrs {E}.
Arguments MkFormals {E}.
Arguments formals {E}.
Arguments ellipsis {E}.

Inductive BinOp := OpEq | OpNEq | OpAnd | OpOr | OpImpl | OpUpdate | OpConcatLists.

Inductive Expr :=
  | ExprInt (n : Z)
  | ExprFloat (f : spec_float)
  | ExprString (s : str)
  | ExprPath (accessor : nat) (s : str)
  | ExprVar (name : Symbol) (fromWith : option With) (level displ : nat)
  | ExprInheritFrom (displ : nat)
  | ExprSelect (e : Expr) (attrPath : list (Symbol + Expr)) (def : option Expr)
  | ExprOpHasAttr (e : Expr) (attrPath : list (Symbol + Expr))
  | ExprAttrs (a : AttrsOf Expr)
  | ExprList (elems : list Expr)
  | ExprLambda (arg : Symbol) (formals : option (FormalsOf Expr)) (body : Expr)
  | ExprCall (fn : Expr) (args : list Expr)
  | ExprLet (a : AttrsOf Expr) (body : Expr)
  | ExprWith (attrs body : Expr) (w : With)
  | ExprIf (cond then_ else_ : Expr)
  | ExprAssert (cond body : Expr)
  | ExprOpNot (e : Expr)
  | ExprBinOp (op : BinOp) (e1 e2 : Expr)
  | ExprConcatStrings (forceString : bool) (es : list Expr).

Definition has_sym (l : list (Symbol * option Expr)) (x : Symbol) : result bool :=
  r ← lower_bound (λ f : Symbol * option Expr, (f.1 <? x)%nat) l;
  Ok (match r with Some f => (f.1 =? x)%nat | None => false end).

(** * Static environments *)

Inductive StaticEnv := SEnv (isWith : option With) (up : option StaticEnv) (vars : list (Symbol * nat)).

Definition less_var (x : Symbol) (v : Symbol * nat) : bool := (v.1 <? x)%nat || ((v.1 =? x)%nat && (v.2 <? 0)%nat).
Definition senv_find (vars : list (Symbol * nat)) (x : Symbol) : result (option nat) :=
  r ← lower_bound (less_var x) vars;
  Ok (match r with Some v => if (v.1 =? x)%nat then Some v.2 else None | None => None end).

(** [StaticEnv::sort], a stable sort by name. *)
Fixpoint sort_insert (v : Symbol * nat) (l : list (Symbol * nat)) : list (Symbol * nat) :=
  match l with
  | [] => [v]
  | w :: l' => if (v.1 <? w.1)%nat then v :: l else w :: sort_insert v l'
  end.
Definition senv_sort (l : list (Symbol * nat)) : list (Symbol * nat) := foldl (λ acc v, sort_insert v acc) [] l.

(** The innermost [with]. *)
Fixpoint nearest_with (se : StaticEnv) : option With :=
  match se with
  | SEnv (Some w) _ _ => Some w
  | SEnv None up _ => match up with Some up => nearest_with up | None => None end
  end.
(** Its distance, counted from [level]. *)
Fixpoint with_level (se : StaticEnv) (level : nat) : option nat :=
  match se with
  | SEnv (Some _) _ _ => Some level
  | SEnv None up _ => match up with Some up => with_level up (S level) | None => None end
  end.

(** The loop of [ExprVar::bindVars]. *)
Fixpoint find_var (name : Symbol) (se : StaticEnv) (level : nat) : result (option (nat * nat)) :=
  match se with
  | SEnv isWith up vars =>
      found ← match isWith with Some _ => Ok None | None => senv_find vars name end;
      match found with
      | Some displ => Ok (Some (level, displ))
      | None => match up with Some up => find_var name up (S level) | None => Ok None end
      end
  end.

(** Environments are pointers that may be null. *)
Abbreviation SEnvP := (option StaticEnv).

Definition bindVar (name : Symbol) (env : SEnvP) : result Expr :=
  found ← match env with Some se => find_var name se 0 | None => Ok None end;
  match found with
  | Some (level, displ) => Ok (ExprVar name None level displ)
  | None =>
      match env ≫= λ se, with_level se 0 with
      | None => Throw (UndefinedVarError "undefined variable")
      | Some level => Ok (ExprVar name (env ≫= nearest_with) level 0)
      end
  end.

Definition bind_with (env : SEnvP) : With := MkWith (default O (env ≫= λ se, with_level se 1)) (env ≫= nearest_with).

(** The names of a recursive set or a [let], numbered in order. *)
Definition rec_vars {E} (l : list (Symbol * AttrDef E)) : list (Symbol * nat) := zip l.*1 (seq 0 (length l)).
Definition rec_env {E} (l : list (Symbol * AttrDef E)) (env : SEnvP) : SEnvP := Some (SEnv None env (rec_vars l)).
Definition number_attrs {E} (l : list (Symbol * AttrDef E)) : list (Symbol * AttrDef E) :=
  zip_with (λ (x : Symbol * AttrDef E) i, (x.1, MkAttrDef (ad_kind x.2) (ad_e x.2) i)) l (seq 0 (length l)).
Definition chooseByKind {T E} (d : AttrDef E) (plain inherited inheritedFrom : T) : T :=
  match ad_kind d with Plain => plain | Inherited => inherited | InheritedFrom => inheritedFrom end.

(** The environment of a function. *)
Definition lambda_names {E} (arg : Symbol) (fs : option (FormalsOf E)) : list Symbol :=
  (if (arg =? 0)%nat then [] else [arg]) ++ match fs with Some f => (formals f).*1 | None => [] end.
Definition lambda_vars {E} (arg : Symbol) (fs : option (FormalsOf E)) : list (Symbol * nat) :=
  let names := lambda_names arg fs in
  let vars := zip names (seq 0 (length names)) in
  match fs with Some _ => senv_sort vars | None => vars end.
Definition lambda_env {E} (arg : Symbol) (fs : option (FormalsOf E)) (env : SEnvP) : SEnvP :=
  Some (SEnv None env (lambda_vars arg fs)).

Section map_list.
Context {A B : Type} (f : A → result B).
Definition mapL : list A → result (list B) :=
  fix go l := match l with [] => Ok [] | x :: l => y ← f x; ys ← go l; Ok (y :: ys) end.
Definition mapO (o : option A) : result (option B) := match o with None => Ok None | Some x => y ← f x; Ok (Some y) end.
Definition mapPath : list (Symbol + A) → result (list (Symbol + B)) :=
  fix go l := match l with
              | [] => Ok []
              | inl x :: l => ys ← go l; Ok (inl x :: ys)
              | inr e :: l => e ← f e; ys ← go l; Ok (inr e :: ys)
              end.
Definition mapPairs : list (A * A) → result (list (B * B)) :=
  fix go l := match l with [] => Ok [] | (n, v) :: l => n ← f n; v ← f v; ys ← go l; Ok ((n, v) :: ys) end.
Definition mapFormals : list (Symbol * option A) → result (list (Symbol * option B)) :=
  fix go l := match l with
              | [] => Ok []
              | (x, o) :: l => o ← mapO o; ys ← go l; Ok ((x, o) :: ys)
              end.
End map_list.

(** The definitions of a set, each in the environment of its kind. *)
Definition mapDefs {A B} (f g h : A → result B) : list (Symbol * AttrDef A) → result (list (Symbol * AttrDef B)) :=
  fix go l :=
    match l with
    | [] => Ok []
    | (x, d) :: l =>
        e ← match ad_kind d with Plain => f (ad_e d) | Inherited => g (ad_e d) | InheritedFrom => h (ad_e d) end;
        ys ← go l;
        Ok ((x, MkAttrDef (ad_kind d) e (ad_displ d)) :: ys)
    end.

(** The environment of the attributes that are inherited from an expression:
    [bindInheritSources] returns a null pointer if there are none. *)
Definition inherit_env {E} (froms : option (list E)) (env : SEnvP) : SEnvP :=
  match froms with Some _ => Some (SEnv None env []) | None => None end.

Fixpoint bindVars (e : Expr) (env : SEnvP) : result Expr :=
  match e with
  | ExprInt _ | ExprFloat _ | ExprString _ | ExprPath _ _ | ExprInheritFrom _ => Ok e
  | ExprVar name _ _ _ => bindVar name env
  | ExprSelect e path def =>
      e ← bindVars e env;
      def ← mapO (λ e, bindVars e env) def;
      path ← mapPath (λ e, bindVars e env) path;
      Ok (ExprSelect e path def)
  | ExprOpHasAttr e path => e ← bindVars e env; path ← mapPath (λ e, bindVars e env) path; Ok (ExprOpHasAttr e path)
  | ExprAttrs a =>
      let inner := if recursive a then rec_env (attrs a) env else env in
      let fromEnv := inherit_env (inheritFromExprs a) inner in
      froms ← mapO (mapL (λ e, bindVars e inner)) (inheritFromExprs a);
      defs ← mapDefs (λ e, bindVars e inner) (λ e, bindVars e env) (λ e, bindVars e fromEnv) (attrs a);
      dyn ← mapPairs (λ e, bindVars e inner) (dynamicAttrs a);
      Ok (ExprAttrs (MkAttrs (recursive a) (if recursive a then number_attrs defs else defs) froms dyn))
  | ExprList l => l ← mapL (λ e, bindVars e env) l; Ok (ExprList l)
  | ExprLambda arg fs body =>
      let inner := lambda_env arg fs env in
      fs ← match fs with
           | Some f => l ← mapFormals (λ e, bindVars e inner) (formals f); Ok (Some (MkFormals l (ellipsis f)))
           | None => Ok None
           end;
      body ← bindVars body inner;
      Ok (ExprLambda arg fs body)
  | ExprCall fn args => fn ← bindVars fn env; args ← mapL (λ e, bindVars e env) args; Ok (ExprCall fn args)
  | ExprLet a body =>
      let inner := rec_env (attrs a) env in
      let fromEnv := inherit_env (inheritFromExprs a) inner in
      froms ← mapO (mapL (λ e, bindVars e inner)) (inheritFromExprs a);
      defs ← mapDefs (λ e, bindVars e inner) (λ e, bindVars e env) (λ e, bindVars e fromEnv) (attrs a);
      body ← bindVars body inner;
      Ok (ExprLet (MkAttrs (recursive a) (number_attrs defs) froms (dynamicAttrs a)) body)
  | ExprWith attrs body _ =>
      let w := bind_with env in
      attrs ← bindVars attrs env;
      body ← bindVars body (Some (SEnv (Some w) env []));
      Ok (ExprWith attrs body w)
  | ExprIf c t e => c ← bindVars c env; t ← bindVars t env; e ← bindVars e env; Ok (ExprIf c t e)
  | ExprAssert c b => c ← bindVars c env; b ← bindVars b env; Ok (ExprAssert c b)
  | ExprOpNot e => e ← bindVars e env; Ok (ExprOpNot e)
  | ExprBinOp op e1 e2 => e1 ← bindVars e1 env; e2 ← bindVars e2 env; Ok (ExprBinOp op e1 e2)
  | ExprConcatStrings fs es => es ← mapL (λ e, bindVars e env) es; Ok (ExprConcatStrings fs es)
  end.
