(* ===== verification/Value.v ===== *)
(** Values, environments and the state of the evaluator.
    [libexpr/include/bsd/expr/value.hh], [attr-set.hh], [eval-inline.hh],
    [value/context.cc], [libutil/include/bsd/util/checked-arithmetic.hh].

    Values and environments live in a heap, since thunks are updated in place
    and environments are filled after thunks refer to them. A pointer is an
    index; [Ref] also covers values on the stack of the evaluator, which no
    pointer of the heap leads to. Positions, statistics, external values of
    plug-ins and the debugger are left out. *)

From S2P Require Import Prelude State Strings Xp CanonPath StorePath DerivedPath Expr.

Abbreviation addr := nat.

(** * String contexts *)

Inductive BsdStringContextElem :=
  | CtxOpaque (path : StorePath)
  | CtxDrvDeep (drvPath : StorePath)
  | CtxBuilt (drvPath : SingleDerivedPath) (output : str).
#[export] Instance BsdStringContextElem_eq_dec : EqDecision BsdStringContextElem.
Proof. solve_decision. Defined.

Definition lex_compare (c d : comparison) : comparison := match c with Eq => d | _ => c end.
Definition sp_compare (p q : StorePath) : comparison := str_compare (StorePath.baseName p) (StorePath.baseName q).
(** Alternatives are ordered by their position, then by content. *)
Fixpoint single_compare (p q : SingleDerivedPath) : comparison :=
  match p, q with
  | SOpaque p, SOpaque q => sp_compare p q
  | SOpaque _, SBuilt _ _ => Lt
  | SBuilt _ _, SOpaque _ => Gt
  | SBuilt p o, SBuilt q o' => lex_compare (single_compare p q) (str_compare o o')
  end.
Definition ctx_compare (x y : BsdStringContextElem) : comparison :=
  match x, y with
  | CtxOpaque p, CtxOpaque q => sp_compare p q
  | CtxOpaque _, _ => Lt
  | CtxDrvDeep _, CtxOpaque _ => Gt
  | CtxDrvDeep p, CtxDrvDeep q => sp_compare p q
  | CtxDrvDeep _, CtxBuilt _ _ => Lt
  | CtxBuilt p o, CtxBuilt q o' => lex_compare (single_compare p q) (str_compare o o')
  | CtxBuilt _ _, _ => Gt
  end.

(** A set, kept as the sequence of its elements in order. *)
Abbreviation BsdStringContext := (list BsdStringContextElem).
Fixpoint ctx_insert (x : BsdStringContextElem) (c : BsdStringContext) : BsdStringContext :=
  match c with
  | [] => [x]
  | y :: c' => match ctx_compare x y with Lt => x :: c | Eq => c | Gt => y :: ctx_insert x c' end
  end.

Section context.
Context (xp : XpSettings).

Definition bang : ascii := "!"%char.

(** Each round continues behind a separator. *)
Fixpoint parseRest (fuel : nat) (s : str) : result SingleDerivedPath :=
  match fuel with
  | O => Throw NonTermination
  | S fuel =>
      match find_idx (λ c, bool_decide (c = bang)) s with
      | None => p ← StorePath_new s; Ok (SOpaque p)
      | Some index =>
          drv ← parseRest fuel (drop (index + 1) s);
          _ ← drvRequireExperiment xp drv;
          Ok (SBuilt drv (take index s))
      end
  end.

Definition to_elem (p : SingleDerivedPath) : BsdStringContextElem :=
  match p with SOpaque p => CtxOpaque p | SBuilt d o => CtxBuilt d o end.

Definition ctx_parse (s : str) : result BsdStringContextElem :=
  let has_bang s := existsb (λ c, bool_decide (c = bang)) s in
  match s with
  | [] => Throw (Error "String context element should never be an empty string")
  | c :: s' =>
      if bool_decide (c = bang) then
        if has_bang s' then p ← parseRest (S (length s')) s'; Ok (to_elem p)
        else Throw (Error "String content element beginning with '!' should have a second '!'")
      else if bool_decide (c = "="%char) then p ← StorePath_new s'; Ok (CtxDrvDeep p)
      else if has_bang s then Throw (Error "String content element not beginning with '!' should not have a second '!'")
      else p ← parseRest (S (length s)) s; Ok (to_elem p)
  end.

Fixpoint toStringRest (p : SingleDerivedPath) : str :=
  match p with
  | SOpaque p => StorePath.baseName p
  | SBuilt d o => o ++ bang :: toStringRest d
  end.

Definition ctx_to_string (x : BsdStringContextElem) : str :=
  match x with
  | CtxBuilt d o => bang :: toStringRest (SBuilt d o)
  | CtxOpaque p => toStringRest (SOpaque p)
  | CtxDrvDeep p => "="%char :: StorePath.baseName p
  end.
End context.

(** A string of the code ends at its first NUL. *)
Definition c_str (s : str) : str := match find_idx (λ c, bool_decide (c = NUL)) s with Some n => take n s | None => s end.
Definition encodeContext (c : BsdStringContext) : list str := map (λ x, c_str (ctx_to_string x)) c.

(** * Values *)

Inductive PrimOp :=
  | PBreak | PAbort | PThrow | PAddErrorContext | PTryEval | PSeq | PDeepSeq | PTypeOf
  | PIsNull | PIsFunction | PIsInt | PIsFloat | PIsString | PIsBool | PIsPath | PIsAttrs | PIsList
  | PGenericClosure | PToString | PSubstring | PStringLength | PConcatStringsSep | PReplaceStrings
  | PAttrNames | PAttrValues | PGetAttr | PHasAttr | PRemoveAttrs | PListToAttrs | PIntersectAttrs | PCatAttrs
  | PFunctionArgs | PMapAttrs | PZipAttrsWith
  | PElemAt | PHead | PTail | PMap | PFilter | PElem | PConcatLists | PLength | PFoldlStrict | PAny | PAll
  | PGenList | PSort | PPartition | PGroupBy | PConcatMap
  | PAdd | PSub | PMul | PDiv | PBitAnd | PBitOr | PBitXor | PLessThan | PCeil | PFloor
  | PBaseNameOf | PDirOf | PParseDrvName | PCompareVersions | PSplitVersion
  | PUnsafeDiscardStringContext | PHasContext | PUnsafeDiscardOutputDependency | PAddDrvOutputDependencies
  | PGetContext | PAppendContext.

Definition arity (p : PrimOp) : nat :=
  match p with
  | PAddErrorContext | PSeq | PDeepSeq | PConcatStringsSep | PGetAttr | PHasAttr | PRemoveAttrs | PIntersectAttrs | PCatAttrs
  | PMapAttrs | PZipAttrsWith | PElemAt | PMap | PFilter | PElem | PAny | PAll | PGenList | PSort | PPartition | PGroupBy
  | PConcatMap | PAdd | PSub | PMul | PDiv | PBitAnd | PBitOr | PBitXor | PLessThan | PCompareVersions | PAppendContext => 2
  | PSubstring | PReplaceStrings | PFoldlStrict => 3
  | _ => 1
  end.

(** Attributes in the order of their names. *)
Abbreviation Attr := (Symbol * addr)%type.

(** A string ends at its first NUL; its context is encoded. What is on the left
    of a [tPrimOpApp] is a copy made for it that nothing else points to. *)
Inductive Value :=
  | VInt (n : Z)
  | VFloat (f : spec_float)
  | VBool (b : bool)
  | VString (s : str) (context : list str)
  | VPath (accessor : nat) (path : str)
  | VNull
  | VAttrs (b : list Attr)
  | VList (l : list addr)
  | VThunk (env : addr) (e : Expr)
  | VBlackhole
  | VApp (left right : addr)
  | VLambda (env : addr) (arg : Symbol) (fs : option (FormalsOf Expr)) (body : Expr)
  | VPrimOp (p : PrimOp)
  | VPrimOpApp (left : Value) (right : addr).

Inductive ValueType := nThunk | nInt | nFloat | nBool | nString | nPath | nNull | nAttrs | nList | nFunction.
#[export] Instance ValueType_eq_dec : EqDecision ValueType.
Proof. solve_decision. Defined.
Definition type (v : Value) : ValueType :=
  match v with
  | VInt _ => nInt | VFloat _ => nFloat | VBool _ => nBool | VString _ _ => nString | VPath _ _ => nPath | VNull => nNull
  | VAttrs _ => nAttrs | VList _ => nList | VLambda _ _ _ _ | VPrimOp _ | VPrimOpApp _ _ => nFunction
  | VThunk _ _ | VBlackhole | VApp _ _ => nThunk
  end.

Definition mkString (s : str) (c : BsdStringContext) : Value := VString (c_str s) (encodeContext c).

(** * Numbers *)

(** [BsdInt], an [int64_t] with checked arithmetic. *)
Definition in_i64 (n : Z) : bool := (- 2 ^ 63 <=? n) && (n <? 2 ^ 63).
Definition checked (n : Z) : option Z := if in_i64 n then Some n else None.
Inductive DivResult := DivOk (n : Z) | DivOverflow | DivByZero.
Definition checked_div (n m : Z) : DivResult :=
  if (n =? - 2 ^ 63) && (m =? -1) then DivOverflow else if m =? 0 then DivByZero else DivOk (Z.quot n m).

(** [double]. *)
Definition prec : Z := 53.
Definition emax : Z := 1024.
Definition to_double (n : Z) : spec_float := binary_normalize prec emax n 0 false.
Definition fadd (x y : spec_float) := SFadd prec emax x y.

(** * State *)

Record Env := MkEnv { env_up : option addr; env_values : list (option addr) }.

Record EvalState := MkState {
  values : list Value;
  envs : list Env;
  symbols : SymbolTable;
  srcToStore : gmap (nat * str) StorePath;
  callDepth : nat;
}.

Abbreviation EM := (StE EvalState).

Definition set_values l (s : EvalState) := MkState l (envs s) (symbols s) (srcToStore s) (callDepth s).
Definition set_envs l (s : EvalState) := MkState (values s) l (symbols s) (srcToStore s) (callDepth s).
Definition set_symbols t (s : EvalState) := MkState (values s) (envs s) t (srcToStore s) (callDepth s).
Definition set_srcToStore m (s : EvalState) := MkState (values s) (envs s) (symbols s) m (callDepth s).
Definition set_callDepth d (s : EvalState) := MkState (values s) (envs s) (symbols s) (srcToStore s) d.

Definition getO {A} (o : option A) : EM A := lift (match o with Some a => Ok a | None => Throw UndefinedBehaviour end).

(** [allocValue] together with the initialisation. *)
Definition allocValue (v : Value) : EM addr := λ s, (Ok (length (values s)), set_values (values s ++ [v]) s).
Definition get_value (a : addr) : EM Value := v ← get (λ s, values s !! a); getO v.
Definition set_value (a : addr) (v : Value) : EM unit := modify (λ s, set_values (<[a := v]> (values s)) s).

Definition allocEnv (size : nat) (up : addr) : EM addr := λ s,
  (Ok (length (envs s)), set_envs (envs s ++ [MkEnv (Some up) (replicate size None)]) s).
Definition get_env (a : addr) : EM Env := e ← get (λ s, envs s !! a); getO e.
Definition set_slot (a : addr) (i : nat) (v : addr) : EM unit :=
  e ← get_env a;
  if (i <? length (env_values e))%nat
  then modify (λ s, set_envs (<[a := MkEnv (env_up e) (<[i := Some v]> (env_values e))]> (envs s)) s)
  else throw UndefinedBehaviour.

Fixpoint go_up (a : addr) (level : nat) : EM addr :=
  match level with O => mret a | S level => e ← get_env a; up ← getO (env_up e); go_up up level end.
(** The slot; it is null as long as it is not initialised. *)
Definition get_slot (a : addr) (i : nat) : EM (option addr) := e ← get_env a; getO (env_values e !! i).

Definition createSymbol (x : str) : EM Symbol := λ s,
  let '(y, t) := symbol_create x (symbols s) in (Ok y, set_symbols t s).
Definition symbolStr (x : Symbol) : EM str := o ← get (λ s, symbol_str (symbols s) x); getO o.

(** * Attribute sets *)

Definition attr_get (b : list Attr) (name : Symbol) : EM (option addr) :=
  r ← lift (lower_bound (λ x : Attr, (x.1 <? name)%nat) b);
  mret (match r with Some x => if (x.1 =? name)%nat then Some x.2 else None | None => None end).

(** [std::sort] by name; the order of attributes of the same name would not be
    specified. *)
Fixpoint attr_insert (x : Attr) (l : list Attr) : list Attr :=
  match l with [] => [x] | y :: l' => if (x.1 <? y.1)%nat then x :: l else y :: attr_insert x l' end.
Definition attr_sort (l : list Attr) : EM (list Attr) :=
  if decide (NoDup l.*1) then mret (foldr attr_insert [] l) else throw UndefinedBehaviour.

Record Builder := MkBuilder { capacity : nat; bindings : list Attr }.
Definition buildBindings (capacity : nat) : EM Builder :=
  if (2 ^ 32 - 1 <? Z.of_nat capacity) then throw (Error "attribute set is too big") else mret (MkBuilder capacity []).
Definition push_back (b : Builder) (x : Attr) : EM Builder :=
  if (length (bindings b) <? capacity b)%nat then mret (MkBuilder (capacity b) (bindings b ++ [x])) else throw AssertionFailure.
Definition finish (b : Builder) : EM Value := l ← attr_sort (bindings b); mret (VAttrs l).
Definition alreadySorted (b : Builder) : EM Value := mret (VAttrs (bindings b)).
(** [BindingsBuilder::alloc], with the value. *)
Definition alloc_attr (b : Builder) (name : Symbol) (v : Value) : EM Builder := a ← allocValue v; push_back b (name, a).

(** * References *)

Inductive Ref := RVal (v : Value) | RAddr (a : addr).

Definition ref_same (r1 r2 : Ref) : bool := match r1, r2 with RAddr a, RAddr b => (a =? b)%nat | _, _ => false end.
(** A pointer to the value; values on the stack are copied to the heap, which
    makes no difference for values that are evaluated. *)
Definition ref_addr (r : Ref) (v : Value) : EM addr := match r with RAddr a => mret a | RVal _ => allocValue v end.
