(* ===== verification/Eval.v ===== *)
(** The evaluator: [libexpr/eval.cc], [include/bsd/expr/eval-inline.hh].

    The functions of the code call each other recursively without bound. Here
    each takes the record [E] of the functions it calls, and [evaluator] ties
    the knot with fuel; running out of it throws [NonTermination] (see the file
    [Primops]). The target of an
    evaluation, [Value & v] in the code, is the result: no function of the code
    reads it or writes it before it knows the result, except [forceValue],
    which is modelled with its updates. What an error collects on its way (trace
    and suggestions, for which the code evaluates attribute names again) is left
    out. *)

From S2P Require Import Prelude State Strings Lexical Xp CanonPath StorePath DerivedPath Expr Value.

(** * Symbols the evaluator knows, in the order they are created *)

Definition initial_symbols : SymbolTable := [
  "<with>"; "outPath"; "drvPath"; "type"; "meta"; "name"; "value"; "system"; "__overrides"; "outputs";
  "outputName"; "__ignoreNulls"; "file"; "line"; "column"; "__functor"; "__toString"; "right"; "wrong"; "__structuredAttrs";
  "__json"; "allowedReferences"; "allowedRequisites"; "disallowedReferences"; "disallowedRequisites"; "maxSize";
  "maxClosureSize"; "builder"; "args"; "__contentAddressed"; "__impure"; "outputHash"; "outputHashAlgo"; "outputHashMode";
  "recurseForDerivations"; "description"; "self"; ""; "startSet"; "operator"; "key"; "path"; "prefix"; "outputSpecified";
  "__sub"; "__lessThan"; "__mul"; "__div"; "or"; "__findFile"; "__bsdPath"; "body"
]%str.
Definition sOutPath : Symbol := 2.
Definition sType : Symbol := 4.
Definition sName : Symbol := 6.
Definition sValue : Symbol := 7.
Definition sOverrides : Symbol := 9.
Definition sOutputs : Symbol := 10.
Definition sFunctor : Symbol := 16.
Definition sToString : Symbol := 17.
Definition sRight : Symbol := 18.
Definition sWrong : Symbol := 19.
Definition sStartSet : Symbol := 39.
Definition sOperator : Symbol := 40.
Definition sKey : Symbol := 41.

(** * The functions that call each other *)

Record Evaluator := MkEvaluator {
  ev_eval : Expr → addr → EM Value;
  (** [callFunction], and its loop over the arguments *)
  ev_call : Ref → list addr → EM Value;
  ev_loop : Value → Value → list addr → EM Value;
  (** [coerceMore], [copyToStore] *)
  ev_coerce : Ref → BsdStringContext → bool → bool → EM (str * BsdStringContext);
  ev_eq : Ref → Ref → EM bool;
  ev_assertEq : Ref → Ref → EM unit;
  ev_deep : list addr → Ref → EM (list addr);
  ev_prim : PrimOp → list addr → EM Value;
  (** [CompareValues], and the loop of [genericClosure] *)
  ev_compare : addr → addr → EM bool;
  ev_closure : addr → list addr → list addr → list addr → EM (list addr);
}.

(** What the code takes from elsewhere: settings, the copying of sources to the
    store and other questions to it, [std::to_string] on floating-point numbers,
    Boost's [lexical_cast]. *)
Record Config := MkConfig {
  maxCallDepth : nat;
  storeDir : str;
  xpSettings : XpSettings;
  fetchToStore : nat → str → result StorePath;
  to_string_double : spec_float → str;
  lexical_cast : IntType → str → option Z;
  resolveDerivedPath : SingleDerivedPath → result StorePath;
  ensurePath : StorePath → result unit;
  readOnlyMode : bool;
}.

Section eval.
Context (cfg : Config).

Section functions.
Context (E : Evaluator).

(** * Forcing *)

Definition forceValue (r : Ref) : EM Value :=
  match r with
  | RAddr a =>
      v ← get_value a;
      match v with
      | VThunk env e =>
          set_value a VBlackhole;;
          v ← catch (ev_eval E e env) (λ x, Some (set_value a (VThunk env e);; throw x));
          set_value a v;; mret v
      | VBlackhole => throw InfiniteRecursionError
      | VApp l r => v ← ev_call E (RAddr l) [r]; set_value a v;; mret v
      | _ => mret v
      end
  | RVal v =>
      match v with
      | VThunk env e => ev_eval E e env
      | VBlackhole => throw InfiniteRecursionError
      | VApp l r => ev_call E (RAddr l) [r]
      | _ => mret v
      end
  end.

Definition forceAttrs (r : Ref) : EM (list Attr) :=
  v ← forceValue r;
  match v with VAttrs b => mret b | _ => throw (TypeError "expected a set") end.
Definition forceList (r : Ref) : EM (list addr) :=
  v ← forceValue r;
  match v with VList l => mret l | _ => throw (TypeError "expected a list") end.
Definition forceInt (r : Ref) : EM Z :=
  v ← forceValue r;
  match v with VInt n => mret n | _ => throw (TypeError "expected an integer") end.
Definition forceFloat (r : Ref) : EM spec_float :=
  v ← forceValue r;
  match v with VInt n => mret (to_double n) | VFloat f => mret f | _ => throw (TypeError "expected a float") end.
Definition forceBool (r : Ref) : EM bool :=
  v ← forceValue r;
  match v with VBool b => mret b | _ => throw (TypeError "expected a Boolean") end.
Definition forceString (r : Ref) : EM (str * list str) :=
  v ← forceValue r;
  match v with VString s c => mret (s, c) | _ => throw (TypeError "expected a string") end.

Definition copyContext (encoded : list str) (context : BsdStringContext) : EM BsdStringContext :=
  foldS (λ c x, x ← lift (ctx_parse (xpSettings cfg) x); mret (ctx_insert x c)) context encoded.
Definition forceStringCtx (r : Ref) (context : BsdStringContext) : EM (str * BsdStringContext) :=
  '(s, c) ← forceString r;
  context ← copyContext c context;
  mret (s, context).
Definition forceStringNoCtx (r : Ref) : EM str :=
  '(s, c) ← forceString r;
  match c with [] => mret s | _ => throw (EvalError "the string is not allowed to refer to a store path") end.

Definition isFunctor (v : Value) : EM bool :=
  match v with VAttrs b => f ← attr_get b sFunctor; mret (bool_decide (is_Some f)) | _ => mret false end.
Definition forceFunction (r : Ref) : EM Value :=
  v ← forceValue r;
  f ← (if decide (type v = nFunction) then mret true else isFunctor v);
  if f : bool then mret v else throw (TypeError "expected a function").

(** * Variables *)

Fixpoint lookup_with (env : addr) (name : Symbol) (w : With) : EM addr :=
  match w with
  | MkWith prevWith parentWith =>
      o ← get_slot env 0; a ← getO o;
      b ← forceAttrs (RAddr a);
      j ← attr_get b name;
      match j with
      | Some v => mret v
      | None =>
          match parentWith with
          | None => throw (UndefinedVarError "undefined variable")
          | Some w' => env ← go_up env prevWith; lookup_with env name w'
          end
      end
  end.

(** [lookupVar] without [noEval]. *)
Definition lookupVar (env : addr) (name : Symbol) (fromWith : option With) (level displ : nat) : EM addr :=
  env ← go_up env level;
  match fromWith with
  | None => o ← get_slot env displ; getO o
  | Some w => lookup_with env name w
  end.

(** The thunk of an expression, or the value if it is at hand. [lookupVar] with
    [noEval] looks only into the environment. Constants are copied: pointers to
    them are only compared where their contents are, too. *)
Definition mkThunk (e : Expr) (env : addr) : EM addr := allocValue (VThunk env e).
Definition thunkVar (e : Expr) (env : addr) (fromWith : option With) (level displ : nat) : EM addr :=
  env' ← go_up env level;
  match fromWith with
  | None => o ← get_slot env' displ; match o with Some v => mret v | None => mkThunk e env end
  | Some _ => mkThunk e env
  end.
Definition maybeThunk (e : Expr) (env : addr) : EM addr :=
  match e with
  | ExprInt n => allocValue (VInt n)
  | ExprFloat f => allocValue (VFloat f)
  | ExprString s => allocValue (VString (c_str s) [])
  | ExprPath a p => allocValue (VPath a (c_str p))
  | ExprVar _ fromWith level displ => thunkVar e env fromWith level displ
  | ExprInheritFrom displ => thunkVar e env None 0 displ
  | ExprList [] => allocValue (VList [])
  | _ => mkThunk e env
  end.

(** * Expressions *)

Definition evalBool (env : addr) (e : Expr) : EM bool :=
  v ← ev_eval E e env;
  match v with VBool b => mret b | _ => throw (TypeError "expected a Boolean") end.
Definition evalAttrs (env : addr) (e : Expr) : EM (list Attr) :=
  v ← ev_eval E e env;
  match v with VAttrs b => mret b | _ => throw (TypeError "expected a set") end.

Definition getName (name : Symbol + Expr) (env : addr) : EM Symbol :=
  match name with
  | inl x => mret x
  | inr e => v ← ev_eval E e env; s ← forceStringNoCtx (RVal v); createSymbol s
  end.

Definition buildInheritFromEnv (froms : list Expr) (up : addr) : EM addr :=
  inheritEnv ← allocEnv (length froms) up;
  foldS (λ displ from, v ← maybeThunk from up; set_slot inheritEnv displ v;; mret (S displ)) 0%nat froms;;
  mret inheritEnv.
Definition inheritEnvOf (froms : option (list Expr)) (up : addr) : EM (option addr) :=
  match froms with Some l => Some <$> buildInheritFromEnv l up | None => mret None end.

(** The environment the definition of an attribute is evaluated in. *)
Definition attr_env (d : AttrDef Expr) (plain inherited : addr) (inheritedFrom : option addr) : EM addr :=
  getO (chooseByKind d (Some plain) (Some inherited) inheritedFrom).

Definition find_attr (x : Symbol) (l : list (Symbol * AttrDef Expr)) : option (AttrDef Expr) :=
  (λ r : nat * (Symbol * AttrDef Expr), r.2.2) <$> list_find (λ d : Symbol * AttrDef Expr, d.1 = x) l.

(** Indexing without a check. *)
Definition attr_at (b : list Attr) (i : nat) : EM Attr := getO (b !! i).
Definition set_attr (b : Builder) (i : nat) (x : Attr) : EM Builder :=
  if (i <? length (bindings b))%nat then mret (MkBuilder (capacity b) (<[i := x]> (bindings b))) else throw UndefinedBehaviour.
Definition grow (b : Builder) (newCapacity : nat) : EM Builder :=
  b' ← buildBindings newCapacity; foldS push_back b' (bindings b).

(** The static attributes of a recursive set, in the new environment. *)
Definition rec_attrs (a : AttrsOf Expr) (env env2 : addr) (inheritEnv : option addr) (hasOverrides : bool) (b : Builder) : EM Builder :=
  r ← foldS (λ (st : nat * Builder) (x : Symbol * AttrDef Expr),
      let '(displ, b) := st in
      env' ← attr_env x.2 env2 env inheritEnv;
      v ← (if hasOverrides && negb (match ad_kind x.2 with Inherited => true | _ => false end)
           then mkThunk (ad_e x.2) env' else maybeThunk (ad_e x.2) env');
      set_slot env2 displ v;;
      b ← push_back b (x.1, v);
      mret (S displ, b)) (0%nat, b) (attrs a);
  mret r.2.

(** The attributes of [__overrides]. *)
Definition apply_overrides (a : AttrsOf Expr) (env2 : addr) (d : AttrDef Expr) (b : Builder) : EM Builder :=
  x ← attr_at (bindings b) (ad_displ d);
  o ← forceAttrs (RAddr x.2);
  b ← grow b (capacity b + length o);
  foldS (λ b (i : Attr),
      match find_attr i.1 (attrs a) with
      | Some j => b ← set_attr b (ad_displ j) i; set_slot env2 (ad_displ j) i.2;; mret b
      | None => push_back b i
      end) b o.

Definition dynamic_attr (dynamicEnv : addr) (st : Builder * bool) (x : Expr * Expr) : EM (Builder * bool) :=
  let '(b, sort) := st in
  nameVal ← ev_eval E x.1 dynamicEnv;
  nameVal ← forceValue (RVal nameVal);
  match nameVal with
  | VNull => mret (b, sort)
  | _ =>
      s ← forceStringNoCtx (RVal nameVal);
      nameSym ← createSymbol s;
      l ← (if sort : bool then attr_sort (bindings b) else mret (bindings b));
      j ← attr_get l nameSym;
      match j with
      | Some _ => throw (EvalError "dynamic attribute already defined")
      | None =>
          v ← maybeThunk x.2 dynamicEnv;
          b ← push_back (MkBuilder (capacity b) l) (nameSym, v);
          mret (b, true)
      end
  end.

Definition eval_Attrs (a : AttrsOf Expr) (env : addr) : EM Value :=
  b ← buildBindings (length (attrs a) + length (dynamicAttrs a));
  st ← (if recursive a then
          env2 ← allocEnv (length (attrs a)) env;
          inheritEnv ← inheritEnvOf (inheritFromExprs a) env2;
          let overrides := find_attr sOverrides (attrs a) in
          b ← rec_attrs a env env2 inheritEnv (bool_decide (is_Some overrides)) b;
          match overrides with
          | Some d => b ← apply_overrides a env2 d b; mret (b, true, env2)
          | None => mret (b, false, env2)
          end
        else
          inheritEnv ← inheritEnvOf (inheritFromExprs a) env;
          b ← foldS (λ b (x : Symbol * AttrDef Expr),
                  env' ← attr_env x.2 env env inheritEnv;
                  v ← maybeThunk (ad_e x.2) env';
                  push_back b (x.1, v)) b (attrs a);
          mret (b, false, env));
  let '(b, sort, dynamicEnv) := st : Builder * bool * addr in
  st ← foldS (dynamic_attr dynamicEnv) (b, sort) (dynamicAttrs a);
  let '(b, sort) := st : Builder * bool in
  if sort then finish b else alreadySorted b.

Definition eval_Let (a : AttrsOf Expr) (body : Expr) (env : addr) : EM Value :=
  env2 ← allocEnv (length (attrs a)) env;
  inheritEnv ← inheritEnvOf (inheritFromExprs a) env2;
  foldS (λ displ (x : Symbol * AttrDef Expr),
      env' ← attr_env x.2 env2 env inheritEnv;
      v ← maybeThunk (ad_e x.2) env';
      set_slot env2 displ v;; mret (S displ)) 0%nat (attrs a);;
  ev_eval E body env2.

Definition eval_List (elems : list Expr) (env : addr) : EM Value :=
  l ← mapS (λ e, maybeThunk e env) elems; mret (VList l).

Definition eval_Var (env : addr) (name : Symbol) (fromWith : option With) (level displ : nat) : EM Value :=
  a ← lookupVar env name fromWith level displ; forceValue (RAddr a).

Fixpoint select_loop (env : addr) (def : option Expr) (path : list (Symbol + Expr)) (vAttrs : Ref) : EM Value :=
  match path with
  | [] => forceValue vAttrs
  | i :: path =>
      name ← getName i env;
      match def with
      | Some d =>
          v ← forceValue vAttrs;
          match v with
          | VAttrs b =>
              j ← attr_get b name;
              match j with Some a => select_loop env def path (RAddr a) | None => ev_eval E d env end
          | _ => ev_eval E d env
          end
      | None =>
          b ← forceAttrs vAttrs;
          j ← attr_get b name;
          match j with Some a => select_loop env def path (RAddr a) | None => throw (EvalError "attribute missing") end
      end
  end.
Definition eval_Select (e : Expr) (path : list (Symbol + Expr)) (def : option Expr) (env : addr) : EM Value :=
  v ← ev_eval E e env; select_loop env def path (RVal v).

Fixpoint hasAttr_loop (env : addr) (path : list (Symbol + Expr)) (vAttrs : Ref) : EM Value :=
  match path with
  | [] => mret (VBool true)
  | i :: path =>
      v ← forceValue vAttrs;
      name ← getName i env;
      match v with
      | VAttrs b =>
          j ← attr_get b name;
          match j with Some a => hasAttr_loop env path (RAddr a) | None => mret (VBool false) end
      | _ => mret (VBool false)
      end
  end.
Definition eval_OpHasAttr (e : Expr) (path : list (Symbol + Expr)) (env : addr) : EM Value :=
  v ← ev_eval E e env; hasAttr_loop env path (RVal v).

(** * Calls *)

(** The errors about arguments refer to [fun.lambda().env], [fn] being the value
    the call started with, of which [lambda()] is a member only if it is a
    function of the language. *)
Definition withFrame (fn : Value) : EM unit :=
  match fn with VLambda _ _ _ _ => mret tt | _ => throw InactiveMember end.

(** The arguments of a function with formals: [env2] is filled from [displ]. *)
Definition bind_formals (fn : Value) (env2 : addr) (b : list Attr) (fs : list (Symbol * option Expr)) (displ : nat) : EM nat :=
  r ← foldS (λ (st : nat * nat) (i : Symbol * option Expr),
      let '(displ, attrsUsed) := st in
      j ← attr_get b i.1;
      match j with
      | None =>
          match i.2 with
          | None => withFrame fn;; throw (TypeError "function called without required argument")
          | Some d => v ← maybeThunk d env2; set_slot env2 displ v;; mret (S displ, attrsUsed)
          end
      | Some v => set_slot env2 displ v;; mret (S displ, S attrsUsed)
      end) (displ, 0%nat) fs;
  mret r.2.

(** The first unexpected argument; there has to be one. *)
Fixpoint unexpected_arg (fn : Value) (fs : list (Symbol * option Expr)) (b : list Attr) : EM unit :=
  match b with
  | [] => throw AssertionFailure
  | i :: b => h ← lift (has_sym fs i.1); if h : bool then unexpected_arg fn fs b else withFrame fn;; throw (TypeError "function called with unexpected argument")
  end.

Definition call_lambda (fn : Value) (env : addr) (arg : Symbol) (fs : option (FormalsOf Expr)) (body : Expr) (a : addr) : EM Value :=
  env2 ← allocEnv ((if (arg =? 0)%nat then 0 else 1) + match fs with Some f => length (formals f) | None => 0 end) env;
  match fs with
  | None => set_slot env2 0 a
  | Some f =>
      b ← forceAttrs (RAddr a);
      displ ← (if (arg =? 0)%nat then mret 0%nat else set_slot env2 0 a;; mret 1%nat);
      attrsUsed ← bind_formals fn env2 b (formals f) displ;
      if negb (ellipsis f) && negb (attrsUsed =? length b)%nat then unexpected_arg fn (formals f) b else mret tt
  end;;
  ev_eval E body env2.

Definition makeAppChain (vCur : Value) (args : list addr) : EM Value := mret (foldl VPrimOpApp vCur args).

(** The operation at the end of a chain, and the arguments so far. *)
Fixpoint app_chain (v : Value) : EM (PrimOp * list addr) :=
  match v with
  | VPrimOp p => mret (p, [])
  | VPrimOpApp l a => r ← app_chain l; mret (r.1, r.2 ++ [a])
  | _ => throw AssertionFailure
  end.

(** [arity - argsDone] is a [size_t]. *)
Definition args_left (p : PrimOp) (argsDone : nat) : Z := u64 (Z.of_nat (arity p) - Z.of_nat argsDone).

Definition call_loop (fn vCur : Value) (args : list addr) : EM Value :=
  match args with
  | [] => mret vCur
  | arg :: rest =>
      match vCur with
      | VLambda env x fs body => v ← call_lambda fn env x fs body arg; ev_loop E fn v rest
      | VPrimOp p =>
          if (length args <? arity p)%nat then makeAppChain vCur args
          else v ← ev_prim E p (take (arity p) args); ev_loop E fn v (drop (arity p) args)
      | VPrimOpApp _ _ =>
          '(p, done) ← app_chain vCur;
          let left := args_left p (length done) in
          if Z.of_nat (length args) <? left then makeAppChain vCur args
          else v ← ev_prim E p (done ++ take (Z.to_nat left) args); ev_loop E fn v (drop (Z.to_nat left) args)
      | VAttrs b =>
          functor ← attr_get b sFunctor;
          match functor with
          | Some f => self ← allocValue vCur; v ← ev_call E (RAddr f) [self; arg]; ev_loop E fn v rest
          | None => throw (TypeError "attempt to call something which is not a function")
          end
      | _ => throw (TypeError "attempt to call something which is not a function")
      end
  end.

(** [CallDepth] is counted down however the call ends. *)
Definition addCallDepth {A} (m : EM A) : EM A :=
  d ← get callDepth;
  if (maxCallDepth cfg <? d)%nat then throw StackOverflow
  else
    modify (set_callDepth (S d));;
    r ← catch m (λ x, Some (modify (set_callDepth d);; throw x));
    modify (set_callDepth d);; mret r.

Definition callFunction (fn : Ref) (args : list addr) : EM Value :=
  addCallDepth (vCur ← forceValue fn; call_loop vCur vCur args).

Definition eval_Call (fn : Expr) (args : list Expr) (env : addr) : EM Value :=
  vFun ← ev_eval E fn env;
  vArgs ← mapS (λ e, maybeThunk e env) args;
  ev_call E (RVal vFun) vArgs.

(** * Operators *)

Definition eval_With (attrs body : Expr) (env : addr) : EM Value :=
  env2 ← allocEnv 1 env;
  v ← maybeThunk attrs env;
  set_slot env2 0 v;;
  ev_eval E body env2.

Definition eval_If (cond then_ else_ : Expr) (env : addr) : EM Value :=
  c ← evalBool env cond; ev_eval E (if c : bool then then_ else else_) env.

Definition eval_Assert (cond body : Expr) (env : addr) : EM Value :=
  c ← evalBool env cond;
  if c : bool then ev_eval E body env
  else
    match cond with
    | ExprBinOp OpEq e1 e2 => v1 ← ev_eval E e1 env; v2 ← ev_eval E e2 env; ev_assertEq E (RVal v1) (RVal v2)
    | _ => mret tt
    end;;
    throw (AssertionError "assertion failed").

(** Merging, with preference for the second set. *)
Fixpoint merge_attrs (l : list Attr) : list Attr → list Attr :=
  fix go k :=
    match l, k with
    | i :: l', j :: k' =>
        if (i.1 =? j.1)%nat then j :: merge_attrs l' k'
        else if (i.1 <? j.1)%nat then i :: merge_attrs l' k
        else j :: go k'
    | [], _ => k
    | _, [] => l
    end.
Definition update (b1 b2 : list Attr) : EM Value :=
  if (length b1 =? 0)%nat then mret (VAttrs b2)
  else if (length b2 =? 0)%nat then mret (VAttrs b1)
  else
    b ← buildBindings (length b1 + length b2);
    b ← foldS push_back b (merge_attrs b1 b2);
    alreadySorted b.

Definition concatLists (lists : list Ref) : EM Value :=
  r ← mapS forceList lists;
  let len := sum_list (length <$> r) in
  match last (filter (λ l : list addr, l ≠ []) r) with
  | Some l => if (len =? length l)%nat then mret (VList l) else mret (VList (concat r))
  | None => mret (VList (concat r))
  end.

Definition eval_BinOp (op : BinOp) (e1 e2 : Expr) (env : addr) : EM Value :=
  match op with
  | OpEq => v1 ← ev_eval E e1 env; v2 ← ev_eval E e2 env; b ← ev_eq E (RVal v1) (RVal v2); mret (VBool b)
  | OpNEq => v1 ← ev_eval E e1 env; v2 ← ev_eval E e2 env; b ← ev_eq E (RVal v1) (RVal v2); mret (VBool (negb b))
  | OpAnd => b ← evalBool env e1; if b : bool then VBool <$> evalBool env e2 else mret (VBool false)
  | OpOr => b ← evalBool env e1; if b : bool then mret (VBool true) else VBool <$> evalBool env e2
  | OpImpl => b ← evalBool env e1; if b : bool then VBool <$> evalBool env e2 else mret (VBool true)
  | OpUpdate => b1 ← evalAttrs env e1; b2 ← evalAttrs env e2; update b1 b2
  | OpConcatLists => v1 ← ev_eval E e1 env; v2 ← ev_eval E e2 env; concatLists [RVal v1; RVal v2]
  end.

(** * Strings *)

Record ConcatState := MkConcat {
  cs_first : bool; cs_type : ValueType; cs_n : Z; cs_nf : spec_float; cs_s : list str; cs_context : BsdStringContext
}.
Definition concat_part (env : addr) (c : ConcatState) (e : Expr) : EM ConcatState :=
  vTmp ← ev_eval E e env;
  let firstType := if cs_first c then type vTmp else cs_type c in
  match firstType with
  | nInt =>
      match vTmp with
      | VInt n =>
          match checked (cs_n c + n) with
          | Some n => mret (MkConcat false nInt n (cs_nf c) (cs_s c) (cs_context c))
          | None => throw (EvalError "integer overflow")
          end
      | VFloat f => mret (MkConcat false nFloat (cs_n c) (fadd (to_double (cs_n c)) f) (cs_s c) (cs_context c))
      | _ => throw (EvalError "cannot add to an integer")
      end
  | nFloat =>
      match vTmp with
      | VInt n => mret (MkConcat false nFloat (cs_n c) (fadd (cs_nf c) (to_double n)) (cs_s c) (cs_context c))
      | VFloat f => mret (MkConcat false nFloat (cs_n c) (fadd (cs_nf c) f) (cs_s c) (cs_context c))
      | _ => throw (EvalError "cannot add to a float")
      end
  | _ =>
      '(part, context) ← ev_coerce E (RVal vTmp) (cs_context c) false (bool_decide (firstType = nString));
      mret (MkConcat false firstType (cs_n c) (cs_nf c) (cs_s c ++ [part]) context)
  end.
Definition eval_ConcatStrings (forceString : bool) (es : list Expr) (env : addr) : EM Value :=
  c ← foldS (concat_part env) (MkConcat (negb forceString) nString 0 (S754_zero false) [] []) es;
  match cs_type c with
  | nInt => mret (VInt (cs_n c))
  | nFloat => mret (VFloat (cs_nf c))
  | nPath =>
      match cs_context c with
      | [] => p ← lift (CanonPath_raw (concat (cs_s c))); mret (VPath 0 (c_str (abs p)))
      | _ => throw (EvalError "a string that refers to a store path cannot be appended to a path")
      end
  | _ => mret (mkString (concat (cs_s c)) (cs_context c))
  end.

(** * [eval] *)

Definition eval (e : Expr) (env : addr) : EM Value :=
  match e with
  | ExprInt n => mret (VInt n)
  | ExprFloat f => mret (VFloat f)
  | ExprString s => mret (VString (c_str s) [])
  | ExprPath a p => mret (VPath a (c_str p))
  | ExprVar name fromWith level displ => eval_Var env name fromWith level displ
  | ExprInheritFrom displ => eval_Var env 0 None 0 displ
  | ExprSelect e path def => eval_Select e path def env
  | ExprOpHasAttr e path => eval_OpHasAttr e path env
  | ExprAttrs a => eval_Attrs a env
  | ExprList l => eval_List l env
  | ExprLambda arg fs body => mret (VLambda env arg fs body)
  | ExprCall fn args => eval_Call fn args env
  | ExprLet a body => eval_Let a body env
  | ExprWith attrs body _ => eval_With attrs body env
  | ExprIf c t e => eval_If c t e env
  | ExprAssert c b => eval_Assert c b env
  | ExprOpNot e => VBool ∘ negb <$> evalBool env e
  | ExprBinOp op e1 e2 => eval_BinOp op e1 e2 env
  | ExprConcatStrings f es => eval_ConcatStrings f es env
  end.

(** * Coercion to strings *)

Definition copyPathToStore (context : BsdStringContext) (accessor : nat) (path : str) : EM (StorePath * BsdStringContext) :=
  if hasSuffix path drvExtension then throw (EvalError "file names are not allowed to end in '.drv'")
  else
    cached ← get (λ s, srcToStore s !! (accessor, path));
    dstPath ← match cached with
              | Some p => mret p
              | None =>
                  p ← lift (fetchToStore cfg accessor path);
                  modify (λ s, set_srcToStore (<[(accessor, path) := p]> (srcToStore s)) s);; mret p
              end;
    mret (dstPath, ctx_insert (CtxOpaque dstPath) context).

Definition tryAttrsToString (r : Ref) (b : list Attr) (context : BsdStringContext) (coerceMore copyToStore : bool) :
  EM (option (str * BsdStringContext)) :=
  i ← attr_get b sToString;
  match i with
  | Some f =>
      self ← ref_addr r (VAttrs b);
      v1 ← ev_call E (RAddr f) [self];
      Some <$> ev_coerce E (RVal v1) context coerceMore copyToStore
  | None => mret None
  end.

(** The elements of a list, with spaces between them. *)
Fixpoint coerce_list (l : list addr) (context : BsdStringContext) (coerceMore copyToStore : bool) : EM (str * BsdStringContext) :=
  match l with
  | [] => mret ([], context)
  | v2 :: l =>
      '(s, context) ← ev_coerce E (RAddr v2) context coerceMore copyToStore;
      v ← get_value v2;
      let sep := match l, v with [], _ => [] | _, VList [] => [] | _, _ => " "%str end in
      '(rest, context) ← coerce_list l context coerceMore copyToStore;
      mret (s ++ sep ++ rest, context)
  end.

(** [canonicalizePath] makes no difference: the path of a value is its string. *)
Definition coerceToString (r : Ref) (context : BsdStringContext) (coerceMore copyToStore : bool) : EM (str * BsdStringContext) :=
  v ← forceValue r;
  match v with
  | VString s c => context ← copyContext c context; mret (s, context)
  | VPath a p =>
      if copyToStore then
        '(dst, context) ← copyPathToStore context a p; mret (printStorePath (storeDir cfg) dst, context)
      else mret (p, context)
  | VAttrs b =>
      maybeString ← tryAttrsToString r b context coerceMore copyToStore;
      match maybeString with
      | Some x => mret x
      | None =>
          i ← attr_get b sOutPath;
          match i with
          | None => throw (TypeError "cannot coerce to a string")
          | Some a => ev_coerce E (RAddr a) context coerceMore copyToStore
          end
      end
  | _ =>
      if coerceMore then
        match v with
        | VBool true => mret ("1"%str, context)
        | VBool false | VNull => mret ([], context)
        | VInt n => mret (std_to_string n, context)
        | VFloat f => mret (to_string_double cfg f, context)
        | VList l => coerce_list l context coerceMore copyToStore
        | _ => throw (TypeError "cannot coerce to a string")
        end
      else throw (TypeError "cannot coerce to a string")
  end.

(** * Deep evaluation *)

Definition forceValueDeep (seen : list addr) (r : Ref) : EM (list addr) :=
  let '(again, seen) := match r with
                        | RAddr a => if decide (a ∈ seen) then (true, seen) else (false, a :: seen)
                        | RVal _ => (false, seen)
                        end in
  if again : bool then mret seen
  else
    v ← forceValue r;
    match v with
    | VAttrs b => foldS (λ seen (i : Attr), ev_deep E seen (RAddr i.2)) seen b
    | VList l => foldS (λ seen a, ev_deep E seen (RAddr a)) seen l
    | _ => mret seen
    end.

(** * Equality *)

Definition isDerivation (v : Value) : EM bool :=
  match v with
  | VAttrs b =>
      i ← attr_get b sType;
      match i with
      | None => mret false
      | Some a =>
          v ← forceValue (RAddr a);
          mret (match v with VString s _ => str_eqb s "derivation" | _ => false end)
      end
  | _ => mret false
  end.

Definition both_derivations (v1 v2 : Value) : EM bool :=
  d ← isDerivation v1; if d : bool then isDerivation v2 else mret false.

(** The output paths of two derivations, if both have one. *)
Definition out_paths (b1 b2 : list Attr) : EM (option (addr * addr)) :=
  d ← both_derivations (VAttrs b1) (VAttrs b2);
  if d : bool then
    i ← attr_get b1 sOutPath; j ← attr_get b2 sOutPath;
    mret (match i, j with Some i, Some j => Some (i, j) | _, _ => None end)
  else mret None.

Fixpoint eq_lists (l1 l2 : list addr) : EM bool :=
  match l1, l2 with
  | [], _ => mret true
  | _ :: _, [] => throw UndefinedBehaviour
  | a1 :: l1, a2 :: l2 => b ← ev_eq E (RAddr a1) (RAddr a2); if b : bool then eq_lists l1 l2 else mret false
  end.
Fixpoint eq_attrs (b1 b2 : list Attr) : EM bool :=
  match b1, b2 with
  | [], _ => mret true
  | _ :: _, [] => throw UndefinedBehaviour
  | i :: b1, j :: b2 =>
      if negb (i.1 =? j.1)%nat then mret false
      else b ← ev_eq E (RAddr i.2) (RAddr j.2); if b : bool then eq_attrs b1 b2 else mret false
  end.

Definition eqValues (r1 r2 : Ref) : EM bool :=
  v1 ← forceValue r1;
  v2 ← forceValue r2;
  if ref_same r1 r2 then mret true
  else
    match v1, v2 with
    | VInt n, VFloat f => mret (SFeqb (to_double n) f)
    | VFloat f, VInt n => mret (SFeqb f (to_double n))
    | VInt n, VInt m => mret (n =? m)
    | VBool b, VBool c => mret (Bool.eqb b c)
    | VString s _, VString t _ => mret (str_eqb s t)
    | VPath a p, VPath b q => mret ((a =? b)%nat && str_eqb p q)
    | VNull, VNull => mret true
    | VList l1, VList l2 => if negb (length l1 =? length l2)%nat then mret false else eq_lists l1 l2
    | VAttrs b1, VAttrs b2 =>
        o ← out_paths b1 b2;
        match o with
        | Some (i, j) => ev_eq E (RAddr i) (RAddr j)
        | None => if negb (length b1 =? length b2)%nat then mret false else eq_attrs b1 b2
        end
    | VFloat f, VFloat g => mret (SFeqb f g)
    | (VThunk _ _ | VBlackhole | VApp _ _), (VThunk _ _ | VBlackhole | VApp _ _) => throw AssertionFailure
    | _, _ => mret false
    end.

Definition neq {A} : EM A := throw (AssertionError "not equal").

Fixpoint assertEq_lists (l1 l2 : list addr) : EM unit :=
  match l1, l2 with
  | [], _ => mret tt
  | _ :: _, [] => throw UndefinedBehaviour
  | a1 :: l1, a2 :: l2 => ev_assertEq E (RAddr a1) (RAddr a2);; assertEq_lists l1 l2
  end.
(** [v1] and [v2] are the whole sets. *)
Fixpoint assertEq_attrs (v1 v2 b1 b2 : list Attr) : EM unit :=
  match b1, b2 with
  | [], _ => mret tt
  | _ :: _, [] => throw UndefinedBehaviour
  | i :: b1, j :: b2 =>
      (if negb (i.1 =? j.1)%nat then
         x ← attr_get v2 i.1;
         match x with
         | None => neq
         | Some _ => y ← attr_get v1 j.1; match y with None => neq | Some _ => throw AssertionFailure end
         end
       else mret tt);;
      ev_assertEq E (RAddr i.2) (RAddr j.2);; assertEq_attrs v1 v2 b1 b2
  end.

Definition is_number (v : Value) : bool := match v with VInt _ | VFloat _ => true | _ => false end.

Definition assertEqValues (r1 r2 : Ref) : EM unit :=
  v1 ← forceValue r1;
  v2 ← forceValue r2;
  if ref_same r1 r2 then mret tt
  else if is_number v1 && is_number v2 then
    b ← ev_eq E r1 r2; if b : bool then mret tt else neq
  else if decide (type v1 ≠ type v2) then neq
  else
    match v1, v2 with
    | VInt n, VInt m => if n =? m then mret tt else neq
    | VBool b, VBool c => if Bool.eqb b c then mret tt else neq
    | VString s _, VString t _ => if str_eqb s t then mret tt else neq
    | VPath a p, VPath b q => if negb (a =? b)%nat then neq else if str_eqb p q then mret tt else neq
    | VNull, VNull => mret tt
    | VList l1, VList l2 => if negb (length l1 =? length l2)%nat then neq else assertEq_lists l1 l2
    | VAttrs b1, VAttrs b2 =>
        o ← out_paths b1 b2;
        match o with
        | Some (i, j) => ev_assertEq E (RAddr i) (RAddr j)
        | None => if negb (length b1 =? length b2)%nat then neq else assertEq_attrs b1 b2 b1 b2
        end
    | VFloat f, VFloat g => if SFeqb f g then mret tt else neq
    | _, _ => match type v1 with nFunction => neq | _ => throw AssertionFailure end
    end.
End functions.

End eval.
