(* ===== verification/Primops.v ===== *)
(** Primitive operations and the whole evaluator.
    [libexpr/primops.cc], [libexpr/primops/context.cc].

    Modelled are the operations on values; those that read files, fetch, print,
    build derivations, match regular expressions or convert to and from JSON,
    XML and TOML are not. *)

From S2P Require Import Prelude State Strings Lexical Sort Xp CanonPath StorePath DerivedPath Names Expr Value Eval.

Section primops.
Context (cfg : Config) (E : Evaluator).

Abbreviation forceValueA a := (forceValue E (RAddr a)).

Definition arg (args : list addr) (i : nat) : EM addr := getO (args !! i).

(** [EvalState::getAttr]. *)
Definition getAttr (b : list Attr) (name : Symbol) : EM addr :=
  i ← attr_get b name; match i with Some a => mret a | None => throw (TypeError "attribute missing") end.

(** * Types *)

Definition type_test (t : ValueType) (args : list addr) : EM Value :=
  a ← arg args 0; v ← forceValueA a; mret (VBool (bool_decide (type v = t))).

Definition prim_typeOf (args : list addr) : EM Value :=
  a ← arg args 0;
  v ← forceValueA a;
  match type v with
  | nInt => mret (VString "int" [])
  | nBool => mret (VString "bool" [])
  | nString => mret (VString "string" [])
  | nPath => mret (VString "path" [])
  | nNull => mret (VString "null" [])
  | nAttrs => mret (VString "set" [])
  | nList => mret (VString "list" [])
  | nFunction => mret (VString "lambda" [])
  | nFloat => mret (VString "float" [])
  | nThunk => throw AssertionFailure
  end.

(** * Comparison *)

Fixpoint compare_lists (l1 l2 : list addr) : EM bool :=
  match l2, l1 with
  | [], _ => mret false
  | _ :: _, [] => mret true
  | a2 :: l2, a1 :: l1 =>
      e ← ev_eq E (RAddr a1) (RAddr a2);
      if e : bool then compare_lists l1 l2 else ev_compare E a1 a2
  end.

Definition CompareValues (a1 a2 : addr) : EM bool :=
  v1 ← get_value a1;
  v2 ← get_value a2;
  match v1, v2 with
  | VFloat f, VInt n => mret (SFltb f (to_double n))
  | VInt n, VFloat f => mret (SFltb (to_double n) f)
  | VInt n, VInt m => mret (n <? m)
  | VFloat f, VFloat g => mret (SFltb f g)
  | VString s _, VString t _ => mret (str_ltb s t)
  | VPath _ p, VPath _ q => mret (str_ltb p q)
  | VList l1, VList l2 => compare_lists l1 l2
  | _, _ => throw (EvalError "cannot compare")
  end.

Definition prim_lessThan (args : list addr) : EM Value :=
  a ← arg args 0; b ← arg args 1;
  forceValueA a;; forceValueA b;;
  VBool <$> CompareValues a b.

(** * Closures *)

(** Insertion into the set of keys, an ordered sequence; which of its elements a
    key is compared with is not specified by [std::set]. *)
Fixpoint key_insert (x : addr) (l : list addr) : EM (bool * list addr) :=
  match l with
  | [] => mret (true, [x])
  | y :: l' =>
      lt ← CompareValues y x;
      if lt : bool then '(ins, l') ← key_insert x l'; mret (ins, y :: l')
      else
        gt ← CompareValues x y;
        mret (if gt : bool then (true, x :: l) else (false, l))
  end.

Definition closure_loop (op : addr) (workSet doneKeys res : list addr) : EM (list addr) :=
  match workSet with
  | [] => mret res
  | e :: workSet =>
      b ← forceAttrs E (RAddr e);
      key ← getAttr b sKey;
      forceValueA key;;
      '(inserted, doneKeys) ← key_insert key doneKeys;
      if negb inserted then ev_closure E op workSet doneKeys res
      else
        newElements ← ev_call E (RAddr op) [e];
        l ← forceList E (RVal newElements);
        mapS (λ elem, forceValueA elem) l;;
        ev_closure E op (workSet ++ l) doneKeys (res ++ [e])
  end.

Definition prim_genericClosure (args : list addr) : EM Value :=
  a ← arg args 0;
  b ← forceAttrs E (RAddr a);
  startSet ← getAttr b sStartSet;
  workSet ← forceList E (RAddr startSet);
  match workSet with
  | [] => mret (VList [])
  | _ =>
      op ← getAttr b sOperator;
      forceFunction E (RAddr op);;
      VList <$> ev_closure E op workSet [] []
  end.

(** * Errors *)

(** In debug mode the code enters the debugger first. *)
Definition prim_break (args : list addr) : EM Value := a ← arg args 0; get_value a.

Definition prim_abort (args : list addr) : EM Value :=
  a ← arg args 0; '(s, _) ← ev_coerce E (RAddr a) [] false true; throw (EvalAbort s).
Definition prim_throw (args : list addr) : EM Value :=
  a ← arg args 0; '(s, _) ← ev_coerce E (RAddr a) [] false true; throw (ThrownError s).

(** The exceptions that are an [Error]. *)
Definition is_Error (e : exn) : bool :=
  match e with StdException _ | AssertionFailure | UndefinedBehaviour | InactiveMember | NonTermination => false | _ => true end.
Definition is_AssertionError (e : exn) : bool := match e with AssertionError _ | ThrownError _ => true | _ => false end.

Definition prim_addErrorContext (args : list addr) : EM Value :=
  a ← arg args 0; b ← arg args 1;
  catch (forceValueA b)
    (λ e, if is_Error e then Some (ev_coerce E (RAddr a) [] false false;; throw e) else None).

Definition prim_tryEval (args : list addr) : EM Value :=
  a ← arg args 0;
  b ← buildBindings 2;
  ok ← catch (forceValueA a;; mret true) (λ e, if is_AssertionError e then Some (mret false) else None);
  b ← (if ok : bool then push_back b (sValue, a) else alloc_attr b sValue (VBool false));
  success ← createSymbol "success";
  b ← alloc_attr b success (VBool ok);
  finish b.

Definition prim_seq (args : list addr) : EM Value :=
  a ← arg args 0; b ← arg args 1; forceValueA a;; forceValueA b.
Definition prim_deepSeq (args : list addr) : EM Value :=
  a ← arg args 0; b ← arg args 1; ev_deep E [] (RAddr a);; forceValueA b.

(** * Sets *)

(** [std::sort] by distinct keys. *)
Fixpoint key_sort_insert {A} (key : A → str) (x : A) (l : list A) : list A :=
  match l with [] => [x] | y :: l' => if str_ltb (key x) (key y) then x :: l else y :: key_sort_insert key x l' end.
Definition sort_by {A} (key : A → str) (l : list A) : EM (list A) :=
  if decide (NoDup (key <$> l)) then mret (foldr (key_sort_insert key) [] l) else throw UndefinedBehaviour.

(** [Value::toPtr], the string of a symbol. *)
Definition symbolValue (x : Symbol) : EM Value := s ← symbolStr x; mret (VString (c_str s) []).

Definition prim_attrNames (args : list addr) : EM Value :=
  a ← arg args 0;
  b ← forceAttrs E (RAddr a);
  names ← mapS (λ i : Attr, s ← symbolStr i.1; mret (c_str s)) b;
  names ← sort_by id names;
  VList <$> mapS (λ s, allocValue (VString s [])) names.

Definition prim_attrValues (args : list addr) : EM Value :=
  a ← arg args 0;
  b ← forceAttrs E (RAddr a);
  named ← mapS (λ i : Attr, s ← symbolStr i.1; mret (s, i.2)) b;
  named ← sort_by fst named;
  mret (VList named.*2).

Definition prim_getAttr (args : list addr) : EM Value :=
  a ← arg args 0; s ← arg args 1;
  attr ← forceStringNoCtx E (RAddr a);
  b ← forceAttrs E (RAddr s);
  name ← createSymbol attr;
  i ← getAttr b name;
  forceValueA i.

Definition prim_hasAttr (args : list addr) : EM Value :=
  a ← arg args 0; s ← arg args 1;
  attr ← forceStringNoCtx E (RAddr a);
  b ← forceAttrs E (RAddr s);
  name ← createSymbol attr;
  i ← attr_get b name;
  mret (VBool (bool_decide (is_Some i))).

(** [std::set_difference] of sorted ranges. *)
Fixpoint set_difference (l : list Attr) : list Symbol → list Attr :=
  fix go k :=
    match l, k with
    | [], _ => []
    | _, [] => l
    | x :: l', y :: k' =>
        if (x.1 <? y)%nat then x :: set_difference l' k
        else if (y <? x.1)%nat then go k'
        else set_difference l' k'
    end.
Fixpoint sym_insert (x : Symbol) (l : list Symbol) : list Symbol :=
  match l with [] => [x] | y :: l' => if (x <? y)%nat then x :: l else y :: sym_insert x l' end.

Definition prim_removeAttrs (args : list addr) : EM Value :=
  a ← arg args 0; n ← arg args 1;
  b ← forceAttrs E (RAddr a);
  l ← forceList E (RAddr n);
  names ← mapS (λ elem, s ← forceStringNoCtx E (RAddr elem); createSymbol s) l;
  let names := foldr sym_insert [] names in
  r ← buildBindings (length b);
  r ← foldS push_back r (set_difference b names);
  alreadySorted r.

Definition prim_listToAttrs (args : list addr) : EM Value :=
  a ← arg args 0;
  l ← forceList E (RAddr a);
  b ← buildBindings (length l);
  r ← foldS (λ (st : Builder * list Symbol) v2,
      let '(b, seen) := st in
      p ← forceAttrs E (RAddr v2);
      j ← getAttr p sName;
      name ← forceStringNoCtx E (RAddr j);
      sym ← createSymbol name;
      if decide (sym ∈ seen) then mret (b, seen)
      else j2 ← getAttr p sValue; b ← push_back b (sym, j2); mret (b, sym :: seen)) (b, []) l;
  finish r.1.

Definition prim_intersectAttrs (args : list addr) : EM Value :=
  x ← arg args 0; y ← arg args 1;
  left ← forceAttrs E (RAddr x);
  right ← forceAttrs E (RAddr y);
  b ← buildBindings (Nat.min (length left) (length right));
  b ← (if (length left <? length right)%nat then
         foldS (λ b (l : Attr), r ← attr_get right l.1; match r with Some v => push_back b (l.1, v) | None => mret b end) b left
       else
         foldS (λ b (r : Attr), l ← attr_get left r.1; match l with Some _ => push_back b r | None => mret b end) b right);
  alreadySorted b.

Definition prim_catAttrs (args : list addr) : EM Value :=
  x ← arg args 0; y ← arg args 1;
  s ← forceStringNoCtx E (RAddr x);
  attrName ← createSymbol s;
  l ← forceList E (RAddr y);
  res ← mapS (λ v2, b ← forceAttrs E (RAddr v2); attr_get b attrName) l;
  mret (VList (omap id res)).

Definition prim_functionArgs (args : list addr) : EM Value :=
  a ← arg args 0;
  v ← forceValueA a;
  match v with
  | VPrimOp _ | VPrimOpApp _ _ => mret (VAttrs [])
  | VLambda _ _ fs _ =>
      match fs with
      | None => mret (VAttrs [])
      | Some f =>
          b ← buildBindings (length (formals f));
          b ← foldS (λ b (i : Symbol * option Expr), alloc_attr b i.1 (VBool (bool_decide (is_Some i.2)))) b (formals f);
          alreadySorted b
      end
  | _ => throw (TypeError "'functionArgs' requires a function")
  end.

Definition prim_mapAttrs (args : list addr) : EM Value :=
  f ← arg args 0; y ← arg args 1;
  l ← forceAttrs E (RAddr y);
  b ← buildBindings (length l);
  b ← foldS (λ b (i : Attr),
      s ← symbolValue i.1;
      vName ← allocValue s;
      vFun2 ← allocValue (VApp f vName);
      alloc_attr b i.1 (VApp vFun2 i.2)) b l;
  alreadySorted b.

(** A map from names to the values collected for them, in the order of names. *)
Fixpoint multi_add (x : Symbol) (v : addr) (m : list (Symbol * list addr)) : list (Symbol * list addr) :=
  match m with
  | [] => [(x, [v])]
  | (y, l) :: m' =>
      if (x <? y)%nat then (x, [v]) :: m
      else if (x =? y)%nat then (y, l ++ [v]) :: m'
      else (y, l) :: multi_add x v m'
  end.

Definition prim_zipAttrsWith (args : list addr) : EM Value :=
  f ← arg args 0; y ← arg args 1;
  forceFunction E (RAddr f);;
  l ← forceList E (RAddr y);
  sets ← mapS (λ v, forceAttrs E (RAddr v)) l;
  let attrsSeen := foldl (λ m (i : Attr), multi_add i.1 i.2 m) [] (concat sets) in
  b ← buildBindings (length attrsSeen);
  b ← foldS (λ b (i : Symbol * list addr),
      s ← symbolValue i.1;
      name ← allocValue s;
      call1 ← allocValue (VApp f name);
      a ← allocValue (VList i.2);
      alloc_attr b i.1 (VApp call1 a)) b attrsSeen;
  alreadySorted b.

(** * Lists *)

Definition prim_elemAt (args : list addr) : EM Value :=
  x ← arg args 0; y ← arg args 1;
  n ← forceInt E (RAddr y);
  l ← forceList E (RAddr x);
  if (n <? 0) || (Z.of_nat (length l) <=? n) then throw (EvalError "'builtins.elemAt' called with an index out of range")
  else a ← getO (l !! Z.to_nat n); forceValueA a.

Definition prim_head (args : list addr) : EM Value :=
  x ← arg args 0;
  l ← forceList E (RAddr x);
  match l with [] => throw (EvalError "'builtins.head' called on an empty list") | a :: _ => forceValueA a end.

Definition prim_tail (args : list addr) : EM Value :=
  x ← arg args 0;
  l ← forceList E (RAddr x);
  match l with [] => throw (EvalError "'builtins.tail' called on an empty list") | _ :: l => mret (VList l) end.

Definition prim_map (args : list addr) : EM Value :=
  f ← arg args 0; y ← arg args 1;
  l ← forceList E (RAddr y);
  match l with
  | [] => mret (VList [])
  | _ => forceFunction E (RAddr f);; VList <$> mapS (λ a, allocValue (VApp f a)) l
  end.

(** The elements a predicate holds for. *)
Definition filter_elems (f : addr) (l : list addr) : EM (list (addr * bool)) :=
  mapS (λ a, res ← ev_call E (RAddr f) [a]; b ← forceBool E (RVal res); mret (a, b)) l.
Definition prim_filter (args : list addr) : EM Value :=
  f ← arg args 0; y ← arg args 1;
  l ← forceList E (RAddr y);
  match l with
  | [] => mret (VList [])
  | _ =>
      forceFunction E (RAddr f);;
      r ← filter_elems f l;
      if forallb snd r then mret (VList l) else mret (VList (filter (λ x, x.2 = true) r).*1)
  end.

Fixpoint elem_loop (x : addr) (l : list addr) : EM bool :=
  match l with
  | [] => mret false
  | a :: l => e ← ev_eq E (RAddr x) (RAddr a); if e : bool then mret true else elem_loop x l
  end.
Definition prim_elem (args : list addr) : EM Value :=
  x ← arg args 0; y ← arg args 1;
  l ← forceList E (RAddr y);
  VBool <$> elem_loop x l.

Definition prim_concatLists (args : list addr) : EM Value :=
  x ← arg args 0;
  l ← forceList E (RAddr x);
  concatLists E (RAddr <$> l).

Definition prim_length (args : list addr) : EM Value :=
  x ← arg args 0;
  l ← forceList E (RAddr x);
  mret (VInt (Z.of_nat (length l))).

Fixpoint foldl_loop (f cur : addr) (l : list addr) : EM Value :=
  match l with
  | [] => forceValueA cur
  | [x] => v ← ev_call E (RAddr f) [cur; x]; forceValue E (RVal v)
  | x :: l => v ← ev_call E (RAddr f) [cur; x]; cur ← allocValue v; foldl_loop f cur l
  end.
Definition prim_foldlStrict (args : list addr) : EM Value :=
  f ← arg args 0; nul ← arg args 1; y ← arg args 2;
  forceFunction E (RAddr f);;
  l ← forceList E (RAddr y);
  foldl_loop f nul l.

Fixpoint any_loop (any : bool) (f : addr) (l : list addr) : EM bool :=
  match l with
  | [] => mret (negb any)
  | a :: l =>
      vTmp ← ev_call E (RAddr f) [a];
      res ← forceBool E (RVal vTmp);
      if Bool.eqb res any then mret any else any_loop any f l
  end.
Definition anyOrAll (any : bool) (args : list addr) : EM Value :=
  f ← arg args 0; y ← arg args 1;
  forceFunction E (RAddr f);;
  l ← forceList E (RAddr y);
  VBool <$> any_loop any f l.

Definition prim_genList (args : list addr) : EM Value :=
  f ← arg args 0; y ← arg args 1;
  len ← forceInt E (RAddr y);
  if len <? 0 then throw (EvalError "cannot create list")
  else
    forceFunction E (RAddr f);;
    VList <$> mapS (λ n, a ← allocValue (VInt (Z.of_nat n)); allocValue (VApp f a)) (seq 0 (Z.to_nat len)).

(** The comparator given to [peeksort]. *)
Definition sort_comparator (f : addr) (a b : addr) : EM bool :=
  v ← get_value f;
  match v with
  | VPrimOp PLessThan => CompareValues a b
  | _ => vBool ← ev_call E (RAddr f) [a; b]; forceBool E (RVal vBool)
  end.
Definition prim_sort (args : list addr) : EM Value :=
  f ← arg args 0; y ← arg args 1;
  l ← forceList E (RAddr y);
  match l with
  | [] => mret (VList [])
  | _ =>
      forceFunction E (RAddr f);;
      mapS (λ a, forceValueA a) l;;
      VList <$> peeksort (sort_comparator f) l
  end.

Definition prim_partition (args : list addr) : EM Value :=
  f ← arg args 0; y ← arg args 1;
  forceFunction E (RAddr f);;
  l ← forceList E (RAddr y);
  r ← mapS (λ a, forceValueA a;; res ← ev_call E (RAddr f) [a]; b ← forceBool E (RVal res); mret (a, b)) l;
  b ← buildBindings 2;
  b ← alloc_attr b sRight (VList (filter (λ x, x.2 = true) r).*1);
  b ← alloc_attr b sWrong (VList (filter (λ x, x.2 = false) r).*1);
  finish b.

Definition prim_groupBy (args : list addr) : EM Value :=
  f ← arg args 0; y ← arg args 1;
  forceFunction E (RAddr f);;
  l ← forceList E (RAddr y);
  m ← foldS (λ m vElem,
      res ← ev_call E (RAddr f) [vElem];
      name ← forceStringNoCtx E (RVal res);
      sym ← createSymbol name;
      mret (multi_add sym vElem m)) [] l;
  b ← buildBindings (length m);
  b ← foldS (λ b (i : Symbol * list addr), alloc_attr b i.1 (VList i.2)) b m;
  alreadySorted b.

Definition prim_concatMap (args : list addr) : EM Value :=
  f ← arg args 0; y ← arg args 1;
  forceFunction E (RAddr f);;
  l ← forceList E (RAddr y);
  lists ← mapS (λ vElem, v ← ev_call E (RAddr f) [vElem]; forceList E (RVal v)) l;
  mret (VList (concat lists)).

(** * Numbers *)

Definition arith (iop : Z → Z → option Z) (fop : spec_float → spec_float → spec_float) (args : list addr) : EM Value :=
  a ← arg args 0; b ← arg args 1;
  v1 ← forceValueA a;
  v2 ← forceValueA b;
  if bool_decide (type v1 = nFloat) || bool_decide (type v2 = nFloat) then
    x ← forceFloat E (RAddr a); y ← forceFloat E (RAddr b); mret (VFloat (fop x y))
  else
    x ← forceInt E (RAddr a); y ← forceInt E (RAddr b);
    match iop x y with Some n => mret (VInt n) | None => throw (EvalError "integer overflow") end.

Definition prim_add := arith (λ x y, checked (x + y)) (SFadd prec emax).
Definition prim_sub := arith (λ x y, checked (x - y)) (SFsub prec emax).
Definition prim_mul := arith (λ x y, checked (x * y)) (SFmul prec emax).

Definition prim_div (args : list addr) : EM Value :=
  a ← arg args 0; b ← arg args 1;
  v1 ← forceValueA a;
  v2 ← forceValueA b;
  f2 ← forceFloat E (RAddr b);
  if SFeqb f2 (S754_zero false) then throw (EvalError "division by zero")
  else if bool_decide (type v1 = nFloat) || bool_decide (type v2 = nFloat) then
    x ← forceFloat E (RAddr a); mret (VFloat (SFdiv prec emax x f2))
  else
    x ← forceInt E (RAddr a); y ← forceInt E (RAddr b);
    match checked_div x y with DivOk n => mret (VInt n) | _ => throw (EvalError "integer overflow in dividing") end.

Definition bit_op (op : Z → Z → Z) (args : list addr) : EM Value :=
  a ← arg args 0; b ← arg args 1;
  x ← forceInt E (RAddr a); y ← forceInt E (RAddr b);
  mret (VInt (op x y)).

(** [floor] and [ceil] of a finite number. *)
Definition round_double (up : bool) (f : spec_float) : option Z :=
  match f with
  | S754_zero _ => Some 0
  | S754_finite s m e =>
      let n := if s then Z.neg m else Z.pos m in
      Some (if 0 <=? e then n * 2 ^ e else if up then - (- n / 2 ^ (- e)) else n / 2 ^ (- e))
  | _ => None
  end.
Definition prim_round (up : bool) (args : list addr) : EM Value :=
  a ← arg args 0;
  value ← forceFloat E (RAddr a);
  v ← get_value a;
  match round_double up value with
  | Some n =>
      if in_i64 n then
        match v with
        | VInt m => if m =? n then mret (VInt n) else throw (EvalError "a loss of precision occurred")
        | _ => mret (VInt n)
        end
      else throw (EvalError "the argument is not in the range of BsdInt")
  | None => throw (EvalError "the argument is not in the range of BsdInt")
  end.

(** * Strings *)

Definition prim_toString (args : list addr) : EM Value :=
  a ← arg args 0; '(s, c) ← ev_coerce E (RAddr a) [] true false; mret (mkString s c).

Definition prim_substring (args : list addr) : EM Value :=
  x ← arg args 0; y ← arg args 1; z ← arg args 2;
  start ← forceInt E (RAddr x);
  if start <? 0 then throw (EvalError "negative start position in 'substring'")
  else
    len ← forceInt E (RAddr y);
    empty ← (if len =? 0 then
               v ← forceValueA z;
               mret (match v with VString _ c => Some (VString [] c) | _ => None end)
             else mret None);
    match empty with
    | Some v => mret v
    | None =>
        '(s, c) ← ev_coerce E (RAddr z) [] false true;
        let rest := if Z.of_nat (length s) <=? start then [] else drop (Z.to_nat start) s in
        mret (mkString (if len <? 0 then rest else take (Z.to_nat len) rest) c)
    end.

Definition prim_stringLength (args : list addr) : EM Value :=
  a ← arg args 0; '(s, _) ← ev_coerce E (RAddr a) [] false true; mret (VInt (Z.of_nat (length s))).

Fixpoint concat_sep_loop (sep : str) (first : bool) (l : list addr) (res : str) (c : BsdStringContext) : EM (str * BsdStringContext) :=
  match l with
  | [] => mret (res, c)
  | a :: l =>
      '(s, c) ← ev_coerce E (RAddr a) c false true;
      concat_sep_loop sep false l ((if first then res else res ++ sep) ++ s) c
  end.
Definition prim_concatStringsSep (args : list addr) : EM Value :=
  x ← arg args 0; y ← arg args 1;
  '(sep, c) ← forceStringCtx cfg E (RAddr x) [];
  l ← forceList E (RAddr y);
  '(res, c) ← concat_sep_loop sep true l [] c;
  mret (mkString res c).

(** The first pattern at a position, with its index. *)
Fixpoint find_pattern (s : str) (from : list str) (i : nat) : option (nat * str) :=
  match from with
  | [] => None
  | f :: from => if bool_decide (take (length f) s = f) then Some (i, f) else find_pattern s from (S i)
  end.
(** The loop over the positions; [s] is what is left from position [p] on. *)
Fixpoint replace_loop (fuel : nat) (from : list str) (to : list addr) (cache : gmap nat str) (s res : str) (c : BsdStringContext) :
  EM (str * BsdStringContext) :=
  match fuel with
  | O => throw NonTermination
  | S fuel =>
      match find_pattern s from 0 with
      | Some (j, f) =>
          '(t, cache, c) ← match cache !! j with
                           | Some t => mret (t, cache, c)
                           | None =>
                               a ← getO (to !! j);
                               '(t, ctx) ← forceStringCtx cfg E (RAddr a) [];
                               mret (t, <[j := t]> cache, foldl (λ c x, ctx_insert x c) c ctx)
                           end;
          match f, s with
          | [], [] => mret (res ++ t, c)
          | [], x :: s => replace_loop fuel from to cache s (res ++ t ++ [x]) c
          | _, _ => replace_loop fuel from to cache (drop (length f) s) (res ++ t) c
          end
      | None =>
          match s with [] => mret (res, c) | x :: s => replace_loop fuel from to cache s (res ++ [x]) c end
      end
  end.
Definition prim_replaceStrings (args : list addr) : EM Value :=
  x ← arg args 0; y ← arg args 1; z ← arg args 2;
  l0 ← forceList E (RAddr x);
  l1 ← forceList E (RAddr y);
  if negb (length l0 =? length l1)%nat then throw (EvalError "'from' and 'to' have different lengths")
  else
    from ← mapS (λ a, '(s, _) ← forceString E (RAddr a); mret s) l0;
    '(s, c) ← forceStringCtx cfg E (RAddr z) [];
    '(res, c) ← replace_loop (S (length s)) from l1 ∅ s [] c;
    mret (mkString res c).

(** * Paths and versions *)

(** [rfind('/', last)]. *)
Definition legacyBaseNameOf (path : str) : str :=
  match path with
  | [] => []
  | _ =>
      let last := (length path - 1)%nat in
      let last := if at_is path last slash && (0 <? last)%nat then (last - 1)%nat else last in
      let pos := match rfindPathSep (take (last + 1) path) with None => 0%nat | Some p => (p + 1)%nat end in
      take (last + 1 - pos) (drop pos path)
  end.
Definition prim_baseNameOf (args : list addr) : EM Value :=
  a ← arg args 0; '(s, c) ← ev_coerce E (RAddr a) [] false false; mret (mkString (legacyBaseNameOf s) c).

Definition prim_dirOf (args : list addr) : EM Value :=
  a ← arg args 0;
  v ← forceValueA a;
  match v with
  | VPath acc p =>
      if isRoot (MkCanonPath p) then mret v
      else
        match parent (MkCanonPath p) with
        | Some q => mret (VPath acc (abs q))
        | None => throw AssertionFailure
        end
  | _ => '(s, c) ← ev_coerce E (RAddr a) [] false false; mret (mkString (fs_dirOf s) c)
  end.

Definition prim_parseDrvName (args : list addr) : EM Value :=
  a ← arg args 0;
  s ← forceStringNoCtx E (RAddr a);
  let parsed := DrvName_new s in
  b ← buildBindings 2;
  b ← alloc_attr b sName (mkString (name parsed) []);
  version ← createSymbol "version";
  b ← alloc_attr b version (mkString (Names.version parsed) []);
  finish b.

Definition prim_compareVersions (args : list addr) : EM Value :=
  a ← arg args 0; b ← arg args 1;
  s ← forceStringNoCtx E (RAddr a);
  t ← forceStringNoCtx E (RAddr b);
  c ← lift (compareVersions (lexical_cast cfg) s t);
  mret (VInt (match c with Lt => -1 | Gt => 1 | Eq => 0 end)).

Fixpoint split_components (fuel : nat) (p : str) : list str :=
  match fuel with
  | O => []
  | S fuel =>
      match p with
      | [] => []
      | _ => let '(c, p) := nextComponent p in match c with [] => [] | _ => c :: split_components fuel p end
      end
  end.
Definition prim_splitVersion (args : list addr) : EM Value :=
  a ← arg args 0;
  s ← forceStringNoCtx E (RAddr a);
  VList <$> mapS (λ c, allocValue (mkString c [])) (split_components (length s) s).

(** * String contexts *)

Definition prim_unsafeDiscardStringContext (args : list addr) : EM Value :=
  a ← arg args 0; '(s, _) ← ev_coerce E (RAddr a) [] false true; mret (mkString s []).

Definition prim_hasContext (args : list addr) : EM Value :=
  a ← arg args 0; '(_, c) ← forceStringCtx cfg E (RAddr a) []; mret (VBool (negb (bool_decide (c = [])))).

Definition prim_unsafeDiscardOutputDependency (args : list addr) : EM Value :=
  a ← arg args 0;
  '(s, c) ← ev_coerce E (RAddr a) [] false true;
  let c2 := foldl (λ c2 x, ctx_insert (match x with CtxDrvDeep p => CtxOpaque p | _ => x end) c2) [] c in
  mret (mkString s c2).

Definition prim_addDrvOutputDependencies (args : list addr) : EM Value :=
  a ← arg args 0;
  '(s, c) ← ev_coerce E (RAddr a) [] false true;
  match c with
  | [CtxOpaque p] => if StorePath.isDerivation p then mret (mkString s [CtxDrvDeep p]) else throw (EvalError "path is not a derivation")
  | [CtxBuilt _ _] => throw (EvalError "`addDrvOutputDependencies` can only act on derivations, not on a derivation output")
  | [CtxDrvDeep p] => mret (mkString s [CtxDrvDeep p])
  | _ => throw (EvalError "context of string must have exactly one element")
  end.

Record ContextInfo := MkContextInfo { ci_path : bool; ci_allOutputs : bool; ci_outputs : list str }.
(** [contextInfos[p]] is updated; the map is ordered by path. *)
Fixpoint ci_update (p : StorePath) (f : ContextInfo → ContextInfo) (m : list (StorePath * ContextInfo)) : list (StorePath * ContextInfo) :=
  match m with
  | [] => [(p, f (MkContextInfo false false []))]
  | (q, i) :: m' =>
      match sp_compare p q with
      | Lt => (p, f (MkContextInfo false false [])) :: m
      | Eq => (q, f i) :: m'
      | Gt => (q, i) :: ci_update p f m'
      end
  end.
Definition ci_add (m : list (StorePath * ContextInfo)) (x : BsdStringContextElem) : result (list (StorePath * ContextInfo)) :=
  match x with
  | CtxDrvDeep p => Ok (ci_update p (λ i, MkContextInfo (ci_path i) true (ci_outputs i)) m)
  | CtxBuilt d o =>
      p ← resolveDerivedPath cfg d;
      Ok (ci_update p (λ i, MkContextInfo (ci_path i) (ci_allOutputs i) (ci_outputs i ++ [o])) m)
  | CtxOpaque p => Ok (ci_update p (λ i, MkContextInfo true (ci_allOutputs i) (ci_outputs i)) m)
  end.
Definition ci_value (sPath sAllOutputs : Symbol) (i : ContextInfo) : EM Value :=
  b ← buildBindings 3;
  b ← (if ci_path i then alloc_attr b sPath (VBool true) else mret b);
  b ← (if ci_allOutputs i then alloc_attr b sAllOutputs (VBool true) else mret b);
  b ← match ci_outputs i with
      | [] => mret b
      | l => l ← mapS (λ o, allocValue (mkString o [])) l; alloc_attr b sOutputs (VList l)
      end;
  finish b.
Definition prim_getContext (args : list addr) : EM Value :=
  a ← arg args 0;
  '(_, c) ← forceStringCtx cfg E (RAddr a) [];
  infos ← lift (foldR ci_add [] c);
  b ← buildBindings (length infos);
  sPath ← createSymbol "path";
  sAllOutputs ← createSymbol "allOutputs";
  b ← foldS (λ b (x : StorePath * ContextInfo),
      v ← ci_value sPath sAllOutputs x.2;
      name ← createSymbol (printStorePath (storeDir cfg) x.1);
      alloc_attr b name v) b infos;
  finish b.

(** One attribute of the second argument of [appendContext]. *)
Definition append_one (sPath sAllOutputs : Symbol) (c : BsdStringContext) (i : Attr) : EM BsdStringContext :=
  name ← symbolStr i.1;
  isPath ← lift (isStorePath (storeDir cfg) name);
  if negb isPath then throw (EvalError "context key is not a store path")
  else
    namePath ← lift (parseStorePath (storeDir cfg) name);
    (if readOnlyMode cfg then mret tt else lift (ensurePath cfg namePath));;
    b ← forceAttrs E (RAddr i.2);
    p ← attr_get b sPath;
    c ← match p with
        | Some a => p ← forceBool E (RAddr a); mret (if p : bool then ctx_insert (CtxOpaque namePath) c else c)
        | None => mret c
        end;
    o ← attr_get b sAllOutputs;
    c ← match o with
        | Some a =>
            p ← forceBool E (RAddr a);
            if p : bool then
              if negb (hasSuffix name drvExtension) then throw (EvalError "tried to add all-outputs context of a path that is not a derivation")
              else mret (ctx_insert (CtxDrvDeep namePath) c)
            else mret c
        | None => mret c
        end;
    o ← attr_get b sOutputs;
    match o with
    | Some a =>
        l ← forceList E (RAddr a);
        if negb (length l =? 0)%nat && negb (hasSuffix name drvExtension) then
          throw (EvalError "tried to add derivation output context of a path that is not a derivation")
        else
          foldS (λ c elem, outputName ← forceStringNoCtx E (RAddr elem); mret (ctx_insert (CtxBuilt (SOpaque namePath) outputName) c)) c l
    | None => mret c
    end.
Definition prim_appendContext (args : list addr) : EM Value :=
  x ← arg args 0; y ← arg args 1;
  '(orig, c) ← forceStringCtx cfg E (RAddr x) [];
  b ← forceAttrs E (RAddr y);
  sPath ← createSymbol "path";
  sAllOutputs ← createSymbol "allOutputs";
  c ← foldS (append_one sPath sAllOutputs) c b;
  mret (mkString orig c).

(** * The table of primitive operations *)

Definition prim_fun (p : PrimOp) : list addr → EM Value :=
  match p with
  | PBreak => prim_break
  | PAbort => prim_abort
  | PThrow => prim_throw
  | PAddErrorContext => prim_addErrorContext
  | PTryEval => prim_tryEval
  | PSeq => prim_seq
  | PDeepSeq => prim_deepSeq
  | PTypeOf => prim_typeOf
  | PIsNull => type_test nNull
  | PIsFunction => type_test nFunction
  | PIsInt => type_test nInt
  | PIsFloat => type_test nFloat
  | PIsString => type_test nString
  | PIsBool => type_test nBool
  | PIsPath => type_test nPath
  | PIsAttrs => type_test nAttrs
  | PIsList => type_test nList
  | PGenericClosure => prim_genericClosure
  | PToString => prim_toString
  | PSubstring => prim_substring
  | PStringLength => prim_stringLength
  | PConcatStringsSep => prim_concatStringsSep
  | PReplaceStrings => prim_replaceStrings
  | PAttrNames => prim_attrNames
  | PAttrValues => prim_attrValues
  | PGetAttr => prim_getAttr
  | PHasAttr => prim_hasAttr
  | PRemoveAttrs => prim_removeAttrs
  | PListToAttrs => prim_listToAttrs
  | PIntersectAttrs => prim_intersectAttrs
  | PCatAttrs => prim_catAttrs
  | PFunctionArgs => prim_functionArgs
  | PMapAttrs => prim_mapAttrs
  | PZipAttrsWith => prim_zipAttrsWith
  | PElemAt => prim_elemAt
  | PHead => prim_head
  | PTail => prim_tail
  | PMap => prim_map
  | PFilter => prim_filter
  | PElem => prim_elem
  | PConcatLists => prim_concatLists
  | PLength => prim_length
  | PFoldlStrict => prim_foldlStrict
  | PAny => anyOrAll true
  | PAll => anyOrAll false
  | PGenList => prim_genList
  | PSort => prim_sort
  | PPartition => prim_partition
  | PGroupBy => prim_groupBy
  | PConcatMap => prim_concatMap
  | PAdd => prim_add
  | PSub => prim_sub
  | PMul => prim_mul
  | PDiv => prim_div
  | PBitAnd => bit_op Z.land
  | PBitOr => bit_op Z.lor
  | PBitXor => bit_op Z.lxor
  | PLessThan => prim_lessThan
  | PCeil => prim_round true
  | PFloor => prim_round false
  | PBaseNameOf => prim_baseNameOf
  | PDirOf => prim_dirOf
  | PParseDrvName => prim_parseDrvName
  | PCompareVersions => prim_compareVersions
  | PSplitVersion => prim_splitVersion
  | PUnsafeDiscardStringContext => prim_unsafeDiscardStringContext
  | PHasContext => prim_hasContext
  | PUnsafeDiscardOutputDependency => prim_unsafeDiscardOutputDependency
  | PAddDrvOutputDependencies => prim_addDrvOutputDependencies
  | PGetContext => prim_getContext
  | PAppendContext => prim_appendContext
  end.
End primops.

(** * The evaluator *)

Section evaluator.
Context (cfg : Config).

Definition out_of_fuel : Evaluator :=
  MkEvaluator (λ _ _, throw NonTermination) (λ _ _, throw NonTermination) (λ _ _ _, throw NonTermination)
    (λ _ _ _ _, throw NonTermination) (λ _ _, throw NonTermination) (λ _ _, throw NonTermination)
    (λ _ _, throw NonTermination) (λ _ _, throw NonTermination) (λ _ _, throw NonTermination)
    (λ _ _ _ _, throw NonTermination).

Definition unroll (E : Evaluator) : Evaluator :=
  MkEvaluator (eval E) (callFunction cfg E) (call_loop E) (coerceToString cfg E) (eqValues E) (assertEqValues E)
    (forceValueDeep E) (prim_fun cfg E) (CompareValues E) (closure_loop E).

Fixpoint evaluator (fuel : nat) : Evaluator := match fuel with O => out_of_fuel | S fuel => unroll (evaluator fuel) end.

(** * The base environment *)

Definition BASE_ENV_SIZE : nat := 128.

(** The names the operations are registered with. *)
Definition primOps : list (str * PrimOp) := [
  ("abort", PAbort); ("break", PBreak); ("throw", PThrow); ("__addErrorContext", PAddErrorContext); ("__tryEval", PTryEval);
  ("__seq", PSeq); ("__deepSeq", PDeepSeq); ("__typeOf", PTypeOf); ("isNull", PIsNull); ("__isFunction", PIsFunction);
  ("__isInt", PIsInt); ("__isFloat", PIsFloat); ("__isString", PIsString); ("__isBool", PIsBool); ("__isPath", PIsPath);
  ("__isAttrs", PIsAttrs); ("__isList", PIsList); ("__genericClosure", PGenericClosure); ("toString", PToString);
  ("__substring", PSubstring); ("__stringLength", PStringLength); ("__concatStringsSep", PConcatStringsSep);
  ("__replaceStrings", PReplaceStrings); ("__attrNames", PAttrNames); ("__attrValues", PAttrValues); ("__getAttr", PGetAttr);
  ("__hasAttr", PHasAttr); ("removeAttrs", PRemoveAttrs); ("__listToAttrs", PListToAttrs); ("__intersectAttrs", PIntersectAttrs);
  ("__catAttrs", PCatAttrs); ("__functionArgs", PFunctionArgs); ("__mapAttrs", PMapAttrs); ("__zipAttrsWith", PZipAttrsWith);
  ("__elemAt", PElemAt); ("__head", PHead); ("__tail", PTail); ("map", PMap); ("__filter", PFilter); ("__elem", PElem);
  ("__concatLists", PConcatLists); ("__length", PLength); ("__foldl'", PFoldlStrict); ("__any", PAny); ("__all", PAll);
  ("__genList", PGenList); ("__sort", PSort); ("__partition", PPartition); ("__groupBy", PGroupBy); ("__concatMap", PConcatMap);
  ("__add", PAdd); ("__sub", PSub); ("__mul", PMul); ("__div", PDiv); ("__bitAnd", PBitAnd); ("__bitOr", PBitOr);
  ("__bitXor", PBitXor); ("__lessThan", PLessThan); ("__ceil", PCeil); ("__floor", PFloor); ("baseNameOf", PBaseNameOf);
  ("dirOf", PDirOf); ("__parseDrvName", PParseDrvName); ("__compareVersions", PCompareVersions); ("__splitVersion", PSplitVersion);
  ("__unsafeDiscardStringContext", PUnsafeDiscardStringContext); ("__hasContext", PHasContext);
  ("__unsafeDiscardOutputDependency", PUnsafeDiscardOutputDependency);
  ("__addDrvOutputDependencies", PAddDrvOutputDependencies); ("__getContext", PGetContext); ("__appendContext", PAppendContext)
]%str.

(** The static base environment and the set [builtins], under construction. *)
Definition strip_underscores (name : str) : str := if hasPrefix name "__" then drop 2 name else name.
Definition addConstant (st : list (Symbol * nat) * Builder) (x : str * Value) : EM (list (Symbol * nat) * Builder) :=
  let '(vars, b) := st in
  a ← allocValue x.2;
  envName ← createSymbol x.1;
  set_slot 0 (length vars) a;;
  name ← createSymbol (strip_underscores x.1);
  b ← push_back b (name, a);
  mret (vars ++ [(envName, length vars)], b).

(** [builtins] comes first and is sorted in the end. *)
Definition createBaseEnv (ops : list (str * PrimOp)) : EM StaticEnv :=
  b ← buildBindings 128;
  st ← foldS addConstant ([], b)
         ([("builtins", VAttrs []); ("true", VBool true); ("false", VBool false); ("null", VNull)] ++
          map (λ x : str * PrimOp, (x.1, VPrimOp x.2)) ops)%str;
  l ← attr_sort (bindings st.2);
  set_value 0 (VAttrs l);;
  mret (SEnv None None (senv_sort st.1)).

Definition new_state : EvalState := MkState [] [MkEnv None (replicate BASE_ENV_SIZE None)] initial_symbols ∅ 0.

(** A program: the symbols the parser created and the expression. It is bound
    and evaluated in the base environment. *)
Definition run (fuel : nat) (ops : list (str * PrimOp)) (names : list str) (e : Expr) : EM Value :=
  se ← createBaseEnv ops;
  mapS createSymbol names;;
  e ← lift (bindVars e (Some se));
  ev_eval (evaluator fuel) e 0%nat.
End evaluator.
