(* ===== verification/EvalInv.v ===== *)
(** Well-formed states of the evaluator and the rules to verify its functions.

    An expression is [bound] in a list of frames, the shapes of the environments
    it is evaluated in: what variable resolution and the parser guarantee. The
    invariant [Inv] says that what is live in the heap refers only to what is
    live: thunks and functions to environments of the shape they are bound in
    whose slots are filled, sets and lists to values. Thunks made for an
    environment before it is complete are dead until it is; they stay dead if an
    exception ends its construction. [sat X m Q s] states that [m], started in a
    well-formed state [s], ends in a well-formed state that extends [s], returns
    with [Q] or throws an exception that is not a failed assertion or undefined
    behaviour; [X] are the environments under construction. *)

From S2P Require Import Prelude State Strings Sort Expr Value Eval.

(** * Bound expressions *)

(** The variables of an environment with their slots, a [with], or the sources
    of [inherit (e)]. *)
Inductive Frame := FVars (vars : list (Symbol * nat)) | FWith | FInherit (n : nat).

Definition frame_slot (f : Frame) (d : nat) : Prop :=
  match f with FVars vars => d ∈ vars.*2 | FWith => d = 0%nat | FInherit n => (d < n)%nat end.

Fixpoint with_ok (sh : list Frame) (w : With) : Prop :=
  match w with
  | MkWith prev parent =>
      head sh = Some FWith ∧ match parent with Some w => with_ok (drop prev sh) w | None => True end
  end.

Definition var_ok (sh : list Frame) (fromWith : option With) (level displ : nat) : Prop :=
  match fromWith with
  | None => ∃ f, sh !! level = Some f ∧ frame_slot f displ
  | Some w => with_ok (drop level sh) w
  end.

Section all.
Context {A : Type} (P : A → Prop).
Definition allP : list A → Prop := fix go l := match l with [] => True | x :: l => P x ∧ go l end.
Definition allO (o : option A) : Prop := match o with Some x => P x | None => True end.
Definition allPath : list (Symbol + A) → Prop :=
  fix go l := match l with [] => True | inl _ :: l => go l | inr e :: l => P e ∧ go l end.
Definition allPairs : list (A * A) → Prop := fix go l := match l with [] => True | (n, v) :: l => P n ∧ P v ∧ go l end.
Definition allFormals : list (Symbol * option A) → Prop :=
  fix go l := match l with [] => True | (_, o) :: l => allO o ∧ go l end.
End all.
Definition allDefs {A} (P Q R : A → Prop) : list (Symbol * AttrDef A) → Prop :=
  fix go l := match l with
              | [] => True
              | (_, d) :: l => match ad_kind d with Plain => P (ad_e d) | Inherited => Q (ad_e d) | InheritedFrom => R (ad_e d) end ∧ go l
              end.

Definition sorted_syms (l : list Symbol) : Prop := StronglySorted lt l.

(** A program: the number of symbols when it was parsed, and whether it may
    have functions that refuse sets of arguments. *)
Record Prog := MkProg { n_symbols :> nat; strict : bool }.
(** Every formal has a default, and other arguments are accepted. *)
Definition has_default {E} (x : Symbol * option E) : bool := match x.2 with Some _ => true | None => false end.
Definition lenient {E} (f : FormalsOf E) : bool := ellipsis f && forallb has_default (formals f).

Section bound.
Context (N : Prog).

Definition names_ok (l : list Symbol) : Prop := sorted_syms l ∧ Forall (λ x, 0 < x ≤ N)%nat l.
Definition displs_ok {E} (l : list (Symbol * AttrDef E)) : Prop := ∀ i x d, l !! i = Some (x, d) → ad_displ d = i.

Definition rec_frame {E} (l : list (Symbol * AttrDef E)) : Frame := FVars (rec_vars l).
Definition lambda_frame {E} (arg : Symbol) (fs : option (FormalsOf E)) : Frame := FVars (lambda_vars arg fs).
(** The frames the sources of [inherit (e)] add. *)
Definition inherit_frames {E} (froms : option (list E)) (sh : list Frame) : list Frame :=
  match froms with Some l => FInherit (length l) :: sh | None => sh end.
Definition has_froms {E} (froms : option (list E)) : Prop := is_Some froms.

Fixpoint bound (sh : list Frame) (e : Expr) : Prop :=
  match e with
  | ExprInt _ | ExprFloat _ | ExprString _ | ExprPath _ _ => True
  | ExprVar _ fromWith level displ => var_ok sh fromWith level displ
  | ExprInheritFrom displ => var_ok sh None 0 displ
  | ExprSelect e path def => bound sh e ∧ allPath (bound sh) path ∧ allO (bound sh) def
  | ExprOpHasAttr e path => bound sh e ∧ allPath (bound sh) path
  | ExprAttrs a =>
      let inner := if recursive a then rec_frame (attrs a) :: sh else sh in
      names_ok (attrs a).*1 ∧ (recursive a = true → displs_ok (attrs a)) ∧
      allO (allP (bound inner)) (inheritFromExprs a) ∧
      allDefs (bound inner) (bound sh) (λ e, has_froms (inheritFromExprs a) ∧ bound (inherit_frames (inheritFromExprs a) inner) e) (attrs a) ∧
      allPairs (bound inner) (dynamicAttrs a)
  | ExprList l => allP (bound sh) l
  | ExprLambda arg fs body =>
      let inner := lambda_frame arg fs :: sh in
      match fs with
      | Some f => (names_ok (formals f).*1 ∧ strict N || lenient f = true) ∧ allFormals (bound inner) (formals f)
      | None => (arg ≠ 0)%nat
      end ∧
      bound inner body
  | ExprCall fn args => bound sh fn ∧ allP (bound sh) args
  | ExprLet a body =>
      let inner := rec_frame (attrs a) :: sh in
      allO (allP (bound inner)) (inheritFromExprs a) ∧
      allDefs (bound inner) (bound sh) (λ e, has_froms (inheritFromExprs a) ∧ bound (inherit_frames (inheritFromExprs a) inner) e) (attrs a) ∧
      bound inner body
  | ExprWith attrs body _ => bound sh attrs ∧ bound (FWith :: sh) body
  | ExprIf c t e => bound sh c ∧ bound sh t ∧ bound sh e
  | ExprAssert c b => bound sh c ∧ bound sh b
  | ExprOpNot e => bound sh e
  | ExprBinOp _ e1 e2 => bound sh e1 ∧ bound sh e2
  | ExprConcatStrings _ es => allP (bound sh) es
  end.

End bound.

(** * Well-formed states *)

(** A state and the values in it that are dead. *)
Record World := MkWorld { st :> EvalState; dead : list addr }.

Definition aok (s : World) (a : addr) : Prop := (a < length (values s))%nat ∧ a ∉ dead s.
Definition sym_ok (s : World) (x : Symbol) : Prop := (0 < x ≤ length (symbols s))%nat.
Definition slot_live (s : World) (env : Env) (d : nat) : Prop := ∃ v, env_values env !! d = Some (Some v) ∧ aok s v.

Fixpoint env_ok (s : World) (sh : list Frame) (a : addr) : Prop :=
  match sh with
  | [] => True
  | f :: sh' =>
      ∃ env, envs s !! a = Some env ∧ (∀ d, frame_slot f d → slot_live s env d) ∧
      match sh' with [] => True | _ => ∃ up, env_up env = Some up ∧ env_ok s sh' up end
  end.

Fixpoint chain (v : Value) : option (PrimOp * list addr) :=
  match v with
  | VPrimOp p => Some (p, [])
  | VPrimOpApp l a => r ← chain l; Some (r.1, r.2 ++ [a])
  | _ => None
  end.

Definition no_nul (s : str) : Prop := NUL ∉ s.
Definition attrs_ok (s : World) (b : list Attr) : Prop :=
  sorted_syms b.*1 ∧ Forall (λ x : Attr, sym_ok s x.1 ∧ aok s x.2) b.

(** The operations that can fail badly: [break] returns what is not evaluated,
    [appendContext] asserts that no name is empty. *)
Definition crash_free (p : PrimOp) : Prop := p ≠ PBreak ∧ p ≠ PAppendContext.

Section inv.
Context (N : Prog).

Definition vok (s : World) (v : Value) : Prop :=
  match v with
  | VString x c => no_nul x ∧ Forall no_nul c
  | VAttrs b => attrs_ok s b
  | VList l => Forall (aok s) l
  | VThunk env e => ∃ sh, env_ok s sh env ∧ bound N sh e
  | VApp l r => aok s l ∧ aok s r
  | VLambda env arg fs body => ∃ sh, env_ok s sh env ∧ bound N sh (ExprLambda arg fs body)
  | VPrimOp p => crash_free p
  | VPrimOpApp _ _ => ∃ p l, chain v = Some (p, l) ∧ crash_free p ∧ (length l < arity p)%nat ∧ Forall (aok s) l
  | _ => True
  end.

Definition whnf (v : Value) : Prop := type v ≠ nThunk.
Definition wval (s : World) (v : Value) : Prop := vok s v ∧ whnf v.

Record Inv (s : World) : Prop := {
  inv_values : ∀ a v, a ∉ dead s → values s !! a = Some v → vok s v;
  inv_dead : Forall (λ a, a < length (values s))%nat (dead s);
  inv_symbols : ∃ t, symbols s = initial_symbols ++ t;
  inv_names : NoDup (symbols s) ∧ Forall no_nul (symbols s);
  inv_parsed : (N ≤ length (symbols s))%nat;
}.
End inv.

(** * Extension of states *)

(** What is live stays live; empty slots stay empty, except in the environments
    under construction. *)
Record ext (X : list addr) (s s' : World) : Prop := {
  ext_live : ∀ a, aok s a → aok s' a;
  ext_len : (length (values s) ≤ length (values s'))%nat;
  ext_envs : ∀ a env, envs s !! a = Some env → ∃ env', envs s' !! a = Some env' ∧ env_up env' = env_up env ∧
    length (env_values env') = length (env_values env) ∧
    (∀ i, slot_live s env i → slot_live s' env' i) ∧
    (a ∉ X → ∀ i, env_values env !! i = Some None → env_values env' !! i = Some None);
  ext_symbols : ∃ t, symbols s' = symbols s ++ t;
}.

#[export] Instance ext_refl X : Reflexive (ext X).
Proof.
  intros s. constructor; [done|done| |by exists []; rewrite app_nil_r].
  intros a env H. exists env. split_and!; try done; auto.
Qed.
#[export] Instance ext_trans X : Transitive (ext X).
Proof.
  intros s1 s2 s3 [H0 H1 H2 (t & H3)] [K0 K1 K2 (u & K3)]. constructor; [auto|lia| |exists (t ++ u); by rewrite K3, H3, app_assoc].
  intros a env E. destruct (H2 _ _ E) as (e2 & E2 & U2 & L2 & S2 & T2). destruct (K2 _ _ E2) as (e3 & E3 & U3 & L3 & S3 & T3).
  exists e3. split_and!; [done|congruence|congruence|auto|]. auto.
Qed.
Lemma ext_weaken X s s' : ext [] s s' → ext X s s'.
Proof.
  intros [H0 H1 H2 H3]. constructor; try done. intros a env E. destruct (H2 _ _ E) as (e2 & E2 & U2 & L2 & S2 & T2).
  exists e2. split_and!; try done. intros _. apply T2, not_elem_of_nil.
Qed.
(** An environment that did not exist at the start need not be exempt. *)
Lemma ext_fresh X a (s s1 s' : World) : envs s !! a = None → ext X s s1 → ext (a :: X) s1 s' → ext X s s'.
Proof.
  intros Hn [H0 H1 H2 (t & H3)] [K0 K1 K2 (u & K3)]. constructor; [auto|lia| |exists (t ++ u); by rewrite K3, H3, app_assoc].
  intros b env E. destruct (H2 _ _ E) as (e2 & E2 & U2 & L2 & S2 & T2). destruct (K2 _ _ E2) as (e3 & E3 & U3 & L3 & S3 & T3).
  exists e3. split_and!; [done|congruence|congruence|auto|]. intros Ha i Hi. apply T3; [|by apply T2].
  apply not_elem_of_cons. split; [|done]. intros ->. congruence.
Qed.

Section mono.
Context (X : list addr) (s s' : World) (Hx : ext X s s').
Lemma aok_mono a : aok s a → aok s' a.
Proof. apply (ext_live _ _ _ Hx). Qed.
Lemma sym_ok_mono x : sym_ok s x → sym_ok s' x.
Proof. destruct (ext_symbols _ _ _ Hx) as (t & E). unfold sym_ok. rewrite E, length_app. lia. Qed.
Lemma Forall_aok_mono l : Forall (aok s) l → Forall (aok s') l.
Proof. intros Hl. eapply Forall_impl; [exact Hl|]. intros x. apply aok_mono. Qed.
Lemma attrs_ok_mono b : attrs_ok s b → attrs_ok s' b.
Proof.
  intros [H1 H2]. split; [done|]. eapply Forall_impl; [exact H2|]. intros x [Ha Hb].
  split; [by apply sym_ok_mono|by apply aok_mono].
Qed.
Lemma env_ok_mono sh a : env_ok s sh a → env_ok s' sh a.
Proof.
  revert a. induction sh as [|f sh IH]; intros a; [done|]. cbn [env_ok]. intros (env & He & Hf & Hu).
  destruct (ext_envs _ _ _ Hx _ _ He) as (env' & He' & Hu' & Hl & Hs & _). exists env'. split; [done|]. split; [auto|].
  destruct sh as [|g sh]; [done|]. destruct Hu as (up & Eu & Hup). exists up. rewrite Hu'. split; [done|]. by apply IH.
Qed.
Lemma vok_mono N v : vok N s v → vok N s' v.
Proof.
  destruct v; cbn [vok]; try done.
  - apply attrs_ok_mono.
  - apply Forall_aok_mono.
  - intros (sh & H & Hb). exists sh. split; [by apply env_ok_mono|done].
  - intros [H1 H2]. split; by apply aok_mono.
  - intros (sh & H & Hb). exists sh. split; [by apply env_ok_mono|done].
  - intros (p & l & H1 & H2 & H3 & H4). exists p, l. split_and!; try done. by apply Forall_aok_mono.
Qed.
Lemma wval_mono N v : wval N s v → wval N s' v.
Proof. intros [H1 H2]. split; [by apply vok_mono|done]. Qed.
End mono.

(** * Triples *)

Definition ok_exn (e : exn) : Prop := e ≠ UndefinedBehaviour ∧ e ≠ AssertionFailure ∧ e ≠ InactiveMember.
(** The errors of a function that refuses its arguments may read an inactive
    member. *)
Definition may_throw (N : Prog) (e : exn) : Prop := ok_exn e ∨ (e = InactiveMember ∧ strict N = true).

Definition sat (N : Prog) (X : list addr) {A} (m : EM A) (Q : World → A → Prop) (s : World) : Prop :=
  Inv N s →
  match m s with
  | (Ok a, s') => ∃ w, st w = s' ∧ ext X s w ∧ Inv N w ∧ Q w a
  | (Throw e, s') => ∃ w, st w = s' ∧ ext X s w ∧ Inv N w ∧ may_throw N e
  end.

Section rules.
Context {N : Prog} {X : list addr}.
Abbreviation sat := (sat N X).

Lemma sat_ret {A} (a : A) Q s : Q s a → sat (mret a) Q s.
Proof. intros H HI. exists s. by split_and!. Qed.
Lemma sat_bind {A B} (m : EM A) (f : A → EM B) Q R s :
  sat m Q s → (∀ s' a, ext X s s' → Q s' a → sat (f a) R s') → sat (m ≫= f) R s.
Proof.
  intros Hm Hf HI. specialize (Hm HI). unfold mbind, StE_bind. destruct (m s) as [[a|e] s1]; [|done].
  destruct Hm as (w & <- & X1 & I1 & Q1). specialize (Hf _ _ X1 Q1 I1).
  destruct (f a w) as [[b|e] s2]; destruct Hf as (w2 & <- & X2 & I2 & Q2); exists w2; (split; [done|split; [by etrans|done]]).
Qed.
Lemma sat_fmap {A B} (g : A → B) (m : EM A) Q R s :
  sat m Q s → (∀ s' a, ext X s s' → Q s' a → R s' (g a)) → sat (g <$> m) R s.
Proof. intros Hm Hf. eapply sat_bind; [exact Hm|]. intros s' a Hx HQ. apply sat_ret. by apply Hf. Qed.
Lemma sat_mono {A} (m : EM A) (Q R : World → A → Prop) s :
  sat m Q s → (∀ s' a, ext X s s' → Q s' a → R s' a) → sat m R s.
Proof. intros Hm Hf HI. specialize (Hm HI). destruct (m s) as [[a|e] s1]; [|done]. destruct Hm as (w & E & X1 & I1 & Q1). eauto 10. Qed.
(** The final state is well-formed. *)
Lemma sat_bind_post {A} (m : EM A) (Q R : World → A → Prop) s :
  sat m Q s → (∀ s' a, ext X s s' → Inv N s' → Q s' a → R s' a) → sat m R s.
Proof. intros Hm Hf HI. specialize (Hm HI). destruct (m s) as [[a|e] s1]; [|done]. destruct Hm as (w & E & X1 & I1 & Q1). eauto 10. Qed.
Lemma sat_rethrow {A} e (Q : World → A → Prop) s : may_throw N e → sat (throw e) Q s.
Proof. intros H HI. exists s. by split_and!. Qed.
Lemma sat_throw {A} e (Q : World → A → Prop) s : ok_exn e → sat (throw e) Q s.
Proof. intros H. apply sat_rethrow. by left. Qed.
Lemma sat_lift {A} (r : result A) Q s : match r with Ok a => Q s a | Throw e => ok_exn e end → sat (lift r) Q s.
Proof. intros H HI. cbn. destruct r; exists s; split_and!; try done. by left. Qed.
Lemma sat_getO {A} (o : option A) (Q : World → A → Prop) s : (∃ a, o = Some a ∧ Q s a) → sat (getO o) Q s.
Proof. intros (a & -> & H). by apply sat_lift. Qed.
Lemma sat_get {A} (f : EvalState → A) Q (s : World) : Q s (f s) → sat (get f) Q s.
Proof. intros H HI. exists s. by split_and!. Qed.
Lemma sat_catch {A} (m : EM A) h Q s :
  sat m Q s → (∀ s' e k, ext X s s' → may_throw N e → h e = Some k → sat k Q s') → sat (catch m h) Q s.
Proof.
  intros Hm Hh HI. specialize (Hm HI). unfold catch. destruct (m s) as [[a|e] s1]; [done|]. destruct Hm as (w & <- & X1 & I1 & E1).
  destruct (h e) as [k|] eqn:E; [|by exists w]. specialize (Hh _ _ _ X1 E1 E I1).
  destruct (k w) as [[b|e2] s2]; destruct Hh as (w2 & <- & X2 & I2 & Q2); exists w2; (split; [done|split; [by etrans|done]]).
Qed.
Lemma sat_foldS {A B} (f : B → A → EM B) (I : World → B → list A → Prop) l b s :
  I s b l → (∀ s' x k b, ext X s s' → (∃ l1, l = l1 ++ x :: k) → I s' b (x :: k) → sat (f b x) (λ s'' b', I s'' b' k) s') →
  sat (foldS f b l) (λ s' b', I s' b' []) s.
Proof.
  intros H0 Hf.
  assert (∀ k l1 s' b, l = l1 ++ k → ext X s s' → I s' b k → sat (foldS f b k) (λ s' b', I s' b' []) s') as H; [|by apply (H l [])].
  clear H0 b. induction k as [|x k IH]; intros l1 s' b El Hx Hb; cbn [foldS]; [by apply sat_ret|].
  eapply sat_bind; [by apply Hf; eauto|]. intros s2 b' X2 HI2. apply (IH (l1 ++ [x])); [by rewrite <- app_assoc|by etrans|done].
Qed.
Lemma sat_mapS {A B} (f : A → EM B) (R : World → A → B → Prop) l s :
  (∀ s1 s2 x y, ext X s1 s2 → R s1 x y → R s2 x y) →
  (∀ s' x, ext X s s' → x ∈ l → sat (f x) (λ s'' y, R s'' x y) s') →
  sat (mapS f l) (λ s' ys, Forall2 (R s') l ys) s.
Proof.
  intros HR. revert s. induction l as [|x l IH]; intros s Hf; cbn [mapS]; [by apply sat_ret|].
  eapply sat_bind; [apply Hf; [done|left]|]. intros s1 y X1 Hy.
  eapply sat_bind; [apply IH|]. { intros s' z Xz Hz. apply Hf; [by etrans|by right]. }
  intros s2 ys X2 Hys. apply sat_ret. constructor; [by eapply HR|done].
Qed.
Lemma sat_ext {A} (m m' : EM A) Q (s : World) : m s = m' s → sat m Q s → sat m' Q s.
Proof. intros Em H HI. rewrite <- Em. by apply H. Qed.
Lemma sat_inv {A} (m : EM A) Q s : (Inv N s → sat m Q s) → sat m Q s.
Proof. intros H HI. by apply H. Qed.
(** A step of the ghost state. *)
Lemma sat_ghost {A} (m : EM A) Q s w : st w = st s → (Inv N s → Inv N w ∧ ext X s w) → sat m Q w → sat m Q s.
Proof.
  intros Ew Hw Hm HI. destruct (Hw HI) as [HIw Xw]. specialize (Hm HIw). rewrite Ew in Hm.
  destruct (m s) as [[a|e] s2]; destruct Hm as (w2 & <- & X2 & I2 & Q2); exists w2; (split; [done|split; [by etrans|done]]).
Qed.
Lemma sat_weaken {A} (m : EM A) Q s : EvalInv.sat N [] m Q s → sat m Q s.
Proof.
  intros Hm HI. specialize (Hm HI). destruct (m s) as [[a|e] s2]; destruct Hm as (w2 & <- & X2 & I2 & Q2); exists w2;
    (split; [done|split; [by apply ext_weaken|done]]).
Qed.

Lemma sat_bind_weak {A B} (m : EM A) (f : A → EM B) Q R s :
  EvalInv.sat N [] m Q s → (∀ s' a, ext [] s s' → Q s' a → sat (f a) R s') → sat (m ≫= f) R s.
Proof.
  intros Hm Hf HI. specialize (Hm HI). unfold mbind, StE_bind. destruct (m s) as [[a|e] s1].
  - destruct Hm as (w & <- & X1 & I1 & Q1). specialize (Hf _ _ X1 Q1 I1). apply (ext_weaken X) in X1.
    destruct (f a w) as [[b|e] s2]; destruct Hf as (w2 & <- & X2 & I2 & Q2); exists w2; (split; [done|split; [by etrans|done]]).
  - destruct Hm as (w & <- & X1 & I1 & Q1). exists w. split; [done|]. split; [by apply ext_weaken|done].
Qed.

(** * Heap *)

Definition upd (s : World) (s' : EvalState) : World := MkWorld s' (dead s).

Lemma ext_upd_values (s : World) l : (length (values s) ≤ length l)%nat → ext X s (upd s (set_values l s)).
Proof.
  intros H. assert (∀ a, aok s a → aok (upd s (set_values l s)) a) as Ha by (intros a [H1 H2]; split; [cbn; lia|done]).
  constructor; [done|done| |exists []; by rewrite app_nil_r].
  intros a env E. exists env. split_and!; try done; auto. intros i (v & Hv & Hl). exists v. auto.
Qed.
Lemma Inv_upd_values (s : World) l :
  Inv N s → (length (values s) ≤ length l)%nat →
  (∀ a v, a ∉ dead s → l !! a = Some v → values s !! a = Some v ∨ vok N (upd s (set_values l s)) v) →
  Inv N (upd s (set_values l s)).
Proof.
  intros HI Hl Hv. pose proof (ext_upd_values s l Hl) as Hx. destruct HI as [H1 H2 H3 H4 H5]. constructor; try done.
  - intros a v Ha Hav. destruct (Hv a v Ha Hav) as [H|H]; [|done]. eapply vok_mono; [exact Hx|]. by apply (H1 a).
  - eapply Forall_impl; [exact H2|]. cbn. lia.
Qed.

Lemma sat_allocValue v s : vok N s v → sat (allocValue v) (λ s' a, aok s' a) s.
Proof.
  intros Hv HI. cbn. set (l := values s ++ [v]). assert (length (values s) ≤ length l)%nat as Hl by (unfold l; rewrite length_app; lia).
  exists (upd s (set_values l s)). split; [done|]. split; [by apply ext_upd_values|]. split.
  - apply Inv_upd_values; [done|done|]. intros a w _ Hw. apply lookup_app_Some in Hw. destruct Hw as [Hw|[_ Hw]]; [by left|right].
    apply list_lookup_singleton_Some in Hw as [_ <-]. eapply vok_mono; [by apply ext_upd_values|done].
  - split; [cbn; unfold l; rewrite length_app; cbn; lia|]. intros Hd. pose proof (inv_dead _ _ HI) as Hf. rewrite Forall_forall in Hf.
    specialize (Hf _ Hd). lia.
Qed.
Lemma sat_get_value a s : aok s a → sat (get_value a) (λ s' v, vok N s' v) s.
Proof.
  intros [Ha Hd] HI. unfold get_value, mbind, StE_bind, get, getO, lift. destruct (lookup_lt_is_Some_2 _ _ Ha) as [v Hv].
  rewrite Hv. exists s. split_and!; [done|done|done|]. by eapply inv_values.
Qed.
Lemma sat_set_value a v s : vok N s v → sat (set_value a v) (λ s' _, True) s.
Proof.
  intros Hv HI. cbn. set (l := <[a:=v]> (values s)). assert (length (values s) ≤ length l)%nat as Hl by (unfold l; by rewrite length_insert).
  exists (upd s (set_values l s)). split; [done|]. split; [by apply ext_upd_values|]. split; [|done].
  apply Inv_upd_values; [done|done|]. intros b w Hb Hw.
  apply list_lookup_insert_Some in Hw as [(_ & <- & _)|[_ Hw]]; [right|by left]. eapply vok_mono; [by apply ext_upd_values|done].
Qed.

(** Changes outside of the heap. *)
Lemma sat_modify (f : EvalState → EvalState) (s : World) :
  values (f s) = values s → envs (f s) = envs s → symbols (f s) = symbols s → sat (modify f) (λ _ _, True) s.
Proof.
  intros Ev Ee Es HI. exists (upd s (f s)). split; [done|].
  assert (ext X s (upd s (f s))) as Hx.
  { assert (∀ a, aok s a → aok (upd s (f s)) a) as Ha by (unfold aok; cbn; by rewrite Ev).
    constructor; [done|cbn; by rewrite Ev| |exists []; cbn; by rewrite Es, app_nil_r].
    intros a env E. exists env. cbn. rewrite Ee. split_and!; try done. intros i (v & Hv & Hl). exists v. auto. }
  split; [done|]. split; [|done]. destruct HI as [H1 H2 H3 H4 H5].
  constructor; cbn; rewrite ?Ev, ?Es; try done. intros a v Ha Hv. eapply vok_mono; [exact Hx|eauto].
Qed.

(** * Environments *)

Lemma Inv_upd_envs (s : World) l : Inv N s → ext X s (upd s (set_envs l s)) → Inv N (upd s (set_envs l s)).
Proof. intros [H1 H2 H3 H4 H5] Hx. constructor; try done. intros a v Ha Hv. eapply vok_mono; [exact Hx|]. eauto. Qed.

Definition env_at (s : World) (a up : addr) (n : nat) : Prop :=
  ∃ env, envs s !! a = Some env ∧ env_up env = Some up ∧ length (env_values env) = n.
Lemma env_at_mono X' s s' a up n : ext X' s s' → env_at s a up n → env_at s' a up n.
Proof.
  intros Hx (env & He & Hu & Hn). destruct (ext_envs _ _ _ Hx _ _ He) as (env' & He' & Hu' & Hl & _).
  exists env'. split_and!; [done|congruence|congruence].
Qed.

Lemma ext_alloc_env X' (s : World) n up :
  ext X' s (upd s (set_envs (envs s ++ [MkEnv (Some up) (replicate n None)]) s)).
Proof.
  constructor; [done|done| |exists []; by rewrite app_nil_r].
  intros a env E. exists env. cbn. rewrite lookup_app_l by (by eapply lookup_lt_Some). split_and!; try done; auto.
Qed.
(** The rest of the state is as before. *)
Record alloc_frame (s s' : World) (a : addr) : Prop := {
  af_fresh : envs s !! a = None;
  af_envs : ∀ b env, envs s !! b = Some env → envs s' !! b = Some env;
  af_values : values s' = values s;
  af_dead : dead s' = dead s;
}.
(** The continuation fills the environment. *)
Lemma sat_bind_allocEnv {A} n up (f : addr → EM A) Q s :
  (∀ s' a, ext [] s s' → env_at s' a up n → (∀ i o, envs s' !! a ≫= (λ env, env_values env !! i) = Some o → o = None) → alloc_frame s s' a →
    EvalInv.sat N (a :: X) (f a) Q s') → sat (allocEnv n up ≫= f) Q s.
Proof.
  intros Hf HI. unfold mbind, StE_bind, allocEnv. set (w := upd s (set_envs (envs s ++ [MkEnv (Some up) (replicate n None)]) s)).
  assert (envs w !! length (envs s) = Some (MkEnv (Some up) (replicate n None))) as He.
  { cbn. by rewrite lookup_app_r, Nat.sub_diag. }
  assert (Inv N w) as HIw by (apply Inv_upd_envs; [done|apply ext_alloc_env]).
  specialize (Hf w (length (envs s)) (ext_alloc_env [] s n up)).
  assert (envs s !! length (envs s) = None) as Hn by by apply lookup_ge_None.
  lapply Hf; [clear Hf; intros Hf|by eexists; split_and!; [exact He|done|cbn; apply length_replicate]].
  lapply Hf; [clear Hf; intros Hf|intros i o; rewrite He; cbn; intros Hi; by apply lookup_replicate in Hi as [-> _]].
  lapply Hf; [clear Hf; intros Hf|].
  2:{ constructor; [done| |done|done]. intros b env Hb. cbn. rewrite lookup_app_l; [done|by eapply lookup_lt_Some]. }
  specialize (Hf HIw). change (set_envs _ _) with (st w).
  destruct (f (length (envs s)) w) as [[b|e] s2]; destruct Hf as (w2 & <- & X2 & I2 & Q2); exists w2;
    (split; [done|split; [by eapply ext_fresh; [exact Hn|apply ext_alloc_env|exact X2]|done]]).
Qed.

(** Walking up the environments. *)
Lemma env_ok_drop s sh a level f :
  env_ok s sh a → sh !! level = Some f → ∃ a', go_up a level s = (Ok a', st s) ∧ env_ok s (drop level sh) a'.
Proof.
  revert sh a. induction level as [|level IH]; intros sh a He Hl; cbn [go_up].
  - exists a. by rewrite drop_0.
  - destruct sh as [|g sh]; [done|]. cbn in Hl. destruct sh as [|g2 sh]; [done|].
    destruct He as (env & Ee & _ & up & Eu & Hup). destruct (IH _ _ Hup Hl) as (a' & Ha & Hd). exists a'.
    unfold get_env, mbind, StE_bind, get, getO, lift. rewrite Ee, Eu. done.
Qed.
Lemma sat_go_up sh a level f s :
  env_ok s sh a → sh !! level = Some f → sat (go_up a level) (λ s' a', s' = s ∧ env_ok s (drop level sh) a') s.
Proof. intros He Hl HI. destruct (env_ok_drop _ _ _ _ _ He Hl) as (a' & -> & Hd). exists s. by split_and!. Qed.
Lemma sat_get_slot f sh a d s :
  env_ok s (f :: sh) a → frame_slot f d → sat (get_slot a d) (λ s' o, s' = s ∧ ∃ v, o = Some v ∧ aok s v) s.
Proof.
  intros (env & He & Hf & _) Hd HI. destruct (Hf d Hd) as (v & Hv & Ha).
  unfold get_slot, get_env, mbind, StE_bind, get, getO, lift. rewrite He, Hv. exists s. split_and!; try done. eauto.
Qed.
End rules.

(** * Symbols *)

Lemma find_index_Some x t i : find_index x t = Some i → t !! i = Some x.
Proof.
  revert i. induction t as [|y t IH]; intros i; cbn; [done|]. unfold str_eqb. case_bool_decide as Hy.
  - intros [= <-]. by subst.
  - destruct (find_index x t) as [j|]; [|done]. intros [= <-]. cbn. by apply IH.
Qed.
Lemma find_index_None x t : find_index x t = None → x ∉ t.
Proof.
  induction t as [|y t IH]; cbn; [intros _; by apply not_elem_of_nil|]. unfold str_eqb. case_bool_decide as Hy; [done|].
  destruct (find_index x t) as [j|]; [done|]. intros _. rewrite not_elem_of_cons. split; [congruence|auto].
Qed.

Section symbols.
Context {N : Prog} {X : list addr}.

Lemma sat_createSymbol x s : no_nul x → sat N X (createSymbol x) (λ s' y, sym_ok s' y ∧ symbol_str (symbols s') y = Some x) s.
Proof.
  intros Hx HI. unfold createSymbol, symbol_create. destruct (find_index x (symbols s)) as [i|] eqn:E; cbn -[length].
  - apply find_index_Some in E. exists s. split; [by destruct s as [[]]|].
    split; [done|split; [done|split; [|done]]]. apply lookup_lt_Some in E. unfold sym_ok. lia.
  - apply find_index_None in E. exists (upd s (set_symbols (symbols s ++ [x]) s)). split; [done|].
    assert (ext X s (upd s (set_symbols (symbols s ++ [x]) s))) as Hext.
    { constructor; [done|done| |by eexists]. intros a env He. exists env. split_and!; try done; auto. }
    split; [done|]. destruct HI as [H1 H2 (t & H3) [H4 H4'] H5]. split; [constructor|].
    + intros a v Ha Hv. eapply vok_mono; [exact Hext|]. eauto.
    + done.
    + exists (t ++ [x]). cbn [upd st symbols set_symbols]. rewrite H3. by rewrite app_assoc.
    + cbn. split.
      * apply NoDup_app. split_and!; [done| |apply NoDup_singleton]. intros y Hy Hy2. apply list_elem_of_singleton in Hy2 as ->. done.
      * apply Forall_app. split; [done|]. by constructor.
    + cbn. rewrite length_app. lia.
    + unfold sym_ok. cbn. rewrite length_app. cbn. split; [lia|]. by rewrite lookup_app_r, Nat.sub_diag by done.
Qed.
Lemma sat_symbolStr x s : sym_ok s x → sat N X (symbolStr x) (λ s' y, s' = s ∧ symbol_str (symbols s) x = Some y ∧ no_nul y) s.
Proof.
  intros Hx HI. unfold symbolStr, mbind, StE_bind, get, getO, lift. destruct x as [|i]; [unfold sym_ok in Hx; lia|].
  cbn [symbol_str]. destruct (lookup_lt_is_Some_2 (symbols s) i) as [y Hy]; [unfold sym_ok in Hx; lia|]. rewrite Hy.
  exists s. split_and!; try done. destruct (inv_names _ _ HI) as [_ Hn]. by eapply Forall_lookup_1.
Qed.
End symbols.

Lemma symbol_str_inj (t : SymbolTable) x y n : NoDup t → symbol_str t x = Some n → symbol_str t y = Some n → x = y.
Proof.
  destruct x as [|i], y as [|j]; cbn; try done. intros Hd Hi Hj. f_equal. by eapply NoDup_lookup.
Qed.

(** * Attribute sets *)

Fixpoint attr_find (b : list Attr) (name : Symbol) : option addr :=
  match b with [] => None | x :: b => if (x.1 =? name)%nat then Some x.2 else attr_find b name end.

Lemma existsb_sorted (name x : Symbol) (b : list Attr) :
  Forall (lt x) b.*1 → (name ≤ x)%nat → existsb (λ y : Attr, (y.1 <? name)%nat) b = false.
Proof.
  intros H Hx. induction b as [|y b IH]; [done|]. cbn [fmap list_fmap] in H. apply Forall_cons in H as [H1 H2].
  cbn [existsb]. rewrite (proj2 (Nat.ltb_ge _ _)) by lia. auto.
Qed.
Lemma attr_find_ge (b : list Attr) (name x : Symbol) : Forall (lt x) b.*1 → (name ≤ x)%nat → attr_find b name = None.
Proof.
  intros H Hx. induction b as [|y b IH]; [done|]. cbn [fmap list_fmap] in H. apply Forall_cons in H as [H1 H2].
  cbn [attr_find]. rewrite (proj2 (Nat.eqb_neq _ _)) by lia. auto.
Qed.
Lemma attr_get_sorted (b : list Attr) name s : sorted_syms b.*1 → attr_get b name s = (Ok (attr_find b name), s).
Proof.
  unfold sorted_syms. induction b as [|x b IH]; [done|]. cbn [fmap list_fmap]. intros H. apply StronglySorted_inv in H as [H1 H2].
  specialize (IH H1). unfold attr_get, mbind, StE_bind, lift in *. cbn [lower_bound attr_find].
  destruct (x.1 <? name)%nat eqn:El; [apply Nat.ltb_lt in El; rewrite (proj2 (Nat.eqb_neq _ _)) by lia; exact IH|].
  apply Nat.ltb_ge in El. rewrite (existsb_sorted _ x.1) by done. destruct (x.1 =? name)%nat; [done|].
  by rewrite (attr_find_ge _ _ x.1).
Qed.
Lemma attr_find_Some (b : list Attr) name a : attr_find b name = Some a → (name, a) ∈ b.
Proof.
  induction b as [|[x v] b IH]; cbn; [done|]. destruct (x =? name)%nat eqn:E.
  - intros [= ->]. apply Nat.eqb_eq in E as ->. left.
  - intros H. right. auto.
Qed.
Lemma attr_find_None (b : list Attr) name : attr_find b name = None → name ∉ b.*1.
Proof.
  induction b as [|[x v] b IH]; cbn; [intros _; apply not_elem_of_nil|]. destruct (x =? name)%nat eqn:E; [done|].
  apply Nat.eqb_neq in E. intros H. apply not_elem_of_cons. split; [congruence|auto].
Qed.

Lemma attr_insert_perm x l : attr_insert x l ≡ₚ x :: l.
Proof. induction l as [|y l IH]; cbn [attr_insert]; [done|]. destruct (x.1 <? y.1)%nat; [done|]. rewrite IH. apply perm_swap. Qed.
Lemma attr_insert_sorted x l : x.1 ∉ l.*1 → sorted_syms l.*1 → sorted_syms (attr_insert x l).*1.
Proof.
  unfold sorted_syms. induction l as [|y l IH]; cbn [attr_insert fmap list_fmap]; [by repeat constructor|]. intros Hn H. apply StronglySorted_inv in H as [H1 H2].
  destruct (x.1 <? y.1)%nat eqn:E.
  - apply Nat.ltb_lt in E. constructor; [by constructor|]. constructor; [done|]. eapply Forall_impl; [exact H2|]. cbn. lia.
  - apply Nat.ltb_ge in E. rewrite not_elem_of_cons in Hn. destruct Hn as [Hn1 Hn2]. constructor; [by apply IH|].
    rewrite (attr_insert_perm x l). constructor; [lia|done].
Qed.
Lemma attr_sort_perm l : foldr attr_insert [] l ≡ₚ l.
Proof. induction l as [|x l IH]; cbn; [done|]. by rewrite attr_insert_perm, IH. Qed.
Lemma attr_sort_sorted l : NoDup l.*1 → sorted_syms (foldr attr_insert [] l).*1.
Proof.
  induction l as [|x l IH]; cbn; [constructor|]. intros H. apply NoDup_cons in H as [H1 H2]. apply attr_insert_sorted; [|auto].
  by rewrite attr_sort_perm.
Qed.
Lemma sorted_syms_NoDup l : sorted_syms l → NoDup l.
Proof.
  unfold sorted_syms. induction l as [|x l IH]; [constructor|]. intros H. apply StronglySorted_inv in H as [H1 H2].
  constructor; [|auto]. intros Hx. rewrite Forall_forall in H2. specialize (H2 _ Hx). lia.
Qed.
Lemma sorted_syms_snoc l x : sorted_syms l → Forall (λ y, y < x)%nat l → sorted_syms (l ++ [x]).
Proof.
  unfold sorted_syms. induction l as [|y l IH]; cbn; [by repeat constructor|]. intros H HF. apply StronglySorted_inv in H as [H1 H2]. inv HF.
  constructor; [auto|]. apply Forall_app. split; [done|]. by constructor.
Qed.
Lemma sorted_syms_app l k : sorted_syms (l ++ k) → sorted_syms l ∧ sorted_syms k ∧ ∀ x y, x ∈ l → y ∈ k → (x < y)%nat.
Proof.
  unfold sorted_syms. induction l as [|z l IH]; cbn.
  - intros H. split_and!; [constructor|done|]. intros x y Hx. by apply not_elem_of_nil in Hx.
  - intros H. apply StronglySorted_inv in H as [H1 H2]. destruct (IH H1) as (A & B & C). apply Forall_app in H2 as [H2 H3].
    split_and!; [by constructor|done|]. intros x y Hx Hy. apply elem_of_cons in Hx as [->|Hx]; [|auto].
    rewrite Forall_forall in H3. auto.
Qed.

Section attrs.
Context {N : Prog} {X : list addr}.
Abbreviation sat := (sat N X).

Lemma sat_attr_get b name s :
  attrs_ok s b → sat (attr_get b name) (λ s' o, s' = s ∧ o = attr_find b name ∧ ∀ a, o = Some a → aok s a) s.
Proof.
  intros [H1 H2] HI. rewrite attr_get_sorted by done. exists s. split_and!; try done. intros a Ha. apply attr_find_Some in Ha.
  rewrite Forall_forall in H2. by destruct (H2 _ Ha).
Qed.
Lemma sat_attr_sort l s : NoDup l.*1 → sat (attr_sort l) (λ s' l', s' = s ∧ sorted_syms l'.*1 ∧ l' ≡ₚ l) s.
Proof.
  intros Hn HI. unfold attr_sort. rewrite decide_True by done. exists s. split_and!; try done; [by apply attr_sort_sorted|apply attr_sort_perm].
Qed.
Lemma sat_buildBindings n s : sat (buildBindings n) (λ s' b, s' = s ∧ b = MkBuilder n []) s.
Proof. unfold buildBindings. destruct (_ <? _)%Z; [by apply sat_throw|by apply sat_ret]. Qed.
Lemma sat_push_back b x s :
  (length (bindings b) < capacity b)%nat → sat (push_back b x) (λ s' b', s' = s ∧ b' = MkBuilder (capacity b) (bindings b ++ [x])) s.
Proof. intros H. unfold push_back. rewrite (proj2 (Nat.ltb_lt _ _)) by done. by apply sat_ret. Qed.
Lemma sat_push_all b l s :
  (length (bindings b) + length l ≤ capacity b)%nat →
  sat (foldS push_back b l) (λ s' b', s' = s ∧ b' = MkBuilder (capacity b) (bindings b ++ l)) s.
Proof.
  revert b. induction l as [|x l IH]; intros b H; cbn [foldS]; [apply sat_ret; by rewrite app_nil_r; destruct b|].
  eapply sat_bind; [apply sat_push_back; cbn in H; lia|]. intros s' b' _ [-> ->].
  eapply sat_mono; [apply IH|]; cbn [bindings capacity] in *; [rewrite length_app; cbn in *; lia|].
  intros s' b' _ [-> ->]. split; [done|]. by rewrite <- app_assoc.
Qed.
(** The set that is built from distinct names. *)
Lemma sat_finish b s :
  NoDup (bindings b).*1 → Forall (λ x : Attr, sym_ok s x.1 ∧ aok s x.2) (bindings b) → sat (finish b) (λ s' v, wval N s' v) s.
Proof.
  intros Hn Hb. unfold finish. eapply sat_bind; [by apply sat_attr_sort|]. intros s' l _ (-> & Hs & Hp). apply sat_ret.
  split; [|done]. split; [done|]. by rewrite Hp.
Qed.
Lemma sat_alreadySorted b s : attrs_ok s (bindings b) → sat (alreadySorted b) (λ s' v, wval N s' v) s.
Proof. intros H. by apply sat_ret. Qed.
End attrs.

Lemma c_str_no_nul s : no_nul (c_str s).
Proof.
  unfold c_str, no_nul. destruct (find_idx _ s) as [n|] eqn:E.
  - revert n E. induction s as [|c s IH]; intros n; cbn; [done|]. case_bool_decide as Hc; [intros [= <-]; apply not_elem_of_nil|].
    destruct (find_idx _ s) as [m|]; [|done]. intros [= <-]. cbn. apply not_elem_of_cons. split; [congruence|by apply IH].
  - induction s as [|c s IH]; [apply not_elem_of_nil|]. cbn in E. case_bool_decide as Hc; [done|].
    destruct (find_idx _ s); [done|]. apply not_elem_of_cons. split; [congruence|by apply IH].
Qed.

(** * Environments under construction *)

Section pending.
Context {N : Prog}.

(** An environment as [env_ok], or one of [Q] whose slots need not be filled yet. *)
Fixpoint env_pre (s : World) (Q : list addr) (sh : list Frame) (a : addr) : Prop :=
  match sh with
  | [] => True
  | f :: sh' =>
      env_ok s sh a ∨
      a ∈ Q ∧ ∃ env, envs s !! a = Some env ∧ (∀ d, frame_slot f d → (d < length (env_values env))%nat) ∧
      match sh' with [] => True | _ => ∃ up, env_up env = Some up ∧ env_pre s Q sh' up end
  end.

(** The thunks [L] wait for the environments [Q]. *)
Record Pend (s : World) (Q L : list addr) : Prop := {
  pend_thunks : ∀ a, a ∈ L → a ∈ dead s ∧ ∃ env e sh, values s !! a = Some (VThunk env e) ∧ env_pre s Q sh env ∧ bound N sh e;
  pend_slots : ∀ a env i v, a ∈ Q → envs s !! a = Some env → env_values env !! i = Some (Some v) → aok s v ∨ v ∈ L;
}.
(** The first [k] slots are filled, the others are not. *)
Definition prog (s : World) (a : addr) (k : nat) : Prop :=
  ∃ env, envs s !! a = Some env ∧ ∀ i o, env_values env !! i = Some o → if decide (i < k)%nat then is_Some o else o = None.

Lemma env_pre_mono X s s' Q sh a : ext X s s' → env_pre s Q sh a → env_pre s' Q sh a.
Proof.
  intros Hx. revert a. induction sh as [|f sh IH]; intros a; [done|]. cbn [env_pre]. intros [H|(Ha & env & He & Hf & Hu)].
  - left. by eapply env_ok_mono.
  - right. split; [done|]. destruct (ext_envs _ _ _ Hx _ _ He) as (env' & He' & Hu' & Hl & _). exists env'. split; [done|].
    split; [by rewrite Hl|]. destruct sh; [done|]. destruct Hu as (up & Eu & Hup). exists up. rewrite Hu'. split; [done|]. by apply IH.
Qed.
Lemma env_pre_ok s Q sh a : env_ok s sh a → env_pre s Q sh a.
Proof. destruct sh; [done|]. by left. Qed.
Lemma env_pre_cons s Q f sh a up n :
  a ∈ Q → env_at s a up n → (∀ d, frame_slot f d → (d < n)%nat) → env_pre s Q sh up → env_pre s Q (f :: sh) a.
Proof.
  intros Ha (env & He & Hu & Hn) Hf Hup. right. split; [done|]. exists env. rewrite Hn. split_and!; [done|done|]. destruct sh; [done|]. eauto.
Qed.

Definition revived (s : World) (L : list addr) : World := MkWorld (st s) (filter (λ a, a ∉ L) (dead s)).
Lemma aok_revived s L a : aok s a → aok (revived s L) a.
Proof. intros [H1 H2]. split; [done|]. cbn. rewrite list_elem_of_filter. tauto. Qed.
Lemma ext_revived X s L : ext X s (revived s L).
Proof.
  constructor; [apply aok_revived|done| |exists []; by rewrite app_nil_r].
  intros a env E. exists env. split_and!; try done; auto. intros i (v & Hv & Hl). exists v. split; [done|]. by apply aok_revived.
Qed.
Lemma pend_aok s Q L a : Pend s Q L → a ∈ L → aok (revived s L) a.
Proof.
  intros HP Ha. destruct (pend_thunks _ _ _ HP _ Ha) as (_ & env & e & sh & Hv & _). split; [by eapply lookup_lt_Some|].
  cbn. rewrite list_elem_of_filter. tauto.
Qed.
Lemma env_pre_revived s Q L sh a :
  Pend s Q L → (∀ b, b ∈ Q → ∃ n, prog s b n ∧ ∀ env, envs s !! b = Some env → length (env_values env) ≤ n)%nat →
  env_pre s Q sh a → env_ok (revived s L) sh a.
Proof.
  intros HP Hc. revert a. induction sh as [|f sh IH]; intros a; [done|]. cbn [env_pre].
  intros [H|(Ha & env & He & Hf & Hu)]; [eapply env_ok_mono; [apply (ext_revived [])|done]|].
  exists env. split; [done|]. split.
  - intros d Hd. destruct (Hc a Ha) as (n & (env' & He' & Hp) & Hn). rewrite He in He'. injection He' as <-. specialize (Hn _ He).
    specialize (Hf d Hd). destruct (lookup_lt_is_Some_2 _ _ Hf) as [o Ho]. specialize (Hp _ _ Ho). rewrite decide_True in Hp by lia.
    destruct Hp as [v ->]. exists v. split; [done|].
    destruct (pend_slots _ _ _ HP _ _ _ _ Ha He Ho); [by apply aok_revived|by eapply pend_aok].
  - destruct sh; [done|]. destruct Hu as (up & Eu & Hup). eauto.
Qed.
(** Completing the environments. *)
Lemma Inv_revived s Q L :
  Inv N s → Pend s Q L → (∀ b, b ∈ Q → ∃ n, prog s b n ∧ ∀ env, envs s !! b = Some env → length (env_values env) ≤ n)%nat →
  Inv N (revived s L).
Proof.
  intros HI HP Hc. constructor; try apply HI.
  - intros a v Ha Hv. destruct (decide (a ∈ dead s)) as [Hd|Hd].
    + assert (a ∈ L) as HL by (cbn in Ha; rewrite list_elem_of_filter in Ha; destruct (decide (a ∈ L)); tauto).
      destruct (pend_thunks _ _ _ HP _ HL) as (_ & env & e & sh & Hv' & Hp & Hb). cbn in Hv. rewrite Hv in Hv'. injection Hv' as ->.
      exists sh. split; [by eapply env_pre_revived|done].
    + eapply vok_mono; [apply (ext_revived [])|]. by eapply inv_values.
  - pose proof (inv_dead _ _ HI) as Hd. rewrite Forall_forall in Hd |- *. intros a Ha. apply list_elem_of_filter in Ha as [_ Ha]. auto.
Qed.

Lemma Pend_values (s : World) l D Q L :
  (∀ a, a ∈ L → values s !! a = l !! a ∧ a ∈ D) → (∀ X, ext X s (MkWorld (set_values l s) D)) →
  Pend s Q L → Pend (MkWorld (set_values l s) D) Q L.
Proof.
  intros Hl Hx [H1 H2]. constructor.
  - intros a Ha. destruct (H1 a Ha) as (_ & env & e & sh & Hv & Hp & Hb). destruct (Hl a Ha) as [El Hd]. split; [done|]. exists env, e, sh.
    cbn. rewrite <- El. split_and!; [done| |done]. eapply env_pre_mono; [apply (Hx [])|done].
  - intros a env i v Ha He Hi. destruct (H2 a env i v Ha He Hi); [left|by right]. eapply aok_mono; [apply (Hx [])|done].
Qed.

(** What holds after a value for a slot was made. *)
Definition made (s0 : World) (Q L : list addr) (s : World) (a : addr) : Prop :=
  envs s = envs s0 ∧ ∃ L', L ⊆ L' ∧ Pend s Q L' ∧ (aok s a ∨ a ∈ L').

Lemma pend_lt s Q L a : Pend s Q L → a ∈ L → (a < length (values s))%nat.
Proof. intros HP Ha. destruct (pend_thunks _ _ _ HP _ Ha) as (_ & env & e & sh & Hv & _). by eapply lookup_lt_Some. Qed.

Lemma sat_pend_const X Q L v s : vok N s v → Pend s Q L → sat N X (allocValue v) (made s Q L) s.
Proof.
  intros Hv HP HI. cbn.
  set (l := values s ++ [v]). assert (length (values s) ≤ length l)%nat as Hl by (unfold l; rewrite length_app; lia).
  exists (upd s (set_values l s)). split; [done|]. split; [by apply ext_upd_values|]. split.
  - apply (Inv_upd_values (X := [])); [done|done|]. intros a w _ Hw. apply lookup_app_Some in Hw. destruct Hw as [Hw|[_ Hw]]; [by left|right].
    apply list_lookup_singleton_Some in Hw as [_ <-]. eapply vok_mono; [by apply (@ext_upd_values X)|done].
  - split; [done|]. exists L. split; [done|]. split.
    + apply Pend_values; [|intros X'; by apply ext_upd_values|done]. intros a Ha. split; [|by apply (pend_thunks _ _ _ HP)].
      unfold l. rewrite lookup_app_l; [done|]. by eapply pend_lt.
    + left. split; [cbn; unfold l; rewrite length_app; cbn; lia|]. intros Hd. pose proof (inv_dead _ _ HI) as Hf. rewrite Forall_forall in Hf.
      specialize (Hf _ Hd). lia.
Qed.
Lemma sat_pend_thunk X Q L sh e env s :
  env_pre s Q sh env → bound N sh e → Pend s Q L → sat N X (mkThunk e env) (made s Q L) s.
Proof.
  intros He Hb HP HI. cbn. set (l := values s ++ [_]). set (a := length (values s)).
  assert (length (values s) ≤ length l)%nat as Hl by (unfold l; rewrite length_app; lia).
  set (w := MkWorld (set_values l s) (a :: dead s)).
  assert (∀ b, aok s b → aok w b) as Hlive.
  { intros b [H1 H2]. split; [cbn; lia|]. cbn. apply not_elem_of_cons. split; [unfold a; lia|done]. }
  assert (∀ X, ext X s w) as Hx.
  { intros X'. constructor; [done|done| |exists []; by rewrite app_nil_r].
    intros b env' E. exists env'. split_and!; try done; auto. intros i (v & Hv & Hv'). exists v. auto. }
  exists w. split; [done|]. split; [apply Hx|]. split.
  - constructor; try apply HI.
    + intros b v Hbd Hv. eapply vok_mono; [apply (Hx [])|]. cbn in Hbd. apply not_elem_of_cons in Hbd as [Hb1 Hb2].
      eapply inv_values; [done|exact Hb2|]. cbn in Hv. unfold l in Hv. apply lookup_app_Some in Hv as [Hv|[Hv1 Hv2]]; [done|].
      apply list_lookup_singleton_Some in Hv2 as [Hv2 _]. unfold a in Hb1. lia.
    + cbn. constructor; [unfold a, l; rewrite length_app; cbn; lia|]. eapply Forall_impl; [apply HI|]. cbn. intros b Hb'.
      unfold l. rewrite length_app. cbn. lia.
  - split; [done|]. exists (a :: L). split; [set_solver|]. split; [|right; left]. constructor.
    + intros b Hb'. apply elem_of_cons in Hb' as [->|Hb'].
      * split; [left|]. exists env, e, sh. split; [cbn; unfold l, a; by rewrite lookup_app_r, Nat.sub_diag by done|].
        split; [eapply env_pre_mono; [apply (Hx [])|done]|done].
      * destruct (pend_thunks _ _ _ HP _ Hb') as (Hd & env' & e' & sh' & Hv & Hp & Hb2). split; [by right|].
        exists env', e', sh'. split; [cbn; unfold l; rewrite lookup_app_l; [done|by eapply lookup_lt_Some]|].
        split; [eapply env_pre_mono; [apply (Hx [])|done]|done].
    + intros b env' i v Hb' E Hi. destruct (pend_slots _ _ _ HP _ _ _ _ Hb' E Hi) as [H|H]; [left; auto|right; by right].
Qed.

Lemma env_pre_drop s Q sh a level f :
  env_pre s Q sh a → sh !! level = Some f → ∃ a', go_up a level s = (Ok a', st s) ∧ env_pre s Q (drop level sh) a'.
Proof.
  revert sh a. induction level as [|level IH]; intros sh a He Hl; [exists a; by rewrite drop_0|].
  destruct sh as [|g sh]; [done|]. cbn in Hl. destruct sh as [|g2 sh]; [done|].
  destruct He as [He|(_ & env & Ee & _ & up & Eu & Hup)].
  - destruct (env_ok_drop _ _ _ (S level) _ He Hl) as (a' & Ha & Hd). exists a'. split; [done|]. by apply env_pre_ok.
  - destruct (IH _ _ Hup Hl) as (a' & Ha & Hd). exists a'. split; [|done]. cbn [go_up].
    unfold get_env, mbind, StE_bind, get, getO, lift. by rewrite Ee, Eu.
Qed.
Lemma pend_get_slot s Q L f sh a d :
  Pend s Q L → env_pre s Q (f :: sh) a → frame_slot f d →
  ∃ o, get_slot a d s = (Ok o, st s) ∧ ∀ v, o = Some v → aok s v ∨ v ∈ L.
Proof.
  intros HP He Hd. unfold get_slot, get_env, mbind, StE_bind, get, getO, lift. destruct He as [(env & He & Hf & _)|(Ha & env & He & Hf & _)].
  - destruct (Hf d Hd) as (v & Hv & Hl). rewrite He, Hv. exists (Some v). split; [done|]. intros w [= <-]. by left.
  - destruct (lookup_lt_is_Some_2 _ _ (Hf d Hd)) as [o Ho]. rewrite He, Ho. exists o. split; [done|]. intros v ->. by eapply pend_slots.
Qed.
Lemma sat_step {A B} X (m : EM A) (f : A → EM B) a R (s : World) : m s = (Ok a, st s) → sat N X (f a) R s → sat N X (m ≫= f) R s.
Proof. intros E H HI. unfold mbind, StE_bind. rewrite E. by apply H. Qed.

Lemma head_drop (sh : list Frame) level f : head (drop level sh) = Some f → sh !! level = Some f.
Proof. intros H. rewrite <- (Nat.add_0_r level), <- lookup_drop. destruct (drop level sh); [done|]. by inv H. Qed.
Lemma var_ok_frame sh w level displ : var_ok sh w level displ → ∃ f, sh !! level = Some f.
Proof. destruct w as [[p w]|]; cbn; [intros [H _]; apply head_drop in H; eauto|intros (f & Hf & _); eauto]. Qed.

Lemma sat_pend_thunkVar X Q L sh e env w level displ s :
  env_pre s Q sh env → bound N sh e → var_ok sh w level displ → Pend s Q L → sat N X (thunkVar e env w level displ) (made s Q L) s.
Proof.
  intros He Hb Hv HP. unfold thunkVar. destruct (var_ok_frame _ _ _ _ Hv) as (f & Hf).
  destruct (env_pre_drop _ _ _ _ _ _ He Hf) as (a' & Ea & He'). eapply sat_step; [exact Ea|].
  destruct w as [w|]; [by eapply sat_pend_thunk|].
  destruct Hv as (f' & Hf' & Hd). rewrite Hf in Hf'. injection Hf' as <-. rewrite (drop_S _ _ _ Hf) in He'.
  destruct (pend_get_slot _ _ _ _ _ _ _ HP He' Hd) as (o & Eo & Ho). eapply sat_step; [exact Eo|].
  destruct o as [v|]; [|by eapply sat_pend_thunk]. apply sat_ret. split; [done|]. exists L. split_and!; [done|done|auto].
Qed.
Lemma sat_pend_maybeThunk X Q L sh e env s :
  env_pre s Q sh env → bound N sh e → Pend s Q L → sat N X (maybeThunk e env) (made s Q L) s.
Proof.
  intros He Hb HP.
  destruct e as [| | | |name w level displ|displ| | | |[|x l]| | | | | | | | |]; cbn [maybeThunk];
    try (by eapply sat_pend_thunk); try (by apply sat_pend_const; cbn [vok]; first [done | split; [apply c_str_no_nul|constructor] | constructor]);
    by eapply sat_pend_thunkVar.
Qed.

Lemma sat_pend_set_slot X Q L a up n k v s :
  a ∈ X → a ∈ Q → Pend s Q L → env_at s a up n → prog s a k → (k < n)%nat → aok s v ∨ v ∈ L →
  sat N X (set_slot a k v) (λ s' _, Pend s' Q L ∧ prog s' a (S k) ∧ (∀ b m, b ≠ a → prog s b m → prog s' b m) ∧ values s' = values s ∧ dead s' = dead s) s.
Proof.
  intros HX HQ HP (env & He & Hu & Hn) (env0 & He0 & Hp) Hk Hv HI. rewrite He in He0. injection He0 as <-.
  unfold set_slot, get_env, mbind, StE_bind, get, getO, lift. rewrite He. rewrite (proj2 (Nat.ltb_lt _ _)) by lia.
  cbn -[lookup insert]. set (env' := MkEnv _ _). set (w := upd s (set_envs (<[a:=env']> (envs s)) s)).
  assert (envs w !! a = Some env') as Ea by (cbn; by rewrite list_lookup_insert_eq by (by eapply lookup_lt_Some)).
  assert (∀ b, b ≠ a → envs w !! b = envs s !! b) as Eb by (intros b Hb; cbn; by rewrite list_lookup_insert_ne).
  assert (env_values env !! k = Some None) as Ek.
  { destruct (lookup_lt_is_Some_2 (env_values env) k) as [o Ho]; [lia|]. specialize (Hp _ _ Ho). rewrite decide_False in Hp by lia. by subst. }
  assert (ext X s w) as Hx.
  { constructor; [done|done| |exists []; by rewrite app_nil_r]. intros b envb E. destruct (decide (b = a)) as [->|Hba].
    - rewrite He in E. injection E as <-. exists env'. split_and!; [done|done|cbn; by rewrite length_insert| |by intros []].
      intros i (x & Hx & Hl). exists x. split; [|done]. cbn. rewrite list_lookup_insert_ne; [done|]. intros <-. congruence.
    - exists envb. rewrite Eb by done. split_and!; try done; auto. }
  exists w. split; [done|]. split; [done|]. split; [by apply (Inv_upd_envs (X := X))|]. split_and!; try done.
  - constructor.
    + intros b Hb. destruct (pend_thunks _ _ _ HP _ Hb) as (Hd & envb & e & sh & Hvb & Hpre & Hbd). split; [done|]. exists envb, e, sh.
      split_and!; [done|by eapply env_pre_mono|done].
    + intros b envb i x Hb E Hi. destruct (decide (b = a)) as [->|Hba].
      * rewrite Ea in E. injection E as <-. cbn in Hi. apply list_lookup_insert_Some in Hi as [(_ & [= <-] & _)|[_ Hi]]; [done|].
        by eapply (pend_slots _ _ _ HP).
      * rewrite Eb in E by done. by eapply (pend_slots _ _ _ HP).
  - exists env'. split; [done|]. intros i o Hi. cbn in Hi. apply list_lookup_insert_Some in Hi as [(<- & <- & _)|[Hne Hi]].
    + rewrite decide_True by lia. done.
    + specialize (Hp _ _ Hi). destruct (decide (i < k)%nat); [rewrite decide_True by lia; done|]. rewrite decide_False by lia. done.
  - intros b m Hb (envb & E & Hpb). exists envb. by rewrite Eb.
Qed.

(** Setting a slot to a live value. *)
Definition slot_set (s : World) (a up : addr) (i : nat) : Prop :=
  ∃ env, envs s !! a = Some env ∧ env_up env = Some up ∧ slot_live s env i.
Lemma sat_set_slot X a up n i v s :
  env_at s a up n → (i < n)%nat → aok s v → a ∈ X ∨ slot_set s a up i → sat N X (set_slot a i v) (λ s' _, slot_set s' a up i) s.
Proof.
  intros (env & He & Hu & Hn) Hi Hv Hold HI. unfold set_slot, get_env, mbind, StE_bind, get, getO, lift. rewrite He.
  rewrite (proj2 (Nat.ltb_lt _ _)) by lia. cbn -[lookup insert]. set (env' := MkEnv _ _).
  set (w := upd s (set_envs (<[a:=env']> (envs s)) s)).
  assert (envs w !! a = Some env') as Ea by (cbn; by rewrite list_lookup_insert_eq by (by eapply lookup_lt_Some)).
  assert (slot_live w env' i) as Hlive by (exists v; cbn; by rewrite list_lookup_insert_eq by lia).
  assert (ext X s w) as Hx.
  { constructor; [done|done| |exists []; by rewrite app_nil_r]. intros b envb E. destruct (decide (b = a)) as [->|Hba].
    - rewrite He in E. injection E as <-. exists env'. split_and!; [done|done|cbn; by rewrite length_insert| |].
      + intros j (x & Hx & Hl). destruct (decide (j = i)) as [->|Hj]; [done|]. exists x. cbn. by rewrite list_lookup_insert_ne.
      + intros Ha j Hj. destruct Hold as [|(env0 & E0 & _ & x & Hx & _)]; [done|]. rewrite He in E0. injection E0 as <-.
        destruct (decide (j = i)) as [->|Hji]; [congruence|]. cbn. by rewrite list_lookup_insert_ne.
    - exists envb. cbn. rewrite list_lookup_insert_ne by done. split_and!; try done; auto. }
  exists w. split; [done|]. split; [done|]. split; [by apply (Inv_upd_envs (X := X))|]. exists env'. done.
Qed.
Lemma env_ok_slot s f sh a up n d : env_at s a up n → env_ok s (f :: sh) a → frame_slot f d → slot_set s a up d.
Proof.
  intros (env & He & Hu & _) (env' & He' & Hf & _) Hd. rewrite He in He'. injection He' as <-. exists env. split_and!; [done|done|auto].
Qed.
(** Starting a construction, and ending it. *)
Lemma Pend_nil s : Pend s [] [].
Proof. constructor; [by intros a []%elem_of_nil|by intros a env i v []%elem_of_nil]. Qed.
Lemma Pend_start s a Q L :
  Pend s Q L → (∀ env i v, envs s !! a = Some env → env_values env !! i = Some (Some v) → aok s v) → Pend s (a :: Q) L.
Proof.
  intros [H1 H2] Ha. constructor.
  - intros b Hb. destruct (H1 b Hb) as (Hd & env & e & sh & Hv & Hp & Hbd). split; [done|]. exists env, e, sh. split_and!; [done| |done].
    clear -Hp. revert env Hp. induction sh as [|f sh IH]; intros b; [done|]. cbn [env_pre].
    intros [H|(Hb & env & He & Hf & Hu)]; [by left|]. right. split; [by right|]. exists env. split_and!; try done.
    destruct sh; [done|]. destruct Hu as (up & Eu & Hup). eauto.
  - intros b env i v Hb He Hi. apply elem_of_cons in Hb as [->|Hb]; eauto.
Qed.
Lemma Pend_alloc_env (s s' : World) a Q L :
  Forall (λ b, is_Some (envs s !! b)) Q → ext [] s s' → alloc_frame s s' a → Pend s Q L → Pend s' Q L.
Proof.
  intros HQ Hx [F1 F2 F3 F4] [H1 H2]. constructor.
  - intros b Hb. destruct (H1 b Hb) as (Hd & env & e & sh & Hv & Hp & Hbd). rewrite F4, F3. split; [done|]. exists env, e, sh.
    split_and!; [done|by eapply env_pre_mono|done].
  - intros b env i v Hb He Hi. rewrite Forall_forall in HQ. destruct (HQ b Hb) as [env' He']. rewrite (F2 _ _ He') in He.
    injection He as ->. destruct (H2 b env i v Hb He' Hi); [left|by right]. by eapply aok_mono.
Qed.
Lemma prog_alloc_env (s s' : World) a b m : alloc_frame s s' a → prog s b m → prog s' b m.
Proof. intros HF (env & He & Hp). exists env. split; [by apply (af_envs _ _ _ HF)|done]. Qed.
Lemma sat_complete {A} X Q L (m : EM A) R s :
  Pend s Q L → (∀ b, b ∈ Q → ∃ n, prog s b n ∧ ∀ env, envs s !! b = Some env → length (env_values env) ≤ n)%nat →
  (Pend s Q L → sat N X m R (revived s L)) → sat N X m R s.
Proof. intros HP Hc Hm. eapply sat_ghost; [| |by apply Hm]; [done|]. intros HI. split; [by eapply Inv_revived|apply ext_revived]. Qed.
Lemma prog_0 s a up n : env_at s a up n → (∀ i o, envs s !! a ≫= (λ env, env_values env !! i) = Some o → o = None) → prog s a 0.
Proof. intros (env & He & _) Hn. exists env. split; [done|]. intros i o Hi. rewrite decide_False by lia. apply (Hn i). by rewrite He. Qed.
End pending.

(** * Sorting

    The comparator is restricted to the states that extend the first and to the
    elements of the list. *)

Section sorting.
Context {N : Prog} (X : list addr) (s0 : World) (l : list addr).

Definition good_state : Type := { s : EvalState | ∃ w, st w = s ∧ ext X s0 w ∧ Inv N w }.
Definition list_elem : Type := { x : addr | x ∈ l }.

Lemma list_elems : ∃ l' : list list_elem, proj1_sig <$> l' = l.
Proof.
  assert (∀ k, k ⊆ l → ∃ l' : list list_elem, proj1_sig <$> l' = k) as H; [|by apply H].
  induction k as [|x k IH]; intros Hk; [by exists []|]. destruct IH as (l' & El); [set_solver|].
  assert (x ∈ l) as Hx by set_solver. exists (exist _ x Hx :: l'). cbn. by rewrite El.
Qed.

Section restricted.
Context (comp : addr → addr → EM bool).
Context (Hcomp : ∀ s x y, ext X s0 s → x ∈ l → y ∈ l → sat N X (comp x y) (λ _ _, True) s).

Lemma comp_good (s : good_state) (x y : list_elem) :
  ∃ w, st w = (comp (proj1_sig x) (proj1_sig y) (proj1_sig s)).2 ∧ ext X s0 w ∧ Inv N w.
Proof.
  destruct s as (s & w & <- & Hx & HI), x as (x & Hxl), y as (y & Hyl). cbn [proj1_sig]. specialize (Hcomp w x y Hx Hxl Hyl HI).
  destruct (comp x y w) as [[]]; destruct Hcomp as (w' & <- & X' & I' & _); exists w'; (split; [done|split; [by etrans|done]]).
Qed.
Definition restricted (x y : list_elem) : StE good_state bool := λ s,
  ((comp (proj1_sig x) (proj1_sig y) (proj1_sig s)).1, exist _ _ (comp_good s x y)).
Lemma restricted_throws x y s e s' : restricted x y s = (Throw e, s') → may_throw N e.
Proof.
  destruct s as (s & w & <- & Hx & HI), x as (x & Hxl), y as (y & Hyl). unfold restricted. cbn [proj1_sig]. intros [= E1 _].
  specialize (Hcomp w x y Hx Hxl Hyl HI). destruct (comp x y w) as [[c|e'] s1]; [done|]. injection E1 as ->. by destruct Hcomp as (w' & _ & _ & _ & H).
Qed.

Lemma restricted_img x y : img proj1_sig id (comp (proj1_sig x) (proj1_sig y)) (restricted x y).
Proof using Type. intros s. unfold restricted. cbn. by destruct (comp _ _ _) as [[]]. Qed.
Lemma sat_peeksort : sat N X (peeksort comp l) (λ _ o, o ≡ₚ l) s0.
Proof.
  intros HI. destruct list_elems as (l' & El). set (g0 := exist _ (st s0) (ex_intro _ s0 (conj eq_refl (conj (reflexivity s0) HI))) : good_state).
  assert (peeksort comp (proj1_sig <$> l') (proj1_sig g0) =
    (fmap proj1_sig <$> (peeksort restricted l' g0).1, proj1_sig (peeksort restricted l' g0).2)) as E
    by apply (peeksort_restrict proj1_sig proj1_sig comp restricted restricted_img l' g0).
  rewrite El in E.
  pose proof (peeksort_wp restricted (λ _ _, true) l' g0) as Hw. unfold wp in Hw.
  change (st s0) with (proj1_sig g0). rewrite E. clearbody g0. destruct (peeksort restricted l' g0) as [[o|e] s1]; cbn.
  - destruct s1 as (s1 & w & <- & Hx & HIw). exists w. split_and!; try done. destruct Hw as [Hp _].
    rewrite <- El. by rewrite <- Hp.
  - destruct s1 as (s1 & w & <- & Hx & HIw). exists w. split_and!; try done. destruct Hw as (x & y & s2 & s3 & Ht). by eapply restricted_throws.
Qed.
End restricted.
End sorting.

(** What a triple says of a run. *)
Lemma sat_run {N X A} (m : EM A) Q (s : World) :
  sat N X m Q s → Inv N s →
  match m s with
  | (Ok a, s') => ∃ w, st w = s' ∧ Inv N w ∧ Q w a
  | (Throw e, _) => may_throw N e
  end.
Proof.
  intros Hm HI. specialize (Hm HI). destruct (m s) as [[a|e] s']; destruct Hm as (w & <- & _ & HIw & H); [|done]. eauto.
Qed.

#[global] Opaque sat.
