(* ===== verification/EvalOk.v ===== *)
(** The functions of the evaluator keep its state well-formed.

    [EvOk E] states this of the functions in a record [E]; each function of the
    file [Eval] is shown to have its part of it if [E] has. *)

From S2P Require Import Prelude State Strings Xp CanonPath StorePath DerivedPath Expr Value Eval EvalInv.

Definition ref_ok (N : Prog) (s : World) (r : Ref) : Prop := match r with RVal v => vok N s v | RAddr a => aok s a end.
Lemma ref_ok_mono X s s' (Hx : ext X s s') N r : ref_ok N s r → ref_ok N s' r.
Proof. destruct r; [by eapply vok_mono|by eapply aok_mono]. Qed.

(** A builder with room for [n] attributes that has those of the names [l]. *)
Definition building (s : World) (b : Builder) (n : nat) (l : list Symbol) : Prop :=
  capacity b = n ∧ (bindings b).*1 = l ∧ Forall (λ x : Attr, sym_ok s x.1 ∧ aok s x.2) (bindings b).
Lemma building_mono X s s' b n l : ext X s s' → building s b n l → building s' b n l.
Proof.
  intros Hx (H1 & H2 & H3). split_and!; [done|done|]. eapply Forall_impl; [exact H3|]. intros x [Ha Hb].
  split; [by apply (sym_ok_mono _ _ _ Hx)|by apply (aok_mono _ _ _ Hx)].
Qed.
Lemma symbol_str_ext X (s s' : World) x y : ext X s s' → symbol_str (symbols s) x = Some y → symbol_str (symbols s') x = Some y.
Proof.
  intros Hx. destruct (ext_symbols _ _ _ Hx) as (t & ->). destruct x as [|i]; [done|]. cbn. apply lookup_app_l_Some.
Qed.

(** Facts on the old state hold in the new one. *)
Ltac up Hx :=
  match type of Hx with
  | ext _ ?s ?s' =>
      repeat match goal with
        | H : aok s _ |- _ => apply (aok_mono _ _ _ Hx) in H
        | H : sym_ok s _ |- _ => apply (sym_ok_mono _ _ _ Hx) in H
        | H : Forall (aok s) _ |- _ => apply (Forall_aok_mono _ _ _ Hx) in H
        | H : attrs_ok s _ |- _ => apply (attrs_ok_mono _ _ _ Hx) in H
        | H : vok _ s _ |- _ => apply (vok_mono _ _ _ Hx) in H
        | H : wval _ s _ |- _ => apply (wval_mono _ _ _ Hx) in H
        | H : env_ok s _ _ |- _ => apply (env_ok_mono _ _ _ Hx) in H
        | H : env_at s _ _ _ |- _ => apply (env_at_mono _ _ _ _ _ _ Hx) in H
        | H : building s _ _ _ |- _ => apply (building_mono _ _ _ _ _ _ Hx) in H
        | H : symbol_str (symbols (st s)) _ = Some _ |- _ => apply (symbol_str_ext _ _ _ _ _ Hx) in H
        | H : ref_ok _ s _ |- _ => apply (ref_ok_mono _ _ _ Hx) in H
        end
  end.

Lemma with_frame sh w : with_ok sh w → ∃ sh', sh = FWith :: sh'.
Proof. destruct w. intros [H _]. destruct sh; [done|]. inv H. eauto. Qed.

(** Exceptions of the language are fine. *)
Ltac sthrow := apply sat_throw; split_and!; discriminate.

(** A step of a computation: the specification, then the rest. *)
Tactic Notation "sstep" uconstr(lem) "as" simple_intropattern(pat) :=
  eapply sat_bind; [eapply lem|]; [..|let s' := fresh "s" in let a := fresh "a" in let Hx := fresh "Hx" in
    intros s' a Hx; cbv beta; intros pat; up Hx; clear Hx].
(** The same for computations that do not change the state. *)
Tactic Notation "spure" uconstr(lem) "as" simple_intropattern(pat) :=
  eapply sat_bind; [eapply lem|]; [..|let s' := fresh "s" in let a := fresh "a" in intros s' a _; cbv beta; intros [-> pat]].

Section ok.
Context (N : Prog).
Abbreviation sat := (sat N []).
Abbreviation wval := (wval N).
Abbreviation ref_ok := (ref_ok N).

Record EvOk (E : Evaluator) : Prop := {
  ok_eval : ∀ s sh e env, env_ok s sh env → bound N sh e → sat (ev_eval E e env) wval s;
  ok_call : ∀ s r args, ref_ok s r → Forall (aok s) args → sat (ev_call E r args) wval s;
  ok_loop : ∀ s fn v args, wval s v → Forall (aok s) args → sat (ev_loop E fn v args) wval s;
  ok_coerce : ∀ s r c b1 b2, ref_ok s r → sat (ev_coerce E r c b1 b2) (λ _ _, True) s;
  ok_eq : ∀ s r1 r2, ref_ok s r1 → ref_ok s r2 → sat (ev_eq E r1 r2) (λ _ _, True) s;
  ok_assertEq : ∀ s r1 r2, ref_ok s r1 → ref_ok s r2 → sat (ev_assertEq E r1 r2) (λ _ _, True) s;
  ok_deep : ∀ s seen r, ref_ok s r → sat (ev_deep E seen r) (λ _ _, True) s;
  ok_prim : ∀ s p args, crash_free p → Forall (aok s) args → length args = arity p → sat (ev_prim E p args) wval s;
  ok_compare : ∀ s a b, aok s a → aok s b → sat (ev_compare E a b) (λ _ _, True) s;
  ok_closure : ∀ s op ws keys res, aok s op → Forall (aok s) ws → Forall (aok s) keys → Forall (aok s) res →
    sat (ev_closure E op ws keys res) (λ s' l, Forall (aok s') l) s;
}.

Section forcing.
Context (E : Evaluator) (HE : EvOk E).

(** * Forcing *)

Lemma sat_forceValue r s : ref_ok s r → sat (forceValue E r) wval s.
Proof.
  destruct r as [v|a]; cbn [EvalOk.ref_ok forceValue]; intros Hr.
  - destruct v; try (by apply sat_ret; split); [destruct Hr as (sh & He & Hb); by eapply ok_eval|sthrow|].
    destruct Hr. apply ok_call; [done|done|]. by constructor.
  - eapply sat_bind; [by apply sat_get_value|]. intros s1 v X1 Hv. up X1.
    destruct v as [n|f|b|x c|acc p| |b|l|env e| |l rr|env x fs body|p|l r];
      try (by apply sat_ret; split); [| sthrow |].
    + sstep sat_set_value as _; [done|]. destruct Hv as (sh & He & Hb).
      eapply sat_bind.
      * apply sat_catch; [by eapply ok_eval|]. intros s3 e' k X3 Hx [= <-]. up X3.
        sstep sat_set_value as _; [by exists sh|]. by apply sat_rethrow.
      * intros s3 v X3 Hv. sstep sat_set_value as _; [apply Hv|]. by apply sat_ret.
    + destruct Hv as [Hl Hrr]. eapply sat_bind; [apply ok_call; [done|done|by constructor]|]. intros s2 v X2 Hv.
      sstep sat_set_value as _; [apply Hv|]. by apply sat_ret.
Qed.

Lemma sat_forceAttrs r s : ref_ok s r → sat (forceAttrs E r) (λ s' b, attrs_ok s' b) s.
Proof. intros Hr. unfold forceAttrs. sstep sat_forceValue as [Hv Hw]; [done|]. destruct a; try sthrow. by apply sat_ret. Qed.
Lemma sat_forceList r s : ref_ok s r → sat (forceList E r) (λ s' l, Forall (aok s') l) s.
Proof. intros Hr. unfold forceList. sstep sat_forceValue as [Hv Hw]; [done|]. destruct a; try sthrow. by apply sat_ret. Qed.
Lemma sat_forceInt r s : ref_ok s r → sat (forceInt E r) (λ _ _, True) s.
Proof. intros Hr. unfold forceInt. sstep sat_forceValue as [Hv Hw]; [done|]. destruct a; try sthrow. by apply sat_ret. Qed.
Lemma sat_forceFloat r s : ref_ok s r → sat (forceFloat E r) (λ _ _, True) s.
Proof. intros Hr. unfold forceFloat. sstep sat_forceValue as [Hv Hw]; [done|]. destruct a; try sthrow; by apply sat_ret. Qed.
Lemma sat_forceBool r s : ref_ok s r → sat (forceBool E r) (λ _ _, True) s.
Proof. intros Hr. unfold forceBool. sstep sat_forceValue as [Hv Hw]; [done|]. destruct a; try sthrow. by apply sat_ret. Qed.
Lemma sat_forceString r s : ref_ok s r → sat (forceString E r) (λ _ x, no_nul x.1 ∧ Forall no_nul x.2) s.
Proof. intros Hr. unfold forceString. sstep sat_forceValue as [Hv Hw]; [done|]. destruct a; try sthrow. by apply sat_ret. Qed.
Lemma sat_forceStringNoCtx r s : ref_ok s r → sat (forceStringNoCtx E r) (λ _ x, no_nul x) s.
Proof.
  intros Hr. unfold forceStringNoCtx. sstep sat_forceString as [Hx _]; [done|]. destruct a as [x [|c l]]; [by apply sat_ret|sthrow].
Qed.
Lemma sat_forceFunction r s : ref_ok s r → sat (forceFunction E r) wval s.
Proof.
  intros Hr. unfold forceFunction. sstep sat_forceValue as Hv; [done|].
  eapply (sat_bind _ _ (λ s' _, wval s' a)).
  - destruct (decide _); [by apply sat_ret|]. destruct a; try (by apply sat_ret). cbn [isFunctor].
    spure sat_attr_get as [-> _]; [by destruct Hv|]. by apply sat_ret.
  - intros s' [] X H; [by apply sat_ret|sthrow].
Qed.

(** * Variables *)

Lemma sat_lookup_with w : ∀ sh env name s, env_ok s sh env → with_ok sh w → sat (lookup_with E env name w) (λ s' a, aok s' a) s.
Proof.
  induction w as [prev parent IH] using With_ind'; intros sh env name s He Hw. cbn [lookup_with]. destruct Hw as [Hh Hp].
  destruct sh as [|f sh]; [done|]. inv Hh.
  spure sat_get_slot as (v & -> & Hv); [done|done|].
  sstep (sat_getO _ (λ s' a, aok s' a)) as Ha; [by eauto|].
  sstep sat_forceAttrs as Hb; [done|].
  spure sat_attr_get as [-> Hj]; [done|]. destruct (attr_find _ name) as [a'|]; [by apply sat_ret; auto|].
  destruct parent as [w'|]; [|sthrow]. destruct (with_frame _ _ Hp) as (g & Hg).
  spure (sat_go_up _ _ _ FWith) as He'; [done|by apply head_drop; rewrite Hg|]. by eapply IH.
Qed.
Lemma sat_lookupVar sh env name w level displ s :
  env_ok s sh env → var_ok sh w level displ → sat (lookupVar E env name w level displ) (λ s' a, aok s' a) s.
Proof.
  intros He Hv. unfold lookupVar. destruct (var_ok_frame _ _ _ _ Hv) as (f & Hf).
  spure sat_go_up as He'; [done|done|]. destruct w as [w|]; [by eapply sat_lookup_with|].
  destruct Hv as (f' & Hf' & Hd). rewrite Hf in Hf'. injection Hf' as <-. rewrite (drop_S _ _ _ Hf) in He'.
  spure sat_get_slot as (v & -> & Hv); [done|done|]. apply sat_getO. eauto.
Qed.
End forcing.

(** * Building environments *)

Section build.
Context (X : list addr).
Abbreviation satX := (EvalInv.sat N X).
Abbreviation Pend := (Pend (N := N)).

Lemma env_pre_incl s Q Q' sh a : Q ⊆ Q' → env_pre s Q sh a → env_pre s Q' sh a.
Proof.
  intros HQ. revert a. induction sh as [|f sh IH]; intros a; [done|]. cbn [env_pre].
  intros [H|(Ha & env & He & Hf & Hu)]; [by left|]. right. split; [auto|]. exists env. split_and!; try done.
  destruct sh; [done|]. destruct Hu as (up & Eu & Hup). eauto.
Qed.
Lemma prog_envs (s s' : World) b m : envs s' = envs s → prog s b m → prog s' b m.
Proof. intros E (env & He & Hp). exists env. by rewrite E. Qed.

(** One slot is filled. *)
Lemma sat_fill {A} Q L a up n k (m : EM addr) (f : addr → EM A) R s :
  a ∈ X → a ∈ Q → Pend s Q L → env_at s a up n → prog s a k → (k < n)%nat → satX m (made (N := N) s Q L) s →
  (∀ s' v L', ext X s s' → L ⊆ L' → Pend s' Q L' → prog s' a (S k) → (∀ b m, b ≠ a → prog s b m → prog s' b m) →
    (aok s' v ∨ v ∈ L') → satX (f v) R s') →
  satX (v ← m; set_slot a k v;; f v) R s.
Proof.
  intros HX HQ HP Hat Hp Hk Hm Hf. eapply sat_bind; [exact Hm|]. intros s1 v X1 (Ee & L' & HL & HP1 & Hv).
  assert (env_at s1 a up n) as Hat1 by by eapply env_at_mono.
  eapply sat_bind; [by eapply sat_pend_set_slot; [..|eapply prog_envs| |]|].
  intros s2 [] X2 (HP2 & Hp2 & Hother & Ev & Ed). apply (Hf s2 v L'); try done; [by etrans| |].
  - intros b m' Hb Hpb. apply Hother; [done|]. by eapply prog_envs.
  - destruct Hv as [Hv|Hv]; [left|by right]. by eapply aok_mono.
Qed.

(** The environments [Q] that are finished. *)
Definition finished (s : World) (b : addr) : Prop := ∃ up n, env_at s b up n ∧ prog s b n.
Lemma finished_complete s b : finished s b → ∃ n, prog s b n ∧ ∀ env, envs s !! b = Some env → (length (env_values env) ≤ n)%nat.
Proof.
  intros (up & n & (env & He & _ & Hn) & Hp). exists n. split; [done|]. intros env' He'. rewrite He in He'. injection He' as <-. lia.
Qed.

(** The values in [L] become live with the environments they wait for. *)
Lemma sat_finish_envs {A} Q L (m : EM A) R s :
  Pend s Q L → (∀ b, b ∈ Q → finished s b) →
  (∀ s', ext X s s' → (∀ sh a, env_pre s Q sh a → env_ok s' sh a) → (∀ v, aok s v ∨ v ∈ L → aok s' v) → satX m R s') → satX m R s.
Proof.
  intros HP Hc Hm. eapply sat_complete; [exact HP|intros b Hb; by apply finished_complete, Hc|]. intros _. apply Hm.
  - apply ext_revived.
  - intros sh a. eapply env_pre_revived; [done|]. intros b Hb. by apply finished_complete, Hc.
  - intros v [Hv|Hv]; [by apply aok_revived|by eapply pend_aok].
Qed.
End build.

Lemma allP_Forall {A} (P : A → Prop) l : allP P l ↔ Forall P l.
Proof. induction l as [|x l IH]; cbn; [done|]. by rewrite IH, Forall_cons. Qed.
Lemma allDefs_lookup {A} (P Q R : A → Prop) l x d : allDefs P Q R l → (x, d) ∈ l →
  match ad_kind d with Plain => P (ad_e d) | Inherited => Q (ad_e d) | InheritedFrom => R (ad_e d) end.
Proof.
  induction l as [|[y e] l IH]; cbn; [by intros _ ?%elem_of_nil|]. intros [H1 H2] Hx. apply elem_of_cons in Hx as [[= -> ->]|Hx]; [exact H1|exact (IH H2 Hx)].
Qed.
Lemma rec_vars_slots {E} (l : list (Symbol * AttrDef E)) d : d ∈ (rec_vars l).*2 → (d < length l)%nat.
Proof.
  unfold rec_vars. intros H. apply list_elem_of_fmap in H as ((x & i) & -> & H). apply elem_of_zip_r in H. apply elem_of_seq in H. cbn. lia.
Qed.

Lemma rec_vars_slot {E} (l : list (Symbol * AttrDef E)) d : (d < length l)%nat → d ∈ (rec_vars l).*2.
Proof.
  intros H. unfold rec_vars. rewrite snd_zip by (by rewrite length_fmap, length_seq). apply elem_of_seq. lia.
Qed.

(** The sources of [inherit (e)]. *)
Definition inherit_ok (s : World) (Q : list addr) (froms : option (list Expr)) (inner : list Frame) (inh : option addr) : Prop :=
  match froms, inh with
  | Some l, Some a => env_pre s Q (FInherit (length l) :: inner) a
  | None, None => True
  | _, _ => False
  end.

Lemma sat_inheritEnvOf X Q L froms up inner s :
  Pend (N := N) s Q L → Forall (λ b, is_Some (envs s !! b)) Q → env_pre s Q inner up → allO (allP (bound N inner)) froms →
  EvalInv.sat N X (inheritEnvOf froms up) (λ s' inh, ∃ Q' L', Q ⊆ Q' ∧ L ⊆ L' ∧ Pend (N := N) s' Q' L' ∧
    (∀ b, b ∈ Q' → b ∈ Q ∨ finished s' b) ∧ (∀ b m, b ∈ Q → prog s b m → prog s' b m) ∧ inherit_ok s' Q' froms inner inh) s.
Proof.
  intros HP HQ Hup Hb. destruct froms as [l|]; cbn [inheritEnvOf]; [|apply sat_ret; exists Q, L; split_and!; auto].
  eapply sat_fmap with (Q := λ s' a, ∃ L', L ⊆ L' ∧ Pend (N := N) s' (a :: Q) L' ∧ finished s' a ∧
    (∀ b m, b ∈ Q → prog s b m → prog s' b m) ∧ env_pre s' (a :: Q) (FInherit (length l) :: inner) a).
  2:{ intros s' a _ (L' & HL & HP' & Hf & Hk & Hpre). exists (a :: Q), L'. split_and!; [set_solver|done|done| |done|done].
      intros b Hbq. apply elem_of_cons in Hbq as [->|Hbq]; auto. }
  unfold buildInheritFromEnv. apply sat_bind_allocEnv. intros s1 a X1 Hat Hnone HF. apply allP_Forall in Hb. rewrite Forall_forall in Hb.
  assert (Pend (N := N) s1 (a :: Q) L) as HP1.
  { apply Pend_start; [by eapply Pend_alloc_env|]. intros env i v He Hi. specialize (Hnone i (Some v)). rewrite He in Hnone. by specialize (Hnone Hi). }
  assert (a ∉ Q) as HaQ. { intros Ha. rewrite Forall_forall in HQ. destruct (HQ a Ha) as [? E]. rewrite (af_fresh _ _ _ HF) in E. done. }
  eapply sat_bind.
  - eapply (sat_foldS _ (λ s' displ rest, ∃ L', L ⊆ L' ∧ Pend (N := N) s' (a :: Q) L' ∧ prog s' a displ ∧ (displ + length rest = length l)%nat ∧
      env_at s' a up (length l) ∧ env_pre s' (a :: Q) inner up ∧ (∀ b m, b ∈ Q → prog s b m → prog s' b m))).
    + exists L. split_and!; [done|done|by eapply prog_0|done|done| |].
      * eapply env_pre_mono; [exact X1|]. eapply env_pre_incl; [|done]. set_solver.
      * intros b m Hbq. by eapply prog_alloc_env.
    + intros s2 x k displ X2 (l1 & El) (L' & HL & HP2 & Hp & Hd & Hat2 & Hup2 & Hk).
      eapply sat_fill; [left|left|exact HP2|exact Hat2|exact Hp|cbn in Hd; lia| |].
      * eapply sat_pend_maybeThunk; [exact Hup2| |done]. apply Hb. rewrite El. set_solver.
      * intros s3 v L2 X3 HL2 HP3 Hp3 Hother Hv. apply sat_ret. exists L2. split_and!; [set_solver|done|done|cbn in Hd; lia| | |].
        -- by eapply env_at_mono.
        -- by eapply env_pre_mono.
        -- intros b m Hbq Hpb. apply Hother; [congruence|auto].
  - intros s2 displ X2 (L' & HL & HP2 & Hp & Hd & Hat2 & Hup2 & Hk). cbn in Hd. rewrite Nat.add_0_r in Hd. subst displ. apply sat_ret.
    exists L'. split_and!; [done|done|by exists up, (length l)|done|].
    eapply env_pre_cons; [left|exact Hat2|done|exact Hup2].
Qed.

(** The definition of an attribute and its environment. *)
Lemma def_env s Q sh env inner env2 froms inh (l : list (Symbol * AttrDef Expr)) x d :
  allDefs (bound N inner) (bound N sh) (λ e, has_froms froms ∧ bound N (inherit_frames froms inner) e) l → (x, d) ∈ l →
  env_pre s Q inner env2 → env_pre s Q sh env → inherit_ok s Q froms inner inh →
  ∃ env' sh', chooseByKind d (Some env2) (Some env) inh = Some env' ∧ env_pre s Q sh' env' ∧ bound N sh' (ad_e d).
Proof.
  intros Hl Hx H2 H1 Hi. pose proof (allDefs_lookup _ _ _ _ _ _ Hl Hx) as Hd. unfold chooseByKind. destruct (ad_kind d); [by eauto|by eauto|].
  destruct Hd as [Hf Hb]. unfold has_froms in Hf. destruct froms as [fl|]; [|by destruct Hf]. destruct inh as [a|]; [|done]. eauto 10.
Qed.

(** A new environment for a recursive set or a [let]: what holds before its
    definitions are evaluated. *)
Record Building (s : World) (env2 env : addr) (sh : list Frame) (a : AttrsOf Expr) (inh : option addr) (k : nat) (Q L : list addr) : Prop := {
  bl_in : env2 ∈ Q;
  bl_pend : Pend (N := N) s Q L;
  bl_prog : prog s env2 k;
  bl_at : env_at s env2 env (length (attrs a));
  bl_done : ∀ b, b ∈ Q → b = env2 ∨ finished s b;
  bl_env2 : env_pre s Q (rec_frame (attrs a) :: sh) env2;
  bl_env : env_ok s sh env;
  bl_inh : inherit_ok s Q (inheritFromExprs a) (rec_frame (attrs a) :: sh) inh;
}.

Lemma sat_start_building {A} X (a : AttrsOf Expr) env sh (f : addr → option addr → EM A) R s :
  env_ok s sh env → allO (allP (bound N (rec_frame (attrs a) :: sh))) (inheritFromExprs a) →
  (∀ s' env2 inh Q L, ext X s s' → Building s' env2 env sh a inh 0 Q L → EvalInv.sat N (env2 :: X) (f env2 inh) R s') →
  EvalInv.sat N X (env2 ← allocEnv (length (attrs a)) env; inh ← inheritEnvOf (inheritFromExprs a) env2; f env2 inh) R s.
Proof.
  intros He Hb Hf. apply sat_bind_allocEnv. intros s1 env2 X1 Hat Hnone HF.
  assert (env_ok s1 sh env) as He1 by by eapply env_ok_mono.
  assert (Pend (N := N) s1 [env2] []) as HP1.
  { apply Pend_start; [apply Pend_nil|]. intros envr i v E Hi. specialize (Hnone i (Some v)). rewrite E in Hnone. by specialize (Hnone Hi). }
  assert (env_pre s1 [env2] (rec_frame (attrs a) :: sh) env2) as Hpre.
  { eapply env_pre_cons; [left|exact Hat|intros d; apply rec_vars_slots|by apply env_pre_ok]. }
  eapply sat_bind; [eapply (sat_inheritEnvOf _ [env2] []); [done| |done|done]|].
  { constructor; [|constructor]. destruct Hat as (e & E & _). by eexists. }
  intros s2 inh X2 (Q' & L' & HQ & HL & HP2 & Hfin & Hk & Hinh).
  apply (Hf s2 env2 inh Q' L'); [eapply ext_fresh; [apply HF|by apply ext_weaken|done]|].
  constructor; [set_solver|done| | | | |by eapply env_ok_mono|done].
  - apply Hk; [left|by eapply prog_0].
  - by eapply env_at_mono.
  - intros b Hbq. destruct (Hfin b Hbq) as [->%list_elem_of_singleton|H]; auto.
  - eapply env_pre_mono; [exact X2|]. by eapply env_pre_incl.
Qed.

Lemma sat_build_def {A} X a env env2 sh inh k Q L x d (m : addr → EM addr) (f : addr → EM A) R s :
  env2 ∈ X → Building s env2 env sh a inh k Q L → attrs a !! k = Some (x, d) →
  allDefs (bound N (rec_frame (attrs a) :: sh)) (bound N sh)
    (λ e, has_froms (inheritFromExprs a) ∧ bound N (inherit_frames (inheritFromExprs a) (rec_frame (attrs a) :: sh)) e) (attrs a) →
  (∀ env', m env' = mkThunk (ad_e d) env' ∨ m env' = maybeThunk (ad_e d) env') →
  (∀ s' v L', ext X s s' → L ⊆ L' → Building s' env2 env sh a inh (S k) Q L' → (aok s' v ∨ v ∈ L') → EvalInv.sat N X (f v) R s') →
  EvalInv.sat N X (env' ← attr_env d env2 env inh; v ← m env'; set_slot env2 k v;; f v) R s.
Proof.
  intros HX [B1 B2 B3 B4 B5 B6 B7 B8] Hx Hdefs Hm Hf.
  destruct (def_env s Q sh env _ env2 _ inh _ x d Hdefs) as (env' & sh' & Ec & Hpre & Hb);
    [by eapply list_elem_of_lookup_2|done|by apply env_pre_ok|done|].
  eapply sat_bind; [apply (sat_getO _ (λ s' e, s' = s ∧ e = env')); eauto|]. intros s1 e' _ [-> ->].
  eapply sat_fill; [done|exact B1|exact B2|exact B4|exact B3|by eapply lookup_lt_Some| |].
  - destruct (Hm env') as [-> | ->]; [by eapply sat_pend_thunk|by eapply sat_pend_maybeThunk].
  - intros s2 v L' X2 HL HP2 Hp2 Hother Hv. apply (Hf s2 v L'); [done|done| |done].
    constructor; [done|done|done|by eapply env_at_mono| |by eapply env_pre_mono|by eapply env_ok_mono|].
    + intros b Hbq. destruct (decide (b = env2)) as [->|Hne]; [by left|]. destruct (B5 b Hbq) as [?|(up & n & Hat & Hp)]; [done|].
      right. exists up, n. split; [by eapply env_at_mono|by apply Hother].
    + unfold inherit_ok in *. destruct (inheritFromExprs a), inh; try done. by eapply env_pre_mono.
Qed.

(** The environment is complete. *)
Lemma sat_end_building {A} X a env env2 sh inh Q L (m : EM A) R s :
  Building s env2 env sh a inh (length (attrs a)) Q L →
  (∀ s', ext X s s' → env_ok s' (rec_frame (attrs a) :: sh) env2 → env_at s' env2 env (length (attrs a)) →
    (∀ v, aok s v ∨ v ∈ L → aok s' v) → EvalInv.sat N X m R s') → EvalInv.sat N X m R s.
Proof.
  intros [B1 B2 B3 B4 B5 B6 B7 B8] Hm. eapply sat_finish_envs; [exact B2| |].
  - intros b Hbq. destruct (B5 b Hbq) as [->|H]; [|done]. by exists env, (length (attrs a)).
  - intros s' X' Henv Hlive. apply Hm; [done|by apply Henv|by eapply env_at_mono|done].
Qed.

Section evaluation.
Context (E : Evaluator) (HE : EvOk E).

Lemma drop_lookup_app {A} (l l1 : list A) x k : l = l1 ++ x :: k → l !! length l1 = Some x.
Proof. intros ->. by rewrite lookup_app_r, Nat.sub_diag. Qed.

Lemma sat_eval_Let a body sh env s : env_ok s sh env → bound N sh (ExprLet a body) → sat (eval_Let E a body env) wval s.
Proof.
  intros He (Hfr & Hdefs & Hbody). unfold eval_Let. eapply sat_start_building; [done|done|].
  intros s1 env2 inh Q L X1 HB. eapply sat_bind.
  - eapply (sat_foldS _ (λ s' displ rest, ∃ L', Building s' env2 env sh a inh displ Q L' ∧ (displ + length rest = length (attrs a))%nat)).
    + exists L. by split.
    + intros s2 [x d] k displ X2 (l1 & El) (L' & HB2 & Hd). assert (displ = length l1) as ->.
      { rewrite El, length_app in Hd. cbn in Hd. lia. }
      eapply sat_build_def; [left|exact HB2|by eapply drop_lookup_app|done|by right|].
      intros s3 v L2 X3 HL HB3 _. apply sat_ret. exists L2. split; [done|]. cbn in Hd. lia.
  - intros s2 displ X2 (L' & HB2 & Hd). cbn in Hd. rewrite Nat.add_0_r in Hd. subst displ.
    eapply sat_end_building; [exact HB2|]. intros s3 X3 Henv _ _. apply sat_weaken. by eapply ok_eval.
Qed.

(** * Attribute sets *)

Lemma sat_rec_attrs X a env env2 sh inh Q L c b s :
  env2 ∈ X → Building s env2 env sh a inh 0 Q L → bindings b = [] → (length (attrs a) ≤ capacity b)%nat →
  allDefs (bound N (rec_frame (attrs a) :: sh)) (bound N sh)
    (λ e, has_froms (inheritFromExprs a) ∧ bound N (inherit_frames (inheritFromExprs a) (rec_frame (attrs a) :: sh)) e) (attrs a) →
  EvalInv.sat N X (rec_attrs a env env2 inh c b) (λ s' b', ∃ L', Building s' env2 env sh a inh (length (attrs a)) Q L' ∧
    capacity b' = capacity b ∧ (bindings b').*1 = (attrs a).*1 ∧ Forall (λ x : Attr, aok s' x.2 ∨ x.2 ∈ L') (bindings b')) s.
Proof.
  intros HX HB Hb Hcap Hdefs. unfold rec_attrs. eapply sat_bind.
  - eapply (sat_foldS _ (λ s' (st : nat * Builder) rest, ∃ L', Building s' env2 env sh a inh st.1 Q L' ∧
      (attrs a).*1 = (bindings st.2).*1 ++ rest.*1 ∧ length (bindings st.2) = st.1 ∧ capacity st.2 = capacity b ∧
      Forall (λ x : Attr, aok s' x.2 ∨ x.2 ∈ L') (bindings st.2))).
    + exists L. cbn. rewrite Hb. by split_and!.
    + intros s2 [x d] k [displ b2] X2 (l1 & El) (L' & HB2 & Hn & Hlen & Hc & Hv). cbn [fst snd] in *.
      assert (displ = length l1) as ->.
      { rewrite <- Hlen, <- (length_fmap fst (bindings b2)). apply (f_equal length) in Hn.
        rewrite El, !length_app, !length_fmap, !length_app in Hn. cbn in Hn. rewrite length_fmap. lia. }
      eapply sat_build_def; [done|exact HB2|by eapply drop_lookup_app|done| |].
      { intros env'. destruct (c && _); auto. }
      intros s3 v L2 X3 HL HB3 Hv3. spure sat_push_back as ->.
      { rewrite Hc. rewrite Hlen. rewrite El, length_app in Hcap. cbn in Hcap. lia. }
      apply sat_ret. exists L2. cbn [fst snd bindings capacity]. split_and!; [done| |by rewrite length_app, Hlen; cbn; lia|done|].
      * rewrite fmap_app. cbn. by rewrite <- app_assoc.
      * apply Forall_app. split; [|by constructor]. eapply Forall_impl; [exact Hv|]. intros y [Hy|Hy]; [left; by eapply aok_mono|right; set_solver].
  - intros s2 [displ b2] X2 (L' & HB2 & Hn & Hlen & Hc & Hv). apply sat_ret. cbn [fst snd] in *. rewrite app_nil_r in Hn.
    exists L'. split_and!; [|done|done|done]. rewrite <- (length_fmap fst (attrs a)), Hn, length_fmap, Hlen. done.
Qed.

Definition built (s : World) (b : Builder) : Prop :=
  NoDup (bindings b).*1 ∧ Forall (λ x : Attr, sym_ok s x.1 ∧ aok s x.2) (bindings b).
Lemma built_mono X s s' b : ext X s s' → built s b → built s' b.
Proof.
  intros Hx [H1 H2]. split; [done|]. eapply Forall_impl; [exact H2|]. intros y [Hs Ha]. split; [by eapply sym_ok_mono|by eapply aok_mono].
Qed.
Lemma attrs_ok_built s b : attrs_ok s (bindings b) → built s b.
Proof. intros [H1 H2]. split; [by apply sorted_syms_NoDup|done]. Qed.

Lemma find_attr_Some x l d : find_attr x l = Some d → ∃ i, l !! i = Some (x, d).
Proof.
  unfold find_attr. destruct (list_find _ l) as [[i [y d']]|] eqn:E1; [|done]. cbn. intros [= ->].
  apply list_find_Some in E1 as (Hi & <- & _). eauto.
Qed.
Lemma find_attr_None x l : find_attr x l = None → x ∉ l.*1.
Proof.
  unfold find_attr. destruct (list_find _ l) as [[i [y d']]|] eqn:E1; [done|]. intros _ Hx. apply list_elem_of_fmap in Hx as ((y & d) & -> & Hy).
  apply list_find_None in E1. rewrite Forall_forall in E1. by apply (E1 _ Hy).
Qed.

Lemma sat_grow b n s :
  (length (bindings b) ≤ n)%nat → sat (grow b n) (λ s' b', s' = s ∧ b' = MkBuilder n (bindings b)) s.
Proof.
  intros Hn. unfold grow. spure sat_buildBindings as ->. eapply sat_mono; [by apply sat_push_all|]. done.
Qed.

(** The invariant of the loop over the overrides [o]: the slots of the static
    attributes keep their names and all others come from the overrides done. *)
Definition overriding (a : AttrsOf Expr) (env env2 : addr) sh (b : Builder) (o : list Attr) (s' : World) (b' : Builder) (rest : list Attr) : Prop :=
  ∃ dn, o = dn ++ rest ∧ (env_at s' env2 env (length (attrs a)) ∧ env_ok s' (rec_frame (attrs a) :: sh) env2) ∧ built s' b' ∧
    Forall (λ x : Attr, sym_ok s' x.1 ∧ aok s' x.2) rest ∧ capacity b' = (capacity b + length o)%nat ∧
    (length (bindings b') ≤ length (bindings b) + length dn)%nat ∧
    ∃ l0 k0, bindings b' = l0 ++ k0 ∧ l0.*1 = (attrs a).*1 ∧ (∀ x, x ∈ k0.*1 → x ∈ dn.*1).

(** An override of a static attribute. *)
Lemma sat_override_static a env env2 sh b o s z rest b' j :
  displs_ok (attrs a) → find_attr z.1 (attrs a) = Some j → overriding a env env2 sh b o s b' (z :: rest) →
  sat (b ← set_attr b' (ad_displ j) z; set_slot env2 (ad_displ j) z.2;; mret b) (λ s' b', overriding a env env2 sh b o s' b' rest) s.
Proof.
  intros Hdis Ej (dn & -> & [Hat3 Henv3] & [Hb1 Hb2] & Hrest & Hc & Hl & l0 & k0 & Eb & El0 & Hk0). apply Forall_cons in Hrest as [Hz Hrest].
  destruct (find_attr_Some _ _ _ Ej) as (ij & Hij). rewrite (Hdis _ _ _ Hij).
  assert (length l0 = length (attrs a)) as Hl0 by (by rewrite <- (length_fmap fst), El0, length_fmap).
  assert (ij < length l0)%nat as Hlt0 by (rewrite Hl0; by eapply lookup_lt_Some).
  eapply sat_bind.
  { unfold set_attr. rewrite (proj2 (Nat.ltb_lt _ _)) by (rewrite Eb, length_app; lia).
    apply (sat_ret _ (λ s' x, s' = s ∧ x = MkBuilder (capacity b') (<[ij:=z]> (bindings b')))). done. }
  intros s4 b4 _ [-> ->]. assert ((<[ij:=z]> l0).*1 = l0.*1) as Ezl.
  { rewrite list_fmap_insert. apply list_insert_id. rewrite El0, list_lookup_fmap, Hij. done. }
  eapply sat_bind; [eapply (sat_set_slot []); [exact Hat3|by rewrite <- Hl0|apply Hz|right; eapply env_ok_slot; [done|done|by apply rec_vars_slot; rewrite <- Hl0]]|]. intros s5 [] X5 _. apply sat_ret.
  exists (dn ++ [z]). cbn [capacity bindings]. split_and!.
  - by rewrite <- app_assoc.
  - by eapply env_at_mono.
  - by eapply env_ok_mono.
  - apply (built_mono _ _ _ _ X5). split; cbn [bindings].
    + rewrite Eb, insert_app_l, fmap_app, Ezl, <- fmap_app, <- Eb by lia. done.
    + rewrite Eb in Hb2 |- *. apply Forall_app in Hb2 as [Hb2 Hb3]. rewrite insert_app_l by lia. apply Forall_app. split; [|done].
      apply Forall_insert; done.
  - eapply Forall_impl; [exact Hrest|]. intros y' [? ?]. split; [by eapply sym_ok_mono|by eapply aok_mono].
  - done.
  - rewrite length_insert, length_app. cbn. lia.
  - exists (<[ij:=z]> l0), k0. rewrite Eb, insert_app_l, Ezl by lia. split_and!; [done|done|].
    intros x Hx. rewrite fmap_app. apply elem_of_app. left. auto.
Qed.
(** A new attribute. *)
Lemma sat_override_new a env env2 sh b o s z rest b' :
  sorted_syms o.*1 → (length (bindings b) ≤ capacity b)%nat → find_attr z.1 (attrs a) = None →
  overriding a env env2 sh b o s b' (z :: rest) →
  sat (push_back b' z) (λ s' b', overriding a env env2 sh b o s' b' rest) s.
Proof.
  intros Ho Hcap Ej (dn & -> & [Hat3 Henv3] & [Hb1 Hb2] & Hrest & Hc & Hl & l0 & k0 & Eb & El0 & Hk0). apply Forall_cons in Hrest as [Hz Hrest].
  rewrite fmap_app in Ho. pose proof (sorted_syms_app _ _ Ho) as (_ & _ & Hlt).
  assert (z.1 ∉ dn.*1) as Hzd. { intros Hz'. specialize (Hlt z.1 z.1 Hz'). cbn in Hlt. specialize (Hlt ltac:(left)). lia. }
  apply find_attr_None in Ej. eapply sat_mono; [apply sat_push_back|].
  { rewrite Hc. rewrite length_app. cbn. lia. }
  intros s5 b5 _ [-> ->]. exists (dn ++ [z]). cbn [capacity bindings]. split_and!; [by rewrite <- app_assoc|done|done| |done|done|rewrite !length_app; cbn; lia|].
  - split; cbn [bindings]; [|apply Forall_app; split; [done|by constructor]]. rewrite fmap_app. apply NoDup_app. split_and!; [done| |apply NoDup_singleton].
    intros x Hx ->%list_elem_of_singleton. rewrite Eb, fmap_app, El0 in Hx. apply elem_of_app in Hx as [Hx|Hx]; [done|]. auto.
  - exists l0, (k0 ++ [z]). rewrite Eb, app_assoc. split_and!; [done|done|]. intros x. rewrite !fmap_app, !elem_of_app. intros [Hx|Hx]; auto.
Qed.

Lemma sat_apply_overrides a env env2 sh d b s :
  names_ok N (attrs a).*1 → displs_ok (attrs a) → find_attr sOverrides (attrs a) = Some d → env_at s env2 env (length (attrs a)) →
  env_ok s (rec_frame (attrs a) :: sh) env2 →
  (bindings b).*1 = (attrs a).*1 → built s b → (length (bindings b) ≤ capacity b)%nat →
  sat (apply_overrides E a env2 d b) (λ s' b', built s' b' ∧ (capacity b - length (bindings b) ≤ capacity b' - length (bindings b'))%nat ∧
    (length (bindings b') ≤ capacity b')%nat) s.
Proof.
  intros [Hs HN] Hdis Hd Hat Henv Hn Hb Hcap. unfold apply_overrides. destruct (find_attr_Some _ _ _ Hd) as (i & Hi).
  assert (length (bindings b) = length (attrs a)) as Hlen by (by rewrite <- (length_fmap fst), Hn, length_fmap).
  rewrite (Hdis _ _ _ Hi). destruct (lookup_lt_is_Some_2 (bindings b) i) as [y Hy]; [rewrite Hlen; by eapply lookup_lt_Some|].
  eapply sat_bind; [apply (sat_getO _ (λ s' x, s' = s ∧ x = y)); eauto|]. intros s1 x _ [-> ->].
  destruct Hb as [Hb1 Hb2]. pose proof (Forall_lookup_1 _ _ _ _ Hb2 Hy) as [_ Hya].
  assert (built s b) as Hb by by split. clear Hb1 Hb2.
  eapply sat_bind; [by apply sat_forceAttrs|]. intros s2 o X2 [Ho1 Ho2]. up X2. apply (built_mono _ _ _ _ X2) in Hb. clear X2.
  spure sat_grow as ->; [lia|].
  eapply sat_mono; [eapply (sat_foldS _ (overriding a env env2 sh b o))|].
  - exists []. split_and!; [done|done|done|done|done|done|cbn; lia|]. exists (bindings b), []. cbn. rewrite app_nil_r. split_and!; [done|done|by intros x ?%elem_of_nil].
  - intros s3 z k b' X3 _ Hinv. destruct (find_attr z.1 (attrs a)) as [j|] eqn:Ej; [by eapply sat_override_static|by eapply sat_override_new].
  - intros s3 b' X3 (dn & Eo & _ & Hb3 & _ & Hc & Hl & _). rewrite app_nil_r in Eo. subst dn. split; [done|]. split; lia.
Qed.

(** * Thunks in complete environments *)

Lemma sat_mkThunk X sh e env s : env_ok s sh env → bound N sh e → EvalInv.sat N X (mkThunk e env) (λ s' a, aok s' a) s.
Proof. intros He Hb. apply sat_allocValue. by exists sh. Qed.
Lemma sat_thunkVar X sh e env w level displ s :
  env_ok s sh env → bound N sh e → var_ok sh w level displ → EvalInv.sat N X (thunkVar e env w level displ) (λ s' a, aok s' a) s.
Proof.
  intros He Hb Hv. unfold thunkVar. destruct (var_ok_frame _ _ _ _ Hv) as (f & Hf).
  spure sat_go_up as He'; [done|done|]. destruct w as [w|]; [by eapply sat_mkThunk|].
  destruct Hv as (f' & Hf' & Hd). rewrite Hf in Hf'. injection Hf' as <-. rewrite (drop_S _ _ _ Hf) in He'.
  spure sat_get_slot as (v & -> & Hv); [done|done|]. by apply sat_ret.
Qed.
Lemma sat_maybeThunk X sh e env s : env_ok s sh env → bound N sh e → EvalInv.sat N X (maybeThunk e env) (λ s' a, aok s' a) s.
Proof.
  intros He Hb.
  destruct e as [| | | |name w level displ|displ| | | |[|x l]| | | | | | | | |]; cbn [maybeThunk];
    try (by eapply sat_mkThunk); try (by apply sat_allocValue; cbn [vok]; first [done | split; [apply c_str_no_nul|constructor] | constructor]);
    by eapply sat_thunkVar.
Qed.

(** * Dynamic attributes *)

Lemma built_snoc s b x : built s b → x.1 ∉ (bindings b).*1 → sym_ok s x.1 → aok s x.2 → built s (MkBuilder (capacity b) (bindings b ++ [x])).
Proof.
  intros [H1 H2] Hn Hs Ha. split; cbn [bindings].
  - rewrite fmap_app. apply NoDup_app. split_and!; [done| |apply NoDup_singleton]. by intros y Hy ->%list_elem_of_singleton.
  - apply Forall_app. split; [done|]. by constructor.
Qed.

Definition dyn_ok (s : World) (st : Builder * bool) (rest : nat) : Prop :=
  built s st.1 ∧ (st.2 = false → sorted_syms (bindings st.1).*1) ∧ (length (bindings st.1) + rest ≤ capacity st.1)%nat.

Lemma sat_dynamic_attr env sh st x k s :
  env_ok s sh env → bound N sh x.1 → bound N sh x.2 → dyn_ok s st (S k) → sat (dynamic_attr E env st x) (λ s' st', dyn_ok s' st' k) s.
Proof.
  intros He Hb1 Hb2. destruct st as [b sort]. intros (Hb & Hs & Hc). cbn [fst snd] in *. unfold dynamic_attr.
  eapply sat_bind; [by eapply ok_eval|]. intros s1 v X1 [Hv Hw]. up X1. apply (built_mono _ _ _ _ X1) in Hb. clear X1.
  eapply sat_bind; [by apply sat_forceValue|]. intros s2 v2 X2 [Hv2 Hw2]. up X2. apply (built_mono _ _ _ _ X2) in Hb. clear X2.
  assert (sat (s ← forceStringNoCtx E (RVal v2); nameSym ← createSymbol s;
      l ← (if sort : bool then attr_sort (bindings b) else mret (bindings b)); j ← attr_get l nameSym;
      match j with
      | Some _ => throw (EvalError "dynamic attribute already defined")
      | None => v ← maybeThunk x.2 env; b ← push_back (MkBuilder (capacity b) l) (nameSym, v); mret (b, true)
      end) (λ s' st', dyn_ok s' st' k) s2) as Hrest.
  { eapply sat_bind; [by apply sat_forceStringNoCtx|]. intros s3 n X3 Hn. up X3. apply (built_mono _ _ _ _ X3) in Hb. clear X3.
    eapply sat_bind; [by apply sat_createSymbol|]. intros s4 y X4 [Hy _]. up X4. apply (built_mono _ _ _ _ X4) in Hb. clear X4.
    eapply (sat_bind _ _ (λ s' l, s' = s4 ∧ sorted_syms l.*1 ∧ l ≡ₚ bindings b)).
    { destruct sort; [apply sat_attr_sort, Hb|]. apply sat_ret. by split_and!; [|apply Hs|]. }
    intros s5 l _ (-> & Hl & Hp). destruct Hb as [Hbn Hbf].
    assert (Forall (λ x : Attr, sym_ok s4 x.1 ∧ aok s4 x.2) l) as Hlf by by rewrite Hp.
    spure sat_attr_get as [-> _]; [by split|]. destruct (attr_find l y) as [?|] eqn:Ey; [sthrow|]. apply attr_find_None in Ey.
    assert (built s4 (MkBuilder (capacity b) l)) as Hbl by (split; [by apply sorted_syms_NoDup|done]).
    eapply sat_bind; [by eapply sat_maybeThunk|]. intros s6 a X6 Ha. up X6. apply (built_mono _ _ _ _ X6) in Hbl. clear X6.
    assert (length l = length (bindings b)) as El by by apply Permutation_length.
    spure sat_push_back as ->; [cbn; lia|]. apply sat_ret. cbn [capacity bindings]. split_and!; cbn [fst snd].
    - by apply (built_snoc s6 (MkBuilder (capacity b) l)).
    - done.
    - cbn. rewrite length_app. cbn. lia. }
  destruct v2; try exact Hrest. apply sat_ret. split_and!; cbn [fst snd]; [done|done|lia].
Qed.

Lemma allPairs_Forall {A} (P : A → Prop) l : allPairs P l → Forall (λ x, P x.1 ∧ P x.2) l.
Proof. induction l as [|[x y] l IH]; cbn; [done|]. intros (H1 & H2 & H3). constructor; auto. Qed.
Lemma sat_dynamic_attrs env sh st l s :
  env_ok s sh env → allPairs (bound N sh) l → dyn_ok s st (length l) → sat (foldS (dynamic_attr E env) st l) (λ s' st', dyn_ok s' st' 0) s.
Proof.
  intros He Hl Hst. apply allPairs_Forall in Hl. rewrite Forall_forall in Hl.
  eapply sat_mono; [eapply (sat_foldS _ (λ s' st rest, dyn_ok s' st (length rest) ∧ env_ok s' sh env))|].
  - done.
  - intros s1 x k st1 X1 (l1 & El) [Hst1 He1]. destruct (Hl x) as [Hx1 Hx2]; [rewrite El; set_solver|].
    eapply sat_mono; [by eapply sat_dynamic_attr|]. intros s2 st2 X2 H2. split; [done|]. by eapply env_ok_mono.
  - intros s1 st1 X1 [H _]. done.
Qed.
Lemma sat_end_attrs st s : dyn_ok s st 0 → sat (let '(b, sort) := st in if sort then finish b else alreadySorted b) wval s.
Proof.
  destruct st as [b []]; intros ((H1 & H2) & Hs & _); cbn [fst snd] in *; [by apply sat_finish|]. apply sat_alreadySorted. split; [by apply Hs|done].
Qed.

Lemma names_sym_ok s l : Inv N s → names_ok N l → Forall (sym_ok s) l.
Proof. intros HI [_ H]. eapply Forall_impl; [exact H|]. intros x Hx. pose proof (inv_parsed _ _ HI). unfold sym_ok. cbn in Hx. lia. Qed.

Lemma sat_static_attrs a env sh inh b s :
  env_ok s sh env → inherit_ok s [] (inheritFromExprs a) sh inh →
  allDefs (bound N sh) (bound N sh) (λ e, has_froms (inheritFromExprs a) ∧ bound N (inherit_frames (inheritFromExprs a) sh) e) (attrs a) →
  bindings b = [] → (length (attrs a) ≤ capacity b)%nat →
  sat (foldS (λ b (x : Symbol * AttrDef Expr), env' ← attr_env x.2 env env inh; v ← maybeThunk (ad_e x.2) env'; push_back b (x.1, v)) b (attrs a))
    (λ s' b', capacity b' = capacity b ∧ (bindings b').*1 = (attrs a).*1 ∧ Forall (λ x : Attr, aok s' x.2) (bindings b')) s.
Proof.
  intros He Hinh Hdefs Hb Hcap.
  eapply sat_mono; [eapply (sat_foldS _ (λ s' b' rest, (attrs a).*1 = (bindings b').*1 ++ rest.*1 ∧ capacity b' = capacity b ∧
      Forall (λ x : Attr, aok s' x.2) (bindings b')))|].
  - by rewrite Hb.
  - intros s1 [x d] k b1 X1 (l1 & El) (Hn & Hc & Hv). cbn [fst snd].
    assert (env_pre s1 [] sh env) as Hpre by (apply env_pre_ok; by eapply env_ok_mono).
    destruct (def_env s1 [] sh env sh env (inheritFromExprs a) inh (attrs a) x d) as (env' & sh' & Ec & Hpre' & Hbd); [done|rewrite El; set_solver|done|done| |].
    { unfold inherit_ok in *. destruct (inheritFromExprs a), inh; try done. by eapply env_pre_mono. }
    eapply sat_bind; [apply (sat_getO _ (λ s' e, s' = s1 ∧ e = env')); eauto|]. intros s2 e' _ [-> ->].
    assert (env_ok s1 sh' env') as He'.
    { clear -Hpre'. revert env' Hpre'. induction sh' as [|f sh' IH]; intros env'; [done|]. by intros [H|([]%elem_of_nil & _)]. }
    eapply sat_bind; [by eapply sat_maybeThunk|]. intros s3 v X3 Hv3.
    eapply sat_mono; [apply sat_push_back|].
    { rewrite Hc. apply (f_equal length) in Hn. rewrite length_app, !length_fmap in Hn. cbn in Hn. lia. }
    intros s4 b4 _ [-> ->]. cbn [bindings capacity]. split_and!; [rewrite fmap_app; cbn; by rewrite <- app_assoc|done|].
    apply Forall_app. split; [|by constructor]. eapply Forall_impl; [exact Hv|]. intros y. by eapply aok_mono.
  - intros s1 b1 X1 (Hn & Hc & Hv). rewrite app_nil_r in Hn. done.
Qed.

(** The frames and the environment the attributes are evaluated in. *)
Lemma sat_eval_Attrs a sh env s : env_ok s sh env → bound N sh (ExprAttrs a) → sat (eval_Attrs E a env) wval s.
Proof.
  intros He (Hnames & Hdis & Hfr & Hdefs & Hdyn). unfold eval_Attrs. spure sat_buildBindings as ->.
  eapply (sat_bind _ _ (λ s' st, dyn_ok s' st.1 (length (dynamicAttrs a)) ∧
    env_ok s' (if recursive a then rec_frame (attrs a) :: sh else sh) st.2)).
  2:{ intros s1 [[b sort] denv] X1 [Hst He1]. cbn [fst snd] in *.
      eapply sat_bind; [by eapply sat_dynamic_attrs|]. intros s2 st X2 Hst2. by apply sat_end_attrs. }
  destruct (recursive a) eqn:Hrec.
  - eapply sat_start_building; [done|done|]. intros s1 env2 inh Q L X1 HB.
    eapply sat_bind; [eapply sat_rec_attrs; [left|exact HB|done|cbn; lia|done]|]. intros s2 b X2 (L' & HB2 & Hc & Hn & Hv). clear X2.
    eapply sat_end_building; [exact HB2|]. intros s3 X3 Henv Hat Hlive. clear X3. apply sat_weaken. apply sat_inv. intros HI.
    assert (built s3 b) as Hb.
    { split; [rewrite Hn; apply sorted_syms_NoDup, Hnames|]. pose proof (names_sym_ok _ _ HI Hnames) as Hsym. rewrite <- Hn in Hsym.
      rewrite Forall_fmap in Hsym. rewrite Forall_forall in Hsym, Hv |- *. intros y Hy. split; [by apply Hsym|by apply Hlive, Hv]. }
    assert (length (bindings b) = length (attrs a)) as Hlen by (by rewrite <- (length_fmap fst), Hn, length_fmap).
    destruct (find_attr sOverrides (attrs a)) as [d|] eqn:Eo.
    + eapply sat_bind; [eapply sat_apply_overrides; [done|by apply Hdis|done|exact Hat|exact Henv|done|done|rewrite Hc; cbn; lia]|].
      intros s4 b4 X4 (Hb4 & Hc4 & Hl4). apply sat_ret. split; [|by eapply env_ok_mono]. cbn [fst snd]. split_and!; [done|done|]. rewrite Hc in Hc4. cbn in *. lia.
    + apply sat_ret. split; [|done]. cbn [fst snd]. split_and!; [done| |cbn; rewrite Hc; cbn; lia]. intros _. cbn [fst]. rewrite Hn. apply Hnames.
  - eapply sat_bind; [eapply (sat_inheritEnvOf [] [] []); [apply Pend_nil|constructor|by apply env_pre_ok|done]|].
    intros s1 inh X1 (Q & L & _ & _ & HP & Hfin & _ & Hinh). up X1. clear X1.
    eapply (sat_finish_envs [] Q L); [done|intros b Hb; destruct (Hfin b Hb) as [[]%elem_of_nil|H]; done|].
    intros s2 X2 Henv _. up X2. clear X2.
    assert (inherit_ok s2 [] (inheritFromExprs a) sh inh) as Hinh2.
    { unfold inherit_ok in *. destruct (inheritFromExprs a), inh; try done. by apply env_pre_ok, Henv. }
    eapply sat_bind; [eapply sat_static_attrs; [done|done|done|done|cbn; lia]|]. intros s3 b X3 (Hc & Hn & Hv). up X3. clear X3. apply sat_inv. intros HI.
    assert (built s3 b) as Hb.
    { split; [rewrite Hn; apply sorted_syms_NoDup, Hnames|]. pose proof (names_sym_ok _ _ HI Hnames) as Hsym. rewrite <- Hn in Hsym.
      rewrite Forall_fmap in Hsym. rewrite Forall_forall in Hsym, Hv |- *. intros y Hy. split; [by apply Hsym|by apply Hv]. }
    assert (length (bindings b) = length (attrs a)) as Hlen by (by rewrite <- (length_fmap fst), Hn, length_fmap).
    apply sat_ret. split; [|done]. cbn [fst snd]. split_and!; [done| |cbn; rewrite Hc; cbn; lia]. intros _. cbn [fst]. rewrite Hn. apply Hnames.
Qed.
End evaluation.
End ok.
