(* ===== verification/EvalOps.v ===== *)
(** The functions of the evaluator keep its state well-formed: selection, calls,
    operators, strings and comparison. *)

From S2P Require Import Prelude State Strings Xp CanonPath StorePath DerivedPath Expr Value Eval EvalInv EvalOk.

(** A pure check that cannot fail badly. *)
Definition safe {A} (r : result A) : Prop := match r with Ok _ => True | Throw e => ok_exn e end.

Lemma safe_bind {A B} (r : result A) (f : A → result B) : safe r → (∀ a, r = Ok a → safe (f a)) → safe (r ≫= f).
Proof. destruct r; cbn; auto. Qed.
Lemma sat_safe N X {A} (r : result A) s : safe r → EvalInv.sat N X (lift r) (λ s' a, s' = s ∧ r = Ok a) s.
Proof. intros H. apply sat_lift. by destruct r. Qed.

(** * Merging sets *)

Lemma merge_attrs_ind (Q : list Attr → list Attr → list Attr → Prop) :
  (∀ k, Q [] k k) → (∀ l, Q l [] l) →
  (∀ i l j k, i.1 = j.1 → Q l k (merge_attrs l k) → Q (i :: l) (j :: k) (j :: merge_attrs l k)) →
  (∀ i l j k, (i.1 < j.1)%nat → Q l (j :: k) (merge_attrs l (j :: k)) → Q (i :: l) (j :: k) (i :: merge_attrs l (j :: k))) →
  (∀ i l j k, (j.1 < i.1)%nat → Q (i :: l) k (merge_attrs (i :: l) k) → Q (i :: l) (j :: k) (j :: merge_attrs (i :: l) k)) →
  ∀ l k, Q l k (merge_attrs l k).
Proof.
  intros H1 H2 H3 H4 H5. induction l as [|i l IHl]; intros k; [destruct k; apply H1|].
  induction k as [|j k IHk]; [apply H2|]. cbn [merge_attrs]. destruct (i.1 =? j.1)%nat eqn:Ee; [apply Nat.eqb_eq in Ee; by apply H3|].
  apply Nat.eqb_neq in Ee. destruct (i.1 <? j.1)%nat eqn:El; [apply Nat.ltb_lt in El; by apply H4|]. apply Nat.ltb_ge in El.
  apply H5; [lia|done].
Qed.
Lemma merge_attrs_sub l k : ∀ x, x ∈ merge_attrs l k → x ∈ l ∨ x ∈ k.
Proof. apply (merge_attrs_ind (λ l k m, ∀ x, x ∈ m → x ∈ l ∨ x ∈ k)); intros; set_solver. Qed.
Lemma merge_attrs_length l k : (length (merge_attrs l k) ≤ length l + length k)%nat.
Proof. apply (merge_attrs_ind (λ l k m, length m ≤ length l + length k)%nat); intros; cbn in *; lia. Qed.
Lemma merge_attrs_Forall (Q : Symbol → Prop) l k : Forall Q l.*1 → Forall Q k.*1 → Forall Q (merge_attrs l k).*1.
Proof.
  rewrite !Forall_forall. intros Hl Hk y. rewrite list_elem_of_fmap. intros (x & -> & Hx).
  destruct (merge_attrs_sub _ _ _ Hx); [apply Hl|apply Hk]; apply list_elem_of_fmap; eauto.
Qed.
Lemma Forall_lt_weaken (x y : Symbol) l : (x < y)%nat → Forall (lt y) l → Forall (lt x) l.
Proof. intros Hxy H. eapply Forall_impl; [exact H|]. cbn. lia. Qed.
Lemma merge_attrs_sorted l k : sorted_syms l.*1 → sorted_syms k.*1 → sorted_syms (merge_attrs l k).*1.
Proof.
  unfold sorted_syms. apply (merge_attrs_ind (λ l k m, StronglySorted lt l.*1 → StronglySorted lt k.*1 → StronglySorted lt m.*1)); try done;
    intros i l' j k' Hij IH; cbn [fmap list_fmap]; intros Hl Hk; pose proof Hl as Hl0; pose proof Hk as Hk0;
    apply StronglySorted_inv in Hl as [Hl1 Hl2]; apply StronglySorted_inv in Hk as [Hk1 Hk2];
    (constructor; [by apply IH|]); apply merge_attrs_Forall; try done.
  - by rewrite <- Hij.
  - constructor; [done|]. by eapply Forall_lt_weaken.
  - constructor; [done|]. by eapply Forall_lt_weaken.
Qed.

Section ops.
Context (N : Prog) (E : Evaluator) (HE : EvOk N E).
Abbreviation sat := (sat N []).
Abbreviation wval := (wval N).
Abbreviation ref_ok := (ref_ok N).

Lemma sat_eval_List l sh env s : env_ok s sh env → allP (bound N sh) l → sat (eval_List l env) wval s.
Proof.
  intros He Hl. apply allP_Forall in Hl. rewrite Forall_forall in Hl. unfold eval_List.
  eapply sat_bind; [apply (sat_mapS _ (λ s' _ a, aok s' a))|].
  - intros s1 s2 _ a X. by apply (aok_mono _ _ _ X).
  - intros s1 e X1 Hin. up X1. eapply sat_maybeThunk; [done|auto].
  - intros s1 as_ X1 Has. apply sat_ret. split; [|done]. cbn. clear -Has. induction Has; by constructor.
Qed.
Lemma sat_eval_Var sh env name w level displ s : env_ok s sh env → var_ok sh w level displ → sat (eval_Var E env name w level displ) wval s.
Proof. intros He Hv. unfold eval_Var. sstep sat_lookupVar as Ha; [done|done|done|]. by apply sat_forceValue. Qed.

Lemma sat_getName n sh env s :
  env_ok s sh env → match n with inl _ => True | inr e => bound N sh e end → sat (getName E n env) (λ _ _, True) s.
Proof.
  intros He Hn. destruct n as [x|e]; cbn [getName]; [by apply sat_ret|].
  sstep (ok_eval N E HE) as [Hv Hw]; [done|done|]. sstep sat_forceStringNoCtx as Hs; [done|done|].
  eapply sat_mono; [by apply sat_createSymbol|done].
Qed.

Lemma sat_select_loop sh env def path : ∀ r s,
  env_ok s sh env → allPath (bound N sh) path → allO (bound N sh) def → ref_ok s r → sat (select_loop E env def path r) wval s.
Proof.
  induction path as [|i path IH]; intros r s He Hp Hd Hr; cbn [select_loop]; [by apply sat_forceValue|].
  assert (match i with inl _ => True | inr e => bound N sh e end ∧ allPath (bound N sh) path) as [Hi Hp'] by (destruct i; cbn in Hp; tauto).
  sstep sat_getName as _; [done|done|]. destruct def as [d|].
  - sstep sat_forceValue as [Hv Hw]; [done|done|]. destruct a0; try (by eapply ok_eval).
    spure sat_attr_get as [-> Hj]; [done|]. destruct (attr_find _ _) as [x|] eqn:Ex; [|by eapply ok_eval]. apply IH; try done. by apply Hj.
  - sstep sat_forceAttrs as Hb; [done|done|]. spure sat_attr_get as [-> Hj]; [done|].
    destruct (attr_find _ _) as [x|] eqn:Ex; [|sthrow]. apply IH; try done. by apply Hj.
Qed.
Lemma sat_eval_Select e path def sh env s :
  env_ok s sh env → bound N sh (ExprSelect e path def) → sat (eval_Select E e path def env) wval s.
Proof.
  intros He (H1 & H2 & H3). unfold eval_Select. sstep (ok_eval N E HE) as [Hv Hw]; [done|done|]. by eapply sat_select_loop.
Qed.
Lemma sat_hasAttr_loop sh env path : ∀ r s,
  env_ok s sh env → allPath (bound N sh) path → ref_ok s r → sat (hasAttr_loop E env path r) wval s.
Proof.
  induction path as [|i path IH]; intros r s He Hp Hr; cbn [hasAttr_loop]; [by apply sat_ret|].
  assert (match i with inl _ => True | inr e => bound N sh e end ∧ allPath (bound N sh) path) as [Hi Hp'] by (destruct i; cbn in Hp; tauto).
  sstep sat_forceValue as [Hv Hw]; [done|done|]. sstep sat_getName as _; [done|done|]. destruct a; try (by apply sat_ret).
  spure sat_attr_get as [-> Hj]; [done|]. destruct (attr_find _ _) as [x|] eqn:Ex; [|by apply sat_ret]. apply IH; try done. by apply Hj.
Qed.
Lemma sat_eval_OpHasAttr e path sh env s :
  env_ok s sh env → bound N sh (ExprOpHasAttr e path) → sat (eval_OpHasAttr E e path env) wval s.
Proof.
  intros He (H1 & H2). unfold eval_OpHasAttr. sstep (ok_eval N E HE) as [Hv Hw]; [done|done|]. by eapply sat_hasAttr_loop.
Qed.

(** * Simple expressions *)

Lemma sat_evalBool e sh env s : env_ok s sh env → bound N sh e → sat (evalBool E env e) (λ _ _, True) s.
Proof. intros He Hb. unfold evalBool. sstep (ok_eval N E HE) as [Hv Hw]; [done|done|]. destruct a; try sthrow. by apply sat_ret. Qed.
Lemma sat_evalAttrs e sh env s : env_ok s sh env → bound N sh e → sat (evalAttrs E env e) (λ s' b, attrs_ok s' b) s.
Proof. intros He Hb. unfold evalAttrs. sstep (ok_eval N E HE) as [Hv Hw]; [done|done|]. destruct a; try sthrow. by apply sat_ret. Qed.

Lemma slot_set_env_ok s f sh a up :
  slot_set s a up 0 → (∀ d, frame_slot f d → d = 0%nat) → env_ok s sh up → env_ok s (f :: sh) a.
Proof.
  intros (env & He & Hu & Hl) Hf Hup. exists env. split; [done|]. split; [by intros d ->%Hf|]. destruct sh; [done|]. eauto.
Qed.

Lemma sat_eval_With attrs body sh env s :
  env_ok s sh env → bound N sh attrs → bound N (FWith :: sh) body → sat (eval_With E attrs body env) wval s.
Proof.
  intros He Ha Hb. unfold eval_With. apply sat_bind_allocEnv. intros s1 env2 X1 Hat Hnone HF. up X1. clear X1.
  sstep sat_maybeThunk as Hv; [done|done|].
  sstep sat_set_slot as Hs; [done|lia|done|by left; left|]. apply sat_weaken. eapply ok_eval; [done| |done]. by eapply slot_set_env_ok.
Qed.

(** * Calls *)

Lemma sort_insert_perm v l : sort_insert v l ≡ₚ v :: l.
Proof. induction l as [|w l IH]; cbn [sort_insert]; [done|]. destruct (_ <? _)%nat; [done|]. rewrite IH. apply perm_swap. Qed.
Lemma senv_sort_perm l : senv_sort l ≡ₚ l.
Proof.
  unfold senv_sort. cut (∀ acc, foldl (λ acc v, sort_insert v acc) acc l ≡ₚ l ++ acc); [intros H; by rewrite H, app_nil_r|].
  induction l as [|v l IH]; intros acc; cbn; [done|]. rewrite IH, sort_insert_perm. by rewrite Permutation_middle.
Qed.
Definition lambda_size {T} (arg : Symbol) (fs : option (FormalsOf T)) : nat :=
  ((if (arg =? 0)%nat then 0 else 1) + match fs with Some f => length (formals f) | None => 0 end)%nat.
Lemma lambda_frame_slots {T} (arg : Symbol) (fs : option (FormalsOf T)) d : frame_slot (lambda_frame arg fs) d → (d < lambda_size arg fs)%nat.
Proof.
  cbn. unfold lambda_vars. intros H.
  assert (d ∈ (zip (lambda_names arg fs) (seq 0 (length (lambda_names arg fs)))).*2) as H'.
  { destruct fs; [|done]. by rewrite senv_sort_perm in H. }
  rewrite snd_zip in H' by (by rewrite length_seq). apply elem_of_seq in H' as [_ H']. cbn in H'. revert H'.
  unfold lambda_names, lambda_size. rewrite length_app. destruct (arg =? 0)%nat, fs; cbn; rewrite ?length_fmap; lia.
Qed.

(** The formals that were given. *)
Definition given (b : list Attr) (fs : list (Symbol * option Expr)) : list Symbol := filter (λ x, is_Some (attr_find b x)) fs.*1.
Lemma attr_find_elem b x : is_Some (attr_find b x) ↔ x ∈ b.*1.
Proof.
  split.
  - intros [a Ha]. apply attr_find_Some in Ha. apply list_elem_of_fmap. by exists (x, a).
  - intros Hx. destruct (attr_find b x) eqn:Ef; [done|]. by apply attr_find_None in Ef.
Qed.
Lemma given_all b fs :
  NoDup fs.*1 → NoDup b.*1 → (∀ x, x ∈ b.*1 → x ∈ fs.*1) → length (given b fs) = length b.
Proof.
  intros Hf Hb Hsub. rewrite <- (length_fmap fst b). apply Permutation_length, NoDup_Permutation; [by apply NoDup_filter|done|].
  intros x. unfold given. rewrite list_elem_of_filter, attr_find_elem. naive_solver.
Qed.

Lemma existsb_formals (x y : Symbol) (l : list (Symbol * option Expr)) :
  Forall (lt x) l.*1 → (y ≤ x)%nat → existsb (λ f : Symbol * option Expr, (f.1 <? y)%nat) l = false.
Proof.
  intros H Hx. induction l as [|z l IH]; [done|]. cbn [fmap list_fmap] in H. apply Forall_cons in H as [H1 H2].
  cbn [existsb]. rewrite (proj2 (Nat.ltb_ge _ _)) by lia. auto.
Qed.
Lemma has_sym_sorted l y : sorted_syms l.*1 → has_sym l y = Ok (bool_decide (y ∈ l.*1)).
Proof.
  unfold has_sym, sorted_syms. induction l as [|x l IH]; [done|]. cbn [fmap list_fmap]. intros H. apply StronglySorted_inv in H as [H1 H2].
  specialize (IH H1). cbn [lower_bound]. destruct (x.1 <? y)%nat eqn:El.
  - apply Nat.ltb_lt in El. rewrite IH. f_equal. apply bool_decide_ext. rewrite elem_of_cons. naive_solver lia.
  - apply Nat.ltb_ge in El. rewrite (existsb_formals x.1) by done. cbn. f_equal. destruct (Nat.eqb_spec x.1 y) as [->|Hne].
    + symmetry. apply bool_decide_eq_true. left.
    + symmetry. apply bool_decide_eq_false. rewrite elem_of_cons. intros [?|Hy]; [congruence|].
      rewrite Forall_forall in H2. specialize (H2 _ Hy). cbn in H2. lia.
Qed.
(** The errors about arguments. *)
Lemma sat_refused X {A} fn m (Q : World → A → Prop) s :
  strict N = true → EvalInv.sat N X (withFrame fn;; throw (TypeError m)) Q s.
Proof.
  intros Hs. eapply (sat_bind _ _ (λ _ _, True)); [|intros; sthrow].
  destruct fn; first [by apply sat_ret | apply sat_rethrow; by right].
Qed.
Lemma strict_or_lenient {B} (f : FormalsOf B) : strict N || lenient f = true →
  strict N = true ∨ (ellipsis f = true ∧ ∀ x, x ∈ formals f → is_Some x.2).
Proof.
  intros [Hs|[He Hd]%andb_true_iff]%orb_true_iff; [by left|right]. split; [done|]. intros x Hx. rewrite forallb_forall in Hd.
  specialize (Hd x (proj1 (list_elem_of_In _ _) Hx)). unfold has_default in Hd. by destruct x.2.
Qed.

Lemma sat_unexpected_arg X fn fs b s : strict N = true →
  sorted_syms fs.*1 → ¬ (∀ x, x ∈ b.*1 → x ∈ fs.*1) → EvalInv.sat N X (unexpected_arg fn fs b) (λ _ _, False) s.
Proof.
  intros Hstrict Hf. induction b as [|i b IH]; intros Hn; cbn [unexpected_arg].
  - destruct Hn. by intros x ?%elem_of_nil.
  - rewrite has_sym_sorted by done.
    eapply sat_bind; [apply (sat_lift _ (λ s' h, s' = s ∧ h = bool_decide (i.1 ∈ fs.*1))); done|]. intros s' h _ [-> ->].
    case_bool_decide as Hi; [|by apply sat_refused]. apply IH. intros Hb. apply Hn. intros x. cbn. rewrite elem_of_cons. intros [->|Hx]; auto.
Qed.

Lemma allFormals_Forall {A} (P : A → Prop) l : allFormals P l → Forall (λ x, allO P x.2) l.
Proof. induction l as [|[x o] l IH]; cbn; [done|]. intros (H1 & H2). constructor; auto. Qed.

(** The state while the formals are bound. *)
Definition binding (s : World) (env2 env : addr) (n displ : nat) (sh : list Frame) (b : list Attr) (L : list addr) : Prop :=
  Pend (N := N) s [env2] L ∧ prog s env2 displ ∧ env_at s env2 env n ∧ env_ok s sh env ∧ attrs_ok s b.

Lemma sat_bind_formals X fn env2 env n sh f fs displ b s L : strict N = true ∨ (∀ x, x ∈ fs → is_Some x.2) →
  env2 ∈ X → binding s env2 env n displ sh b L → (∀ d, frame_slot f d → (d < n)%nat) → (displ + length fs = n)%nat →
  Forall (λ x, allO (bound N (f :: sh)) x.2) fs →
  EvalInv.sat N X (bind_formals fn env2 b fs displ)
    (λ s' used, used = length (given b fs) ∧ ∃ L', binding s' env2 env n n sh b L') s.
Proof.
  intros Hlen HX Hbd Hf Hn Hfs. unfold bind_formals. rewrite Forall_forall in Hfs. eapply sat_bind.
  - eapply (sat_foldS _ (λ s' (st : nat * nat) rest, (st.1 + length rest = n)%nat ∧ (st.2 + length (given b rest) = length (given b fs))%nat ∧
      ∃ L', binding s' env2 env n st.1 sh b L')).
    + cbn. split_and!; [done|done|by exists L].
    + intros s1 [x def] k [d u] X1 (l1 & El) (Hd & Hu & L' & HP & Hp & Hat & He & Hb). cbn [fst snd] in *. cbn [length] in Hd.
      spure sat_attr_get as [-> Hj]; [done|]. unfold given in Hu. cbn [fmap list_fmap fst] in Hu. rewrite filter_cons in Hu.
      assert (∀ (m : EM addr) u', EvalInv.sat N X m (made (N := N) s1 [env2] L') s1 → (u' + length (given b k) = length (given b fs))%nat →
        EvalInv.sat N X (v ← m; set_slot env2 d v;; mret (S d, u')) (λ s' st, (st.1 + length k = n)%nat ∧
          (st.2 + length (given b k) = length (given b fs))%nat ∧ ∃ L', binding s' env2 env n st.1 sh b L') s1) as Hstep.
      { intros m u' Hm Hu'. eapply sat_fill; [done|left|exact HP|exact Hat|exact Hp|lia|done|].
        intros s2 v L2 X2 HL HP2 Hp2 _ _. apply sat_ret. cbn. split_and!; [lia|done|]. exists L2. up X2. by split_and!. }
      destruct (attr_find b x) as [v|] eqn:Ex.
      * rewrite decide_True in Hu by done. cbn [length] in Hu.
        eapply (sat_ext (v ← mret v; set_slot env2 d v;; mret (S d, S u))); [done|]. apply Hstep; [|unfold given; lia].
        apply sat_ret. split; [done|]. exists L'. split_and!; [done|done|left; auto].
      * rewrite decide_False in Hu by (by intros [? ?]). destruct def as [e|].
        2: { destruct Hlen as [Hlen|Hlen]; [by apply sat_refused|]. destruct (Hlen (x, None)) as [e He']; [rewrite El; set_solver|done]. }
        apply Hstep; [|unfold given; lia].
        eapply sat_pend_maybeThunk; [eapply env_pre_cons; [left|exact Hat|done|by apply env_pre_ok]| |done].
        apply (Hfs (x, Some e)). rewrite El. set_solver.
  - intros s1 [d u] X1 (Hd & Hu & L' & Hb'). apply sat_ret. cbn in *. rewrite Nat.add_0_r in Hd, Hu. subst. split; [done|]. by exists L'.
Qed.

Lemma sat_finish_lambda env2 env n f sh b L body s :
  binding s env2 env n n sh b L → (∀ d, frame_slot f d → (d < n)%nat) → bound N (f :: sh) body →
  EvalInv.sat N [env2] (ev_eval E body env2) wval s.
Proof.
  intros (HP & Hp & Hat & He & Hb) Hf Hbody. eapply sat_finish_envs; [exact HP| |].
  - intros b' ->%list_elem_of_singleton. by exists env, n.
  - intros s' X' Henv _. apply sat_weaken. eapply ok_eval; [done| |done]. apply Henv.
    eapply env_pre_cons; [left|exact Hat|done|by apply env_pre_ok].
Qed.

Lemma sat_call_lambda fn env arg fs body sh a s :
  env_ok s sh env → bound N sh (ExprLambda arg fs body) → aok s a → sat (call_lambda E fn env arg fs body a) wval s.
Proof.
  intros He [Hfs Hbody] Ha. unfold call_lambda. fold (lambda_size arg fs). pose proof (lambda_frame_slots arg fs) as Hslots.
  apply sat_bind_allocEnv. intros s1 env2 X1 Hat Hnone HF. up X1. clear X1 HF. destruct fs as [f|].
  - destruct Hfs as [[Hnames Hlen%strict_or_lenient] Hdefs]. apply allFormals_Forall in Hdefs.
    eapply (sat_bind _ _ (λ s' _, ∃ b L, binding s' env2 env (lambda_size arg (Some f)) (lambda_size arg (Some f)) sh b L)).
    2:{ intros s2 [] X2 (b & L & Hb). by eapply sat_finish_lambda. }
    eapply sat_bind_weak; [by apply sat_forceAttrs|]. intros s2 b X2 Hb.
    assert (∀ i o, envs s2 !! env2 ≫= (λ env, env_values env !! i) = Some o → o = None) as Hnone2.
    { intros i o Ho. destruct Hat as (envr & Er & _). destruct (ext_envs _ _ _ X2 _ _ Er) as (env' & E' & _ & Hl & _ & Hn).
      rewrite E' in Ho. cbn in Ho. destruct (lookup_lt_is_Some_2 (env_values envr) i) as [o' Ho']; [apply lookup_lt_Some in Ho; lia|].
      assert (o' = None) as -> by (apply (Hnone i); by rewrite Er). apply Hn in Ho'; [congruence|apply not_elem_of_nil]. }
    up X2. clear X2 Hnone.
    assert (Pend (N := N) s2 [env2] []) as HP.
    { apply Pend_start; [apply Pend_nil|]. intros envr i v Er Hi. specialize (Hnone2 i (Some v)). rewrite Er in Hnone2. by specialize (Hnone2 Hi). }
    eapply (sat_bind _ _ (λ s' displ, binding s' env2 env (lambda_size arg (Some f)) displ sh b [] ∧
      (displ + length (formals f) = lambda_size arg (Some f))%nat)).
    { unfold lambda_size in *. destruct (arg =? 0)%nat eqn:Earg.
      - apply sat_ret. split; [|done]. by split_and!; [done|eapply prog_0|done|done|done].
      - eapply sat_bind; [eapply (sat_pend_set_slot _ [env2] []); [left|left|done|exact Hat|by eapply prog_0|cbn; lia|by left]|].
        intros s3 [] X3 (HP3 & Hp3 & _). apply sat_ret. up X3. by split_and!. }
    intros s3 displ X3 [Hbd Hd].
    eapply sat_bind; [eapply sat_bind_formals; [destruct Hlen as [?|[_ ?]]; [by left|by right]|left|exact Hbd|exact Hslots|done|done]|]. intros s4 used X4 (-> & L' & Hbd4).
    assert (∃ b L, binding s4 env2 env (lambda_size arg (Some f)) (lambda_size arg (Some f)) sh b L) as Hfin by eauto.
    destruct (negb (ellipsis f) && _) eqn:Ec; [|by apply sat_ret].
    apply andb_true_iff in Ec as [Eell Ec]. apply negb_true_iff, Nat.eqb_neq in Ec.
    destruct Hlen as [Hlen|[Hlen _]]; [|by rewrite Hlen in Eell].
    eapply sat_mono; [apply sat_unexpected_arg; [done|apply Hnames|]|done].
    intros Hall. apply Ec, given_all; [apply sorted_syms_NoDup, Hnames|apply sorted_syms_NoDup, Hbd|done].
  - unfold lambda_size in Hat. rewrite (proj2 (Nat.eqb_neq _ _) Hfs) in Hat. cbn in Hat.
    sstep sat_set_slot as Hs; [done|lia|done|by left; left|]. apply sat_weaken. eapply ok_eval; [done| |done].
    eapply slot_set_env_ok; [done| |done]. intros d Hd. apply Hslots in Hd. unfold lambda_size in Hd. destruct (arg =? 0)%nat; lia.
Qed.

Lemma app_chain_chain v r (s : EvalState) : chain v = Some r → app_chain v s = (Ok r, s).
Proof.
  revert r. induction v; intros r; try done; cbn [chain app_chain].
  - by intros [= <-].
  - destruct (chain v) as [r'|]; [|done]. cbn. intros [= <-]. unfold mbind, StE_bind. by rewrite (IHv r').
Qed.
Lemma chain_foldl args v p l : chain v = Some (p, l) → chain (foldl VPrimOpApp v args) = Some (p, l ++ args).
Proof.
  revert v l. induction args as [|a args IH]; intros v l H; cbn; [by rewrite app_nil_r|].
  rewrite (IH _ (l ++ [a])); [by rewrite <- app_assoc|]. cbn. by rewrite H.
Qed.
Lemma sat_makeAppChain v p l args s :
  chain v = Some (p, l) → crash_free p → Forall (aok s) l → Forall (aok s) args → (length l + length args < arity p)%nat → args ≠ [] →
  sat (makeAppChain v args) wval s.
Proof.
  intros Hc Hp Hl Ha Hlt Hne. apply sat_ret. pose proof (chain_foldl args _ _ _ Hc) as Hf.
  assert (∃ v' a, foldl VPrimOpApp v args = VPrimOpApp v' a) as (v' & a & Ev).
  { destruct args as [|x args _] using rev_ind; [done|]. rewrite foldl_app. cbn. eauto. }
  rewrite Ev in *. split; [|done]. exists p, (l ++ args). split_and!; [done|done|by rewrite length_app|by apply Forall_app].
Qed.
Lemma arity_pos p : (0 < arity p ≤ 3)%nat.
Proof. destruct p; cbn; lia. Qed.

Lemma sat_call_loop fn v args s : wval s v → Forall (aok s) args → sat (call_loop E fn v args) wval s.
Proof.
  intros [Hv Hw] Ha. unfold call_loop. destruct args as [|a args]; [by apply sat_ret|]. pose proof Ha as Ha'.
  apply Forall_cons in Ha' as [Ha1 Ha2]. destruct v as [| | | | | |b| | | | |env arg fs body|p|l r]; try sthrow.
  - spure sat_attr_get as [-> Hj]; [done|]. destruct (attr_find b sFunctor) as [f|] eqn:Ef; [|sthrow]. specialize (Hj _ eq_refl).
    sstep sat_allocValue as Hself; [done|]. eapply sat_bind; [apply ok_call; [done|done|by auto using Forall_cons_2, Forall_nil_2]|].
    intros s2 v X2 Hv2. up X2. by apply ok_loop.
  - destruct Hv as (sh & He & Hb). eapply sat_bind; [by eapply sat_call_lambda|]. intros s1 v X1 Hv1. up X1. by apply ok_loop.
  - pose proof (arity_pos p). destruct (_ <? _)%nat eqn:El.
    + apply Nat.ltb_lt in El. by eapply (sat_makeAppChain _ p []).
    + apply Nat.ltb_ge in El.
      eapply sat_bind; [apply ok_prim; [done|done|by apply Forall_take|by rewrite length_take_le]|].
      intros s1 v X1 Hv1. up X1. apply ok_loop; [done|done|by apply Forall_drop].
  - destruct Hv as (p & dn & Hc & Hp & Hlt & Hdn). pose proof (arity_pos p).
    eapply sat_step; [by apply app_chain_chain|]. cbv beta iota.
    assert (args_left p (length dn) = Z.of_nat (arity p - length dn)) as Eleft.
    { unfold args_left, u64. rewrite Z.mod_small by lia. lia. }
    rewrite Eleft. destruct (_ <? _)%Z eqn:El.
    + apply Z.ltb_lt in El. eapply (sat_makeAppChain _ p dn); try done. lia.
    + apply Z.ltb_ge in El. rewrite Nat2Z.id.
      eapply sat_bind; [apply ok_prim; [done|done|apply Forall_app; split; [done|by apply Forall_take]|]|].
      { rewrite length_app, length_take_le by lia. lia. }
      intros s1 v X1 Hv1. up X1. apply ok_loop; [done|done|by apply Forall_drop].
Qed.

Lemma sat_addCallDepth cfg {A} (m : EM A) Q s :
  (∀ s1 s2 a, ext [] s1 s2 → Q s1 a → Q s2 a) → (∀ s', ext [] s s' → sat m Q s') → sat (addCallDepth cfg m) Q s.
Proof.
  intros HQ Hm. unfold addCallDepth. eapply sat_bind; [by apply (sat_get _ (λ s' _, s' = s))|]. intros s1 d _ ->. destruct (_ <? d)%nat; [sthrow|].
  eapply sat_bind; [by apply sat_modify|]. intros s1 [] X1 _.
  eapply sat_bind; [apply sat_catch; [by apply Hm|]|].
  - intros s2 e k X2 He [= <-]. eapply sat_bind; [by apply sat_modify|]. intros s3 [] X3 _. by apply sat_rethrow.
  - intros s2 a X2 Ha. eapply sat_bind; [by apply sat_modify|]. intros s3 [] X3 _. apply sat_ret. eauto.
Qed.
Lemma sat_callFunction cfg r args s : ref_ok s r → Forall (aok s) args → sat (callFunction cfg E r args) wval s.
Proof.
  intros Hr Ha. unfold callFunction. apply sat_addCallDepth; [intros s1 s2 a Hx; by apply (wval_mono _ _ _ Hx)|]. intros s' Hx. up Hx. clear Hx.
  sstep sat_forceValue as Hv; [done|done|]. by apply sat_call_loop.
Qed.
Lemma Forall2_aok (s : World) {A} (l : list A) as_ : Forall2 (λ _ a, aok s a) l as_ → Forall (aok s) as_.
Proof. induction 1; by constructor. Qed.
Lemma sat_thunks l sh env s : env_ok s sh env → allP (bound N sh) l → sat (mapS (λ e, maybeThunk e env) l) (λ s' l', Forall (aok s') l') s.
Proof.
  intros He Hl. apply allP_Forall in Hl. rewrite Forall_forall in Hl.
  eapply sat_mono; [apply (sat_mapS _ (λ s' _ a, aok s' a))|].
  - intros s1 s2 _ a X. by apply (aok_mono _ _ _ X).
  - intros s1 e X1 Hin. up X1. eapply sat_maybeThunk; [done|auto].
  - intros s1 as_ X1 Has. cbv beta in Has; by eapply (Forall2_aok _ l).
Qed.
Lemma sat_eval_Call fn args sh env s : env_ok s sh env → bound N sh (ExprCall fn args) → sat (eval_Call E fn args env) wval s.
Proof.
  intros He [Hf Ha]. unfold eval_Call. sstep (ok_eval N E HE) as Hv; [done|done|]. sstep sat_thunks as Has; [done|done|].
  apply ok_call; [done|apply Hv|done].
Qed.

(** * Operators *)

Lemma sat_eval_Assert c b sh env s : env_ok s sh env → bound N sh c → bound N sh b → sat (eval_Assert E c b env) wval s.
Proof.
  intros He Hc Hb. unfold eval_Assert. sstep sat_evalBool as _; [done|done|]. destruct a; [by eapply ok_eval|].
  eapply (sat_bind _ _ (λ _ _, True)); [|intros; sthrow]. destruct c; try (by apply sat_ret). destruct op; try (by apply sat_ret).
  destruct Hc as [H1 H2]. sstep (ok_eval N E HE) as [Hv1 _]; [done|done|]. sstep (ok_eval N E HE) as [Hv2 _]; [done|done|]. by apply ok_assertEq.
Qed.

Lemma sat_update b1 b2 s : attrs_ok s b1 → attrs_ok s b2 → sat (update b1 b2) wval s.
Proof.
  intros H1 H2. unfold update. destruct (length b1 =? 0)%nat; [by apply sat_ret|]. destruct (length b2 =? 0)%nat; [by apply sat_ret|].
  spure sat_buildBindings as ->. spure sat_push_all as ->; [cbn; apply merge_attrs_length|]. cbn [bindings capacity].
  apply sat_alreadySorted. cbn. destruct H1 as [H1 F1], H2 as [H2 F2]. split; [by apply merge_attrs_sorted|].
  rewrite Forall_forall in F1, F2 |- *. intros x Hx. destruct (merge_attrs_sub _ _ _ Hx); auto.
Qed.
Lemma Forall_concat_aok (s : World) l : Forall (λ x, Forall (aok s) x) l → Forall (aok s) (concat l).
Proof. induction 1; cbn; [constructor|]. by apply Forall_app. Qed.
Lemma sat_concatLists refs s : Forall (ref_ok s) refs → sat (concatLists E refs) wval s.
Proof.
  intros Hr. rewrite Forall_forall in Hr. unfold concatLists.
  eapply sat_bind; [apply (sat_mapS _ (λ s' _ l, Forall (aok s') l))|].
  - intros s1 s2 _ l X. by apply (Forall_aok_mono _ _ _ X).
  - intros s1 r X1 Hin. apply Hr in Hin. up X1. by apply sat_forceList.
  - intros s1 ls X1 Hls. assert (Forall (λ x, Forall (aok s1) x) ls) as Hf by (clear -Hls; induction Hls; by constructor).
    destruct (last _) as [l|] eqn:El; [destruct (_ =? _)%nat|]; apply sat_ret; (split; [|done]); try by apply Forall_concat_aok.
    cbn. apply last_Some_elem_of in El. apply list_elem_of_filter in El as [_ El]. rewrite Forall_forall in Hf. by apply Hf.
Qed.
Lemma sat_eval_BinOp op e1 e2 sh env s : env_ok s sh env → bound N sh e1 → bound N sh e2 → sat (eval_BinOp E op e1 e2 env) wval s.
Proof.
  intros He H1 H2. destruct op; cbn [eval_BinOp].
  - sstep (ok_eval N E HE) as [Hv1 _]; [done|done|]. sstep (ok_eval N E HE) as [Hv2 _]; [done|done|].
    sstep (ok_eq N E HE) as _; [done|done|]. by apply sat_ret.
  - sstep (ok_eval N E HE) as [Hv1 _]; [done|done|]. sstep (ok_eval N E HE) as [Hv2 _]; [done|done|].
    sstep (ok_eq N E HE) as _; [done|done|]. by apply sat_ret.
  - sstep sat_evalBool as _; [done|done|]. destruct a; [|by apply sat_ret]. eapply sat_fmap; [by eapply sat_evalBool|done].
  - sstep sat_evalBool as _; [done|done|]. destruct a; [by apply sat_ret|]. eapply sat_fmap; [by eapply sat_evalBool|done].
  - sstep sat_evalBool as _; [done|done|]. destruct a; [|by apply sat_ret]. eapply sat_fmap; [by eapply sat_evalBool|done].
  - sstep sat_evalAttrs as Hb1; [done|done|]. sstep sat_evalAttrs as Hb2; [done|done|]. by apply sat_update.
  - sstep (ok_eval N E HE) as [Hv1 _]; [done|done|]. sstep (ok_eval N E HE) as [Hv2 _]; [done|done|].
    apply sat_concatLists. by auto using Forall_cons_2, Forall_nil_2.
Qed.
End ops.
