(* ===== verification/EvalData.v ===== *)
(** The functions of the evaluator keep its state well-formed: strings and their
    contexts, coercion, deep evaluation and comparison. *)

From S2P Require Import Prelude State Strings Xp CanonPath StorePath DerivedPath Expr Value Eval EvalInv EvalOk EvalOps.

(** * String contexts *)

(** The store paths in a context. *)
Definition elem_ok (x : BsdStringContextElem) : Prop :=
  match x with CtxOpaque p | CtxDrvDeep p => no_nul (StorePath.baseName p) | CtxBuilt _ _ => True end.

Lemma StorePath_new_safe base : safe (StorePath_new base).
Proof. pose proof (StorePath_new_spec base) as H. unfold safe. destruct (StorePath_new base); [done|]. by destruct H as [[m ->] _]. Qed.
Lemma StorePath_new_Ok base p : StorePath_new base = Ok p → StorePath.baseName p = base.
Proof. pose proof (StorePath_new_spec base) as H. intros E. rewrite E in H. by destruct H as [-> _]. Qed.
Lemma show_feature_Ok f : ∃ name, showExperimentalFeature f = Ok name.
Proof. destruct f; eexists; reflexivity. Qed.
Lemma drvRequireExperiment_safe xp d : safe (drvRequireExperiment xp d).
Proof.
  destruct d; [done|]. unfold drvRequireExperiment, require_feature. destruct (isEnabled xp _); [done|].
  by destruct (show_feature_Ok DynamicDerivations) as [name ->].
Qed.
Lemma parseRest_safe xp fuel s : safe (parseRest xp fuel s).
Proof.
  revert s. induction fuel as [|fuel IH]; intros s; [done|]. cbn [parseRest]. destruct (find_idx _ s).
  - apply safe_bind; [apply IH|]. intros d _. apply safe_bind; [apply drvRequireExperiment_safe|done].
  - apply safe_bind; [apply StorePath_new_safe|done].
Qed.
Lemma parseRest_ok xp fuel s p : no_nul s → parseRest xp fuel s = Ok p → elem_ok (to_elem p).
Proof.
  destruct fuel as [|fuel]; [done|]. intros Hs. cbn [parseRest]. destruct (find_idx _ s).
  - destruct (parseRest xp fuel _) as [d|]; [|done]. cbn. destruct (drvRequireExperiment xp d); [|done]. by intros [= <-].
  - destruct (StorePath_new s) as [q|] eqn:E; [|done]. intros [= <-]. cbn. by rewrite (StorePath_new_Ok _ _ E).
Qed.
Lemma ctx_parse_safe xp s : safe (ctx_parse xp s).
Proof.
  destruct s as [|c s]; [done|]. unfold ctx_parse. cbv zeta. repeat case_match; try done; (apply safe_bind; [|done]);
    first [apply parseRest_safe | apply StorePath_new_safe].
Qed.
Lemma ctx_parse_ok xp s x : no_nul s → ctx_parse xp s = Ok x → elem_ok x.
Proof.
  intros Hs. destruct s as [|c s]; [done|]. assert (no_nul s) as Hs' by (unfold no_nul in *; set_solver).
  unfold ctx_parse. cbv zeta. repeat (case_match; try done).
  all: match goal with
       | |- context [parseRest ?x ?n ?t] => destruct (parseRest x n t) as [p|] eqn:E
       | |- context [StorePath_new ?t] => destruct (StorePath_new t) as [p|] eqn:E
       end; [|done]; intros [= <-]; first [by eapply parseRest_ok; [|exact E] | cbn; by rewrite (StorePath_new_Ok _ _ E)].
Qed.
Lemma ctx_insert_Forall (Q : BsdStringContextElem → Prop) x c : Q x → Forall Q c → Forall Q (ctx_insert x c).
Proof.
  intros Hx Hc. induction Hc as [|y c Hy Hc IH]; cbn; [by constructor|]. destruct (ctx_compare x y); by repeat constructor.
Qed.
Lemma encodeContext_no_nul c : Forall no_nul (encodeContext c).
Proof. induction c; constructor; [apply c_str_no_nul|done]. Qed.
Lemma mkString_ok N s x c : wval N s (mkString x c).
Proof. split; [|done]. split; [apply c_str_no_nul|apply encodeContext_no_nul]. Qed.

(** What is expected of the rest of the system. *)
Record CfgOk (cfg : Config) : Prop := {
  cfg_fetch : ∀ a p, safe (fetchToStore cfg a p);
  cfg_resolve : ∀ p, safe (resolveDerivedPath cfg p) ∧ ∀ q, resolveDerivedPath cfg p = Ok q → no_nul (StorePath.baseName q);
  cfg_storeDir : no_nul (storeDir cfg);
}.

Section data.
Context (N : Prog) (cfg : Config) (HC : CfgOk cfg) (E : Evaluator) (HE : EvOk N E).
Abbreviation sat := (sat N []).
Abbreviation wval := (wval N).
Abbreviation ref_ok := (ref_ok N).

Lemma sat_copyContext enc c s :
  Forall no_nul enc → sat (copyContext cfg enc c) (λ s' c', s' = s ∧ (Forall elem_ok c → Forall elem_ok c')) s.
Proof.
  intros He. unfold copyContext.
  eapply (sat_mono _ (λ s' c', (λ s' c' (_ : list str), s' = s ∧ (Forall elem_ok c → Forall elem_ok c')) s' c' [])); [|done].
  apply (sat_foldS _ (λ s' c' (_ : list str), s' = s ∧ (Forall elem_ok c → Forall elem_ok c'))); [done|].
  intros s' x k b _ (l1 & ->) [-> Hb]. apply Forall_app in He as [_ He]. apply Forall_cons in He as [Hx _].
  spure sat_safe as Ep; [apply ctx_parse_safe|]. apply sat_ret. split; [done|]. intros Hc. apply ctx_insert_Forall; [|auto].
  by eapply ctx_parse_ok.
Qed.
Lemma sat_forceStringCtx r c s :
  ref_ok s r → sat (forceStringCtx cfg E r c) (λ _ x, no_nul x.1 ∧ (Forall elem_ok c → Forall elem_ok x.2)) s.
Proof.
  intros Hr. unfold forceStringCtx. sstep sat_forceString as [Hx Hc]; [done|done|]. destruct a as [x enc].
  spure sat_copyContext as Hc'; [done|]. by apply sat_ret.
Qed.

Lemma sat_concat_part c e sh env s : env_ok s sh env → bound N sh e → sat (concat_part E env c e) (λ _ _, True) s.
Proof.
  intros He Hb. unfold concat_part. sstep (ok_eval N E HE) as [Hv _]; [done|done|]. cbv zeta.
  assert (∀ b, sat ('(part, context) ← ev_coerce E (RVal a) (cs_context c) false b;
    mret (MkConcat false (if cs_first c then type a else cs_type c) (cs_n c) (cs_nf c) (cs_s c ++ [part]) context)) (λ _ _, True) s0) as Hco.
  { intros b. sstep (ok_coerce N E HE) as _; [done|]. destruct a0. by apply sat_ret. }
  destruct (if cs_first c then type a else cs_type c); try apply Hco; clear Hco.
  - destruct a; try sthrow; [destruct (checked _); [by apply sat_ret|sthrow]|by apply sat_ret].
  - destruct a; try sthrow; by apply sat_ret.
Qed.
Lemma sat_eval_ConcatStrings f es sh env s : env_ok s sh env → allP (bound N sh) es → sat (eval_ConcatStrings E f es env) wval s.
Proof.
  intros He Hb. apply allP_Forall in Hb. unfold eval_ConcatStrings.
  eapply (sat_bind _ _ (λ s' _, True)).
  - apply (sat_foldS _ (λ s' _ (_ : list Expr), True)); [done|]. intros s' x k c Hx (l1 & ->) _. up Hx.
    apply Forall_app in Hb as [_ Hb]. apply Forall_cons in Hb as [Hb _]. by eapply sat_concat_part.
  - intros s' c _ _. destruct (cs_type c); try (by apply sat_ret; first [done | apply mkString_ok]). destruct (cs_context c); [|sthrow].
    rewrite CanonPath_raw_spec. eapply sat_bind; [by apply (sat_lift (Ok _) (λ _ _, True))|]. intros. by apply sat_ret.
Qed.

(** * Coercion *)

Lemma sat_copyPathToStore c a p s : sat (copyPathToStore cfg c a p) (λ _ _, True) s.
Proof.
  unfold copyPathToStore. destruct (hasSuffix _ _); [sthrow|].
  eapply sat_bind; [by apply (sat_get _ (λ s' _, True))|]. intros s1 o _ _.
  eapply (sat_bind _ _ (λ _ _, True)); [|intros; by apply sat_ret]. destruct o as [q|]; [by apply sat_ret|].
  spure sat_safe as Ep; [by apply cfg_fetch|]. eapply sat_bind; [by apply sat_modify|]. intros. by apply sat_ret.
Qed.
Lemma sat_ref_addr r v s : ref_ok s r → vok N s v → sat (ref_addr r v) (λ s' a, aok s' a) s.
Proof. intros Hr Hv. destruct r; [by apply sat_allocValue|by apply sat_ret]. Qed.
Lemma sat_tryAttrsToString r b c b1 b2 s :
  ref_ok s r → attrs_ok s b → sat (tryAttrsToString E r b c b1 b2) (λ s' _, attrs_ok s' b) s.
Proof.
  intros Hr Hb. unfold tryAttrsToString. spure sat_attr_get as [-> Hj]; [done|]. destruct (attr_find _ _) as [f|]; [|by apply sat_ret].
  specialize (Hj _ eq_refl). sstep sat_ref_addr as Ha; [done|done|].
  eapply sat_bind; [apply ok_call; [done|done|by auto using Forall_cons_2, Forall_nil_2]|]. intros s2 v X2 [Hv _]. up X2.
  eapply sat_fmap; [by apply ok_coerce|]. intros s3 x X3 _. by up X3.
Qed.
Lemma sat_coerce_list l : ∀ c b1 b2 s, Forall (aok s) l → sat (coerce_list E l c b1 b2) (λ _ _, True) s.
Proof.
  induction l as [|a l IH]; intros c b1 b2 s Hl; cbn [coerce_list]; [by apply sat_ret|].
  pose proof Hl as Hl'. apply Forall_cons in Hl' as [Ha Hl'].
  sstep (ok_coerce N E HE) as _; [done|]. destruct a0 as [x c']. sstep sat_get_value as _; [done|]. cbv zeta.
  sstep IH as _; [done|]. destruct a1. by apply sat_ret.
Qed.
Lemma sat_coerceToString r c b1 b2 s : ref_ok s r → sat (coerceToString cfg E r c b1 b2) (λ _ _, True) s.
Proof.
  intros Hr. unfold coerceToString. sstep sat_forceValue as [Hv _]; [done|done|].
  destruct a; try (destruct b1; [|sthrow]); try sthrow; try (by apply sat_ret).
  - destruct b; by apply sat_ret.
  - spure sat_copyContext as _; [apply Hv|]. by apply sat_ret.
  - destruct b2; [|by apply sat_ret]. sstep sat_copyPathToStore as _. destruct a. by apply sat_ret.
  - sstep sat_tryAttrsToString as Hb; [done|done|]. destruct a as [x|]; [by apply sat_ret|].
    spure sat_attr_get as [-> Hj]; [done|]. destruct (attr_find _ _) as [f|]; [|sthrow]. apply ok_coerce; [done|]. by apply Hj.
  - by apply sat_coerce_list.
Qed.

(** * Deep evaluation *)

Lemma sat_deep_all {A} (f : A → addr) seen l s :
  Forall (λ x, aok s (f x)) l → sat (foldS (λ seen i, ev_deep E seen (RAddr (f i))) seen l) (λ _ _, True) s.
Proof.
  intros Hl. apply (sat_foldS _ (λ _ _ (_ : list A), True)); [done|]. intros s' x k b Hx (l1 & ->) _.
  apply Forall_app in Hl as [_ Hl]. apply Forall_cons in Hl as [Hl _]. up Hx. by apply ok_deep.
Qed.
Lemma sat_forceValueDeep seen r s : ref_ok s r → sat (forceValueDeep E seen r) (λ _ _, True) s.
Proof.
  intros Hr. unfold forceValueDeep.
  assert (∀ seen, sat (v ← forceValue E r;
    match v with
    | VAttrs b => foldS (λ seen (i : Attr), ev_deep E seen (RAddr i.2)) seen b
    | VList l => foldS (λ seen a, ev_deep E seen (RAddr a)) seen l
    | _ => mret seen
    end) (λ _ _, True) s) as H.
  { intros seen'. sstep sat_forceValue as [Hv _]; [done|done|]. destruct a; try (by apply sat_ret).
    - apply (sat_deep_all snd). destruct Hv as [_ Hv]. eapply Forall_impl; [exact Hv|]. naive_solver.
    - by apply (sat_deep_all id). }
  destruct r; cbn; [apply H|]. destruct (decide _); [by apply sat_ret|apply H].
Qed.

(** * Equality *)

Lemma sat_isDerivation v s : vok N s v → sat (isDerivation E v) (λ _ _, True) s.
Proof.
  intros Hv. destruct v; try (by apply sat_ret). cbn [isDerivation]. spure sat_attr_get as [-> Hj]; [done|].
  destruct (attr_find _ _) as [a|]; [|by apply sat_ret]. sstep sat_forceValue as _; [done|by apply Hj|]. by apply sat_ret.
Qed.
Lemma sat_out_paths b1 b2 s :
  attrs_ok s b1 → attrs_ok s b2 →
  sat (out_paths E b1 b2) (λ s' o, attrs_ok s' b1 ∧ attrs_ok s' b2 ∧ ∀ i j, o = Some (i, j) → aok s' i ∧ aok s' j) s.
Proof.
  intros H1 H2. unfold out_paths.
  eapply (sat_bind _ _ (λ s' _, attrs_ok s' b1 ∧ attrs_ok s' b2)).
  { unfold both_derivations. sstep sat_isDerivation as _; [done|]. destruct a; [|by apply sat_ret].
    eapply sat_mono; [by apply sat_isDerivation|]. intros s' d X _. up X. done. }
  intros s1 [] _ [K1 K2]; [|by apply sat_ret]. spure sat_attr_get as [-> Hi]; [done|]. spure sat_attr_get as [-> Hj]; [done|].
  apply sat_ret. split_and!; [done|done|]. intros i j. destruct (attr_find b1 _), (attr_find b2 _); try done.
  intros [= -> ->]. split; [by apply Hi|by apply Hj].
Qed.
Lemma sat_eq_lists l1 : ∀ l2 s,
  length l1 = length l2 → Forall (aok s) l1 → Forall (aok s) l2 → sat (eq_lists E l1 l2) (λ _ _, True) s.
Proof.
  induction l1 as [|a1 l1 IH]; intros [|a2 l2] s Hl H1 H2; cbn [eq_lists]; try done; [by apply sat_ret|].
  pose proof H1 as H1'. apply Forall_cons in H1' as [Ha1 H1']. pose proof H2 as H2'. apply Forall_cons in H2' as [Ha2 H2'].
  sstep (ok_eq N E HE) as _; [done|done|]. destruct a; [|by apply sat_ret]. apply IH; [by injection Hl|done|done].
Qed.
Lemma attrs_ok_cons s x b : attrs_ok s (x :: b) → aok s x.2 ∧ attrs_ok s b.
Proof. intros [H1 H2]. apply StronglySorted_inv in H1 as [H1 _]. inv H2. split; [tauto|done]. Qed.
Lemma sat_eq_attrs b1 : ∀ b2 s,
  length b1 = length b2 → attrs_ok s b1 → attrs_ok s b2 → sat (eq_attrs E b1 b2) (λ _ _, True) s.
Proof.
  induction b1 as [|i b1 IH]; intros [|j b2] s Hl H1 H2; cbn [eq_attrs]; try done; [by apply sat_ret|].
  apply attrs_ok_cons in H1 as [Ha1 H1]. apply attrs_ok_cons in H2 as [Ha2 H2].
  destruct (negb _); [by apply sat_ret|].
  sstep (ok_eq N E HE) as _; [done|done|]. destruct a; [|by apply sat_ret]. apply IH; [by injection Hl|done|done].
Qed.
Lemma sat_eqValues r1 r2 s : ref_ok s r1 → ref_ok s r2 → sat (eqValues E r1 r2) (λ _ _, True) s.
Proof.
  intros H1 H2. unfold eqValues. sstep sat_forceValue as [Hv1 Hw1]; [done|done|].
  sstep sat_forceValue as [Hv2 Hw2]; [done|done|]. destruct (ref_same _ _); [by apply sat_ret|].
  destruct a, a0; try (by apply sat_ret); try (by destruct Hw1).
  - sstep sat_out_paths as (Hb1 & Hb2 & Ho); [done|done|]. destruct a as [[i j]|].
    + destruct (Ho _ _ eq_refl). by apply ok_eq.
    + destruct (negb _) eqn:El; [by apply sat_ret|]. apply negb_false_iff, Nat.eqb_eq in El. by apply sat_eq_attrs.
  - destruct (negb _) eqn:El; [by apply sat_ret|]. apply negb_false_iff, Nat.eqb_eq in El. by apply sat_eq_lists.
Qed.

Lemma sat_neq {A} (Q : World → A → Prop) s : sat neq Q s.
Proof. sthrow. Qed.
Lemma sat_assertEq_lists l1 : ∀ l2 s,
  length l1 = length l2 → Forall (aok s) l1 → Forall (aok s) l2 → sat (assertEq_lists E l1 l2) (λ _ _, True) s.
Proof.
  induction l1 as [|a1 l1 IH]; intros [|a2 l2] s Hl H1 H2; cbn [assertEq_lists]; try done; [by apply sat_ret|].
  pose proof H1 as H1'. apply Forall_cons in H1' as [Ha1 H1']. pose proof H2 as H2'. apply Forall_cons in H2' as [Ha2 H2'].
  sstep (ok_assertEq N E HE) as _; [done|done|]. apply IH; [by injection Hl|done|done].
Qed.
(** Where two sets of the same size first differ in a name, one lacks it. *)
Lemma attr_find_between (pre : list Attr) i b name :
  sorted_syms (pre ++ i :: b).*1 → name ∉ pre.*1 → (name < i.1)%nat → attr_find (pre ++ i :: b) name = None.
Proof.
  intros Hs Hp Hlt. destruct (attr_find _ name) as [a|] eqn:Ea; [|done]. apply attr_find_Some in Ea. exfalso.
  rewrite fmap_app in Hs. apply sorted_syms_app in Hs as (_ & Hs & _). apply StronglySorted_inv in Hs as [_ Hs]. rewrite Forall_forall in Hs.
  apply elem_of_app in Ea as [Ea|Ea]; [by apply Hp, (list_elem_of_fmap_2 fst _ _ Ea)|].
  apply elem_of_cons in Ea as [<-|Ea]; [cbn in Hlt; lia|]. apply (list_elem_of_fmap_2 fst) in Ea. specialize (Hs _ Ea). cbn in Hs. lia.
Qed.
Lemma sorted_fresh (pre : list Attr) i b : sorted_syms (pre ++ i :: b).*1 → i.1 ∉ pre.*1.
Proof.
  rewrite fmap_app. intros (_ & _ & H)%sorted_syms_app Hin. specialize (H _ i.1 Hin). cbn in H. specialize (H (list_elem_of_here _ _)). lia.
Qed.
Lemma sat_assertEq_attrs b1 : ∀ b2 p1 p2 s,
  length b1 = length b2 → p1.*1 = p2.*1 → attrs_ok s (p1 ++ b1) → attrs_ok s (p2 ++ b2) →
  sat (assertEq_attrs E (p1 ++ b1) (p2 ++ b2) b1 b2) (λ _ _, True) s.
Proof.
  induction b1 as [|i b1 IH]; intros [|j b2] p1 p2 s Hl Hp H1 H2; cbn [assertEq_attrs]; try done; [by apply sat_ret|].
  eapply (sat_bind _ _ (λ s' _, s' = s ∧ i.1 = j.1)).
  - destruct (negb _) eqn:En; [|apply negb_false_iff, Nat.eqb_eq in En; by apply sat_ret].
    apply negb_true_iff, Nat.eqb_neq in En. pose proof (sorted_fresh _ _ _ (proj1 H1)) as F1. pose proof (sorted_fresh _ _ _ (proj1 H2)) as F2.
    spure sat_attr_get as [-> _]; [done|]. destruct (Nat.lt_ge_cases i.1 j.1).
    + rewrite attr_find_between; [apply sat_neq|apply H2|by rewrite <- Hp|done].
    + destruct (attr_find _ i.1); [|apply sat_neq]. spure sat_attr_get as [-> _]; [done|].
      rewrite attr_find_between; [apply sat_neq|apply H1|by rewrite Hp|lia].
  - intros s' [] _ [-> Eij]. assert (aok s i.2 ∧ aok s j.2) as [Hi Hj].
    { destruct H1 as [_ H1], H2 as [_ H2]. apply Forall_app in H1 as [_ H1]. apply Forall_app in H2 as [_ H2]. inv H1. inv H2. tauto. }
    sstep (ok_assertEq N E HE) as _; [done|done|]. rewrite (cons_middle i), (cons_middle j) in *. rewrite !(app_assoc _ [_]) in *.
    apply IH; [by injection Hl|by rewrite !fmap_app, Hp; cbn; rewrite Eij|done|done].
Qed.
Lemma sat_assertEqValues r1 r2 s : ref_ok s r1 → ref_ok s r2 → sat (assertEqValues E r1 r2) (λ _ _, True) s.
Proof.
  intros H1 H2. unfold assertEqValues. sstep sat_forceValue as [Hv1 Hw1]; [done|done|].
  sstep sat_forceValue as [Hv2 Hw2]; [done|done|]. destruct (ref_same _ _); [by apply sat_ret|].
  destruct (_ && _) eqn:En; [sstep (ok_eq N E HE) as _; [done|done|]; destruct a1; [by apply sat_ret|apply sat_neq]|].
  destruct (decide _) as [|Ht]; [apply sat_neq|]. apply dec_stable in Ht.
  destruct a, a0; try (by destruct Hw1); try done; try apply sat_neq; try (by apply sat_ret);
    try (case_match; first [by apply sat_ret | apply sat_neq]).
  - case_match; [apply sat_neq|]. case_match; first [by apply sat_ret | apply sat_neq].
  - sstep sat_out_paths as (Hb1 & Hb2 & Ho); [done|done|]. destruct a as [[i j]|].
    + destruct (Ho _ _ eq_refl). by apply ok_assertEq.
    + destruct (negb _) eqn:El; [apply sat_neq|]. apply negb_false_iff, Nat.eqb_eq in El. by apply (sat_assertEq_attrs _ _ [] []).
  - destruct (negb _) eqn:El; [apply sat_neq|]. apply negb_false_iff, Nat.eqb_eq in El. by apply sat_assertEq_lists.
Qed.

(** * Expressions *)

Lemma sat_eval e sh env s : env_ok s sh env → bound N sh e → sat (eval E e env) wval s.
Proof.
  intros He Hb. destruct e; cbn [eval]; try (by apply sat_ret).
  - apply sat_ret. split; [|done]. split; [apply c_str_no_nul|constructor].
  - by eapply sat_eval_Var.
  - by eapply sat_eval_Var.
  - by eapply sat_eval_Select.
  - by eapply sat_eval_OpHasAttr.
  - by eapply sat_eval_Attrs.
  - by eapply sat_eval_List.
  - apply sat_ret. split; [|done]. by exists sh.
  - by eapply sat_eval_Call.
  - by eapply sat_eval_Let.
  - destruct Hb. by eapply sat_eval_With.
  - destruct Hb as (Hc & Ht & Hel). unfold eval_If. sstep sat_evalBool as _; [done|done|done|]. destruct a; by eapply ok_eval.
  - destruct Hb. by eapply sat_eval_Assert.
  - eapply sat_fmap; [by eapply sat_evalBool|]. done.
  - destruct Hb. by eapply sat_eval_BinOp.
  - by eapply sat_eval_ConcatStrings.
Qed.
End data.
