(* ===== verification/PrimopsSets.v ===== *)
(** The primitive operations keep the state of the evaluator well-formed: types,
    comparison, errors and sets. *)

From S2P Require Import Prelude State Strings Lexical Sort Xp CanonPath StorePath DerivedPath Names Expr Value.
From S2P Require Import Eval Primops EvalInv EvalOk EvalOps EvalData.

Lemma elem_mid {A} (l k : list A) x : x ∈ l ++ x :: k.
Proof. apply elem_of_app. right. left. Qed.
Lemma two_args (args : list addr) : length args = 2%nat → ∃ a b, args = [a; b].
Proof. destruct args as [|a [|b [|]]]; try done. eauto. Qed.
Lemma one_arg (args : list addr) : length args = 1%nat → ∃ a, args = [a].
Proof. destruct args as [|a [|]]; try done. eauto. Qed.
Lemma three_args (args : list addr) : length args = 3%nat → ∃ a b c, args = [a; b; c].
Proof. destruct args as [|a [|b [|c [|]]]]; try done. eauto. Qed.

Lemma sat_arg N X {B} (args : list addr) i a (f : addr → EM B) Q s :
  args !! i = Some a → sat N X (f a) Q s → sat N X (arg args i ≫= f) Q s.
Proof. intros Hi Hf. eapply sat_step; [|exact Hf]. unfold arg. by rewrite Hi. Qed.
(** The arguments. *)
Ltac sargs := repeat (eapply sat_arg; [reflexivity|]; cbv beta).

Section prim.
Context (N : Prog) (cfg : Config) (HC : CfgOk cfg) (E : Evaluator) (HE : EvOk N E).
Abbreviation sat := (sat N []).
Abbreviation wval := (wval N).
Abbreviation ref_ok := (ref_ok N).

Lemma sat_getAttr b name s : attrs_ok s b → sat (getAttr b name) (λ s' a, s' = s ∧ aok s a) s.
Proof.
  intros Hb. unfold getAttr. spure sat_attr_get as [-> Hj]; [done|]. destruct (attr_find _ _) as [a|]; [|sthrow].
  apply sat_ret. split; [done|]. by apply Hj.
Qed.
Lemma sat_call1 f a s : aok s f → aok s a → sat (ev_call E (RAddr f) [a]) wval s.
Proof. intros Hf Ha. apply ok_call; [done|done|]. by auto using Forall_cons_2, Forall_nil_2. Qed.
Lemma sat_call2 f a b s : aok s f → aok s a → aok s b → sat (ev_call E (RAddr f) [a; b]) wval s.
Proof. intros Hf Ha Hb. apply ok_call; [done|done|]. by auto using Forall_cons_2, Forall_nil_2. Qed.
Lemma sat_force a s : aok s a → sat (forceValue E (RAddr a)) wval s.
Proof. intros Ha. by apply sat_forceValue. Qed.
Lemma sat_forces l s : Forall (aok s) l → sat (mapS (λ a, forceValue E (RAddr a)) l) (λ s' _, Forall (aok s') l) s.
Proof.
  intros Hl. eapply sat_mono; [apply (sat_mapS _ (λ _ _ _, True)); [done|]|].
  - intros s' x X' Hx. rewrite Forall_forall in Hl. apply Hl in Hx. up X'. eapply sat_mono; [by apply sat_force|done].
  - intros s' ys X' _. by up X'.
Qed.

(** * Types *)

Lemma sat_type_test t a s : aok s a → sat (type_test E t [a]) wval s.
Proof. intros Ha. unfold type_test. sargs. sstep sat_force as _; [done|]. by apply sat_ret. Qed.
Lemma wval_const s x : no_nul x → wval s (VString x []).
Proof. intros Hx. split; [|done]. split; [done|constructor]. Qed.
Lemma no_nul_dec x : forallb (λ c, negb (bool_decide (c = NUL))) x = true → no_nul x.
Proof.
  intros H Hx. rewrite forallb_forall in H. apply list_elem_of_In in Hx. specialize (H _ Hx). by rewrite bool_decide_eq_true_2 in H.
Qed.
Lemma sat_typeOf a s : aok s a → sat (prim_typeOf E [a]) wval s.
Proof.
  intros Ha. unfold prim_typeOf. sargs. sstep sat_force as [_ Hw]; [done|].
  destruct (type a0) eqn:Et; try (by apply sat_ret, wval_const, no_nul_dec). by destruct Hw.
Qed.

(** * Comparison *)

Lemma sat_compare_lists l1 : ∀ l2 s, Forall (aok s) l1 → Forall (aok s) l2 → sat (compare_lists E l1 l2) (λ _ _, True) s.
Proof.
  induction l1 as [|a1 l1 IH]; intros [|a2 l2] s H1 H2; cbn [compare_lists]; try (by apply sat_ret).
  pose proof H1 as H1'. apply Forall_cons in H1' as [Ha1 H1']. pose proof H2 as H2'. apply Forall_cons in H2' as [Ha2 H2'].
  sstep (ok_eq N E HE) as _; [done|done|]. destruct a; [by apply IH|by apply ok_compare].
Qed.
Lemma sat_CompareValues a b s : aok s a → aok s b → sat (CompareValues E a b) (λ _ _, True) s.
Proof.
  intros Ha Hb. unfold CompareValues. sstep sat_get_value as Hv1; [done|]. sstep sat_get_value as Hv2; [done|].
  destruct a0, a1; try sthrow; try (by apply sat_ret). by apply sat_compare_lists.
Qed.
Lemma sat_lessThan a b s : aok s a → aok s b → sat (prim_lessThan E [a; b]) wval s.
Proof.
  intros Ha Hb. unfold prim_lessThan. sargs. sstep sat_force as _; [done|]. sstep sat_force as _; [done|].
  eapply sat_fmap; [by apply sat_CompareValues|done].
Qed.

(** * Closures *)

Lemma sat_key_insert x l : ∀ s, aok s x → Forall (aok s) l → sat (key_insert E x l) (λ s' r, Forall (aok s') r.2) s.
Proof.
  induction l as [|y l IH]; intros s Hx Hl; cbn [key_insert]; [apply sat_ret; cbn; by auto using Forall_cons_2, Forall_nil_2|].
  pose proof Hl as Hl'. apply Forall_cons in Hl' as [Hy Hl'].
  sstep sat_CompareValues as _; [done|done|]. destruct a.
  - sstep IH as Hr; [done|done|]. destruct a as [ins l']. apply sat_ret. by constructor.
  - sstep sat_CompareValues as _; [done|done|]. apply sat_ret. destruct a; [by constructor|done].
Qed.
Lemma sat_closure_loop op ws keys res s :
  aok s op → Forall (aok s) ws → Forall (aok s) keys → Forall (aok s) res → sat (closure_loop E op ws keys res) (λ s' l, Forall (aok s') l) s.
Proof.
  intros Hop Hws Hk Hres. unfold closure_loop. destruct ws as [|e ws]; [by apply sat_ret|].
  pose proof Hws as Hws'. apply Forall_cons in Hws' as [He Hws'].
  sstep sat_forceAttrs as Hb; [done|done|]. spure sat_getAttr as Hkey; [done|]. sstep sat_force as _; [done|].
  sstep sat_key_insert as Hk'; [done|done|]. destruct a2 as [ins keys']. destruct (negb ins); [by apply ok_closure|].
  sstep sat_call1 as Hv; [done|done|]. sstep sat_forceList as Hl; [done|apply Hv|]. sstep sat_forces as Hl'; [done|].
  apply ok_closure; [done|done|by apply Forall_app|done|]. apply Forall_app. by auto using Forall_cons_2, Forall_nil_2.
Qed.
Lemma sat_genericClosure a s : aok s a → sat (prim_genericClosure E [a]) wval s.
Proof.
  intros Ha. unfold prim_genericClosure. sargs. sstep sat_forceAttrs as Hb; [done|done|]. spure sat_getAttr as Hst; [done|].
  sstep sat_forceList as Hl; [done|done|]. destruct a2 as [|x ws]; [by apply sat_ret; split; [constructor|]|].
  spure sat_getAttr as Hop; [done|]. sstep sat_forceFunction as _; [done|done|].
  eapply sat_fmap; [apply ok_closure; [done|done|done|constructor|constructor]|]. intros s' l _ H. by split.
Qed.

(** * Errors *)

Lemma sat_coerce a c b1 b2 s : aok s a → sat (ev_coerce E (RAddr a) c b1 b2) (λ _ _, True) s.
Proof. intros Ha. by apply ok_coerce. Qed.
Lemma sat_abort a s : aok s a → sat (prim_abort E [a]) wval s.
Proof. intros Ha. unfold prim_abort. sargs. sstep sat_coerce as _; [done|]. destruct a0. sthrow. Qed.
Lemma sat_throw_op a s : aok s a → sat (prim_throw E [a]) wval s.
Proof. intros Ha. unfold prim_throw. sargs. sstep sat_coerce as _; [done|]. destruct a0. sthrow. Qed.
Lemma sat_addErrorContext a b s : aok s a → aok s b → sat (prim_addErrorContext E [a; b]) wval s.
Proof.
  intros Ha Hb. unfold prim_addErrorContext. sargs. apply sat_catch; [by apply sat_force|]. intros s' e k X He.
  destruct (is_Error e); [|done]. intros [= <-]. up X. sstep sat_coerce as _; [done|]. by apply sat_rethrow.
Qed.
Lemma sat_seq a b s : aok s a → aok s b → sat (prim_seq E [a; b]) wval s.
Proof. intros Ha Hb. unfold prim_seq. sargs. sstep sat_force as _; [done|]. by apply sat_force. Qed.
Lemma sat_deepSeq a b s : aok s a → aok s b → sat (prim_deepSeq E [a; b]) wval s.
Proof. intros Ha Hb. unfold prim_deepSeq. sargs. sstep (ok_deep N E HE) as _; [done|]. by apply sat_force. Qed.

(** * Building sets *)

Lemma sat_new n s : sat (buildBindings n) (λ s' b, s' = s ∧ building s b n []) s.
Proof. eapply sat_mono; [apply sat_buildBindings|]. intros s' b _ [-> ->]. by split_and!. Qed.
Lemma sat_add b n l x a s :
  building s b n l → (length l < n)%nat → sym_ok s x → aok s a → sat (push_back b (x, a)) (λ s' b', s' = s ∧ building s b' n (l ++ [x])) s.
Proof.
  intros (H1 & H2 & H3) Hl Hx Ha. eapply sat_mono; [apply sat_push_back|].
  - rewrite H1. by rewrite <- (length_fmap fst), H2.
  - intros s' b' _ [-> ->]. split; [done|]. split_and!; [done|by rewrite <- H2; cbn; rewrite fmap_app|].
    apply Forall_app. split; [done|]. by apply Forall_singleton.
Qed.
Lemma sat_alloc_attr b n l x v s :
  building s b n l → (length l < n)%nat → sym_ok s x → vok N s v → sat (alloc_attr b x v) (λ s' b', building s' b' n (l ++ [x])) s.
Proof.
  intros Hb Hl Hx Hv. unfold alloc_attr. eapply sat_bind; [by apply sat_allocValue|]. intros s' a X Ha. up X. eapply sat_mono; [by apply sat_add|]. intros s2 b' _ [-> H]. done.
Qed.
Lemma sat_finish_b b n l s : building s b n l → NoDup l → sat (finish b) wval s.
Proof. intros (H1 & H2 & H3) Hl. apply sat_finish; [by rewrite H2|done]. Qed.
Lemma sat_sorted_b b n l s : building s b n l → sorted_syms l → sat (alreadySorted b) wval s.
Proof. intros (H1 & H2 & H3) Hl. apply sat_alreadySorted. split; [by rewrite H2|done]. Qed.

(** The symbols that are always there. *)
Lemma sym_initial s i x : Inv N s → initial_symbols !! i = Some x → sym_ok s (S i) ∧ symbol_str (symbols s) (S i) = Some x.
Proof.
  intros HI Hi. destruct (inv_symbols _ _ HI) as (t & Et). cbn. rewrite Et. split.
  - apply lookup_lt_Some in Hi. unfold sym_ok. rewrite Et, length_app. lia.
  - by apply lookup_app_l_Some.
Qed.
Lemma sat_static {A} i x (m : EM A) Q s :
  initial_symbols !! i = Some x → (sym_ok s (S i) → symbol_str (symbols s) (S i) = Some x → sat m Q s) → sat m Q s.
Proof. intros Hi Hm. apply sat_inv. intros HI. destruct (sym_initial s i x HI Hi). auto. Qed.
Lemma sat_tryEval a s : aok s a → sat (prim_tryEval E [a]) wval s.
Proof.
  intros Ha. unfold prim_tryEval. sargs. spure sat_new as Hb.
  eapply (sat_bind _ _ (λ s' _, True)).
  { apply sat_catch.
    - sstep sat_force as _; [done|]. by apply sat_ret.
    - intros s' e k X He. destruct (is_AssertionError e); [|done]. intros [= <-]. by apply sat_ret. }
  intros s1 ok X1 _. up X1.
  apply (sat_static 6 "value"%str); [done|]. intros Hsym Hstr.
  eapply (sat_bind _ _ (λ s' b, building s' b 2 [sValue])).
  { destruct ok; [eapply sat_mono; [by apply (sat_add _ 2 []); [..|cbn; lia| |]|naive_solver]|].
    by apply (sat_alloc_attr _ 2 []); [..|cbn; lia| |]. }
  intros s2 b X2 Hb2. up X2.
  eapply sat_bind; [by apply sat_createSymbol, no_nul_dec|]. intros s3 y X3 [Hy Hys].
  up X3.
  eapply sat_bind; [by apply (sat_alloc_attr _ 2 [sValue]); [..|cbn; lia| |]|]. intros s4 b' X4 Hb4.
  eapply sat_finish_b; [exact Hb4|]. cbn. apply NoDup_cons. split; [|by apply NoDup_singleton].
  intros Ey%list_elem_of_singleton. subst y. unfold sValue in Hys. congruence.
Qed.

(** * Names of attributes *)

Lemma key_sort_insert_perm {A} (key : A → str) x l : key_sort_insert key x l ≡ₚ x :: l.
Proof. induction l as [|y l IH]; cbn; [done|]. destruct (str_ltb _ _); [done|]. rewrite IH. apply perm_swap. Qed.
Lemma sat_sort_by {A} (key : A → str) l s : NoDup (key <$> l) → sat (sort_by key l) (λ s' l', s' = s ∧ l' ≡ₚ l) s.
Proof.
  intros Hl. unfold sort_by. rewrite decide_True by done. apply sat_ret. split; [done|].
  clear Hl. induction l as [|x l IH]; cbn; [done|]. by rewrite key_sort_insert_perm, IH.
Qed.
(** Different symbols have different names. *)
Lemma names_NoDup {A B} (t : SymbolTable) (k : A → Symbol) (g : B → str) l ys :
  NoDup t → NoDup (k <$> l) → Forall2 (λ x y, symbol_str t (k x) = Some (g y)) l ys → NoDup (g <$> ys).
Proof.
  intros Ht Hl HF. induction HF as [|x y l ys Hxy HF IH]; [constructor|]. cbn in Hl |- *. apply NoDup_cons in Hl as [Hx Hl].
  constructor; [|auto]. intros Hin. apply Hx. clear -Hin HF Hxy Ht. induction HF as [|x' y' l ys Hxy' HF IH]; cbn in *.
  - by apply elem_of_nil in Hin.
  - apply elem_of_cons in Hin as [Eq|Hin]; [|right; auto]. rewrite Eq in Hxy. rewrite (symbol_str_inj t _ _ _ Ht Hxy Hxy'). left.
Qed.
Lemma c_str_id x : no_nul x → c_str x = x.
Proof.
  unfold no_nul. intros H. unfold c_str. destruct (find_idx _ x) as [n|] eqn:En; [|done]. exfalso. revert n En.
  induction x as [|c x IH]; cbn; [done|]. intros n. case_bool_decide as Hc; [subst; intros _; apply H; left|].
  destruct (find_idx _ x) as [m|]; [|done]. intros _. eapply IH; [|done]. intros Hn. apply H. by right.
Qed.
Lemma attrs_ok_in s b i : attrs_ok s b → i ∈ b → sym_ok s i.1 ∧ aok s i.2.
Proof. intros [_ H] Hi. rewrite Forall_forall in H. auto. Qed.
Lemma attrs_ok_NoDup s b : attrs_ok s b → NoDup b.*1.
Proof. intros [H _]. by apply sorted_syms_NoDup. Qed.

Lemma sat_symbol_names {B} (f : str → Attr → B) (g : B → str) b s :
  attrs_ok s b → (∀ y i, no_nul y → g (f y i) = y) →
  sat (mapS (λ i : Attr, y ← symbolStr i.1; mret (f y i)) b)
    (λ s' ys, NoDup (g <$> ys) ∧ Forall2 (λ i z, ∃ y, z = f y i ∧ no_nul y ∧ aok s' i.2) b ys) s.
Proof.
  intros Hb Hg. eapply sat_bind_post.
  - apply (sat_mapS _ (λ s' i z, ∃ y, z = f y i ∧ no_nul y ∧ aok s' i.2 ∧ symbol_str (symbols s') i.1 = Some y)).
    + intros s1 s2 i z X (y & -> & H1 & H2 & H3). exists y. split_and!; [done|done|by apply (aok_mono _ _ _ X)|by eapply symbol_str_ext].
    + intros s1 i X Hi. up X. destruct (attrs_ok_in _ _ _ Hb Hi) as [Hsym Ha].
      spure sat_symbolStr as [Hs Hn]; [done|]. apply sat_ret. by exists a.
  - intros s' ys X HI HF. split.
    + eapply (names_NoDup (symbols s') fst); [apply HI|by eapply attrs_ok_NoDup|]. eapply Forall2_impl; [exact HF|].
      intros i z (y & -> & Hn & _ & Hs). by rewrite Hg.
    + eapply Forall2_impl; [exact HF|]. naive_solver.
Qed.
Lemma sat_attrNames a s : aok s a → sat (prim_attrNames E [a]) wval s.
Proof.
  intros Ha. unfold prim_attrNames. sargs. sstep sat_forceAttrs as Hb; [done|done|].
  sstep (sat_symbol_names (λ y _, c_str y) id) as [Hn HF]; [done|by intros; apply c_str_id|].
  spure sat_sort_by as Hp; [done|].
  eapply sat_fmap; [apply (sat_mapS _ (λ s' _ a, aok s' a))|].
  - intros u1 u2 _ x X. apply (aok_mono _ _ _ X).
  - intros u1 x X Hx. apply sat_allocValue. rewrite Hp in Hx. split; [|constructor].
    apply list_elem_of_lookup in Hx as (j & Hj). destruct (Forall2_lookup_r _ _ _ _ _ HF Hj) as (i & _ & y & -> & Hy & _). apply c_str_no_nul.
  - intros u1 l X HF2. split; [|done]. by apply (Forall2_aok _ _ _ HF2).
Qed.
Lemma sat_attrValues a s : aok s a → sat (prim_attrValues E [a]) wval s.
Proof.
  intros Ha. unfold prim_attrValues. sargs. sstep sat_forceAttrs as Hb; [done|done|].
  sstep (sat_symbol_names (λ y i, (y, i.2)) fst) as [Hn HF]; [done|done|].
  spure sat_sort_by as Hp; [done|]. apply sat_ret. split; [|done]. cbn. rewrite Hp. apply Forall_fmap, Forall_forall. intros x Hx.
  apply list_elem_of_lookup in Hx as (j & Hj). destruct (Forall2_lookup_r _ _ _ _ _ HF Hj) as (i & _ & y & -> & _ & Hy). done.
Qed.
Lemma sat_prim_getAttr a b s : aok s a → aok s b → sat (prim_getAttr E [a; b]) wval s.
Proof.
  intros Ha Hb. unfold prim_getAttr. sargs. sstep sat_forceStringNoCtx as Hx; [done|done|]. sstep sat_forceAttrs as Hat; [done|done|].
  sstep sat_createSymbol as _; [done|]. spure sat_getAttr as Hi; [done|]. by apply sat_force.
Qed.
Lemma sat_prim_hasAttr a b s : aok s a → aok s b → sat (prim_hasAttr E [a; b]) wval s.
Proof.
  intros Ha Hb. unfold prim_hasAttr. sargs. sstep sat_forceStringNoCtx as Hx; [done|done|]. sstep sat_forceAttrs as Hat; [done|done|].
  sstep sat_createSymbol as _; [done|]. spure sat_attr_get as _; [done|]. by apply sat_ret.
Qed.

(** * Sets from sets *)

Lemma sublist_sorted l k : l `sublist_of` k → sorted_syms k → sorted_syms l.
Proof.
  unfold sorted_syms. induction 1 as [|x l k Hs IH|x l k Hs IH]; [done| |]; intros H; apply StronglySorted_inv in H as [H1 H2]; [|auto].
  constructor; [auto|]. rewrite Forall_forall in H2 |- *. intros y Hy. apply H2. by eapply elem_of_sublist.
Qed.
Lemma attrs_ok_sublist s l b : l `sublist_of` b → attrs_ok s b → attrs_ok s l.
Proof.
  intros Hl [H1 H2]. split; [eapply sublist_sorted; [|exact H1]; by apply (fmap_sublist fst)|].
  rewrite Forall_forall in H2 |- *. intros x Hx. apply H2. by eapply elem_of_sublist.
Qed.
Lemma set_difference_sub l : ∀ k, set_difference l k `sublist_of` l.
Proof.
  induction l as [|x l IHl]; intros k; [destruct k; constructor|]. induction k as [|y k IHk]; [cbn; done|]. cbn [set_difference].
  destruct (x.1 <? y)%nat; [by apply sublist_skip|]. destruct (y <? x.1)%nat; [done|]. by apply sublist_cons.
Qed.
Lemma sat_removeAttrs a b s : aok s a → aok s b → sat (prim_removeAttrs E [a; b]) wval s.
Proof.
  intros Ha Hb. unfold prim_removeAttrs. sargs. sstep sat_forceAttrs as Hat; [done|done|]. sstep sat_forceList as Hl; [done|done|].
  eapply sat_bind; [apply (sat_mapS _ (λ _ _ _, True)); [done|]|].
  { intros u1 x X Hx. rewrite Forall_forall in Hl. apply Hl in Hx. up X. sstep sat_forceStringNoCtx as Hs; [done|done|].
    eapply sat_mono; [by apply sat_createSymbol|done]. }
  intros s2 names X2 _. up X2. cbv zeta. pose proof (set_difference_sub a0 (foldr sym_insert [] names)) as Hsub.
  spure sat_buildBindings as ->. spure sat_push_all as ->; [cbn; by apply sublist_length|].
  apply sat_alreadySorted. cbn. by eapply attrs_ok_sublist.
Qed.

Lemma sat_listToAttrs a s : aok s a → sat (prim_listToAttrs E [a]) wval s.
Proof.
  intros Ha. unfold prim_listToAttrs. sargs. sstep sat_forceList as Hl; [done|done|]. spure sat_new as Hb.
  eapply (sat_bind _ _ (λ s' r, ∃ names, building s' r.1 (length a0) names ∧ NoDup names)).
  2:{ intros s1 r X1 (names & Hr & Hn). by eapply sat_finish_b. }
  eapply sat_mono; [apply (sat_foldS _ (λ s' r k, ∃ names, building s' r.1 (length a0) names ∧ NoDup names ∧ r.2 ≡ₚ names ∧
    (length names + length k ≤ length a0)%nat))|].
  - exists []. by split_and!; [|constructor| |].
  - intros s1 x k [b seen] X1 (l1 & El) (names & Hbd & Hn & Hseen & Hlen). cbn [fst snd] in *.
    assert (aok s1 x) as Hx by (rewrite Forall_forall in Hl; apply (aok_mono _ _ _ X1), Hl; set_solver). clear X1.
    sstep sat_forceAttrs as Hp; [done|done|]. spure sat_getAttr as Hj; [done|]. sstep sat_forceStringNoCtx as Hname; [done|done|].
    sstep sat_createSymbol as [Hsym _]; [done|]. rename a5 into sym.
    destruct (decide _) as [Hin|Hin]; [apply sat_ret; exists names; split_and!; try done; cbn in Hlen; lia|].
    spure sat_getAttr as Hv; [done|]. spure sat_add as Hb'; [done|cbn in Hlen; lia|done|done|]. apply sat_ret.
    exists (names ++ [sym]). cbn [fst snd]. split_and!; [done| |by rewrite Hseen, Permutation_app_comm|rewrite length_app; cbn in *; lia].
    apply NoDup_app. split_and!; [done| |apply NoDup_singleton]. intros y Hy ->%list_elem_of_singleton. apply Hin. by rewrite Hseen.
  - naive_solver.
Qed.

(** One side of an intersection: the attributes of [l] that the other set has. *)
Lemma sat_intersect (g : Attr → EM (option addr)) l n b s :
  building s b n [] → (length l ≤ n)%nat → attrs_ok s l →
  (∀ x, x ∈ l → sat (g x) (λ s' o, s' = s ∧ ∀ v, o = Some v → aok s v) s) →
  sat (foldS (λ b (x : Attr), o ← g x; match o with Some v => push_back b (x.1, v) | None => mret b end) b l)
    (λ s' b', s' = s ∧ ∃ names, building s b' n names ∧ names `sublist_of` l.*1) s.
Proof.
  intros Hb Hn Hl Hg.
  eapply sat_mono; [apply (sat_foldS _ (λ s' b' k, s' = s ∧ ∃ names l1, building s b' n names ∧ l = l1 ++ k ∧ names `sublist_of` l1.*1))|].
  - split; [done|]. exists [], []. by split_and!.
  - intros s' x k b' _ (l2 & El) (-> & names & l1 & Hb' & El' & Hsub). assert (x ∈ l) as Hx by set_solver.
    spure Hg as Hv; [done|]. pose proof (sublist_length _ _ Hsub) as Hlen. rewrite length_fmap in Hlen.
    assert (l = (l1 ++ [x]) ++ k) as El'' by (by rewrite <- app_assoc). destruct (attrs_ok_in _ _ _ Hl Hx).
    assert (length l1 < length l)%nat by (rewrite El', length_app; cbn; lia). destruct a as [v|].
    + eapply sat_mono; [apply sat_add; [done|lia|done|by apply Hv]|]. intros s2 b2 _ [-> Hb2]. split; [done|].
      exists (names ++ [x.1]), (l1 ++ [x]). split_and!; [done|done|]. rewrite fmap_app. by apply sublist_app.
    + apply sat_ret. split; [done|]. exists names, (l1 ++ [x]). split_and!; [done|done|]. rewrite fmap_app. by apply sublist_inserts_r.
  - intros s' b' _ (-> & names & l1 & H1 & El & H2). rewrite app_nil_r in El. subst l1. eauto.
Qed.
Lemma foldS_ext {S A B} (f g : B → A → StE S B) b l (s : S) : (∀ b x s, f b x s = g b x s) → foldS f b l s = foldS g b l s.
Proof. intros H. revert b s. induction l as [|x l IH]; intros b s; cbn [foldS]; [done|]. unfold mbind, StE_bind. rewrite H. by destruct (g b x s) as [[]]. Qed.
Lemma sat_intersectAttrs a b s : aok s a → aok s b → sat (prim_intersectAttrs E [a; b]) wval s.
Proof.
  intros Ha Hb. unfold prim_intersectAttrs. sargs. sstep sat_forceAttrs as Hl; [done|done|]. sstep sat_forceAttrs as Hr; [done|done|].
  spure sat_new as Hn. destruct (_ <? _)%nat eqn:El.
  - apply Nat.ltb_lt in El. rewrite Nat.min_l in Hn by lia.
    eapply sat_bind; [apply (sat_intersect (λ l : Attr, attr_get a1 l.1)); [done|lia|done|]|].
    + intros x Hx. eapply sat_mono; [by apply sat_attr_get|]. naive_solver.
    + intros s' b' _ (-> & names & Hb' & Hsub). eapply sat_sorted_b; [done|]. eapply sublist_sorted; [done|apply Hl].
  - apply Nat.ltb_ge in El. rewrite Nat.min_r in Hn by lia.
    eapply sat_bind; [eapply (sat_ext (foldS (λ b (x : Attr), o ← (l ← attr_get a0 x.1; mret ((λ _, x.2) <$> l)); match o with Some v => push_back b (x.1, v) | None => mret b end) a2 a1))|].
    + apply foldS_ext. intros b' x s'. unfold mbind, StE_bind. destruct (attr_get a0 x.1 s') as [[[v|]|e] s3]; try done. by destruct x.
    + apply (sat_intersect (λ x : Attr, l ← attr_get a0 x.1; mret ((λ _, x.2) <$> l))); [done|lia|done|].
      intros x Hx. spure sat_attr_get as [-> _]; [done|]. apply sat_ret. split; [done|].
      destruct (attrs_ok_in _ _ _ Hr Hx). destruct (attr_find _ _); cbn; [|done]. by intros v [= <-].
    + intros s' b' _ (-> & names & Hb' & Hsub). eapply sat_sorted_b; [done|]. eapply sublist_sorted; [done|apply Hr].
Qed.

Lemma sat_catAttrs a b s : aok s a → aok s b → sat (prim_catAttrs E [a; b]) wval s.
Proof.
  intros Ha Hb. unfold prim_catAttrs. sargs. sstep sat_forceStringNoCtx as Hx; [done|done|]. sstep sat_createSymbol as _; [done|].
  sstep sat_forceList as Hl; [done|done|].
  eapply sat_bind; [apply (sat_mapS _ (λ s' _ o, ∀ v, o = Some v → aok s' v))|].
  - intros u1 u2 _ o X H v Hv. apply (aok_mono _ _ _ X). auto.
  - intros u1 x X Hin. rewrite Forall_forall in Hl. apply Hl in Hin. up X. sstep sat_forceAttrs as Hat; [done|done|].
    eapply sat_mono; [by apply sat_attr_get|]. intros u2 o _ (-> & -> & H). done.
  - intros u1 os X HF. apply sat_ret. split; [|done]. cbn. clear -HF. induction HF as [|x o l os H HF IH]; cbn; [constructor|].
    destruct o; cbn; [|done]. constructor; [by apply H|done].
Qed.

(** A set with one attribute for each element of a list. *)
Lemma sat_build_all {A} (f : Builder → A → EM Builder) (key : A → Symbol) l n b s :
  building s b n [] → (length l ≤ n)%nat →
  (∀ s' b' names x, ext [] s s' → x ∈ l → building s' b' n names → (length names < n)%nat →
    sat (f b' x) (λ s'' b'', building s'' b'' n (names ++ [key x])) s') →
  sat (foldS f b l) (λ s' b', building s' b' n (key <$> l)) s.
Proof using Type.
  intros Hb Hn Hf. eapply sat_mono; [apply (sat_foldS _ (λ s' b' k, ∃ l1, building s' b' n (key <$> l1) ∧ l = l1 ++ k))|].
  - by exists [].
  - intros s' x k b' X (l2 & El) (l1 & Hb' & El1). assert (length l1 < length l)%nat by (rewrite El1, length_app; cbn; lia).
    eapply sat_mono; [apply Hf; [done|rewrite El; apply elem_mid|done|rewrite length_fmap; lia]|]. intros s2 b2 _ Hb2. exists (l1 ++ [x]).
    rewrite fmap_app, <- app_assoc. done.
  - intros s' b' _ (l1 & Hb' & ->). by rewrite app_nil_r.
Qed.
Lemma sat_functionArgs a s : aok s a → sat (prim_functionArgs E [a]) wval s.
Proof.
  intros Ha. unfold prim_functionArgs. sargs. sstep sat_force as [Hv _]; [done|].
  assert (wval s0 (VAttrs [])) as Hnil by (split; [split; constructor|done]).
  destruct a0 as [| | | | | | | | | | |env x fs body| |]; try sthrow; try (by apply sat_ret).
  destruct fs as [f|]; [|by apply sat_ret]. destruct Hv as (sh & _ & [[[Hs Hr] _] _] & _). apply sat_inv. intros HI.
  pose proof (inv_parsed _ _ HI) as HN. spure sat_new as Hb.
  eapply sat_bind; [apply (sat_build_all _ fst); [done|done|]|].
  - intros s' b' names y X Hy Hb' Hlen. apply sat_alloc_attr; [done|done| |done]. apply (sym_ok_mono _ _ _ X).
    rewrite Forall_forall in Hr. specialize (Hr _ (list_elem_of_fmap_2 fst _ _ Hy)). unfold sym_ok. lia.
  - intros s' b' X Hb'. eapply sat_sorted_b; [exact Hb'|exact Hs].
Qed.
Lemma sat_symbolValue x s : sym_ok s x → sat (symbolValue x) wval s.
Proof. intros Hx. unfold symbolValue. spure sat_symbolStr as [_ Hn]; [done|]. apply sat_ret, wval_const, c_str_no_nul. Qed.
Lemma sat_mapAttrs a b s : aok s a → aok s b → sat (prim_mapAttrs E [a; b]) wval s.
Proof.
  intros Ha Hb. unfold prim_mapAttrs. sargs. sstep sat_forceAttrs as Hat; [done|done|]. spure sat_new as Hb'.
  eapply sat_bind; [apply (sat_build_all _ fst); [done|done|]|].
  - intros s' b' names i X Hi Hbd Hlen. destruct (attrs_ok_in _ _ _ Hat Hi) as [Hsym Hi2]. up X.
    sstep sat_symbolValue as [Hn _]; [done|]. sstep sat_allocValue as H1; [done|]. sstep sat_allocValue as H2; [done|].
    by apply sat_alloc_attr.
  - intros s' b' X Hbd. eapply sat_sorted_b; [exact Hbd|]. apply Hat.
Qed.

(** Maps from names to lists of values. *)
Definition multi_ok (s : World) (m : list (Symbol * list addr)) : Prop :=
  sorted_syms m.*1 ∧ Forall (λ x : Symbol * list addr, sym_ok s x.1 ∧ Forall (aok s) x.2) m.
Lemma multi_ok_mono X s s' m : ext X s s' → multi_ok s m → multi_ok s' m.
Proof.
  intros Hx [H1 H2]. split; [done|]. eapply Forall_impl; [exact H2|]. intros x [Ha Hb].
  split; [by apply (sym_ok_mono _ _ _ Hx)|by apply (Forall_aok_mono _ _ _ Hx)].
Qed.
Lemma multi_add_names x v m y : y ∈ (multi_add x v m).*1 → y = x ∨ y ∈ m.*1.
Proof.
  induction m as [|[z l] m IH]; cbn [multi_add]; [intros ->%list_elem_of_singleton; by left|].
  destruct (x <? z)%nat, (x =? z)%nat; rewrite !fmap_cons, !elem_of_cons; cbn [fst]; tauto.
Qed.
Lemma multi_add_ok s x v m : sym_ok s x → aok s v → multi_ok s m → multi_ok s (multi_add x v m).
Proof.
  intros Hx Hv [H1 H2]. unfold multi_ok, sorted_syms in *. induction m as [|[z l] m IH]; cbn [multi_add fmap list_fmap fst] in *.
  - split; [by repeat constructor|]. constructor; [|done]. split; [done|by apply Forall_singleton].
  - pose proof H1 as H1'. pose proof H2 as H2'. apply StronglySorted_inv in H1' as [S1 S2]. apply Forall_cons in H2' as [[F1 F2] F3].
    destruct (x <? z)%nat eqn:El; cbn [fmap list_fmap fst].
    + apply Nat.ltb_lt in El. split; [|constructor; [split; [done|by apply Forall_singleton]|done]]. constructor; [done|]. constructor; [done|]. by eapply Forall_lt_weaken.
    + apply Nat.ltb_ge in El. destruct (x =? z)%nat eqn:Ee; cbn [fmap list_fmap fst].
      * split; [done|]. constructor; [|done]. split; [done|]. apply Forall_app. split; [done|by apply Forall_singleton].
      * apply Nat.eqb_neq in Ee. destruct (IH S1 F3) as [I1 I2]. split; [|by constructor]. constructor; [done|].
        rewrite Forall_forall in S2 |- *. intros y Hy. apply multi_add_names in Hy as [->|Hy]; [lia|auto].
Qed.
Lemma multi_adds_ok s l : ∀ m, Forall (λ i : Attr, sym_ok s i.1 ∧ aok s i.2) l → multi_ok s m →
  multi_ok s (foldl (λ m (i : Attr), multi_add i.1 i.2 m) m l).
Proof.
  induction l as [|i l IH]; intros m Hl Hm; cbn; [done|]. apply Forall_cons in Hl as [[H1 H2] Hl]. apply IH; [done|]. by apply multi_add_ok.
Qed.
Lemma multi_ok_in s m i : multi_ok s m → i ∈ m → sym_ok s i.1 ∧ Forall (aok s) i.2.
Proof. intros [_ H] Hi. rewrite Forall_forall in H. auto. Qed.
Lemma multi_ok_nil s : multi_ok s [].
Proof. split; constructor. Qed.

Lemma sat_zipAttrsWith a b s : aok s a → aok s b → sat (prim_zipAttrsWith E [a; b]) wval s.
Proof.
  intros Ha Hb. unfold prim_zipAttrsWith. sargs. sstep sat_forceFunction as _; [done|done|]. sstep sat_forceList as Hl; [done|done|].
  eapply sat_bind; [apply (sat_mapS _ (λ s' _ b, attrs_ok s' b))|].
  - intros u1 u2 _ b' X. apply (attrs_ok_mono _ _ _ X).
  - intros u1 x X Hx. rewrite Forall_forall in Hl. apply Hl in Hx. up X. by apply sat_forceAttrs.
  - intros s2 sets X HF. up X. clear X. cbv zeta. set (m := foldl _ _ _). assert (multi_ok s2 m) as Hm.
    { apply multi_adds_ok; [|apply multi_ok_nil]. clear -HF. induction HF as [|x b' l sets [_ H] HF IH]; cbn; [constructor|]. by apply Forall_app. }
    spure sat_new as Hbd. eapply sat_bind; [apply (sat_build_all _ fst); [done|done|]|].
    + intros s' b' names i X Hi Hbd' Hlen. apply (multi_ok_in _ _ _ Hm) in Hi as [Hsym Hi2]. up X.
      sstep sat_symbolValue as [Hn _]; [done|]. sstep sat_allocValue as H1; [done|]. sstep sat_allocValue as H2; [done|].
      sstep sat_allocValue as H3; [done|]. by apply sat_alloc_attr.
    + intros s' b' X Hbd'. eapply sat_sorted_b; [exact Hbd'|]. apply Hm.
Qed.
End prim.
