(* ===== verification/PrimopsOk.v ===== *)
(** The primitive operations keep the state of the evaluator well-formed: lists,
    numbers and strings. So does the whole evaluator. *)

From S2P Require Import Prelude State Strings Lexical Sort Xp CanonPath StorePath DerivedPath Names Expr Value.
From S2P Require Import Eval Primops EvalInv EvalOk EvalOps EvalData PrimopsSets.

(** Each operation of the table keeps the state well-formed. *)
Create HintDb prims.

Section prim.
Context (N : Prog) (cfg : Config) (HC : CfgOk cfg) (E : Evaluator) (HE : EvOk N E).
Abbreviation sat := (sat N []).
Abbreviation wval := (wval N).
Abbreviation ref_ok := (ref_ok N).

(** * Lists *)

Lemma wval_list s l : Forall (aok s) l → wval s (VList l).
Proof. by split. Qed.
Lemma Forall_elem {A} (Q : A → Prop) l x : Forall Q l → x ∈ l → Q x.
Proof. rewrite Forall_forall. auto. Qed.

Lemma sat_elemAt a b s : aok s a → aok s b → sat (prim_elemAt E [a; b]) wval s.
Proof.
  intros Ha Hb. unfold prim_elemAt. sargs. sstep sat_forceInt as _; [done|done|]. sstep sat_forceList as Hl; [done|done|].
  destruct (_ || _) eqn:Ec; [sthrow|]. apply orb_false_iff in Ec as [E1 E2]. apply Z.ltb_ge in E1. apply Z.leb_gt in E2.
  destruct (lookup_lt_is_Some_2 a1 (Z.to_nat a0)) as [x Hx]; [lia|].
  eapply sat_bind; [apply (sat_getO _ (λ s' v, aok s' v))|].
  - exists x. split; [done|]. eapply Forall_elem; [done|]. by eapply list_elem_of_lookup_2.
  - intros s' v X Hv. by apply (sat_force N E HE).
Qed.
Lemma sat_head a s : aok s a → sat (prim_head E [a]) wval s.
Proof.
  intros Ha. unfold prim_head. sargs. sstep sat_forceList as Hl; [done|done|]. destruct a0; [sthrow|]. apply (sat_force N E HE).
  by apply Forall_cons in Hl as [? _].
Qed.
Lemma sat_tail a s : aok s a → sat (prim_tail E [a]) wval s.
Proof.
  intros Ha. unfold prim_tail. sargs. sstep sat_forceList as Hl; [done|done|]. destruct a0; [sthrow|]. apply sat_ret, wval_list.
  by apply Forall_cons in Hl as [_ ?].
Qed.
(** A list of new values. *)
Lemma sat_new_list {A} (f : A → EM addr) l s :
  (∀ s' x, ext [] s s' → x ∈ l → sat (f x) (λ s'' a, aok s'' a) s') → sat (VList <$> mapS f l) wval s.
Proof.
  intros Hf. eapply sat_fmap; [apply (sat_mapS _ (λ s' _ a, aok s' a))|].
  - intros u1 u2 _ x X. apply (aok_mono _ _ _ X).
  - done.
  - intros s' ys X HF. apply wval_list. by apply (Forall2_aok _ _ _ HF).
Qed.
Lemma sat_map a b s : aok s a → aok s b → sat (prim_map E [a; b]) wval s.
Proof.
  intros Ha Hb. unfold prim_map. sargs. sstep sat_forceList as Hl; [done|done|]. destruct a0 as [|x l]; [apply sat_ret, wval_list; constructor|].
  sstep sat_forceFunction as _; [done|done|]. apply sat_new_list. intros s' y X Hy. apply (Forall_elem _ _ _ Hl) in Hy. up X.
  by apply sat_allocValue.
Qed.
(** Pairs of the elements with what a predicate says. *)
Definition picked (s : World) (r : list (addr * bool)) : Prop := Forall (λ x, aok s x.1) r.
Lemma picked_filter s r (P : addr * bool → Prop) `{∀ x, Decision (P x)} : picked s r → Forall (aok s) (filter P r).*1.
Proof. intros Hr. apply Forall_fmap, Forall_forall. intros x [_ Hx]%list_elem_of_filter. by apply (Forall_elem _ _ _ Hr). Qed.
Lemma sat_pick (f : addr → EM (addr * bool)) l s :
  (∀ s' x, ext [] s s' → x ∈ l → sat (f x) (λ s'' r, aok s'' r.1) s') → sat (mapS f l) (λ s' r, picked s' r) s.
Proof.
  intros Hf. eapply sat_mono; [apply (sat_mapS _ (λ s' _ r, aok s' r.1))|].
  - intros u1 u2 _ x X. apply (aok_mono _ _ _ X).
  - done.
  - intros s' ys X HF. clear -HF. induction HF; by constructor.
Qed.
Lemma sat_predicate f a s : aok s f → aok s a →
  sat (res ← ev_call E (RAddr f) [a]; b ← forceBool E (RVal res); mret (a, b)) (λ s' r, aok s' r.1) s.
Proof.
  intros Hf Ha. sstep (sat_call1 N E HE) as [Hv _]; [done|done|]. sstep sat_forceBool as _; [done|done|]. by apply sat_ret.
Qed.
Lemma sat_filter a b s : aok s a → aok s b → sat (prim_filter E [a; b]) wval s.
Proof.
  intros Ha Hb. unfold prim_filter. sargs. sstep sat_forceList as Hl; [done|done|].
  assert (∀ s', ext [] s0 s' → sat (forceFunction E (RAddr a);; r ← filter_elems E a a0;
    if forallb snd r then mret (VList a0) else mret (VList (filter (λ x, x.2 = true) r).*1)) wval s') as H.
  { intros s' X. up X. clear X. sstep sat_forceFunction as _; [done|done|]. unfold filter_elems.
    eapply sat_bind; [apply sat_pick; intros s2 x X Hx; apply (Forall_elem _ _ _ Hl) in Hx; up X; by apply sat_predicate|].
    intros s2 r X Hr. up X. destruct (forallb _ _); apply sat_ret, wval_list; [done|by apply picked_filter]. }
  destruct a0 as [|x l]; [apply sat_ret, wval_list; constructor|]. by apply H.
Qed.
Lemma sat_elem_loop x l : ∀ s, aok s x → Forall (aok s) l → sat (elem_loop E x l) (λ _ _, True) s.
Proof.
  induction l as [|y l IH]; intros s Hx Hl; cbn [elem_loop]; [by apply sat_ret|]. pose proof Hl as Hl'. apply Forall_cons in Hl' as [Hy Hl'].
  sstep (ok_eq N E HE) as _; [done|done|]. destruct a; [by apply sat_ret|by apply IH].
Qed.
Lemma sat_elem a b s : aok s a → aok s b → sat (prim_elem E [a; b]) wval s.
Proof.
  intros Ha Hb. unfold prim_elem. sargs. sstep sat_forceList as Hl; [done|done|]. eapply sat_fmap; [by apply sat_elem_loop|done].
Qed.
Lemma sat_prim_concatLists a s : aok s a → sat (prim_concatLists E [a]) wval s.
Proof.
  intros Ha. unfold prim_concatLists. sargs. sstep sat_forceList as Hl; [done|done|]. apply sat_concatLists; [done|]. by apply Forall_fmap.
Qed.
Lemma sat_length a s : aok s a → sat (prim_length E [a]) wval s.
Proof. intros Ha. unfold prim_length. sargs. sstep sat_forceList as Hl; [done|done|]. by apply sat_ret. Qed.
Lemma sat_foldl_loop f l : ∀ cur s, aok s f → aok s cur → Forall (aok s) l → sat (foldl_loop E f cur l) wval s.
Proof.
  induction l as [|x [|y l] IH]; intros cur s Hf Hc Hl; cbn [foldl_loop]; [by apply (sat_force N E HE)| |];
    pose proof Hl as Hl'; apply Forall_cons in Hl' as [Hx Hl'].
  - sstep (sat_call2 N E HE) as [Hv _]; [done|done|done|]. by apply sat_forceValue.
  - sstep (sat_call2 N E HE) as [Hv _]; [done|done|done|]. sstep sat_allocValue as Hcur; [done|]. by apply IH.
Qed.
Lemma sat_foldlStrict a b c s : aok s a → aok s b → aok s c → sat (prim_foldlStrict E [a; b; c]) wval s.
Proof.
  intros Ha Hb Hc. unfold prim_foldlStrict. sargs. sstep sat_forceFunction as _; [done|done|]. sstep sat_forceList as Hl; [done|done|].
  by apply sat_foldl_loop.
Qed.
Lemma sat_any_loop any f l : ∀ s, aok s f → Forall (aok s) l → sat (any_loop E any f l) (λ _ _, True) s.
Proof.
  induction l as [|x l IH]; intros s Hf Hl; cbn [any_loop]; [by apply sat_ret|]. pose proof Hl as Hl'. apply Forall_cons in Hl' as [Hx Hl'].
  sstep (sat_call1 N E HE) as [Hv _]; [done|done|]. sstep sat_forceBool as _; [done|done|]. destruct (Bool.eqb _ _); [by apply sat_ret|by apply IH].
Qed.
Lemma sat_anyOrAll any a b s : aok s a → aok s b → sat (anyOrAll E any [a; b]) wval s.
Proof.
  intros Ha Hb. unfold anyOrAll. sargs. sstep sat_forceFunction as _; [done|done|]. sstep sat_forceList as Hl; [done|done|].
  eapply sat_fmap; [by apply sat_any_loop|done].
Qed.
Lemma sat_genList a b s : aok s a → aok s b → sat (prim_genList E [a; b]) wval s.
Proof.
  intros Ha Hb. unfold prim_genList. sargs. sstep sat_forceInt as _; [done|done|]. destruct (_ <? _)%Z; [sthrow|].
  sstep sat_forceFunction as _; [done|done|]. apply sat_new_list. intros s' n X _. up X.
  sstep sat_allocValue as Hn; [done|]. by apply sat_allocValue.
Qed.

(** * Sorting and grouping *)

Lemma sat_sort_comparator f a b s : aok s f → aok s a → aok s b → sat (sort_comparator E f a b) (λ _ _, True) s.
Proof.
  intros Hf Ha Hb. unfold sort_comparator. sstep sat_get_value as Hv; [done|].
  assert (sat (vBool ← ev_call E (RAddr f) [a; b]; forceBool E (RVal vBool)) (λ _ _, True) s0) as Hcall.
  { sstep (sat_call2 N E HE) as [Hr _]; [done|done|done|]. by apply sat_forceBool. }
  destruct a0; try done. destruct p; try done. by apply (sat_CompareValues N E HE).
Qed.
Lemma sat_sort a b s : aok s a → aok s b → sat (prim_sort E [a; b]) wval s.
Proof.
  intros Ha Hb. unfold prim_sort. sargs. sstep sat_forceList as Hl; [done|done|].
  assert (∀ s', ext [] s0 s' → sat (forceFunction E (RAddr a);; mapS (λ a, forceValue E (RAddr a)) a0;; VList <$> peeksort (sort_comparator E a) a0) wval s') as H.
  { intros s' X. up X. clear X. sstep sat_forceFunction as _; [done|done|]. sstep (sat_forces N E HE) as _; [done|].
    eapply sat_fmap; [apply sat_peeksort; intros s3 x y X Hx Hy; apply (Forall_elem _ _ _ Hl) in Hx, Hy; up X; by apply sat_sort_comparator|].
    intros s3 o X Ho. up X. apply wval_list. by rewrite Ho. }
  destruct a0 as [|x l]; [apply sat_ret, wval_list; constructor|]. by apply H.
Qed.
Lemma sat_partition a b s : aok s a → aok s b → sat (prim_partition E [a; b]) wval s.
Proof.
  intros Ha Hb. unfold prim_partition. sargs. sstep sat_forceFunction as _; [done|done|]. sstep sat_forceList as Hl; [done|done|].
  eapply sat_bind; [apply sat_pick; intros s2 x X Hx; apply (Forall_elem _ _ _ Hl) in Hx; up X; sstep (sat_force N E HE) as _; [done|]; by apply sat_predicate|].
  intros s2 r X Hr. pose proof (picked_filter _ _ (λ x, x.2 = true) Hr) as H1. pose proof (picked_filter _ _ (λ x, x.2 = false) Hr) as H2.
  clear Hr X. apply (sat_static N 17 "right"%str); [done|]. intros Hright _. apply (sat_static N 18 "wrong"%str); [done|]. intros Hwrong _.
  spure sat_new as Hbd. sstep (sat_alloc_attr N _ 2 []) as Hb1; [done|cbn; lia|done|done|].
  sstep (sat_alloc_attr N _ 2 [sRight]) as Hb2; [done|cbn; lia|done|done|].
  eapply sat_finish_b; [done|]. apply NoDup_cons. split; [|apply NoDup_singleton]. by intros ?%list_elem_of_singleton.
Qed.
Lemma sat_groupBy a b s : aok s a → aok s b → sat (prim_groupBy E [a; b]) wval s.
Proof.
  intros Ha Hb. unfold prim_groupBy. sargs. sstep sat_forceFunction as _; [done|done|]. sstep sat_forceList as Hl; [done|done|].
  eapply (sat_bind _ _ multi_ok).
  - eapply sat_mono; [apply (sat_foldS _ (λ s' m (_ : list addr), multi_ok s' m)); [apply multi_ok_nil|]|done].
    intros s2 x k m X (l1 & El) Hm. assert (aok s2 x) as Hx by (apply (aok_mono _ _ _ X), (Forall_elem _ _ _ Hl); rewrite El; set_solver).
    up X. clear X. eapply sat_bind; [by apply (sat_call1 N E HE)|]. intros s3 v X [Hv _]. apply (multi_ok_mono _ _ _ _ X) in Hm. up X. clear X.
    eapply sat_bind; [by apply (sat_forceStringNoCtx N E HE)|]. intros s4 name X Hn. apply (multi_ok_mono _ _ _ _ X) in Hm. up X. clear X.
    eapply sat_bind; [by apply sat_createSymbol|]. intros s5 sym X [Hs _]. apply (multi_ok_mono _ _ _ _ X) in Hm. up X. clear X.
    apply sat_ret. by apply multi_add_ok.
  - intros s2 m X Hm. spure sat_new as Hbd. eapply sat_bind; [apply (sat_build_all N _ fst); [done|done|]|].
    + intros s' b' names i X' Hi Hbd' Hlen. apply (multi_ok_in _ _ _ Hm) in Hi as [Hsym Hi2]. up X'. by apply sat_alloc_attr.
    + intros s' b' X' Hbd'. eapply sat_sorted_b; [exact Hbd'|]. apply Hm.
Qed.
Lemma sat_concatMap a b s : aok s a → aok s b → sat (prim_concatMap E [a; b]) wval s.
Proof.
  intros Ha Hb. unfold prim_concatMap. sargs. sstep sat_forceFunction as _; [done|done|]. sstep sat_forceList as Hl; [done|done|].
  eapply sat_bind; [apply (sat_mapS _ (λ s' _ l, Forall (aok s') l))|].
  - intros u1 u2 _ x X. apply (Forall_aok_mono _ _ _ X).
  - intros u1 x X Hx. apply (Forall_elem _ _ _ Hl) in Hx. up X. sstep (sat_call1 N E HE) as [Hv _]; [done|done|]. by apply sat_forceList.
  - intros u1 ls X HF. apply sat_ret, wval_list, Forall_concat_aok. clear -HF. induction HF; by constructor.
Qed.

(** * Numbers *)

Lemma sat_arith iop fop a b s : aok s a → aok s b → sat (arith E iop fop [a; b]) wval s.
Proof.
  intros Ha Hb. unfold arith. sargs. sstep (sat_force N E HE) as _; [done|]. sstep (sat_force N E HE) as _; [done|].
  destruct (_ || _).
  - sstep sat_forceFloat as _; [done|done|]. sstep sat_forceFloat as _; [done|done|]. by apply sat_ret.
  - sstep sat_forceInt as _; [done|done|]. sstep sat_forceInt as _; [done|done|]. destruct (iop _ _); [by apply sat_ret|sthrow].
Qed.
Lemma sat_div a b s : aok s a → aok s b → sat (prim_div E [a; b]) wval s.
Proof.
  intros Ha Hb. unfold prim_div. sargs. sstep (sat_force N E HE) as _; [done|]. sstep (sat_force N E HE) as _; [done|].
  sstep sat_forceFloat as _; [done|done|]. destruct (SFeqb _ _); [sthrow|]. destruct (_ || _).
  - sstep sat_forceFloat as _; [done|done|]. by apply sat_ret.
  - sstep sat_forceInt as _; [done|done|]. sstep sat_forceInt as _; [done|done|]. destruct (checked_div _ _); [by apply sat_ret|sthrow|sthrow].
Qed.
Lemma sat_bit_op op a b s : aok s a → aok s b → sat (bit_op E op [a; b]) wval s.
Proof.
  intros Ha Hb. unfold bit_op. sargs. sstep sat_forceInt as _; [done|done|]. sstep sat_forceInt as _; [done|done|]. by apply sat_ret.
Qed.
Lemma sat_round u a s : aok s a → sat (prim_round E u [a]) wval s.
Proof.
  intros Ha. unfold prim_round. sargs. sstep sat_forceFloat as _; [done|done|]. sstep sat_get_value as _; [done|].
  destruct (round_double _ _); [|sthrow]. destruct (in_i64 _); [|sthrow]. destruct a1; try (by apply sat_ret).
  destruct (_ =? _); [by apply sat_ret|sthrow].
Qed.

(** * Strings *)

Lemma sat_coerced a b1 b2 (f : str → BsdStringContext → EM Value) s :
  aok s a → (∀ s' x c, ext [] s s' → sat (f x c) wval s') → sat ('(x, c) ← ev_coerce E (RAddr a) [] b1 b2; f x c) wval s.
Proof. intros Ha Hf. eapply sat_bind; [by apply (sat_coerce N E HE)|]. intros s' [x c] X _. auto. Qed.
Ltac coerced := apply sat_coerced; [done|intros ? ? ? _; apply sat_ret; first [apply mkString_ok | done]].

Lemma sat_toString a s : aok s a → sat (prim_toString E [a]) wval s.
Proof. intros Ha. unfold prim_toString. sargs. coerced. Qed.
Lemma sat_stringLength a s : aok s a → sat (prim_stringLength E [a]) wval s.
Proof. intros Ha. unfold prim_stringLength. sargs. coerced. Qed.
Lemma sat_baseNameOf a s : aok s a → sat (prim_baseNameOf E [a]) wval s.
Proof. intros Ha. unfold prim_baseNameOf. sargs. coerced. Qed.
Lemma sat_unsafeDiscardStringContext a s : aok s a → sat (prim_unsafeDiscardStringContext E [a]) wval s.
Proof. intros Ha. unfold prim_unsafeDiscardStringContext. sargs. coerced. Qed.
Lemma sat_unsafeDiscardOutputDependency a s : aok s a → sat (prim_unsafeDiscardOutputDependency E [a]) wval s.
Proof. intros Ha. unfold prim_unsafeDiscardOutputDependency. sargs. coerced. Qed.
Lemma sat_addDrvOutputDependencies a s : aok s a → sat (prim_addDrvOutputDependencies E [a]) wval s.
Proof.
  intros Ha. unfold prim_addDrvOutputDependencies. sargs. apply sat_coerced; [done|]. intros s' x c _.
  destruct c as [|[p|p|d o] [|]]; try sthrow; [|apply sat_ret, mkString_ok]. destruct (StorePath.isDerivation p); [apply sat_ret, mkString_ok|sthrow].
Qed.
Lemma sat_dirOf a s : aok s a → sat (prim_dirOf E [a]) wval s.
Proof.
  intros Ha. unfold prim_dirOf. sargs. sstep (sat_force N E HE) as [Hv Hw]; [done|]. destruct a0; try coerced.
  unfold parent. destruct (isRoot _); by apply sat_ret.
Qed.
Lemma sat_substring a b c s : aok s a → aok s b → aok s c → sat (prim_substring E [a; b; c]) wval s.
Proof.
  intros Ha Hb Hc. unfold prim_substring. sargs. sstep sat_forceInt as _; [done|done|]. destruct (_ <? _)%Z; [sthrow|].
  sstep sat_forceInt as _; [done|done|]. eapply (sat_bind _ _ (λ s' o, aok s' c ∧ ∀ v, o = Some v → wval s' v)).
  - destruct (_ =? _)%Z; [|by apply sat_ret]. sstep (sat_force N E HE) as [Hv _]; [done|]. apply sat_ret. split; [done|].
    destruct a2; try done. intros v [= <-]. split; [|done]. split; [by apply no_nul_dec|apply Hv].
  - intros s' o X [Hc' Ho]. destruct o as [v|]; [by apply sat_ret, Ho|]. coerced.
Qed.
Lemma sat_concat_sep_loop sep l : ∀ first res c s, Forall (aok s) l → sat (concat_sep_loop E sep first l res c) (λ _ _, True) s.
Proof.
  induction l as [|a l IH]; intros first res c s Hl; cbn [concat_sep_loop]; [by apply sat_ret|]. pose proof Hl as Hl'. apply Forall_cons in Hl' as [Ha Hl'].
  eapply sat_bind; [by apply (sat_coerce N E HE)|]. intros s' [x c'] X _. up X. by apply IH.
Qed.
Lemma sat_concatStringsSep a b s : aok s a → aok s b → sat (prim_concatStringsSep cfg E [a; b]) wval s.
Proof.
  intros Ha Hb. unfold prim_concatStringsSep. sargs. sstep sat_forceStringCtx as _; [done|done|]. destruct a0 as [sep c].
  sstep sat_forceList as Hl; [done|done|]. sstep sat_concat_sep_loop as _; [done|]. destruct a1. apply sat_ret, mkString_ok.
Qed.
Lemma find_pattern_lt x from : ∀ i j f, find_pattern x from i = Some (j, f) → (i ≤ j < i + length from)%nat.
Proof.
  induction from as [|y from IH]; intros i j f; cbn [find_pattern]; [done|]. case_bool_decide.
  - intros [= <- <-]. cbn. lia.
  - intros H1%IH. cbn. lia.
Qed.
Lemma sat_replace_loop from to : length from = length to → ∀ fuel cache x res c s, Forall (aok s) to →
  sat (replace_loop cfg E fuel from to cache x res c) (λ _ _, True) s.
Proof.
  intros Hlen. induction fuel as [|fuel IH]; intros cache x res c s Hto; cbn [replace_loop]; [sthrow|].
  destruct (find_pattern x from 0) as [[j f]|] eqn:Ef; [|destruct x; [by apply sat_ret|by apply IH]].
  eapply (sat_bind _ _ (λ s' _, Forall (aok s') to)).
  - destruct (cache !! j); [by apply sat_ret|]. apply find_pattern_lt in Ef.
    destruct (lookup_lt_is_Some_2 to j) as [a Ha]; [lia|]. eapply sat_bind; [apply (sat_getO _ (λ s' v, aok s' v ∧ Forall (aok s') to))|].
    + exists a. split; [done|]. split; [|done]. eapply Forall_elem; [done|]. by eapply list_elem_of_lookup_2.
    + intros s' v _ [Hv Hto']. sstep sat_forceStringCtx as _; [done|done|]. destruct a0. by apply sat_ret.
  - intros s' [[t cache'] c'] X Hto'. destruct f as [|y f]; [|by apply IH]. destruct x; [by apply sat_ret|by apply IH].
Qed.
Lemma sat_replaceStrings a b c s : aok s a → aok s b → aok s c → sat (prim_replaceStrings cfg E [a; b; c]) wval s.
Proof.
  intros Ha Hb Hc. unfold prim_replaceStrings. sargs. sstep sat_forceList as Hl0; [done|done|]. sstep sat_forceList as Hl1; [done|done|].
  destruct (negb _) eqn:El; [sthrow|]. apply negb_false_iff, Nat.eqb_eq in El.
  eapply sat_bind; [apply (sat_mapS _ (λ _ _ _, True)); [done|]|].
  { intros u x X Hx. apply (Forall_elem _ _ _ Hl0) in Hx. up X. sstep sat_forceString as _; [done|done|]. destruct a2. by apply sat_ret. }
  intros u from X HF. up X. apply Forall2_length in HF. sstep sat_forceStringCtx as _; [done|done|]. destruct a2 as [x ctx].
  sstep sat_replace_loop as _; [congruence|done|]. destruct a2. apply sat_ret, mkString_ok.
Qed.
Lemma sat_parseDrvName a s : aok s a → sat (prim_parseDrvName E [a]) wval s.
Proof.
  intros Ha. unfold prim_parseDrvName. sargs. sstep sat_forceStringNoCtx as _; [done|done|]. cbv zeta. spure sat_new as Hb.
  apply (sat_static N 5 "name"%str); [done|]. intros Hsym Hstr.
  sstep (sat_alloc_attr N _ 2 []) as Hb1; [done|cbn; lia|done|apply mkString_ok|].
  sstep sat_createSymbol as [Hv Hvs]; [by apply no_nul_dec|].
  sstep (sat_alloc_attr N _ 2 [sName]) as Hb2; [done|cbn; lia|done|apply mkString_ok|].
  eapply sat_finish_b; [done|]. apply NoDup_cons. split; [|apply NoDup_singleton]. intros Ey%list_elem_of_singleton. subst.
  unfold sName in Hvs. congruence.
Qed.
Lemma compare_loop_safe lc fuel : ∀ p q, safe (compare_loop lc fuel p q).
Proof.
  induction fuel as [|fuel IH]; intros [|c p] [|d q]; cbn [compare_loop]; try done;
    repeat (case_match; try done); apply IH.
Qed.
Lemma sat_compareVersions a b s : aok s a → aok s b → sat (prim_compareVersions cfg E [a; b]) wval s.
Proof.
  intros Ha Hb. unfold prim_compareVersions. sargs. sstep sat_forceStringNoCtx as _; [done|done|]. sstep sat_forceStringNoCtx as _; [done|done|].
  spure sat_safe as _; [apply compare_loop_safe|]. by apply sat_ret.
Qed.
Lemma sat_splitVersion a s : aok s a → sat (prim_splitVersion E [a]) wval s.
Proof.
  intros Ha. unfold prim_splitVersion. sargs. sstep sat_forceStringNoCtx as _; [done|done|]. apply sat_new_list. intros.
  apply sat_allocValue, mkString_ok.
Qed.
Lemma sat_hasContext a s : aok s a → sat (prim_hasContext cfg E [a]) wval s.
Proof.
  intros Ha. unfold prim_hasContext. sargs. sstep sat_forceStringCtx as _; [done|done|]. destruct a0. by apply sat_ret.
Qed.

(** * [getContext] *)

Definition sp_lt (p q : StorePath) : Prop := sp_compare p q = Lt.
Definition infos_ok (m : list (StorePath * ContextInfo)) : Prop :=
  StronglySorted sp_lt m.*1 ∧ Forall (λ p, no_nul (StorePath.baseName p)) m.*1.
Lemma ci_update_keys p f m q : q ∈ (ci_update p f m).*1 → q = p ∨ q ∈ m.*1.
Proof using Type.
  induction m as [|[r i] m IH]; cbn [ci_update]; [intros ->%list_elem_of_singleton; by left|].
  destruct (sp_compare p r); rewrite !fmap_cons, !elem_of_cons; cbn [fst]; tauto.
Qed.
Lemma ci_update_ok p f m : no_nul (StorePath.baseName p) → infos_ok m → infos_ok (ci_update p f m).
Proof using Type.
  intros Hp [H1 H2]. unfold infos_ok. induction m as [|[r i] m IH]; cbn [ci_update fmap list_fmap fst] in *; [by repeat constructor|].
  pose proof H1 as H1'. apply StronglySorted_inv in H1' as [S1 S2]. pose proof H2 as H2'. apply Forall_cons in H2' as [F1 F2].
  destruct (sp_compare p r) eqn:Ec; cbn [fmap list_fmap fst]; [done| |].
  - split; [|by constructor]. constructor; [done|]. constructor; [done|]. eapply Forall_impl; [exact S2|]. intros q Hq.
    unfold sp_lt, sp_compare in *. by eapply str_compare_lt_trans.
  - destruct (IH S1 F2) as [I1 I2]. split; [|by constructor]. constructor; [done|]. rewrite Forall_forall in S2 |- *.
    intros q Hq. apply ci_update_keys in Hq as [->|Hq]; [|auto]. unfold sp_lt, sp_compare in *. by rewrite str_compare_antisym, Ec.
Qed.
Lemma ci_add_ok m x : infos_ok m → elem_ok x → safe (ci_add cfg m x) ∧ ∀ m', ci_add cfg m x = Ok m' → infos_ok m'.
Proof using HC.
  intros Hm Hx. destruct x as [p|p|d o]; cbn [ci_add]; [split; [done|]; intros m' [= <-]; by apply ci_update_ok..|].
  destruct (cfg_resolve cfg HC d) as [Hs Hq]. destruct (resolveDerivedPath cfg d) as [q|e]; [|done]. cbn. split; [done|].
  intros m' [= <-]. apply ci_update_ok; [by apply Hq|done].
Qed.
Lemma ci_all_ok c : ∀ m, infos_ok m → Forall elem_ok c → safe (foldR (ci_add cfg) m c) ∧ ∀ m', foldR (ci_add cfg) m c = Ok m' → infos_ok m'.
Proof using HC.
  induction c as [|x c IH]; intros m Hm Hc; cbn [foldR]; [split; [done|]; by intros m' [= <-]|].
  apply Forall_cons in Hc as [Hx Hc]. destruct (ci_add_ok m x Hm Hx) as [Hs Ho]. destruct (ci_add cfg m x) as [m1|e]; [|done].
  by apply IH; [apply Ho|].
Qed.
Lemma context_infos_NoDup m : infos_ok m → NoDup m.*1.
Proof using Type.
  intros [H _]. induction H as [|p l H IH HF]; constructor; [|done]. intros Hin. rewrite Forall_forall in HF. specialize (HF _ Hin).
  unfold sp_lt, sp_compare in HF. by rewrite str_compare_refl in HF.
Qed.

Lemma sub3_NoDup (x y z : Symbol) l : x ≠ y → x ≠ z → y ≠ z → l `sublist_of` [x; y; z] → NoDup l.
Proof using Type.
  intros Hxy Hxz Hyz Hl. eapply sublist_NoDup; [|exact Hl]. apply NoDup_cons. split; [|apply NoDup_cons; split; [|apply NoDup_singleton]];
    rewrite ?not_elem_of_cons; (split_and?; [done..|apply not_elem_of_nil]).
Qed.
Lemma sat_ci_value x y i s :
  sym_ok s x → sym_ok s y → symbol_str (symbols s) x = Some "path"%str → symbol_str (symbols s) y = Some "allOutputs"%str → sat (ci_value x y i) wval s.
Proof.
  intros Hx Hy Ex Ey. unfold ci_value. spure sat_new as Hb. apply (sat_static N 9 "outputs"%str); [done|]. intros Hz Ez.
  assert (x ≠ y ∧ x ≠ sOutputs ∧ y ≠ sOutputs) as (N1 & N2 & N3).
  { unfold sOutputs. split_and!; intros ->; congruence. }
  clear Ex Ey Ez. eapply (sat_bind _ _ (λ s' b, ∃ l, building s' b 3 l ∧ l `sublist_of` [x])).
  { destruct (ci_path i); [|apply sat_ret; exists []; split; [done|by apply sublist_nil_l]].
    eapply sat_mono; [by apply (sat_alloc_attr N _ 3 []); [..|cbn; lia| |]|]. intros s' b X H. by exists [x]. }
  intros s1 b X (l & Hb1 & Hl1). up X. clear X. pose proof (sublist_length _ _ Hl1) as L1.
  eapply (sat_bind _ _ (λ s' b, ∃ l, building s' b 3 l ∧ l `sublist_of` [x; y])).
  { destruct (ci_allOutputs i); [|apply sat_ret; exists l; split; [done|by apply (sublist_inserts_r [y] l [x])]].
    eapply sat_mono; [by apply (sat_alloc_attr N _ 3 l); [..|cbn in *; lia| |]|]. intros s' b2 X H. exists (l ++ [y]). split; [done|].
    by apply (sublist_app _ [x]). }
  intros s2 b2 X (l2 & Hb2 & Hl2). up X. clear X. pose proof (sublist_length _ _ Hl2) as L2.
  eapply (sat_bind _ _ (λ s' b, ∃ l, building s' b 3 l ∧ l `sublist_of` [x; y; sOutputs])).
  { destruct (ci_outputs i) as [|o os]; [apply sat_ret; exists l2; split; [done|by apply (sublist_inserts_r [sOutputs] l2 [x; y])]|].
    eapply sat_bind; [apply (sat_mapS _ (λ s' _ a, aok s' a)); [intros u1 u2 _ z X; apply (aok_mono _ _ _ X)|intros; apply sat_allocValue, mkString_ok]|].
    intros s3 vs X HF. apply (Forall2_aok s3 (o :: os)) in HF. up X. clear X.
    eapply sat_mono; [by apply (sat_alloc_attr N _ 3 l2); [..|cbn in *; lia| |]|]. intros s' b3 X H. exists (l2 ++ [sOutputs]). split; [done|].
    by apply (sublist_app _ [x; y]). }
  intros s3 b3 X (l3 & Hb3 & Hl3). eapply sat_finish_b; [done|]. by apply (sub3_NoDup x y sOutputs).
Qed.
Lemma print_no_nul p : no_nul (StorePath.baseName p) → no_nul (printStorePath (storeDir cfg) p).
Proof using HC.
  intros Hp. unfold no_nul, printStorePath in *. rewrite !elem_of_app. intros [H|[H|H]]; [by apply (cfg_storeDir cfg HC)| |done].
  by apply list_elem_of_singleton in H.
Qed.
Lemma print_path_inj p q : printStorePath (storeDir cfg) p = printStorePath (storeDir cfg) q → p = q.
Proof using Type. unfold printStorePath. intros H. by apply (inj _), (inj _), (inj _) in H. Qed.

Lemma sat_getContext a s : aok s a → sat (prim_getContext cfg E [a]) wval s.
Proof.
  intros Ha. unfold prim_getContext. sargs. sstep sat_forceStringCtx as [_ Hc]; [done|done|]. destruct a0 as [x c]. cbn [snd] in Hc.
  specialize (Hc (Forall_nil_2 _)). destruct (ci_all_ok c []) as [Hs Ho]; [split; constructor|done|].
  spure sat_safe as Em; [done|]. specialize (Ho _ Em). rename a0 into m. clear Hs Em Hc.
  spure sat_new as Hb. sstep sat_createSymbol as [Hx Ex]; [by apply no_nul_dec|]. sstep sat_createSymbol as [Hy Ey]; [by apply no_nul_dec|].
  eapply (sat_bind _ _ (λ s' b, ∃ l1 names, building s' b (length m) names ∧ m = l1 ++ [] ∧
    Forall2 (λ i z, symbol_str (symbols s') z = Some (printStorePath (storeDir cfg) i)) l1.*1 names)).
  - eapply (sat_foldS _ (λ s' b k, ∃ l1 names, building s' b (length m) names ∧ m = l1 ++ k ∧
      Forall2 (λ i z, symbol_str (symbols s') z = Some (printStorePath (storeDir cfg) i)) l1.*1 names));
      [by exists [], []|].
    intros s' [p i] k b X (l2 & El) (l1 & names & Hbd & El1 & HF). up X. clear X.
    assert (length names < length m)%nat.
    { apply Forall2_length in HF. rewrite <- HF, length_fmap, El1, length_app. cbn. lia. }
    assert (no_nul (printStorePath (storeDir cfg) p)) as Hp.
    { apply print_no_nul. destruct Ho as [_ Ho]. rewrite Forall_forall in Ho. apply (Ho p). rewrite El. apply (list_elem_of_fmap_2 fst _ (p, i)), elem_mid. }
    eapply sat_bind; [by apply sat_ci_value|]. intros u1 v X [Hv _]. up X. cbn [fst snd].
    eapply sat_bind; [by apply sat_createSymbol|]. intros u2 z X' [Hz Ez]. up X'.
    eapply sat_mono; [by apply sat_alloc_attr|]. intros u3 b' X'' Hb'. exists (l1 ++ [(p, i)]), (names ++ [z]).
    split_and!; [done|by rewrite <- app_assoc|]. rewrite fmap_app. apply Forall2_app.
    + eapply Forall2_impl; [exact HF|]. intros q w Hw. by eapply symbol_str_ext, symbol_str_ext, symbol_str_ext.
    + constructor; [by eapply symbol_str_ext|constructor].
  - intros s' b X (l1 & names & Hbd & El & HF). rewrite app_nil_r in El. subst l1. eapply sat_finish_b; [exact Hbd|].
    apply context_infos_NoDup in Ho. clear -HF Ho. induction HF as [|p z l zs Hz HF IH]; [constructor|]. cbn in Ho. apply NoDup_cons in Ho as [Hp Ho].
    constructor; [|auto]. intros Hin. apply Hp. clear IH Ho Hp. induction HF as [|q w l zs Hw HF IH]; [by apply elem_of_nil in Hin|].
    apply elem_of_cons in Hin as [->|Hin]; [|right; auto]. rewrite Hz in Hw. injection Hw as Hw. apply print_path_inj in Hw as ->. left.
Qed.

(** * The table *)

#[local] Hint Resolve sat_abort sat_throw_op sat_addErrorContext sat_tryEval sat_seq sat_deepSeq sat_typeOf sat_type_test
  sat_genericClosure sat_toString sat_substring sat_stringLength sat_concatStringsSep sat_replaceStrings sat_attrNames
  sat_attrValues sat_prim_getAttr sat_prim_hasAttr sat_removeAttrs sat_listToAttrs sat_intersectAttrs sat_catAttrs
  sat_functionArgs sat_mapAttrs sat_zipAttrsWith sat_elemAt sat_head sat_tail sat_map sat_filter sat_elem sat_prim_concatLists
  sat_length sat_foldlStrict sat_anyOrAll sat_genList sat_sort sat_partition sat_groupBy sat_concatMap sat_arith sat_div
  sat_bit_op sat_lessThan sat_round sat_baseNameOf sat_dirOf sat_parseDrvName sat_compareVersions sat_splitVersion
  sat_unsafeDiscardStringContext sat_hasContext sat_unsafeDiscardOutputDependency sat_addDrvOutputDependencies sat_getContext : prims.

Lemma sat_prim_fun p args s : crash_free p → Forall (aok s) args → length args = arity p → sat (prim_fun cfg E p args) wval s.
Proof.
  intros [Hb Hc] Ha Hn. destruct p; cbn [arity] in Hn; cbn [prim_fun]; try done;
    first [ apply one_arg in Hn as (a & ->); apply Forall_cons in Ha as [H1 _]
          | apply two_args in Hn as (a & b & ->); apply Forall_cons in Ha as [H1 Ha]; apply Forall_cons in Ha as [H2 _]
          | apply three_args in Hn as (a & b & c & ->); apply Forall_cons in Ha as [H1 Ha]; apply Forall_cons in Ha as [H2 Ha];
            apply Forall_cons in Ha as [H3 _] ].
  all: by eauto 2 with prims.
Qed.

Lemma EvOk_unroll : EvOk N (unroll cfg E).
Proof.
  constructor; cbn [unroll ev_eval ev_call ev_loop ev_coerce ev_eq ev_assertEq ev_deep ev_prim ev_compare ev_closure].
  - intros. by eapply sat_eval.
  - intros. by apply sat_callFunction.
  - intros. by apply sat_call_loop.
  - intros. by apply sat_coerceToString.
  - intros. by apply sat_eqValues.
  - intros. by apply sat_assertEqValues.
  - intros. by apply sat_forceValueDeep.
  - intros. by apply sat_prim_fun.
  - intros. by eapply sat_CompareValues.
  - intros. by eapply sat_closure_loop.
Qed.
End prim.

(** With any fuel. *)
Lemma EvOk_evaluator N cfg (HC : CfgOk cfg) fuel : EvOk N (evaluator cfg fuel).
Proof.
  induction fuel as [|fuel IH]; cbn [evaluator]; [constructor; intros; sthrow|]. by apply EvOk_unroll.
Qed.
