(* ===== verification/BindOk.v ===== *)
(** Variable resolution binds what the parser produces.

    [parsed] is what the parser guarantees of the syntax tree. Resolving the
    variables of such a tree gives an expression that is [bound] in the frames
    of its static environment, or throws an exception of the language. *)

From S2P Require Import Prelude State Strings Expr Value Eval EvalInv EvalOk EvalOps.

(** * Trees of the parser *)

Fixpoint ascending (lo : nat) (l : list Symbol) : bool :=
  match l with [] => true | x :: l => (lo <? x)%nat && ascending x l end.

Section parsed.
(** The number of symbols. *)
Context (N : Prog).

Definition namesb (l : list Symbol) : bool := ascending 0 l && forallb (λ x, x <=? N)%nat l.

(** [inherit (e) x;] selects [x] from a source. *)
Definition inherits_from (n : nat) (e : Expr) : bool :=
  match e with ExprSelect (ExprInheritFrom d) [inl _] None => (d <? n)%nat | _ => false end.
Definition parsed_set (p : Expr → bool) (a : AttrsOf Expr) : bool :=
  let n := match inheritFromExprs a with Some l => length l | None => 0%nat end in
  namesb (attrs a).*1 && match inheritFromExprs a with Some l => forallb p l | None => true end &&
  forallb (λ x : Symbol * AttrDef Expr,
    match ad_kind x.2 with InheritedFrom => inherits_from n (ad_e x.2) | _ => p (ad_e x.2) end) (attrs a) &&
  forallb (λ x, p x.1 && p x.2) (dynamicAttrs a).
Definition parsed_path (p : Expr → bool) (path : list (Symbol + Expr)) : bool :=
  forallb (λ x, match x with inl _ => true | inr e => p e end) path.
Definition parsed_opt (p : Expr → bool) (o : option Expr) : bool := match o with Some e => p e | None => true end.

(** Attributes and formals are sorted and have no duplicates; a function has an
    argument or formals; functions that refuse arguments are only there if the
    program may have them. *)
Fixpoint parsed (e : Expr) : bool :=
  match e with
  | ExprInt _ | ExprFloat _ | ExprString _ | ExprPath _ _ | ExprVar _ _ _ _ => true
  | ExprInheritFrom _ => false
  | ExprSelect e path def => parsed e && parsed_path parsed path && parsed_opt parsed def
  | ExprOpHasAttr e path => parsed e && parsed_path parsed path
  | ExprAttrs a => parsed_set parsed a
  | ExprList l => forallb parsed l
  | ExprLambda arg fs body =>
      match fs with
      | Some f => namesb (formals f).*1 && (strict N || lenient f) && forallb (λ x, parsed_opt parsed x.2) (formals f)
      | None => negb (arg =? 0)%nat
      end && parsed body
  | ExprCall fn args => parsed fn && forallb parsed args
  | ExprLet a body => parsed_set parsed a && parsed body
  | ExprWith a b _ => parsed a && parsed b
  | ExprIf c t e => parsed c && parsed t && parsed e
  | ExprAssert c b => parsed c && parsed b
  | ExprOpNot e => parsed e
  | ExprBinOp _ e1 e2 => parsed e1 && parsed e2
  | ExprConcatStrings _ es => forallb parsed es
  end.
End parsed.

(** * Static environments and frames *)

(** Sorted by name. *)
Definition weakly_sorted (vars : list (Symbol * nat)) : Prop := StronglySorted le vars.*1.

Fixpoint senv_ok (se : StaticEnv) (sh : list Frame) : Prop :=
  match se, sh with
  | SEnv isWith up vars, f :: sh' =>
      match isWith with
      | Some w => f = FWith ∧ with_ok sh w
      | None => weakly_sorted vars ∧ ∀ v, v ∈ vars → frame_slot f v.2
      end ∧
      match up with Some up => senv_ok up sh' | None => sh' = [] end
  | _, [] => False
  end.
Definition senvp_ok (env : SEnvP) (sh : list Frame) : Prop := match env with Some se => senv_ok se sh | None => sh = [] end.

Lemma StaticEnv_ind' (Q : StaticEnv → Prop) :
  (∀ w up vars, (∀ u, up = Some u → Q u) → Q (SEnv w up vars)) → ∀ se, Q se.
Proof. intros H. fix IH 1. intros [w [u|] vars]; apply H; [intros u' [= <-]; apply IH|clear IH; intros u [=]]. Qed.

Lemma lower_bound_vars vars x : weakly_sorted vars → ∃ o, lower_bound (less_var x) vars = Ok o ∧ ∀ v, o = Some v → v ∈ vars.
Proof.
  unfold weakly_sorted. induction vars as [|v vars IH]; cbn [fmap list_fmap lower_bound]; [by exists None|]. intros H.
  apply StronglySorted_inv in H as [H1 H2]. destruct (less_var x v) eqn:El.
  - destruct (IH H1) as (o & E & Ho). exists o. split; [done|]. intros w Hw. right. auto.
  - assert (existsb (less_var x) vars = false) as ->; [|exists (Some v); split; [done|]; intros w [= <-]; left].
    clear IH H1. induction vars as [|w vars IH]; [done|]. cbn [fmap list_fmap existsb] in *. inv H2. rewrite IH by done.
    unfold less_var in *. rewrite andb_false_r, orb_false_r in *. apply Nat.ltb_ge in El. by rewrite (proj2 (Nat.ltb_ge _ _)) by lia.
Qed.
Lemma senv_find_ok vars x : weakly_sorted vars → ∃ o, senv_find vars x = Ok o ∧ ∀ d, o = Some d → (x, d) ∈ vars.
Proof.
  intros H. unfold senv_find. destruct (lower_bound_vars vars x H) as (o & -> & Ho). cbn. eexists. split; [done|]. intros d.
  destruct o as [[y e]|]; [|done]. cbn. destruct (y =? x)%nat eqn:E; [|done]. apply Nat.eqb_eq in E as ->. intros [= ->]. by apply Ho.
Qed.
Lemma find_var_ok x se : ∀ sh level, senv_ok se sh →
  ∃ o, find_var x se level = Ok o ∧ ∀ l d, o = Some (l, d) → ∃ k f, l = (level + k)%nat ∧ sh !! k = Some f ∧ frame_slot f d.
Proof.
  induction se as [w up vars IH] using StaticEnv_ind'; intros [|f sh] level; [done|]. cbn [senv_ok find_var]. intros [Hf Hup].
  assert (∃ o, (match w with Some _ => Ok None | None => senv_find vars x end) = Ok o ∧ ∀ d, o = Some d → frame_slot f d) as (o & -> & Ho).
  { destruct w as [w|]; [by exists None|]. destruct Hf as [Hs Hv]. destruct (senv_find_ok vars x Hs) as (o & -> & Ho). exists o. split; [done|].
    intros d Hd. apply (Hv (x, d)). auto. }
  cbn. destruct o as [d|]; [eexists; split; [done|]; intros l d' [= <- <-]; exists 0%nat, f; split_and!; [lia|done|auto]|].
  destruct up as [u|]; [|by exists None]. destruct (IH u eq_refl sh (S level) Hup) as (o & -> & Hs). exists o. split; [done|].
  intros l d Hd. destruct (Hs l d Hd) as (k & g & -> & Hk & Hg). exists (S k), g. split_and!; [lia|done|done].
Qed.
Lemma with_level_ok se : ∀ sh, senv_ok se sh →
  match nearest_with se with
  | Some w => ∃ k, (∀ level, with_level se level = Some (level + k)%nat) ∧ with_ok (drop k sh) w
  | None => ∀ level, with_level se level = None
  end.
Proof.
  induction se as [w up vars IH] using StaticEnv_ind'; intros [|f sh]; [done|]. cbn [senv_ok nearest_with with_level]. intros [Hf Hup].
  destruct w as [w|]; [exists 0%nat; split; [intros; f_equal; lia|apply Hf]|]. destruct up as [u|]; [|done]. specialize (IH u eq_refl sh Hup).
  destruct (nearest_with u) as [w|]; [|auto]. destruct IH as (k & Hk & Hw). exists (S k). split; [|done]. intros level. rewrite Hk. f_equal. lia.
Qed.

(** * Induction on expressions *)

Section induction.
Context (P : Expr → Prop).

Definition is_leaf (e : Expr) : bool :=
  match e with ExprInt _ | ExprFloat _ | ExprString _ | ExprPath _ _ | ExprVar _ _ _ _ | ExprInheritFrom _ => true | _ => false end.

Lemma Expr_ind' :
  (∀ e, is_leaf e = true → P e) →
  (∀ e path def, P e → allPath P path → allO P def → P (ExprSelect e path def)) →
  (∀ e path, P e → allPath P path → P (ExprOpHasAttr e path)) →
  (∀ a, allO (allP P) (inheritFromExprs a) → allDefs P P P (attrs a) → allPairs P (dynamicAttrs a) → P (ExprAttrs a)) →
  (∀ l, allP P l → P (ExprList l)) →
  (∀ arg fs body, allO (λ f, allFormals P (formals f)) fs → P body → P (ExprLambda arg fs body)) →
  (∀ fn args, P fn → allP P args → P (ExprCall fn args)) →
  (∀ a body, allO (allP P) (inheritFromExprs a) → allDefs P P P (attrs a) → allPairs P (dynamicAttrs a) → P body → P (ExprLet a body)) →
  (∀ a b w, P a → P b → P (ExprWith a b w)) →
  (∀ c t e, P c → P t → P e → P (ExprIf c t e)) →
  (∀ c b, P c → P b → P (ExprAssert c b)) →
  (∀ e, P e → P (ExprOpNot e)) →
  (∀ op e1 e2, P e1 → P e2 → P (ExprBinOp op e1 e2)) →
  (∀ f es, allP P es → P (ExprConcatStrings f es)) →
  ∀ e, P e.
Proof.
  intros Hleaf Hsel Hhas Hattrs Hlist Hlam Hcall Hlet Hwith Hif Hass Hnot Hbin Hcat. fix IH 1.
  assert (∀ l, allP P l) as IHl by (fix go 1; intros [|x l]; [exact I|exact (conj (IH x) (go l))]).
  assert (∀ o, allO P o) as IHo by (intros [x|]; [exact (IH x)|exact I]).
  assert (∀ l, allPath P l) as IHp by (fix go 1; intros [|[x|e] l]; [exact I|exact (go l)|exact (conj (IH e) (go l))]).
  assert (∀ l, allPairs P l) as IHq by (fix go 1; intros [|[n v] l]; [exact I|exact (conj (IH n) (conj (IH v) (go l)))]).
  assert (∀ l, allFormals P l) as IHf by (fix go 1; intros [|[x o] l]; [exact I|exact (conj (IHo o) (go l))]).
  assert (∀ l, allDefs P P P l) as IHd
    by (fix go 1; intros [|[x [k e d]] l]; [exact I|split; [destruct k; exact (IH e)|exact (go l)]]).
  assert (∀ o, allO (allP P) o) as IHol by (intros [l|]; [exact (IHl l)|exact I]).
  assert (∀ o, allO (λ f, allFormals P (formals f)) o) as IHof by (intros [[f b]|]; [exact (IHf f)|exact I]).
  intros [| | | | | |e path def|e path|[r a fr dy]|l|arg fs body|fn args|[r a fr dy] body|a b w|c t e|c b|e|op e1 e2|f es];
    try (apply Hleaf; reflexivity); clear Hleaf.
  - exact (Hsel _ _ _ (IH e) (IHp path) (IHo def)).
  - exact (Hhas _ _ (IH e) (IHp path)).
  - exact (Hattrs (MkAttrs r a fr dy) (IHol fr) (IHd a) (IHq dy)).
  - exact (Hlist _ (IHl l)).
  - exact (Hlam _ _ _ (IHof fs) (IH body)).
  - exact (Hcall _ _ (IH fn) (IHl args)).
  - exact (Hlet (MkAttrs r a fr dy) _ (IHol fr) (IHd a) (IHq dy) (IH body)).
  - exact (Hwith _ _ _ (IH a) (IH b)).
  - exact (Hif _ _ _ (IH c) (IH t) (IH e)).
  - exact (Hass _ _ (IH c) (IH b)).
  - exact (Hnot _ (IH e)).
  - exact (Hbin _ _ _ (IH e1) (IH e2)).
  - exact (Hcat _ _ (IHl es)).
Qed.
End induction.

(** * Resolution *)

(** The result, if there is one; only exceptions of the language are thrown. *)
Definition okR {A} (Q : A → Prop) (r : result A) : Prop := match r with Ok a => Q a | Throw e => ok_exn e end.
Lemma okR_bind {A B} (Q : A → Prop) (R : B → Prop) (r : result A) (f : A → result B) :
  okR Q r → (∀ a, Q a → okR R (f a)) → okR R (r ≫= f).
Proof. destruct r; cbn; auto. Qed.
Lemma okR_mono {A} (Q R : A → Prop) r : okR Q r → (∀ a, Q a → R a) → okR R r.
Proof. destruct r; cbn; auto. Qed.

Lemma ascending_spec l : ∀ lo, ascending lo l = true → StronglySorted lt l ∧ Forall (lt lo) l.
Proof.
  induction l as [|x l IH]; intros lo; cbn; [by repeat constructor|]. intros [H1 H2]%andb_true_iff. apply Nat.ltb_lt in H1.
  destruct (IH _ H2) as [H3 H4]. split; [by constructor|]. constructor; [done|]. by eapply Forall_lt_weaken.
Qed.
Lemma namesb_ok N l : namesb N l = true → names_ok N l.
Proof.
  intros [H1 H2]%andb_true_iff. apply ascending_spec in H1 as [H1 H3]. split; [done|]. rewrite Forall_forall in *. intros x Hx.
  specialize (H3 _ Hx). rewrite forallb_forall in H2. specialize (H2 x). apply list_elem_of_In in Hx. apply H2, Nat.leb_le in Hx. lia.
Qed.

Lemma zip_sorted (l : list Symbol) k : sorted_syms l → weakly_sorted (zip l (seq k (length l))).
Proof.
  unfold weakly_sorted. rewrite fst_zip by (by rewrite length_seq). unfold sorted_syms. induction 1 as [|x l H IH HF]; constructor; [done|].
  eapply Forall_impl; [exact HF|]. cbn. lia.
Qed.
Lemma sort_insert_sorted v l : weakly_sorted l → weakly_sorted (sort_insert v l).
Proof.
  unfold weakly_sorted. induction l as [|w l IH]; cbn [sort_insert fmap list_fmap]; [by repeat constructor|]. intros H. pose proof H as H'.
  apply StronglySorted_inv in H' as [H1 H2]. destruct (_ <? _)%nat eqn:E.
  - apply Nat.ltb_lt in E. constructor; [done|]. constructor; [lia|]. eapply Forall_impl; [exact H2|]. cbn. lia.
  - apply Nat.ltb_ge in E. constructor; [auto|]. rewrite (sort_insert_perm v l). by constructor.
Qed.
Lemma senv_sort_sorted l : weakly_sorted (senv_sort l).
Proof.
  unfold senv_sort. assert (∀ acc, weakly_sorted acc → weakly_sorted (foldl (λ acc v, sort_insert v acc) acc l)) as H; [|by apply H; constructor].
  induction l as [|v l IH]; intros acc Ha; cbn; [done|]. by apply IH, sort_insert_sorted.
Qed.

Lemma rec_vars_eq {E F} (l : list (Symbol * AttrDef E)) (k : list (Symbol * AttrDef F)) : l.*1 = k.*1 → rec_vars l = rec_vars k.
Proof. intros H. unfold rec_vars. rewrite <- (length_fmap fst l), <- (length_fmap fst k). by rewrite H. Qed.
Lemma senv_ok_rec {E} (l : list (Symbol * AttrDef E)) env sh : sorted_syms l.*1 → senvp_ok env sh → senvp_ok (rec_env l env) (rec_frame l :: sh).
Proof.
  intros Hl He. split; [split|by destruct env].
  - unfold rec_vars. rewrite <- (length_fmap fst l). by apply zip_sorted.
  - intros [x d] Hv. by apply (list_elem_of_fmap_2 snd) in Hv.
Qed.
Lemma senv_ok_lambda {E} arg (fs : option (FormalsOf E)) env sh :
  senvp_ok env sh → senvp_ok (lambda_env arg fs env) (lambda_frame arg fs :: sh).
Proof.
  intros He. split; [split|by destruct env].
  - unfold lambda_vars. destruct fs as [f|]; [apply senv_sort_sorted|]. unfold lambda_names. rewrite app_nil_r.
    destruct (arg =? 0)%nat; by repeat constructor.
  - intros [x d] Hv. by apply (list_elem_of_fmap_2 snd) in Hv.
Qed.
Lemma senv_ok_with env sh : senvp_ok env sh → with_ok (FWith :: sh) (bind_with env) ∧ senvp_ok (Some (SEnv (Some (bind_with env)) env [])) (FWith :: sh).
Proof.
  intros He. assert (with_ok (FWith :: sh) (bind_with env)) as Hw; [|by split; [|split; [|destruct env]]].
  unfold bind_with. cbn [with_ok]. split; [done|]. destruct env as [se|]; [|done]. cbn. pose proof (with_level_ok se sh He) as H.
  destruct (nearest_with se) as [w|]; [|done]. destruct H as (k & -> & Hk). done.
Qed.
Lemma senv_ok_inherit {E} (froms : option (list E)) env sh l :
  senvp_ok env sh → froms = Some l → senvp_ok (inherit_env froms env) (FInherit (length l) :: sh).
Proof. intros He ->. split; [split|by destruct env]; [constructor|]. intros v Hv. by apply elem_of_nil in Hv. Qed.

Lemma bindVar_ok N name env sh : senvp_ok env sh → okR (bound N sh) (bindVar name env).
Proof.
  intros He. unfold bindVar. destruct env as [se|]; [|done]. destruct (find_var_ok name se sh 0 He) as (o & -> & Ho). cbn.
  destruct o as [[l d]|]; cbn.
  - destruct (Ho l d eq_refl) as (k & f & -> & Hk & Hd). exists f. done.
  - pose proof (with_level_ok se sh He) as H. destruct (nearest_with se) as [w|]; [|by rewrite H]. destruct H as (k & -> & Hk). done.
Qed.

Section resolve.
Context (N : Prog).

Definition resolves (e : Expr) : Prop :=
  ∀ env sh, parsed N e = true → senvp_ok env sh → okR (bound N sh) (bindVars e env).

Ltac okstep lem := eapply okR_bind; [apply lem; (done || by tauto)|].

Section parts.
Context (env : SEnvP) (sh : list Frame) (He : senvp_ok env sh).
Abbreviation bind := (λ e, bindVars e env).

Lemma mapL_ok l : allP resolves l → forallb (parsed N) l = true → okR (λ l', allP (bound N sh) l' ∧ length l' = length l) (mapL bind l).
Proof.
  induction l as [|x l IH]; cbn; [done|]. intros [Hx Hl] [Px Pl]%andb_true_iff. eapply okR_bind; [by apply Hx|]. intros y Hy.
  eapply okR_bind; [by apply IH|]. intros ys [H1 H2]. cbn. split; [done|]. by rewrite H2.
Qed.
Lemma mapO_ok o : allO resolves o → parsed_opt (parsed N) o = true → okR (allO (bound N sh)) (mapO bind o).
Proof. destruct o as [e|]; [|done]. cbn. intros Ho Hp. eapply okR_bind; [by apply Ho|]. done. Qed.
Lemma mapPath_ok l : allPath resolves l → parsed_path (parsed N) l = true → okR (allPath (bound N sh)) (mapPath bind l).
Proof.
  induction l as [|[x|e] l IH]; cbn; [done| |].
  - intros Hl Pl. eapply okR_bind; [by apply IH|]. done.
  - intros [Hx Hl] [Px Pl]%andb_true_iff. eapply okR_bind; [by apply Hx|]. intros y Hy. eapply okR_bind; [by apply IH|]. done.
Qed.
Lemma mapPairs_ok l : allPairs resolves l → forallb (λ x, parsed N x.1 && parsed N x.2) l = true → okR (allPairs (bound N sh)) (mapPairs bind l).
Proof.
  induction l as [|[n v] l IH]; cbn; [done|]. intros (Hn & Hv & Hl) [[Pn Pv]%andb_true_iff Pl]%andb_true_iff.
  eapply okR_bind; [by apply Hn|]. intros n' Hn'. eapply okR_bind; [by apply Hv|]. intros v' Hv'. eapply okR_bind; [by apply IH|]. done.
Qed.
Lemma mapFormals_ok l : allFormals resolves l → forallb (λ x, parsed_opt (parsed N) x.2) l = true →
  okR (λ l', allFormals (bound N sh) l' ∧ l'.*1 = l.*1 ∧ forallb has_default l' = forallb has_default l) (mapFormals bind l).
Proof using He.
  induction l as [|[x o] l IH]; cbn; [done|]. intros [Ho Hl] [Po Pl]%andb_true_iff.
  eapply (okR_bind (λ o', allO (bound N sh) o' ∧ has_default (x, o') = has_default (x, o))).
  { destruct o as [e|]; [|done]. cbn. eapply okR_bind; [by apply Ho|]. done. }
  intros o' [Ho' Hd]. eapply okR_bind; [by apply IH|]. intros l' (H1 & H2 & H3). cbn. by rewrite H2, H3, Hd.
Qed.
End parts.

(** What is inherited from an expression is resolved already. *)
Lemma inherits_bound n e env sh : inherits_from n e = true → bindVars e env = Ok e ∧ bound N (FInherit n :: sh) e.
Proof.
  destruct e as [| | | | | |e path def| | | | | | | | | | | |]; try done. destruct e; try done. destruct path as [|[x|] [|]]; try done. destruct def; [done|].
  cbn. intros H%Nat.ltb_lt. split; [done|]. split; [|done]. eexists. by split.
Qed.
Lemma mapDefs_ok env sh inner shi (froms : option (list Expr)) (l : list (Symbol * AttrDef Expr)) :
  let n := match froms with Some l => length l | None => 0%nat end in
  senvp_ok env sh → senvp_ok inner shi → allDefs resolves resolves resolves l →
  forallb (λ x : Symbol * AttrDef Expr,
    match ad_kind x.2 with InheritedFrom => inherits_from n (ad_e x.2) | _ => parsed N (ad_e x.2) end) l = true →
  okR (λ l', l'.*1 = l.*1 ∧ allDefs (bound N shi) (bound N sh) (λ e, has_froms froms ∧ bound N (inherit_frames froms shi) e) l')
    (mapDefs (λ e, bindVars e inner) (λ e, bindVars e env) (λ e, bindVars e (inherit_env froms inner)) l).
Proof.
  intros n He Hi. induction l as [|[x [k e d]] l IH]; cbn [mapDefs allDefs forallb ad_kind ad_e ad_displ snd fst]; [done|].
  intros [Hx Hl] [Px Pl]%andb_true_iff.
  eapply (okR_bind (λ e', match k with Plain => bound N shi e' | Inherited => bound N sh e'
    | InheritedFrom => has_froms froms ∧ bound N (inherit_frames froms shi) e' end)).
  - destruct k; [by apply Hx|by apply Hx|]. destruct froms as [fl|].
    + destruct (inherits_bound _ _ (inherit_env (Some fl) inner) shi Px) as [-> Hb]. split; [by eexists|done].
    + unfold n in Px. exfalso. clear -Px. destruct e as [| | | | | |e path def| | | | | | | | | | | |]; try done. destruct e; try done.
      destruct path as [|[x|] [|]]; try done. by destruct def.
  - intros e' He'. eapply okR_bind; [by apply IH|]. intros l' [H1 H2]. cbn. split; [by rewrite <- H1|]. split; [|done]. by destruct k.
Qed.

Lemma number_attrs_names {E} (l : list (Symbol * AttrDef E)) : (number_attrs l).*1 = l.*1.
Proof.
  unfold number_attrs. generalize 0%nat. induction l as [|x l IH]; intros k; cbn; [done|]. f_equal. apply IH.
Qed.
Lemma number_attrs_defs {E} (P Q R : E → Prop) l : allDefs P Q R l → allDefs P Q R (number_attrs l).
Proof.
  unfold number_attrs. generalize 0%nat. induction l as [|[x [k e d]] l IH]; intros i; cbn; [done|]. intros [H1 H2]. split; [done|]. by apply IH.
Qed.
Lemma number_attrs_displs {E} (l : list (Symbol * AttrDef E)) : displs_ok (number_attrs l).
Proof.
  unfold displs_ok, number_attrs. intros i x d H. apply lookup_zip_with_Some in H as (y & j & [= -> ->] & _ & Hj). cbn.
  by apply lookup_seq in Hj as [-> _].
Qed.
Lemma inherit_frames_length {E F} (o : option (list E)) (o' : option (list F)) sh :
  length <$> o = length <$> o' → inherit_frames o sh = inherit_frames o' sh ∧ (has_froms o ↔ has_froms o').
Proof.
  destruct o, o'; cbn; try done.
  - intros [= ->]. split; [done|]. by split; eexists.
  - intros _. split; [done|]. by split; intros [? [=]].
Qed.
Lemma mapFroms_ok env sh froms :
  senvp_ok env sh → allO (allP resolves) froms → match froms with Some l => forallb (parsed N) l | None => true end = true →
  okR (λ o, allO (allP (bound N sh)) o ∧ length <$> o = length <$> froms) (mapO (mapL (λ e, bindVars e env)) froms).
Proof.
  intros He. destruct froms as [l|]; [|done]. cbn. intros Hl Pl. eapply okR_bind; [by apply mapL_ok|]. intros l' [H1 H2]. cbn. by rewrite H2.
Qed.

(** The definitions of a set. *)
Lemma set_ok env sh a :
  senvp_ok env sh → parsed_set N (parsed N) a = true → allO (allP resolves) (inheritFromExprs a) → allDefs resolves resolves resolves (attrs a) →
  names_ok N (attrs a).*1 ∧ ∀ inner shi, senvp_ok inner shi →
  okR (λ r : option (list Expr) * list (Symbol * AttrDef Expr), allO (allP (bound N shi)) r.1 ∧ r.2.*1 = (attrs a).*1 ∧
      allDefs (bound N shi) (bound N sh) (λ e, has_froms r.1 ∧ bound N (inherit_frames r.1 shi) e) r.2)
    (froms ← mapO (mapL (λ e, bindVars e inner)) (inheritFromExprs a);
     defs ← mapDefs (λ e, bindVars e inner) (λ e, bindVars e env) (λ e, bindVars e (inherit_env (inheritFromExprs a) inner)) (attrs a);
     Ok (froms, defs)).
Proof.
  unfold parsed_set. cbv zeta. intros He Hp Hfroms Hdefs. do 3 (apply andb_true_iff in Hp as [Hp ?]). split; [by apply namesb_ok|]. intros inner shi Hi.
  eapply okR_bind; [by apply mapFroms_ok|]. intros o [Ho El]. eapply okR_bind; [by apply mapDefs_ok|]. intros l' [K1 K2]. cbn.
  destruct (inherit_frames_length o (inheritFromExprs a) shi El) as [Ef Eh]. split_and!; [done|done|]. rewrite Ef. clear -K2 Eh.
  induction l' as [|[x [k e d]] l' IH]; cbn in *; [done|]. destruct K2 as [K2 K3]. split; [|auto]. destruct k; try done. by rewrite Eh.
Qed.
Lemma bind_assoc {A B C} (r : result A) (f : A → result B) (g : B → result C) : (r ≫= f) ≫= g = r ≫= λ a, f a ≫= g.
Proof. by destruct r. Qed.

Lemma resolves_Attrs a :
  allO (allP resolves) (inheritFromExprs a) → allDefs resolves resolves resolves (attrs a) → allPairs resolves (dynamicAttrs a) → resolves (ExprAttrs a).
Proof.
  intros Hf Hd Hdy env sh Hp He. destruct (set_ok env sh a He Hp Hf Hd) as [Hn Hset].
  assert (forallb (λ x, parsed N x.1 && parsed N x.2) (dynamicAttrs a) = true) as Pd by (by apply andb_true_iff in Hp as [_ ?]).
  cbn [bindVars]. set (inner := if recursive a then _ else _). set (shi := if recursive a then rec_frame (attrs a) :: sh else sh).
  assert (senvp_ok inner shi) as Hi by (unfold inner, shi; destruct (recursive a); [apply senv_ok_rec; [apply Hn|done]|done]).
  specialize (Hset inner shi Hi). cbv zeta. revert Hset. destruct (mapO _ (inheritFromExprs a)) as [o|e]; [|done]. cbn.
  destruct (mapDefs _ _ _ (attrs a)) as [l|e]; [|done]. cbn. intros (Ho & Hl & Hdefs).
  eapply okR_bind; [by apply (mapPairs_ok inner shi)|]. intros dy Hdy'. cbn [okR bound recursive attrs inheritFromExprs dynamicAttrs].
  assert (∀ l' : list (Symbol * AttrDef Expr), l'.*1 = (attrs a).*1 → (if recursive a then rec_frame l' :: sh else sh) = shi) as Es.
  { intros l' E. unfold shi. destruct (recursive a); [|done]. unfold rec_frame. by rewrite (rec_vars_eq _ _ E). }
  destruct (recursive a) eqn:Er.
  - rewrite (Es (number_attrs l)) by (by rewrite number_attrs_names). rewrite number_attrs_names, Hl. split_and!; [done| |done| |done].
    + intros _. apply number_attrs_displs.
    + by apply number_attrs_defs.
  - rewrite Hl. by split_and!.
Qed.
Lemma resolves_Let a body :
  allO (allP resolves) (inheritFromExprs a) → allDefs resolves resolves resolves (attrs a) → resolves body → resolves (ExprLet a body).
Proof.
  intros Hf Hd Hb env sh Hp He. cbn in Hp. apply andb_true_iff in Hp as [Hp Pb]. destruct (set_ok env sh a He Hp Hf Hd) as [Hn Hset].
  cbn [bindVars]. set (inner := rec_env (attrs a) env).
  assert (senvp_ok inner (rec_frame (attrs a) :: sh)) as Hi by (apply senv_ok_rec; [apply Hn|done]).
  specialize (Hset inner _ Hi). cbv zeta. revert Hset. destruct (mapO _ (inheritFromExprs a)) as [o|e]; [|done]. cbn.
  destruct (mapDefs _ _ _ (attrs a)) as [l|e]; [|done]. cbn. intros (Ho & Hl & Hdefs).
  eapply okR_bind; [by apply (Hb inner)|]. intros b' Hb'. cbn [okR bound attrs inheritFromExprs].
  assert (rec_frame (number_attrs l) = rec_frame (attrs a)) as Es.
  { unfold rec_frame. f_equal. apply rec_vars_eq. by rewrite number_attrs_names. }
  rewrite Es. split_and!; [done|by apply number_attrs_defs|done].
Qed.
Lemma resolves_Lambda arg fs body : allO (λ f, allFormals resolves (formals f)) fs → resolves body → resolves (ExprLambda arg fs body).
Proof.
  intros Hf Hb env sh Hp He. cbn in Hp. apply andb_true_iff in Hp as [Hp Pb]. cbn [bindVars]. cbv zeta.
  pose proof (senv_ok_lambda arg fs env sh He) as Hi. set (inner := lambda_env arg fs env) in *.
  eapply (okR_bind (λ fs', lambda_frame arg fs' = lambda_frame arg fs ∧
    match fs' with Some f => (names_ok N (formals f).*1 ∧ strict N || lenient f = true) ∧ allFormals (bound N (lambda_frame arg fs :: sh)) (formals f) | None => (arg ≠ 0)%nat end)).
  - destruct fs as [f|]; [|by apply negb_true_iff, Nat.eqb_neq in Hp]. apply andb_true_iff in Hp as [[Pn Pl]%andb_true_iff Pf].
    eapply okR_bind; [by apply (mapFormals_ok inner)|]. intros l (H1 & H2 & H3). cbn [okR formals]. rewrite H2. split.
    + unfold lambda_frame, lambda_vars, lambda_names. cbn [formals]. by rewrite H2.
    + split; [|done]. split; [by apply namesb_ok|]. revert Pl. unfold lenient. cbn [formals ellipsis]. by rewrite H3.
  - intros fs' [Ef Hfs']. eapply okR_bind; [by apply (Hb inner)|]. intros b' Hb'. cbn [okR bound]. rewrite Ef. done.
Qed.

Lemma bindVars_ok e : resolves e.
Proof.
  induction e using Expr_ind'; try (by apply resolves_Attrs); try (by apply resolves_Let); try (by apply resolves_Lambda);
    intros env sh Hp He; cbn [bindVars]; cbn [parsed] in Hp; repeat (apply andb_true_iff in Hp as [Hp ?]).
  - destruct e; try done. by apply bindVar_ok.
  - eapply okR_bind; [by apply IHe|]. intros e' H3. eapply okR_bind; [by apply mapO_ok|]. intros d' H4.
    eapply okR_bind; [by apply mapPath_ok|]. done.
  - eapply okR_bind; [by apply IHe|]. intros e' H3. eapply okR_bind; [by apply mapPath_ok|]. done.
  - eapply okR_bind; [by apply mapL_ok|]. intros l' [H3 _]. done.
  - eapply okR_bind; [by apply IHe|]. intros e' H3. eapply okR_bind; [by apply mapL_ok|]. intros l' [H4 _]. done.
  - destruct (senv_ok_with env sh He) as [Hw Hi]. cbv zeta. eapply okR_bind; [by apply IHe1|]. intros e1' H3.
    eapply okR_bind; [by apply IHe2|]. done.
  - eapply okR_bind; [by apply IHe1|]. intros e1' H3. eapply okR_bind; [by apply IHe2|]. intros e2' H4. eapply okR_bind; [by apply IHe3|]. done.
  - eapply okR_bind; [by apply IHe1|]. intros e1' H3. eapply okR_bind; [by apply IHe2|]. done.
  - eapply okR_bind; [by apply IHe|]. done.
  - eapply okR_bind; [by apply IHe1|]. intros e1' H3. eapply okR_bind; [by apply IHe2|]. done.
  - eapply okR_bind; [by apply mapL_ok|]. intros l' [H3 _]. done.
Qed.
End resolve.
