(* ===== verification/EvalSafe.v ===== *)
(** The evaluator cannot fail badly.

    The state after the base environment was created and the program parsed is
    well-formed, so everything the evaluator does from there on is covered by
    the invariant. *)

From S2P Require Import Prelude State Strings Xp CanonPath StorePath DerivedPath Expr Value Eval Primops EvalInv.
From S2P Require Import EvalOk EvalOps EvalData PrimopsSets PrimopsOk BindOk.

(** The operations without [break] and [appendContext]. *)
Definition crash_freeb (p : PrimOp) : bool := match p with PBreak | PAppendContext => false | _ => true end.
Definition safe_ops : list (str * PrimOp) := filter (λ x, crash_freeb x.2 = true) primOps.
Lemma crash_freeb_ok p : crash_freeb p = true → crash_free p.
Proof. destruct p; try done; intros _; by split. Qed.

(** The state in which the program [names] belong to is bound. *)
Definition start (ops : list (str * PrimOp)) (names : list str) : EvalState :=
  ((se ← createBaseEnv ops; mapS createSymbol names;; mret se) new_state).2.

(** * The base environment *)

Definition base_run : result StaticEnv * EvalState := Eval vm_compute in createBaseEnv safe_ops new_state.
Definition base_state : EvalState := base_run.2.
Definition base_vars : list (Symbol * nat) := match base_run.1 with Ok (SEnv _ _ vars) => vars | Throw _ => [] end.
Lemma base_created : createBaseEnv safe_ops new_state = (Ok (SEnv None None base_vars), base_state).
Proof. vm_compute. reflexivity. Qed.

(** A check of values that need no environment. *)
Definition const_ok (s : EvalState) (v : Value) : bool :=
  match v with
  | VBool _ | VNull => true
  | VPrimOp p => crash_freeb p
  | VAttrs b =>
      ascending 0 b.*1 && forallb (λ x : Attr, (x.1 <=? length (symbols s))%nat && (x.2 <? length (values s))%nat) b
  | _ => false
  end.
Lemma const_vok N s v : const_ok s v = true → vok N (MkWorld s []) v.
Proof.
  destruct v; try done; cbn [const_ok vok]; [|by apply crash_freeb_ok]. intros [H1 H2]%andb_true_iff. apply ascending_spec in H1 as [H1 H3].
  split; [done|]. rewrite Forall_forall in H3. apply Forall_forall. intros x Hx. rewrite forallb_forall in H2. specialize (H2 x (proj1 (list_elem_of_In _ _) Hx)).
  apply andb_true_iff in H2 as [H2 H4]. apply Nat.leb_le in H2. apply Nat.ltb_lt in H4.
  specialize (H3 _ (list_elem_of_fmap_2 fst _ _ Hx)). split; [unfold sym_ok; cbn; lia|]. split; [done|]. apply not_elem_of_nil.
Qed.

Definition base_frame : Frame := FVars base_vars.
Lemma base_values : Forall (λ v, const_ok base_state v = true) (values base_state).
Proof. apply Forall_forall. intros v Hv. apply list_elem_of_In in Hv. revert v Hv. apply forallb_forall. vm_compute. reflexivity. Qed.
Lemma base_symbols : (∃ t, symbols base_state = initial_symbols ++ t) ∧ NoDup (symbols base_state) ∧ Forall no_nul (symbols base_state).
Proof.
  split_and!.
  - exists (drop (length initial_symbols) (symbols base_state)). vm_compute. reflexivity.
  - apply (bool_decide_unpack _). vm_compute. exact I.
  - apply Forall_forall. intros x Hx. apply no_nul_dec. apply list_elem_of_In in Hx. revert x Hx. apply forallb_forall. vm_compute. reflexivity.
Qed.
Lemma base_env_ok : env_ok (MkWorld base_state []) [base_frame] 0.
Proof.
  cbn [env_ok]. destruct (envs base_state !! 0%nat) as [env|] eqn:Ee; [|by vm_compute in Ee]. exists env. split; [done|]. split; [|done].
  assert (forallb (λ d, match env_values env !! d with Some (Some v) => (v <? length (values base_state))%nat | _ => false end) base_vars.*2 = true) as H.
  { vm_compute in Ee. injection Ee as <-. vm_compute. reflexivity. }
  intros d Hd. rewrite forallb_forall in H. specialize (H d (proj1 (list_elem_of_In _ _) Hd)).
  destruct (env_values env !! d) as [[v|]|] eqn:Ev; try done. apply Nat.ltb_lt in H. exists v. split; [done|]. split; [done|apply not_elem_of_nil].
Qed.
Lemma base_senv_ok : senvp_ok (Some (SEnv None None base_vars)) [base_frame].
Proof.
  split; [split|done].
  - unfold weakly_sorted. assert (ascending 0 base_vars.*1 = true) as H by (vm_compute; reflexivity). apply ascending_spec in H as [H _].
    clear -H. induction H as [|x l H IH HF]; constructor; [done|]. eapply Forall_impl; [exact HF|]. cbn. lia.
  - intros v Hv. by apply (list_elem_of_fmap_2 snd).
Qed.

(** * The symbols of the program *)

Lemma createSymbol_step x s :
  no_nul x → NoDup (symbols s) → Forall no_nul (symbols s) →
  ∃ y t, createSymbol x s = (Ok y, set_symbols (symbols s ++ t) s) ∧ NoDup (symbols s ++ t) ∧ Forall no_nul (symbols s ++ t).
Proof.
  intros Hx Hn Hf. unfold createSymbol, symbol_create. destruct (find_index x (symbols s)) as [i|] eqn:E.
  - exists (S i), []. rewrite app_nil_r. by destruct s.
  - exists (S (length (symbols s))), [x]. apply find_index_None in E. split; [done|]. split.
    + apply NoDup_app. split_and!; [done| |apply NoDup_singleton]. by intros y Hy ->%list_elem_of_singleton.
    + apply Forall_app. split; [done|]. by apply Forall_singleton.
Qed.
Lemma createSymbols names : ∀ s, Forall no_nul names → NoDup (symbols s) → Forall no_nul (symbols s) →
  ∃ ys t, mapS createSymbol names s = (Ok ys, set_symbols (symbols s ++ t) s) ∧ NoDup (symbols s ++ t) ∧ Forall no_nul (symbols s ++ t).
Proof.
  induction names as [|x names IH]; intros s Hx Hn Hf; [exists [], []; rewrite app_nil_r; by destruct s|].
  apply Forall_cons in Hx as [Hx Hxs]. destruct (createSymbol_step x s Hx Hn Hf) as (y & t & E & Hn' & Hf').
  destruct (IH (set_symbols (symbols s ++ t) s) Hxs Hn' Hf') as (ys & u & E2 & Hn2 & Hf2). exists (y :: ys), (t ++ u).
  cbn [symbols set_symbols] in *. rewrite app_assoc. split; [|done].
  change (mapS createSymbol (x :: names)) with (y ← createSymbol x; ys ← mapS createSymbol names; mret (y :: ys)).
  unfold mbind, StE_bind. by rewrite E, E2.
Qed.

Definition start_world (t : SymbolTable) : World := MkWorld (set_symbols t base_state) [].
Lemma start_ext t : ext [] (MkWorld base_state []) (start_world (symbols base_state ++ t)).
Proof. constructor; [done|done| |by eexists]. intros a env He. exists env. split_and!; try done; auto. Qed.
Lemma start_inv strict t :
  NoDup (symbols base_state ++ t) → Forall no_nul (symbols base_state ++ t) →
  Inv (MkProg (length (symbols base_state ++ t)) strict) (start_world (symbols base_state ++ t)).
Proof.
  intros Hn Hf. constructor; [|constructor| |done|done].
  - intros a v _ Hv. eapply vok_mono; [apply start_ext|]. apply const_vok. exact (Forall_lookup_1 _ _ _ _ base_values Hv).
  - destruct base_symbols as [(u & Eu) _]. exists (u ++ t). cbn [start_world st set_symbols symbols]. by rewrite Eu, app_assoc.
Qed.
Lemma start_spec names :
  Forall no_nul names → ∃ t, start safe_ops names = set_symbols (symbols base_state ++ t) base_state ∧
  NoDup (symbols base_state ++ t) ∧ Forall no_nul (symbols base_state ++ t) ∧
  ∀ A (f : StaticEnv → EM A), (se ← createBaseEnv safe_ops; mapS createSymbol names;; f se) new_state =
    f (SEnv None None base_vars) (set_symbols (symbols base_state ++ t) base_state).
Proof.
  intros Hx. destruct base_symbols as (_ & Hn & Hf). destruct (createSymbols names base_state Hx Hn Hf) as (ys & t & E & H). exists t.
  assert (∀ A (f : StaticEnv → EM A), (se ← createBaseEnv safe_ops; mapS createSymbol names;; f se) new_state =
    f (SEnv None None base_vars) (set_symbols (symbols base_state ++ t) base_state)) as Hf'.
  { intros A f. unfold mbind, StE_bind. rewrite base_created, E. done. }
  split_and!; [|apply H|apply H|done]. unfold start. by rewrite Hf'.
Qed.

(** * The theorem *)

Lemma may_throw_only N x : may_throw N x → x ≠ UndefinedBehaviour ∧ x ≠ AssertionFailure ∧ (x = InactiveMember → strict N = true).
Proof. intros [(H1 & H2 & H3)|[-> H]]; split_and!; done. Qed.

(** [C4] Evaluation is safe, in the base environment without [break] and
    [appendContext], which are not (see below). Whatever a program of the parser
    does there, with any number of evaluation steps, the evaluator never fails
    an [assert], and its only undefined behaviour is the one the error messages
    about refused arguments can have: it never reads an empty slot of an
    environment or leaves its bounds, never overflows a set under construction,
    searches only sorted sets, and compares and dispatches only on evaluated
    values. A program that is not [strict], none of whose functions can refuse a
    set of arguments, does not have that behaviour either. What evaluation
    returns is evaluated, and all that the final heap refers to is there. *)
Theorem evaluation_safe (cfg : Config) (fuel : nat) (names : list str) (strict : bool) (e : Expr) :
  let N := MkProg (length (symbols (start safe_ops names))) strict in
  CfgOk cfg → Forall no_nul names → parsed N e = true →
  match run cfg fuel safe_ops names e new_state with
  | (Ok v, s) => type v ≠ nThunk ∧ ∃ w, st w = s ∧ Inv N w ∧ vok N w v
  | (Throw x, _) => x ≠ UndefinedBehaviour ∧ x ≠ AssertionFailure ∧ (x = InactiveMember → strict = true)
  end.
Proof.
  intros N HC Hx Hp. destruct (start_spec names Hx) as (t & Es & Hn & Hf & Hrun). subst N. rewrite Es in Hp |- *. cbn [symbols set_symbols] in Hp |- *.
  pose proof (start_inv strict t Hn Hf) as HI. unfold run. rewrite (Hrun _ (λ se, e ← lift (bindVars e (Some se)); ev_eval (evaluator cfg fuel) e 0%nat)).
  pose proof (bindVars_ok _ e _ _ Hp base_senv_ok) as Hb. unfold mbind at 1, StE_bind at 1, lift.
  destruct (bindVars e _) as [e'|x]; [|change (ok_exn x) in Hb; exact (may_throw_only (MkProg 0 strict) x (or_introl Hb))].
  pose proof (sat_run _ _ _ (ok_eval _ _ (EvOk_evaluator _ cfg HC fuel) (start_world _) [base_frame] e' 0%nat
    (env_ok_mono _ _ _ (start_ext t) _ _ base_env_ok) Hb) HI) as H.
  change (st (start_world (symbols base_state ++ t))) with (set_symbols (symbols base_state ++ t) base_state) in H.
  destruct (ev_eval _ e' 0%nat _) as [[v|x] s]; [|exact (may_throw_only _ _ H)]. destruct H as (w & <- & HIw & Hv & Hw). split; [exact Hw|].
  exists w. exact (conj eq_refl (conj HIw Hv)).
Qed.

(** * Programs *)

Definition sample_cfg : Config :=
  MkConfig 10000 "/bsd/store" [] (λ _ _, Throw (Error "no such file")) (λ _, "0.5"%str) (λ _ _, None)
    (λ _, Throw (Error "not built")) (λ _, Ok tt) true.
Lemma sample_cfg_ok : CfgOk sample_cfg.
Proof. constructor; [done|done|]. by apply no_nul_dec. Qed.

Section programs.
Context (ops : list (str * PrimOp)) (names : list str).
Definition sym (x : str) : Symbol := match find_index x (symbols (start ops names)) with Some i => S i | None => 0%nat end.
Definition var (x : str) : Expr := ExprVar (sym x) None 0 0.
Definition builtin (x : str) : Expr := ExprSelect (var "builtins") [inl (sym x)] None.
Definition plus (e1 e2 : Expr) : Expr := ExprConcatStrings false [e1; e2].
Definition single (x : str) (e : Expr) : AttrsOf Expr := MkAttrs false [(sym x, MkAttrDef Plain e 0)] None [].
End programs.

(** [let a = 2; in with { n = a; }; builtins.foldl' (x: y: x + y * n) 0 [ 1 a ]] *)
Definition sample_names : list str := ["a"; "n"; "x"; "y"]%str.
Definition sample_expr : Expr := Eval vm_compute in
  let v := var safe_ops sample_names in
  let s := sym safe_ops sample_names in
  ExprLet (single safe_ops sample_names "a" (ExprInt 2))
    (ExprWith (ExprAttrs (single safe_ops sample_names "n" (v "a")))
      (ExprCall (builtin safe_ops sample_names "foldl'")
        [ExprLambda (s "x") None (ExprLambda (s "y") None (plus (v "x") (ExprCall (v "__mul") [v "y"; v "n"])));
         ExprInt 0; ExprList [ExprInt 1; v "a"]])
      (MkWith 0 None)).
Lemma evaluation_safe_witness :
  (run sample_cfg 60 safe_ops sample_names sample_expr new_state).1 = Ok (VInt 6) ∧
  match run sample_cfg 60 safe_ops sample_names sample_expr new_state with
  | (Ok v, s) => type v ≠ nThunk ∧ ∃ w, st w = s ∧ Inv (MkProg (length (symbols (start safe_ops sample_names))) false) w ∧
      vok (MkProg (length (symbols (start safe_ops sample_names))) false) w v
  | (Throw x, _) => x ≠ UndefinedBehaviour ∧ x ≠ AssertionFailure ∧ (x = InactiveMember → false = true)
  end.
Proof.
  split; [vm_compute; reflexivity|]. apply (evaluation_safe sample_cfg 60 sample_names false sample_expr).
  - apply sample_cfg_ok.
  - repeat constructor; by apply no_nul_dec.
  - vm_compute. reflexivity.
Defined.

(** [[ (break (1 + 1)) ] == [ (break (1 + 1)) ]] fails an assertion: [break]
    returns its argument unevaluated, and values of lists are compared as if
    they were evaluated. *)
Definition break_expr : Expr := Eval vm_compute in
  let b := ExprList [ExprCall (var primOps [] "break") [plus (ExprInt 1) (ExprInt 1)]] in ExprBinOp OpEq b b.
Lemma break_crashes : (run sample_cfg 60 primOps [] break_expr new_state).1 = Throw AssertionFailure.
Proof. vm_compute. reflexivity. Qed.

(** [builtins.appendContext "a" { "" = { }; }] fails the assertion that a path
    is not empty. *)
Definition appendContext_expr : Expr := Eval vm_compute in
  ExprCall (builtin primOps [] "appendContext")
    [ExprString "a"; ExprAttrs (single primOps [] "" (ExprAttrs (MkAttrs false [] None [])))].
Lemma appendContext_crashes : (run sample_cfg 60 primOps [] appendContext_expr new_state).1 = Throw AssertionFailure.
Proof. vm_compute. reflexivity. Qed.

(** [builtins.head [ ({ a }: a) ] { }]: the error about the missing argument
    reads the environment of [head], which has none. *)
Definition refused_names : list str := ["a"]%str.
Definition refused_expr : Expr := Eval vm_compute in
  let a := sym primOps refused_names "a" in
  ExprCall (builtin primOps refused_names "head")
    [ExprList [ExprLambda 0 (Some (MkFormals [(a, None)] false)) (var primOps refused_names "a")]; ExprAttrs (MkAttrs false [] None [])].
Lemma refused_argument_undefined : (run sample_cfg 60 primOps refused_names refused_expr new_state).1 = Throw InactiveMember.
Proof. vm_compute. reflexivity. Qed.
