(* ===== verification/EvalFuel.v ===== *)
(** More fuel does not change a result.

    [approx m m'] states that [m] ran out of fuel or did the same as [m']. The
    functions of the evaluator are monotone in this order, so two runs with
    enough fuel agree. *)

From S2P Require Import Prelude State Strings Lexical Sort Xp CanonPath StorePath DerivedPath Names Expr Value Eval Primops EvalSafe.

Definition approx {S A} (m m' : StE S A) : Prop := ∀ s, (m s).1 = Throw NonTermination ∨ m s = m' s.

Section rules.
Context {S : Type}.

Lemma approx_refl {A} (m : StE S A) : approx m m.
Proof. intros s. by right. Qed.
Lemma approx_trans {A} (m1 m2 m3 : StE S A) : approx m1 m2 → approx m2 m3 → approx m1 m3.
Proof. intros H1 H2 s. destruct (H1 s) as [?|E]; [by left|]. rewrite E. apply H2. Qed.
Lemma approx_out {A} (m : StE S A) : approx (throw NonTermination) m.
Proof. intros s. by left. Qed.
Lemma approx_bind {A B} (m m' : StE S A) (f f' : A → StE S B) : approx m m' → (∀ a, approx (f a) (f' a)) → approx (m ≫= f) (m' ≫= f').
Proof.
  intros Hm Hf s. unfold mbind, StE_bind. destruct (Hm s) as [E|E].
  - left. destruct (m s) as [[a|e] s']; [done|]. cbn in *. by injection E as ->.
  - rewrite E. destruct (m' s) as [[a|e] s']; [apply Hf|by right].
Qed.
Lemma approx_fmap {A B} (g : A → B) (m m' : StE S A) : approx m m' → approx (g <$> m) (g <$> m').
Proof. intros Hm. apply approx_bind; [done|]. intros a. apply approx_refl. Qed.
Lemma approx_foldS {A B} (f f' : B → A → StE S B) l : (∀ b x, approx (f b x) (f' b x)) → ∀ b, approx (foldS f b l) (foldS f' b l).
Proof. intros Hf. induction l as [|x l IH]; intros b; cbn [foldS]; [apply approx_refl|]. apply approx_bind; [apply Hf|exact IH]. Qed.
Lemma approx_mapS {A B} (f f' : A → StE S B) l : (∀ x, approx (f x) (f' x)) → approx (mapS f l) (mapS f' l).
Proof.
  intros Hf. induction l as [|x l IH]; cbn [mapS]; [apply approx_refl|]. apply approx_bind; [apply Hf|]. intros y.
  apply approx_bind; [exact IH|]. intros ys. apply approx_refl.
Qed.
(** A handler either does not catch that the fuel ran out or throws it again. *)
Lemma approx_catch {A} (m m' : StE S A) h h' :
  approx m m' → (∀ k, h NonTermination = Some k → ∀ s, (k s).1 = Throw NonTermination) →
  (∀ e, match h e, h' e with Some k, Some k' => approx k k' | None, None => True | _, _ => False end) → approx (catch m h) (catch m' h').
Proof.
  intros Hm Hn Hh s. unfold catch. destruct (Hm s) as [E|E].
  - left. destruct (m s) as [[a|e] s']; [done|]. cbn in E. injection E as ->. destruct (h NonTermination) as [k|] eqn:Ek; [by apply Hn|done].
  - rewrite E. destruct (m' s) as [[a|e] s']; [by right|]. specialize (Hh e). destruct (h e), (h' e); first [done | apply Hh | by right].
Qed.
End rules.

(** * Sorting *)

Create HintDb fuel.
#[export] Hint Resolve approx_refl approx_out : fuel.

(** Steps through a computation on both sides at once. *)
Ltac approx_step :=
  match goal with
  | |- approx ?m ?m' => constr_eq m m'; apply approx_refl
  | |- approx (_ ≫= _) (_ ≫= _) => apply approx_bind; [|intros ?]
  | |- approx (_ <$> _) (_ <$> _) => apply approx_fmap
  | |- approx (foldS _ _ _) (foldS _ _ _) => apply approx_foldS; intros ? ?
  | |- approx (mapS _ _) (mapS _ _) => apply approx_mapS; intros ?
  | |- approx (match ?x with _ => _ end) _ => destruct x
  end.
Ltac approx := repeat first [progress cbv beta zeta | approx_step | solve [eauto 2 with fuel nocore]].

Section sorting.
Context {S A : Type} (c c' : A → A → StE S bool) (Hc : ∀ x y, approx (c x y) (c' x y)).
#[local] Hint Resolve Hc : fuel.

Lemma approx_not_fn x y : approx (not_fn c x y) (not_fn c' x y).
Proof. unfold not_fn. approx. Qed.
Lemma approx_merge_loop left : ∀ right, approx (merge_loop c left right) (merge_loop c' left right).
Proof.
  induction left as [|x left IHl]; intros right; [destruct right; apply approx_refl|].
  induction right as [|y right IHr]; [apply approx_refl|]. cbn [merge_loop]. apply approx_bind; [apply Hc|]. intros [].
  - apply approx_bind; [exact IHr|]. intros out. apply approx_refl.
  - apply approx_bind; [apply IHl|]. intros out. apply approx_refl.
Qed.
#[local] Hint Resolve approx_not_fn approx_merge_loop : fuel.
Lemma approx_merge buffer l b m e : approx (mergeSortedRunsInPlace c buffer l b m e) (mergeSortedRunsInPlace c' buffer l b m e).
Proof. unfold mergeSortedRunsInPlace. approx. Qed.
Lemma approx_insertion_inner b k : ∀ l, approx (insertion_inner c b k l) (insertion_inner c' b k l).
Proof. induction k as [|k IH]; intros l; cbn [insertion_inner]; approx. Qed.
#[local] Hint Resolve approx_merge approx_insertion_inner : fuel.
Lemma approx_insertion_outer b n : ∀ i l, approx (insertion_outer c b n i l) (insertion_outer c' b n i l).
Proof. induction n as [|n IH]; intros i l; cbn [insertion_outer]; approx. Qed.
#[local] Hint Resolve approx_insertion_outer : fuel.
Lemma approx_insertionsort l b e : approx (insertionsort c l b e) (insertionsort c' l b e).
Proof. unfold insertionsort. approx. Qed.
#[local] Hint Resolve approx_insertionsort : fuel.
End sorting.
#[export] Hint Resolve approx_not_fn approx_merge approx_insertionsort : fuel.

Section runs.
Context {S A : Type}.
Lemma approx_prefix (c c' : A → A → StE S bool) l b e :
  (∀ x y, approx (c x y) (c' x y)) → approx (strictlyDecreasingPrefix c l b e) (strictlyDecreasingPrefix c' l b e).
Proof.
  intros Hc. unfold strictlyDecreasingPrefix. destruct (_ =? _)%nat; [apply approx_refl|]. generalize (e - b)%nat as n. intros n. revert b.
  induction n as [|n IH]; intros b; cbn [decreasing_up]; approx.
Qed.
Lemma approx_suffix (c c' : A → A → StE S bool) l b e :
  (∀ x y, approx (c x y) (c' x y)) → approx (strictlyDecreasingSuffix c l b e) (strictlyDecreasingSuffix c' l b e).
Proof.
  intros Hc. unfold strictlyDecreasingSuffix. destruct (_ =? _)%nat; [apply approx_refl|]. generalize (e - b)%nat as n. intros n. revert e.
  induction n as [|n IH]; intros e; cbn [decreasing_down]; approx.
Qed.
End runs.
#[export] Hint Resolve approx_prefix approx_suffix : fuel.

Section peeksort.
Context {S A : Type} (c c' : A → A → StE S bool) (Hc : ∀ x y, approx (c x y) (c' x y)).
#[local] Hint Resolve Hc : fuel.
Lemma approx_middle_run l L M R : approx (middle_run c l L M R) (middle_run c' l L M R).
Proof. unfold middle_run, weaklyIncreasingPrefix, weaklyIncreasingSuffix. approx; eauto 4 with fuel. Qed.
#[local] Hint Resolve approx_middle_run : fuel.
Lemma approx_peeksortImpl buffer fuel : ∀ l b e L R, approx (peeksortImpl c buffer fuel l b e L R) (peeksortImpl c' buffer fuel l b e L R).
Proof. induction fuel as [|fuel IH]; intros l b e L R; cbn [peeksortImpl]; approx; eauto 3 with fuel. Qed.
#[local] Hint Resolve approx_peeksortImpl : fuel.
Lemma approx_peeksort l : approx (peeksort c l) (peeksort c' l).
Proof. unfold peeksort. approx. Qed.
End peeksort.
#[export] Hint Resolve approx_peeksort : fuel.

(** * The evaluator *)

Record EvLe (E E' : Evaluator) : Prop := {
  le_eval : ∀ e env, approx (ev_eval E e env) (ev_eval E' e env);
  le_call : ∀ r args, approx (ev_call E r args) (ev_call E' r args);
  le_loop : ∀ fn v args, approx (ev_loop E fn v args) (ev_loop E' fn v args);
  le_coerce : ∀ r c b1 b2, approx (ev_coerce E r c b1 b2) (ev_coerce E' r c b1 b2);
  le_eq : ∀ r1 r2, approx (ev_eq E r1 r2) (ev_eq E' r1 r2);
  le_assertEq : ∀ r1 r2, approx (ev_assertEq E r1 r2) (ev_assertEq E' r1 r2);
  le_deep : ∀ seen r, approx (ev_deep E seen r) (ev_deep E' seen r);
  le_prim : ∀ p args, approx (ev_prim E p args) (ev_prim E' p args);
  le_compare : ∀ a b, approx (ev_compare E a b) (ev_compare E' a b);
  le_closure : ∀ op ws keys res, approx (ev_closure E op ws keys res) (ev_closure E' op ws keys res);
}.

Section functions.
Context (cfg : Config) (E E' : Evaluator) (HE : EvLe E E').

Let H_eval := le_eval E E' HE.
Let H_call := le_call E E' HE.
Let H_loop := le_loop E E' HE.
Let H_coerce := le_coerce E E' HE.
Let H_eq := le_eq E E' HE.
Let H_assertEq := le_assertEq E E' HE.
Let H_deep := le_deep E E' HE.
Let H_prim := le_prim E E' HE.
Let H_compare := le_compare E E' HE.
Let H_closure := le_closure E E' HE.
#[local] Hint Resolve H_eval H_call H_loop H_coerce H_eq H_assertEq H_deep H_prim H_compare H_closure : fuel.

(** Forcing and variables. *)
Lemma m_forceValue r : approx (forceValue E r) (forceValue E' r).
Proof.
  destruct r; cbn [forceValue]; approx. apply approx_catch; [apply H_eval|intros k [= <-] s; done|]. intros x. apply approx_refl.
Qed.
#[local] Hint Resolve m_forceValue : fuel.
Lemma m_forceAttrs r : approx (forceAttrs E r) (forceAttrs E' r). Proof. unfold forceAttrs. approx. Qed.
Lemma m_forceList r : approx (forceList E r) (forceList E' r). Proof. unfold forceList. approx. Qed.
Lemma m_forceInt r : approx (forceInt E r) (forceInt E' r). Proof. unfold forceInt. approx. Qed.
Lemma m_forceFloat r : approx (forceFloat E r) (forceFloat E' r). Proof. unfold forceFloat. approx. Qed.
Lemma m_forceBool r : approx (forceBool E r) (forceBool E' r). Proof. unfold forceBool. approx. Qed.
Lemma m_forceString r : approx (forceString E r) (forceString E' r). Proof. unfold forceString. approx. Qed.
#[local] Hint Resolve m_forceAttrs m_forceList m_forceInt m_forceFloat m_forceBool m_forceString : fuel.
Lemma m_forceStringCtx r c : approx (forceStringCtx cfg E r c) (forceStringCtx cfg E' r c). Proof. unfold forceStringCtx. approx. Qed.
Lemma m_forceStringNoCtx r : approx (forceStringNoCtx E r) (forceStringNoCtx E' r). Proof. unfold forceStringNoCtx. approx. Qed.
Lemma m_forceFunction r : approx (forceFunction E r) (forceFunction E' r). Proof. unfold forceFunction. approx. Qed.
#[local] Hint Resolve m_forceStringCtx m_forceStringNoCtx m_forceFunction : fuel.
Lemma m_lookup_with name w : ∀ env, approx (lookup_with E env name w) (lookup_with E' env name w).
Proof.
  induction w as [prev parent IH] using With_ind'; intros env; cbn [lookup_with]; approx. by apply IH.
Qed.
#[local] Hint Resolve m_lookup_with : fuel.
Lemma m_lookupVar env name w l d : approx (lookupVar E env name w l d) (lookupVar E' env name w l d). Proof. unfold lookupVar. approx. Qed.
#[local] Hint Resolve m_lookupVar : fuel.
Lemma m_evalBool env e : approx (evalBool E env e) (evalBool E' env e). Proof. unfold evalBool. approx. Qed.
Lemma m_evalAttrs env e : approx (evalAttrs E env e) (evalAttrs E' env e). Proof. unfold evalAttrs. approx. Qed.
Lemma m_getName n env : approx (getName E n env) (getName E' n env). Proof. destruct n; cbn [getName]; approx. Qed.
#[local] Hint Resolve m_evalBool m_evalAttrs m_getName : fuel.

(** Expressions. *)
Lemma m_apply_overrides a env2 d b : approx (apply_overrides E a env2 d b) (apply_overrides E' a env2 d b). Proof. unfold apply_overrides. approx. Qed.
Lemma m_dynamic_attr env st x : approx (dynamic_attr E env st x) (dynamic_attr E' env st x). Proof. unfold dynamic_attr. approx. Qed.
#[local] Hint Resolve m_apply_overrides m_dynamic_attr : fuel.
Lemma m_eval_Attrs a env : approx (eval_Attrs E a env) (eval_Attrs E' a env). Proof. unfold eval_Attrs. approx. Qed.
Lemma m_eval_Let a body env : approx (eval_Let E a body env) (eval_Let E' a body env). Proof. unfold eval_Let. approx. Qed.
Lemma m_eval_Var env name w l d : approx (eval_Var E env name w l d) (eval_Var E' env name w l d). Proof. unfold eval_Var. approx. Qed.
Lemma m_select_loop env def path : ∀ r, approx (select_loop E env def path r) (select_loop E' env def path r).
Proof. induction path as [|i path IH]; intros r; cbn [select_loop]; approx. Qed.
Lemma m_hasAttr_loop env path : ∀ r, approx (hasAttr_loop E env path r) (hasAttr_loop E' env path r).
Proof. induction path as [|i path IH]; intros r; cbn [hasAttr_loop]; approx. Qed.
#[local] Hint Resolve m_eval_Attrs m_eval_Let m_eval_Var m_select_loop m_hasAttr_loop : fuel.
Lemma m_call_lambda fn env x fs body a : approx (call_lambda E fn env x fs body a) (call_lambda E' fn env x fs body a). Proof. unfold call_lambda. approx. Qed.
#[local] Hint Resolve m_call_lambda : fuel.
Lemma m_call_loop fn v args : approx (call_loop E fn v args) (call_loop E' fn v args). Proof. unfold call_loop. approx. Qed.
#[local] Hint Resolve m_call_loop : fuel.
Lemma m_addCallDepth {A} (m m' : EM A) : approx m m' → approx (addCallDepth cfg m) (addCallDepth cfg m').
Proof.
  intros Hm. unfold addCallDepth. approx. apply approx_catch; [done|by intros k [= <-] s|]. intros x. apply approx_refl.
Qed.
Lemma m_callFunction r args : approx (callFunction cfg E r args) (callFunction cfg E' r args).
Proof. unfold callFunction. apply m_addCallDepth. approx. Qed.
Lemma m_eval_Assert c b env : approx (eval_Assert E c b env) (eval_Assert E' c b env). Proof. unfold eval_Assert. approx. Qed.
Lemma m_concatLists l : approx (concatLists E l) (concatLists E' l). Proof. unfold concatLists. approx. Qed.
#[local] Hint Resolve m_callFunction m_eval_Assert m_concatLists : fuel.
Lemma m_eval_BinOp op e1 e2 env : approx (eval_BinOp E op e1 e2 env) (eval_BinOp E' op e1 e2 env). Proof. destruct op; cbn [eval_BinOp]; approx. Qed.
Lemma m_concat_part env c e : approx (concat_part E env c e) (concat_part E' env c e). Proof. unfold concat_part. approx. Qed.
#[local] Hint Resolve m_eval_BinOp m_concat_part : fuel.
Lemma m_eval_ConcatStrings f es env : approx (eval_ConcatStrings E f es env) (eval_ConcatStrings E' f es env). Proof. unfold eval_ConcatStrings. approx. Qed.
#[local] Hint Resolve m_eval_ConcatStrings : fuel.
Lemma m_eval e env : approx (eval E e env) (eval E' e env).
Proof. destruct e; cbn [eval]; unfold eval_Select, eval_OpHasAttr, eval_Call, eval_With, eval_If; approx. Qed.

(** Coercion, deep evaluation and comparison. *)
Lemma m_tryAttrsToString r b c b1 b2 : approx (tryAttrsToString E r b c b1 b2) (tryAttrsToString E' r b c b1 b2). Proof. unfold tryAttrsToString. approx. Qed.
Lemma m_coerce_list l : ∀ c b1 b2, approx (coerce_list E l c b1 b2) (coerce_list E' l c b1 b2).
Proof. induction l as [|a l IH]; intros c b1 b2; cbn [coerce_list]; approx. Qed.
#[local] Hint Resolve m_tryAttrsToString m_coerce_list : fuel.
Lemma m_coerceToString r c b1 b2 : approx (coerceToString cfg E r c b1 b2) (coerceToString cfg E' r c b1 b2). Proof. unfold coerceToString. approx. Qed.
Lemma m_forceValueDeep seen r : approx (forceValueDeep E seen r) (forceValueDeep E' seen r). Proof. unfold forceValueDeep. approx. Qed.
Lemma m_isDerivation v : approx (Eval.isDerivation E v) (Eval.isDerivation E' v). Proof. unfold Eval.isDerivation. approx. Qed.
#[local] Hint Resolve m_isDerivation : fuel.
Lemma m_out_paths b1 b2 : approx (out_paths E b1 b2) (out_paths E' b1 b2). Proof. unfold out_paths, both_derivations. approx. Qed.
Lemma m_eq_lists l1 : ∀ l2, approx (eq_lists E l1 l2) (eq_lists E' l1 l2).
Proof. induction l1 as [|a l1 IH]; intros [|b l2]; cbn [eq_lists]; approx. Qed.
Lemma m_eq_attrs b1 : ∀ b2, approx (eq_attrs E b1 b2) (eq_attrs E' b1 b2).
Proof. induction b1 as [|a b1 IH]; intros [|b b2]; cbn [eq_attrs]; approx. Qed.
Lemma m_assertEq_lists l1 : ∀ l2, approx (assertEq_lists E l1 l2) (assertEq_lists E' l1 l2).
Proof. induction l1 as [|a l1 IH]; intros [|b l2]; cbn [assertEq_lists]; approx. Qed.
Lemma m_assertEq_attrs v1 v2 b1 : ∀ b2, approx (assertEq_attrs E v1 v2 b1 b2) (assertEq_attrs E' v1 v2 b1 b2).
Proof. induction b1 as [|a b1 IH]; intros [|b b2]; cbn [assertEq_attrs]; approx. Qed.
#[local] Hint Resolve m_out_paths m_eq_lists m_eq_attrs m_assertEq_lists m_assertEq_attrs : fuel.
Lemma m_eqValues r1 r2 : approx (eqValues E r1 r2) (eqValues E' r1 r2). Proof. unfold eqValues. approx. Qed.
Lemma m_assertEqValues r1 r2 : approx (assertEqValues E r1 r2) (assertEqValues E' r1 r2). Proof. unfold assertEqValues. approx. Qed.
#[local] Hint Resolve m_eval m_coerceToString m_forceValueDeep m_eqValues m_assertEqValues : fuel.

(** Primitive operations. *)
Lemma m_compare_lists l1 : ∀ l2, approx (compare_lists E l1 l2) (compare_lists E' l1 l2).
Proof. induction l1 as [|a l1 IH]; intros [|b l2]; cbn [compare_lists]; approx. Qed.
#[local] Hint Resolve m_compare_lists : fuel.
Lemma m_CompareValues a b : approx (CompareValues E a b) (CompareValues E' a b). Proof. unfold CompareValues. approx. Qed.
#[local] Hint Resolve m_CompareValues : fuel.
Lemma m_key_insert x l : approx (key_insert E x l) (key_insert E' x l). Proof. induction l as [|y l IH]; cbn [key_insert]; approx. Qed.
#[local] Hint Resolve m_key_insert : fuel.
Lemma m_closure_loop op ws keys res : approx (closure_loop E op ws keys res) (closure_loop E' op ws keys res). Proof. unfold closure_loop. approx. Qed.
Lemma m_filter_elems f l : approx (filter_elems E f l) (filter_elems E' f l). Proof. unfold filter_elems. approx. Qed.
Lemma m_elem_loop x l : approx (elem_loop E x l) (elem_loop E' x l). Proof. induction l as [|y l IH]; cbn [elem_loop]; approx. Qed.
Lemma foldl_loop_cons F f cur x y l :
  foldl_loop F f cur (x :: y :: l) = v ← ev_call F (RAddr f) [cur; x]; cur ← allocValue v; foldl_loop F f cur (y :: l).
Proof using Type. done. Qed.
Lemma m_foldl_loop f l : ∀ cur, approx (foldl_loop E f cur l) (foldl_loop E' f cur l).
Proof.
  induction l as [|x l IH]; intros cur; [cbn [foldl_loop]; approx|]. destruct l as [|y l]; [cbn [foldl_loop]; approx|].
  rewrite !foldl_loop_cons. approx.
Qed.
Lemma m_any_loop any f l : approx (any_loop E any f l) (any_loop E' any f l). Proof. induction l as [|y l IH]; cbn [any_loop]; approx. Qed.
Lemma m_sort_comparator f a b : approx (sort_comparator E f a b) (sort_comparator E' f a b). Proof. unfold sort_comparator. approx. Qed.
Lemma m_concat_sep_loop sep l : ∀ first res c, approx (concat_sep_loop E sep first l res c) (concat_sep_loop E' sep first l res c).
Proof. induction l as [|y l IH]; intros first res c; cbn [concat_sep_loop]; approx. Qed.
Lemma m_replace_loop fuel from to : ∀ cache s res c, approx (replace_loop cfg E fuel from to cache s res c) (replace_loop cfg E' fuel from to cache s res c).
Proof. induction fuel as [|fuel IH]; intros cache s res c; cbn [replace_loop]; approx. Qed.
Lemma m_append_one x y c i : approx (append_one cfg E x y c i) (append_one cfg E' x y c i). Proof. unfold append_one. approx. Qed.
#[local] Hint Resolve m_closure_loop m_filter_elems m_elem_loop m_foldl_loop m_any_loop m_sort_comparator m_concat_sep_loop m_replace_loop
  m_append_one : fuel.
Lemma m_prim_sort args : approx (prim_sort E args) (prim_sort E' args). Proof. unfold prim_sort. approx; eauto 3 with fuel. Qed.
Lemma m_prim_addErrorContext args : approx (prim_addErrorContext E args) (prim_addErrorContext E' args).
Proof. unfold prim_addErrorContext. approx. apply approx_catch; [auto with fuel|done|]. intros e. destruct (is_Error e); [|done]. approx. Qed.
Lemma m_prim_tryEval args : approx (prim_tryEval E args) (prim_tryEval E' args).
Proof.
  unfold prim_tryEval. approx. apply approx_catch; [approx|done|]. intros e. destruct (is_AssertionError e); [|done]. approx.
Qed.

Lemma m_prim_fun p args : approx (prim_fun cfg E p args) (prim_fun cfg E' p args).
Proof.
  destruct p; cbn [prim_fun]; try apply m_prim_sort; try apply m_prim_addErrorContext; try apply m_prim_tryEval;
    unfold type_test, anyOrAll, prim_add, prim_sub, prim_mul, arith, bit_op, prim_round, prim_break,
      prim_typeOf, prim_lessThan, prim_genericClosure, prim_abort, prim_throw, prim_seq, prim_deepSeq, prim_attrNames,
      prim_attrValues, prim_getAttr, prim_hasAttr, prim_removeAttrs, prim_listToAttrs, prim_intersectAttrs, prim_catAttrs,
      prim_functionArgs, prim_mapAttrs, prim_zipAttrsWith, prim_elemAt, prim_head, prim_tail, prim_map, prim_filter, prim_elem,
      prim_concatLists, prim_length, prim_foldlStrict, prim_genList, prim_partition, prim_groupBy, prim_concatMap, prim_div,
      prim_toString, prim_substring, prim_stringLength, prim_baseNameOf, prim_dirOf, prim_parseDrvName, prim_splitVersion,
      prim_unsafeDiscardStringContext, prim_unsafeDiscardOutputDependency, prim_addDrvOutputDependencies, prim_concatStringsSep,
      prim_replaceStrings, prim_compareVersions, prim_hasContext, prim_getContext, prim_appendContext;
    approx.
Qed.
Lemma EvLe_unroll : EvLe (unroll cfg E) (unroll cfg E').
Proof.
  constructor; cbn [unroll ev_eval ev_call ev_loop ev_coerce ev_eq ev_assertEq ev_deep ev_prim ev_compare ev_closure]; intros;
    first [apply m_prim_fun | solve [auto with fuel]].
Qed.
End functions.

Lemma evaluator_mono cfg n m : (n ≤ m)%nat → EvLe (evaluator cfg n) (evaluator cfg m).
Proof.
  revert m. induction n as [|n IH]; intros m Hm; [constructor; intros; apply approx_out|].
  destruct m as [|m]; [lia|]. apply EvLe_unroll, IH. lia.
Qed.

(** A run that does not hit the bound gives, with any larger bound, the same
    value or the same exception and the same final state. This is a fact about
    the bound of the model, which the program does not have: it makes results of
    [run] for a particular bound meaningful. *)
Lemma run_fuel (cfg : Config) (n m : nat) (ops : list (str * PrimOp)) (names : list str) (e : Expr) (s : EvalState) :
  (n ≤ m)%nat → (run cfg n ops names e s).1 ≠ Throw NonTermination → run cfg m ops names e s = run cfg n ops names e s.
Proof.
  intros Hnm Hr. assert (approx (run cfg n ops names e) (run cfg m ops names e)) as H.
  { unfold run. approx. apply (le_eval _ _ (evaluator_mono cfg n m Hnm)). }
  by destruct (H s) as [?| ->].
Qed.
Lemma run_fuel_witness :
  run sample_cfg 100 safe_ops sample_names sample_expr new_state = run sample_cfg 60 safe_ops sample_names sample_expr new_state.
Proof. apply (run_fuel sample_cfg 60 100 safe_ops sample_names sample_expr new_state); [lia|]. vm_compute. discriminate. Defined.
