(* ===== verification/EvalLaws.v ===== *)
(** Laws of the data of the language: updates of sets, string contexts, equality. *)

From S2P Require Import Prelude State Strings Xp CanonPath StorePath DerivedPath Expr Value Eval Primops EvalInv.
From S2P Require Import EvalOk EvalOps EvalData BindOk EvalSafe.

(** * Updates *)

Lemma attr_find_absent (b : list Attr) x : x ∉ b.*1 → attr_find b x = None.
Proof.
  intros Hx. destruct (attr_find b x) as [v|] eqn:Ev; [|done]. apply attr_find_Some in Ev. by apply (list_elem_of_fmap_2 fst) in Ev.
Qed.
Lemma sorted_tail (i : Attr) (l : list Attr) y : sorted_syms (i :: l).*1 → (y ≤ i.1)%nat → attr_find l y = None.
Proof.
  intros Hs Hy. apply attr_find_absent. intros Hin. cbn in Hs. apply StronglySorted_inv in Hs as [_ Hs]. rewrite Forall_forall in Hs.
  specialize (Hs _ Hin). lia.
Qed.
Lemma sorted_cons (i : Attr) (l : list Attr) : sorted_syms (i :: l).*1 → sorted_syms l.*1.
Proof. intros Hs. by apply StronglySorted_inv in Hs as [Hs _]. Qed.
Lemma merge_attrs_find l k x : sorted_syms l.*1 → sorted_syms k.*1 →
  attr_find (merge_attrs l k) x = match attr_find k x with Some v => Some v | None => attr_find l x end.
Proof.
  apply (merge_attrs_ind (λ l k m, sorted_syms l.*1 → sorted_syms k.*1 →
    attr_find m x = match attr_find k x with Some v => Some v | None => attr_find l x end)).
  - intros k' _ _. by destruct (attr_find k' x).
  - done.
  - intros i l' j k' Eij IH Hl Hk. cbn [attr_find]. rewrite IH by (by eapply sorted_cons). rewrite Eij. destruct (j.1 =? x)%nat eqn:Ex; done.
  - intros i l' j k' Hij IH Hl Hk. cbn [attr_find] in *. rewrite IH by (done || by eapply sorted_cons). destruct (i.1 =? x)%nat eqn:Ei; [|done].
    apply Nat.eqb_eq in Ei. rewrite (proj2 (Nat.eqb_neq j.1 x)) by lia. by rewrite (sorted_tail j k') by (done || lia).
  - intros i l' j k' Hij IH Hl Hk. cbn [attr_find] in *. destruct (j.1 =? x)%nat eqn:Ej; [done|]. by rewrite IH by (done || by eapply sorted_cons).
Qed.
Lemma push_all_run b l (s : EvalState) :
  (length (bindings b) + length l ≤ capacity b)%nat → foldS push_back b l s = (Ok (MkBuilder (capacity b) (bindings b ++ l)), s).
Proof.
  revert b. induction l as [|x l IH]; intros b H; cbn [foldS]; [rewrite app_nil_r; by destruct b|]. cbn in H.
  unfold mbind, StE_bind, push_back at 1. rewrite (proj2 (Nat.ltb_lt _ _)) by lia. cbn. rewrite IH; cbn; [by rewrite <- app_assoc|].
  rewrite length_app. cbn. lia.
Qed.

(** [C25] The operator [//] merges two sets, and the set on the right wins. If
    the sizes fit into the counter of a set, [update] changes nothing in the
    state and returns a sorted set, in which the binary search that the
    evaluator uses for attributes finds, for every name, the value from the
    right set if it has the name and otherwise the value from the left one. *)
Theorem update_correct (b1 b2 : list Attr) (s : EvalState) :
  sorted_syms b1.*1 → sorted_syms b2.*1 → Z.of_nat (length b1 + length b2) ≤ 2 ^ 32 - 1 →
  ∃ b, update b1 b2 s = (Ok (VAttrs b), s) ∧ sorted_syms b.*1 ∧
    ∀ x s', attr_get b x s' = (Ok (match attr_find b2 x with Some v => Some v | None => attr_find b1 x end), s').
Proof.
  intros H1 H2 Hn. assert (∃ b, update b1 b2 s = (Ok (VAttrs b), s) ∧ sorted_syms b.*1 ∧
    ∀ x, attr_find b x = match attr_find b2 x with Some v => Some v | None => attr_find b1 x end) as (b & E & Hs & Hf).
  { unfold update. destruct (length b1 =? 0)%nat eqn:E1.
    { apply Nat.eqb_eq, length_zero_iff_nil in E1 as ->. exists b2. split_and!; [done|done|]. intros x. by destruct (attr_find b2 x). }
    destruct (length b2 =? 0)%nat eqn:E2; [apply Nat.eqb_eq, length_zero_iff_nil in E2 as ->; by exists b1|].
    exists (merge_attrs b1 b2). split_and!; [|by apply merge_attrs_sorted|intros x; by apply merge_attrs_find].
    unfold mbind, StE_bind, buildBindings. rewrite (proj2 (Z.ltb_ge _ _)) by done. cbn [mret StE_ret].
    rewrite push_all_run; [done|]. cbn. apply merge_attrs_length. }
  exists b. split_and!; [done|done|]. intros x s'. rewrite attr_get_sorted by done. by rewrite Hf.
Qed.
Lemma update_correct_witness :
  ∃ b, update [(3, 10); (5, 11)]%nat [(4, 20); (5, 21)]%nat new_state = (Ok (VAttrs b), new_state) ∧ sorted_syms b.*1 ∧
    ∀ x s', attr_get b x s' = (Ok (match attr_find [(4, 20); (5, 21)]%nat x with Some v => Some v | None => attr_find [(3, 10); (5, 11)]%nat x end), s').
Proof.
  apply (update_correct [(3, 10); (5, 11)]%nat [(4, 20); (5, 21)]%nat new_state).
  - repeat constructor.
  - repeat constructor.
  - cbn. lia.
Defined.

(** * String contexts *)

Definition bangless (s : str) : Prop := bang ∉ s.
Definition path_ok (p : StorePath) : Prop := base_ok (StorePath.baseName p).

Section contexts.
Context (xp : XpSettings).

(** What can be read: output names and the names of store paths have no [!], and
    outputs of outputs need the experimental feature. *)
Fixpoint single_ok (d : SingleDerivedPath) : Prop :=
  match d with
  | SOpaque p => path_ok p ∧ bangless (StorePath.baseName p)
  | SBuilt d o => bangless o ∧ single_ok d ∧ drvRequireExperiment xp d = Ok tt
  end.
Definition context_ok (x : BsdStringContextElem) : Prop :=
  match x with
  | CtxOpaque p => path_ok p ∧ bangless (StorePath.baseName p)
  | CtxDrvDeep p => path_ok p
  | CtxBuilt d o => single_ok (SBuilt d o)
  end.

Lemma path_ok_new p : path_ok p → StorePath_new (StorePath.baseName p) = Ok p.
Proof using Type. intros H. rewrite StorePath_new_ok by done. by destruct p. Qed.
Lemma find_bang_app o t : bangless o → find_idx (λ c, bool_decide (c = bang)) (o ++ bang :: t) = Some (length o).
Proof using Type.
  intros Ho. apply find_idx_app_stop; [|by apply bool_decide_eq_true_2]. by apply find_idx_None, find_idx_char.
Qed.
Lemma parseRest_print d : ∀ fuel, single_ok d → (length (toStringRest d) < fuel)%nat → parseRest xp fuel (toStringRest d) = Ok d.
Proof using Type.
  induction d as [p|d IH o]; intros [|fuel] Hd Hf; try lia; cbn [parseRest toStringRest].
  - destruct Hd as [Hp Hb]. rewrite (proj2 (find_idx_char _ _) Hb), path_ok_new by done. done.
  - destruct Hd as (Ho & Hd & Hx). rewrite find_bang_app by done.
    replace (drop (length o + 1) (o ++ bang :: toStringRest d)) with (toStringRest d).
    2:{ rewrite drop_app_ge by lia. by replace (length o + 1 - length o)%nat with 1%nat by lia. }
    cbn [toStringRest] in Hf. rewrite length_app in Hf. cbn in Hf. rewrite IH by (done || lia). cbn [mbind result_bind]. rewrite Hx. cbn.
    by rewrite take_app_length.
Qed.
Lemma parseRest_inv fuel : ∀ s d, parseRest xp fuel s = Ok d → toStringRest d = s ∧ single_ok d.
Proof using Type.
  induction fuel as [|fuel IH]; intros s d; cbn [parseRest]; [done|]. destruct (find_idx _ s) as [i|] eqn:Ei.
  - destruct (parseRest xp fuel _) as [d'|] eqn:Ed; [|done]. cbn. destruct (drvRequireExperiment xp d') as [[]|] eqn:Ex; [|done]. intros [= <-].
    destruct (IH _ _ Ed) as [Ep Hd]. apply find_idx_Some in Ei as (Hi & Hn & c & Hc & Eb). apply bool_decide_eq_true in Eb as ->. cbn.
    rewrite Ep. split.
    + rewrite <- (take_drop i s) at 3. f_equal. rewrite (drop_S _ _ _ Hc). by rewrite Nat.add_1_r.
    + split_and!; [|done|done]. by apply find_idx_char, find_idx_None.
  - destruct (StorePath_new s) as [p|] eqn:Ep; [|done]. cbn. intros [= <-]. apply StorePath_new_inv in Ep as [Hb ->]. cbn. split; [done|].
    split; [done|]. by apply find_idx_char.
Qed.
Lemma has_bang_spec s : existsb (λ c, bool_decide (c = bang)) s = false ↔ bangless s.
Proof using Type.
  unfold bangless. induction s as [|c s IH]; cbn; [split; [intros _; apply not_elem_of_nil|done]|]. rewrite orb_false_iff, bool_decide_eq_false, IH, not_elem_of_cons.
  naive_solver.
Qed.
Lemma has_bang_app o t : existsb (λ c, bool_decide (c = bang)) (o ++ bang :: t) = true.
Proof using Type. rewrite existsb_app. cbn. rewrite bool_decide_eq_true_2 by done. by rewrite orb_true_r. Qed.
Lemma path_ok_head p : path_ok p → ∃ c t, StorePath.baseName p = c :: t ∧ c ≠ bang ∧ c ≠ "="%char.
Proof using Type.
  intros (Hl & Hh & _). destruct (StorePath.baseName p) as [|c t]; [cbn in Hl; lia|]. exists c, t. split; [done|].
  change HashLen with 32%nat in Hh. cbn in Hh. apply andb_true_iff in Hh as [Hh _]. split; intros ->; by vm_compute in Hh.
Qed.

Lemma ctx_parse_print x : context_ok x → ctx_parse xp (ctx_to_string x) = Ok x.
Proof using Type.
  destruct x as [p|p|d o]; cbn [context_ok ctx_to_string].
  - intros [Hp Hb]. destruct (path_ok_head p Hp) as (c & t & Ec & N1 & N2). cbn [toStringRest].
    pose proof (parseRest_print (SOpaque p) (S (length (StorePath.baseName p))) (conj Hp Hb)) as Hr. cbn [toStringRest] in Hr.
    unfold ctx_parse. rewrite Ec in Hb, Hr |- *. cbv zeta. rewrite (bool_decide_eq_false_2 _ N1), (bool_decide_eq_false_2 _ N2).
    rewrite (proj2 (has_bang_spec _) Hb). rewrite Hr by lia. done.
  - intros Hp. unfold ctx_parse. cbv zeta. cbn. rewrite path_ok_new by done. done.
  - intros Hd. unfold ctx_parse. cbv zeta. rewrite bool_decide_eq_true_2 by done. cbn [toStringRest]. rewrite has_bang_app.
    pose proof (parseRest_print (SBuilt d o) (S (length (toStringRest (SBuilt d o)))) Hd) as Hr. cbn [toStringRest] in Hr. rewrite Hr by lia. done.
Qed.
Lemma ctx_parse_inv s x : ctx_parse xp s = Ok x → ctx_to_string x = s ∧ context_ok x.
Proof using Type.
  destruct s as [|c s]; [done|]. unfold ctx_parse. cbv zeta. case_bool_decide as Hc.
  - subst c. destruct (existsb _ s) eqn:Eb; [|done]. destruct (parseRest xp _ s) as [d|] eqn:Ed; [|done]. cbn. intros [= <-].
    apply parseRest_inv in Ed as [Ep Hd]. destruct d as [p|d o]; [|cbn [to_elem ctx_to_string]; by rewrite Ep]. exfalso.
    destruct Hd as [_ Hb]. cbn in Ep. rewrite Ep in Hb. apply has_bang_spec in Hb. congruence.
  - case_bool_decide as He.
    + subst c. destruct (StorePath_new s) as [p|] eqn:Ep; [|done]. intros [= <-]. apply StorePath_new_inv in Ep as [Hb ->]. done.
    + destruct (existsb _ (c :: s)) eqn:Eb; [done|]. apply has_bang_spec in Eb. destruct (parseRest xp _ (c :: s)) as [d|] eqn:Ed; [|done]. cbn. intros [= <-].
      apply parseRest_inv in Ed as [Ep Hd]. destruct d as [p|d o]; [done|]. exfalso. apply Eb. cbn in Ep. rewrite <- Ep. apply elem_of_app. right. left.
Qed.
End contexts.

(** [C26] The encoding of string contexts is a bijection. Every element of a
    context whose names have no [!] and whose outputs of outputs are enabled is
    read back from its encoding; and whatever is accepted as an encoding is the
    encoding of the element read, which is of this form. *)
Theorem context_roundtrip (xp : XpSettings) :
  (∀ x, context_ok xp x → ctx_parse xp (ctx_to_string x) = Ok x) ∧
  (∀ s x, ctx_parse xp s = Ok x → ctx_to_string x = s ∧ context_ok xp x).
Proof. split; [apply ctx_parse_print|apply ctx_parse_inv]. Qed.

(** An output name with a [!] is accepted by [appendContext], but the context it
    makes is not what is read from it afterwards:
    [builtins.hasContext (builtins.appendContext "a" { "/bsd/store/...-x.drv" = { outputs = [ "a!b" ]; }; })]
    is refused as if it had outputs of outputs. *)
Definition bad_output_names : list str := ["/bsd/store/00000000000000000000000000000000-x.drv"]%str.
Definition bad_output_expr : Expr := Eval vm_compute in
  let attrs := single primOps bad_output_names in
  ExprCall (builtin primOps bad_output_names "hasContext")
    [ExprCall (builtin primOps bad_output_names "appendContext")
       [ExprString "a";
        ExprAttrs (attrs "/bsd/store/00000000000000000000000000000000-x.drv"
          (ExprAttrs (attrs "outputs" (ExprList [ExprString "a!b"]))))]].
Lemma appendContext_bad_output :
  (run sample_cfg 80 primOps bad_output_names bad_output_expr new_state).1 = Throw (MissingExperimentalFeature "dynamic-derivations").
Proof. vm_compute. reflexivity. Qed.
