(* ===== verification/Scope.v ===== *)
(** Variables mean what their names mean.

    Variable resolution replaces names by the distance and the slot of a
    binding. The search by name through the scopes is the reference: the
    innermost definition of the name that is not a [with], and if there is none,
    the innermost [with] whose set has the name. *)

From S2P Require Import Prelude State Strings Expr Value Eval Primops EvalInv EvalOk EvalOps BindOk EvalSafe.

(** * The search by name *)

Definition var_find (vars : list (Symbol * nat)) (x : Symbol) : option nat :=
  (λ r : nat * (Symbol * nat), r.2.2) <$> list_find (λ v : Symbol * nat, v.1 = x) vars.
(** The slot of a name in a scope. *)
Definition scope_slot (isWith : option With) (vars : list (Symbol * nat)) (x : Symbol) : option nat :=
  match isWith with Some _ => None | None => var_find vars x end.

Fixpoint binds (se : StaticEnv) (x : Symbol) : bool :=
  match se with
  | SEnv w up vars =>
      match scope_slot w vars x with Some _ => true | None => match up with Some up => binds up x | None => false end end
  end.
Fixpoint has_with (se : StaticEnv) : bool :=
  match se with SEnv (Some _) _ _ => true | SEnv None (Some up) _ => has_with up | SEnv None None _ => false end.

Definition enclosing (a : addr) : EM addr := e ← get_env a; getO (env_up e).

Section by_name.
Context (E : Evaluator).

Fixpoint lookup_scopes (se : StaticEnv) (a : addr) (x : Symbol) : EM addr :=
  match se with
  | SEnv w up vars =>
      match scope_slot w vars x with
      | Some d => o ← get_slot a d; getO o
      | None => match up with Some up => b ← enclosing a; lookup_scopes up b x | None => throw (UndefinedVarError "undefined variable") end
      end
  end.
Fixpoint lookup_withs (se : StaticEnv) (a : addr) (x : Symbol) : EM addr :=
  match se with
  | SEnv None (Some up) _ => b ← enclosing a; lookup_withs up b x
  | SEnv None None _ => throw (UndefinedVarError "undefined variable")
  | SEnv (Some _) up _ =>
      o ← get_slot a 0; v ← getO o;
      b ← forceAttrs E (RAddr v);
      j ← attr_get b x;
      match j with
      | Some v => mret v
      | None =>
          match up with
          | Some up => if has_with up then b ← enclosing a; lookup_withs up b x else throw (UndefinedVarError "undefined variable")
          | None => throw (UndefinedVarError "undefined variable")
          end
      end
  end.
Definition lookup_name (se : StaticEnv) (a : addr) (x : Symbol) : EM addr :=
  if binds se x then lookup_scopes se a x else lookup_withs se a x.
End by_name.

(** * Static environments as resolution makes them *)

(** The names of a scope are sorted; a [with] knows the next one outwards. *)
Fixpoint senv_made (se : StaticEnv) : Prop :=
  match se with
  | SEnv w up vars =>
      match w with Some w => w = bind_with up | None => weakly_sorted vars end ∧
      match up with Some up => senv_made up | None => True end
  end.

Lemma lower_bound_find vars x : weakly_sorted vars →
  lower_bound (less_var x) vars = Ok (snd <$> list_find (λ v : Symbol * nat, (x ≤ v.1)%nat) vars).
Proof.
  unfold weakly_sorted. induction vars as [|v vars IH]; [done|]. intros H. pose proof H as H'. cbn [fmap list_fmap] in H. apply StronglySorted_inv in H as [H1 H2].
  cbn [lower_bound list_find]. unfold less_var at 1. rewrite andb_false_r, orb_false_r. destruct (v.1 <? x)%nat eqn:El.
  - apply Nat.ltb_lt in El. rewrite IH, decide_False by (done || lia). by destruct (list_find _ vars) as [[]|].
  - apply Nat.ltb_ge in El. rewrite decide_True by done.
    assert (existsb (less_var x) vars = false) as ->; [|done]. clear -H2 El. induction vars as [|w vars IH]; [done|]. cbn [fmap list_fmap existsb] in *. inv H2.
    rewrite IH by done. unfold less_var. rewrite andb_false_r, orb_false_r. by rewrite (proj2 (Nat.ltb_ge _ _)) by lia.
Qed.
Lemma senv_find_name vars x : weakly_sorted vars → senv_find vars x = Ok (var_find vars x).
Proof.
  intros Hs. unfold senv_find. rewrite lower_bound_find by done. cbn. f_equal. unfold var_find, weakly_sorted in *.
  induction vars as [|v vars IH]; [done|]. cbn [fmap list_fmap] in Hs. apply StronglySorted_inv in Hs as [H1 H2]. cbn [list_find].
  destruct (decide (x ≤ v.1)%nat) as [Hle|Hle].
  - cbn. destruct (v.1 =? x)%nat eqn:Ex; [apply Nat.eqb_eq in Ex; by rewrite decide_True|]. apply Nat.eqb_neq in Ex. rewrite decide_False by done.
    assert (list_find (λ v : Symbol * nat, v.1 = x) vars = None) as ->; [|done]. apply list_find_None. rewrite Forall_forall in H2. apply Forall_forall.
    intros w Hw Ew. specialize (H2 w.1 (list_elem_of_fmap_2 fst _ _ Hw)). lia.
  - rewrite (decide_False (P := v.1 = x)) by lia. specialize (IH H1). destruct (list_find _ vars) as [[]|], (list_find _ vars) as [[]|]; done.
Qed.

(** * Resolution *)

Section resolution.
Context (E : Evaluator).

Lemma bind_assoc_S {A B C} (m : EM A) (f : A → EM B) (g : B → EM C) s : ((m ≫= f) ≫= g) s = (m ≫= λ a, f a ≫= g) s.
Proof using Type. unfold mbind, StE_bind. by destruct (m s) as [[]]. Qed.
Lemma go_up_S a k {B} (f : addr → EM B) s : (go_up a (S k) ≫= f) s = (enclosing a ≫= λ b, go_up b k ≫= f) s.
Proof using Type. cbn [go_up]. unfold enclosing, mbind, StE_bind. destruct (get_env a s) as [[e|]]; [|done]. by destruct (getO (env_up e) _) as [[]]. Qed.

Lemma find_var_name x se : ∀ level, senv_made se →
  match find_var x se level with
  | Ok (Some (l, d)) => binds se x = true ∧ ∃ k, l = (level + k)%nat ∧ ∀ a s, (env ← go_up a k; o ← get_slot env d; getO o) s = lookup_scopes se a x s
  | Ok None => binds se x = false
  | Throw _ => False
  end.
Proof using Type.
  induction se as [w up vars IH] using StaticEnv_ind'; intros level. cbn [senv_made find_var binds lookup_scopes]. intros [Hw Hup].
  assert (match w with Some _ => Ok None | None => senv_find vars x end = Ok (scope_slot w vars x)) as ->
    by (destruct w; [done|by apply senv_find_name]).
  cbn [mbind result_bind]. destruct (scope_slot w vars x) as [d|]; [split; [done|]; exists 0%nat; split; [lia|done]|].
  destruct up as [u|]; [|done]. specialize (IH u eq_refl (S level) Hup). destruct (find_var x u (S level)) as [[[l d]|]|]; [|done|done].
  destruct IH as (Hb & k & -> & Hk). split; [done|]. exists (S k). split; [lia|]. intros a s. rewrite go_up_S.
  unfold mbind, StE_bind. destruct (enclosing a s) as [[b|e] s']; [|done]. apply Hk.
Qed.
(** The innermost [with] is [k] scopes up. *)
Lemma with_name x se : senv_made se →
  match nearest_with se with
  | Some w => has_with se = true ∧ ∃ k, (∀ level, with_level se level = Some (level + k)%nat) ∧
      ∀ a s, (env ← go_up a k; lookup_with E env x w) s = lookup_withs E se a x s
  | None => has_with se = false ∧ ∀ level, with_level se level = None
  end.
Proof using Type.
  induction se as [w up vars IH] using StaticEnv_ind'. cbn [senv_made nearest_with has_with with_level lookup_withs]. intros [Hw Hup].
  destruct w as [w|].
  - split; [done|]. exists 0%nat. split; [intros; f_equal; lia|]. intros a s. subst w. unfold bind_with. cbn [go_up lookup_with].
    unfold mbind at 1, StE_bind at 1. cbn [mret StE_ret]. unfold mbind, StE_bind. destruct (get_slot a 0 s) as [[o|] s1]; [|done].
    destruct (getO o s1) as [[v|] s2]; [|done]. destruct (forceAttrs E (RAddr v) s2) as [[b|] s3]; [|done].
    destruct (attr_get b x s3) as [[[j|]|] s4]; [done| |done]. destruct up as [u|]; [|done]. cbn. specialize (IH u eq_refl Hup).
    destruct (nearest_with u) as [w'|]; [|by destruct IH as [-> _]]. destruct IH as (-> & k & Hl & Hk). rewrite Hl. cbn [default].
    pose proof (go_up_S a k (λ env, lookup_with E env x w') s4) as G. unfold mbind, StE_bind in G. cbn [Nat.add]. etrans; [exact G|].
    destruct (enclosing a s4) as [[b'|] s5]; [|done]. apply Hk.
  - destruct up as [u|]; [|done]. specialize (IH u eq_refl Hup). destruct (nearest_with u) as [w'|].
    + destruct IH as (-> & k & Hl & Hk). split; [done|]. exists (S k). split; [intros level; rewrite Hl; f_equal; lia|]. intros a s. rewrite go_up_S.
      unfold mbind, StE_bind. destruct (enclosing a s) as [[b|] s']; [|done]. apply Hk.
    + destruct IH as [-> Hl]. done.
Qed.
End resolution.

(** [C14] Variable resolution is correct. Resolving a variable fails exactly if
    no enclosing scope defines its name and there is no enclosing [with]. If it
    succeeds, looking the variable up by level and slot, or through the chain of
    [with]s from the level found, does in every state exactly what the search
    by name does: the same value, the same evaluation of the sets of the
    [with]s it has to ask, and the same errors. *)
Theorem resolution_correct (E : Evaluator) (se : StaticEnv) (x : Symbol) :
  senv_made se →
  match bindVar x (Some se) with
  | Ok (ExprVar y w l d) => y = x ∧ (binds se x || has_with se = true) ∧ ∀ a s, lookupVar E a x w l d s = lookup_name E se a x s
  | Ok _ => False
  | Throw e => e = UndefinedVarError "undefined variable" ∧ binds se x || has_with se = false
  end.
Proof.
  intros Hm. unfold bindVar. pose proof (find_var_name x se 0 Hm) as Hf. pose proof (with_name E x se Hm) as Hw.
  destruct (find_var x se 0) as [[[l d]|]|]; cbn [mbind result_bind option_bind]; [| |done].
  - destruct Hf as (Hb & k & -> & Hk). unfold lookup_name. rewrite Hb. split_and!; [done|done|]. intros a s. rewrite <- Hk. done.
  - unfold lookup_name. rewrite Hf. cbn [orb mbind option_bind]. destruct (nearest_with se) as [w|].
    + destruct Hw as (-> & k & -> & Hk). split_and!; [done|done|]. intros a s. rewrite <- Hk. done.
    + destruct Hw as [-> ->]. done.
Qed.

(** The environments of [bindVars] are of this form. *)
Lemma made_rec {F} (l : list (Symbol * AttrDef F)) env : sorted_syms l.*1 → match env with Some se => senv_made se | None => True end →
  match rec_env l env with Some se => senv_made se | None => True end.
Proof. intros Hl He. cbn. split; [|done]. unfold rec_vars. rewrite <- (length_fmap fst l). by apply zip_sorted. Qed.
Lemma made_lambda {F} arg (fs : option (FormalsOf F)) env : match env with Some se => senv_made se | None => True end →
  match lambda_env arg fs env with Some se => senv_made se | None => True end.
Proof. intros He. cbn. split; [|done]. apply (senv_ok_lambda arg fs None []). done. Qed.

(** [{ x5, x7 }: with a: with b: ...]. *)
Definition sample_scope : StaticEnv :=
  let se0 := SEnv None None [(5, 0); (7, 1)]%nat in
  let se1 := SEnv (Some (bind_with (Some se0))) (Some se0) [] in
  SEnv (Some (bind_with (Some se1))) (Some se1) [].
Lemma resolution_correct_witness :
  bindVar 7 (Some sample_scope) = Ok (ExprVar 7 None 2 1) ∧
  match bindVar 9 (Some sample_scope) with
  | Ok (ExprVar y w l d) => y = 9%nat ∧ (binds sample_scope 9 || has_with sample_scope = true) ∧
      ∀ a s, lookupVar (evaluator sample_cfg 5) a 9 w l d s = lookup_name (evaluator sample_cfg 5) sample_scope a 9 s
  | Ok _ => False
  | Throw e => e = UndefinedVarError "undefined variable" ∧ binds sample_scope 9 || has_with sample_scope = false
  end.
Proof.
  split; [reflexivity|]. apply (resolution_correct (evaluator sample_cfg 5) sample_scope 9).
  cbn. split; [reflexivity|]. split; [reflexivity|]. split; [|exact I]. unfold weakly_sorted. cbn. repeat constructor.
Defined.
