(* ===== verification/Instantiate.v ===== *)
(** Derivations made by the language: [derivationStrict] of
    [libexpr/primops.cc], [libexpr/value-to-json.cc],
    [libstore/downstream-placeholder.cc], [writeDerivation] of
    [libstore/derivations.cc].

    Attributes of a set are evaluated to strings and gathered; what the strings
    refer to becomes the inputs of a derivation; the paths of its outputs are
    computed; the derivation is written to the store. The evaluator is an
    argument, as for the operations in [Primops]. The table of the hashes of
    derivations is a second state. Warnings are left out. *)

From S2P Require Import Prelude State Strings Xp Hash FileSystem StorePath ContentAddress Derivation DerivedPath DrvHash Expr Value Eval Primops.

(** * JSON *)

(** The values of the JSON library. An object is kept in the order of its keys. *)
Inductive json :=
  | JNull | JBool (b : bool) | JInt (n : Z) | JFloat (f : spec_float) | JString (s : str)
  | JArray (l : list json) | JObject (m : list (str * json)).
(** [emplace] on an object. *)
Definition json_emplace (k : str) (v : json) (m : list (str * json)) : list (str * json) :=
  match smap_find k m with Some _ => m | None => smap_insert k v m end.

(** * The store, and other code that is called *)

Record StoreOps := MkStoreOps {
  computeFSClosure : StorePath → result (gset StorePath);
  readDerivation : StorePath → result Derivation;
  readInvalidDerivation : StorePath → result Derivation;
  (** [addToStoreFromDump] of a text: contents, name, references *)
  addText : str → str → gset StorePath → result StorePath;
  (** the JSON library *)
  json_dump : list (str * json) → result str;
}.

(** The evaluator and the table. *)
Abbreviation IM := (StE (EvalState * DrvHashes)).
Definition evalM {A} (m : EM A) : IM A := λ s, let '(r, s') := m s.1 in (r, (s', s.2)).
Definition tableM {A} (m : ST A) : IM A := λ s, let '(r, hs) := m s.2 in (r, (s.1, hs)).

(** The attributes of a set with their names, in the order of the names. *)
Definition lexicographicOrder (b : list Attr) : EM (list (str * Attr)) :=
  named ← mapS (λ i : Attr, s ← symbolStr i.1; mret (s, i)) b; sort_by fst named.

Definition sSystem : Symbol := 8.
Definition sDrvPath : Symbol := 3.
Definition sIgnoreNulls : Symbol := 12.
Definition sStructuredAttrs : Symbol := 20.
Definition sBuilder : Symbol := 28.
Definition sArgs : Symbol := 29.
Definition sContentAddressed : Symbol := 30.
Definition sImpure : Symbol := 31.
Definition sOutputHash : Symbol := 32.
Definition sOutputHashAlgo : Symbol := 33.
Definition sOutputHashMode : Symbol := 34.

(** The default separators of [tokenizeString]. *)
Definition default_separators : str := [" "%char; "009"%char; "010"%char; "013"%char].

(** * Placeholders for outputs whose path is not known *)

Section placeholder.
Context (xp : XpSettings) (hashString : HashAlgorithm → str → Hash).

Definition DownstreamPlaceholder_render (h : Hash) : result str := s ← to_string h Bsd32 false; Ok ("/" ++ s).

(** [drvPath.name()] without its last four characters; the difference of the
    lengths is a [size_t]. *)
Definition unknownCaOutput (drvPath : StorePath) (outputName : str) : result Hash :=
  _ ← require_feature xp CaDerivations;
  let drvName := take (Z.to_nat (u64 (Z.of_nat (length (sp_name drvPath)) - 4))) (sp_name drvPath) in
  Ok (hashString SHA256 ("bsd-upstream-output:" ++ hashPart drvPath ++ ":" ++ outputPathName drvName outputName)).

Definition unknownDerivation (placeholder : Hash) (outputName : str) : result Hash :=
  _ ← require_feature xp DynamicDerivations;
  compressed ← compressHash xp placeholder 20;
  s ← to_string compressed Bsd32 false;
  Ok (hashString SHA256 ("bsd-computed-output:" ++ s ++ ":" ++ outputName)).

Fixpoint fromSingleDerivedPathBuilt (drvPath : SingleDerivedPath) (output : str) : result Hash :=
  match drvPath with
  | SOpaque p => unknownCaOutput p output
  | SBuilt d o => h ← fromSingleDerivedPathBuilt d o; unknownDerivation h output
  end.

(** [EvalState::mkOutputStringRaw]. *)
Definition mkOutputStringRaw (storeDir : str) (drvPath : SingleDerivedPath) (output : str) (path : option StorePath) : result str :=
  match path with
  | Some p => Ok (printStorePath storeDir p)
  | None => h ← fromSingleDerivedPathBuilt drvPath output; DownstreamPlaceholder_render h
  end.
End placeholder.

(** * Gathering the attributes *)

Record Gathered := MkGathered {
  g_builder : str;
  g_platform : str;
  g_args : list str;
  g_env : gmap str str;
  g_context : BsdStringContext;
  g_contentAddressed : bool;
  g_impure : bool;
  g_outputHash : option str;
  g_outputHashAlgo : option HashAlgorithm;
  g_ingestion : option ContentAddressMethod;
  g_outputs : gset str;
  g_json : option (list (str * json));
}.

Definition set_builder x g := MkGathered x (g_platform g) (g_args g) (g_env g) (g_context g) (g_contentAddressed g) (g_impure g) (g_outputHash g) (g_outputHashAlgo g) (g_ingestion g) (g_outputs g) (g_json g).
Definition set_platform x g := MkGathered (g_builder g) x (g_args g) (g_env g) (g_context g) (g_contentAddressed g) (g_impure g) (g_outputHash g) (g_outputHashAlgo g) (g_ingestion g) (g_outputs g) (g_json g).
Definition set_args x c g := MkGathered (g_builder g) (g_platform g) x (g_env g) c (g_contentAddressed g) (g_impure g) (g_outputHash g) (g_outputHashAlgo g) (g_ingestion g) (g_outputs g) (g_json g).
Definition set_env x c g := MkGathered (g_builder g) (g_platform g) (g_args g) x c (g_contentAddressed g) (g_impure g) (g_outputHash g) (g_outputHashAlgo g) (g_ingestion g) (g_outputs g) (g_json g).
Definition set_context x g := set_env (g_env g) x g.
Definition set_contentAddressed g := MkGathered (g_builder g) (g_platform g) (g_args g) (g_env g) (g_context g) true (g_impure g) (g_outputHash g) (g_outputHashAlgo g) (g_ingestion g) (g_outputs g) (g_json g).
Definition set_impure g := MkGathered (g_builder g) (g_platform g) (g_args g) (g_env g) (g_context g) (g_contentAddressed g) true (g_outputHash g) (g_outputHashAlgo g) (g_ingestion g) (g_outputs g) (g_json g).
Definition set_outputHash x g := MkGathered (g_builder g) (g_platform g) (g_args g) (g_env g) (g_context g) (g_contentAddressed g) (g_impure g) (Some x) (g_outputHashAlgo g) (g_ingestion g) (g_outputs g) (g_json g).
Definition set_outputHashAlgo x g := MkGathered (g_builder g) (g_platform g) (g_args g) (g_env g) (g_context g) (g_contentAddressed g) (g_impure g) (g_outputHash g) x (g_ingestion g) (g_outputs g) (g_json g).
Definition set_ingestion x g := MkGathered (g_builder g) (g_platform g) (g_args g) (g_env g) (g_context g) (g_contentAddressed g) (g_impure g) (g_outputHash g) (g_outputHashAlgo g) (Some x) (g_outputs g) (g_json g).
Definition set_outputs x g := MkGathered (g_builder g) (g_platform g) (g_args g) (g_env g) (g_context g) (g_contentAddressed g) (g_impure g) (g_outputHash g) (g_outputHashAlgo g) (g_ingestion g) x (g_json g).
Definition set_json x c g := MkGathered (g_builder g) (g_platform g) (g_args g) (g_env g) c (g_contentAddressed g) (g_impure g) (g_outputHash g) (g_outputHashAlgo g) (g_ingestion g) (g_outputs g) (Some x).

Section derivation.
Context (cfg : Config) (hashString : HashAlgorithm → str → Hash) (store : StoreOps).

Abbreviation xp := (xpSettings cfg).
Abbreviation storeDir := (storeDir cfg).

Section gather.
Context (E : Evaluator).

(** [strict] and [copyToStore] are set by the callers here. *)
Fixpoint printValueAsJSON (fuel : nat) (r : Ref) (context : BsdStringContext) : EM (json * BsdStringContext) :=
  match fuel with
  | O => throw NonTermination
  | S fuel =>
      v ← forceValue E r;
      match v with
      | VInt n => mret (JInt n, context)
      | VBool b => mret (JBool b, context)
      | VString s c => context ← copyContext cfg c context; mret (JString s, context)
      | VPath a p => '(dst, context) ← copyPathToStore cfg context a p; mret (JString (printStorePath storeDir dst), context)
      | VNull => mret (JNull, context)
      | VAttrs b =>
          maybeString ← tryAttrsToString E r b context false false;
          match maybeString with
          | Some (s, context) => mret (JString s, context)
          | None =>
              i ← attr_get b sOutPath;
              match i with
              | Some a => printValueAsJSON fuel (RAddr a) context
              | None =>
                  l ← lexicographicOrder b;
                  st ← State.foldS (λ (st : list (str * json) * BsdStringContext) (x : str * Attr),
                      '(j, c) ← printValueAsJSON fuel (RAddr x.2.2) st.2; mret (json_emplace x.1 j st.1, c)) ([], context) l;
                  mret (JObject st.1, st.2)
              end
          end
      | VList l =>
          st ← State.foldS (λ (st : list json * BsdStringContext) a,
              '(j, c) ← printValueAsJSON fuel (RAddr a) st.2; mret (st.1 ++ [j], c)) ([], context) l;
          mret (JArray st.1, st.2)
      | VFloat f => mret (JFloat f, context)
      | _ => throw (TypeError "cannot convert to JSON")
      end
  end.

Definition handleHashMode (s : str) (g : Gathered) : result Gathered :=
  m ← (if str_eqb s "recursive" then Ok CAM_BsdArchive
       else match CAM_parse s with
            | Throw (UsageError _) => Throw (EvalError "invalid value for 'outputHashMode' attribute")
            | r => r
            end);
  _ ← (if bool_decide (m = CAM_Text) then require_feature xp DynamicDerivations else Ok tt);
  _ ← (if bool_decide (m = CAM_Git) then require_feature xp GitHashing else Ok tt);
  Ok (set_ingestion m g).

Definition add_output_name (outputs : gset str) (j : str) : result (gset str) :=
  if bool_decide (j ∈ outputs) then Throw (EvalError "duplicate derivation output")
  else if str_eqb j "drvPath" then Throw (EvalError "invalid derivation output name 'drvPath'")
  else Ok ({[j]} ∪ outputs).
Definition handleOutputs (ss : list str) (g : Gathered) : result Gathered :=
  outputs ← foldR add_output_name ∅ ss;
  if bool_decide (outputs = ∅) then Throw (EvalError "derivation cannot have an empty set of outputs") else Ok (set_outputs outputs g).

(** An attribute that goes into the JSON object [obj]. *)
Definition json_attr (fuel : nat) (obj : list (str * json)) (g : Gathered) (key : str) (i : Attr) : EM Gathered :=
  let r := RAddr i.2 in
  '(j, c) ← printValueAsJSON fuel r (g_context g);
  let g := set_json (json_emplace key j obj) c g in
  if (i.1 =? sBuilder)%nat then '(s, c) ← forceStringCtx cfg E r (g_context g); mret (set_builder s (set_context c g))
  else if (i.1 =? sSystem)%nat then s ← forceStringNoCtx E r; mret (set_platform s g)
  else if (i.1 =? sOutputHash)%nat then s ← forceStringNoCtx E r; mret (set_outputHash s g)
  else if (i.1 =? sOutputHashAlgo)%nat then s ← forceStringNoCtx E r; mret (set_outputHashAlgo (parseHashAlgoOpt s) g)
  else if (i.1 =? sOutputHashMode)%nat then s ← forceStringNoCtx E r; State.lift (handleHashMode s g)
  else if (i.1 =? sOutputs)%nat then
    l ← forceList E r;
    ss ← mapS (λ elem, forceStringNoCtx E (RAddr elem)) l;
    State.lift (handleOutputs ss g)
  else mret g.

(** An attribute that becomes a variable of the environment. *)
Definition env_attr (g : Gathered) (key : str) (i : Attr) : EM Gathered :=
  '(s, c) ← ev_coerce E (RAddr i.2) (g_context g) true true;
  let g := set_env (emplace (g_env g) (key, s)) c g in
  if (i.1 =? sBuilder)%nat then mret (set_builder s g)
  else if (i.1 =? sSystem)%nat then mret (set_platform s g)
  else if (i.1 =? sOutputHash)%nat then mret (set_outputHash s g)
  else if (i.1 =? sOutputHashAlgo)%nat then mret (set_outputHashAlgo (parseHashAlgoOpt s) g)
  else if (i.1 =? sOutputHashMode)%nat then State.lift (handleHashMode s g)
  else if (i.1 =? sOutputs)%nat then State.lift (handleOutputs (tokenizeString s default_separators) g)
  else mret g.

(** The loop over the attributes; [jsonObject] and the flag are known before. *)
Definition handle_attr (fuel : nat) (ignoreNulls : bool) (g : Gathered) (x : str * Attr) : EM Gathered :=
  let '(key, i) := x in
  let r := RAddr i.2 in
  if (i.1 =? sIgnoreNulls)%nat then mret g
  else
    skip ← (if ignoreNulls then v ← forceValue E r; mret (match v with VNull => true | _ => false end) else mret false);
    if skip : bool then mret g
    else
      ca ← (if (i.1 =? sContentAddressed)%nat then forceBool E r else mret false);
      if ca : bool then State.lift (require_feature xp CaDerivations);; mret (set_contentAddressed g)
      else
        impure ← (if (i.1 =? sImpure)%nat then forceBool E r else mret false);
        if impure : bool then State.lift (require_feature xp ImpureDerivations);; mret (set_impure g)
        else if (i.1 =? sArgs)%nat then
          l ← forceList E r;
          State.foldS (λ g elem, '(s, c) ← ev_coerce E (RAddr elem) (g_context g) true true; mret (set_args (g_args g ++ [s]) c g)) g l
        else
          match g_json g with
          | Some obj => if (i.1 =? sStructuredAttrs)%nat then mret g else json_attr fuel obj g key i
          | None => env_attr g key i
          end.

Definition flag (b : list Attr) (name : Symbol) : EM bool :=
  attr ← attr_get b name; match attr with Some a => forceBool E (RAddr a) | None => mret false end.

Definition gather (fuel : nat) (b : list Attr) : EM Gathered :=
  structured ← flag b sStructuredAttrs;
  ignoreNulls ← flag b sIgnoreNulls;
  l ← lexicographicOrder b;
  State.foldS (handle_attr fuel ignoreNulls)
    (MkGathered [] [] [] ∅ [] false false None None None {["out"%str]} (if structured : bool then Some [] else None)) l.
End gather.

(** * The derivation *)

Definition with_outputs (drv : Derivation) (outs : gmap str DerivationOutput) (e : gmap str str) : Derivation :=
  let b := basic drv in
  Build_Derivation (Build_BasicDerivation outs (inputSrcs b) (platform b) (builder b) (args b) e (drv_name b)) (inputDrvs drv).
Definition with_inputs (drv : Derivation) (srcs : gset StorePath) (ins : DerivedPathMap) : Derivation :=
  let b := basic drv in
  Build_Derivation (Build_BasicDerivation (outputs b) srcs (platform b) (builder b) (args b) (env b) (drv_name b)) ins.

(** A path of the closure of a derivation. *)
Definition add_closure_path (drv : Derivation) (j : StorePath) : result Derivation :=
  let drv := with_inputs drv ({[j]} ∪ inputSrcs (basic drv)) (inputDrvs drv) in
  if StorePath.isDerivation j then
    d ← readDerivation store j;
    Ok (with_inputs drv (inputSrcs (basic drv))
          (ensureSlot (inputDrvs drv) (SOpaque j) (λ n, MkNode (outputNames (basic d)) (node_childMap n))))
  else Ok drv.
(** An element of the context. *)
Definition add_context (drv : Derivation) (c : BsdStringContextElem) : result Derivation :=
  match c with
  | CtxDrvDeep p => refs ← computeFSClosure store p; foldR add_closure_path drv (set_sorted refs)
  | CtxBuilt d o =>
      Ok (with_inputs drv (inputSrcs (basic drv)) (ensureSlot (inputDrvs drv) d (λ n, MkNode ({[o]} ∪ node_value n) (node_childMap n))))
  | CtxOpaque p => Ok (with_inputs drv ({[p]} ∪ inputSrcs (basic drv)) (inputDrvs drv))
  end.

(** Everything but the outputs. *)
Definition unfinished (drvName : str) (g : Gathered) : result Derivation :=
  e ← match g_json g with
      | Some obj => s ← json_dump store obj; Ok (emplace (g_env g) ("__json"%str, s))
      | None => Ok (g_env g)
      end;
  drv ← foldR add_context (Build_Derivation (Build_BasicDerivation ∅ ∅ (g_platform g) (g_builder g) (g_args g) e drvName) ∅) (g_context g);
  if str_eqb (g_builder g) "" then Throw (EvalError "required attribute 'builder' missing")
  else if str_eqb (g_platform g) "" then Throw (EvalError "required attribute 'system' missing")
  else if hasSuffix drvName drvExtension &&
          negb (bool_decide (g_ingestion g = Some CAM_Text) && bool_decide (g_outputs g = {["out"%str]})) then
    Throw (EvalError "derivation names are allowed to end in '.drv' only if they produce a single derivation file")
  else Ok drv.

Definition fixed_output (g : Gathered) (outputHash : str) (drv : Derivation) : result Derivation :=
  if negb (bool_decide (g_outputs g = {["out"%str]})) then Throw (EvalError "multiple outputs are not supported in fixed-output derivations")
  else
    h ← newHashAllowEmpty xp outputHash (g_outputHashAlgo g);
    let ca := {| ca_method := default CAM_Flat (g_ingestion g); ca_hash := h |} in
    p ← CAFixed_path xp storeDir hashString ca (drv_name (basic drv)) "out";
    Ok (with_outputs drv (<["out"%str := CAFixed ca]> (outputs (basic drv))) (<["out"%str := printStorePath storeDir p]> (env (basic drv)))).

Definition floating_output (o : DerivationOutput) (drv : Derivation) (i : str) : result Derivation :=
  ph ← hashPlaceholder hashString i;
  Ok (with_outputs drv (<[i := o]> (outputs (basic drv))) (<[i := ph]> (env (basic drv)))).

Definition mask_output (drv : Derivation) (i : str) : Derivation :=
  with_outputs drv (<[i := Deferred]> (outputs (basic drv))) (<[i := []]> (env (basic drv))).
Definition regular_output (hashModulo : DrvHash) (drv : Derivation) (i : str) : result Derivation :=
  match hashes hashModulo !! i with
  | None => Throw (AssertionError "derivation produced no hash for output")
  | Some h =>
      outPath ← makeOutputPath xp storeDir hashString i h (drv_name (basic drv));
      Ok (with_outputs drv (<[i := InputAddressed outPath]> (outputs (basic drv))) (<[i := printStorePath storeDir outPath]> (env (basic drv))))
  end.
Definition deferred_output (drv : Derivation) (i : str) : Derivation :=
  with_outputs drv (<[i := Deferred]> (outputs (basic drv))) (env (basic drv)).

Definition make_outputs (fuel : nat) (g : Gathered) (drv : Derivation) : ST Derivation :=
  match g_outputHash g with
  | Some outputHash => DrvHash.lift (fixed_output g outputHash drv)
  | None =>
      if g_contentAddressed g || g_impure g then
        if g_contentAddressed g && g_impure g then DrvHash.lift (Throw (EvalError "derivation cannot be both content-addressed and impure"))
        else
          let ha := default SHA256 (g_outputHashAlgo g) in
          let method := default CAM_BsdArchive (g_ingestion g) in
          DrvHash.lift (foldR (floating_output (if g_impure g then Impure method ha else CAFloating method ha)) drv (set_sorted (g_outputs g)))
      else
        let drv := foldl mask_output drv (set_sorted (g_outputs g)) in
        hashModulo ← hashDerivationModulo xp storeDir hashString (readInvalidDerivation store) fuel drv true;
        match kind hashModulo with
        | Regular => DrvHash.lift (foldR (regular_output hashModulo) drv (set_sorted (g_outputs g)))
        | DeferredHash => mret (foldl deferred_output drv (set_sorted (g_outputs g)))
        end
  end.

(** * Writing it *)

Definition drv_references (drv : Derivation) : gset StorePath := inputSrcs (basic drv) ∪ dom (inputDrvs drv).
Definition writeDerivation (drv : Derivation) : result StorePath :=
  let suffix := drv_name (basic drv) ++ drvExtension in
  contents ← unparse xp storeDir hashString drv false None;
  if readOnlyMode cfg then makeFixedOutputPathFromCA xp storeDir hashString suffix (TextInfo (hashString SHA256 contents) (drv_references drv))
  else addText store contents suffix (drv_references drv).

Definition instantiate (fuel : nat) (drvName : str) (g : Gathered) : ST (StorePath * Derivation) :=
  drv ← DrvHash.lift (unfinished drvName g);
  drv ← make_outputs fuel g drv;
  drvPath ← DrvHash.lift (writeDerivation drv);
  h ← hashDerivationModulo xp storeDir hashString (readInvalidDerivation store) fuel drv false;
  insert_or_assign drvPath h;;
  mret (drvPath, drv).

(** * [derivationStrict] *)

Definition checkDerivationName (drvName : str) : result unit :=
  match checkName drvName with Throw (BadStorePathName _) => Throw (EvalError "invalid derivation name") | r => r end.

(** [mkOutputString]. *)
Definition output_attr (drvPath : StorePath) (b : Builder) (o : str * DerivationOutput) : EM Builder :=
  name ← createSymbol o.1;
  drvName ← State.lift (nameFromPath drvPath);
  path ← State.lift (DerivationOutput_path xp storeDir hashString o.2 drvName o.1);
  s ← State.lift (mkOutputStringRaw xp hashString storeDir (SOpaque drvPath) o.1 path);
  alloc_attr b name (mkString s [CtxBuilt (SOpaque drvPath) o.1]).

Definition result_value (drvPath : StorePath) (drv : Derivation) : EM Value :=
  b ← buildBindings (1 + size (outputs (basic drv)));
  b ← alloc_attr b sDrvPath (mkString (printStorePath storeDir drvPath) [CtxDrvDeep drvPath]);
  b ← State.foldS (output_attr drvPath) b (map_sorted (outputs (basic drv)));
  finish b.

Definition derivationStrictInternal (E : Evaluator) (fuel : nat) (drvName : str) (b : list Attr) : IM Value :=
  evalM (State.lift (checkDerivationName drvName));;
  g ← evalM (gather E fuel b);
  '(drvPath, drv) ← tableM (instantiate fuel drvName g);
  evalM (result_value drvPath drv).

Definition prim_derivationStrict (E : Evaluator) (fuel : nat) (args : list addr) : IM Value :=
  a ← evalM (arg args 0);
  b ← evalM (forceAttrs E (RAddr a));
  nameAttr ← evalM (getAttr b sName);
  drvName ← evalM (forceStringNoCtx E (RAddr nameAttr));
  derivationStrictInternal E fuel drvName b.
End derivation.
