(* ===== verification/InstantiateOk.v ===== *)
(** Derivations made by the language pass the check of the store, nothing their
    attributes refer to is lost, and placeholders identify the outputs they
    stand for. *)

From S2P Require Import Prelude State Strings Xp Hash FileSystem StorePath ContentAddress Derivation DerivedPath DrvHash Expr Value Eval Primops.
From S2P Require Import Instantiate CanonPath EvalSafe.

(** * Store paths *)

Section paths.
Context (xp : XpSettings) (storeDir : str) (hashString : HashAlgorithm → str → Hash).
Context (Hhash : ∀ a s, hash_regular (hashString a s) ∧ algo (hashString a s) = a).

Lemma makeStorePath_ok type h name p : makeStorePath xp storeDir hashString type h name = Ok p → sp_wf p ∧ sp_name p = name.
Proof using Hhash.
  unfold makeStorePath. destruct (to_string h Base16 true) as [hs|]; [|done]. cbn [mbind result_bind].
  rewrite (makeStorePath_str_eq xp storeDir hashString Hhash). destruct (checkPathName name) as [[]|] eqn:E; [|done].
  cbn [mbind result_bind]. intros [= <-]. by apply made_path_wf.
Qed.
Lemma fromCA_ok name ca p : makeFixedOutputPathFromCA xp storeDir hashString name ca = Ok p → sp_wf p ∧ sp_name p = name.
Proof using Hhash.
  destruct ca as [h refs|m h refs]; cbn [makeFixedOutputPathFromCA].
  - destruct (assertR _); [|done]. apply makeStorePath_ok.
  - unfold makeFixedOutputPath. destruct (_ && _); [done|]. destruct (_ && _); [apply makeStorePath_ok|].
    destruct (negb _); [done|]. destruct (makeFileIngestionPrefix xp m); [|done]. cbn [mbind result_bind].
    destruct (to_string h Base16 true); [|done]. apply makeStorePath_ok.
Qed.
Lemma outPath_ok id h name p : makeOutputPath xp storeDir hashString id h name = Ok p → sp_wf p ∧ sp_name p = outputPathName name id.
Proof using Hhash. apply makeStorePath_ok. Qed.
End paths.

(** * Loops over the outputs *)

Lemma basic_eta (d : Derivation) : with_outputs d (outputs (basic d)) (env (basic d)) = d.
Proof. by destruct d as [[]]. Qed.
Lemma foldR_Ok {A S} (f : S → A → S) l s : foldR (λ s x, Ok (f s x)) s l = Ok (foldl f s l).
Proof. revert s. induction l as [|x l IH]; intros s; [done|]. apply IH. Qed.

(** Each round sets an output and its variable. *)
Lemma foldR_outputs (f : Derivation → str → result Derivation) (Q : str → str → DerivationOutput → str → Prop) l :
  (∀ d i d', f d i = Ok d' → ∃ o v, Q (drv_name (basic d)) i o v ∧
     d' = with_outputs d (<[i:=o]> (outputs (basic d))) (<[i:=v]> (env (basic d)))) →
  ∀ d d', foldR f d l = Ok d' → NoDup l →
    d' = with_outputs d (outputs (basic d')) (env (basic d')) ∧
    (∀ id, id ∉ l → outputs (basic d') !! id = outputs (basic d) !! id ∧ env (basic d') !! id = env (basic d) !! id) ∧
    (∀ id, id ∈ l → ∃ o v, Q (drv_name (basic d)) id o v ∧ outputs (basic d') !! id = Some o ∧ env (basic d') !! id = Some v).
Proof.
  intros Hf. induction l as [|i l IH]; intros d d' E Hnd; cbn [foldR] in E.
  { injection E as <-. split_and!; [by rewrite basic_eta|done|by intros id ?%elem_of_nil]. }
  destruct (f d i) as [d1|] eqn:Ef; cbn [mbind result_bind] in E; [|done]. apply NoDup_cons in Hnd as [Hi Hnd].
  destruct (Hf _ _ _ Ef) as (o & v & HQ & ->). destruct (IH _ _ E Hnd) as (H1 & H2 & H3). cbn [with_outputs basic drv_name outputs env inputDrvs] in *.
  split_and!; [done| |].
  - intros id [Hne Hid]%not_elem_of_cons. destruct (H2 id Hid) as [-> ->]. by rewrite !lookup_insert_ne.
  - intros id [->|Hid]%elem_of_cons; [|by apply H3]. exists o, v. destruct (H2 i Hi) as [-> ->]. by rewrite !lookup_insert_eq.
Qed.

(** * Derivations with the same masked text *)

Section masked.
Context (xp : XpSettings) (storeDir : str) (hashString : HashAlgorithm → str → Hash).
Context (read : StorePath → result Derivation).
Abbreviation hash_modulo := (hash_modulo xp storeDir hashString read).

Lemma hash_modulo_masked n d1 d2 t1 t2 h :
  masked_eq (basic d1) (basic d2) → inputDrvs d1 = inputDrvs d2 →
  drv_type (basic d1) = Ok t1 → drv_type (basic d2) = Ok t2 → isFixed t1 = false → isFixed t2 = false → initial_kind t1 = initial_kind t2 →
  hash_modulo (S n) d1 true = Ok h → hash_modulo (S n) d2 true = Ok h.
Proof using Type.
  intros M Hi T1 T2 F1 F2 K. cbn [DrvHash.hash_modulo]. rewrite T1, T2. cbn [mbind result_bind]. rewrite F1, F2, K, Hi.
  destruct (foldR _ _ _) as [acc|]; cbn [mbind result_bind]; [|done]. unfold finish_hash. intros <-.
  assert (unparse xp storeDir hashString d1 true (Some (map_sorted acc.2)) = unparse xp storeDir hashString d2 true (Some (map_sorted acc.2))) as ->.
  { destruct d1 as [b1 i1], d2 as [b2 i2]. cbn in M, Hi. subst i2. by apply masked_text. }
  destruct (unparse xp storeDir hashString d2 true _) as [s|]; [|done]. cbn [mbind result_bind].
  assert (map (λ no : str * DerivationOutput, (no.1, hashString SHA256 s)) (map_sorted (outputs (basic d1))) =
    map (λ no : str * DerivationOutput, (no.1, hashString SHA256 s)) (map_sorted (outputs (basic d2)))) as ->; [|done].
  apply Forall2_map_eq. eapply Forall2_impl; [apply map_sorted_same_keys, (me_outputs _ _ M)|]. intros x y [-> _]. done.
Qed.
End masked.

(** * The check *)

Section check.
Context (cfg : Config) (hashString : HashAlgorithm → str → Hash) (store : StoreOps).
Context (Hhash : ∀ a s, hash_regular (hashString a s) ∧ algo (hashString a s) = a) (Hdir : store_dir_ok (storeDir cfg)).
Context (rank : StorePath → nat) (N : nat) (Hrank : ranked (readInvalidDerivation store) rank) (HN : ∀ p, (rank p < N)%nat).

Abbreviation xp := (xpSettings cfg).
Abbreviation storeDir := (storeDir cfg).
Abbreviation read := (readInvalidDerivation store).
Abbreviation hash_modulo := (hash_modulo xp storeDir hashString read).
Abbreviation hashDerivationModulo := (hashDerivationModulo xp storeDir hashString read).
Abbreviation table_ok := (table_ok xp storeDir hashString read rank).

Lemma hash_run drv mask hs : table_ok hs → ∃ hs', hashDerivationModulo (S N) drv mask hs = (hash_modulo (S N) drv mask, hs') ∧ table_ok hs'.
Proof using Hrank HN.
  intros Hh. destruct (computes_hash xp storeDir hashString read rank Hrank N drv mask (λ q _ _, HN q) hs Hh) as (hs' & E & H & _).
  by exists hs'.
Qed.

Lemma env_right (p : StorePath) (id : str) (e : gmap str str) : sp_wf p → e !! id = Some (printStorePath storeDir p) → envHasRightPath storeDir e p id = Ok tt.
Proof using Hdir. intros Hp He. unfold envHasRightPath. rewrite He, parse_print by done. cbn [mbind result_bind]. by rewrite bool_decide_true. Qed.

(** What the check asks of an output. *)
Definition output_checked (drv : Derivation) (hm : DrvHash) (id : str) (o : DerivationOutput) : Prop :=
  match o with
  | InputAddressed p =>
      hash_modulo (S N) drv true = Ok hm ∧
      (∃ h, hashes hm !! id = Some h ∧ makeOutputPath xp storeDir hashString id h (drv_name (basic drv)) = Ok p) ∧
      envHasRightPath storeDir (env (basic drv)) p id = Ok tt
  | CAFixed ca => ∃ p, CAFixed_path xp storeDir hashString ca (drv_name (basic drv)) id = Ok p ∧ envHasRightPath storeDir (env (basic drv)) p id = Ok tt
  | _ => True
  end.

Lemma check_loop drv hm l : ∀ st hs,
  (∀ id o, (id, o) ∈ l → output_checked drv hm id o) → (∀ h, st = Some h → h = hm) → table_ok hs →
  ∃ st' hs', DrvHash.foldS (check_output xp storeDir hashString read (S N) drv (drv_name (basic drv))) st l hs = (Ok st', hs') ∧ table_ok hs'.
Proof using Hrank HN.
  induction l as [|[id o] l IH]; intros st hs Hl Hst Hh; [by exists st, hs|]. cbn [DrvHash.foldS].
  assert (∃ st1 hs1, check_output xp storeDir hashString read (S N) drv (drv_name (basic drv)) st (id, o) hs = (Ok st1, hs1) ∧
    (∀ h, st1 = Some h → h = hm) ∧ table_ok hs1) as (st1 & hs1 & E & Hst1 & Hh1).
  { pose proof (Hl id o (list_elem_of_here _ _)) as Ho. unfold check_output. cbn [snd fst]. destruct o as [p|ca| | |]; cbn [output_checked] in Ho; try (by exists st, hs).
    - destruct Ho as (Hm & (h & Hi & Ep) & Ee).
      assert (∃ hs1, (match st with Some h => mret h | None => hashDerivationModulo (S N) drv true end : ST DrvHash) hs = (Ok hm, hs1) ∧ table_ok hs1) as (hs1 & Er & Hh1).
      { destruct st as [h'|]; [rewrite (Hst h' eq_refl); by exists hs|]. rewrite <- Hm. by apply hash_run. }
      exists (Some hm), hs1. split; [|split; [by intros ? [= <-]|done]]. unfold mbind at 1, ST_bind. rewrite Er, Hi.
      unfold DrvHash.lift. rewrite Ep. cbn [mbind result_bind]. rewrite bool_decide_true by done. unfold mbind, ST_bind. by rewrite Ee.
    - destruct Ho as (p & Ep & Ee). exists st, hs. split; [|done]. unfold mbind at 1, ST_bind, DrvHash.lift. rewrite Ep. cbn [mbind result_bind]. by rewrite Ee. }
  unfold mbind, ST_bind. rewrite E. apply IH; [|done|done]. intros i o' Hi. apply Hl. by right.
Qed.

Lemma isDerivation_ext p name : sp_name p = name ++ drvExtension → StorePath.isDerivation p = true.
Proof using Type.
  intros Hn. unfold StorePath.isDerivation, hasSuffix. rewrite Hn, length_app, Nat.add_sub, drop_app_length.
  apply andb_true_iff. split; [apply Nat.leb_le; lia|by apply bool_decide_eq_true].
Qed.

Lemma check_ok drv drvPath t hm hs :
  sp_name drvPath = drv_name (basic drv) ++ drvExtension → drv_type (basic drv) = Ok t →
  map_Forall (output_checked drv hm) (outputs (basic drv)) → table_ok hs →
  ∃ hs', checkInvariants xp storeDir hashString read (S N) drv drvPath hs = (Ok tt, hs') ∧ table_ok hs'.
Proof using Hrank HN.
  intros Hn Ht Ho Hh. unfold checkInvariants. rewrite (isDerivation_ext _ _ Hn), Hn, length_app, Nat.add_sub, take_app_length.
  unfold DrvHash.lift. cbn [assertR]. unfold mbind at 1, ST_bind. rewrite (proj2 (str_eqb_true _ _) eq_refl). cbn [negb]. rewrite Ht.
  destruct (check_loop drv hm (map_sorted (outputs (basic drv))) None hs) as (st & hs' & E & Hh'); [|done|done|].
  - intros id o Hi%elem_of_map_sorted. exact (Ho _ _ Hi).
  - exists hs'. unfold mbind, ST_bind. by rewrite E.
Qed.

(** * What is made before the outputs *)

Definition plain_drv (d d' : Derivation) : Prop := outputs (basic d') = outputs (basic d) ∧ drv_name (basic d') = drv_name (basic d).
Lemma foldR_inv {A S} (f : S → A → result S) (I : S → Prop) l : (∀ s x s', I s → f s x = Ok s' → I s') →
  ∀ s s', I s → foldR f s l = Ok s' → I s'.
Proof using Type.
  intros Hf. induction l as [|x l IH]; intros s s' Hs E; cbn [foldR] in E; [by injection E as <-|].
  destruct (f s x) as [s1|] eqn:E1; [|done]. by eapply IH; [eapply Hf|].
Qed.
Lemma add_context_plain c d d' : add_context store d c = Ok d' → plain_drv d d'.
Proof using Type.
  destruct c as [p|p|p o]; cbn [add_context]; [by intros [= <-]| |by intros [= <-]].
  destruct (computeFSClosure store p) as [refs|]; [|done]. cbn [mbind result_bind]. apply (foldR_inv _ (plain_drv d)); [|done].
  intros s x s' Hs. unfold add_closure_path. destruct (StorePath.isDerivation x); [|by intros [= <-]].
  destruct (readDerivation store x); [|done]. by intros [= <-].
Qed.
Lemma unfinished_plain name g d : unfinished store name g = Ok d → outputs (basic d) = ∅ ∧ drv_name (basic d) = name.
Proof using Type.
  unfold unfinished. destruct (match g_json g with Some _ => _ | None => _ end) as [e|]; [|done]. cbn [mbind result_bind].
  match goal with |- context [foldR (add_context store) ?d0 _] => set (d1 := d0) end.
  destruct (foldR (add_context store) d1 (g_context g)) as [d2|] eqn:E; [|done]. cbn [mbind result_bind].
  repeat (match goal with |- (if ?b then _ else _) = _ → _ => destruct b end; [done|]). intros [= <-].
  eapply (foldR_inv _ (plain_drv d1)) in E; [exact E| |done]. intros s x s' [H1 H2] [H3 H4]%add_context_plain. split; congruence.
Qed.

(** * The outputs *)

(** A derivation with all its outputs, which are those asked for. *)
Definition completed (g : Gathered) (d d' : Derivation) : Prop :=
  d' = with_outputs d (outputs (basic d')) (env (basic d')) ∧ dom (outputs (basic d')) = g_outputs g ∧
  (∃ t, drv_type (basic d') = Ok t) ∧ ∃ hm, map_Forall (output_checked d' hm) (outputs (basic d')).

Lemma fixed_completed g oh d d' : outputs (basic d) = ∅ → fixed_output cfg hashString g oh d = Ok d' → completed g d d'.
Proof using Hhash Hdir.
  intros H0. unfold fixed_output. case_bool_decide as Hg; [|done]. cbn [negb]. destruct (newHashAllowEmpty _ _ _) as [h|]; [|done].
  cbn [mbind result_bind]. set (ca := {| ca_method := _; ca_hash := h |}).
  destruct (CAFixed_path xp storeDir hashString ca (drv_name (basic d)) "out") as [p|] eqn:Ep; [|done]. cbn [mbind result_bind]. intros [= <-].
  unfold completed. cbn [with_outputs basic outputs env drv_name]. rewrite H0. split_and!.
  - done.
  - rewrite Hg. set_solver.
  - exists (DT_ContentAddressed false true). apply drv_type_iff. cbn [outputs]. split; [apply insert_non_empty|]. by exists ca.
  - exists {| hashes := ∅; kind := Regular |}. intros id o Ho. apply lookup_insert_Some in Ho as [[<- <-]|[_ Ho]]; [|by rewrite lookup_empty in Ho].
    exists p. split; [exact Ep|]. apply env_right; [|apply lookup_insert_eq].
    by eapply (fromCA_ok xp storeDir hashString Hhash).
Qed.

Lemma filled_dom (X : gset str) (o1 o2 : gmap str DerivationOutput) : o1 = ∅ →
  (∀ id, id ∉ set_sorted X → o2 !! id = o1 !! id) → (∀ id, id ∈ set_sorted X → is_Some (o2 !! id)) → dom o2 = X.
Proof using Type.
  intros -> H1 H2. apply set_eq. intros id. rewrite elem_of_dom, <- elem_of_set_sorted. split; [|apply H2].
  intros Ho. destruct (decide (id ∈ set_sorted X)) as [|Hn]; [done|]. rewrite H1, lookup_empty in Ho by done. by destruct Ho.
Qed.

Lemma floating_completed g (imp : bool) method ha d d' :
  outputs (basic d) = ∅ → g_outputs g ≠ ∅ →
  foldR (floating_output hashString (if imp then Impure method ha else CAFloating method ha)) d (set_sorted (g_outputs g)) = Ok d' → completed g d d'.
Proof using Type.
  intros H0 Hg E. set (o0 := if imp then Impure method ha else CAFloating method ha) in *.
  eapply (foldR_outputs _ (λ _ _ o _, o = o0)) in E as (H1 & H2 & H3); [| |apply set_sorted_NoDup].
  2: { intros s i s'. unfold floating_output. destruct (hashPlaceholder hashString i) as [ph|]; [|done]. intros [= <-]. by exists o0, ph. }
  assert (∀ id o, outputs (basic d') !! id = Some o → o = o0) as Hall.
  { intros id o Ho. destruct (decide (id ∈ set_sorted (g_outputs g))) as [Hi|Hi].
    - destruct (H3 id Hi) as (o' & v & -> & Eo & _). congruence.
    - rewrite (proj1 (H2 id Hi)), H0, lookup_empty in Ho. done. }
  assert (dom (outputs (basic d')) = g_outputs g) as Hdom.
  { eapply filled_dom; [exact H0|intros id Hi; by apply H2|]. intros id Hi. destruct (H3 id Hi) as (? & ? & _ & -> & _). by eexists. }
  split_and!; [done|done| |].
  - destruct imp.
    + exists DT_Impure. apply drv_type_iff. split; [intros E; apply Hg; rewrite <- Hdom, E; apply dom_empty_L|].
      intros id o Ho. rewrite (Hall _ _ Ho). by exists method, ha.
    + exists (DT_ContentAddressed true false). apply drv_type_iff. split; [intros E; apply Hg; rewrite <- Hdom, E; apply dom_empty_L|].
      exists ha. intros id o Ho. rewrite (Hall _ _ Ho). by exists method.
  - exists {| hashes := ∅; kind := Regular |}. intros id o Ho. rewrite (Hall _ _ Ho). by destruct imp.
Qed.

Section masked_outputs.
Context (g : Gathered) (d d1 : Derivation) (H0 : outputs (basic d) = ∅) (Hg : g_outputs g ≠ ∅).
Context (Hd1 : d1 = foldl mask_output d (set_sorted (g_outputs g))).

Lemma masked_spec :
  d1 = with_outputs d (outputs (basic d1)) (env (basic d1)) ∧ dom (outputs (basic d1)) = g_outputs g ∧
  (∀ id, id ∈ set_sorted (g_outputs g) → outputs (basic d1) !! id = Some Deferred ∧ env (basic d1) !! id = Some []) ∧
  (∀ id o, outputs (basic d1) !! id = Some o → id ∈ set_sorted (g_outputs g)).
Proof using Hd1 H0.
  assert (foldR (λ d i, Ok (mask_output d i)) d (set_sorted (g_outputs g)) = Ok d1) as E by (by rewrite foldR_Ok, Hd1).
  eapply (foldR_outputs _ (λ _ _ o v, o = Deferred ∧ v = [])) in E as (H1 & H2 & H3); [| |apply set_sorted_NoDup].
  2: { intros s i s' [= <-]. by exists Deferred, []. }
  assert (∀ id, id ∈ set_sorted (g_outputs g) → outputs (basic d1) !! id = Some Deferred ∧ env (basic d1) !! id = Some []) as H4.
  { intros id Hi. by destruct (H3 id Hi) as (? & ? & [-> ->] & ? & ?). }
  split_and!; [done| |exact H4|].
  - eapply filled_dom; [exact H0|intros id Hi; by apply H2|]. intros id Hi. by rewrite (proj1 (H4 id Hi)).
  - intros id o Ho. destruct (decide (id ∈ set_sorted (g_outputs g))) as [|Hi]; [done|].
    rewrite (proj1 (H2 id Hi)), H0, lookup_empty in Ho. done.
Qed.
Lemma masked_type : drv_type (basic d1) = Ok (DT_InputAddressed true).
Proof using Hd1 H0 Hg.
  destruct masked_spec as (_ & Hdom & H1 & H2). apply drv_type_iff. split; [intros E; apply Hg; rewrite <- Hdom, E; apply dom_empty_L|].
  intros id o Ho. destruct (H1 id (H2 _ _ Ho)) as [E _]. congruence.
Qed.

Lemma deferred_completed : completed g d (foldl deferred_output d1 (set_sorted (g_outputs g))).
Proof using Hd1 H0 Hg.
  destruct masked_spec as (E & Hdom & H1 & H2). assert (foldl deferred_output d1 (set_sorted (g_outputs g)) = d1) as ->.
  { assert (∀ l, (∀ id, id ∈ l → outputs (basic d1) !! id = Some Deferred) → foldl deferred_output d1 l = d1) as Hl.
    { induction l as [|id l IH]; intros Hl; [done|]. cbn [foldl]. unfold deferred_output at 2.
      rewrite insert_id by (apply Hl; by left). rewrite basic_eta. apply IH. intros i Hi. apply Hl. by right. }
    apply Hl. intros id Hi. by apply H1. }
  split_and!; [done|done|eexists; apply masked_type|]. exists {| hashes := ∅; kind := Regular |}. intros id o Ho.
  destruct (H1 id (H2 _ _ Ho)) as [Eo _]. rewrite Ho in Eo. by injection Eo as ->.
Qed.

Lemma regular_completed hm d2 :
  hash_modulo (S N) d1 true = Ok hm → foldR (regular_output cfg hashString hm) d1 (set_sorted (g_outputs g)) = Ok d2 → completed g d d2.
Proof using Hhash Hdir Hd1 H0 Hg.
  intros Hm E. destruct masked_spec as (E1 & Hdom & H1 & H2).
  eapply (foldR_outputs _ (λ name id o v, ∃ h p, hashes hm !! id = Some h ∧ makeOutputPath xp storeDir hashString id h name = Ok p ∧
    o = InputAddressed p ∧ v = printStorePath storeDir p)) in E as (E2 & H3 & H4); [| |apply set_sorted_NoDup].
  2: { intros s i s'. unfold regular_output. destruct (hashes hm !! i) as [h|]; [|done].
    destruct (makeOutputPath _ _ _ _ _ _) as [p|] eqn:Ep; [|done]. intros [= <-]. eexists _, _. split; [by exists h, p|done]. }
  assert (drv_name (basic d2) = drv_name (basic d1)) as En by (by rewrite E2).
  assert (∀ id o, outputs (basic d2) !! id = Some o → id ∈ set_sorted (g_outputs g)) as H5.
  { intros id o Ho. destruct (decide (id ∈ set_sorted (g_outputs g))) as [|Hi]; [done|]. rewrite (proj1 (H3 id Hi)) in Ho. by eapply H2. }
  assert (dom (outputs (basic d2)) = g_outputs g) as Hdom2.
  { apply set_eq. intros id. rewrite elem_of_dom, <- elem_of_set_sorted. split; [intros [o Ho]; by eapply H5|].
    intros Hi. destruct (H4 id Hi) as (? & ? & _ & -> & _). by eexists. }
  assert (masked_eq (basic d1) (basic d2)) as M.
  { split; try (by rewrite E2).
    - by rewrite Hdom, Hdom2.
    - intros id o1 o2 Ho1 Ho2. right. destruct (H1 id (H2 _ _ Ho1)) as [Eo _]. rewrite Ho1 in Eo. injection Eo as ->.
      destruct (H4 id (H2 _ _ Ho1)) as (o & v & (h & p & _ & _ & -> & _) & Eo & _). rewrite Ho2 in Eo. injection Eo as ->.
      split; [right; by left|by left].
    - apply set_eq. intros id. rewrite !elem_of_dom. destruct (decide (id ∈ set_sorted (g_outputs g))) as [Hi|Hi].
      + destruct (H4 id Hi) as (? & ? & _ & _ & ->). rewrite (proj2 (H1 id Hi)). split; by eexists.
      + by rewrite (proj2 (H3 id Hi)).
    - intros id Hn. destruct (decide (id ∈ set_sorted (g_outputs g))) as [Hi|Hi]; [by rewrite (proj1 (H1 id Hi)) in Hn|]. by rewrite (proj2 (H3 id Hi)). }
  assert (drv_type (basic d2) = Ok (DT_InputAddressed false)) as T2.
  { apply drv_type_iff. split; [intros E; apply Hg; rewrite <- Hdom2, E; apply dom_empty_L|]. intros id o Ho.
    destruct (H4 id (H5 _ _ Ho)) as (? & ? & (h & p & _ & _ & -> & _) & Eo & _). exists p. congruence. }
  assert (hash_modulo (S N) d2 true = Ok hm) as Hm2.
  { refine (hash_modulo_masked xp storeDir hashString read N d1 d2 _ _ hm M _ masked_type T2 eq_refl eq_refl eq_refl Hm). by rewrite E2. }
  split_and!; [|done|by eexists|].
  - rewrite E2. rewrite E1. done.
  - exists hm. intros id o Ho. destruct (H4 id (H5 _ _ Ho)) as (? & ? & (h & p & Eh & Ep & -> & ->) & Eo & Ee). rewrite Ho in Eo. injection Eo as ->.
    cbn [output_checked]. split_and!; [done|exists h; by rewrite En|]. apply env_right; [by eapply (outPath_ok xp storeDir hashString Hhash)|done].
Qed.
End masked_outputs.

Lemma make_outputs_completed g d d' hs hs' :
  outputs (basic d) = ∅ → g_outputs g ≠ ∅ → table_ok hs →
  make_outputs cfg hashString store (S N) g d hs = (Ok d', hs') → completed g d d' ∧ table_ok hs'.
Proof using Hhash Hdir Hrank HN.
  intros H0 Hg Hh. unfold make_outputs. destruct (g_outputHash g) as [oh|].
  { unfold DrvHash.lift. intros [= E <-]. split; [by eapply fixed_completed|done]. }
  destruct (g_contentAddressed g || g_impure g).
  { destruct (_ && _); [done|]. unfold DrvHash.lift. intros [= E <-]. split; [by eapply floating_completed|done]. }
  cbv zeta. set (d1 := foldl mask_output d (set_sorted (g_outputs g))). unfold mbind at 1, ST_bind.
  destruct (hash_run d1 true hs Hh) as (hs1 & -> & Hh1). destruct (hash_modulo (S N) d1 true) as [hm|] eqn:Em; [|done].
  destruct (kind hm).
  - unfold DrvHash.lift. intros [= E <-]. split; [by eapply regular_completed|done].
  - intros [= <- <-]. split; [by apply deferred_completed|done].
Qed.

(** * Writing *)

Context (Hadd : ∀ contents name refs p, addText store contents name refs = Ok p →
  makeFixedOutputPathFromCA xp storeDir hashString name (TextInfo (hashString SHA256 contents) refs) = Ok p).

Lemma writeDerivation_ok drv p : writeDerivation cfg hashString store drv = Ok p → sp_wf p ∧ sp_name p = drv_name (basic drv) ++ drvExtension.
Proof using Hhash Hadd.
  unfold writeDerivation. destruct (unparse _ _ _ _ _ _) as [c|]; [|done]. cbn [mbind result_bind].
  destruct (readOnlyMode cfg); [|intros H%Hadd; revert H]; apply (fromCA_ok xp storeDir hashString Hhash).
Qed.

Lemma instantiate_ok name g hs drvPath drv hs' :
  g_outputs g ≠ ∅ → table_ok hs → instantiate cfg hashString store (S N) name g hs = (Ok (drvPath, drv), hs') →
  drv_name (basic drv) = name ∧ dom (outputs (basic drv)) = g_outputs g ∧
  (∃ d0, unfinished store name g = Ok d0 ∧ drv = with_outputs d0 (outputs (basic drv)) (env (basic drv))) ∧
  writeDerivation cfg hashString store drv = Ok drvPath ∧
  (∃ h, hash_modulo (S N) drv false = Ok h ∧ hs' !! drvPath = Some h) ∧
  ∀ hs2, table_ok hs2 → ∃ hs3, checkInvariants xp storeDir hashString read (S N) drv drvPath hs2 = (Ok tt, hs3) ∧ table_ok hs3.
Proof using Hhash Hdir Hrank HN Hadd.
  intros Hg Hh. unfold instantiate. unfold mbind at 1, ST_bind, DrvHash.lift. destruct (unfinished store name g) as [d0|] eqn:E0; [|done].
  destruct (unfinished_plain _ _ _ E0) as [H0 Hn0]. unfold mbind at 1, ST_bind.
  destruct (make_outputs cfg hashString store (S N) g d0 hs) as [[d|] hs1] eqn:E1; [|done].
  destruct (make_outputs_completed _ _ _ _ _ H0 Hg Hh E1) as [(Ed & Hdom & (t & Ht) & hm & Hc) Hh1].
  unfold mbind at 1, ST_bind. destruct (writeDerivation cfg hashString store d) as [p|] eqn:Ew; [|done]. unfold mbind at 1, ST_bind.
  destruct (hash_run d false hs1 Hh1) as (hs2 & -> & Hh2). destruct (hash_modulo (S N) d false) as [h|] eqn:Eh; [|done].
  unfold insert_or_assign, mbind, ST_bind. intros [= <- <- <-]. destruct (writeDerivation_ok _ _ Ew) as [Hp Hname].
  split_and!; [by rewrite Ed|done|by exists d0|done|exists h; by rewrite lookup_insert_eq|].
  intros hs3 Hh3. by eapply check_ok.
Qed.
End check.

(** * Inputs *)

(** The outputs of [k] a derivation takes as inputs. *)
Definition input_outputs (ins : DerivedPathMap) (k : SingleDerivedPath) : gset str := default ∅ (node_value <$> findSlot ins k).

Lemma at_node_value (u : gset str → gset str) outs : ∀ n,
  at_node outs (λ n, MkNode (u (node_value n)) (node_childMap n)) n = at_node outs (DerivedPath.set_value (u (default ∅ (value_at outs n)))) n.
Proof.
  induction outs as [|o outs IH]; intros n; [done|]. cbn [at_node]. f_equal. unfold child_at. f_equal. rewrite IH. do 2 f_equal.
  unfold value_at. cbn [descend]. destruct (smap_find o (node_childMap n)) as [c|]; [done|]. by destruct outs.
Qed.
Lemma ensureSlot_value m k u k' :
  input_outputs (ensureSlot m k (λ n, MkNode (u (node_value n)) (node_childMap n))) k' =
    if bool_decide (k' = k) then u (input_outputs m k) else input_outputs m k'.
Proof.
  assert (ensureSlot m k (λ n, MkNode (u (node_value n)) (node_childMap n)) = ensureSlot m k (DerivedPath.set_value (u (input_outputs m k)))) as ->.
  { rewrite !ensureSlot_at. f_equal. rewrite at_node_value. do 3 f_equal. unfold input_outputs. rewrite findSlot_at. unfold value_at.
    destruct (m !! Single_getBaseStorePath k) as [n|]; [done|]. cbn. by destruct (single_outs k). }
  unfold input_outputs at 1. rewrite derived_path_map_slots. case_bool_decide; [done|]. unfold input_outputs.
  destruct (node_value <$> findSlot m k'); [done|]. by destruct (is_ancestor k' k).
Qed.

Section inputs.
Context (store : StoreOps).

(** A derivation that is needed with all that it provides. *)
Definition all_outputs (d : Derivation) (j : StorePath) : Prop :=
  StorePath.isDerivation j = true → ∃ drv, readDerivation store j = Ok drv ∧ outputNames (basic drv) ⊆ input_outputs (inputDrvs d) (SOpaque j).

Lemma closure_step d j d' : add_closure_path store d j = Ok d' →
  inputSrcs (basic d') = {[j]} ∪ inputSrcs (basic d) ∧ all_outputs d' j ∧ (∀ i, all_outputs d i → all_outputs d' i).
Proof using Type.
  unfold add_closure_path. destruct (StorePath.isDerivation j) eqn:Ej; cbn [inputDrvs with_inputs].
  2: { intros [= <-]. split_and!; [done|by unfold all_outputs; rewrite Ej|done]. }
  destruct (readDerivation store j) as [dj|] eqn:Ed; [|done]. cbn [mbind result_bind]. intros [= <-].
  pose proof (ensureSlot_value (inputDrvs d) (SOpaque j) (λ _, outputNames (basic dj))) as H. split_and!; [done| |].
  - intros _. exists dj. split; [done|]. cbn [inputDrvs with_inputs]. rewrite H, bool_decide_eq_true_2; done.
  - intros i Hi Ei. destruct (Hi Ei) as (di & Edi & Hs). cbn [inputDrvs with_inputs]. exists di. split; [done|]. rewrite H.
    case_bool_decide as Eij; [|done]. injection Eij as ->. rewrite Ed in Edi. by injection Edi as ->.
Qed.
Lemma closure_steps l : ∀ d d', foldR (add_closure_path store) d l = Ok d' →
  inputSrcs (basic d) ⊆ inputSrcs (basic d') ∧ (∀ i, all_outputs d i → all_outputs d' i) ∧
  ∀ j, j ∈ l → j ∈ inputSrcs (basic d') ∧ all_outputs d' j.
Proof using Type.
  induction l as [|j l IH]; intros d d' H; cbn [foldR] in H; [injection H as <-; split_and!; [done|done|by intros j ?%elem_of_nil]|].
  destruct (add_closure_path store d j) as [d1|] eqn:E1; [|done]. destruct (closure_step _ _ _ E1) as (Hs & Ha & Hm).
  destruct (IH _ _ H) as (Hs' & Hm' & Hl). split_and!; [set_solver|auto|]. intros i [->|Hi]%elem_of_cons; [|auto]. split; [set_solver|auto].
Qed.

(** What an element of a context asks of the inputs. *)
Definition is_input (d : Derivation) (c : BsdStringContextElem) : Prop :=
  match c with
  | CtxOpaque p => p ∈ inputSrcs (basic d)
  | CtxDrvDeep p => ∃ refs, computeFSClosure store p = Ok refs ∧ ∀ j, j ∈ refs → j ∈ inputSrcs (basic d) ∧ all_outputs d j
  | CtxBuilt k o => o ∈ input_outputs (inputDrvs d) k
  end.
Lemma context_step d c d' : add_context store d c = Ok d' → is_input d' c.
Proof using Type.
  destruct c as [p|p|k o]; cbn [add_context is_input]; [intros [= <-]; cbn; set_solver| |].
  - destruct (computeFSClosure store p) as [refs|]; [|done]. cbn [mbind result_bind]. intros (_ & _ & Hl)%closure_steps.
    exists refs. split; [done|]. intros j Hj. apply Hl. by apply elem_of_set_sorted.
  - intros [= <-]. cbn [inputDrvs with_inputs]. rewrite (ensureSlot_value _ _ (λ X, {[o]} ∪ X)), bool_decide_eq_true_2 by done. set_solver.
Qed.
(** Later elements keep it. *)
Lemma context_keeps d c c' d' : ctx_compare c c' = Lt → is_input d c → add_context store d c' = Ok d' → is_input d' c.
Proof using Type.
  intros Hlt Hc H.
  assert (inputSrcs (basic d) ⊆ inputSrcs (basic d') ∧ (∀ i, all_outputs d i → all_outputs d' i)) as [Hs Hm].
  { destruct c' as [p|p|k o]; cbn [add_context] in H; [injection H as <-; cbn; split; [set_solver|done]| |].
    - destruct (computeFSClosure store p) as [refs|]; [|done]. by apply closure_steps in H as (? & ? & _).
    - injection H as <-. split; [done|]. intros i Hi Ei. destruct (Hi Ei) as (di & Edi & Hsub). exists di. split; [done|].
      cbn [inputDrvs with_inputs]. rewrite (ensureSlot_value _ _ (λ X, {[o]} ∪ X)). case_bool_decide as Ek; [|done]. rewrite <- Ek. set_solver. }
  destruct c as [p|p|k o]; cbn [is_input] in *; [set_solver| |].
  - destruct Hc as (refs & Er & Hr). exists refs. split; [done|]. intros j Hj. destruct (Hr j Hj). split; [set_solver|auto].
  - destruct c' as [p|p|k' o']; [done|done|]. cbn [add_context] in H. injection H as <-. cbn [inputDrvs with_inputs].
    rewrite (ensureSlot_value _ _ (λ X, {[o']} ∪ X)). case_bool_decide as Ek; [|done]. rewrite <- Ek. set_solver.
Qed.
Lemma context_steps l : ∀ d d', StronglySorted (λ x y, ctx_compare x y = Lt) l → foldR (add_context store) d l = Ok d' →
  (∀ c, Forall (λ y, ctx_compare c y = Lt) l → is_input d c → is_input d' c) ∧ ∀ c, c ∈ l → is_input d' c.
Proof using Type.
  induction l as [|c l IH]; intros d d' Hs H; cbn [foldR] in H; [injection H as <-; split; [done|by intros c ?%elem_of_nil]|].
  destruct (add_context store d c) as [d1|] eqn:E1; [|done]. apply StronglySorted_inv in Hs as [Hs Hc]. destruct (IH _ _ Hs H) as [Hk Hl]. split.
  - intros c' [Hc' Hf]%Forall_cons Hi. apply Hk; [done|]. by eapply context_keeps.
  - intros c' [->|Hi]%elem_of_cons; [|auto]. apply Hk; [done|]. by eapply context_step.
Qed.
End inputs.

(** [C15] Everything the strings of a derivation refer to becomes an input of
    it, in the order a [std::set] visits the context. A path is a source; an
    output of a derivation is among the outputs taken from it; with a derivation
    needed with all it provides, its whole closure is a source and all outputs
    of the derivations in the closure are taken, even though that assignment
    overwrites the set of outputs of the slot. *)
Theorem context_becomes_input store name g drv :
  StronglySorted (λ x y, ctx_compare x y = Lt) (g_context g) → unfinished store name g = Ok drv →
  ∀ c, c ∈ g_context g → is_input store drv c.
Proof.
  intros Hs. unfold unfinished. destruct (match g_json g with Some _ => _ | None => _ end) as [e|]; [|done]. cbn [mbind result_bind].
  match goal with |- context [foldR (add_context store) ?d0 _] => destruct (foldR (add_context store) d0 (g_context g)) as [d|] eqn:E; [|done] end.
  cbn [mbind result_bind]. repeat (match goal with |- (if ?b then _ else _) = _ → _ => destruct b end; [done|]). intros [= <-].
  by apply (context_steps _ _ _ _ Hs E).
Qed.

(** * The attributes gathered *)

Definition outputs_ok (g : Gathered) : Prop := g_outputs g ≠ ∅ ∧ "drvPath"%str ∉ g_outputs g.
(** What a computation returns has a property, whatever else it does. *)
Definition yields {S A} (m : StE S A) (Q : A → Prop) : Prop := ∀ s, wp (λ _ _, True) m (λ a _, Q a) s.
Lemma yields_bind {S A B} (m : StE S A) (f : A → StE S B) Q : (∀ a, yields (f a) Q) → yields (m ≫= f) Q.
Proof. intros H s. apply st_bind. unfold wp at 1. destruct (m s) as [[a|] s']; [apply H|done]. Qed.
Lemma yields_run {S A} (m : StE S A) Q s a s' : yields m Q → m s = (Ok a, s') → Q a.
Proof. intros H E. specialize (H s). unfold wp in H. by rewrite E in H. Qed.
Lemma yields_ret {S A} (a : A) Q : Q a → yields (mret a : StE S A) Q.
Proof. by intros H s. Qed.
Lemma yields_throw {S A} e (Q : A → Prop) : yields (throw e : StE S A) Q.
Proof. by intros s. Qed.
Lemma yields_lift {S A} (r : result A) Q : match r with Ok a => Q a | Throw _ => True end → yields (State.lift r : StE S A) Q.
Proof. intros H s. by apply st_lift. Qed.
Lemma yields_foldS {S A B} (f : B → A → StE S B) (I : B → Prop) l b :
  I b → (∀ b x, I b → yields (f b x) I) → yields (State.foldS f b l) I.
Proof.
  revert b. induction l as [|x l IH]; intros b Hb Hf; [by apply yields_ret|]. intros s. apply st_bind.
  eapply st_mono; [by apply Hf|]. intros b' s' Hb'. by apply IH.
Qed.

Ltac yields_with tac :=
  repeat first
    [ tac | apply yields_ret | apply yields_throw
    | match goal with
      | |- yields (let '(_, _) := ?x in _) _ => destruct x
      | |- yields (if ?b then _ else _) _ => destruct b
      | |- yields (match ?x with _ => _ end) _ => destruct x
      end
    | apply yields_bind; intros ? ].
Ltac yields := yields_with fail.

Section gather_ok.
Context (cfg : Config) (E : Evaluator).

Lemma handleHashMode_ok s g : outputs_ok g → match handleHashMode cfg s g with Ok g => outputs_ok g | Throw _ => True end.
Proof using Type.
  intros Hg. unfold handleHashMode. destruct (if str_eqb _ _ then _ else _) as [m|]; [|done]. cbn [mbind result_bind].
  destruct (if bool_decide (m = CAM_Text) then _ else _) as [[]|]; [|done]. cbn [mbind result_bind].
  by destruct (if bool_decide (m = CAM_Git) then _ else _) as [[]|].
Qed.
Lemma handleOutputs_ok ss g : match handleOutputs ss g with Ok g => outputs_ok g | Throw _ => True end.
Proof using Type.
  unfold handleOutputs. destruct (foldR add_output_name ∅ ss) as [outs|] eqn:Eo; [|done]. cbn [mbind result_bind].
  case_bool_decide as Hne; [done|]. split; [done|]. cbn [g_outputs set_outputs].
  eapply (foldR_inv add_output_name (λ X : gset str, "drvPath"%str ∉ X)); [|apply not_elem_of_empty|exact Eo].
  intros X j X' HX. unfold add_output_name. case_bool_decide; [done|]. destruct (str_eqb j "drvPath") eqn:Ej; [done|]. intros [= <-].
  intros [Hj%elem_of_singleton|?]%elem_of_union; [|done]. by rewrite (proj2 (str_eqb_true _ _) (eq_sym Hj)) in Ej.
Qed.
Lemma env_attr_ok g key i : outputs_ok g → yields (env_attr cfg E g key i) outputs_ok.
Proof using Type.
  intros Hg. unfold env_attr. yields; try exact Hg; apply yields_lift; [by apply handleHashMode_ok|apply handleOutputs_ok].
Qed.
Lemma json_attr_ok fuel obj g key i : outputs_ok g → yields (json_attr cfg E fuel obj g key i) outputs_ok.
Proof using Type.
  intros Hg. unfold json_attr. yields; try exact Hg; apply yields_lift; [by apply handleHashMode_ok|apply handleOutputs_ok].
Qed.
Lemma handle_attr_ok fuel ign g x : outputs_ok g → yields (handle_attr cfg E fuel ign g x) outputs_ok.
Proof using Type.
  intros Hg. unfold handle_attr.
  yields_with ltac:(first [by apply json_attr_ok|by apply env_attr_ok|apply yields_foldS; [done|intros ? ? Hg'; yields; exact Hg']]); exact Hg.
Qed.
Lemma gather_ok fuel b : yields (gather cfg E fuel b) outputs_ok.
Proof using Type.
  unfold gather. do 3 (apply yields_bind; intros ?). apply yields_foldS; [|intros; by apply handle_attr_ok].
  split; cbn [g_outputs]; set_solver.
Qed.
End gather_ok.

(** * [derivationStrict] *)

Section runs.
Context (cfg : Config) (hashString : HashAlgorithm → str → Hash) (store : StoreOps) (E : Evaluator).

Lemma evalM_bind {A B} (m : EM A) (f : A → IM B) s hs r s' hs' :
  (evalM m ≫= f) (s, hs) = (Ok r, (s', hs')) → ∃ a s1, m s = (Ok a, s1) ∧ f a (s1, hs) = (Ok r, (s', hs')).
Proof using Type. unfold mbind, StE_bind, evalM. cbn [fst snd]. destruct (m s) as [[a|] s1]; [|done]. intros H. by exists a, s1. Qed.
Lemma tableM_bind {A B} (m : ST A) (f : A → IM B) s hs r s' hs' :
  (tableM m ≫= f) (s, hs) = (Ok r, (s', hs')) → ∃ a hs1, m hs = (Ok a, hs1) ∧ f a (s, hs1) = (Ok r, (s', hs')).
Proof using Type. unfold mbind, StE_bind, tableM. cbn [fst snd]. destruct (m hs) as [[a|] hs1]; [|done]. intros H. by exists a, hs1. Qed.

Lemma derivationStrict_inv fuel args s hs v s' hs' :
  prim_derivationStrict cfg hashString store E fuel args (s, hs) = (Ok v, (s', hs')) →
  ∃ name b s1 g s2 drvPath drv, gather cfg E fuel b s1 = (Ok g, s2) ∧
    instantiate cfg hashString store fuel name g hs = (Ok (drvPath, drv), hs') ∧
    result_value cfg hashString drvPath drv s2 = (Ok v, s').
Proof using Type.
  unfold prim_derivationStrict, derivationStrictInternal. intros H.
  apply evalM_bind in H as (a & t1 & _ & H). apply evalM_bind in H as (b & t2 & _ & H).
  apply evalM_bind in H as (n & t3 & _ & H). apply evalM_bind in H as (name & t4 & _ & H).
  apply evalM_bind in H as (u & t5 & _ & H). apply evalM_bind in H as (g & s2 & Eg & H).
  apply tableM_bind in H as ([drvPath drv] & hs1 & Ei & H). unfold evalM in H. cbn [fst snd] in H.
  destruct (result_value cfg hashString drvPath drv s2) as [r s3] eqn:Er. injection H as -> <- <-. by exists name, b, t5, g, s2, drvPath, drv.
Qed.
End runs.

(** [C5] Every derivation that evaluation makes passes the check made when it is
    registered. If [derivationStrict] returns, whatever the attributes and the
    evaluator did and of whichever kind the derivation is, then it was written
    under a store path that has its name, the table of hashes has its hash, and
    [checkInvariants], run by any process whose table of hashes is right,
    recomputes the paths of the outputs from the derivation and finds them in
    the outputs and in the variables. The value returned is made from that
    derivation, none of whose outputs is called [drvPath]. *)
Theorem instantiated_derivation_checks cfg hashString store E rank N args s hs v s' hs' :
  (∀ a s, hash_regular (hashString a s) ∧ algo (hashString a s) = a) → store_dir_ok (storeDir cfg) →
  (∀ contents name refs p, addText store contents name refs = Ok p →
     makeFixedOutputPathFromCA (xpSettings cfg) (storeDir cfg) hashString name (TextInfo (hashString SHA256 contents) refs) = Ok p) →
  ranked (readInvalidDerivation store) rank → (∀ p, (rank p < N)%nat) →
  table_ok (xpSettings cfg) (storeDir cfg) hashString (readInvalidDerivation store) rank hs →
  prim_derivationStrict cfg hashString store E (S N) args (s, hs) = (Ok v, (s', hs')) →
  ∃ drvPath drv h,
    writeDerivation cfg hashString store drv = Ok drvPath ∧ sp_wf drvPath ∧ sp_name drvPath = drv_name (basic drv) ++ drvExtension ∧
    hash_modulo (xpSettings cfg) (storeDir cfg) hashString (readInvalidDerivation store) (S N) drv false = Ok h ∧ hs' !! drvPath = Some h ∧
    outputs (basic drv) ≠ ∅ ∧ ("drvPath"%str ∉ dom (outputs (basic drv))) ∧ (∃ s2, result_value cfg hashString drvPath drv s2 = (Ok v, s')) ∧
    ∀ hs2, table_ok (xpSettings cfg) (storeDir cfg) hashString (readInvalidDerivation store) rank hs2 →
      ∃ hs3, checkInvariants (xpSettings cfg) (storeDir cfg) hashString (readInvalidDerivation store) (S N) drv drvPath hs2 = (Ok tt, hs3).
Proof.
  intros Hhash Hdir Hadd Hrank HN Hh H. apply derivationStrict_inv in H as (name & b & s1 & g & s2 & drvPath & drv & Eg & Ei & Er).
  destruct (yields_run _ _ _ _ _ (gather_ok cfg E (S N) b) Eg) as [Hg Hnot].
  destruct (instantiate_ok cfg hashString store Hhash Hdir rank N Hrank HN Hadd name g hs drvPath drv hs' Hg Hh Ei)
    as (Hn & Hdom & _ & Hw & (h & Eh & El) & Hc).
  destruct (writeDerivation_ok cfg hashString store Hhash Hadd drv drvPath Hw) as [Hp Hpn].
  exists drvPath, drv, h. split_and!; try done.
  - intros E0. apply Hg. rewrite <- Hdom, E0. apply dom_empty_L.
  - by rewrite Hdom.
  - by exists s2.
  - intros hs2 Hh2. destruct (Hc hs2 Hh2) as (hs3 & Ec & _). by exists hs3.
Qed.

(** * Placeholders *)

Lemma outputPathName_inj n o1 o2 : outputPathName n o1 = outputPathName n o2 → o1 = o2.
Proof.
  unfold outputPathName. destruct (str_eqb o1 "out") eqn:E1, (str_eqb o2 "out") eqn:E2; intros E.
  - by rewrite (proj1 (str_eqb_true _ _) E1), (proj1 (str_eqb_true _ _) E2).
  - apply (f_equal length) in E. rewrite !length_app in E. cbn in E. lia.
  - apply (f_equal length) in E. rewrite !length_app in E. cbn in E. lia.
  - by do 2 apply app_inv_head in E.
Qed.

Section placeholders.
Context (xp : XpSettings) (hashString : HashAlgorithm → str → Hash).
Context (Hhash : ∀ a s, hash_regular (hashString a s) ∧ algo (hashString a s) = a).
Abbreviation placeholder := (fromSingleDerivedPathBuilt xp hashString).
Abbreviation digest160 := (digest160 xp hashString).

(** The text a placeholder is the hash of. *)
Fixpoint placeholder_text (d : SingleDerivedPath) (o : str) : str :=
  match d with
  | SOpaque p =>
      "bsd-upstream-output:" ++ hashPart p ++ ":" ++
        outputPathName (take (Z.to_nat (u64 (Z.of_nat (length (sp_name p)) - 4))) (sp_name p)) o
  | SBuilt d' o' => "bsd-computed-output:" ++ digest160 (placeholder_text d' o') ++ ":" ++ o
  end.
(** All texts that are hashed on the way. *)
Fixpoint placeholder_texts (d : SingleDerivedPath) (o : str) : list str :=
  placeholder_text d o :: match d with SOpaque _ => [] | SBuilt d' o' => placeholder_texts d' o' end.

Lemma placeholder_clear d : ∀ o h, placeholder d o = Ok h → h = hashString SHA256 (placeholder_text d o).
Proof using Hhash.
  induction d as [p|d IH o']; intros o h; cbn [fromSingleDerivedPathBuilt placeholder_text].
  - unfold unknownCaOutput. destruct (require_feature _ _); [|done]. cbn [mbind result_bind]. by intros [= <-].
  - destruct (placeholder d o') as [h'|] eqn:E; [|done]. apply IH in E as ->. cbn [mbind result_bind].
    unfold unknownDerivation. destruct (require_feature _ _); [|done]. cbn [mbind result_bind].
    destruct (compress_sha256 xp hashString Hhash (placeholder_text d o')) as (h' & E & Hw & Hs). unfold ContentAddress.digest160. rewrite E.
    cbn [mbind result_bind]. rewrite to_string_body by done. by intros [= <-].
Qed.

Lemma clear_opaque p1 p2 n1 n2 : sp_wf p1 → sp_wf p2 →
  "bsd-upstream-output:" ++ hashPart p1 ++ ":" ++ n1 = "bsd-upstream-output:" ++ hashPart p2 ++ ":" ++ n2 →
  hashPart p1 = hashPart p2 ∧ n1 = n2.
Proof using Type.
  intros [[H1 _] _] [[H2 _] _] E. apply app_inv_head in E. apply app_inj_1 in E as [E1 E2].
  - split; [done|]. by apply app_inv_head in E2.
  - unfold hashPart. rewrite !length_take. unfold HashLen in *. lia.
Qed.
Lemma texts_head d o : placeholder_text d o ∈ placeholder_texts d o.
Proof using Type. destruct d; left. Qed.

Lemma placeholder_text_inj d1 : ∀ d2 o1 o2,
  sp_wf (Single_getBaseStorePath d1) → sp_wf (Single_getBaseStorePath d2) →
  (hashPart (Single_getBaseStorePath d1) = hashPart (Single_getBaseStorePath d2) → Single_getBaseStorePath d1 = Single_getBaseStorePath d2) →
  separates digest160 (placeholder_texts d1 o1) (placeholder_texts d2 o2) →
  placeholder_text d1 o1 = placeholder_text d2 o2 → d1 = d2 ∧ o1 = o2.
Proof using Hhash.
  induction d1 as [p1|d1 IH o1']; intros [p2|d2 o2'] o1 o2 W1 W2 Hb Hs Ec; cbn [placeholder_text Single_getBaseStorePath] in *.
  - apply clear_opaque in Ec as [Ep Eo]; [|done|done]. rewrite (Hb Ep) in Eo |- *. apply outputPathName_inj in Eo as ->. done.
  - discriminate Ec.
  - discriminate Ec.
  - apply app_inv_head in Ec. apply app_inj_1 in Ec as [Ed Eo]; [|by rewrite !(proj1 (digest160_ok xp hashString Hhash _))].
    apply app_inv_head in Eo as ->. apply (separates_inj _ _ _ _ _ Hs) in Ed; [|right; apply texts_head..].
    destruct (IH d2 o1' o2') as [-> ->]; [done|done|done| |done|done].
    eapply separates_mono; [exact Hs|by intros ?; right..].
Qed.
End placeholders.

(** [C21] A placeholder identifies the output it stands for. Consider two outputs
    whose paths are not known, at any depth of derivations that make
    derivations. Let SHA-256 and its 160-bit compressed digest be different on
    the texts that are hashed for them, as far as these differ, and let the
    derivations they come from have different hash parts if they are different.
    Then both are represented by the same string exactly if they are the same
    output of the same derivation. *)
Theorem placeholder_identifies_output xp storeDir hashString d1 o1 d2 o2 s1 s2 :
  (∀ a s, hash_regular (hashString a s) ∧ algo (hashString a s) = a) →
  sp_wf (Single_getBaseStorePath d1) → sp_wf (Single_getBaseStorePath d2) →
  (hashPart (Single_getBaseStorePath d1) = hashPart (Single_getBaseStorePath d2) → Single_getBaseStorePath d1 = Single_getBaseStorePath d2) →
  separates (hashString SHA256) (placeholder_texts xp hashString d1 o1) (placeholder_texts xp hashString d2 o2) →
  separates (digest160 xp hashString) (placeholder_texts xp hashString d1 o1) (placeholder_texts xp hashString d2 o2) →
  mkOutputStringRaw xp hashString storeDir d1 o1 None = Ok s1 → mkOutputStringRaw xp hashString storeDir d2 o2 None = Ok s2 →
  s1 = s2 ↔ d1 = d2 ∧ o1 = o2.
Proof.
  intros Hhash W1 W2 Hb Hs Hd E1 E2. split; [|intros [-> ->]; rewrite E1 in E2; by injection E2]. intros <-. revert E1 E2.
  unfold mkOutputStringRaw.
  destruct (fromSingleDerivedPathBuilt _ _ d1 o1) as [h1|] eqn:E1; [|done]. destruct (fromSingleDerivedPathBuilt _ _ d2 o2) as [h2|] eqn:E2; [|done].
  cbn [mbind result_bind]. unfold DownstreamPlaceholder_render.
  apply (placeholder_clear _ _ Hhash) in E1, E2. subst h1 h2.
  destruct (Hhash SHA256 (placeholder_text xp hashString d1 o1)) as [R1 A1], (Hhash SHA256 (placeholder_text xp hashString d2 o2)) as [R2 A2].
  rewrite !to_string_body by (apply R1 || apply R2). cbn [mbind result_bind]. intros [= <-] [= E].
  apply (placeholder_text_inj xp hashString Hhash); [done|done|done|done|]. apply (separates_inj _ _ _ _ _ Hs); [apply texts_head|apply texts_head|].
  apply (digits32_inj _ _ R1 R2); [congruence|done].
Qed.

(** * Texts with another hash *)

(** With [outputHashMode = "text"] the algorithm of [outputHash] is not checked
    before the path is computed, which asserts that it is SHA-256. *)
Lemma text_hash_asserted cfg hashString g outputHash drv h :
  g_ingestion g = Some CAM_Text → g_outputs g = {["out"%str]} →
  newHashAllowEmpty (xpSettings cfg) outputHash (g_outputHashAlgo g) = Ok h → algo h ≠ SHA256 →
  fixed_output cfg hashString g outputHash drv = Throw AssertionFailure.
Proof.
  intros Hi Ho Hh Ha. unfold fixed_output. rewrite Ho, Hi, Hh, bool_decide_eq_true_2 by done. cbn [negb mbind result_bind default].
  unfold CAFixed_path, withoutRefs, default, id. cbn [ca_method ca_hash from_option]. unfold makeFixedOutputPathFromCA, assertR.
  by rewrite bool_decide_eq_false_2.
Qed.

(** * Examples *)

(** A store in which [sample_read] reads derivations, and every derivation is its own closure. *)
Definition sample_ops : StoreOps :=
  MkStoreOps (λ p, Ok {[p; sample_path "src"]}) sample_read sample_read (λ _ _ _, Throw (Error "read-only")) (λ _, Ok "{}"%str).
Definition sample_gathered : Gathered :=
  MkGathered "/bin/sh" "x86" [] ∅
    [CtxOpaque (sample_path "x"); CtxDrvDeep (sample_path "a.drv"); CtxBuilt (SOpaque (sample_path "a.drv")) "dev"]
    false false None None None {["out"%str]} None.

Lemma context_becomes_input_witness :
  ∃ drv, unfinished sample_ops "b" sample_gathered = Ok drv ∧
    is_input sample_ops drv (CtxDrvDeep (sample_path "a.drv")) ∧
    is_input sample_ops drv (CtxBuilt (SOpaque (sample_path "a.drv")) "dev").
Proof.
  destruct (unfinished sample_ops "b" sample_gathered) as [drv|e] eqn:E.
  2: { exfalso. assert (match unfinished sample_ops "b" sample_gathered with Ok _ => true | Throw _ => false end = true) as H by (vm_compute; reflexivity).
    rewrite E in H. discriminate H. }
  exists drv. split; [reflexivity|].
  split; apply (context_becomes_input sample_ops "b" sample_gathered drv); try exact E;
    try (repeat constructor; vm_compute; reflexivity); repeat first [left | right]; done.
Defined.

(** A derivation with an output of [a.drv] in an attribute. *)
Definition sample_eval : EvalState :=
  MkState
    [VString "b" []; VString "x86" []; mkString "/bin/sh" [CtxBuilt (SOpaque (sample_path "a.drv")) "out"]; VAttrs [(sName, 0%nat); (sSystem, 1%nat); (sBuilder, 2%nat)]]
    [] initial_symbols ∅ 0.

Lemma sample_added contents name refs p : addText sample_ops contents name refs = Ok p →
  makeFixedOutputPathFromCA (xpSettings sample_cfg) (storeDir sample_cfg) zero_hash name (TextInfo (zero_hash SHA256 contents) refs) = Ok p.
Proof. intros H. discriminate H. Qed.
Lemma sample_rank_bound (p : StorePath) : (0 < 1)%nat.
Proof. auto. Qed.
Lemma sample_table : table_ok (xpSettings sample_cfg) (storeDir sample_cfg) zero_hash (readInvalidDerivation sample_ops) (λ _, 0%nat) ∅.
Proof. intros p h H. by rewrite lookup_empty in H. Qed.

Lemma instantiated_derivation_checks_witness :
  ∃ v s' hs' drvPath drv h, prim_derivationStrict sample_cfg zero_hash sample_ops (evaluator sample_cfg 5) 2 [3%nat] (sample_eval, ∅) = (Ok v, (s', hs')) ∧
    writeDerivation sample_cfg zero_hash sample_ops drv = Ok drvPath ∧ hs' !! drvPath = Some h ∧
    ∃ hs3, checkInvariants [] "/bsd/store" zero_hash sample_read 2 drv drvPath ∅ = (Ok tt, hs3).
Proof.
  destruct (prim_derivationStrict sample_cfg zero_hash sample_ops (evaluator sample_cfg 5) 2 [3%nat] (sample_eval, ∅)) as [[v|e] [s' hs']] eqn:E.
  - pose proof (instantiated_derivation_checks sample_cfg zero_hash sample_ops (evaluator sample_cfg 5) (λ _, 0%nat) 1 [3%nat] sample_eval ∅ v s' hs'
      zero_hash_ok (proj1 sample_dir_ok) sample_added sample_ranked sample_rank_bound sample_table E) as (drvPath & drv & h & Hw & _ & _ & _ & Hl & _ & _ & _ & Hc).
    destruct (Hc ∅ sample_table) as [hs3 Hx]. exists v, s', hs', drvPath, drv, h.
    split; [reflexivity|]. split; [exact Hw|]. split; [exact Hl|]. exists hs3. exact Hx.
  - exfalso. assert (match (prim_derivationStrict sample_cfg zero_hash sample_ops (evaluator sample_cfg 5) 2 [3%nat] (sample_eval, ∅)).1 with
      | Ok _ => true | Throw _ => false end = true) as H by (vm_compute; reflexivity). rewrite E in H. discriminate H.
Defined.

(** Two outputs of a derivation made by a derivation. *)
Lemma placeholder_identifies_output_witness : ∃ s1 s2,
  mkOutputStringRaw [CaDerivations; DynamicDerivations] poly_hash "/bsd/store" (SBuilt (SOpaque (sample_path "a.drv")) "out") "dev" None = Ok s1 ∧
  mkOutputStringRaw [CaDerivations; DynamicDerivations] poly_hash "/bsd/store" (SBuilt (SOpaque (sample_path "a.drv")) "x") "dev" None = Ok s2 ∧
  (s1 = s2 ↔ SBuilt (SOpaque (sample_path "a.drv")) "out" = SBuilt (SOpaque (sample_path "a.drv")) "x" ∧ ("dev"%str : str) = "dev"%str).
Proof.
  eexists _, _. split; [vm_compute; reflexivity|]. split; [vm_compute; reflexivity|].
  eapply (placeholder_identifies_output [CaDerivations; DynamicDerivations] "/bsd/store" poly_hash
    (SBuilt (SOpaque (sample_path "a.drv")) "out") "dev" (SBuilt (SOpaque (sample_path "a.drv")) "x") "dev");
    [apply poly_hash_ok|apply (bool_decide_unpack _); vm_compute; exact I..|vm_compute; reflexivity|vm_compute; reflexivity].
Defined.

(** A floating derivation with an output whose name has an exclamation mark. *)
Definition floating_cfg : Config :=
  MkConfig 10000 "/bsd/store" [CaDerivations] (λ _ _, Throw (Error "no such file")) (λ _, "0.5"%str) (λ _ _, None)
    (λ _, Throw (Error "not built")) (λ _, Ok tt) true.
Definition floating_eval : EvalState :=
  MkState
    [VString "b" []; VString "x86" []; VString "/bin/sh" []; VString "a!b" []; VBool true;
     VAttrs [(sName, 0%nat); (sSystem, 1%nat); (sOutputs, 3%nat); (sBuilder, 2%nat); (sContentAddressed, 4%nat)]]
    [] initial_symbols ∅ 0.
Definition floating_run : IM Value := prim_derivationStrict floating_cfg zero_hash sample_ops (evaluator floating_cfg 5) 2 [5%nat].
(** The contexts of its attributes, read back. *)
Definition floating_result : result (list (result BsdStringContextElem)) :=
  let '(r, (s, _)) := floating_run (floating_eval, ∅) in
  v ← r;
  match v with
  | VAttrs b => Ok (b ≫= λ i, match values s !! i.2 with Some (VString _ c) => map (ctx_parse [CaDerivations]) c | _ => [] end)
  | _ => Throw (Error "no set")
  end.
Lemma floating_bad_output :
  floating_result = Ok [Ok (CtxDrvDeep (sample_path "b.drv")); Throw (MissingExperimentalFeature "dynamic-derivations")].
Proof. vm_compute. reflexivity. Qed.
