(* ===== verification/InstantiateSet.v ===== *)
(** The set [derivationStrict] returns: the path of the derivation and the
    strings of its outputs, each with the context that makes it an input of what
    it is used in. *)

From S2P Require Import Prelude State Strings Xp Hash FileSystem StorePath ContentAddress Derivation DerivedPath DrvHash Expr Value Eval Primops.
From S2P Require Import Instantiate EvalInv EvalSafe InstantiateOk.

Section result.
Context (cfg : Config) (hashString : HashAlgorithm → str → Hash) (drvPath : StorePath) (drv : Derivation).

(** The string of an output. *)
Definition output_string (id : str) (o : DerivationOutput) : result str :=
  drvName ← nameFromPath drvPath;
  path ← DerivationOutput_path (xpSettings cfg) (storeDir cfg) hashString o drvName id;
  mkOutputStringRaw (xpSettings cfg) hashString (storeDir cfg) (SOpaque drvPath) id path.

(** The table of symbols and the heap only grow. *)
Definition grows (s s' : EvalState) : Prop := symbols s `prefix_of` symbols s' ∧ values s `prefix_of` values s'.
Definition named (s : EvalState) (y : Symbol) (x : str) : Prop := symbol_str (symbols s) y = Some x.
Definition output_entry (s : EvalState) (x : str * DerivationOutput) (i : Attr) : Prop :=
  named s i.1 x.1 ∧ ∃ t, output_string x.1 x.2 = Ok t ∧ values s !! i.2 = Some (mkString t [CtxBuilt (SOpaque drvPath) x.1]).
Definition drv_entry (s : EvalState) (i : Attr) : Prop :=
  i.1 = sDrvPath ∧ named s sDrvPath "drvPath" ∧ values s !! i.2 = Some (mkString (printStorePath (storeDir cfg) drvPath) [CtxDrvDeep drvPath]).

Lemma named_grows s s' y x : grows s s' → named s y x → named s' y x.
Proof using Type. intros [H _]. unfold named, symbol_str. destruct y as [|i]; [done|]. intros E. by eapply prefix_lookup_Some. Qed.
Lemma output_entry_grows s s' x i : grows s s' → output_entry s x i → output_entry s' x i.
Proof using Type.
  intros Hg (H1 & t & H2 & H3). split; [by eapply named_grows|]. exists t. split; [done|]. eapply prefix_lookup_Some; [exact H3|apply Hg].
Qed.
Lemma drv_entry_grows s s' i : grows s s' → drv_entry s i → drv_entry s' i.
Proof using Type.
  intros Hg (H1 & H2 & H3). split_and!; [done|by eapply named_grows|]. eapply prefix_lookup_Some; [exact H3|apply Hg].
Qed.

(** Attributes built so far, for the outputs [l]. *)
Definition result_built (l : list (str * DerivationOutput)) (b : Builder) (s : EvalState) : Prop :=
  capacity b = S (size (outputs (basic drv))) ∧
  ∃ i k, bindings b = i :: k ∧ drv_entry s i ∧ Forall2 (output_entry s) l k.
Definition failed (e : exn) : Prop := ∃ id o, outputs (basic drv) !! id = Some o ∧ output_string id o = Throw e.

Lemma wp_createSymbol E x (Q : Symbol → EvalState → Prop) s :
  (∀ y s', grows s s' → named s' y x → Q y s') → wp E (createSymbol x) Q s.
Proof using Type.
  intros H. unfold wp, createSymbol, symbol_create. destruct (find_index x (symbols s)) as [i|] eqn:Ei; apply H.
  - split; done.
  - by apply find_index_Some in Ei.
  - split; [by apply prefix_app_r|done].
  - unfold named, symbol_str. cbn [symbols set_symbols]. by rewrite lookup_app_r, Nat.sub_diag.
Qed.
Lemma wp_alloc_attr E b y v (Q : Builder → EvalState → Prop) s :
  (length (bindings b) < capacity b)%nat →
  (∀ a s', grows s s' → values s' !! a = Some v → Q (MkBuilder (capacity b) (bindings b ++ [(y, a)])) s') →
  wp E (alloc_attr b y v) Q s.
Proof using Type.
  intros Hl H. unfold alloc_attr. apply st_bind. unfold wp at 1, allocValue. unfold push_back. rewrite (proj2 (Nat.ltb_lt _ _) Hl).
  apply st_ret, H; [split; [done|by apply prefix_app_r]|]. cbn [values set_values]. by rewrite lookup_app_r, Nat.sub_diag.
Qed.

Lemma output_attr_built l x k b s :
  map_sorted (outputs (basic drv)) = l ++ x :: k → result_built l b s →
  wp (λ e _, failed e) (output_attr cfg hashString drvPath b x) (result_built (l ++ [x])) s.
Proof using Type.
  intros El (Hc & i & a & Eb & Hi & Ha). unfold output_attr.
  assert (outputs (basic drv) !! x.1 = Some x.2) as Hx.
  { apply elem_of_map_sorted. rewrite El. destruct x. apply elem_of_app. right. by left. }
  assert (length l < size (outputs (basic drv)))%nat as Hl.
  { pose proof (Permutation_length (map_sorted_perm (outputs (basic drv)))) as E. rewrite length_map_to_list, El, length_app in E. cbn in E. lia. }
  apply st_bind, wp_createSymbol. intros y s1 Hg Hy. pose proof (λ e H, ex_intro (λ id, ∃ o, _) x.1 (ex_intro _ x.2 (conj Hx H)) : failed e) as F.
  unfold output_string in F.
  apply st_bind, st_lift. destruct (nameFromPath drvPath) as [n|e] eqn:En; [|by apply F; rewrite ?En].
  apply st_bind, st_lift. destruct (DerivationOutput_path _ _ _ _ _ _) as [p|e] eqn:Ep; [|by apply F; cbn [mbind result_bind]; rewrite Ep].
  apply st_bind, st_lift. destruct (mkOutputStringRaw _ _ _ _ _ _) as [t|e] eqn:Et; [|by apply F; cbn [mbind result_bind]; rewrite Ep; cbn [mbind result_bind]].
  apply wp_alloc_attr; [rewrite Eb, Hc; cbn; rewrite <- (Forall2_length _ _ _ Ha); lia|].
  intros c s2 Hg2 Hv. split; [done|]. exists i, (a ++ [(y, c)]). cbn [bindings]. split; [by rewrite Eb|].
  split; [by do 2 (eapply drv_entry_grows; [eassumption|])|]. apply Forall2_app.
  - eapply Forall2_impl; [exact Ha|]. intros. by do 2 (eapply output_entry_grows; [eassumption|]).
  - constructor; [|constructor]. split; [by eapply named_grows|]. exists t. split; [|done].
    unfold output_string. rewrite En. cbn [mbind result_bind]. rewrite Ep. cbn [mbind result_bind]. done.
Qed.
Lemma result_names b s : result_built (map_sorted (outputs (basic drv))) b s → "drvPath"%str ∉ dom (outputs (basic drv)) → NoDup (bindings b).*1.
Proof using Type.
  intros (_ & i & k & -> & (Ei & Hd & _) & Hk) Hnot. cbn [fmap list_fmap]. apply NoDup_cons. split.
  - intros (j & Ej & Hj)%list_elem_of_fmap. apply list_elem_of_lookup in Hj as [n Hn].
    destruct (Forall2_lookup_r _ _ _ _ _ Hk Hn) as ([id o] & Hx & Hy & _). apply Hnot. apply elem_of_dom. exists o.
    unfold named in Hd, Hy. rewrite <- Ej, Ei, Hd in Hy. injection Hy as ->. apply elem_of_map_sorted. by eapply list_elem_of_lookup_2.
  - clear Hd. assert (NoDup (map_sorted (outputs (basic drv))).*1) as Hn by apply map_sorted_NoDup.
    revert Hn Hk. generalize (map_sorted (outputs (basic drv))). intros l Hn Hk. induction Hk as [|x j l k Hj Hk IH]; [constructor|].
    cbn [fmap list_fmap] in Hn |- *. apply NoDup_cons in Hn as [Hx Hn]. apply NoDup_cons. split; [|auto].
    intros (j' & Ej & Hj')%list_elem_of_fmap. apply list_elem_of_lookup in Hj' as [n Hn'].
    destruct (Forall2_lookup_r _ _ _ _ _ Hk Hn') as (x' & Hx' & Hy & _). apply Hx. apply list_elem_of_fmap. exists x'.
    destruct Hj as [Hj _]. unfold named in Hj, Hy. rewrite <- Ej, Hj in Hy. injection Hy as ->. split; [done|]. by eapply list_elem_of_lookup_2.
Qed.

Lemma result_value_wp s :
  named s sDrvPath "drvPath" → "drvPath"%str ∉ dom (outputs (basic drv)) → Z.of_nat (S (size (outputs (basic drv)))) < 2 ^ 32 →
  wp (λ e _, failed e) (result_value cfg hashString drvPath drv)
    (λ v s', ∃ b l, v = VAttrs l ∧ result_built (map_sorted (outputs (basic drv))) b s' ∧ l ≡ₚ bindings b ∧ sorted_syms l.*1) s.
Proof using Type.
  intros Hs Hnot Hsize. unfold result_value, buildBindings. change (1 + ?n)%nat with (S n).
  rewrite (proj2 (Z.ltb_ge _ _)) by lia. apply st_bind, st_ret, st_bind, wp_alloc_attr; [cbn; lia|]. intros a s1 Hg Ha.
  apply st_bind. eapply (st_mono _ _ (result_built (map_sorted (outputs (basic drv))))).
  - eapply st_mono; [eapply (st_foldS _ _ (λ k b s, ∃ l, map_sorted (outputs (basic drv)) = l ++ k ∧ result_built l b s))|].
    + exists []. split; [done|]. split; [done|]. eexists _, []. split; [reflexivity|]. split; [|constructor].
      split_and!; [done|by eapply named_grows|done].
    + intros x k b s2 _ (l & El & Hb). eapply st_mono; [by eapply output_attr_built|]. intros b' s3 Hb'. exists (l ++ [x]).
      split; [by rewrite <- app_assoc|done].
    + intros b s2 (l & El & Hb). rewrite app_nil_r in El. by rewrite El.
  - intros b s2 Hb. unfold finish, attr_sort. apply st_bind. rewrite decide_True by (by eapply result_names). apply st_ret, st_ret.
    eexists b, _. split; [reflexivity|]. split; [done|]. split; [apply attr_sort_perm|apply attr_sort_sorted; by eapply result_names].
Qed.
End result.

(** [C22] The set a derivation is represented by. It has exactly one attribute per
    output and [drvPath]; each attribute is a string whose context names the
    derivation with all it needs, or that output of it, and the text is the path
    of the output if it is known and a placeholder otherwise. Making the set
    fails only if the string of an output cannot be made: capacity suffices and
    no name occurs twice, for which no output may be called [drvPath]. *)
Theorem derivation_set cfg hashString drvPath drv s :
  named s sDrvPath "drvPath" → "drvPath"%str ∉ dom (outputs (basic drv)) → Z.of_nat (S (size (outputs (basic drv)))) < 2 ^ 32 →
  match result_value cfg hashString drvPath drv s with
  | (Ok v, s') => ∃ b, v = VAttrs b ∧ sorted_syms b.*1 ∧ length b = S (size (outputs (basic drv))) ∧
      (∃ i, i ∈ b ∧ drv_entry cfg drvPath s' i) ∧
      ∀ id o, outputs (basic drv) !! id = Some o → ∃ i, i ∈ b ∧ output_entry cfg hashString drvPath s' (id, o) i
  | (Throw e, _) => failed cfg hashString drvPath drv e
  end.
Proof.
  intros Hs Hnot Hsize. pose proof (result_value_wp cfg hashString drvPath drv s Hs Hnot Hsize) as H. unfold wp in H.
  destruct (result_value cfg hashString drvPath drv s) as [[v|e] s']; [|done].
  destruct H as (b & l & -> & (_ & i & k & Eb & Hi & Hk) & Hl & Hsort). rewrite Eb in Hl. exists l. split_and!; [done|done| | |].
  - rewrite Hl. cbn. f_equal. rewrite <- (Forall2_length _ _ _ Hk), (Permutation_length (map_sorted_perm _)). apply length_map_to_list.
  - exists i. split; [|done]. rewrite Hl. by left.
  - intros id o Ho%elem_of_map_sorted. apply list_elem_of_lookup in Ho as [n Hn].
    destruct (Forall2_lookup_l _ _ _ _ _ Hk Hn) as (j & Hj & He). exists j. split; [|done]. rewrite Hl. right. by eapply list_elem_of_lookup_2.
Qed.

Lemma derivation_set_witness : ∃ b s',
  result_value sample_cfg zero_hash (sample_path "a.drv") (fetch_drv "http://a") sample_eval = (Ok (VAttrs b), s') ∧ length b = 2%nat ∧
  ∃ i, i ∈ b ∧ output_entry sample_cfg zero_hash (sample_path "a.drv") s' ("out"%str, CAFixed {| ca_method := CAM_Flat; ca_hash := zero_hash SHA256 [] |}) i.
Proof.
  pose proof (derivation_set sample_cfg zero_hash (sample_path "a.drv") (fetch_drv "http://a") sample_eval eq_refl) as H.
  destruct (result_value sample_cfg zero_hash (sample_path "a.drv") (fetch_drv "http://a") sample_eval) as [[v|e] s'] eqn:E.
  - destruct H as (b & -> & _ & Hl & _ & Ho); [by apply (bool_decide_unpack _); vm_compute|reflexivity|].
    exists b, s'. split; [reflexivity|]. split; [exact Hl|]. apply Ho. apply lookup_singleton_eq.
  - exfalso. assert (match (result_value sample_cfg zero_hash (sample_path "a.drv") (fetch_drv "http://a") sample_eval).1 with
      | Ok _ => true | Throw _ => false end = true) as H' by (vm_compute; reflexivity). rewrite E in H'. discriminate H'.
Defined.
